(* ===== verification/_CoqProject ===== *)
-Q . S2P
Prelude.v
Bytes.v
Protocol.v
ProtocolFacts.v
ProtocolSpec.v
Engine.v
EngineInv.v
EnginePut.v
EngineOps.v
EngineSpec.v
EngineLease.v
Sharded.v
ShardedInv.v
ShardedSpec.v
CacheSpec.v
CacheEngine.v
Concurrent.v
Consistent.v
Linear.v
ConcRoutes.v
Server.v
ServerFacts.v
ServerSpec.v
MetricsSpec.v
Connection.v
ConnRun.v
ConnSpec.v
Rejects.v
ConnLive.v
ServerInv.v
Worker.v
System.v
Numbers.v
Addr.v
AddrShow.v
Config.v
Startup.v
Cachebox.v
Client.v
ClientSpec.v
Exchange.v
Ai.v
AiJson.v
AiSpec.v
Bench.v
BenchSpec.v
BenchPass.v
BenchNative.v
BenchServed.v
BenchLoop.v
BenchFleet.v
BenchFleetSpec.v
BenchMain.v
BenchMainSpec.v
BenchTable.v
TestKit.v
EngineTests.v
ProtocolTests.v
ConfigTests.v
ClientTests.v
ServerTests.v
