(* ===== verification/Prelude.v ===== *)
(** * Cachebox: a verification development

    Cachebox is an in-memory cache server written in Rust.  Clients speak a
    binary, length-prefixed protocol over TCP or Unix sockets; the server
    decodes frames, executes them on a cache engine split into shards, and
    answers, in parallel when a client pipelines.  A small HTTP listener
    serves health and metrics.

    ** Parts of the program and where they are modelled

    - [crates/cachebox-protocol/src/lib.rs], the frame codec: [Bytes] (big-
      endian integers, slices, UTF-8), [Protocol] (module [Protocol] the data
      types, module [Codec] the [Cursor] as a reader monad, the decoders, the
      encoders as functions on the output buffer, the borrowed decoder).
      [ProtocolFacts] has the calculus of codes ([codes enc dec]: the decoder
      reads back what the encoder appended), [ProtocolSpec] the contract.
    - [src/engine.rs], [Engine<C>], one shard: [Engine].  The record [Engine]
      has the fields of the struct less the clock; every method is a function
      from the engine to its result and the engine after.  [EngineInv] states
      the invariant (the tag index and the expiry index are exactly those of
      the entries, the memory charged is their sum and within the limit) and
      that the private operations keep it; [EnginePut] and [EngineOps] do so
      for the public ones, which [EngineOps] collects in the type [Op] and the
      relation [step]; [EngineSpec] and [EngineLease] state the contract.
    - [src/engine.rs], [ShardedEngine<C>]: [Sharded], with the invariant in
      [ShardedInv] (each shard consistent and holding only the keys that hash
      to it, each stored tag routed to the shards that store it) and the
      contract in [ShardedSpec].  [Concurrent] refines a call to the sequence
      of its critical sections and interleaves the calls, [Consistent] is what
      holds of the engine between any two sections, and [ConcRoutes] says which
      interleavings keep the routes too.
    - What a cache promises, apart from how: [CacheSpec], an abstract store of
      items and leases with the events that act on it, and the class
      [CacheImpl] of what implements it, against which the facts on histories
      (reads return the last write, completions are of the last grant) are
      proved.  [CacheEngine] makes the engine an instance and [Linear] the
      interleaved sections of [Concurrent].
    - [src/server.rs], requests: [Server], module [Metrics] the sharded
      counters, module [Server] the request handlers in a state monad over
      [AppState], the framing of the read buffer, the coalescing of responses,
      the admin routes and the cleanup tick.  [ServerFacts] shows that handlers
      do not panic and keep the state consistent, from the states of
      [Consistent]; [ServerSpec], [Rejects], [MetricsSpec] and [ServerInv] state
      the contract.
    - [src/server.rs], connections: [Connection], the loop of
      [handle_native_connection] with its tasks, permits, channel and writer as
      step relations [ConnAct] (what the connection does) and [ConnStep] (and
      what others do to the state), failed reads and writes included.  Taking
      responses from the channel, coalescing and writing them is one step, and
      so is executing a frame; a task that panics is not a step.  [ConnRun]
      makes the steps computable, [ConnSpec] has the invariant and [ConnLive]
      the progress.
    - [src/server.rs], the whole: [Worker], the expiration worker's ticks among
      other calls; [System], every accepted connection, admin requests, ticks
      and the critical sections of calls in progress on the shared state, where
      the call of a connection's own step runs in one go; [Cachebox], the same from a configuration,
      with the router and the servers that tests and benchmark start.
    - [src/config.rs]: [Config], the command line and the help text, over the
      standard library's [str::parse] for integers ([Numbers]) and socket
      addresses ([Addr]) and the [Display] of addresses ([AddrShow]).
    - [src/main.rs] and [run] of [src/server.rs]: [Startup], a program over the
      answers of the operating system (a record [Os]) that leaves a list of
      events; the accept loops and [bind_native_unix_listener] are there too.
    - [clients/rust/cachebox-client/src/lib.rs]: [Client], the calls in an
      error monad over the client and its socket, and [ClientSpec]; [Exchange]
      joins the client and a connection of the server.
    - [clients/rust/cachebox-client/src/ai.rs]: [Ai], canonical JSON, normal
      forms, digests and keys, and the stream capture; [AiJson] shows that
      canonical JSON identifies values up to the order of object fields, and
      [AiSpec] states the contract.
    - [src/bin/cachebox-bench.rs]: [Bench], statistics, measuring loops and the
      scenarios in the process, as programs in a state monad; [BenchNative], the
      raw protocol client and the scenarios over one connection; [BenchFleet],
      connecting with retries, and the scenarios of sixteen clients and of a
      connection for each request; [BenchMain], the scenarios of the runtime
      and of the official client, the loopback servers, [async_main] and the
      table with its floating-point column.  [BenchSpec] and [BenchPass] state
      what is reported and that the scenarios pass, [BenchServed] and
      [BenchLoop] do so for the raw client, the latter joined to a connection
      of the server, [BenchFleetSpec] for the sixteen clients, [BenchMainSpec]
      for the official client, and [BenchTable] gives the rows of the table.
    - The [mod tests] of these files: [EngineTests], [ProtocolTests],
      [ConfigTests], [ClientTests] and [ServerTests], one program per test over
      the combinators of [TestKit], run on the model; the frames of
      [fixtures/native-protocol/v1/frames.json] are among them.

    The engine calls nothing of the other parts.  The server calls the sharded
    engine and the codec; the client calls the codec; the client and the
    server meet in [ClientSpec], [Exchange] and [BenchLoop], where the bytes one
    writes are those the other executes.

    ** How code becomes definitions

    Unsigned integers are [N] with saturation and wrapping written out ([+|],
    [-|], [+%]); [usize] is 64 bits wide.  [Vec<u8>] is [list byte], [String]
    is [string] (bytes), [HashMap] and [HashSet] are [gmap] and [gset],
    [BTreeSet<ExpiryKey>] is a [gset] whose [first] is the least key in the
    derived order.  [Result] is [result]; a panic is [None].  The unspecified
    iteration order of hash tables is the class [HashOrder] (every element is
    visited once) and, with the hash of [DefaultHasher], the class [ShardEnv];
    theorems hold for every instance.  An instance gives the order from the
    contents of the table alone, not from its history.  The clock is the sequence of readings
    [nat -> N] a call makes, so that no theorem assumes it constant or
    monotonic unless it says so; the instants of the benchmark likewise.  What
    the program takes from code outside the repository is a parameter: the
    hash of a key, the printing of JSON strings and numbers ([SerdeJson] with
    its laws), the answers of the operating system.

    ** What the theorems show

    - Consistency.  Every state an engine, or a sharded engine called by one
      caller at a time, can reach satisfies the invariant
      ([engine_reachable_inv], [sharded_reachable_inv]).  In the server, where
      calls overlap, all of it but the routes of the tag directory holds, from
      the start through any frames, admin requests and cleanup ticks
      ([server_invariant]) and with all connections and the sections of calls
      in progress at once ([system_serves]); so memory stays within the limit
      ([engine_memory_bounded], [sharded_memory_bounded]; of the program as
      configured, [cachebox_memory]) and no call panics.
    - Meaning of the operations, on every branch: [put] and its errors, reads
      after writes, deletion, exact tag invalidation, budgeted cleanup,
      eviction and its victim, the cost score ([engine_*]); invalidation by
      routes reaches every tagged entry ([sharded_invalidate_exact]).
    - Leases: one holder at a time, fresh tokens, and single flight over any
      sequence of calls ([lease_*]).
    - Concurrency: every interleaving of critical sections is a history of the
      abstract cache ([concurrent_linearizable]), so a read returns what the
      last write of its key stored ([concurrent_reads_last_write]) and a
      completion is accepted for the last grant only
      ([concurrent_completes_last_grant]); it keeps the shards consistent and
      panics nowhere ([concurrent_safe]); the tag directory can
      lose a route ([concurrent_route_lost]), and does not when no write stores
      a tag in a shard while another call is about to take the route of that
      tag away ([concurrent_routes_kept]).
    - The wire: requests and responses round trip, a proper prefix is
      incomplete, what decodes is valid, the borrowed decoder agrees with the
      owned one.
    - The server: the fast path is the reference path, a valid request is
      answered with its id and the result of executing it exactly when the
      response fits a frame, the metrics count requests and
      outcomes exactly, and frames are those the client sent whatever the
      chunks.  On a connection every frame taken from the stream is executed
      exactly once, in any interleaving ([connection_exactly_once]), and its
      tasks do not deadlock and come to rest with every response written, only
      an oversized header leaving complete frames behind
      ([connection_drains]); the
      expiration worker ends with every due entry gone ([worker_reclaims]).
    - The client: a call returns what the server computed; pipelined calls
      return in submission order whatever the order of the responses, also
      end to end over a connection ([pipelined_exchange]).
    - Start-up: what [run] binds, spawns, removes and aborts, and when it serves
      ([run_lifecycle]); the exit codes and texts of [main], and the arguments
      on which it panics ([main_exit]); every
      configuration accepted is valid, and the report of a configuration parses
      back to it ([report_roundtrip]).
    - Cache keys: two prompts have the same normal form exactly when they are
      equal up to the order of JSON fields ([prompt_normal_form]), and a key is
      a prefix and a digest in hexadecimal ([cache_key_format]).
    - The benchmark: percentiles are order statistics and samples disjoint
      intervals ([measure_report]), the scenarios in the process and the
      single-key scenario over a connection pass ([scenarios_pass],
      [native_get_passes]), so do the sixteen readers of the value that the
      setup client stored ([concurrent_get_passes]) and the official client
      ([official_scenarios_pass]); connecting ends within its five seconds
      ([connect_ends]), a pipelined round accepts the responses in any order,
      each once ([pipelined_round]), and what is printed is a row for each of
      the forty scenarios ([table_printed]).
    - The tests of the repository pass on the model ([engine_tests_pass],
      [protocol_tests_pass], [config_tests_pass], [client_tests_pass],
      [ai_tests_pass], [server_tests_pass]).  They hold for the canonical
      iteration order and one hash, and are a check of the definitions, not
      part of the contract; the lines they map are test code.

    Some theorems state behaviour that a reader of the code may not expect:
    [engine_reclaim_early] (cleanup removes an entry a millisecond before
    reads stop returning it), [lease_lost_by_cleanup], [engine_cost_drifts],
    [sharded_memory_exceeds_limit], [sharded_value_cap],
    [oversized_drops_requests], [server_rejects] (a frame with an invalid header
    does not close the connection), [concurrent_route_lost], [listener_ends]
    (the first failed accept ends a native listener for good).

    ** Fuel

    Loops that are not structural take fuel, and the callers pass enough for
    the loop to end by its own condition: [take_expired] the size of the
    expiry index (each turn removes a key), [evict_loop] one more than the
    number of entries (each turn removes one; [engine_evict_makes_room] shows
    the loop ends with room), [find_frames] one more than the length of the
    buffer (each turn advances by a header; [stream_frames] shows the frames
    found are all of those there), [measure_loop] of the benchmark the turns
    the clock allows (its theorems say for which number of turns it ends), and
    so [worker_loop]; [connect_loop] the attempts ([connect_ends]: 251 are
    enough, since each but the first waits twenty milliseconds of five seconds).  The other
    recursions are on the data.

    ** Not modelled

    The tokio runtime, the HTTP library and the sockets themselves: their
    answers are parameters.  In the scenarios joined to a connection
    ([BenchLoop], [BenchFleetSpec]) a request arrives whole, in one read.  A
    failed write to the standard output or error, on which [println!] panics.
    The panic of a spawned task: [server_answers] says for which responses the
    encoder panics, and the progress theorems exclude them.  Of the benchmark, the removal of the socket file
    at the end.  The Python client.  A mutex poisoned by a panic, since no
    section panics.  Integer overflow of the counters wraps, as in a release
    build.  Of the tests, what they ask of memory itself (addresses of borrowed
    fields, capacities of buffers).

    ** Order of the work

    The engine, its shards and the server came first, as the program's core;
    then the connection, the command line and the client; then the key
    derivation, start-up, the metrics, progress of a connection, the whole
    exchange of client and server, and the benchmark; then the abstract cache
    with linearizability, the worker, the whole server, the rest of the
    benchmark and the tests.

    This file is the prelude: machine integers, results, bytes, sums over
    finite maps, and the tactics and hint database the others share.
*)

From Stdlib Require Export Strings.Byte Strings.String.
From stdpp Require Export base tactics list list_numbers numbers option
  strings gmap fin_maps fin_sets sets pretty lexico countable.

#[export] Set Default Goal Selector "!".
#[export] Set Warnings "-clear-no-such-hyp,-register-all".

Open Scope N_scope.

(** ** Machine integers

    Unsigned Rust integers are natural numbers [N] kept at their width:
    [u64] and [usize] (the 64-bit targets the server is built for) range over
    [0 .. U64_MAX].  [saturating_add], [saturating_sub] and wrapping addition
    are written out; a plain [+] in the model is used only where the result
    is bounded by construction. *)

Definition U8_MAX : N := 255.
Definition U16_MAX : N := 65535.
Definition U32_MAX : N := 4294967295.
Definition U64_MAX : N := 18446744073709551615.
Definition USIZE_MAX : N := U64_MAX.

Declare Scope machine_scope.
Delimit Scope machine_scope with machine.

Definition sat_add (a b : N) : N := N.min (a + b) U64_MAX.
Definition sat_sub (a b : N) : N := a - b.
Definition wrap_add (a b : N) : N := (a + b) mod (U64_MAX + 1).

Notation "a +| b" := (sat_add a b) (at level 50, left associativity) : machine_scope.
Notation "a -| b" := (sat_sub a b) (at level 50, left associativity) : machine_scope.
Notation "a +% b" := (wrap_add a b) (at level 50, left associativity) : machine_scope.
Open Scope machine_scope.

(** [slice.len()] as a [usize]. *)
Definition len {A} (l : list A) : N := N.of_nat (length l).
Definition str_len (s : string) : N := N.of_nat (String.length s).

(** ** Results

    Rust's [Result<A, E>], with [?] as the bind [let? x := c in k]. *)

Inductive result (A E : Type) : Type :=
| Ok (a : A)
| Err (e : E).
Arguments Ok {A E} a.
Arguments Err {A E} e.

Definition is_ok {A E} (r : result A E) : bool :=
  match r with Ok _ => true | Err _ => false end.

Definition result_map_err {A E F} (f : E → F) (r : result A E) : result A F :=
  match r with Ok a => Ok a | Err e => Err (f e) end.

#[export] Instance result_eq_dec {A E} `{EqDecision A, EqDecision E} :
  EqDecision (result A E).
Proof. solve_decision. Defined.

(** ** Bytes

    A [u8] is [Byte.byte]; a [Vec<u8>] or [&[u8]] is a list of them. *)

Abbreviation bytes := (list byte).

#[export] Instance byte_eq_dec : EqDecision byte := Byte.byte_eq_dec.

#[export] Instance byte_countable : Countable byte :=
  inj_countable Byte.to_N Byte.of_N Byte.of_to_N.

(** [x as u8]: the low eight bits. *)
Definition byte_of_N (n : N) : byte :=
  match Byte.of_N (n mod 256) with Some b => b | None => x00 end.

Lemma byte_of_N_to_N (b : byte) : byte_of_N (Byte.to_N b) = b.
Proof.
  unfold byte_of_N. pose proof (Byte.to_N_bounded b).
  rewrite N.mod_small by lia. by rewrite Byte.of_to_N.
Qed.

Lemma to_N_byte_of_N (n : N) : Byte.to_N (byte_of_N n) = n mod 256.
Proof.
  unfold byte_of_N. destruct (Byte.of_N (n mod 256)) as [b|] eqn:E.
  - by apply Byte.to_of_N in E.
  - apply Byte.of_N_None_iff in E. pose proof (N.mod_upper_bound n 256). lia.
Qed.

#[export] Instance to_N_inj : Inj (=) (=) Byte.to_N.
Proof. intros a b H. rewrite <- (byte_of_N_to_N a), H. apply byte_of_N_to_N. Qed.

Lemma to_N_lt_256 (b : byte) : Byte.to_N b < 256.
Proof. pose proof (Byte.to_N_bounded b). lia. Qed.

(** ** Sums over finite maps

    The quantity [f] summed over the values of a map: the accounting fields of
    an engine are such sums. *)

Definition map_sum {K V} `{Countable K} (f : V → N) (m : gmap K V) : N :=
  map_fold (λ _ v acc, f v + acc) 0 m.

Section map_sum.
Context {K V : Type} `{Countable K} (f : V → N).
Implicit Types m : gmap K V.

Lemma map_sum_empty : map_sum f (∅ : gmap K V) = 0.
Proof. apply map_fold_empty. Qed.

Lemma map_sum_insert i v m :
  m !! i = None → map_sum f (<[i:=v]> m) = f v + map_sum f m.
Proof. intros. unfold map_sum. rewrite map_fold_insert_L; [done | lia | done]. Qed.

Lemma map_sum_delete i v m :
  m !! i = Some v → map_sum f m = f v + map_sum f (base.delete i m).
Proof.
  intros Hi. rewrite <- (insert_delete_id m i v) at 1 by done.
  apply map_sum_insert, lookup_delete_eq.
Qed.

Lemma map_sum_delete_le i m : map_sum f (base.delete i m) ≤ map_sum f m.
Proof.
  destruct (m !! i) as [v|] eqn:Hi.
  - rewrite (map_sum_delete i v m) by done. lia.
  - by rewrite delete_id.
Qed.

Lemma map_sum_update i v w m :
  m !! i = Some v → f w = f v → map_sum f (<[i:=w]> m) = map_sum f m.
Proof.
  intros Hi Hf. rewrite <- insert_delete_eq.
  rewrite map_sum_insert by apply lookup_delete_eq.
  rewrite (map_sum_delete i v m) by done. lia.
Qed.

Lemma map_sum_elem_le i v m : m !! i = Some v → f v ≤ map_sum f m.
Proof. intros Hi. rewrite (map_sum_delete i v m) by done. lia. Qed.

Lemma map_sum_size_le c m :
  (∀ i v, m !! i = Some v → c ≤ f v) → c * N.of_nat (size m) ≤ map_sum f m.
Proof.
  induction m as [|i v m Hi IH] using map_ind; intros Hc.
  - rewrite map_size_empty, map_sum_empty. lia.
  - rewrite map_size_insert_None, map_sum_insert by done.
    specialize (Hc i v) as Hv. rewrite lookup_insert_eq in Hv.
    specialize (Hv eq_refl).
    assert (c * N.of_nat (size m) ≤ map_sum f m) as IH'.
    { apply IH. intros j w Hj. apply (Hc j). rewrite lookup_insert_ne; [done|].
      intros ->. congruence. }
    lia.
Qed.
End map_sum.

(** ** Lists *)

(** [iter.min_by_key(f)]: the first element whose key is minimal. *)
Fixpoint min_by_key_from {A} (f : A → N) (best : A) (l : list A) : A :=
  match l with
  | [] => best
  | x :: l' => min_by_key_from f (if f x <? f best then x else best) l'
  end.

Definition min_by_key {A} (f : A → N) (l : list A) : option A :=
  match l with [] => None | x :: l' => Some (min_by_key_from f x l') end.

Lemma min_by_key_from_spec {A} (f : A → N) best l :
  let m := min_by_key_from f best l in
  (m = best ∨ m ∈ l) ∧ f m ≤ f best ∧ ∀ x, x ∈ l → f m ≤ f x.
Proof.
  revert best. induction l as [|x l IH]; intros best; simpl.
  - split; [by left|]. split; [lia|]. set_solver.
  - destruct (IH (if f x <? f best then x else best)) as (H1 & H2 & H3).
    destruct (N.ltb_spec (f x) (f best)); (split; [|split]).
    + right. set_solver.
    + lia.
    + intros y [->|Hy]%elem_of_cons; auto.
    + destruct H1; [by left|right; set_solver].
    + lia.
    + intros y [->|Hy]%elem_of_cons; [lia|auto].
Qed.

Lemma min_by_key_Some {A} (f : A → N) l x :
  min_by_key f l = Some x → x ∈ l ∧ ∀ y, y ∈ l → f x ≤ f y.
Proof.
  destruct l as [|a l]; simpl; [done|]. intros [= <-].
  destruct (min_by_key_from_spec f a l) as (H1 & H2 & H3). split.
  - destruct H1 as [->|]; set_solver.
  - intros y [->|Hy]%elem_of_cons; auto.
Qed.

Lemma min_by_key_None {A} (f : A → N) l : min_by_key f l = None → l = [].
Proof. by destruct l. Qed.

(** ** Options of sets *)

Lemma default_empty_None `{Countable A} (o : option (gset A)) :
  default ∅ o = ∅ → o ≠ Some ∅ → o = None.
Proof. destruct o; simpl; congruence. Qed.

Lemma pair_fst_eq {A B} (p : A * B) a : p.1 = a → p = (a, p.2).
Proof. destruct p. simpl. congruence. Qed.

(** ** Automation *)

(** [cbx]: an operation keeps the invariant of its component. *)
Create HintDb cbx.

(** Case analysis on every [match] and [if] of the goal and the hypotheses,
    closing impossible branches. *)
Ltac cases := repeat (case_match || case_decide); simplify_eq/=.

(** Close arithmetic goals over machine integers. *)
Ltac machine :=
  unfold sat_add, sat_sub, USIZE_MAX, U64_MAX, U32_MAX, U16_MAX, U8_MAX in *; lia.

Lemma sat_add_exact a b : a + b ≤ U64_MAX → (a +| b) = a + b.
Proof. machine. Qed.

Lemma sat_add_le_max a b : (a +| b) ≤ U64_MAX.
Proof. machine. Qed.

Lemma sat_add_le_iff a b m : m < U64_MAX → (a +| b) ≤ m ↔ a + b ≤ m.
Proof. machine. Qed.

Lemma sat_add_ge_l a b : a ≤ U64_MAX → a ≤ (a +| b).
Proof. machine. Qed.

(** Counting one more event with a wrapping counter. *)
Lemma wrap_count x x' n r :
  (x' + (r + 1)) mod (U64_MAX + 1) = ((x +% 1) + n) mod (U64_MAX + 1) →
  (x' + r) mod (U64_MAX + 1) = (x + n) mod (U64_MAX + 1).
Proof. unfold wrap_add, U64_MAX. zify. Z.to_euclidean_division_equations. lia. Qed.

(** ** Strings *)

Lemma string_app_assoc (a b c : string) : (a +:+ b) +:+ c = a +:+ b +:+ c.
Proof.
  induction a as [|x a IH]; [done|].
  change (String x ((a +:+ b) +:+ c) = String x (a +:+ b +:+ c)). by rewrite IH.
Qed.

Lemma string_app_cons x a b : String x a +:+ b = String x (a +:+ b).
Proof. done. Qed.

Lemma string_app_nil (a : string) : "" +:+ a = a.
Proof. done. Qed.

Lemma string_app_nil_r (a : string) : a +:+ "" = a.
Proof. induction a as [|x a IH]; [done|]. rewrite string_app_cons. by rewrite IH. Qed.

Definition newline : string := String (Ascii.ascii_of_nat 10) "".

(** The lines of a text, each ended by a newline. *)
Definition unlines (l : list string) : string := foldr (λ s acc, s +:+ newline +:+ acc) "" l.
