(* ===== verification/Bytes.v ===== *)
(** * Bytes: the parts of the Rust standard library the codec uses

    Big-endian integer conversion ([to_be_bytes], [from_be_bytes]), slice
    indexing and ranges, and the UTF-8 check of [String::from_utf8].  A Rust
    [String] is a Rocq [string] read as its UTF-8 bytes: one 8-bit character
    per byte, [as_bytes] being the conversion. *)

From S2P Require Import Prelude.

(** ** Big-endian integers of [w] bytes *)

Fixpoint to_be_bytes (w : nat) (v : N) : bytes :=
  match w with
  | O => []
  | S w' => to_be_bytes w' (v / 256) ++ [byte_of_N v]
  end.

Definition from_be_bytes (bs : bytes) : N :=
  foldl (λ acc b, acc * 256 + Byte.to_N b) 0 bs.

Lemma length_to_be_bytes w v : length (to_be_bytes w v) = w.
Proof.
  revert v. induction w as [|w IH]; intros v; simpl; [done|].
  rewrite length_app, IH. simpl. lia.
Qed.

Lemma from_be_bytes_snoc bs b :
  from_be_bytes (bs ++ [b]) = from_be_bytes bs * 256 + Byte.to_N b.
Proof. unfold from_be_bytes. by rewrite foldl_app. Qed.

Lemma from_to_be_bytes w v : v < 256 ^ N.of_nat w → from_be_bytes (to_be_bytes w v) = v.
Proof.
  revert v. induction w as [|w IH]; intros v Hv; simpl to_be_bytes.
  - change (256 ^ N.of_nat 0) with 1 in Hv. unfold from_be_bytes. simpl. lia.
  - rewrite Nat2N.inj_succ, N.pow_succ_r' in Hv.
    rewrite from_be_bytes_snoc, IH, to_N_byte_of_N.
    + rewrite (N.mul_comm _ 256), <- N.div_mod by done. done.
    + apply N.Div0.div_lt_upper_bound; lia.
Qed.

Lemma from_be_bytes_lt bs : from_be_bytes bs < 256 ^ len bs.
Proof.
  induction bs as [|b bs IH] using rev_ind; [done|].
  rewrite from_be_bytes_snoc. unfold len in *. rewrite length_app, Nat.add_1_r.
  rewrite Nat2N.inj_succ, N.pow_succ_r'. pose proof (to_N_lt_256 b). lia.
Qed.

Lemma to_from_be_bytes bs : to_be_bytes (length bs) (from_be_bytes bs) = bs.
Proof.
  induction bs as [|b bs IH] using rev_ind; [done|].
  rewrite from_be_bytes_snoc, length_app, Nat.add_1_r. simpl.
  pose proof (to_N_lt_256 b).
  assert ((from_be_bytes bs * 256 + Byte.to_N b) / 256 = from_be_bytes bs) as ->.
  { symmetry. apply (N.div_unique _ _ _ (Byte.to_N b)); lia. }
  rewrite IH. f_equal. f_equal. apply to_N_inj. rewrite to_N_byte_of_N.
  rewrite N.add_comm, N.Div0.mod_add. by apply N.mod_small.
Qed.

(** ** Slices *)

(** [input[i]]; the code panics out of range, every use is behind a length
    check. *)
Definition index (input : bytes) (i : nat) : byte := default x00 (input !! i).

(** [&input[start..end]] *)
Definition slice {A} (l : list A) (start stop : N) : list A :=
  take (N.to_nat (stop - start)) (drop (N.to_nat start) l).

Lemma slice_app_mid {A} (pre mid post : list A) :
  slice (pre ++ mid ++ post) (len pre) (len pre + len mid) = mid.
Proof.
  unfold slice, len.
  replace (N.to_nat (N.of_nat (length pre) + N.of_nat (length mid) - N.of_nat (length pre)))
    with (length mid) by lia.
  rewrite Nat2N.id, drop_app_length. apply take_app_length.
Qed.

Lemma len_app {A} (l k : list A) : len (l ++ k) = len l + len k.
Proof. unfold len. rewrite length_app. lia. Qed.

Lemma len_nil {A} : len (@nil A) = 0.
Proof. done. Qed.

Lemma len_cons {A} (x : A) l : len (x :: l) = 1 + len l.
Proof. unfold len. simpl. lia. Qed.

Lemma len_to_be_bytes w v : len (to_be_bytes w v) = N.of_nat w.
Proof. unfold len. by rewrite length_to_be_bytes. Qed.

Lemma len_slice {A} (l : list A) a b : b ≤ len l → len (slice l a b) = b - a.
Proof. unfold len, slice. intros. rewrite length_take, length_drop. lia. Qed.

(** ** Strings *)

Definition as_bytes (s : string) : bytes := String.list_byte_of_string s.

Lemma as_bytes_inj : Inj (=) (=) as_bytes.
Proof.
  intros s t H. rewrite <- (String.string_of_list_byte_of_string s).
  unfold as_bytes in H. rewrite H. apply String.string_of_list_byte_of_string.
Qed.

Lemma len_as_bytes s : len (as_bytes s) = str_len s.
Proof.
  unfold len, as_bytes, str_len, String.list_byte_of_string.
  rewrite length_map. f_equal. induction s; simpl; congruence.
Qed.

(** [u8] in an inclusive range. *)
Definition in_range (lo hi : N) (b : byte) : bool :=
  (lo <=? Byte.to_N b) && (Byte.to_N b <=? hi).

(** A UTF-8 continuation byte, [10xxxxxx]. *)
Definition is_cont (b : byte) : bool := in_range 128 191 b.

(** The check of [std::str::from_utf8]: well-formed UTF-8 byte sequences
    (Unicode, table 3-7), that is no overlong encoding, no surrogate and
    nothing above U+10FFFF. *)
Fixpoint utf8_valid (bs : bytes) : bool :=
  match bs with
  | [] => true
  | b0 :: r0 =>
    if in_range 0 127 b0 then utf8_valid r0
    else match r0 with
    | [] => false
    | b1 :: r1 =>
      if in_range 194 223 b0 then is_cont b1 && utf8_valid r1
      else match r1 with
      | [] => false
      | b2 :: r2 =>
        if in_range 224 224 b0 then in_range 160 191 b1 && is_cont b2 && utf8_valid r2
        else if in_range 225 236 b0 || in_range 238 239 b0
          then is_cont b1 && is_cont b2 && utf8_valid r2
        else if in_range 237 237 b0 then in_range 128 159 b1 && is_cont b2 && utf8_valid r2
        else match r2 with
        | [] => false
        | b3 :: r3 =>
          if in_range 240 240 b0
            then in_range 144 191 b1 && is_cont b2 && is_cont b3 && utf8_valid r3
          else if in_range 241 243 b0
            then is_cont b1 && is_cont b2 && is_cont b3 && utf8_valid r3
          else if in_range 244 244 b0
            then in_range 128 143 b1 && is_cont b2 && is_cont b3 && utf8_valid r3
          else false
        end
      end
    end
  end.

(** [String::from_utf8] *)
Definition from_utf8 (bs : bytes) : option string :=
  if utf8_valid bs then Some (String.string_of_list_byte bs) else None.

(** The invariant of the type [String]: its bytes are valid UTF-8. *)
Definition string_ok (s : string) : Prop := utf8_valid (as_bytes s) = true.

Lemma from_utf8_as_bytes s : string_ok s → from_utf8 (as_bytes s) = Some s.
Proof.
  intros Hs. unfold from_utf8. rewrite Hs. f_equal.
  apply String.string_of_list_byte_of_string.
Qed.

Lemma from_utf8_Some bs s : from_utf8 bs = Some s → bs = as_bytes s ∧ string_ok s.
Proof.
  unfold from_utf8, string_ok, as_bytes. intros H. case_match; simplify_eq.
  by rewrite String.list_byte_of_string_of_list_byte.
Qed.

Lemma utf8_valid_ascii bs : forallb (in_range 0 127) bs = true → utf8_valid bs = true.
Proof.
  induction bs as [|b bs IH]; simpl; [done|].
  intros [Hb Hbs]%andb_true_iff. rewrite Hb. auto.
Qed.

Create Rewrite HintDb cbx_len.
#[export] Hint Rewrite @len_app @len_nil @len_cons len_to_be_bytes len_as_bytes : cbx_len.

(** ** ASCII text

    Decimal numbers and the literals of the messages are ASCII, hence valid
    UTF-8, and a [u64] prints in at most 20 digits. *)

Definition ascii_text (s : string) : Prop := forallb (in_range 0 127) (as_bytes s) = true.

Lemma ascii_text_ok s : ascii_text s → string_ok s.
Proof. apply utf8_valid_ascii. Qed.

Lemma as_bytes_cons a s : as_bytes (String a s) = Ascii.byte_of_ascii a :: as_bytes s.
Proof. done. Qed.

Lemma as_bytes_app s t : as_bytes (s +:+ t) = as_bytes s ++ as_bytes t.
Proof.
  induction s as [|a s IH]; [done|]. change (String a s +:+ t) with (String a (s +:+ t)).
  rewrite !as_bytes_cons, IH. done.
Qed.

Lemma ascii_text_app s t : ascii_text s → ascii_text t → ascii_text (s +:+ t).
Proof. unfold ascii_text. rewrite as_bytes_app, forallb_app. intros -> ->. done. Qed.

Lemma str_len_app s t : str_len (s +:+ t) = str_len s + str_len t.
Proof. rewrite <- !len_as_bytes, as_bytes_app. apply len_app. Qed.

Lemma str_len_cons a s : str_len (String a s) = 1 + str_len s.
Proof. unfold str_len. simpl. lia. Qed.

Lemma pretty_digit_ascii x s : ascii_text s → ascii_text (String (pretty_N_char x) s).
Proof.
  unfold ascii_text. intros Hs. rewrite as_bytes_cons. simpl. rewrite Hs, andb_true_r.
  unfold pretty_N_char. by repeat case_match.
Qed.

Lemma pretty_go_ascii k x s :
  x < 10 ^ N.of_nat k → ascii_text s →
  ascii_text (pretty_N_go x s) ∧ str_len (pretty_N_go x s) ≤ N.of_nat k + str_len s.
Proof.
  revert x s. induction k as [|k IH]; intros x s Hx Hs.
  - change (10 ^ N.of_nat 0) with 1 in Hx. assert (x = 0) as -> by lia.
    rewrite pretty_N_go_0. split; [done|lia].
  - destruct (decide (x = 0)) as [->|Hx0]; [rewrite pretty_N_go_0; split; [done|lia]|].
    rewrite pretty_N_go_step by lia. rewrite Nat2N.inj_succ, N.pow_succ_r' in Hx.
    destruct (IH (x / 10) (String (pretty_N_char (x mod 10)) s)) as [H1 H2].
    + apply N.Div0.div_lt_upper_bound. lia.
    + by apply pretty_digit_ascii.
    + split; [done|]. rewrite str_len_cons in H2. lia.
Qed.

Lemma pretty_u64 n : n ≤ U64_MAX → ascii_text (pretty n) ∧ str_len (pretty n) ≤ 20.
Proof.
  intros Hn. unfold pretty, pretty_N. case_decide; [by subst|].
  destruct (pretty_go_ascii 20 n "") as [H1 H2]; [|done|by split].
  apply (N.le_lt_trans _ U64_MAX); [done|]. by vm_compute.
Qed.
