(* ===== verification/Protocol.v ===== *)
(** * Protocol: the native socket frame codec

    [crates/cachebox-protocol/src/lib.rs].  Requests and responses as the
    inductive types of the source, the reading cursor, one decoder and one
    encoder per payload, and the frame functions that compose them.  An
    encoder takes the output buffer it appends to and returns it; a decoder
    takes a cursor and returns the value with the advanced cursor, or the
    [DecodeError] the source returns with [?]. *)

From S2P Require Import Prelude Bytes.

Module Protocol.

Definition MAGIC : bytes := as_bytes "CBX1".
Definition VERSION : byte := x01.
Definition HEADER_LEN : N := 24.
Definition KIND_REQUEST : byte := x00.
Definition KIND_RESPONSE : byte := x01.

(** ** Data *)

Inductive Command :=
| Get | Put | Delete | BatchGet | TagInvalidate | LeaseStart | LeaseComplete.

#[export] Instance Command_eq_dec : EqDecision Command.
Proof. solve_decision. Defined.

Record Ttl := { milliseconds : N }.

#[export] Instance Ttl_eq_dec : EqDecision Ttl.
Proof. solve_decision. Defined.

Inductive ContentType := OctetStream | Other.

#[export] Instance ContentType_eq_dec : EqDecision ContentType.
Proof. solve_decision. Defined.

Record Metadata := {
  md_ttl : option Ttl;
  md_stale_ttl : option Ttl;
  md_cost : option N;
  md_tags : list string;
  md_content_type : ContentType
}.

Definition Metadata_default : Metadata :=
  {| md_ttl := None; md_stale_ttl := None; md_cost := None; md_tags := [];
     md_content_type := OctetStream |}.

Inductive RequestPayload :=
| RGet (namespace : string) (key : bytes)
| RPut (namespace : string) (key : bytes) (metadata : Metadata) (value : bytes)
| RDelete (namespace : string) (key : bytes)
| RBatchGet (namespace : string) (keys : list bytes)
| RTagInvalidate (namespace : string) (tag : string)
| RLeaseStart (namespace : string) (key : bytes) (lease_ttl_ms : N)
    (allow_stale_ms : option N)
| RLeaseComplete (namespace : string) (key : bytes) (lease_token : string)
    (metadata : Metadata) (value : bytes).

Inductive RequestPayloadView :=
| VGet (namespace : string) (key : bytes)
| VDelete (namespace : string) (key : bytes)
| VTagInvalidate (namespace : string) (tag : string)
| VLeaseStart (namespace : string) (key : bytes) (lease_ttl_ms : N)
    (allow_stale_ms : option N).

Record RequestFrame := {
  rq_request_id : N;
  rq_command : Command;
  rq_payload : RequestPayload
}.

Record RequestFrameView := {
  rv_request_id : N;
  rv_command : Command;
  rv_payload : RequestPayloadView
}.

Inductive BatchItem := BHit (value : bytes) | BStale (value : bytes) | BMiss.

Inductive ErrorCode :=
| BadFrame | UnsupportedVersion | UnknownCommand | InvalidNamespace | InvalidTag
| InvalidTtl | ValueTooLarge | EntryTooLarge | InsufficientMemory
| InvalidLeaseToken | FrameTooLarge.

#[export] Instance ErrorCode_eq_dec : EqDecision ErrorCode.
Proof. solve_decision. Defined.

Inductive ResponsePayload :=
| POk
| PHit (value : bytes)
| PStale (value : bytes)
| PMiss
| PStored (evicted : N)
| PDeleted (removed : bool)
| PInvalidated (removed : N)
| PLeaseGranted (lease_token : string) (stale_value : option bytes)
| PLeaseDenied
| PError (code : ErrorCode) (message : string)
| PBatchGet (items : list BatchItem).

Inductive ResponsePayloadView := WHit (value : bytes) | WStale (value : bytes) | WMiss.

Record ResponseFrame := {
  rs_request_id : N;
  rs_command : Command;
  rs_payload : ResponsePayload
}.

Inductive DecodeError :=
| DIncompleteHeader
| DBadMagic
| DUnsupportedVersion (version : byte)
| DInvalidKind (kind : byte)
| DUnknownCommand (id : byte)
| DNonzeroFlags (flags : byte)
| DNonzeroReserved (reserved : N)
| DFrameTooLarge (payload_len max : N)
| DTruncatedPayload (expected actual : N)
| DInvalidPayload (what : string)
| DInvalidUtf8
| DInvalidNamespace
| DInvalidTag
| DInvalidBool (value : byte)
| DTrailingBytes (n : N).

Definition Command_id (c : Command) : byte :=
  match c with
  | Get => x01 | Put => x02 | Delete => x03 | BatchGet => x04
  | TagInvalidate => x05 | LeaseStart => x06 | LeaseComplete => x07
  end.

Definition Command_from_id (id : byte) : result Command DecodeError :=
  match Byte.to_N id with
  | 1 => Ok Get
  | 2 => Ok Put
  | 3 => Ok Delete
  | 4 => Ok BatchGet
  | 5 => Ok TagInvalidate
  | 6 => Ok LeaseStart
  | 7 => Ok LeaseComplete
  | _ => Err (DUnknownCommand id)
  end.

Definition ErrorCode_id (c : ErrorCode) : N :=
  match c with
  | BadFrame => 1 | UnsupportedVersion => 2 | UnknownCommand => 3
  | InvalidNamespace => 4 | InvalidTag => 5 | InvalidTtl => 6
  | ValueTooLarge => 7 | EntryTooLarge => 8 | InsufficientMemory => 9
  | InvalidLeaseToken => 10 | FrameTooLarge => 11
  end.

Definition ErrorCode_from_id (id : N) : result ErrorCode DecodeError :=
  match id with
  | 1 => Ok BadFrame | 2 => Ok UnsupportedVersion | 3 => Ok UnknownCommand
  | 4 => Ok InvalidNamespace | 5 => Ok InvalidTag | 6 => Ok InvalidTtl
  | 7 => Ok ValueTooLarge | 8 => Ok EntryTooLarge | 9 => Ok InsufficientMemory
  | 10 => Ok InvalidLeaseToken | 11 => Ok FrameTooLarge
  | _ => Err (DInvalidPayload "unknown error code")
  end.

(** ** Validation *)

Definition is_ascii_alphanumeric (b : byte) : bool :=
  in_range 48 57 b || in_range 65 90 b || in_range 97 122 b.

Definition byte_is (c : byte) (b : byte) : bool := bool_decide (b = c).

Definition is_valid_namespace (namespace : string) : bool :=
  negb (bool_decide (namespace = ""%string)) &&
  forallb (λ byte, is_ascii_alphanumeric byte || byte_is x2d byte || byte_is x5f byte)
    (as_bytes namespace).

Definition is_valid_tag (tag : string) : bool :=
  negb (bool_decide (tag = ""%string)) &&
  forallb (λ byte, is_ascii_alphanumeric byte ||
      (byte_is x2d byte || byte_is x5f byte || byte_is x3a byte || byte_is x2e byte
       || byte_is x2f byte))
    (as_bytes tag).

(** ** The cursor *)

Record Cursor := { c_input : bytes; c_offset : N }.

Definition Cursor_new (input : bytes) : Cursor := {| c_input := input; c_offset := 0 |}.

(** A reading operation on [&mut Cursor]. *)
Definition Reader (A : Type) : Type := Cursor → result (A * Cursor) DecodeError.

Definition rret {A} (a : A) : Reader A := λ c, Ok (a, c).
Definition rfail {A} (e : DecodeError) : Reader A := λ _, Err e.
Definition rbind {A B} (p : Reader A) (k : A → Reader B) : Reader B := λ c,
  match p c with
  | Ok (a, c') => k a c'
  | Err e => Err e
  end.
End Protocol.

Notation "x ⇐ p ; k" := (Protocol.rbind p (λ x, k))
  (at level 100, p at level 99, right associativity, k at level 200) : machine_scope.

Module Codec.
Import Protocol.

Definition read_exact (n : N) : Reader bytes := λ c,
  let stop := c_offset c + n in
  if USIZE_MAX <? stop then Err (DInvalidPayload "length overflow")
  else if len (c_input c) <? stop then Err (DInvalidPayload "truncated field")
  else Ok (slice (c_input c) (c_offset c) stop,
           {| c_input := c_input c; c_offset := stop |}).

Definition read_u8 : Reader byte := λ c,
  match c_input c !! N.to_nat (c_offset c) with
  | None => Err (DInvalidPayload "truncated u8")
  | Some byte => Ok (byte, {| c_input := c_input c; c_offset := c_offset c + 1 |})
  end.

Definition read_u16 : Reader N := bs ⇐ read_exact 2; rret (from_be_bytes bs).
Definition read_u32 : Reader N := bs ⇐ read_exact 4; rret (from_be_bytes bs).
Definition read_u64 : Reader N := bs ⇐ read_exact 8; rret (from_be_bytes bs).

Definition read_bool : Reader bool :=
  value ⇐ read_u8;
  match Byte.to_N value with
  | 0 => rret false
  | 1 => rret true
  | _ => rfail (DInvalidBool value)
  end.

Definition read_bytes : Reader bytes := n ⇐ read_u32; read_exact n.

Definition read_string : Reader string :=
  bs ⇐ read_bytes;
  match from_utf8 bs with
  | Some s => rret s
  | None => rfail DInvalidUtf8
  end.

Definition read_borrowed_bytes : Reader bytes := n ⇐ read_u32; read_exact n.

Definition read_borrowed_string : Reader string :=
  bs ⇐ read_borrowed_bytes;
  match from_utf8 bs with
  | Some s => rret s
  | None => rfail DInvalidUtf8
  end.

Definition expect_empty : Reader unit := λ c,
  if c_offset c =? len (c_input c) then Ok (tt, c)
  else Err (DTrailingBytes (len (c_input c) - c_offset c)).

Definition read_namespace : Reader string :=
  namespace ⇐ read_string;
  if negb (is_valid_namespace namespace) then rfail DInvalidNamespace
  else rret namespace.

Definition read_tag : Reader string :=
  tag ⇐ read_string;
  if negb (is_valid_tag tag) then rfail DInvalidTag else rret tag.

Definition read_borrowed_namespace : Reader string :=
  namespace ⇐ read_borrowed_string;
  if negb (is_valid_namespace namespace) then rfail DInvalidNamespace
  else rret namespace.

Definition read_borrowed_tag : Reader string :=
  tag ⇐ read_borrowed_string;
  if negb (is_valid_tag tag) then rfail DInvalidTag else rret tag.

(** [for _ in 0..n { out.push(read(cursor)?) }] *)
Fixpoint read_many {A} (n : nat) (p : Reader A) : Reader (list A) :=
  match n with
  | O => rret []
  | S n' => x ⇐ p; xs ⇐ read_many n' p; rret (x :: xs)
  end.

Definition nonzero_ttl (ms : N) : option Ttl :=
  match ms with 0 => None | _ => Some {| milliseconds := ms |} end.

Definition nonzero (v : N) : option N :=
  match v with 0 => None | _ => Some v end.

Definition read_metadata : Reader Metadata :=
  ttl_ms ⇐ read_u64;
  stale_ttl_ms ⇐ read_u64;
  has_cost ⇐ read_bool;
  cost ⇐ (if has_cost : bool then c ⇐ read_u64; rret (Some c)
          else _ignored_cost ⇐ read_u64; rret None);
  tag_count ⇐ read_u16;
  tags ⇐ read_many (N.to_nat tag_count) read_tag;
  ct ⇐ read_u8;
  content_type ⇐ (match Byte.to_N ct with
                   | 0 => rret OctetStream
                   | 1 => rret Other
                   | _ => rfail (DInvalidPayload "invalid content type")
                   end);
  rret {| md_ttl := nonzero_ttl ttl_ms; md_stale_ttl := nonzero_ttl stale_ttl_ms;
          md_cost := cost; md_tags := tags; md_content_type := content_type |}.

Definition decode_request_payload (command : Command) : Reader RequestPayload :=
  match command with
  | Get => namespace ⇐ read_namespace; key ⇐ read_bytes; rret (RGet namespace key)
  | Put =>
    namespace ⇐ read_namespace; key ⇐ read_bytes; metadata ⇐ read_metadata;
    value ⇐ read_bytes; rret (RPut namespace key metadata value)
  | Delete => namespace ⇐ read_namespace; key ⇐ read_bytes; rret (RDelete namespace key)
  | BatchGet =>
    namespace ⇐ read_namespace;
    key_count ⇐ read_u32;
    if key_count =? 0
    then rfail (DInvalidPayload "batch get requires at least one key")
    else keys ⇐ read_many (N.to_nat key_count) read_bytes; rret (RBatchGet namespace keys)
  | TagInvalidate =>
    namespace ⇐ read_namespace; tag ⇐ read_tag; rret (RTagInvalidate namespace tag)
  | LeaseStart =>
    namespace ⇐ read_namespace; key ⇐ read_bytes;
    lease_ttl_ms ⇐ read_u64;
    if lease_ttl_ms =? 0
    then rfail (DInvalidPayload "lease ttl must be greater than zero")
    else allow ⇐ read_u64;
         rret (RLeaseStart namespace key lease_ttl_ms (nonzero allow))
  | LeaseComplete =>
    namespace ⇐ read_namespace; key ⇐ read_bytes;
    lease_token ⇐ read_string;
    if bool_decide (lease_token = ""%string)
    then rfail (DInvalidPayload "lease token must be non-empty")
    else metadata ⇐ read_metadata; value ⇐ read_bytes;
         rret (RLeaseComplete namespace key lease_token metadata value)
  end.

Definition read_batch_item : Reader BatchItem :=
  status ⇐ read_u8;
  match Byte.to_N status with
  | 1 => value ⇐ read_bytes; rret (BHit value)
  | 2 => value ⇐ read_bytes; rret (BStale value)
  | 3 => rret BMiss
  | _ => rfail (DInvalidPayload "invalid batch item status")
  end.

Definition decode_response_payload (command : Command) : Reader ResponsePayload :=
  status ⇐ read_u8;
  match Byte.to_N status with
  | 0 =>
    if bool_decide (command = BatchGet)
    then item_count ⇐ read_u32;
         items ⇐ read_many (N.to_nat item_count) read_batch_item;
         rret (PBatchGet items)
    else rret POk
  | 1 => value ⇐ read_bytes; rret (PHit value)
  | 2 => value ⇐ read_bytes; rret (PStale value)
  | 3 => rret PMiss
  | 4 => evicted ⇐ read_u32; rret (PStored evicted)
  | 5 => removed ⇐ read_bool; rret (PDeleted removed)
  | 6 => removed ⇐ read_u32; rret (PInvalidated removed)
  | 7 =>
    lease_token ⇐ read_string;
    has_stale ⇐ read_bool;
    if has_stale : bool
    then value ⇐ read_bytes; rret (PLeaseGranted lease_token (Some value))
    else rret (PLeaseGranted lease_token None)
  | 8 => rret PLeaseDenied
  | 255 =>
    id ⇐ read_u16;
    match ErrorCode_from_id id with
    | Ok code => message ⇐ read_string; rret (PError code message)
    | Err e => rfail e
    end
  | _ => rfail (DInvalidPayload "unknown response status")
  end.

(** ** Encoders: each appends to the output buffer *)

Definition write_u16 (out : bytes) (value : N) : bytes := out ++ to_be_bytes 2 value.
Definition write_u32 (out : bytes) (value : N) : bytes := out ++ to_be_bytes 4 value.
Definition write_u64 (out : bytes) (value : N) : bytes := out ++ to_be_bytes 8 value.

Definition push (out : bytes) (b : byte) : bytes := out ++ [b].

Definition write_bool (out : bytes) (value : bool) : bytes :=
  push out (if value then x01 else x00).

(** [value.len() as u32] keeps the low 32 bits, which [to_be_bytes 4] does. *)
Definition write_bytes (out : bytes) (value : bytes) : bytes :=
  write_u32 out (len value) ++ value.

Definition write_string (out : bytes) (value : string) : bytes :=
  write_bytes out (as_bytes value).

Definition write_metadata (out : bytes) (metadata : Metadata) : bytes :=
  let out := write_u64 out (from_option milliseconds 0 (md_ttl metadata)) in
  let out := write_u64 out (from_option milliseconds 0 (md_stale_ttl metadata)) in
  let out := write_bool out (bool_decide (is_Some (md_cost metadata))) in
  let out := write_u64 out (default 0 (md_cost metadata)) in
  let out := write_u16 out (len (md_tags metadata)) in
  let out := foldl write_string out (md_tags metadata) in
  push out (match md_content_type metadata with OctetStream => x00 | Other => x01 end).

Definition encode_request_payload (payload : RequestPayload) (out : bytes) : bytes :=
  match payload with
  | RGet namespace key | RDelete namespace key =>
    write_bytes (write_string out namespace) key
  | RPut namespace key metadata value =>
    write_bytes (write_metadata (write_bytes (write_string out namespace) key) metadata) value
  | RBatchGet namespace keys =>
    foldl write_bytes (write_u32 (write_string out namespace) (len keys)) keys
  | RTagInvalidate namespace tag => write_string (write_string out namespace) tag
  | RLeaseStart namespace key lease_ttl_ms allow_stale_ms =>
    write_u64 (write_u64 (write_bytes (write_string out namespace) key) lease_ttl_ms)
      (default 0 allow_stale_ms)
  | RLeaseComplete namespace key lease_token metadata value =>
    write_bytes
      (write_metadata
        (write_string (write_bytes (write_string out namespace) key) lease_token) metadata)
      value
  end.

Definition write_batch_item (out : bytes) (item : BatchItem) : bytes :=
  match item with
  | BHit value => write_bytes (push out x01) value
  | BStale value => write_bytes (push out x02) value
  | BMiss => push out x03
  end.

Definition encode_response_payload (payload : ResponsePayload) (out : bytes) : bytes :=
  match payload with
  | POk => push out x00
  | PHit value => write_bytes (push out x01) value
  | PStale value => write_bytes (push out x02) value
  | PMiss => push out x03
  | PStored evicted => write_u32 (push out x04) evicted
  | PDeleted removed => write_bool (push out x05) removed
  | PInvalidated removed => write_u32 (push out x06) removed
  | PLeaseGranted lease_token stale_value =>
    let out := write_string (push out x07) lease_token in
    let out := write_bool out (bool_decide (is_Some stale_value)) in
    match stale_value with Some value => write_bytes out value | None => out end
  | PLeaseDenied => push out x08
  | PError code message => write_string (write_u16 (push out xff) (ErrorCode_id code)) message
  | PBatchGet items => foldl write_batch_item (write_u32 (push out x00) (len items)) items
  end.

Definition encode_response_payload_view (payload : ResponsePayloadView) (out : bytes) : bytes :=
  match payload with
  | WHit value => write_bytes (push out x01) value
  | WStale value => write_bytes (push out x02) value
  | WMiss => push out x03
  end.

(** [out[16..20].copy_from_slice(b)] *)
Definition patch_payload_len (out : bytes) (b : bytes) : bytes :=
  take 16 out ++ b ++ drop 20 out.

(** [None] is the panic of [assert!(u32::try_from(payload_len).is_ok())].  The
    buffer passed in is cleared first, so that what it held does not matter. *)
Definition encode_frame_into {T} (kind : byte) (command : Command) (request_id : N)
    (payload : T) (encode_payload : T → bytes → bytes) (out : bytes) : option bytes :=
  let out : bytes := [] in
  let out := out ++ MAGIC in
  let out := push out VERSION in
  let out := push out kind in
  let out := push out (Command_id command) in
  let out := push out x00 in
  let out := out ++ to_be_bytes 8 request_id in
  let out := out ++ to_be_bytes 4 0 in
  let out := out ++ to_be_bytes 4 0 in
  let payload_start := len out in
  let out := encode_payload payload out in
  let payload_len := len out - payload_start in
  if U32_MAX <? payload_len then None
  else Some (patch_payload_len out (to_be_bytes 4 payload_len)).

Definition encode_request_frame_into (frame : RequestFrame) (out : bytes) : option bytes :=
  encode_frame_into KIND_REQUEST (rq_command frame) (rq_request_id frame)
    (rq_payload frame) encode_request_payload out.

Definition encode_request_frame (frame : RequestFrame) : option bytes :=
  encode_request_frame_into frame [].

Definition encode_response_frame_into (frame : ResponseFrame) (out : bytes) : option bytes :=
  encode_frame_into KIND_RESPONSE (rs_command frame) (rs_request_id frame)
    (rs_payload frame) encode_response_payload out.

Definition encode_response_frame (frame : ResponseFrame) : option bytes :=
  encode_response_frame_into frame [].

Definition encode_response_payload_view_frame_into (request_id : N) (command : Command)
    (payload : ResponsePayloadView) (out : bytes) : option bytes :=
  encode_frame_into KIND_RESPONSE command request_id payload
    encode_response_payload_view out.

(** ** Frame decoders *)

Record Header := { h_command : byte; h_request_id : N; h_payload_len : N }.

Definition decode_header (input : bytes) (max_payload_len : N) (expected_kind : byte) :
    result Header DecodeError :=
  if len input <? HEADER_LEN then Err DIncompleteHeader
  else if negb (bool_decide (slice input 0 4 = MAGIC)) then Err DBadMagic
  else let version := index input 4 in
  if negb (bool_decide (version = VERSION)) then Err (DUnsupportedVersion version)
  else let kind := index input 5 in
  if negb (bool_decide (kind = expected_kind)) then Err (DInvalidKind kind)
  else let command := index input 6 in
  let flags := index input 7 in
  if negb (bool_decide (flags = x00)) then Err (DNonzeroFlags flags)
  else let request_id := from_be_bytes (slice input 8 16) in
  let payload_len := from_be_bytes (slice input 16 20) in
  if max_payload_len <? payload_len then Err (DFrameTooLarge payload_len max_payload_len)
  else let reserved := from_be_bytes (slice input 20 24) in
  if negb (reserved =? 0) then Err (DNonzeroReserved reserved)
  else Ok {| h_command := command; h_request_id := request_id; h_payload_len := payload_len |}.

Definition decode_request_frame (input : bytes) (max_payload_len : N) :
    result RequestFrame DecodeError :=
  match decode_header input max_payload_len KIND_REQUEST with
  | Err e => Err e
  | Ok header =>
    let payload_start := HEADER_LEN in
    let payload_end := payload_start + h_payload_len header in
    if len input <? payload_end then Err (DTruncatedPayload payload_end (len input))
    else match Command_from_id (h_command header) with
    | Err e => Err e
    | Ok command =>
      let cursor := Cursor_new (slice input payload_start payload_end) in
      match (payload ⇐ decode_request_payload command; _ ⇐ expect_empty; rret payload) cursor with
      | Err e => Err e
      | Ok (payload, _) =>
        Ok {| rq_request_id := h_request_id header; rq_command := command;
              rq_payload := payload |}
      end
    end
  end.

Definition decode_request_payload_view (command : Command) : Reader (option RequestPayloadView) :=
  match command with
  | Get =>
    namespace ⇐ read_borrowed_namespace; key ⇐ read_borrowed_bytes;
    rret (Some (VGet namespace key))
  | Delete =>
    namespace ⇐ read_borrowed_namespace; key ⇐ read_borrowed_bytes;
    rret (Some (VDelete namespace key))
  | TagInvalidate =>
    namespace ⇐ read_borrowed_namespace; tag ⇐ read_borrowed_tag;
    rret (Some (VTagInvalidate namespace tag))
  | LeaseStart =>
    namespace ⇐ read_borrowed_namespace; key ⇐ read_borrowed_bytes;
    lease_ttl_ms ⇐ read_u64;
    if lease_ttl_ms =? 0
    then rfail (DInvalidPayload "lease ttl must be greater than zero")
    else allow ⇐ read_u64;
         rret (Some (VLeaseStart namespace key lease_ttl_ms (nonzero allow)))
  | Put | BatchGet | LeaseComplete => rret None
  end.

Definition decode_borrowed_request_frame (input : bytes) (max_payload_len : N) :
    result (option RequestFrameView) DecodeError :=
  match decode_header input max_payload_len KIND_REQUEST with
  | Err e => Err e
  | Ok header =>
    let payload_start := HEADER_LEN in
    let payload_end := payload_start + h_payload_len header in
    if len input <? payload_end then Err (DTruncatedPayload payload_end (len input))
    else match Command_from_id (h_command header) with
    | Err e => Err e
    | Ok command =>
      let cursor := Cursor_new (slice input payload_start payload_end) in
      match decode_request_payload_view command cursor with
      | Err e => Err e
      | Ok (Some payload, cursor') =>
        match expect_empty cursor' with
        | Err e => Err e
        | Ok _ =>
          Ok (Some {| rv_request_id := h_request_id header; rv_command := command;
                      rv_payload := payload |})
        end
      | Ok (None, _) => Ok None
      end
    end
  end.

Definition decode_response_frame (input : bytes) (max_payload_len : N) :
    result ResponseFrame DecodeError :=
  match decode_header input max_payload_len KIND_RESPONSE with
  | Err e => Err e
  | Ok header =>
    let payload_start := HEADER_LEN in
    let payload_end := payload_start + h_payload_len header in
    if len input <? payload_end then Err (DTruncatedPayload payload_end (len input))
    else match Command_from_id (h_command header) with
    | Err e => Err e
    | Ok command =>
      let cursor := Cursor_new (slice input payload_start payload_end) in
      match (payload ⇐ decode_response_payload command; _ ⇐ expect_empty; rret payload) cursor with
      | Err e => Err e
      | Ok (payload, _) =>
        Ok {| rs_request_id := h_request_id header; rs_command := command;
              rs_payload := payload |}
      end
    end
  end.

(** The frame of the test [get_request_matches_golden_bytes]. *)
Example get_request_golden :
  encode_request_frame
    {| rq_request_id := 0x0102030405060708; rq_command := Get;
       rq_payload := RGet "default" (as_bytes "k") |}
  = Some (as_bytes "CBX1" ++
      [x01; x00; x01; x00; x01; x02; x03; x04; x05; x06; x07; x08;
       x00; x00; x00; x10; x00; x00; x00; x00; x00; x00; x00; x07] ++
      as_bytes "default" ++ [x00; x00; x00; x01] ++ as_bytes "k").
Proof. reflexivity. Qed.
End Codec.
