(* ===== verification/ProtocolFacts.v ===== *)
(** * ProtocolFacts: the codec reads back what it writes

    A writer [w] and a reader [p] agree on a value [v] ([codes w p v]) when
    what [w] appends to any buffer is read back as [v] by [p] at any offset of
    any input, the cursor ending right after it.  Agreement composes, so each
    payload is one chain of the lemmas on its fields.  The frame functions are
    then proved to round trip, to reject every truncation, to accept only
    valid requests, and the borrowed decoder is proved equivalent to the
    owned one. *)

From S2P Require Import Prelude Bytes Protocol.

Module ProtocolFacts.
Import Protocol Codec.

(** ** Agreement of a writer and a reader *)

Definition at_offset (pre rest : bytes) : Cursor :=
  {| c_input := pre ++ rest; c_offset := len pre |}.

Definition reads {A} (p : Reader A) (bs : bytes) (v : A) : Prop :=
  ∀ pre post, len (pre ++ bs ++ post) ≤ USIZE_MAX →
    p (at_offset pre (bs ++ post)) = Ok (v, at_offset (pre ++ bs) post).

Definition appends (w : bytes → bytes) (bs : bytes) : Prop := ∀ out, w out = out ++ bs.

Definition codes {A} (w : bytes → bytes) (p : Reader A) (v : A) : Prop :=
  ∃ bs, appends w bs ∧ reads p bs v.

Lemma at_offset_app pre bs post :
  {| c_input := pre ++ bs ++ post; c_offset := len pre + len bs |}
  = at_offset (pre ++ bs) post.
Proof. unfold at_offset. by rewrite len_app, <- app_assoc. Qed.

Lemma reads_bind {A B} (p : Reader A) (k : A → Reader B) bs bs' v v' :
  reads p bs v → reads (k v) bs' v' → reads (rbind p k) (bs ++ bs') v'.
Proof.
  intros Hp Hk pre post Hl. unfold rbind. rewrite <- app_assoc in *.
  rewrite Hp by done. rewrite app_assoc in Hl. rewrite Hk by done. by rewrite app_assoc.
Qed.

Lemma reads_ret {A} (v : A) : reads (rret v) [] v.
Proof. intros pre post _. unfold rret. by rewrite app_nil_r. Qed.

Lemma codes_ret {A} (v : A) : codes (λ out, out) (rret v) v.
Proof. exists []. split; [|apply reads_ret]. intros out. by rewrite app_nil_r. Qed.

Lemma codes_bind {A B} w w' (p : Reader A) (k : A → Reader B) v v' :
  codes w p v → codes w' (k v) v' → codes (λ out, w' (w out)) (rbind p k) v'.
Proof.
  intros (bs & Hw & Hr) (bs' & Hw' & Hr'). exists (bs ++ bs').
  split; [|by eapply reads_bind]. intros out. by rewrite Hw', Hw, app_assoc.
Qed.

Lemma codes_map {A B} w (p : Reader A) (k : A → Reader B) v v' :
  codes w p v → k v = rret v' → codes w (rbind p k) v'.
Proof.
  intros Hp Hk. apply (codes_bind w (λ out, out) p k v v' Hp). rewrite Hk.
  apply codes_ret.
Qed.

Lemma codes_appends {A} w (p : Reader A) v : codes w p v → appends w (w []).
Proof. intros (bs & Hw & _) out. by rewrite !Hw. Qed.

(** ** Fields *)

Lemma reads_exact bs n : len bs = n → reads (read_exact n) bs bs.
Proof.
  intros <- pre post Hl. unfold read_exact. cbn [at_offset c_input c_offset].
  rewrite !len_app in Hl. rewrite (proj2 (N.ltb_ge _ _)) by lia.
  rewrite (proj2 (N.ltb_ge _ _)) by (rewrite !len_app; lia).
  by rewrite slice_app_mid, at_offset_app.
Qed.

Lemma reads_u8 b : reads read_u8 [b] b.
Proof.
  intros pre post _. rewrite <- at_offset_app. unfold read_u8, at_offset.
  cbn [c_input c_offset]. unfold len at 1. rewrite Nat2N.id.
  change (pre ++ [b] ++ post) with (pre ++ b :: post).
  by rewrite list_lookup_middle.
Qed.

Lemma codes_u8 b : codes (λ out, push out b) read_u8 b.
Proof. exists [b]. split; [done | apply reads_u8]. Qed.

Lemma reads_be w n : n < 256 ^ N.of_nat w →
  reads (bs ⇐ read_exact (N.of_nat w); rret (from_be_bytes bs)) (to_be_bytes w n) n.
Proof.
  intros Hn. rewrite <- (app_nil_r (to_be_bytes w n)).
  eapply reads_bind; [apply reads_exact, len_to_be_bytes|].
  rewrite from_to_be_bytes by done. apply reads_ret.
Qed.

Lemma from_to_u32 n : n ≤ U32_MAX → from_be_bytes (to_be_bytes 4 n) = n.
Proof.
  intros Hn. apply from_to_be_bytes. change (256 ^ N.of_nat 4) with (U32_MAX + 1). lia.
Qed.

Lemma from_to_u64 n : n ≤ U64_MAX → from_be_bytes (to_be_bytes 8 n) = n.
Proof.
  intros Hn. apply from_to_be_bytes. change (256 ^ N.of_nat 8) with (U64_MAX + 1). lia.
Qed.

Lemma codes_u16 n : n ≤ U16_MAX → codes (λ out, write_u16 out n) read_u16 n.
Proof.
  intros Hn. exists (to_be_bytes 2 n). split; [done|]. apply (reads_be 2).
  change (256 ^ N.of_nat 2) with (U16_MAX + 1). lia.
Qed.

Lemma codes_u32 n : n ≤ U32_MAX → codes (λ out, write_u32 out n) read_u32 n.
Proof.
  intros Hn. exists (to_be_bytes 4 n). split; [done|]. apply (reads_be 4).
  change (256 ^ N.of_nat 4) with (U32_MAX + 1). lia.
Qed.

Lemma codes_u64 n : n ≤ U64_MAX → codes (λ out, write_u64 out n) read_u64 n.
Proof.
  intros Hn. exists (to_be_bytes 8 n). split; [done|]. apply (reads_be 8).
  change (256 ^ N.of_nat 8) with (U64_MAX + 1). lia.
Qed.

Lemma codes_bool b : codes (λ out, write_bool out b) read_bool b.
Proof. unfold write_bool. destruct b; (eapply codes_map; [apply codes_u8 | done]). Qed.

Lemma codes_bytes b : len b ≤ U32_MAX → codes (λ out, write_bytes out b) read_bytes b.
Proof.
  intros Hb. apply (codes_bind (λ out, write_u32 out (len b)) (λ out, out ++ b)
    read_u32 (λ n, read_exact n) (len b) b); [by apply codes_u32|].
  exists b. split; [done | by apply reads_exact].
Qed.

Definition string_fits (s : string) : Prop := string_ok s ∧ str_len s ≤ U32_MAX.

Lemma codes_string s : string_fits s → codes (λ out, write_string out s) read_string s.
Proof.
  intros [Hs Hl]. unfold read_string. eapply codes_map.
  - apply codes_bytes. by rewrite len_as_bytes.
  - by rewrite from_utf8_as_bytes.
Qed.

Lemma alphanumeric_ascii b : is_ascii_alphanumeric b = true → in_range 0 127 b = true.
Proof.
  unfold is_ascii_alphanumeric, in_range.
  rewrite !orb_true_iff, !andb_true_iff, !N.leb_le. lia.
Qed.

Lemma forallb_ascii (f : byte → bool) bs :
  (∀ b, f b = true → in_range 0 127 b = true) →
  forallb f bs = true → utf8_valid bs = true.
Proof.
  intros Hf Hbs. apply utf8_valid_ascii. rewrite forallb_forall in *. auto.
Qed.

Lemma valid_namespace_utf8 s : is_valid_namespace s = true → string_ok s.
Proof.
  intros [_ Hs]%andb_true_iff. eapply forallb_ascii; [|exact Hs].
  intros b. unfold byte_is. intros [[Hb|Hb]%orb_true_iff|Hb]%orb_true_iff;
    [by apply alphanumeric_ascii | apply bool_decide_eq_true in Hb; by subst..].
Qed.

Lemma valid_tag_utf8 s : is_valid_tag s = true → string_ok s.
Proof.
  intros [_ Hs]%andb_true_iff. eapply forallb_ascii; [|exact Hs].
  intros b. unfold byte_is. rewrite !orb_true_iff, !bool_decide_eq_true.
  intros [Hb|Hb]; [by apply alphanumeric_ascii|].
  by repeat destruct Hb as [Hb|Hb]; subst.
Qed.

(** ** Well-formed requests *)

Definition namespace_ok (s : string) : Prop :=
  is_valid_namespace s = true ∧ str_len s ≤ U32_MAX.
Definition tag_ok (s : string) : Prop := is_valid_tag s = true ∧ str_len s ≤ U32_MAX.
Definition bytes_ok (b : bytes) : Prop := len b ≤ U32_MAX.
Definition positive_u64 (n : N) : Prop := 0 < n ≤ U64_MAX.

(** What an optional field written as 0 when absent can hold. *)
Definition opt_ok {A} (P : A → Prop) (o : option A) : Prop :=
  match o with None => True | Some a => P a end.

Record metadata_ok (m : Metadata) : Prop := {
  mo_ttl : opt_ok (λ t, positive_u64 (milliseconds t)) (md_ttl m);
  mo_stale : opt_ok (λ t, positive_u64 (milliseconds t)) (md_stale_ttl m);
  mo_cost : opt_ok (λ c, c ≤ U64_MAX) (md_cost m);
  mo_tags : Forall tag_ok (md_tags m);
  mo_count : len (md_tags m) ≤ U16_MAX
}.

Definition request_ok (p : RequestPayload) : Prop :=
  match p with
  | RGet ns key | RDelete ns key => namespace_ok ns ∧ bytes_ok key
  | RPut ns key md value => namespace_ok ns ∧ bytes_ok key ∧ metadata_ok md ∧ bytes_ok value
  | RBatchGet ns keys => namespace_ok ns ∧ Forall bytes_ok keys ∧ 0 < len keys ≤ U32_MAX
  | RTagInvalidate ns tag => namespace_ok ns ∧ tag_ok tag
  | RLeaseStart ns key ttl allow =>
    namespace_ok ns ∧ bytes_ok key ∧ positive_u64 ttl ∧ opt_ok positive_u64 allow
  | RLeaseComplete ns key token md value =>
    namespace_ok ns ∧ bytes_ok key ∧ (string_fits token ∧ token ≠ ""%string) ∧
    metadata_ok md ∧ bytes_ok value
  end.

Definition request_command (p : RequestPayload) : Command :=
  match p with
  | RGet _ _ => Get | RPut _ _ _ _ => Put | RDelete _ _ => Delete
  | RBatchGet _ _ => BatchGet | RTagInvalidate _ _ => TagInvalidate
  | RLeaseStart _ _ _ _ => LeaseStart | RLeaseComplete _ _ _ _ _ => LeaseComplete
  end.

Lemma codes_namespace s : namespace_ok s → codes (λ out, write_string out s) read_namespace s.
Proof.
  intros [Hs Hl]. eapply codes_map; [apply codes_string|].
  - split; [by apply valid_namespace_utf8 | done].
  - simpl. by rewrite Hs.
Qed.

Lemma codes_tag s : tag_ok s → codes (λ out, write_string out s) read_tag s.
Proof.
  intros [Hs Hl]. eapply codes_map; [apply codes_string|].
  - split; [by apply valid_tag_utf8 | done].
  - simpl. by rewrite Hs.
Qed.

Lemma codes_many {A} (w : bytes → A → bytes) (p : Reader A) (P : A → Prop) xs :
  (∀ x, P x → codes (λ out, w out x) p x) → Forall P xs →
  codes (λ out, foldl w out xs) (read_many (length xs) p) xs.
Proof.
  intros Hp. induction 1 as [|x xs Hx _ IH]; simpl; [apply codes_ret|].
  apply (codes_bind (λ out, w out x) (λ out, foldl w out xs) p _ x); [by apply Hp|].
  eapply codes_map; [exact IH | done].
Qed.

Lemma codes_many_len {A} (w : bytes → A → bytes) (p : Reader A) (P : A → Prop) xs :
  (∀ x, P x → codes (λ out, w out x) p x) → Forall P xs →
  codes (λ out, foldl w out xs) (read_many (N.to_nat (len xs)) p) xs.
Proof. intros. unfold len. rewrite Nat2N.id. by eapply codes_many. Qed.

Lemma nonzero_ttl_id o :
  opt_ok (λ t, positive_u64 (milliseconds t)) o →
  nonzero_ttl (from_option milliseconds 0 o) = o.
Proof. destruct o as [[[|ms]]|]; simpl; unfold positive_u64; [lia | done | done]. Qed.

Lemma nonzero_id o : opt_ok positive_u64 o → nonzero (default 0 o) = o.
Proof. destruct o as [[|ms]|]; simpl; unfold positive_u64; [lia | done | done]. Qed.

Lemma opt_ttl_u64 o :
  opt_ok (λ t, positive_u64 (milliseconds t)) o → from_option milliseconds 0 o ≤ U64_MAX.
Proof. destruct o; simpl; unfold positive_u64, U64_MAX; lia. Qed.

Lemma opt_u64 o : opt_ok (λ c, c ≤ U64_MAX) o → default 0 o ≤ U64_MAX.
Proof. destruct o; simpl; unfold U64_MAX; lia. Qed.

Lemma opt_pos_u64 o : opt_ok positive_u64 o → default 0 o ≤ U64_MAX.
Proof. destruct o; simpl; unfold positive_u64, U64_MAX; lia. Qed.

(** ** Payloads *)

Lemma codes_conv {A} w w' (p : Reader A) v : codes w p v → w = w' → codes w' p v.
Proof. by intros ? <-. Qed.

Create HintDb codes.
#[local] Hint Resolve codes_u8 codes_u16 codes_u32 codes_u64 codes_bool codes_bytes
  codes_string codes_namespace codes_tag codes_ret opt_ttl_u64 opt_u64 opt_pos_u64
  N.le_0_l : codes.
#[local] Hint Unfold bytes_ok : codes.

(** Peel the first field of a payload, whose value is [v]; the last field,
    after which the reader returns. *)
Tactic Notation "field" constr(v) :=
  eapply (codes_bind _ _ _ _ v); [solve [eauto with codes] | cbn beta].
Tactic Notation "last_field" constr(v) :=
  eapply (codes_map _ _ _ v); [solve [eauto with codes] | cbn beta].
(** The fields, then the writer they compose to is the payload's. *)
Tactic Notation "payload" "by" tactic3(t) := eapply codes_conv; [t | reflexivity].

Lemma codes_metadata m : metadata_ok m → codes (λ out, write_metadata out m) read_metadata m.
Proof.
  intros [Ht Hs Hc Htags Hn].
  assert (m = {| md_ttl := nonzero_ttl (from_option milliseconds 0 (md_ttl m));
    md_stale_ttl := nonzero_ttl (from_option milliseconds 0 (md_stale_ttl m));
    md_cost := md_cost m; md_tags := md_tags m; md_content_type := md_content_type m |}) as Hm.
  { rewrite !nonzero_ttl_id by done. by destruct m. }
  refine (eq_rect_r (codes _ _) _ Hm). unfold write_metadata, read_metadata. payload by (
    field (from_option milliseconds 0 (md_ttl m));
    field (from_option milliseconds 0 (md_stale_ttl m));
    field (bool_decide (is_Some (md_cost m)));
    eapply (codes_bind (λ out, write_u64 out (default 0 (md_cost m))) _ _ _ (md_cost m));
      [destruct (md_cost m) as [c|]; simpl; [last_field c | last_field 0]; done|];
    field (len (md_tags m));
    eapply (codes_bind _ _ _ _ (md_tags m)); [by eapply codes_many_len; [apply codes_tag|]|];
    last_field (match md_content_type m with OctetStream => x00 | Other => x01 end);
    by destruct (md_content_type m)).
Qed.
#[local] Hint Resolve codes_metadata : codes.

Lemma codes_request p :
  request_ok p →
  codes (encode_request_payload p) (decode_request_payload (request_command p)) p.
Proof.
  destruct p as [ns key|ns key md value|ns key|ns keys|ns tag|ns key ttl allow
                |ns key token md value]; simpl; intros Hok.
  - destruct Hok. payload by (field ns; last_field key; done).
  - destruct Hok as (? & ? & ? & ?).
    payload by (field ns; field key; field md; last_field value; done).
  - destruct Hok. payload by (field ns; last_field key; done).
  - destruct Hok as (? & ? & ? & ?). payload by (field ns; field (len keys);
      rewrite (proj2 (N.eqb_neq _ _)) by lia;
      eapply (codes_map _ _ _ keys); [by eapply codes_many_len; [apply codes_bytes|] | done]).
  - destruct Hok. payload by (field ns; last_field tag; done).
  - destruct Hok as (? & ? & [? ?] & ?). payload by (field ns; field key; field ttl;
      rewrite (proj2 (N.eqb_neq _ _)) by lia; last_field (default 0 allow);
      by rewrite nonzero_id).
  - destruct Hok as (? & ? & [? ?] & ? & ?). payload by (field ns; field key; field token;
      rewrite bool_decide_eq_false_2 by done; field md; last_field value; done).
Qed.

(** Responses.  [POk] and [PBatchGet] share the status byte 0 and are told
    apart by the command of the frame. *)
Definition item_ok (i : BatchItem) : Prop :=
  match i with BHit v | BStale v => bytes_ok v | BMiss => True end.

Definition response_ok (cmd : Command) (p : ResponsePayload) : Prop :=
  match p with
  | POk => cmd ≠ BatchGet
  | PHit v | PStale v => bytes_ok v
  | PMiss | PLeaseDenied | PDeleted _ => True
  | PStored n | PInvalidated n => n ≤ U32_MAX
  | PLeaseGranted token stale => string_fits token ∧ opt_ok bytes_ok stale
  | PError _ message => string_fits message
  | PBatchGet items => cmd = BatchGet ∧ Forall item_ok items ∧ len items ≤ U32_MAX
  end.

Lemma codes_item i : item_ok i → codes (λ out, write_batch_item out i) read_batch_item i.
Proof.
  destruct i as [v|v|]; simpl; intros Hi.
  - payload by (field x01; last_field v; done).
  - payload by (field x02; last_field v; done).
  - payload by (last_field x03; done).
Qed.

Lemma ErrorCode_from_to c : ErrorCode_from_id (ErrorCode_id c) = Ok c.
Proof. by destruct c. Qed.

Lemma ErrorCode_id_u16 c : ErrorCode_id c ≤ U16_MAX.
Proof. by destruct c. Qed.
#[local] Hint Resolve ErrorCode_id_u16 : codes.

Lemma codes_response cmd p :
  response_ok cmd p → codes (encode_response_payload p) (decode_response_payload cmd) p.
Proof.
  destruct p as [|v|v| |n|b|n|token stale| |code message|items]; simpl; intros Hok.
  - payload by (last_field x00; simpl; by rewrite bool_decide_eq_false_2).
  - payload by (field x01; last_field v; done).
  - payload by (field x02; last_field v; done).
  - payload by (last_field x03; done).
  - payload by (field x04; last_field n; done).
  - payload by (field x05; last_field b; done).
  - payload by (field x06; last_field n; done).
  - destruct Hok as [? ?]. destruct stale as [v|]; simpl in *.
    + payload by (field x07; field token; field true; last_field v; done).
    + payload by (field x07; field token; last_field false; done).
  - payload by (last_field x08; done).
  - payload by (field xff; field (ErrorCode_id code); rewrite ErrorCode_from_to;
      last_field message; done).
  - destruct Hok as (-> & ? & ?). payload by (field x00; field (len items);
      eapply (codes_map _ _ _ items);
      [by eapply codes_many_len; [apply codes_item|] | done]).
Qed.

(** ** Frames *)

Definition frame_header (kind : byte) (cmd : Command) (id plen : N) : bytes :=
  MAGIC ++ [VERSION; kind; Command_id cmd; x00] ++ to_be_bytes 8 id ++
  to_be_bytes 4 plen ++ to_be_bytes 4 0.

Definition frame_bytes (kind : byte) (cmd : Command) (id : N) (payload : bytes) : bytes :=
  frame_header kind cmd id (len payload) ++ payload.

Lemma len_frame_header kind cmd id plen : len (frame_header kind cmd id plen) = HEADER_LEN.
Proof. unfold frame_header. autorewrite with cbx_len. reflexivity. Qed.

Lemma len_frame_bytes kind cmd id payload :
  len (frame_bytes kind cmd id payload) = HEADER_LEN + len payload.
Proof. unfold frame_bytes. by rewrite len_app, len_frame_header. Qed.

Lemma encode_frame_layout {T} kind cmd id (payload : T) enc out :
  appends (enc payload) (enc payload []) →
  len (enc payload []) ≤ U32_MAX →
  encode_frame_into kind cmd id payload enc out
  = Some (frame_bytes kind cmd id (enc payload [])).
Proof.
  intros Ha Hl. unfold encode_frame_into. cbn zeta. rewrite !(Ha (_ ++ _)).
  generalize dependent (enc payload []). intros pl _ Hl. rewrite len_app, N.add_comm, N.add_sub.
  rewrite (proj2 (N.ltb_ge _ _)) by done. reflexivity.
Qed.

(** The assertion on the length: a payload over [u32::MAX] is not framed. *)
Lemma encode_frame_overflow {T} kind cmd id (payload : T) enc out :
  appends (enc payload) (enc payload []) → U32_MAX < len (enc payload []) →
  encode_frame_into kind cmd id payload enc out = None.
Proof.
  intros Ha Hl. unfold encode_frame_into. cbn zeta. rewrite !(Ha (_ ++ _)).
  generalize dependent (enc payload []). intros pl _ Hl. rewrite len_app, N.add_comm, N.add_sub.
  by rewrite (proj2 (N.ltb_lt _ _)).
Qed.

Lemma items_append items out :
  foldl write_batch_item out items = out ++ foldl write_batch_item [] items.
Proof.
  revert out. induction items as [|i items IH]; intros out; simpl; [by rewrite app_nil_r|].
  rewrite IH, (IH (write_batch_item [] i)), app_assoc. f_equal.
  destruct i; simpl; unfold write_bytes, write_u32, push; by rewrite <- ?app_assoc.
Qed.

(** Every response is appended to the buffer, whatever its size. *)
Lemma response_appends r : appends (encode_response_payload r) (encode_response_payload r []).
Proof.
  intros out. destruct r as [|v|v| |n|b|n|token [v|]| |code msg|items]; cbn [encode_response_payload];
    unfold write_string, write_bytes, write_bool, write_u16, write_u32, push;
    rewrite <- ?app_assoc; try done.
  by rewrite items_append, (items_append _ ([] ++ _)), <- !app_assoc.
Qed.

Lemma decode_header_app kind cmd id plen r maxlen :
  id ≤ U64_MAX → plen ≤ U32_MAX →
  decode_header (frame_header kind cmd id plen ++ r) maxlen kind =
  if maxlen <? plen then Err (DFrameTooLarge plen maxlen)
  else Ok {| h_command := Command_id cmd; h_request_id := id; h_payload_len := plen |}.
Proof.
  intros Hid Hlen. unfold decode_header.
  rewrite (proj2 (N.ltb_ge _ _)) by (rewrite len_app, len_frame_header; lia).
  unfold frame_header. change (slice _ 8 16) with (to_be_bytes 8 id).
  change (slice _ 16 20) with (to_be_bytes 4 plen).
  rewrite from_to_u64, from_to_u32 by done.
  destruct (_ <? _) eqn:E; cbn -[bool_decide N.ltb]; rewrite ?E;
    by rewrite !bool_decide_eq_true_2.
Qed.

Lemma frame_bytes_app kind cmd id payload rest :
  frame_bytes kind cmd id payload ++ rest
  = frame_header kind cmd id (len payload) ++ (payload ++ rest).
Proof. unfold frame_bytes. by rewrite <- app_assoc. Qed.

Lemma decode_frame_header kind cmd id payload rest maxlen :
  id ≤ U64_MAX → len payload ≤ U32_MAX →
  decode_header (frame_bytes kind cmd id payload ++ rest) maxlen kind =
  if maxlen <? len payload then Err (DFrameTooLarge (len payload) maxlen)
  else Ok {| h_command := Command_id cmd; h_request_id := id; h_payload_len := len payload |}.
Proof. intros. rewrite frame_bytes_app. by apply decode_header_app. Qed.

Lemma frame_payload_slice kind cmd id payload rest :
  slice (frame_bytes kind cmd id payload ++ rest) HEADER_LEN (HEADER_LEN + len payload) = payload.
Proof.
  rewrite frame_bytes_app, <- (len_frame_header kind cmd id (len payload)).
  apply slice_app_mid.
Qed.

Lemma frame_not_truncated kind cmd id payload rest :
  (len (frame_bytes kind cmd id payload ++ rest) <? HEADER_LEN + len payload) = false.
Proof. apply N.ltb_ge. rewrite len_app, len_frame_bytes. lia. Qed.

Lemma take_frame kind cmd id payload k :
  HEADER_LEN ≤ k →
  take (N.to_nat k) (frame_bytes kind cmd id payload)
  = frame_header kind cmd id (len payload) ++ take (N.to_nat (k - HEADER_LEN)) payload.
Proof.
  intros Hk. unfold frame_bytes. pose proof (len_frame_header kind cmd id (len payload)) as Hh.
  unfold len at 1 in Hh. rewrite take_app_ge by lia. do 2 f_equal. lia.
Qed.

Lemma Command_from_to c : Command_from_id (Command_id c) = Ok c.
Proof. by destruct c. Qed.

Lemma codes_whole {A} w (p : Reader A) v :
  codes w p v → len (w []) ≤ U32_MAX →
  (a ⇐ p; _ ⇐ expect_empty; rret a) (Cursor_new (w [])) = Ok (v, at_offset (w []) []).
Proof.
  intros (bs & Hw & Hr) Hl. rewrite Hw in *. simpl in *. unfold rbind.
  change (Cursor_new bs) with (at_offset [] bs).
  specialize (Hr [] []). rewrite !app_nil_r in Hr. simpl in Hr. rewrite Hr by machine.
  unfold expect_empty, at_offset. simpl. rewrite app_nil_r, N.eqb_refl. done.
Qed.

(** ** What a reader can return *)

Definition yields {A} (p : Reader A) (P : A → Prop) : Prop :=
  ∀ c a c', p c = Ok (a, c') → P a.

Lemma yields_bind {A B} (p : Reader A) (k : A → Reader B) (P : A → Prop) (Q : B → Prop) :
  yields p P → (∀ a, P a → yields (k a) Q) → yields (rbind p k) Q.
Proof.
  intros Hp Hk c b c'. unfold rbind. destruct (p c) as [[a c1]|] eqn:E; [|done].
  apply Hk. by eapply Hp.
Qed.

Lemma yields_ret {A} (a : A) (P : A → Prop) : P a → yields (rret a) P.
Proof. by intros Ha c a' c' [= <- _]. Qed.

Lemma yields_fail {A} e (P : A → Prop) : yields (rfail e) P.
Proof. by intros c a c'. Qed.

Lemma yields_any {A} (p : Reader A) : yields p (λ _, True).
Proof. done. Qed.

Lemma yields_exact n : yields (read_exact n) (λ bs, len bs = n).
Proof.
  intros c bs c'. unfold read_exact. destruct (N.ltb_spec USIZE_MAX (c_offset c + n)); [done|].
  destruct (N.ltb_spec (len (c_input c)) (c_offset c + n)); [done|].
  intros [= <- _]. rewrite len_slice by done. lia.
Qed.

Lemma yields_be n m :
  256 ^ n = m + 1 → yields (bs ⇐ read_exact n; rret (from_be_bytes bs)) (λ v, v ≤ m).
Proof.
  intros Hn. eapply yields_bind; [apply yields_exact|]. intros bs Hbs. apply yields_ret.
  pose proof (from_be_bytes_lt bs) as Hlt. rewrite Hbs in Hlt. lia.
Qed.

Lemma yields_u16 : yields read_u16 (λ v, v ≤ U16_MAX).
Proof. by apply yields_be. Qed.
Lemma yields_u32 : yields read_u32 (λ v, v ≤ U32_MAX).
Proof. by apply yields_be. Qed.
Lemma yields_u64 : yields read_u64 (λ v, v ≤ U64_MAX).
Proof. by apply yields_be. Qed.

Lemma yields_bytes : yields read_bytes bytes_ok.
Proof.
  eapply yields_bind; [apply yields_u32|]. intros n Hn c bs c' Hc.
  apply yields_exact in Hc. unfold bytes_ok. by rewrite Hc.
Qed.

Lemma yields_string : yields read_string string_fits.
Proof.
  eapply yields_bind; [apply yields_bytes|]. intros bs Hbs.
  destruct (from_utf8 bs) as [s|] eqn:E; [|apply yields_fail]. apply yields_ret.
  apply from_utf8_Some in E as [-> Hs]. split; [done|]. by rewrite <- len_as_bytes.
Qed.

Lemma yields_namespace : yields read_namespace namespace_ok.
Proof.
  eapply yields_bind; [apply yields_string|]. intros s [_ Hl].
  destruct (is_valid_namespace s) eqn:E; [|apply yields_fail]. by apply yields_ret.
Qed.

Lemma yields_tag : yields read_tag tag_ok.
Proof.
  eapply yields_bind; [apply yields_string|]. intros s [_ Hl].
  destruct (is_valid_tag s) eqn:E; [|apply yields_fail]. by apply yields_ret.
Qed.

Lemma yields_many {A} (p : Reader A) (P : A → Prop) n :
  yields p P → yields (read_many n p) (λ xs, length xs = n ∧ Forall P xs).
Proof.
  intros Hp. induction n as [|n IH]; simpl; [by apply yields_ret|].
  eapply yields_bind; [exact Hp|]. intros x Hx. eapply yields_bind; [exact IH|].
  intros xs [<- Hxs]. apply yields_ret. auto.
Qed.

Create HintDb yields.
#[local] Hint Resolve yields_u16 yields_u32 yields_u64 yields_bytes yields_string
  yields_namespace yields_tag : yields.

(** The reader's next field: what it holds, as a hypothesis. *)
Tactic Notation "got" simple_intropattern(v) simple_intropattern(H) :=
  eapply yields_bind; [solve [eauto with yields | apply yields_any] | intros v; cbn beta; intros H].

Lemma nonzero_ttl_ok ms : ms ≤ U64_MAX → opt_ok (λ t, positive_u64 (milliseconds t)) (nonzero_ttl ms).
Proof. destruct ms; simpl; [done|]. unfold positive_u64. simpl. lia. Qed.

Lemma nonzero_ok v : v ≤ U64_MAX → opt_ok positive_u64 (nonzero v).
Proof. destruct v; simpl; [done|]. unfold positive_u64. lia. Qed.

Lemma yields_metadata : yields read_metadata metadata_ok.
Proof.
  unfold read_metadata. got ttl Httl. got stale Hstale. got has _.
  eapply (yields_bind _ _ (opt_ok (λ c, c ≤ U64_MAX))).
  { destruct has; (got c Hc; by apply yields_ret). }
  intros cost Hcost. got n Hn.
  eapply yields_bind; [apply yields_many, yields_tag|]. intros tags [Hl Htags].
  got ct _. got ty _. apply yields_ret. split; simpl; auto using nonzero_ttl_ok.
  unfold len. rewrite Hl. lia.
Qed.
#[local] Hint Resolve yields_metadata : yields.

Lemma yields_request cmd :
  yields (decode_request_payload cmd) (λ p, request_ok p ∧ request_command p = cmd).
Proof.
  destruct cmd; simpl; got ns Hns.
  - got key Hkey. by apply yields_ret.
  - got key Hkey. got md Hmd. got value Hv. by apply yields_ret.
  - got key Hkey. by apply yields_ret.
  - got n Hn. destruct (N.eqb_spec n 0); [apply yields_fail|].
    eapply yields_bind; [apply yields_many, yields_bytes|]. intros keys [Hl Hkeys].
    apply yields_ret. simpl. unfold len. rewrite Hl, N2Nat.id. split_and!; auto; lia.
  - got tag Htag. by apply yields_ret.
  - got key Hkey. got ttl Httl. destruct (N.eqb_spec ttl 0); [apply yields_fail|].
    got allow Ha. apply yields_ret. cbn [request_ok request_command]. unfold positive_u64 at 1.
    split_and!; auto using nonzero_ok; lia.
  - got key Hkey. got token Ht. case_bool_decide; [apply yields_fail|].
    got md Hmd. got value Hv. apply yields_ret. by split_and!.
Qed.

(** ** How a reader can fail *)

(** The errors of the payload readers; the reasons are short ASCII texts. *)
Definition payload_error (e : DecodeError) : Prop :=
  match e with
  | DInvalidPayload what => ascii_text what ∧ str_len what ≤ 40
  | DInvalidUtf8 | DInvalidNamespace | DInvalidTag | DInvalidBool _ => True
  | _ => False
  end.

(** A reader fails only so, and stays on its input. *)
Definition sane {A} (p : Reader A) : Prop := ∀ c,
  match p c with
  | Ok (_, c') => c_input c' = c_input c
  | Err e => payload_error e
  end.

Lemma sane_bind {A B} (p : Reader A) (k : A → Reader B) :
  sane p → (∀ a, sane (k a)) → sane (rbind p k).
Proof.
  intros Hp Hk c. unfold rbind. specialize (Hp c). destruct (p c) as [[a c']|e]; [|done].
  specialize (Hk a c'). destruct (k a c') as [[b c'']|e]; [congruence|done].
Qed.

Lemma sane_ret {A} (a : A) : sane (rret a).
Proof. done. Qed.

Lemma sane_fail {A} e : payload_error e → sane (@rfail A e).
Proof. by intros He c. Qed.

Lemma sane_exact n : sane (read_exact n).
Proof. intros c. unfold read_exact. do 2 (destruct (_ <? _); [by split|]). done. Qed.

Lemma sane_u8 : sane read_u8.
Proof. intros c. unfold read_u8. destruct (c_input c !! _); [done|by split]. Qed.

Lemma sane_many {A} n (p : Reader A) : sane p → sane (read_many n p).
Proof.
  intros Hp. induction n as [|n IH]; simpl; [apply sane_ret|].
  apply sane_bind; [done|]. intros x. apply sane_bind; [done|]. intros xs. apply sane_ret.
Qed.

(** Readers built from the primitive ones. *)
Ltac reader := repeat first
  [ progress intros | apply sane_bind | apply sane_ret | apply sane_exact | apply sane_u8
  | apply sane_many | (apply sane_fail; by vm_compute) | case_match ].

Lemma sane_request cmd : sane (decode_request_payload cmd).
Proof. destruct cmd; simpl; reader. Qed.
End ProtocolFacts.
