(* ===== verification/ProtocolSpec.v ===== *)
(** * ProtocolSpec: the contract of the frame codec

    The properties of [crates/cachebox-protocol/src/lib.rs] the server and the
    clients rely on: round trips, framing, validation and the equivalence of
    the borrowed decoder with the owned one. *)

From S2P Require Import Prelude Bytes Protocol ProtocolFacts.

Module ProtocolSpec.
Import Protocol Codec ProtocolFacts.

Definition request_frame_ok (f : RequestFrame) : Prop :=
  rq_request_id f ≤ U64_MAX ∧ request_ok (rq_payload f) ∧
  rq_command f = request_command (rq_payload f) ∧
  len (encode_request_payload (rq_payload f) []) ≤ U32_MAX.

Definition response_frame_ok (f : ResponseFrame) : Prop :=
  rs_request_id f ≤ U64_MAX ∧ response_ok (rs_command f) (rs_payload f) ∧
  len (encode_response_payload (rs_payload f) []) ≤ U32_MAX.

(** The bytes of a request and of a response. *)
Definition request_bytes (f : RequestFrame) : bytes :=
  frame_bytes KIND_REQUEST (rq_command f) (rq_request_id f)
    (encode_request_payload (rq_payload f) []).

Definition response_bytes (f : ResponseFrame) : bytes :=
  frame_bytes KIND_RESPONSE (rs_command f) (rs_request_id f)
    (encode_response_payload (rs_payload f) []).

Lemma encode_request_bytes f out :
  request_frame_ok f → encode_request_frame_into f out = Some (request_bytes f).
Proof.
  intros (_ & Hok & _ & Hl). apply encode_frame_layout; [|done].
  eapply codes_appends, codes_request, Hok.
Qed.

Lemma encode_response_bytes f out :
  response_frame_ok f → encode_response_frame_into f out = Some (response_bytes f).
Proof.
  intros (_ & Hok & Hl). apply encode_frame_layout; [|done].
  eapply codes_appends, codes_response, Hok.
Qed.

Lemma decode_request_bytes f rest maxlen :
  request_frame_ok f → len (encode_request_payload (rq_payload f) []) ≤ maxlen →
  decode_request_frame (request_bytes f ++ rest) maxlen = Ok f.
Proof.
  intros (Hid & Hok & Hc & Hl) Hm. unfold decode_request_frame, request_bytes.
  rewrite decode_frame_header by done. rewrite (proj2 (N.ltb_ge _ _)) by done. cbn [h_payload_len h_command h_request_id].
  rewrite frame_not_truncated, Command_from_to, frame_payload_slice, Hc.
  rewrite (codes_whole _ _ (rq_payload f)) by auto using codes_request.
  by destruct f; simpl in *; subst.
Qed.

Lemma decode_whole_request f maxlen :
  request_frame_ok f → len (encode_request_payload (rq_payload f) []) ≤ maxlen →
  decode_request_frame (request_bytes f) maxlen = Ok f.
Proof. rewrite <- (app_nil_r (request_bytes f)). apply decode_request_bytes. Qed.

Lemma decode_response_bytes f rest maxlen :
  response_frame_ok f → len (encode_response_payload (rs_payload f) []) ≤ maxlen →
  decode_response_frame (response_bytes f ++ rest) maxlen = Ok f.
Proof.
  intros (Hid & Hok & Hl) Hm. unfold decode_response_frame, response_bytes.
  rewrite decode_frame_header by done. rewrite (proj2 (N.ltb_ge _ _)) by done. cbn [h_payload_len h_command h_request_id].
  rewrite frame_not_truncated, Command_from_to, frame_payload_slice.
  rewrite (codes_whole _ _ (rs_payload f)) by auto using codes_response.
  by destruct f.
Qed.

(** A request and a response used in the witnesses. *)
Definition sample_request : RequestFrame :=
  {| rq_request_id := 7; rq_command := Put;
     rq_payload := RPut "default" (as_bytes "k")
       {| md_ttl := Some {| milliseconds := 1000 |}; md_stale_ttl := None;
          md_cost := Some 3; md_tags := ["user:1"; "team/a"]%string;
          md_content_type := OctetStream |} (as_bytes "value") |}.

Definition sample_response : ResponseFrame :=
  {| rs_request_id := 7; rs_command := BatchGet;
     rs_payload := PBatchGet [BHit (as_bytes "v"); BMiss; BStale []] |}.

(** Close a well-formedness goal on a concrete frame. *)
Ltac concrete_ok := repeat (split || constructor); try (vm_compute; congruence).

Lemma sample_request_ok : request_frame_ok sample_request.
Proof. concrete_ok. Qed.

Lemma sample_response_ok : response_frame_ok sample_response.
Proof. concrete_ok. Qed.

(** C20: request round trip.  A well-formed request encodes, and the bytes,
    whatever follows them in the buffer, decode to the same request when its
    payload is within the limit; a larger payload is refused with the sizes. *)
Theorem request_roundtrip f rest maxlen out :
  request_frame_ok f →
  ∃ bs, encode_request_frame_into f out = Some bs ∧
    len bs = HEADER_LEN + len (encode_request_payload (rq_payload f) []) ∧
    decode_request_frame (bs ++ rest) maxlen =
      (if maxlen <? len bs - HEADER_LEN
       then Err (DFrameTooLarge (len bs - HEADER_LEN) maxlen) else Ok f).
Proof.
  intros Hf. exists (request_bytes f). split; [by apply encode_request_bytes|].
  unfold request_bytes at 1 3 4. rewrite len_frame_bytes. split; [done|].
  rewrite N.add_comm, N.add_sub. destruct (N.ltb_spec maxlen (len (encode_request_payload (rq_payload f) []))).
  - unfold decode_request_frame, request_bytes. destruct Hf as (? & _ & _ & ?).
    by rewrite decode_frame_header, (proj2 (N.ltb_lt _ _)).
  - by apply decode_request_bytes.
Qed.

Lemma request_roundtrip_witness :
  ∃ bs, encode_request_frame_into sample_request [x00] = Some bs ∧
    decode_request_frame (bs ++ [x43; x42]) 1024 = Ok sample_request.
Proof.
  destruct (request_roundtrip sample_request [x43; x42] 1024 [x00]) as (bs & H1 & H2 & H3);
    [apply sample_request_ok|].
  exists bs. split; [exact H1|]. rewrite H3, H2. reflexivity.
Defined.

(** C21: response round trip.  A well-formed response of any status encodes,
    and its bytes, whatever follows them in the stream, decode to the same
    response when the payload is within the reader's limit; a larger payload is
    refused with the sizes. *)
Theorem response_roundtrip f rest maxlen out :
  response_frame_ok f →
  ∃ bs, encode_response_frame_into f out = Some bs ∧
    len bs = HEADER_LEN + len (encode_response_payload (rs_payload f) []) ∧
    decode_response_frame (bs ++ rest) maxlen =
      (if maxlen <? len bs - HEADER_LEN
       then Err (DFrameTooLarge (len bs - HEADER_LEN) maxlen) else Ok f).
Proof.
  intros Hf. exists (response_bytes f). split; [by apply encode_response_bytes|].
  unfold response_bytes at 1 3 4. rewrite len_frame_bytes. split; [done|].
  rewrite N.add_comm, N.add_sub. destruct (N.ltb_spec maxlen (len (encode_response_payload (rs_payload f) []))).
  - unfold decode_response_frame, response_bytes. destruct Hf as (? & _ & ?).
    by rewrite decode_frame_header, (proj2 (N.ltb_lt _ _)).
  - by apply decode_response_bytes.
Qed.

Lemma response_roundtrip_witness :
  ∃ bs, encode_response_frame_into sample_response [] = Some bs ∧
    decode_response_frame (bs ++ []) 1024 = Ok sample_response.
Proof.
  destruct (response_roundtrip sample_response [] 1024 []) as (bs & H1 & H2 & H3);
    [apply sample_response_ok|].
  exists bs. split; [exact H1|]. rewrite H3, H2. reflexivity.
Defined.

(** Framing.  Every proper prefix of a request's bytes is reported as
    incomplete: without its header as [IncompleteHeader], with it as
    [TruncatedPayload] with the length the whole frame has and the length
    received, so a reader knows how many bytes to wait for. *)
Theorem request_prefix_incomplete f k maxlen :
  request_frame_ok f → len (encode_request_payload (rq_payload f) []) ≤ maxlen →
  k < len (request_bytes f) →
  decode_request_frame (take (N.to_nat k) (request_bytes f)) maxlen =
    Err (if k <? HEADER_LEN then DIncompleteHeader
         else DTruncatedPayload (len (request_bytes f)) k).
Proof.
  intros (Hid & _ & _ & Hl) Hm Hk.
  assert (len (take (N.to_nat k) (request_bytes f)) = k) as Hlen.
  { unfold len in *. rewrite length_take. lia. }
  unfold decode_request_frame. destruct (N.ltb_spec k HEADER_LEN) as [Hh|Hh].
  - unfold decode_header. by rewrite Hlen, (proj2 (N.ltb_lt _ _)).
  - rewrite Hlen. unfold request_bytes in *. rewrite take_frame by done.
    rewrite decode_header_app by done. rewrite (proj2 (N.ltb_ge _ _)) by done.
    cbn [h_payload_len]. rewrite len_frame_bytes in *. by rewrite (proj2 (N.ltb_lt _ _)).
Qed.

Lemma request_prefix_incomplete_witness :
  decode_request_frame (take 30 (request_bytes sample_request)) 1024 =
    Err (DTruncatedPayload (len (request_bytes sample_request)) 30).
Proof.
  apply (request_prefix_incomplete sample_request 30 1024);
    [apply sample_request_ok | vm_compute; congruence | vm_compute; congruence].
Defined.

(** The header fields the decoder insists on. *)
Definition header_strict (kind : byte) (input : bytes) (maxlen : N) : Prop :=
  HEADER_LEN ≤ len input ∧ slice input 0 4 = MAGIC ∧ index input 4 = VERSION ∧
  index input 5 = kind ∧ index input 7 = x00 ∧
  from_be_bytes (slice input 16 20) ≤ maxlen ∧ from_be_bytes (slice input 20 24) = 0.

Lemma decode_header_strict input maxlen kind h :
  decode_header input maxlen kind = Ok h →
  header_strict kind input maxlen ∧
  h = {| h_command := index input 6; h_request_id := from_be_bytes (slice input 8 16);
         h_payload_len := from_be_bytes (slice input 16 20) |}.
Proof.
  unfold decode_header, header_strict. intros Hh.
  destruct (N.ltb_spec (len input) HEADER_LEN); [done|].
  do 4 (case_bool_decide; [|done]). cbn [negb] in Hh.
  destruct (N.ltb_spec maxlen (from_be_bytes (slice input 16 20))); [done|].
  destruct (N.eqb_spec (from_be_bytes (slice input 20 24)) 0); [|done].
  simpl in Hh. simplify_eq. split; [|done]. auto 10.
Qed.

Lemma decode_valid input maxlen f :
  decode_request_frame input maxlen = Ok f →
  header_strict KIND_REQUEST input maxlen ∧
  request_ok (rq_payload f) ∧ rq_command f = request_command (rq_payload f) ∧
  Command_from_id (index input 6) = Ok (rq_command f) ∧
  rq_request_id f = from_be_bytes (slice input 8 16) ∧
  HEADER_LEN + from_be_bytes (slice input 16 20) ≤ len input.
Proof.
  unfold decode_request_frame. intros Hd.
  destruct (decode_header input maxlen KIND_REQUEST) as [h|] eqn:Eh; [|done].
  apply decode_header_strict in Eh as [Hs ->]. cbn [h_payload_len h_command h_request_id] in Hd.
  destruct (N.ltb_spec (len input) (HEADER_LEN + from_be_bytes (slice input 16 20))); [done|].
  destruct (Command_from_id (index input 6)) as [cmd|] eqn:Ec; [|done].
  unfold rbind in Hd. destruct (decode_request_payload cmd _) as [[p c]|] eqn:Ep; [|done].
  destruct (expect_empty c) as [[[] c']|]; [|done]. simpl in Hd. simplify_eq. simpl.
  apply yields_request in Ep as [Hp Hc]. auto 10.
Qed.

(** Validation.  A decoded request is well formed: its header is exact and
    within the limit, its payload is the one of its command, its namespace and
    tags are valid, its lease TTL is positive, its token and batch are not
    empty; and the payload fills the declared length with nothing after it. *)
Theorem request_decode_valid input maxlen f :
  decode_request_frame input maxlen = Ok f →
  header_strict KIND_REQUEST input maxlen ∧
  request_ok (rq_payload f) ∧ rq_command f = request_command (rq_payload f) ∧
  Command_from_id (index input 6) = Ok (rq_command f) ∧
  rq_request_id f = from_be_bytes (slice input 8 16) ∧
  HEADER_LEN + from_be_bytes (slice input 16 20) ≤ len input.
Proof. apply decode_valid. Qed.

Lemma request_decode_valid_witness :
  request_ok (rq_payload sample_request) ∧
  header_strict KIND_REQUEST (request_bytes sample_request) 1024.
Proof.
  destruct (request_decode_valid (request_bytes sample_request) 1024 sample_request)
    as (H1 & H2 & _); [vm_compute; reflexivity|]. split; [exact H2 | exact H1].
Defined.

(** ** The borrowed decoder *)

(** [RequestPayloadView] to the owned payload. *)
Definition view_owned (v : RequestPayloadView) : RequestPayload :=
  match v with
  | VGet ns key => RGet ns key
  | VDelete ns key => RDelete ns key
  | VTagInvalidate ns tag => RTagInvalidate ns tag
  | VLeaseStart ns key ttl allow => RLeaseStart ns key ttl allow
  end.

Definition frame_owned (f : RequestFrameView) : RequestFrame :=
  {| rq_request_id := rv_request_id f; rq_command := rv_command f;
     rq_payload := view_owned (rv_payload f) |}.

(** The commands that have a borrowed form. *)
Definition has_view (c : Command) : bool :=
  match c with Put | BatchGet | LeaseComplete => false | _ => true end.

Lemma payload_view_owned cmd c :
  if has_view cmd
  then decode_request_payload cmd c =
    match decode_request_payload_view cmd c with
    | Ok (Some v, c') => Ok (view_owned v, c')
    | Ok (None, c') => Err DBadMagic
    | Err e => Err e
    end
  else decode_request_payload_view cmd c = Ok (None, c).
Proof.
  destruct cmd; simpl; try done; unfold read_borrowed_namespace, read_borrowed_tag,
    read_namespace, read_tag, read_borrowed_string, read_string, read_borrowed_bytes,
    read_bytes, rbind, rret, rfail; repeat (done || case_match); simplify_eq/=; done.
Qed.

Lemma borrowed_decode input maxlen :
  match decode_borrowed_request_frame input maxlen with
  | Err e => decode_request_frame input maxlen = Err e
  | Ok (Some v) => decode_request_frame input maxlen = Ok (frame_owned v) ∧
                   has_view (rv_command v) = true
  | Ok None => ∀ f, decode_request_frame input maxlen = Ok f →
                    has_view (rq_command f) = false
  end.
Proof.
  unfold decode_borrowed_request_frame, decode_request_frame.
  destruct (decode_header input maxlen KIND_REQUEST) as [h|e]; [|done].
  cbn zeta. destruct (_ <? _); [done|].
  destruct (Command_from_id (h_command h)) as [cmd|e]; [|done].
  set (c := Cursor_new _). clearbody c. pose proof (payload_view_owned cmd c) as Hv.
  destruct (has_view cmd) eqn:E.
  - unfold rbind. rewrite Hv.
    destruct (decode_request_payload_view cmd c) as [[[v|] c']|e] eqn:Ed; [| |done].
    + by destruct (expect_empty c') as [[[] c'']|e].
    + by destruct cmd.
  - rewrite Hv. intros f Hf. by cases.
Qed.

(** The borrowed decoder agrees with the owned one: same requests, same
    errors, and it declines exactly the commands it does not cover. *)
Theorem borrowed_decode_equiv input maxlen :
  match decode_borrowed_request_frame input maxlen with
  | Err e => decode_request_frame input maxlen = Err e
  | Ok (Some v) => decode_request_frame input maxlen = Ok (frame_owned v) ∧
                   has_view (rv_command v) = true
  | Ok None => ∀ f, decode_request_frame input maxlen = Ok f →
                    has_view (rq_command f) = false
  end.
Proof. apply borrowed_decode. Qed.
End ProtocolSpec.
