(* ===== verification/Engine.v ===== *)
(** * Engine: one shard of the in-memory cache

    [src/engine.rs], [Engine<C>] and the types around it.  An operation on
    [&mut self] takes the engine and returns it with the result.  The clock
    is external: an operation takes [clk], where [clk i] is the reading
    returned at the [i]-th place of the operation, in program order, that
    calls [self.clock.now_ms()]; the readings of one call may differ.  The
    iteration order of hash tables is unspecified: it is the class
    [HashOrder], whose only law is that every element is visited once. *)

From S2P Require Import Prelude Bytes Protocol.

Module Engine.
Export Protocol(Ttl, milliseconds).

Definition ENTRY_OVERHEAD_BYTES : N := 96.
Definition LRU_SAMPLE_SIZE : nat := 16.
Definition DEFAULT_SHARD_COUNT : nat := 16.

(** ** Data *)

Record EngineLimits := { max_memory_bytes : N; max_value_bytes : N }.

Definition EngineLimits_default : EngineLimits :=
  {| max_memory_bytes := 64 * 1024 * 1024; max_value_bytes := 8 * 1024 * 1024 |}.

Record EngineStats := { expirations : N; evictions : N }.

Definition EngineStats_default : EngineStats := {| expirations := 0; evictions := 0 |}.

Record EntryId := { eid_namespace : string; eid_key : bytes }.

Definition EntryId_new (namespace : string) (key : bytes) : EntryId :=
  {| eid_namespace := namespace; eid_key := key |}.

#[export] Instance EntryId_eq_dec : EqDecision EntryId.
Proof. solve_decision. Defined.

#[export] Instance EntryId_countable : Countable EntryId :=
  inj_countable' (λ i, (eid_namespace i, eid_key i)) (λ p, EntryId_new p.1 p.2)
    ltac:(by intros []).

Record TagId := { tid_namespace : string; tid_tag : string }.

#[export] Instance TagId_eq_dec : EqDecision TagId.
Proof. solve_decision. Defined.

#[export] Instance TagId_countable : Countable TagId :=
  inj_countable' (λ t, (tid_namespace t, tid_tag t))
    (λ p, {| tid_namespace := p.1; tid_tag := p.2 |}) ltac:(by intros []).

Record ExpiryKey := { xk_expires_at_ms : N; xk_id : EntryId }.

#[export] Instance ExpiryKey_eq_dec : EqDecision ExpiryKey.
Proof. solve_decision. Defined.

#[export] Instance ExpiryKey_countable : Countable ExpiryKey :=
  inj_countable' (λ k, (xk_expires_at_ms k, xk_id k))
    (λ p, {| xk_expires_at_ms := p.1; xk_id := p.2 |}) ltac:(by intros []).

Record Entry := {
  e_value : bytes;
  e_expires_at_ms : option N;
  e_stale_until_ms : option N;
  e_tags : list string;
  e_cost : option N;
  e_memory_bytes : N;
  e_last_access : N
}.

Record Lease := { l_token : string; l_expires_at_ms : N }.

Inductive EntryState := Missing | Fresh | Stale | Expired.

#[export] Instance EntryState_eq_dec : EqDecision EntryState.
Proof. solve_decision. Defined.

Record PutCommand := {
  pc_namespace : string;
  pc_key : bytes;
  pc_value : bytes;
  pc_ttl : option Ttl;
  pc_stale_ttl : option Ttl;
  pc_tags : list string;
  pc_cost : option N
}.

Record CompleteLeaseCommand := {
  cl_namespace : string;
  cl_key : bytes;
  cl_lease_token : string;
  cl_value : bytes;
  cl_ttl : option Ttl;
  cl_stale_ttl : option Ttl;
  cl_tags : list string;
  cl_cost : option N
}.

Record PutOutcome := { po_evicted : N }.

Inductive PutError :=
| ValueTooLarge (value_bytes max_value_bytes : N)
| ValueTooLargeForMemory (entry_bytes max_memory_bytes : N)
| InsufficientMemory (required_bytes memory_used_bytes max_memory_bytes : N).

Inductive CompleteLeaseError := InvalidLeaseToken | PutFailed (e : PutError).

Inductive StartLeaseOutcome :=
| LHit (value : bytes)
| LStale (value : bytes)
| LeaseGranted (token : string) (stale_value : option bytes)
| LeaseDenied.

Inductive GetOutcome := GHit (value : bytes) | GStale (value : bytes) | GMiss.

Record Engine := {
  entries : gmap EntryId Entry;
  leases : gmap EntryId Lease;
  tag_index : gmap TagId (gset EntryId);
  expiry_index : gset ExpiryKey;
  limits : EngineLimits;
  memory_used_bytes : N;
  cost_score_total : N;
  next_access : N;
  stats : EngineStats
}.

(** Field updates, [self.f = v]. *)
Definition set_entries v e := {| entries := v; leases := leases e; tag_index := tag_index e;
  expiry_index := expiry_index e; limits := limits e; memory_used_bytes := memory_used_bytes e;
  cost_score_total := cost_score_total e; next_access := next_access e; stats := stats e |}.
Definition set_leases v e := {| entries := entries e; leases := v; tag_index := tag_index e;
  expiry_index := expiry_index e; limits := limits e; memory_used_bytes := memory_used_bytes e;
  cost_score_total := cost_score_total e; next_access := next_access e; stats := stats e |}.
Definition set_tag_index v e := {| entries := entries e; leases := leases e; tag_index := v;
  expiry_index := expiry_index e; limits := limits e; memory_used_bytes := memory_used_bytes e;
  cost_score_total := cost_score_total e; next_access := next_access e; stats := stats e |}.
Definition set_expiry_index v e := {| entries := entries e; leases := leases e;
  tag_index := tag_index e; expiry_index := v; limits := limits e;
  memory_used_bytes := memory_used_bytes e; cost_score_total := cost_score_total e;
  next_access := next_access e; stats := stats e |}.
Definition set_memory_used_bytes v e := {| entries := entries e; leases := leases e;
  tag_index := tag_index e; expiry_index := expiry_index e; limits := limits e;
  memory_used_bytes := v; cost_score_total := cost_score_total e;
  next_access := next_access e; stats := stats e |}.
Definition set_cost_score_total v e := {| entries := entries e; leases := leases e;
  tag_index := tag_index e; expiry_index := expiry_index e; limits := limits e;
  memory_used_bytes := memory_used_bytes e; cost_score_total := v;
  next_access := next_access e; stats := stats e |}.
Definition set_next_access v e := {| entries := entries e; leases := leases e;
  tag_index := tag_index e; expiry_index := expiry_index e; limits := limits e;
  memory_used_bytes := memory_used_bytes e; cost_score_total := cost_score_total e;
  next_access := v; stats := stats e |}.
Definition set_stats v e := {| entries := entries e; leases := leases e;
  tag_index := tag_index e; expiry_index := expiry_index e; limits := limits e;
  memory_used_bytes := memory_used_bytes e; cost_score_total := cost_score_total e;
  next_access := next_access e; stats := v |}.

Definition entry_set_last_access (access : N) (en : Entry) : Entry :=
  {| e_value := e_value en; e_expires_at_ms := e_expires_at_ms en;
     e_stale_until_ms := e_stale_until_ms en; e_tags := e_tags en; e_cost := e_cost en;
     e_memory_bytes := e_memory_bytes en; e_last_access := access |}.

Definition with_clock_and_limits (lim : EngineLimits) : Engine :=
  {| entries := ∅; leases := ∅; tag_index := ∅; expiry_index := ∅; limits := lim;
     memory_used_bytes := 0; cost_score_total := 0; next_access := 0;
     stats := EngineStats_default |}.

(** ** The clock and hash-table iteration *)

Definition Clock := nat → N.

(** The readings that follow the first [n]. *)
Definition clock_after (n : nat) (clk : Clock) : Clock := λ i, clk (n + i)%nat.

(** The order in which [HashMap] and [HashSet] iterate is not specified; the
    law is the documented one, an iterator visits every element exactly once. *)
Class HashOrder := {
  entries_iter : gmap EntryId Entry → list (EntryId * Entry);
  ids_iter : gset EntryId → list EntryId;
  entries_iter_perm m : entries_iter m ≡ₚ map_to_list m;
  ids_iter_perm s : ids_iter s ≡ₚ elements s
}.

#[export] Instance canonical_order : HashOrder | 100 := {|
  entries_iter := map_to_list;
  ids_iter := elements;
  entries_iter_perm m := Permutation_refl _;
  ids_iter_perm s := Permutation_refl _
|}.

(** ** Ordered sets of expiry keys

    [#[derive(Ord)]] on [ExpiryKey] and [EntryId] compares the fields in
    order, strings and byte vectors lexicographically by byte. *)

Definition bytes_ord (b : bytes) : list N := Byte.to_N <$> b.

Definition expiry_ord (k : ExpiryKey) : N * (list N * list N) :=
  (xk_expires_at_ms k,
   (bytes_ord (as_bytes (eid_namespace (xk_id k))), bytes_ord (eid_key (xk_id k)))).

Definition expiry_ltb (a b : ExpiryKey) : bool :=
  bool_decide (lexico (expiry_ord a) (expiry_ord b)).

Fixpoint least_from (best : ExpiryKey) (l : list ExpiryKey) : ExpiryKey :=
  match l with
  | [] => best
  | k :: l' => least_from (if expiry_ltb k best then k else best) l'
  end.

(** [BTreeSet::first] *)
Definition first (s : gset ExpiryKey) : option ExpiryKey :=
  match elements s with
  | [] => None
  | k :: l => Some (least_from k l)
  end.

(** ** Helpers *)

Definition sum_usize (l : list N) : N := foldl wrap_add 0 l.

Definition estimate_entry_memory (id : EntryId) (value : bytes) (tags : list string) : N :=
  ENTRY_OVERHEAD_BYTES +| str_len (eid_namespace id) +| len (eid_key id) +| len value
    +| sum_usize (str_len <$> tags).

Definition tag_id (namespace tag : string) : TagId :=
  {| tid_namespace := namespace; tid_tag := tag |}.

Definition tag_ids (namespace : string) (tags : list string) : list TagId :=
  tag_id namespace <$> tags.

Definition removable_at_ms (expires_at_ms stale_until_ms : option N) : option N :=
  match stale_until_ms with Some s => Some s | None => expires_at_ms end.

Definition entry_state_at (entry : Entry) (now_ms : N) : EntryState :=
  match e_expires_at_ms entry, e_stale_until_ms entry with
  | None, _ => Fresh
  | Some expires_at, stale_until_ms =>
    if now_ms <=? expires_at then Fresh
    else match stale_until_ms with
    | Some stale_until => if now_ms <=? stale_until then Stale else Expired
    | None => Expired
    end
  end.

Definition entry_expiry_key (id : EntryId) (en : Entry) : option ExpiryKey :=
  (λ at_ms, {| xk_expires_at_ms := at_ms; xk_id := id |}) <$>
    removable_at_ms (e_expires_at_ms en) (e_stale_until_ms en).

(** ** Private operations *)

(** One turn of the loop over [entry.tags] in [remove_entry]. *)
Definition unindex_tag (id : EntryId) (idx : gmap TagId (gset EntryId)) (tag : string) :
    gmap TagId (gset EntryId) :=
  let tid := tag_id (eid_namespace id) tag in
  match idx !! tid with
  | None => idx
  | Some ids =>
    let ids := ids ∖ {[id]} in
    if bool_decide (ids = ∅) then base.delete tid idx else <[tid := ids]> idx
  end.

Definition remove_entry (id : EntryId) (e : Engine) : bool * Engine :=
  match entries e !! id with
  | None => (false, e)
  | Some entry =>
    let e := set_entries (base.delete id (entries e)) e in
    let e := set_leases (base.delete id (leases e)) e in
    let e := set_memory_used_bytes (memory_used_bytes e -| e_memory_bytes entry) e in
    let e := set_cost_score_total (cost_score_total e -| default 0 (e_cost entry)) e in
    let e := match entry_expiry_key id entry with
             | Some k => set_expiry_index (expiry_index e ∖ {[k]}) e
             | None => e
             end in
    let e := set_tag_index (foldl (unindex_tag id) (tag_index e) (e_tags entry)) e in
    (true, e)
  end.

(** The [while] loop of [remove_expired]: takes due keys off the front of the
    index; [fuel] bounds the number of turns. *)
Fixpoint take_expired (fuel : nat) (now_ms max_entries : N) (idx : gset ExpiryKey)
    (expired : list EntryId) : list EntryId * gset ExpiryKey :=
  match fuel with
  | O => (expired, idx)
  | S fuel =>
    if len expired <? max_entries then
      match first idx with
      | None => (expired, idx)
      | Some key =>
        if now_ms <? xk_expires_at_ms key then (expired, idx)
        else take_expired fuel now_ms max_entries (idx ∖ {[key]}) (expired ++ [xk_id key])
      end
    else (expired, idx)
  end.

Definition count_expiration (e : Engine) : Engine :=
  set_stats {| expirations := expirations (stats e) +% 1; evictions := evictions (stats e) |} e.

Definition count_eviction (e : Engine) : Engine :=
  set_stats {| expirations := expirations (stats e); evictions := evictions (stats e) +% 1 |} e.

(** The [for id in expired] loop of [remove_expired]. *)
Fixpoint drop_expired (expired : list EntryId) (removed : N) (e : Engine) : N * Engine :=
  match expired with
  | [] => (removed, e)
  | id :: rest =>
    let '(ok, e) := remove_entry id e in
    if ok then drop_expired rest (removed + 1) (count_expiration e)
    else drop_expired rest removed e
  end.

Definition remove_expired (clk : Clock) (max_entries : N) (e : Engine) : N * Engine :=
  let now_ms := clk 0%nat in
  let '(expired, idx) :=
    take_expired (size (expiry_index e)) now_ms max_entries (expiry_index e) [] in
  drop_expired expired 0 (set_expiry_index idx e).

Definition reclaim_expired_budget (clk : Clock) (max_entries : N) (e : Engine) : N * Engine :=
  remove_expired clk max_entries e.

Definition reclaim_expired (clk : Clock) (e : Engine) : N * Engine :=
  reclaim_expired_budget clk USIZE_MAX e.

Definition bump_access (e : Engine) : N * Engine :=
  (next_access e, set_next_access (next_access e +| 1) e).

Definition record_access (id : EntryId) (e : Engine) : Engine :=
  match entries e !! id with
  | None => e
  | Some _ =>
    let '(access, e) := bump_access e in
    set_entries (alter (entry_set_last_access access) id (entries e)) e
  end.

Definition active_lease (now_ms : N) (id : EntryId) (e : Engine) : option Lease :=
  match leases e !! id with
  | None => None
  | Some lease => if now_ms <=? l_expires_at_ms lease then Some lease else None
  end.

Definition lease_token (n : N) : string := "lease-" +:+ pretty n.

Definition create_lease (now_ms : N) (id : EntryId) (lease_ttl_ms : N) (e : Engine) :
    string * Engine :=
  let token := lease_token (next_access e) in
  let e := set_next_access (next_access e +| 1) e in
  (token,
   set_leases (<[id := {| l_token := token; l_expires_at_ms := now_ms +| lease_ttl_ms |}]>
     (leases e)) e).

(** Clock readings: 0 in [active_lease], 1 in [create_lease]. *)
Definition start_lease_for_missing (clk : Clock) (id : EntryId) (lease_ttl_ms : N) (e : Engine) :
    StartLeaseOutcome * Engine :=
  match active_lease (clk 0%nat) id e with
  | Some _ => (LeaseDenied, e)
  | None =>
    let '(token, e) := create_lease (clk 1%nat) id lease_ttl_ms e in
    (LeaseGranted token None, e)
  end.

Definition entry_state (now_ms : N) (id : EntryId) (e : Engine) : EntryState :=
  match entries e !! id with
  | None => Missing
  | Some entry => entry_state_at entry now_ms
  end.

Definition has_tag_id (tid : TagId) (e : Engine) : bool :=
  match tag_index e !! tid with
  | Some ids => negb (bool_decide (ids = ∅))
  | None => false
  end.

Definition tag_ids_for_entry (namespace : string) (key : bytes) (e : Engine) : list TagId :=
  match entries e !! EntryId_new namespace key with
  | Some entry => tag_ids namespace (e_tags entry)
  | None => []
  end.

Section operations.
Context `{HashOrder}.

Definition least_recently_used_entry (e : Engine) : option EntryId :=
  fst <$> min_by_key (λ p : EntryId * Entry, e_last_access p.2)
            (take LRU_SAMPLE_SIZE (entries_iter (entries e))).

(** The [while] loop of [evict_until_fits]; [fuel] bounds the number of turns. *)
Fixpoint evict_loop (fuel : nat) (incoming_bytes evicted : N) (e : Engine) : N * Engine :=
  match fuel with
  | O => (evicted, e)
  | S fuel =>
    if max_memory_bytes (limits e) <? (memory_used_bytes e +| incoming_bytes) then
      match least_recently_used_entry e with
      | None => (evicted, e)
      | Some id =>
        let '(ok, e') := remove_entry id e in
        if ok then evict_loop fuel incoming_bytes (evicted + 1) (count_eviction e')
        else (evicted, e')
      end
    else (evicted, e)
  end.

Definition evict_until_fits (incoming_bytes : N) (e : Engine) : N * Engine :=
  evict_loop (S (size (entries e))) incoming_bytes 0 e.

(** One turn of the loop over [&tags] in [put]. *)
Definition index_tag (id : EntryId) (idx : gmap TagId (gset EntryId)) (tag : string) :
    gmap TagId (gset EntryId) :=
  let tid := tag_id (eid_namespace id) tag in
  <[tid := {[id]} ∪ default ∅ (idx !! tid)]> idx.

(** The part of [put] after the memory checks: computes the deadlines and
    inserts the entry in every index. *)
Definition insert_entry (now_ms : N) (id : EntryId) (command : PutCommand)
    (entry_memory_bytes : N) (e : Engine) : Engine :=
  let expires_at_ms := (λ ttl, now_ms +| milliseconds ttl) <$> pc_ttl command in
  let stale_until_ms :=
    match expires_at_ms, pc_stale_ttl command with
    | Some expires_at, Some stale_ttl => Some (expires_at +| milliseconds stale_ttl)
    | _, _ => None
    end in
  let tags := pc_tags command in
  let e := set_tag_index (foldl (index_tag id) (tag_index e) tags) e in
  let '(last_access, e) := bump_access e in
  let e := match removable_at_ms expires_at_ms stale_until_ms with
           | Some at_ms =>
             set_expiry_index ({[ {| xk_expires_at_ms := at_ms; xk_id := id |} ]}
               ∪ expiry_index e) e
           | None => e
           end in
  let e := set_entries (<[id := {| e_value := pc_value command;
                                   e_expires_at_ms := expires_at_ms;
                                   e_stale_until_ms := stale_until_ms;
                                   e_tags := tags;
                                   e_cost := pc_cost command;
                                   e_memory_bytes := entry_memory_bytes;
                                   e_last_access := last_access |}]> (entries e)) e in
  let e := set_memory_used_bytes (memory_used_bytes e +| entry_memory_bytes) e in
  set_cost_score_total (cost_score_total e +| default 0 (pc_cost command)) e.

(** The part of [put] that makes room: drops the old entry, reclaims expired
    entries when the new one does not fit, then evicts. *)
Definition make_room (clk : Clock) (id : EntryId) (entry_memory_bytes : N) (e : Engine) :
    N * Engine :=
  let e := (remove_entry id e).2 in
  let e := if max_memory_bytes (limits e) <? (memory_used_bytes e +| entry_memory_bytes)
           then (reclaim_expired clk e).2 else e in
  evict_until_fits entry_memory_bytes e.

(** Clock readings: 0 at the start of [put], 1 in [reclaim_expired]. *)
Definition put (clk : Clock) (command : PutCommand) (e : Engine) :
    result PutOutcome PutError * Engine :=
  if max_value_bytes (limits e) <? len (pc_value command)
  then (Err (ValueTooLarge (len (pc_value command)) (max_value_bytes (limits e))), e)
  else
  let now_ms := clk 0%nat in
  let id := EntryId_new (pc_namespace command) (pc_key command) in
  let entry_memory_bytes := estimate_entry_memory id (pc_value command) (pc_tags command) in
  if max_memory_bytes (limits e) <? entry_memory_bytes
  then (Err (ValueTooLargeForMemory entry_memory_bytes (max_memory_bytes (limits e))), e)
  else
  let '(evicted, e) := make_room (clock_after 1 clk) id entry_memory_bytes e in
  if max_memory_bytes (limits e) <? (memory_used_bytes e +| entry_memory_bytes)
  then (Err (InsufficientMemory entry_memory_bytes (memory_used_bytes e)
               (max_memory_bytes (limits e))), e)
  else (Ok {| po_evicted := evicted |},
        insert_entry now_ms id command entry_memory_bytes e).

(** [get_ref_inner] with the borrowed value as the outcome; the closure [map]
    is applied by the caller. *)
Definition get_ref_inner (clk : Clock) (namespace : string) (key : bytes) (update_access : bool)
    (e : Engine) : GetOutcome * Engine :=
  let id := EntryId_new namespace key in
  let now_ms := clk 0%nat in
  match entries e !! id with
  | None => (GMiss, e)
  | Some entry =>
    let touched :=
      if update_access then
        let access := next_access e in
        let e := set_next_access (next_access e +| 1) e in
        set_entries (<[id := entry_set_last_access access entry]> (entries e)) e
      else e in
    match entry_state_at entry now_ms with
    | Missing => (GMiss, e)
    | Expired => (GMiss, (remove_entry id e).2)
    | Fresh => (GHit (e_value entry), touched)
    | Stale => (GStale (e_value entry), touched)
    end
  end.

Definition get_ref (clk : Clock) (namespace : string) (key : bytes) (e : Engine) :
    GetOutcome * Engine :=
  get_ref_inner clk namespace key true e.

Definition get_ref_without_access_update (clk : Clock) (namespace : string) (key : bytes)
    (e : Engine) : GetOutcome * Engine :=
  get_ref_inner clk namespace key false e.

Definition get (clk : Clock) (namespace : string) (key : bytes) (e : Engine) :
    GetOutcome * Engine :=
  get_ref clk namespace key e.

(** Reading [i] of the clock is that of the [i]-th key. *)
Fixpoint batch_get (clk : Clock) (namespace : string) (keys : list bytes) (e : Engine) :
    list GetOutcome * Engine :=
  match keys with
  | [] => ([], e)
  | key :: keys =>
    let '(o, e) := get clk namespace key e in
    let '(os, e) := batch_get (clock_after 1 clk) namespace keys e in
    (o :: os, e)
  end.

Definition delete (namespace : string) (key : bytes) (e : Engine) : bool * Engine :=
  let id := EntryId_new namespace key in
  remove_entry id (set_leases (base.delete id (leases e)) e).

(** The [for id in ids] loop of [invalidate_tag]. *)
Fixpoint remove_ids (ids : list EntryId) (removed : N) (e : Engine) : N * Engine :=
  match ids with
  | [] => (removed, e)
  | id :: ids =>
    let '(ok, e) := remove_entry id e in
    remove_ids ids (if ok then removed + 1 else removed) e
  end.

Definition invalidate_tag (namespace tag : string) (e : Engine) : N * Engine :=
  let tid := tag_id namespace tag in
  match tag_index e !! tid with
  | None => (0, e)
  | Some ids =>
    remove_ids (ids_iter ids) 0 (set_tag_index (base.delete tid (tag_index e)) e)
  end.

(** Clock readings: 0 in [active_lease], 1 in [entry_state], 2 and 3 in
    [start_lease_for_missing], 3 in [create_lease]. *)
Definition start_lease (clk : Clock) (namespace : string) (key : bytes) (lease_ttl_ms : N)
    (e : Engine) : StartLeaseOutcome * Engine :=
  let id := EntryId_new namespace key in
  let has_active_lease := bool_decide (is_Some (active_lease (clk 0%nat) id e)) in
  match entry_state (clk 1%nat) id e with
  | Fresh =>
    let e := record_access id e in
    match entries e !! id with
    | Some entry => (LHit (e_value entry), e)
    | None =>
      let '(token, e) := create_lease (clk 3%nat) id lease_ttl_ms e in
      (LeaseGranted token None, e)
    end
  | Stale =>
    let e := record_access id e in
    let stale_value := e_value <$> entries e !! id in
    if has_active_lease then (LStale (default [] stale_value), e)
    else
      let '(token, e) := create_lease (clk 3%nat) id lease_ttl_ms e in
      (LeaseGranted token stale_value, e)
  | Expired =>
    if has_active_lease then (LeaseDenied, e)
    else
      let e := (remove_entry id e).2 in
      start_lease_for_missing (clock_after 2 clk) id lease_ttl_ms e
  | Missing => start_lease_for_missing (clock_after 2 clk) id lease_ttl_ms e
  end.

(** Clock readings: 0 in [active_lease], 1 and 2 in [put]. *)
Definition complete_lease (clk : Clock) (command : CompleteLeaseCommand) (e : Engine) :
    result PutOutcome CompleteLeaseError * Engine :=
  let id := EntryId_new (cl_namespace command) (cl_key command) in
  match active_lease (clk 0%nat) id e with
  | None => (Err InvalidLeaseToken, set_leases (base.delete id (leases e)) e)
  | Some lease =>
    if bool_decide (l_token lease = cl_lease_token command) then
      let e := set_leases (base.delete id (leases e)) e in
      let '(r, e) := put (clock_after 1 clk)
        {| pc_namespace := cl_namespace command; pc_key := cl_key command;
           pc_value := cl_value command; pc_ttl := cl_ttl command;
           pc_stale_ttl := cl_stale_ttl command; pc_tags := cl_tags command;
           pc_cost := cl_cost command |} e in
      (result_map_err PutFailed r, e)
    else (Err InvalidLeaseToken, e)
  end.

End operations.

Definition len_entries (e : Engine) : N := N.of_nat (size (entries e)).
Definition is_empty (e : Engine) : bool := len_entries e =? 0.

(** ** The scenarios of the unit tests, evaluated *)

Definition manual_clock (now : N) : Clock := λ _, now.

Definition put_command (namespace : string) (key value : string) : PutCommand :=
  {| pc_namespace := namespace; pc_key := as_bytes key; pc_value := as_bytes value;
     pc_ttl := None; pc_stale_ttl := None; pc_tags := []; pc_cost := None |}.

(** [lease_miss_grants_once_and_completion_writes_value] *)
Example lease_scenario :
  let e0 := with_clock_and_limits EngineLimits_default in
  let '(o1, e1) := start_lease (manual_clock 1000) "default" (as_bytes "k") 10000 e0 in
  let '(o2, e2) := start_lease (manual_clock 1000) "default" (as_bytes "k") 10000 e1 in
  let '(r, e3) := complete_lease (manual_clock 1000)
    {| cl_namespace := "default"; cl_key := as_bytes "k"; cl_lease_token := "lease-0";
       cl_value := as_bytes "fresh"; cl_ttl := Some {| milliseconds := 100 |};
       cl_stale_ttl := None; cl_tags := []; cl_cost := None |} e2 in
  let '(o4, e4) := start_lease (manual_clock 1000) "default" (as_bytes "k") 10000 e3 in
  (o1, o2, is_ok r, o4)
  = (LeaseGranted "lease-0" None, LeaseDenied, true, LHit (as_bytes "fresh")).
Proof. vm_compute. reflexivity. Qed.
End Engine.
