(* ===== verification/EngineInv.v ===== *)
(** * EngineInv: the representation invariant of one engine

    The indexes of an [Engine] describe exactly its entries, the accounting
    fields are exact sums within the configured limits, and lease tokens come
    from the past of the access counter.  Every operation preserves the
    invariant, for all clock readings and all hash-table iteration orders. *)

From S2P Require Import Prelude Bytes Protocol Engine.

Module EngineInv.
Import Engine.

(** ** The invariant *)

(** [id] holds an entry carrying the tag [tid]. *)
Definition tagged (es : gmap EntryId Entry) (tid : TagId) (id : EntryId) : Prop :=
  ∃ en, es !! id = Some en ∧ eid_namespace id = tid_namespace tid ∧ tid_tag tid ∈ e_tags en.

#[export] Instance tagged_dec es tid id : Decision (tagged es tid id).
Proof.
  unfold tagged. destruct (es !! id) as [en|] eqn:E.
  - destruct (decide (eid_namespace id = tid_namespace tid ∧ tid_tag tid ∈ e_tags en)).
    + left. naive_solver.
    + right. naive_solver.
  - right. naive_solver.
Defined.

(** The tag index lists exactly the entries with tag [tid], and keeps no
    empty set. *)
Definition tags_exact_at (e : Engine) (tid : TagId) : Prop :=
  (∀ id, id ∈ default ∅ (tag_index e !! tid) ↔ tagged (entries e) tid id) ∧
  tag_index e !! tid ≠ Some ∅.

(** The expiry index holds for [id] exactly the key of its entry. *)
Definition expiry_exact_at (e : Engine) (id : EntryId) : Prop :=
  ∀ k, xk_id k = id →
    k ∈ expiry_index e ↔ ∃ en, entries e !! id = Some en ∧ entry_expiry_key id en = Some k.

Record entry_ok (lim : EngineLimits) (id : EntryId) (en : Entry) : Prop := {
  eok_memory : e_memory_bytes en = estimate_entry_memory id (e_value en) (e_tags en);
  eok_value : len (e_value en) ≤ max_value_bytes lim;
  eok_stale : ∀ s, e_stale_until_ms en = Some s →
    ∃ x, e_expires_at_ms en = Some x ∧ x ≤ s
}.

(** The accounting part of the invariant: it does not mention the indexes. *)
Record accounts_ok (e : Engine) : Prop := {
  acc_entries : map_Forall (entry_ok (limits e)) (entries e);
  acc_memory : memory_used_bytes e = map_sum e_memory_bytes (entries e);
  acc_limit : memory_used_bytes e ≤ max_memory_bytes (limits e);
  acc_width : max_memory_bytes (limits e) < USIZE_MAX;
  acc_next : next_access e ≤ U64_MAX;
  acc_access : map_Forall (λ _ en, e_last_access en ≤ next_access e) (entries e);
  acc_tokens : map_Forall (λ _ l, ∃ n, l_token l = lease_token n ∧
    (n < next_access e ∨ next_access e = U64_MAX)) (leases e)
}.

Record engine_inv (e : Engine) : Prop := {
  inv_accounts : accounts_ok e;
  inv_tags : ∀ tid, tags_exact_at e tid;
  inv_expiry : ∀ id, expiry_exact_at e id
}.

(** ** The empty engine *)

Lemma new_inv lim : max_memory_bytes lim < USIZE_MAX → engine_inv (with_clock_and_limits lim).
Proof.
  intros Hlim. split.
  - split; simpl; first [done | lia | apply map_Forall_empty].
  - intros tid. split; simpl.
    + intros id. rewrite lookup_empty. simpl. unfold tagged. simpl.
      setoid_rewrite lookup_empty. set_solver.
    + by rewrite lookup_empty.
  - intros id k _. simpl. setoid_rewrite lookup_empty. set_solver.
Qed.

(** ** [remove_entry] *)

Lemma unindex_tag_lookup id idx tag tid :
  default ∅ (unindex_tag id idx tag !! tid) =
  if decide (tid = tag_id (eid_namespace id) tag)
  then default ∅ (idx !! tid) ∖ {[id]} else default ∅ (idx !! tid).
Proof.
  unfold unindex_tag. case_decide as Htid.
  - subst tid. destruct (idx !! tag_id _ tag) as [ids|] eqn:E.
    + case_bool_decide as Hids.
      * rewrite lookup_delete_eq. simpl. set_solver.
      * by rewrite lookup_insert_eq.
    + rewrite E. simpl. set_solver.
  - destruct (idx !! tag_id _ tag) as [ids|] eqn:E; [|done].
    case_bool_decide; [by rewrite lookup_delete_ne | by rewrite lookup_insert_ne].
Qed.

Lemma unindex_tag_nonempty id idx tag tid :
  idx !! tid ≠ Some ∅ → unindex_tag id idx tag !! tid ≠ Some ∅.
Proof.
  intros Hne. unfold unindex_tag.
  destruct (idx !! tag_id _ tag) as [ids|] eqn:E; [|done].
  destruct (decide (tid = tag_id (eid_namespace id) tag)) as [->|Htid].
  - case_bool_decide; [by rewrite lookup_delete_eq | rewrite lookup_insert_eq; congruence].
  - case_bool_decide; [by rewrite lookup_delete_ne | by rewrite lookup_insert_ne].
Qed.

Lemma unindex_tags_lookup id tags idx tid :
  default ∅ (foldl (unindex_tag id) idx tags !! tid) =
  if decide (eid_namespace id = tid_namespace tid ∧ tid_tag tid ∈ tags)
  then default ∅ (idx !! tid) ∖ {[id]} else default ∅ (idx !! tid).
Proof.
  revert idx. induction tags as [|tag tags IH]; intros idx; simpl.
  - rewrite decide_False by set_solver. done.
  - rewrite IH, unindex_tag_lookup. destruct tid as [ns t].
    repeat case_decide; unfold tag_id in *; simplify_eq/=; set_solver.
Qed.

Lemma unindex_tags_nonempty id tags idx tid :
  idx !! tid ≠ Some ∅ → foldl (unindex_tag id) idx tags !! tid ≠ Some ∅.
Proof.
  revert idx. induction tags as [|tag tags IH]; intros idx Hne; simpl; [done|].
  by apply IH, unindex_tag_nonempty.
Qed.

(** What [remove_entry] does to each field. *)
Section remove_entry.
Context (id : EntryId) (e : Engine).
Let e' := (remove_entry id e).2.

Lemma remove_entry_result : (remove_entry id e).1 = bool_decide (is_Some (entries e !! id)).
Proof. unfold remove_entry. by destruct (entries e !! id). Qed.

Lemma remove_entry_entries : entries e' = base.delete id (entries e).
Proof.
  subst e'. unfold remove_entry. destruct (entries e !! id) eqn:E; simpl.
  - by destruct (entry_expiry_key id _).
  - by rewrite delete_id.
Qed.

Lemma remove_entry_limits : limits e' = limits e.
Proof.
  subst e'. unfold remove_entry. destruct (entries e !! id); [|done].
  simpl. by destruct (entry_expiry_key id _).
Qed.

Lemma remove_entry_next_access : next_access e' = next_access e.
Proof.
  subst e'. unfold remove_entry. destruct (entries e !! id); [|done].
  simpl. by destruct (entry_expiry_key id _).
Qed.

Lemma remove_entry_stats : stats e' = stats e.
Proof.
  subst e'. unfold remove_entry. destruct (entries e !! id); [|done].
  simpl. by destruct (entry_expiry_key id _).
Qed.

Lemma remove_entry_leases :
  leases e' = match entries e !! id with Some _ => base.delete id (leases e) | None => leases e end.
Proof.
  subst e'. unfold remove_entry. destruct (entries e !! id); [|done].
  simpl. by destruct (entry_expiry_key id _).
Qed.

Lemma remove_entry_memory :
  memory_used_bytes e' =
  memory_used_bytes e - from_option e_memory_bytes 0 (entries e !! id).
Proof.
  subst e'. unfold remove_entry, sat_sub. destruct (entries e !! id); simpl; [|lia].
  by destruct (entry_expiry_key id _).
Qed.

Lemma remove_entry_cost :
  cost_score_total e' =
  cost_score_total e - from_option (λ en, default 0 (e_cost en)) 0 (entries e !! id).
Proof.
  subst e'. unfold remove_entry, sat_sub. destruct (entries e !! id); simpl; [|lia].
  by destruct (entry_expiry_key id _).
Qed.

Lemma remove_entry_tags tid : tags_exact_at e tid → tags_exact_at e' tid.
Proof.
  intros [Hin Hne]. unfold tags_exact_at. rewrite remove_entry_entries.
  destruct (entries e !! id) as [en|] eqn:E.
  - assert (tag_index e' = foldl (unindex_tag id) (tag_index e) (e_tags en)) as ->.
    { subst e'. unfold remove_entry. rewrite E. simpl. by destruct (entry_expiry_key id _). }
    split; [|by apply unindex_tags_nonempty].
    intros j. rewrite unindex_tags_lookup. unfold tagged in *.
    destruct (decide (j = id)) as [->|Hj].
    + rewrite lookup_delete_eq. case_decide as Hd; [set_solver|].
      rewrite Hin. naive_solver.
    + rewrite lookup_delete_ne by done. case_decide; set_solver.
  - assert (e' = e) as ->; [|by rewrite delete_id].
    subst e'. unfold remove_entry. by rewrite E.
Qed.

Lemma remove_entry_expiry j : expiry_exact_at e j → expiry_exact_at e' j.
Proof.
  intros Hx k Hk. specialize (Hx k Hk). rewrite remove_entry_entries.
  destruct (entries e !! id) as [en|] eqn:E.
  - assert (expiry_index e' = match entry_expiry_key id en with
              | Some k => expiry_index e ∖ {[k]} | None => expiry_index e end) as ->.
    { subst e'. unfold remove_entry. rewrite E. simpl. by destruct (entry_expiry_key id _). }
    destruct (decide (j = id)) as [->|Hj].
    + rewrite lookup_delete_eq. rewrite E in Hx.
      destruct (entry_expiry_key id en) eqn:Ek; set_solver.
    + rewrite lookup_delete_ne by done. destruct (entry_expiry_key id en) as [k'|] eqn:Ek; [|done].
      assert (xk_id k' = id).
      { unfold entry_expiry_key in Ek. by apply fmap_Some in Ek as (? & _ & ->). }
      set_solver.
  - assert (e' = e) as ->; [|by rewrite delete_id].
    subst e'. unfold remove_entry. by rewrite E.
Qed.

Lemma remove_entry_accounts : accounts_ok e → accounts_ok e'.
Proof.
  intros [H1 H2 H3 H4 H5 H6 H7]. split;
    rewrite ?remove_entry_limits, ?remove_entry_next_access, ?remove_entry_entries,
      ?remove_entry_memory; try done; try by apply map_Forall_delete.
  - destruct (entries e !! id) as [en|] eqn:E; simpl.
    + rewrite (map_sum_delete e_memory_bytes id en (entries e)) in H2 by done. lia.
    + rewrite delete_id by done. lia.
  - lia.
  - rewrite remove_entry_leases. destruct (entries e !! id); [by apply map_Forall_delete | done].
Qed.
End remove_entry.

Lemma remove_entry_inv id e : engine_inv e → engine_inv (remove_entry id e).2.
Proof.
  intros [Ha Ht Hx]. split.
  - by apply remove_entry_accounts.
  - intros tid. by apply remove_entry_tags.
  - intros j. by apply remove_entry_expiry.
Qed.

(** ** Frame rules: updates the invariant does not depend on *)

Lemma set_stats_inv v e : engine_inv e → engine_inv (set_stats v e).
Proof. intros [[] Ht Hx]. split; [by split | done..]. Qed.

Lemma count_expiration_inv e : engine_inv e → engine_inv (count_expiration e).
Proof. apply set_stats_inv. Qed.

Lemma count_eviction_inv e : engine_inv e → engine_inv (count_eviction e).
Proof. apply set_stats_inv. Qed.

Lemma delete_lease_inv id e :
  engine_inv e → engine_inv (set_leases (base.delete id (leases e)) e).
Proof.
  intros [[] Ht Hx]. split; [|done..]. split; try done. by apply map_Forall_delete.
Qed.

(** ** Removing a list of entries *)

(** Keep the entries whose id is not in [ids]. *)
Definition without (ids : list EntryId) (es : gmap EntryId Entry) : gmap EntryId Entry :=
  filter (λ p, p.1 ∉ ids) es.

Lemma without_nil es : without [] es = es.
Proof. apply map_filter_id. set_solver. Qed.

Lemma without_delete id ids es : without ids (base.delete id es) = without (id :: ids) es.
Proof.
  apply map_eq. intros j. unfold without. apply option_eq. intros en.
  rewrite !map_lookup_filter_Some. simpl.
  rewrite lookup_delete_Some. set_solver.
Qed.

Lemma lookup_without ids es id :
  without ids es !! id = if decide (id ∈ ids) then None else es !! id.
Proof.
  unfold without. apply option_eq. intros en. rewrite map_lookup_filter_Some. simpl.
  case_decide; naive_solver.
Qed.

Lemma remove_entry_shrinks id e tid :
  default ∅ (tag_index (remove_entry id e).2 !! tid) ⊆ default ∅ (tag_index e !! tid).
Proof.
  unfold remove_entry. destruct (entries e !! id) as [en|]; [|done]. simpl.
  assert (∀ e0 : Engine, tag_index e0 = tag_index e →
    default ∅ (foldl (unindex_tag id) (tag_index e0) (e_tags en) !! tid)
    ⊆ default ∅ (tag_index e !! tid)) as Hs.
  { intros e0 ->. rewrite unindex_tags_lookup. case_decide; set_solver. }
  destruct (entry_expiry_key id en); by apply Hs.
Qed.

Lemma remove_entry_nonempty id e tid :
  tag_index e !! tid ≠ Some ∅ → tag_index (remove_entry id e).2 !! tid ≠ Some ∅.
Proof.
  intros Hne. unfold remove_entry. destruct (entries e !! id) as [en|]; [|done]. simpl.
  destruct (entry_expiry_key id en); by apply unindex_tags_nonempty.
Qed.

Lemma remove_ids_spec ids r e :
  let '(n, e') := remove_ids ids r e in
  entries e' = without ids (entries e) ∧ limits e' = limits e ∧
  n + N.of_nat (size (entries e')) = r + N.of_nat (size (entries e)).
Proof.
  revert r e. induction ids as [|id ids IH]; intros r e; simpl.
  - by rewrite without_nil.
  - pose proof (remove_entry_result id e) as Hr.
    pose proof (remove_entry_entries id e) as He.
    pose proof (remove_entry_limits id e) as Hl.
    destruct (remove_entry id e) as [ok e1]. simpl in *.
    specialize (IH (if ok then r + 1 else r) e1).
    destruct (remove_ids ids _ e1) as [n e']. destruct IH as (IH1 & IH2 & IH3).
    rewrite He, without_delete in IH1. split; [done|]. split; [congruence|].
    rewrite He, map_size_delete in IH3. subst ok.
    destruct (entries e !! id) as [en|] eqn:E; simpl in *; [|lia].
    assert (size (entries e) ≠ 0%nat).
    { apply map_size_ne_0_lookup. eauto. }
    lia.
Qed.

(** Invariants closed under [remove_entry] survive the loop. *)
Lemma remove_ids_ind (P : Engine → Prop) ids r e :
  (∀ id e, P e → P (remove_entry id e).2) → P e → P (remove_ids ids r e).2.
Proof.
  intros Hstep. revert r e. induction ids as [|id ids IH]; intros r e HP; simpl; [done|].
  specialize (Hstep id e HP). destruct (remove_entry id e) as [ok e1]. by apply IH.
Qed.

Section invalidate_tag.
Context `{HashOrder}.

Lemma invalidate_tag_inv ns tag e : engine_inv e → engine_inv (invalidate_tag ns tag e).2.
Proof.
  intros [Ha Ht Hx]. unfold invalidate_tag.
  destruct (tag_index e !! tag_id ns tag) as [ids|] eqn:Eidx; [|done].
  set (e0 := set_tag_index _ e).
  assert (accounts_ok e0) as Ha0 by (destruct Ha; by split).
  split.
  - apply remove_ids_ind; [|done]. intros. by apply remove_entry_accounts.
  - intros tid. destruct (decide (tid = tag_id ns tag)) as [->|Hne].
    + pose proof (remove_ids_spec (ids_iter ids) 0 e0) as Hspec.
      assert (tag_index (remove_ids (ids_iter ids) 0 e0).2 !! tag_id ns tag = None) as Hnone.
      { cut (default ∅ (tag_index (remove_ids (ids_iter ids) 0 e0).2 !! tag_id ns tag) = ∅ ∧
             tag_index (remove_ids (ids_iter ids) 0 e0).2 !! tag_id ns tag ≠ Some ∅).
        { intros []. by apply default_empty_None. }
        apply (remove_ids_ind (λ e, default ∅ (tag_index e !! tag_id ns tag) = ∅ ∧
                                    tag_index e !! tag_id ns tag ≠ Some ∅)).
        - intros id e1 [Hd Hn]. split; [|by apply remove_entry_nonempty].
          pose proof (remove_entry_shrinks id e1 (tag_id ns tag)). set_solver.
        - subst e0. simpl. by rewrite lookup_delete_eq. }
      split; [|by rewrite Hnone]. intros j. rewrite Hnone. simpl.
      destruct (remove_ids _ _ _) as [n e']. destruct Hspec as (He & _ & _).
      split; [set_solver|]. intros (en & Hl & Htag). exfalso. simpl in Hl.
      rewrite He, lookup_without in Hl. case_decide as Hj; [done|]. apply Hj.
      rewrite ids_iter_perm. apply elem_of_elements.
      assert (ids = default ∅ (tag_index e !! tag_id ns tag)) as -> by by rewrite Eidx.
      apply (Ht (tag_id ns tag)). by exists en.
    + apply (remove_ids_ind (λ e, tags_exact_at e tid)).
      * intros. by apply remove_entry_tags.
      * destruct (Ht tid) as [H1 H2]. subst e0.
        unfold tags_exact_at. simpl. rewrite lookup_delete_ne by done. by split.
  - intros j. apply (remove_ids_ind (λ e, expiry_exact_at e j)).
    + intros. by apply remove_entry_expiry.
    + apply Hx.
Qed.

(** [invalidate_tag] removes exactly the entries that carry the tag, and
    returns how many there were. *)
Lemma invalidate_tag_entries ns tag e :
  engine_inv e →
  entries (invalidate_tag ns tag e).2 =
    filter (λ p, ¬ tagged (entries e) (tag_id ns tag) p.1) (entries e) ∧
  (invalidate_tag ns tag e).1 + N.of_nat (size (entries (invalidate_tag ns tag e).2)) =
    N.of_nat (size (entries e)).
Proof.
  intros [Ha Ht Hx]. unfold invalidate_tag. destruct (Ht (tag_id ns tag)) as [Hin _].
  destruct (tag_index e !! tag_id ns tag) as [ids|] eqn:Eidx.
  - pose proof (remove_ids_spec (ids_iter ids) 0 (set_tag_index
      (base.delete (tag_id ns tag) (tag_index e)) e)) as Hspec.
    destruct (remove_ids _ _ _) as [n e']. simpl in *. destruct Hspec as (He & _ & Hn).
    split; [|lia]. rewrite He. apply map_filter_ext. intros j en _. simpl.
    rewrite <- Hin, ids_iter_perm, elem_of_elements. done.
  - simpl in *. split; [|lia]. symmetry. apply map_filter_id. intros j en Hj. simpl.
    rewrite <- Hin. set_solver.
Qed.
End invalidate_tag.

(** ** The order of expiry keys *)

Definition expiry_lt (a b : ExpiryKey) : Prop := lexico (expiry_ord a) (expiry_ord b).
Definition expiry_le (a b : ExpiryKey) : Prop := a = b ∨ expiry_lt a b.

#[export] Instance bytes_ord_inj : Inj (=) (=) bytes_ord.
Proof. unfold bytes_ord. apply _. Qed.

Lemma expiry_ord_inj : Inj (=) (=) expiry_ord.
Proof.
  intros [t [n k]] [t' [n' k']]. unfold expiry_ord. simpl.
  intros [= -> Hn%bytes_ord_inj%as_bytes_inj Hk%bytes_ord_inj]. by subst.
Qed.

#[export] Instance expiry_lt_trans : Transitive expiry_lt.
Proof. intros a b c. unfold expiry_lt. apply transitivity. Qed.

#[export] Instance expiry_le_trans : Transitive expiry_le.
Proof.
  intros a b c [->|H1] [->|H2]; [by left | by right.. |].
  right. by transitivity b.
Qed.

Lemma expiry_lt_total a b : expiry_lt a b ∨ expiry_le b a.
Proof.
  unfold expiry_lt, expiry_le.
  destruct (trichotomyT lexico (expiry_ord a) (expiry_ord b)) as [[H|H]|H].
  - by left.
  - right. left. symmetry. by apply expiry_ord_inj.
  - right. by right.
Qed.

Lemma expiry_le_time a b : expiry_le a b → xk_expires_at_ms a ≤ xk_expires_at_ms b.
Proof. intros [->|[H|[H _]]]; simpl in *; [lia | unfold lexico, N_lexico in H; lia | lia]. Qed.

Lemma least_from_spec best l :
  least_from best l ∈ best :: l ∧ ∀ k, k ∈ best :: l → expiry_le (least_from best l) k.
Proof.
  revert best. induction l as [|x l IH]; intros best; simpl.
  - split; [set_solver|]. intros k ->%list_elem_of_singleton. by left.
  - unfold expiry_ltb. case_bool_decide as Hx; fold (expiry_lt x best) in Hx.
    + destruct (IH x) as [H1 H2]. split; [set_solver|].
      intros k [->|Hk]%elem_of_cons; [|auto].
      transitivity x; [apply H2; set_solver | by right].
    + destruct (IH best) as [H1 H2]. split; [set_solver|].
      intros k [->|[->|Hk]%elem_of_cons]%elem_of_cons; [set_solver | | set_solver].
      transitivity best; [set_solver|].
      destruct (expiry_lt_total x best); done.
Qed.

Lemma first_Some s k : first s = Some k → k ∈ s ∧ ∀ k', k' ∈ s → expiry_le k k'.
Proof.
  unfold first. destruct (elements s) as [|b l] eqn:E; [done|]. intros [= <-].
  destruct (least_from_spec b l) as [H1 H2]. rewrite <- E in *. split.
  - by apply elem_of_elements.
  - intros k' Hk'. by apply H2, elem_of_elements.
Qed.

Lemma first_None s : first s = None → s = ∅.
Proof.
  unfold first. destruct (elements s) eqn:E; [|done]. intros _.
  apply set_eq. intros k. rewrite <- elem_of_elements, E. set_solver.
Qed.

(** ** Taking due keys off the expiry index *)

(** [taken] are the keys taken off [idx] when [n0] ids have already been
    collected: due, in order, within the budget, and all the due ones if the
    budget is not used up. *)
Record took (now m : N) (idx : gset ExpiryKey) (n0 : N) (taken : list ExpiryKey) : Prop := {
  took_nodup : NoDup taken;
  took_due : ∀ k, k ∈ taken → k ∈ idx ∧ xk_expires_at_ms k ≤ now;
  took_least : ∀ k k', k ∈ taken → k' ∈ idx ∖ list_to_set taken → expiry_le k k';
  took_budget : n0 ≤ m → n0 + len taken ≤ m;
  took_all : n0 + len taken < m → ∀ k, k ∈ idx ∖ list_to_set taken → now < xk_expires_at_ms k
}.

Lemma took_nil now m idx n0 :
  (n0 < m → ∀ k, k ∈ idx → now < xk_expires_at_ms k) → took now m idx n0 [].
Proof.
  intros Hall. split; simpl; rewrite ?difference_empty_L, ?len_nil, ?N.add_0_r; try done.
  - constructor.
  - set_solver.
  - set_solver.
Qed.

Lemma took_cons now m idx n0 key taken :
  key ∈ idx → (∀ k, k ∈ idx → expiry_le key k) → xk_expires_at_ms key ≤ now → n0 < m →
  took now m (idx ∖ {[key]}) (n0 + 1) taken → took now m idx n0 (key :: taken).
Proof.
  intros Hkey Hleast Hnow Hm [H1 H2 H3 H4 H5].
  assert (idx ∖ {[key]} ∖ list_to_set taken = idx ∖ list_to_set (key :: taken)) as Heq.
  { apply set_eq. intros k. simpl. rewrite !elem_of_difference, elem_of_union. tauto. }
  rewrite Heq in *. split; rewrite ?len_cons.
  - constructor; [|done]. intros Hin%H2. set_solver.
  - intros k [->|Hk]%elem_of_cons; [done|]. apply H2 in Hk. set_solver.
  - intros k k' [->|Hk]%elem_of_cons Hk'; [|by auto].
    apply Hleast. by apply elem_of_difference in Hk' as [? _].
  - intros _. specialize (H4 ltac:(lia)). lia.
  - intros Hl. apply H5. lia.
Qed.

(** With enough fuel the loop takes the [max_entries] smallest due keys, or
    all of them. *)
Lemma take_expired_spec fuel now m idx expired0 :
  (size idx ≤ fuel)%nat →
  ∃ taken, took now m idx (len expired0) taken ∧
    take_expired fuel now m idx expired0 =
      (expired0 ++ (xk_id <$> taken), idx ∖ list_to_set taken).
Proof.
  assert (∀ (idx : gset ExpiryKey) (expired0 : list EntryId), (expired0, idx) =
    (expired0 ++ (xk_id <$> []), idx ∖ list_to_set [])) as Hnil.
  { intros. simpl. by rewrite app_nil_r, difference_empty_L. }
  revert idx expired0. induction fuel as [|fuel IH]; intros idx expired0 Hfuel; simpl.
  - assert (idx = ∅) as -> by (apply leibniz_equiv, size_empty_inv; lia).
    exists []. split; [|done]. apply took_nil. set_solver.
  - destruct (N.ltb_spec (len expired0) m) as [Hlt|Hge]; last first.
    { exists []. split; [|done]. apply took_nil. lia. }
    destruct (first idx) as [key|] eqn:Ef; last first.
    { apply first_None in Ef as ->. exists []. split; [|done]. apply took_nil. set_solver. }
    apply first_Some in Ef as [Hkey Hleast].
    destruct (N.ltb_spec now (xk_expires_at_ms key)) as [Hnow|Hnow].
    { exists []. split; [|done]. apply took_nil.
      intros _ k Hk. pose proof (expiry_le_time key k (Hleast k Hk)). lia. }
    assert (size (idx ∖ {[key]}) ≤ fuel)%nat as Hsz.
    { rewrite size_difference by set_solver. rewrite size_singleton. lia. }
    destruct (IH (idx ∖ {[key]}) (expired0 ++ [xk_id key]) Hsz) as (tk & Htk & ->).
    exists (key :: tk). split.
    + apply took_cons; try done. by rewrite len_app in Htk.
    + rewrite <- app_assoc. simpl. f_equal.
      apply set_eq. intros k. rewrite !elem_of_difference, elem_of_union. tauto.
Qed.

(** ** Reclaiming expired entries *)

Lemma size_without ids es :
  NoDup ids → (∀ id, id ∈ ids → is_Some (es !! id)) →
  N.of_nat (size (without ids es)) + len ids = N.of_nat (size es).
Proof.
  revert es. induction ids as [|id ids IH]; intros es Hnd Hin.
  - rewrite without_nil, len_nil. lia.
  - apply list.NoDup_cons in Hnd as [Hid Hnd]. rewrite <- without_delete, len_cons.
    specialize (IH (base.delete id es) Hnd). rewrite map_size_delete in IH.
    destruct (Hin id ltac:(set_solver)) as [en Hen]. rewrite Hen in IH.
    assert (size es ≠ 0%nat) by (apply map_size_ne_0_lookup; eauto).
    cut (N.of_nat (size (without ids (base.delete id es))) + len ids
         = N.of_nat (Nat.pred (size es))); [lia|].
    apply IH. intros j Hj. rewrite lookup_delete_ne by congruence. apply Hin. set_solver.
Qed.

Lemma drop_expired_ind (P : Engine → Prop) ids r e :
  (∀ id e, P e → P (remove_entry id e).2) → (∀ e, P e → P (count_expiration e)) →
  P e → P (drop_expired ids r e).2.
Proof.
  intros Hstep Hcount. revert r e.
  induction ids as [|id ids IH]; intros r e HP; simpl; [done|].
  specialize (Hstep id e HP). destruct (remove_entry id e) as [ok e1].
  destruct ok; apply IH; auto.
Qed.

Lemma drop_expired_spec ids r e :
  let '(n, e') := drop_expired ids r e in
  entries e' = without ids (entries e) ∧ limits e' = limits e ∧
  n + N.of_nat (size (entries e')) = r + N.of_nat (size (entries e)) ∧
  (expirations (stats e') + r) mod (U64_MAX + 1) = (expirations (stats e) + n) mod (U64_MAX + 1) ∧
  evictions (stats e') = evictions (stats e).
Proof.
  revert r e. induction ids as [|id ids IH]; intros r e; simpl.
  - by rewrite without_nil.
  - pose proof (remove_entry_result id e) as Hr.
    pose proof (remove_entry_entries id e) as He.
    pose proof (remove_entry_limits id e) as Hl.
    pose proof (remove_entry_stats id e) as Hs.
    destruct (remove_entry id e) as [ok e1]. simpl in *.
    assert (∀ n, size (entries e1) = n → ok = true → size (entries e) = S n) as Hsz.
    { intros n <- ->. rewrite He, map_size_delete. symmetry in Hr.
      apply bool_decide_eq_true in Hr as [en Hen]. rewrite Hen.
      assert (size (entries e) ≠ 0%nat) by (apply map_size_ne_0_lookup; eauto). lia. }
    destruct ok.
    + specialize (IH (r + 1) (count_expiration e1)).
      destruct (drop_expired ids _ _) as [n e']. simpl in IH.
      destruct IH as (IH1 & IH2 & IH3 & IH4 & IH5).
      specialize (Hsz _ eq_refl eq_refl). rewrite Hs in *.
      rewrite <- without_delete, <- He. repeat split; try congruence; [lia|].
      by apply wrap_count.
    + specialize (IH r e1). destruct (drop_expired ids _ _) as [n e'].
      destruct IH as (IH1 & IH2 & IH3 & IH4 & IH5). rewrite Hs in *.
      rewrite <- without_delete, <- He. repeat split; try congruence.
      symmetry in Hr. apply bool_decide_eq_false in Hr.
      rewrite He, delete_id in IH3 by (by apply eq_None_not_Some). lia.
Qed.

Lemma remove_entry_expiry_shrinks id e : expiry_index (remove_entry id e).2 ⊆ expiry_index e.
Proof.
  unfold remove_entry. destruct (entries e !! id) as [en|]; [|done]. simpl.
  destruct (entry_expiry_key id en); simpl; set_solver.
Qed.

(** A key of the index belongs to the entry it names. *)
Lemma expiry_key_entry e k :
  engine_inv e → k ∈ expiry_index e →
  ∃ en, entries e !! xk_id k = Some en ∧ entry_expiry_key (xk_id k) en = Some k.
Proof. intros Hinv Hk. by apply (inv_expiry e Hinv (xk_id k)). Qed.

Lemma expiry_index_inj e k k' :
  engine_inv e → k ∈ expiry_index e → k' ∈ expiry_index e → xk_id k = xk_id k' → k = k'.
Proof.
  intros Hinv Hk Hk' Hid.
  destruct (expiry_key_entry e k Hinv Hk) as (en & He & Hx).
  destruct (expiry_key_entry e k' Hinv Hk') as (en' & He' & Hx').
  rewrite Hid in *. congruence.
Qed.

Lemma taken_ids_nodup e taken :
  engine_inv e → NoDup taken → (∀ k, k ∈ taken → k ∈ expiry_index e) →
  NoDup (xk_id <$> taken).
Proof.
  intros Hinv. induction taken as [|k taken IH]; intros Hnd Hin; [constructor|].
  apply list.NoDup_cons in Hnd as [Hk Hnd]. rewrite fmap_cons. constructor.
  - intros (k' & Heq & Hk')%list_elem_of_fmap. apply Hk.
    assert (k = k') as ->; [|done].
    apply (expiry_index_inj e); auto; apply Hin; set_solver.
  - apply IH; [done|]. set_solver.
Qed.

(** The state in which the loop over the collected ids starts. *)
Lemma pop_expiry_accounts idx e : accounts_ok e → accounts_ok (set_expiry_index idx e).
Proof. intros []. by split. Qed.

Lemma drop_taken_inv e taken :
  engine_inv e → (∀ k, k ∈ taken → k ∈ expiry_index e) →
  engine_inv (drop_expired (xk_id <$> taken) 0
    (set_expiry_index (expiry_index e ∖ list_to_set taken) e)).2.
Proof.
  intros Hinv Hin. set (e0 := set_expiry_index _ e).
  pose proof (drop_expired_spec (xk_id <$> taken) 0 e0) as Hspec.
  split.
  - apply drop_expired_ind.
    + intros. by apply remove_entry_accounts.
    + intros ? []. by split.
    + apply pop_expiry_accounts, Hinv.
  - intros tid. apply (drop_expired_ind (λ e, tags_exact_at e tid)); [|done|apply Hinv].
    intros. by apply remove_entry_tags.
  - intros j. destruct (decide (j ∈ xk_id <$> taken)) as [Hj|Hj].
    + assert (∀ k, xk_id k = j →
        k ∉ expiry_index (drop_expired (xk_id <$> taken) 0 e0).2) as Hnone.
      { apply (drop_expired_ind (λ e, ∀ k, xk_id k = j → k ∉ expiry_index e)); [|done|].
        - intros i e1 He1 k Hk Hbad. apply (He1 k Hk).
          by apply (remove_entry_expiry_shrinks i).
        - intros k Hk. subst e0. simpl. apply list_elem_of_fmap in Hj as (k' & -> & Hk').
          intros [Hke Hkt]%elem_of_difference. apply Hkt, elem_of_list_to_set.
          assert (k = k') as ->; [|done]. apply (expiry_index_inj e); auto. }
      intros k Hk. split; [intros Hbad; by destruct (Hnone k Hk)|].
      intros (en & Hl & _). destruct (drop_expired _ _ _) as [n e']. simpl in Hl.
      destruct Hspec as (He & _). rewrite He, lookup_without in Hl. by rewrite decide_True in Hl.
    + apply (drop_expired_ind (λ e, expiry_exact_at e j)); [|done|].
      * intros. by apply remove_entry_expiry.
      * intros k Hk. subst e0. simpl. rewrite <- (inv_expiry e Hinv j k Hk).
        rewrite elem_of_difference, elem_of_list_to_set. split; [tauto|].
        intros Hke. split; [done|]. intros Hkt. apply Hj. subst j. by apply list_elem_of_fmap_2.
Qed.

Lemma remove_expired_spec clk m e :
  engine_inv e →
  ∃ taken, took (clk 0%nat) m (expiry_index e) 0 taken ∧
  let '(n, e') := remove_expired clk m e in
  n = len taken ∧ entries e' = without (xk_id <$> taken) (entries e) ∧
  engine_inv e' ∧ limits e' = limits e ∧
  expirations (stats e') mod (U64_MAX + 1) = (expirations (stats e) + n) mod (U64_MAX + 1) ∧
  evictions (stats e') = evictions (stats e).
Proof.
  intros Hinv. unfold remove_expired.
  destruct (take_expired_spec (size (expiry_index e)) (clk 0%nat) m (expiry_index e) [])
    as (taken & Htook & ->); [done|].
  rewrite app_nil_l. exists taken. split; [done|].
  assert (∀ k, k ∈ taken → k ∈ expiry_index e) as Hin by (intros k Hk; by apply (took_due _ _ _ _ _ Htook)).
  pose proof (drop_expired_spec (xk_id <$> taken) 0
    (set_expiry_index (expiry_index e ∖ list_to_set taken) e)) as Hspec.
  pose proof (drop_taken_inv e taken Hinv Hin) as Hinv'.
  destruct (drop_expired _ _ _) as [n e']. simpl in *.
  destruct Hspec as (He & Hl & Hn & Hs & Hv). rewrite N.add_0_r in Hs.
  split_and!; [|done..].
  assert (N.of_nat (size (without (xk_id <$> taken) (entries e))) + len (xk_id <$> taken)
          = N.of_nat (size (entries e))) as Hsz.
  { apply size_without.
    - apply (taken_ids_nodup e); [done| |done]. apply Htook.
    - intros id (k & -> & Hk)%list_elem_of_fmap.
      destruct (expiry_key_entry e k Hinv (Hin k Hk)) as (en & Hen & _). eauto. }
  rewrite He in Hn. unfold len in *. rewrite length_fmap in Hsz. lia.
Qed.

Lemma remove_expired_inv clk m e : engine_inv e → engine_inv (remove_expired clk m e).2.
Proof.
  intros Hinv. destruct (remove_expired_spec clk m e Hinv) as (taken & _ & Hs).
  destruct (remove_expired clk m e). apply Hs.
Qed.

Lemma remove_expired_limits clk m e : engine_inv e → limits (remove_expired clk m e).2 = limits e.
Proof.
  intros Hinv. destruct (remove_expired_spec clk m e Hinv) as (taken & _ & Hs).
  destruct (remove_expired clk m e). apply Hs.
Qed.

(** The budget is respected, and a due key is left only when it is used up. *)
Lemma remove_expired_budget clk m e :
  engine_inv e →
  (remove_expired clk m e).1 ≤ m ∧
  (remove_expired clk m e).1 + N.of_nat (size (entries (remove_expired clk m e).2))
    = N.of_nat (size (entries e)) ∧
  ((remove_expired clk m e).1 < m →
     ∀ k, k ∈ expiry_index (remove_expired clk m e).2 → clk 0%nat < xk_expires_at_ms k).
Proof.
  intros Hinv. destruct (remove_expired_spec clk m e Hinv) as (taken & Htook & Hs).
  destruct (remove_expired clk m e) as [n e']. destruct Hs as (-> & He & Hi & _).
  cbn [fst snd]. split_and!.
  - pose proof (took_budget _ _ _ _ _ Htook (N.le_0_l m)). lia.
  - rewrite He. rewrite <- (size_without (xk_id <$> taken) (entries e)).
    + unfold len. rewrite length_fmap. lia.
    + apply (taken_ids_nodup e); [done|apply Htook|]. intros k Hk. by apply Htook.
    + intros id (k & -> & Hk)%list_elem_of_fmap.
      destruct (expiry_key_entry e k Hinv) as (en & Hen & _); [by apply Htook | by exists en].
  - intros Hlt k Hk. apply (took_all _ _ _ _ _ Htook); [lia|].
    destruct (expiry_key_entry e' k Hi Hk) as (en & Hen & Hkey).
    rewrite He, lookup_without in Hen. case_decide as Hd; [done|].
    apply elem_of_difference. split.
    + apply (inv_expiry e Hinv (xk_id k)); [done|]. eauto.
    + rewrite elem_of_list_to_set. intros Hkt. apply Hd. by apply list_elem_of_fmap_2.
Qed.
End EngineInv.
