(* ===== verification/EnginePut.v ===== *)
(** * EnginePut: the write path of an engine

    Eviction, insertion and [put]: the invariant is preserved, memory stays
    under the limit, eviction always finds room, and the outcome of [put] is
    described on every branch. *)

From S2P Require Import Prelude Bytes Protocol Engine EngineInv.

Module EnginePut.
Import Engine EngineInv.

Section put.
Context `{HashOrder}.

(** ** Eviction *)

Lemma lru_Some e id :
  least_recently_used_entry e = Some id →
  ∃ en, entries e !! id = Some en ∧
    ∀ j en', (j, en') ∈ take LRU_SAMPLE_SIZE (entries_iter (entries e)) →
      e_last_access en ≤ e_last_access en'.
Proof.
  unfold least_recently_used_entry. intros ([i en] & Hmin & ->)%fmap_Some_1.
  apply min_by_key_Some in Hmin as [Hin Hle]. exists en. split.
  - apply elem_of_take in Hin as (k & Hk & _).
    apply list_elem_of_lookup_2 in Hk. rewrite entries_iter_perm in Hk.
    by apply elem_of_map_to_list.
  - intros j en' Hj. apply (Hle _ Hj).
Qed.

Lemma lru_None e : least_recently_used_entry e = None → entries e = ∅.
Proof.
  unfold least_recently_used_entry. intros Hn%fmap_None%min_by_key_None.
  apply map_to_list_empty_iff. pose proof (entries_iter_perm (entries e)) as Hp.
  destruct (entries_iter (entries e)); [|done]. symmetry in Hp. by apply Permutation_nil_r in Hp.
Qed.

(** One eviction step: the chosen entry is removed and counted. *)
Lemma evict_step e id :
  engine_inv e → least_recently_used_entry e = Some id →
  let '(ok, e1) := remove_entry id e in
  ok = true ∧ engine_inv (count_eviction e1) ∧ limits e1 = limits e ∧
  entries e1 = base.delete id (entries e) ∧ S (size (entries e1)) = size (entries e).
Proof.
  intros Hinv (en & Hen & _)%lru_Some.
  pose proof (remove_entry_result id e) as Hr.
  pose proof (remove_entry_entries id e) as He.
  pose proof (remove_entry_limits id e) as Hl.
  pose proof (remove_entry_inv id e Hinv) as Hi.
  destruct (remove_entry id e) as [ok e1]. simpl in *. rewrite Hen in Hr.
  split_and!; [done | by apply count_eviction_inv | done | done |].
  rewrite He, map_size_delete, Hen.
  assert (size (entries e) ≠ 0%nat) by (apply map_size_ne_0_lookup; eauto). lia.
Qed.

Lemma evict_loop_spec fuel b r e :
  engine_inv e → (size (entries e) < fuel)%nat →
  let '(n, e') := evict_loop fuel b r e in
  engine_inv e' ∧ limits e' = limits e ∧ entries e' ⊆ entries e ∧
  n + N.of_nat (size (entries e')) = r + N.of_nat (size (entries e)) ∧
  ((memory_used_bytes e' +| b) ≤ max_memory_bytes (limits e') ∨ entries e' = ∅) ∧
  ((memory_used_bytes e +| b) ≤ max_memory_bytes (limits e) → n = r ∧ e' = e).
Proof.
  revert r e. induction fuel as [|fuel IH]; intros r e Hinv Hfuel; [lia|]. simpl.
  destruct (N.ltb_spec (max_memory_bytes (limits e)) (memory_used_bytes e +| b)) as [Hlt|Hge];
    [|by split_and!; auto].
  destruct (least_recently_used_entry e) as [id|] eqn:Elru.
  - pose proof (evict_step e id Hinv Elru) as Hstep.
    destruct (remove_entry id e) as [ok e1]. destruct Hstep as (-> & Hi & Hl & He & Hsz).
    specialize (IH (r + 1) (count_eviction e1) Hi). simpl in IH.
    specialize (IH ltac:(lia)). destruct (evict_loop fuel b _ _) as [n e'].
    destruct IH as (IH1 & IH2 & IH3 & IH4 & IH5 & _). split_and!; try done.
    + by rewrite IH2.
    + transitivity (entries e1); [done|]. rewrite He. apply delete_subseteq.
    + lia.
    + intros. lia.
  - apply lru_None in Elru as Hemp. split_and!; auto; intros; lia.
Qed.

(** Every entry fits once the rest is gone: [evict_until_fits] makes room for
    any entry the limit admits. *)
Lemma evict_until_fits_room b e :
  engine_inv e → b ≤ max_memory_bytes (limits e) →
  let '(n, e') := evict_until_fits b e in
  engine_inv e' ∧ limits e' = limits e ∧ entries e' ⊆ entries e ∧
  n + N.of_nat (size (entries e')) = N.of_nat (size (entries e)) ∧
  memory_used_bytes e' + b ≤ max_memory_bytes (limits e') ∧
  (memory_used_bytes e + b ≤ max_memory_bytes (limits e) → n = 0 ∧ e' = e).
Proof.
  intros Hinv Hb. unfold evict_until_fits.
  pose proof (evict_loop_spec (S (size (entries e))) b 0 e Hinv ltac:(lia)) as Hs.
  destruct (evict_loop _ b 0 e) as [n e']. destruct Hs as (H1 & H2 & H3 & H4 & H5 & H6).
  assert (memory_used_bytes e' + b ≤ max_memory_bytes (limits e')) as Hroom.
  { destruct H5 as [H5|H5].
    - apply sat_add_le_iff in H5; [done|]. apply (acc_width e' (inv_accounts e' H1)).
    - rewrite (acc_memory e' (inv_accounts e' H1)), H5, map_sum_empty, H2. lia. }
  rewrite N.add_0_l in H4. split_and!; try assumption. intros Hfit. apply H6.
  rewrite sat_add_exact; [assumption|].
  pose proof (acc_width e (inv_accounts e Hinv)). unfold USIZE_MAX in *. lia.
Qed.

(** [make_room] removes the old entry and then only what it must. *)
Lemma make_room_spec clk id b e :
  engine_inv e → b ≤ max_memory_bytes (limits e) →
  let '(n, e') := make_room clk id b e in
  engine_inv e' ∧ limits e' = limits e ∧ entries e' ⊆ base.delete id (entries e) ∧
  memory_used_bytes e' + b ≤ max_memory_bytes (limits e') ∧
  (map_sum e_memory_bytes (base.delete id (entries e)) + b ≤ max_memory_bytes (limits e) →
     n = 0 ∧ entries e' = base.delete id (entries e)).
Proof.
  intros Hinv Hb. unfold make_room.
  pose proof (remove_entry_entries id e) as He. pose proof (remove_entry_limits id e) as Hl.
  pose proof (remove_entry_inv id e Hinv) as Hi. set (e1 := (remove_entry id e).2) in *.
  pose proof (acc_memory e1 (inv_accounts e1 Hi)) as Hm. rewrite He in Hm.
  pose proof (acc_width e1 (inv_accounts e1 Hi)) as Hw.
  set (e2 := if max_memory_bytes (limits e1) <? (memory_used_bytes e1 +| b)
             then (reclaim_expired clk e1).2 else e1).
  assert (engine_inv e2 ∧ limits e2 = limits e1 ∧ entries e2 ⊆ entries e1 ∧
    (memory_used_bytes e1 + b ≤ max_memory_bytes (limits e1) → e2 = e1)) as (Hi2 & Hl2 & Hs2 & Hf2).
  { subst e2. destruct (N.ltb_spec (max_memory_bytes (limits e1)) (memory_used_bytes e1 +| b)).
    - unfold reclaim_expired, reclaim_expired_budget.
      destruct (remove_expired_spec clk USIZE_MAX e1 Hi) as (taken & _ & Hs).
      destruct (remove_expired clk USIZE_MAX e1) as [n e2]. simpl.
      destruct Hs as (_ & -> & Hi2 & -> & _). split_and!; try done.
      + apply map_filter_subseteq.
      + intros Hfit%(sat_add_le_iff _ _ _ Hw). lia.
    - by split_and!. }
  pose proof (evict_until_fits_room b e2 Hi2) as Hev. rewrite Hl2, Hl in Hev. specialize (Hev Hb).
  destruct (evict_until_fits b e2) as [n e']. destruct Hev as (H1 & H2 & H3 & H4 & H5 & H6).
  split_and!; try done.
  - rewrite <- He. by transitivity (entries e2).
  - intros Hfit. rewrite Hl in Hf2. assert (e2 = e1) as E2 by (apply Hf2; lia).
    rewrite E2 in H6. destruct H6 as [-> ->]; [lia|]. done.
Qed.

(** ** Insertion *)

Lemma index_tag_lookup id idx tag tid :
  default ∅ (index_tag id idx tag !! tid) =
  if decide (tid = tag_id (eid_namespace id) tag)
  then {[id]} ∪ default ∅ (idx !! tid) else default ∅ (idx !! tid).
Proof.
  unfold index_tag. case_decide as Htid; [subst; by rewrite lookup_insert_eq|].
  by rewrite lookup_insert_ne.
Qed.

Lemma index_tags_lookup id tags idx tid :
  default ∅ (foldl (index_tag id) idx tags !! tid) =
  if decide (eid_namespace id = tid_namespace tid ∧ tid_tag tid ∈ tags)
  then {[id]} ∪ default ∅ (idx !! tid) else default ∅ (idx !! tid).
Proof.
  revert idx. induction tags as [|tag tags IH]; intros idx; simpl.
  - rewrite decide_False by set_solver. done.
  - rewrite IH, index_tag_lookup. destruct tid as [ns t].
    repeat case_decide; unfold tag_id in *; simplify_eq/=; set_solver.
Qed.

Lemma index_tags_nonempty id tags idx tid :
  idx !! tid ≠ Some ∅ → foldl (index_tag id) idx tags !! tid ≠ Some ∅.
Proof.
  revert idx. induction tags as [|tag tags IH]; intros idx Hne; simpl; [done|].
  apply IH. unfold index_tag.
  destruct (decide (tid = tag_id (eid_namespace id) tag)) as [->|].
  - rewrite lookup_insert_eq. intros [= Hbad]. set_solver.
  - by rewrite lookup_insert_ne.
Qed.

(** The entry that a [put] at [now_ms] stores. *)
Definition put_expires_at (now_ms : N) (c : PutCommand) : option N :=
  (λ ttl, now_ms +| milliseconds ttl) <$> pc_ttl c.

Definition put_stale_until (now_ms : N) (c : PutCommand) : option N :=
  x ← put_expires_at now_ms c; (λ ttl, x +| milliseconds ttl) <$> pc_stale_ttl c.

Definition put_entry (now_ms : N) (c : PutCommand) (access : N) : Entry :=
  {| e_value := pc_value c; e_expires_at_ms := put_expires_at now_ms c;
     e_stale_until_ms := put_stale_until now_ms c; e_tags := pc_tags c; e_cost := pc_cost c;
     e_memory_bytes := estimate_entry_memory (EntryId_new (pc_namespace c) (pc_key c))
       (pc_value c) (pc_tags c);
     e_last_access := access |}.

Definition command_id (c : PutCommand) : EntryId := EntryId_new (pc_namespace c) (pc_key c).

Section insert_entry.
Context (now : N) (c : PutCommand) (e : Engine).
Let id := command_id c.
Let en := put_entry now c (next_access e).
Let e' := insert_entry now id c (e_memory_bytes en) e.

Lemma insert_entry_fields :
  entries e' = <[id := en]> (entries e) ∧
  tag_index e' = foldl (index_tag id) (tag_index e) (pc_tags c) ∧
  expiry_index e' = match entry_expiry_key id en with
                    | Some k => {[k]} ∪ expiry_index e | None => expiry_index e end ∧
  leases e' = leases e ∧ limits e' = limits e ∧
  memory_used_bytes e' = (memory_used_bytes e +| e_memory_bytes en) ∧
  cost_score_total e' = (cost_score_total e +| default 0 (pc_cost c)) ∧
  next_access e' = (next_access e +| 1) ∧ stats e' = stats e.
Proof.
  subst e' en. unfold insert_entry, entry_expiry_key, put_entry, put_stale_until, put_expires_at.
  simpl. destruct (pc_ttl c), (pc_stale_ttl c); simpl; by split_and!.
Qed.

Hypothesis Hinv : engine_inv e.
Hypothesis Habsent : entries e !! id = None.
Hypothesis Hroom : memory_used_bytes e + e_memory_bytes en ≤ max_memory_bytes (limits e).
Hypothesis Hvalue : len (pc_value c) ≤ max_value_bytes (limits e).

Lemma put_entry_ok : entry_ok (limits e) id en.
Proof.
  split; [done | done |]. simpl. unfold put_stale_until. intros s Hs.
  destruct (put_expires_at now c) as [x|] eqn:Ex; [|done]. simpl in Hs.
  apply fmap_Some in Hs as (t & _ & ->). exists x. split; [done|]. apply sat_add_ge_l.
  unfold put_expires_at in Ex. apply fmap_Some in Ex as (? & _ & ->). apply sat_add_le_max.
Qed.

Lemma insert_entry_accounts : accounts_ok e'.
Proof.
  destruct insert_entry_fields as (He & _ & _ & Hle & Hli & Hm & _ & Hn & _).
  destruct (inv_accounts e Hinv) as [H1 H2 H3 H4 H5 H6 H7].
  assert (memory_used_bytes e' = memory_used_bytes e + e_memory_bytes en) as Hm'.
  { rewrite Hm. apply sat_add_exact. unfold USIZE_MAX in *. lia. }
  split; rewrite ?He, ?Hli, ?Hn, ?Hle; try done.
  - apply map_Forall_insert_2; [apply put_entry_ok | done].
  - rewrite map_sum_insert by done. lia.
  - lia.
  - apply sat_add_le_max.
  - apply map_Forall_insert_2; [|].
    + simpl. by apply sat_add_ge_l.
    + eapply map_Forall_impl; [exact H6|]. intros j x Hx. simpl in *.
      pose proof (sat_add_ge_l (next_access e) 1 H5). lia.
  - eapply map_Forall_impl; [exact H7|]. intros j l (n & Hn1 & Hn2). exists n.
    split; [done|]. unfold sat_add. destruct Hn2; lia.
Qed.

Lemma insert_entry_tags tid : tags_exact_at e' tid.
Proof.
  destruct insert_entry_fields as (He & Ht & _). destruct (inv_tags e Hinv tid) as [Hin Hne].
  split; rewrite Ht; [|by apply index_tags_nonempty].
  intros j. rewrite index_tags_lookup, He. unfold tagged in *.
  destruct (decide (j = id)) as [->|Hj].
  - rewrite lookup_insert_eq. pose proof (Hin id) as Hid. rewrite Habsent in Hid.
    case_decide as Hd.
    + split; [|set_solver]. intros _. exists en. naive_solver.
    + rewrite Hid. naive_solver.
  - rewrite lookup_insert_ne by done. case_decide; set_solver.
Qed.

Lemma insert_entry_expiry j : expiry_exact_at e' j.
Proof.
  destruct insert_entry_fields as (He & _ & Hx & _). intros k Hk.
  pose proof (inv_expiry e Hinv j k Hk) as Hold. rewrite He, Hx.
  destruct (decide (j = id)) as [->|Hj].
  - rewrite lookup_insert_eq. rewrite Habsent in Hold.
    assert (k ∉ expiry_index e) by naive_solver.
    destruct (entry_expiry_key id en) as [k'|] eqn:Ek; [|naive_solver].
    rewrite elem_of_union, elem_of_singleton. split.
    + intros [->|?]; [|done]. by exists en.
    + intros (en' & [= <-] & Hk'). left. congruence.
  - rewrite lookup_insert_ne by done. rewrite <- Hold.
    destruct (entry_expiry_key id en) as [k'|] eqn:Ek; [|done].
    assert (xk_id k' = id).
    { unfold entry_expiry_key in Ek. by apply fmap_Some in Ek as (? & _ & ->). }
    set_solver.
Qed.

Lemma insert_entry_inv : engine_inv e'.
Proof. split; auto using insert_entry_accounts, insert_entry_tags, insert_entry_expiry. Qed.
End insert_entry.

(** ** [put] on every branch *)

(** What a [put] of [c] leaves: the stored entry on top of a part [es] of the
    other entries, all of them when memory suffices. *)
Definition put_stored (clk : Clock) (c : PutCommand) (e e' : Engine) (o : PutOutcome) : Prop :=
  ∃ acc es, es ⊆ base.delete (command_id c) (entries e) ∧
    entries e' = <[command_id c := put_entry (clk 0%nat) c acc]> es ∧
    (map_sum e_memory_bytes (base.delete (command_id c) (entries e)) +
       e_memory_bytes (put_entry (clk 0%nat) c acc) ≤ max_memory_bytes (limits e) →
     po_evicted o = 0 ∧ es = base.delete (command_id c) (entries e)).

Lemma put_spec clk c e :
  engine_inv e →
  let '(r, e') := put clk c e in
  let b := estimate_entry_memory (command_id c) (pc_value c) (pc_tags c) in
  engine_inv e' ∧ limits e' = limits e ∧
  match r with
  | Ok o => len (pc_value c) ≤ max_value_bytes (limits e) ∧ b ≤ max_memory_bytes (limits e) ∧
      put_stored clk c e e' o
  | Err (ValueTooLarge v m) =>
      v = len (pc_value c) ∧ m = max_value_bytes (limits e) ∧ m < v ∧ e' = e
  | Err (ValueTooLargeForMemory b' m) =>
      b' = b ∧ m = max_memory_bytes (limits e) ∧ m < b' ∧
      len (pc_value c) ≤ max_value_bytes (limits e) ∧ e' = e
  | Err (InsufficientMemory _ _ _) => False
  end.
Proof.
  intros Hinv. unfold put. fold (command_id c).
  destruct (N.ltb_spec (max_value_bytes (limits e)) (len (pc_value c))) as [Hv|Hv];
    [by split_and!|].
  set (b := estimate_entry_memory _ _ _).
  destruct (N.ltb_spec (max_memory_bytes (limits e)) b) as [Hb|Hb]; [by split_and!|].
  pose proof (make_room_spec (clock_after 1 clk) (command_id c) b e Hinv Hb) as Hroom.
  destruct (make_room _ _ b e) as [n e1]. destruct Hroom as (Hi & Hl & Hsub & Hfit & Hall).
  pose proof (acc_width e1 (inv_accounts e1 Hi)) as Hw.
  destruct (N.ltb_spec (max_memory_bytes (limits e1)) (memory_used_bytes e1 +| b)) as [Hbad|_].
  { exfalso. apply (sat_add_le_iff _ _ _ Hw) in Hfit. lia. }
  assert (entries e1 !! command_id c = None) as Habs.
  { destruct (entries e1 !! command_id c) as [x|] eqn:Ex; [|done].
    pose proof (lookup_weaken _ _ _ _ Ex Hsub) as Hx. by rewrite lookup_delete_eq in Hx. }
  destruct (insert_entry_fields (clk 0%nat) c e1) as (He & _ & _ & _ & Hli & _).
  split_and!.
  - apply (insert_entry_inv (clk 0%nat) c e1); try done. by rewrite Hl.
  - rewrite <- Hl. exact Hli.
  - done.
  - done.
  - exists (next_access e1), (entries e1). split_and!; [done | exact He | exact Hall].
Qed.

Lemma put_inv clk c e : engine_inv e → engine_inv (put clk c e).2.
Proof. intros Hinv. pose proof (put_spec clk c e Hinv). destruct (put clk c e). naive_solver. Qed.

Lemma put_limits clk c e : engine_inv e → limits (put clk c e).2 = limits e.
Proof. intros Hinv. pose proof (put_spec clk c e Hinv). destruct (put clk c e). naive_solver. Qed.
End put.
End EnginePut.
