(* ===== verification/EngineOps.v ===== *)
(** * EngineOps: reads, deletion and leases of an engine

    The remaining public operations of [Engine]: invariant preservation and
    their behaviour, then the engine as a state machine whose reachable states
    all satisfy the invariant. *)

From S2P Require Import Prelude Bytes Protocol Engine EngineInv EnginePut.

Module EngineOps.
Import Engine EngineInv EnginePut.

(** ** Touching an entry for the LRU order *)

Definition touch (id : EntryId) (en : Entry) (e : Engine) : Engine :=
  set_entries (<[id := entry_set_last_access (next_access e) en]> (entries e))
    (set_next_access (next_access e +| 1) e).

Lemma lookup_touched id en (es : gmap EntryId Entry) a j x :
  es !! id = Some en → <[id := entry_set_last_access a en]> es !! j = Some x →
  ∃ y, es !! j = Some y ∧ (x = y ∨ x = entry_set_last_access a y).
Proof.
  intros Hid. destruct (decide (j = id)) as [->|Hj].
  - rewrite lookup_insert_eq. intros [= <-]. eauto.
  - rewrite lookup_insert_ne by done. eauto.
Qed.

Lemma touch_tagged id en (es : gmap EntryId Entry) a tid j :
  es !! id = Some en →
  tagged (<[id := entry_set_last_access a en]> es) tid j ↔ tagged es tid j.
Proof.
  intros Hid. unfold tagged. destruct (decide (j = id)) as [->|Hj].
  - rewrite lookup_insert_eq, Hid. naive_solver.
  - by rewrite lookup_insert_ne.
Qed.

Lemma touch_inv id en e : engine_inv e → entries e !! id = Some en → engine_inv (touch id en e).
Proof.
  intros [[H1 H2 H3 H4 H5 H6 H7] Ht Hx] Hid. split.
  - pose proof (sat_add_ge_l (next_access e) 1 H5) as Hge. split; simpl; try done.
    + apply map_Forall_insert_2; [|done]. destruct (H1 id en Hid). by split.
    + rewrite (map_sum_update _ id en); [done | done | done].
    + apply sat_add_le_max.
    + apply map_Forall_insert_2; [simpl; lia|].
      eapply map_Forall_impl; [exact H6|]. intros j x Hj. simpl in *. lia.
    + eapply map_Forall_impl; [exact H7|]. intros j l (n & Hn1 & Hn2). exists n.
      split; [done|]. unfold sat_add in *. lia.
  - intros tid. destruct (Ht tid) as [Hin Hne]. split; [|done]. intros j. simpl.
    rewrite touch_tagged by done. apply Hin.
  - intros j k Hk. simpl. rewrite (Hx j k Hk). destruct (decide (j = id)) as [->|Hj].
    + rewrite lookup_insert_eq, Hid. naive_solver.
    + by rewrite lookup_insert_ne.
Qed.

Lemma record_access_touch id e :
  record_access id e = match entries e !! id with None => e | Some en => touch id en e end.
Proof.
  unfold record_access, touch. destruct (entries e !! id) as [en|] eqn:E; [|done]. simpl.
  f_equal. apply map_eq. intros j. destruct (decide (j = id)) as [->|Hj].
  - rewrite lookup_alter_eq, lookup_insert_eq, E. done.
  - by rewrite lookup_alter_ne, lookup_insert_ne.
Qed.

Lemma record_access_inv id e : engine_inv e → engine_inv (record_access id e).
Proof.
  intros Hinv. rewrite record_access_touch. destruct (entries e !! id) eqn:E; [|done].
  by apply touch_inv.
Qed.

Lemma record_access_lookup id e :
  e_value <$> entries (record_access id e) !! id = e_value <$> entries e !! id.
Proof.
  rewrite record_access_touch. destruct (entries e !! id) eqn:E; simpl; [|by rewrite E].
  by rewrite lookup_insert_eq.
Qed.

Lemma record_access_leases id e : leases (record_access id e) = leases e.
Proof. rewrite record_access_touch. by destruct (entries e !! id). Qed.

(** ** [get] *)

(** What a reader sees of [id] at [now_ms]. *)
Definition visible (now_ms : N) (id : EntryId) (e : Engine) : GetOutcome :=
  match entries e !! id with
  | None => GMiss
  | Some en =>
    match entry_state_at en now_ms with
    | Fresh => GHit (e_value en)
    | Stale => GStale (e_value en)
    | Missing | Expired => GMiss
    end
  end.

Lemma get_ref_inner_spec clk ns key u e :
  let id := EntryId_new ns key in
  let '(o, e') := get_ref_inner clk ns key u e in
  o = visible (clk 0%nat) id e ∧
  match entries e !! id with
  | None => e' = e
  | Some en => match entry_state_at en (clk 0%nat) with
               | Expired => e' = (remove_entry id e).2
               | Missing => e' = e
               | Fresh | Stale => e' = if u then touch id en e else e
               end
  end.
Proof.
  unfold get_ref_inner, visible. simpl. destruct (entries e !! EntryId_new ns key) as [en|]; [|done].
  destruct (entry_state_at en (clk 0%nat)); done.
Qed.

Lemma get_ref_inner_inv clk ns key u e :
  engine_inv e → engine_inv (get_ref_inner clk ns key u e).2.
Proof.
  intros Hinv. pose proof (get_ref_inner_spec clk ns key u e) as Hs. simpl in Hs.
  destruct (get_ref_inner clk ns key u e) as [o e']. destruct Hs as [_ Hs]. simpl.
  destruct (entries e !! EntryId_new ns key) as [en|] eqn:E; [|by subst].
  destruct (entry_state_at en (clk 0%nat)), u; subst e';
    auto using touch_inv, remove_entry_inv.
Qed.

Lemma batch_get_inv clk ns keys e : engine_inv e → engine_inv (batch_get clk ns keys e).2.
Proof.
  revert clk e. induction keys as [|key keys IH]; intros clk e Hinv; simpl; [done|].
  pose proof (get_ref_inner_inv clk ns key true e Hinv) as Hg. unfold get, get_ref.
  destruct (get_ref_inner clk ns key true e) as [o e1].
  specialize (IH (clock_after 1 clk) e1 Hg).
  by destruct (batch_get (clock_after 1 clk) ns keys e1).
Qed.

Lemma delete_inv ns key e : engine_inv e → engine_inv (delete ns key e).2.
Proof. intros. by apply remove_entry_inv, delete_lease_inv. Qed.

(** ** Leases *)

Lemma create_lease_inv now id ttl e : engine_inv e → engine_inv (create_lease now id ttl e).2.
Proof.
  intros [[H1 H2 H3 H4 H5 H6 H7] Ht Hx]. split; [|done..]. simpl.
  pose proof (sat_add_ge_l (next_access e) 1 H5) as Hge. split; simpl; try done.
  - apply sat_add_le_max.
  - eapply map_Forall_impl; [exact H6|]. intros j x Hj. simpl in *. lia.
  - apply map_Forall_insert_2.
    + exists (next_access e). split; [done|]. unfold sat_add. lia.
    + eapply map_Forall_impl; [exact H7|]. intros j l (n & Hn1 & Hn2). exists n.
      split; [done|]. unfold sat_add in *. lia.
Qed.

Lemma start_lease_for_missing_inv clk id ttl e :
  engine_inv e → engine_inv (start_lease_for_missing clk id ttl e).2.
Proof.
  intros Hinv. unfold start_lease_for_missing. destruct (active_lease _ id e); [done|].
  pose proof (create_lease_inv (clk 1%nat) id ttl e Hinv). by destruct (create_lease _ id ttl e).
Qed.

Lemma start_lease_inv clk ns key ttl e :
  engine_inv e → engine_inv (start_lease clk ns key ttl e).2.
Proof.
  intros Hinv. unfold start_lease. set (id := EntryId_new ns key).
  pose proof (record_access_inv id e Hinv) as Hr.
  pose proof (create_lease_inv (clk 3%nat) id ttl _ Hr) as Hc.
  destruct (entry_state (clk 1%nat) id e).
  - by apply start_lease_for_missing_inv.
  - destruct (entries (record_access id e) !! id); [done|]. by destruct (create_lease _ _ _ _).
  - destruct (bool_decide _); [done|]. by destruct (create_lease _ _ _ _).
  - destruct (bool_decide _); [done|]. by apply start_lease_for_missing_inv, remove_entry_inv.
Qed.

Section ops.
Context `{HashOrder}.

Lemma complete_lease_inv clk c e : engine_inv e → engine_inv (complete_lease clk c e).2.
Proof.
  intros Hinv. unfold complete_lease. set (id := EntryId_new _ _).
  destruct (active_lease _ id e) as [l|]; [|by apply delete_lease_inv].
  case_bool_decide; [|done].
  pose proof (put_inv (clock_after 1 clk)
    {| pc_namespace := cl_namespace c; pc_key := cl_key c; pc_value := cl_value c;
       pc_ttl := cl_ttl c; pc_stale_ttl := cl_stale_ttl c; pc_tags := cl_tags c;
       pc_cost := cl_cost c |} _ (delete_lease_inv id e Hinv)) as Hp.
  by destruct (put _ _ _).
Qed.

(** ** The engine as a state machine *)

Inductive Op :=
| OpPut (c : PutCommand)
| OpGet (ns : string) (key : bytes) (update_access : bool)
| OpBatchGet (ns : string) (keys : list bytes)
| OpDelete (ns : string) (key : bytes)
| OpInvalidateTag (ns tag : string)
| OpStartLease (ns : string) (key : bytes) (lease_ttl_ms : N)
| OpCompleteLease (c : CompleteLeaseCommand)
| OpReclaim (max_entries : N).

(** The state after one call. *)
Definition run_op (clk : Clock) (op : Op) (e : Engine) : Engine :=
  match op with
  | OpPut c => (put clk c e).2
  | OpGet ns key u => (get_ref_inner clk ns key u e).2
  | OpBatchGet ns keys => (batch_get clk ns keys e).2
  | OpDelete ns key => (delete ns key e).2
  | OpInvalidateTag ns tag => (invalidate_tag ns tag e).2
  | OpStartLease ns key ttl => (start_lease clk ns key ttl e).2
  | OpCompleteLease c => (complete_lease clk c e).2
  | OpReclaim n => (reclaim_expired_budget clk n e).2
  end.

Inductive step : Engine → Engine → Prop :=
| step_op clk op e : step e (run_op clk op e).

#[local] Hint Resolve put_inv get_ref_inner_inv batch_get_inv delete_inv invalidate_tag_inv
  start_lease_inv complete_lease_inv remove_expired_inv : cbx.

Lemma run_op_inv clk op e : engine_inv e → engine_inv (run_op clk op e).
Proof.
  destruct op; simpl; auto with cbx.
Qed.

Lemma reachable_inv lim e :
  max_memory_bytes lim < USIZE_MAX → rtc step (with_clock_and_limits lim) e → engine_inv e.
Proof.
  intros Hlim Hr. apply (rtc_ind_r engine_inv _ (new_inv lim Hlim)) in Hr; [done|].
  intros e1 e2 _ Hstep IH. destruct Hstep. by apply run_op_inv.
Qed.
End ops.

(** The state after a sequence of calls. *)
Definition run_trace `{HashOrder} (tr : list (Clock * Op)) (e : Engine) : Engine :=
  foldl (λ e p, run_op p.1 p.2 e) e tr.

(** ** Induction over the loops of an operation

    A predicate closed under the primitive state changes is preserved by the
    operations built from them. *)

Section induction.
Context `{HashOrder} (P : Engine → Prop).
Hypothesis P_remove : ∀ id e, P e → P (remove_entry id e).2.
Hypothesis P_expired : ∀ e, P e → P (count_expiration e).
Hypothesis P_evicted : ∀ e, P e → P (count_eviction e).
Hypothesis P_expiry : ∀ x e, P e → P (set_expiry_index x e).

Lemma evict_loop_ind fuel b r e : P e → P (evict_loop fuel b r e).2.
Proof.
  revert r e. induction fuel as [|fuel IH]; intros r e HP; simpl; [done|].
  destruct (_ <? _); [|done]. destruct (least_recently_used_entry e) as [id|]; [|done].
  pose proof (P_remove id e HP) as Hr. destruct (remove_entry id e) as [[] e1]; [|done].
  apply IH. by apply P_evicted.
Qed.

Lemma remove_expired_ind clk m e : P e → P (remove_expired clk m e).2.
Proof.
  intros HP. unfold remove_expired. destruct (take_expired _ _ _ _ _) as [ids idx].
  apply drop_expired_ind; auto.
Qed.

Lemma make_room_ind clk id b e : P e → P (make_room clk id b e).2.
Proof.
  intros HP. unfold make_room. apply evict_loop_ind.
  destruct (_ <? _); [apply remove_expired_ind|]; by apply P_remove.
Qed.

End induction.

(** The key being written has no entry when [put] inserts it. *)
Lemma make_room_absent `{HashOrder} clk id b e : entries (make_room clk id b e).2 !! id = None.
Proof.
  assert (∀ j e, entries e !! id = None → entries (remove_entry j e).2 !! id = None) as Hrem.
  { intros j e1 H1. rewrite remove_entry_entries. apply lookup_delete_None. by right. }
  assert (entries (remove_entry id e).2 !! id = None) as H0
    by (rewrite remove_entry_entries; apply lookup_delete_eq).
  unfold make_room. apply (evict_loop_ind (λ e, entries e !! id = None)); [done..|].
  destruct (_ <? _); [|done].
  by apply (remove_expired_ind (λ e, entries e !! id = None)).
Qed.

Section operation_induction.
Context `{HashOrder} (P : Engine → Prop).
Hypothesis P_remove : ∀ id e, P e → P (remove_entry id e).2.
Hypothesis P_expired : ∀ e, P e → P (count_expiration e).
Hypothesis P_evicted : ∀ e, P e → P (count_eviction e).
Hypothesis P_expiry : ∀ x e, P e → P (set_expiry_index x e).

Lemma put_ind clk c e :
  (∀ now b e, entries e !! command_id c = None → P e →
     P (insert_entry now (command_id c) c b e)) → P e → P (put clk c e).2.
Proof.
  intros Hins HP. unfold put. destruct (_ <? _); [done|]. destruct (_ <? _); [done|].
  fold (command_id c). set (b := estimate_entry_memory _ _ _).
  assert (P (make_room (clock_after 1 clk) (command_id c) b e).2) as Hr
    by by apply make_room_ind.
  pose proof (make_room_absent (clock_after 1 clk) (command_id c) b e) as Ha.
  destruct (make_room _ _ _ e) as [n e1]. destruct (_ <? _); [done|]. by apply Hins.
Qed.

Lemma invalidate_tag_ind ns tag e :
  (∀ x e, P e → P (set_tag_index x e)) → P e → P (invalidate_tag ns tag e).2.
Proof.
  intros Htag HP. unfold invalidate_tag. destruct (_ !! _); [|done].
  apply remove_ids_ind; auto.
Qed.

(** [get] either touches the entry, removes it, or does nothing. *)
Lemma get_ref_inner_ind clk ns key u e :
  (∀ en e, entries e !! EntryId_new ns key = Some en → P e → P (touch (EntryId_new ns key) en e)) →
  P e → P (get_ref_inner clk ns key u e).2.
Proof.
  intros Htouch HP. pose proof (get_ref_inner_spec clk ns key u e) as Hs. simpl in Hs.
  destruct (get_ref_inner clk ns key u e) as [o e']. destruct Hs as [_ Hs]. simpl.
  destruct (entries e !! EntryId_new ns key) as [en|] eqn:E; [|by subst].
  destruct (entry_state_at en (clk 0%nat)); subst e'; auto; destruct u; auto.
Qed.

Lemma batch_get_ind clk ns keys e :
  (∀ id en e, entries e !! id = Some en → P e → P (touch id en e)) →
  P e → P (batch_get clk ns keys e).2.
Proof.
  intros Htouch. revert clk e. induction keys as [|key keys IH]; intros clk e HP; simpl; [done|].
  assert (P (get_ref_inner clk ns key true e).2) as Hg by (apply get_ref_inner_ind; auto).
  unfold get, get_ref. destruct (get_ref_inner clk ns key true e) as [o e1].
  specialize (IH (clock_after 1 clk) e1 Hg). by destruct (batch_get _ ns keys e1).
Qed.
End operation_induction.

End EngineOps.
