(* ===== verification/EngineSpec.v ===== *)
(** * EngineSpec: what one engine promises

    The properties of [Engine] that a caller relies on: accounting, the
    life of a value from [put] to expiry, transparency of reads and cleanup,
    tag invalidation, eviction, and lease exclusion.  The two places where
    the code departs from its own documentation are stated as theorems too. *)

From S2P Require Import Prelude Bytes Protocol Engine EngineInv EnginePut EngineOps.

Module EngineSpec.
Import Engine EngineInv EnginePut EngineOps.

(** ** Visibility *)

Lemma visible_eq now id e e' :
  entries e !! id = entries e' !! id → visible now id e = visible now id e'.
Proof. unfold visible. by intros ->. Qed.

Lemma entry_state_at_touched a en now :
  entry_state_at (entry_set_last_access a en) now = entry_state_at en now.
Proof. done. Qed.

Lemma visible_touch now id en j e :
  entries e !! id = Some en → visible now j (touch id en e) = visible now j e.
Proof.
  intros Hid. unfold visible, touch. simpl. destruct (decide (j = id)) as [->|Hj].
  - rewrite lookup_insert_eq, Hid. by rewrite entry_state_at_touched.
  - by rewrite lookup_insert_ne.
Qed.

Lemma visible_remove_other now id j e :
  j ≠ id → visible now j (remove_entry id e).2 = visible now j e.
Proof. intros Hj. apply visible_eq. by rewrite remove_entry_entries, lookup_delete_ne. Qed.

Lemma visible_removed now id e : visible now id (remove_entry id e).2 = GMiss.
Proof. unfold visible. by rewrite remove_entry_entries, lookup_delete_eq. Qed.

(** Once expired, always expired. *)
Lemma expired_mono en now now' :
  (∀ s x, e_stale_until_ms en = Some s → e_expires_at_ms en = Some x → x ≤ s) →
  now ≤ now' → entry_state_at en now = Expired → entry_state_at en now' = Expired.
Proof.
  intros Hok Hle. unfold entry_state_at.
  destruct (e_expires_at_ms en) as [x|], (e_stale_until_ms en) as [s|]; try done.
  - specialize (Hok s x eq_refl eq_refl).
    destruct (N.leb_spec now x), (N.leb_spec now s), (N.leb_spec now' x), (N.leb_spec now' s);
      try done; lia.
  - destruct (N.leb_spec now x), (N.leb_spec now' x); try done; lia.
Qed.

(** An entry whose removal time has passed is expired. *)
Lemma removable_expired lim id en k now :
  entry_ok lim id en → entry_expiry_key id en = Some k →
  xk_expires_at_ms k < now → entry_state_at en now = Expired.
Proof.
  intros Hok Hk Hnow. unfold entry_expiry_key, removable_at_ms, entry_state_at in *.
  pose proof (eok_stale _ _ _ Hok) as Hs.
  destruct (e_stale_until_ms en) as [s|]; simpl in Hk.
  - destruct (Hs s eq_refl) as (x & -> & Hx). injection Hk as <-. simpl in Hnow.
    destruct (N.leb_spec now x), (N.leb_spec now s); try done; lia.
  - destruct (e_expires_at_ms en) as [x|]; [|done]. injection Hk as <-. simpl in Hnow.
    destruct (N.leb_spec now x); [lia|done].
Qed.

Lemma visible_expired now id e en :
  entries e !! id = Some en → entry_state_at en now = Expired → visible now id e = GMiss.
Proof. intros He Hs. unfold visible. by rewrite He, Hs. Qed.

Lemma inv_entry_ok e id en : engine_inv e → entries e !! id = Some en → entry_ok (limits e) id en.
Proof. intros Hinv. apply (acc_entries e (inv_accounts e Hinv)). Qed.

(** ** A concrete engine for the witnesses

    Two entries: ["a"] tagged ["t"] with a deadline and a stale window, ["b"]
    without deadline. *)

Definition demo_limits : EngineLimits := {| max_memory_bytes := 240; max_value_bytes := 16 |}.

Definition demo_a : PutCommand :=
  {| pc_namespace := "default"; pc_key := as_bytes "a"; pc_value := as_bytes "11";
     pc_ttl := Some {| milliseconds := 10 |}; pc_stale_ttl := Some {| milliseconds := 20 |};
     pc_tags := ["t"%string]; pc_cost := Some 5 |}.

Definition demo_b : PutCommand := put_command "default" "b" "22".

Definition demo_engine : Engine :=
  run_op (manual_clock 1001) (OpPut demo_b)
    (run_op (manual_clock 1000) (OpPut demo_a) (with_clock_and_limits demo_limits)).

Lemma demo_reachable : rtc step (with_clock_and_limits demo_limits) demo_engine.
Proof.
  eapply rtc_l; [exact (step_op (manual_clock 1000) (OpPut demo_a) _)|].
  eapply rtc_l; [exact (step_op (manual_clock 1001) (OpPut demo_b) _)|]. apply rtc_refl.
Defined.

Lemma demo_inv : engine_inv demo_engine.
Proof. apply (reachable_inv demo_limits); [done|]. apply demo_reachable. Defined.

(** ** Accounting *)

(** C7: every state an engine can reach from its creation with a memory limit
    below [usize::MAX], by any sequence of operations, under any clock readings and any hash iteration order,
    satisfies the representation invariant: the tag index and the expiry index
    list exactly the stored entries, the memory counter is the sum of the
    estimates of the stored entries, and it is within the configured limit. *)
Theorem engine_reachable_inv `{HashOrder} lim e :
  max_memory_bytes lim < USIZE_MAX → rtc step (with_clock_and_limits lim) e → engine_inv e.
Proof. apply reachable_inv. Qed.

Lemma engine_reachable_inv_witness : engine_inv demo_engine.
Proof. apply (engine_reachable_inv demo_limits); [done | apply demo_reachable]. Defined.

(** Memory is bounded: in every reachable state the bytes charged are the
    sum over the entries, at most [max_memory_bytes], each entry is charged
    at least its overhead of 96 bytes, so the number of entries is bounded by
    the limit and the [usize] loop counters cannot overflow. *)
Theorem engine_memory_bounded `{HashOrder} lim e :
  max_memory_bytes lim < USIZE_MAX → rtc step (with_clock_and_limits lim) e →
  memory_used_bytes e = map_sum e_memory_bytes (entries e) ∧
  memory_used_bytes e ≤ max_memory_bytes (limits e) ∧
  ENTRY_OVERHEAD_BYTES * len_entries e ≤ memory_used_bytes e.
Proof.
  intros Hlim Hr. pose proof (reachable_inv lim e Hlim Hr) as [[H1 H2 H3 _ _ _ _] _ _].
  split_and!; [done | done |]. rewrite H2. apply map_sum_size_le. intros id en Hid.
  rewrite (eok_memory _ _ _ (H1 id en Hid)).
  unfold estimate_entry_memory, ENTRY_OVERHEAD_BYTES, sat_add, U64_MAX. lia.
Qed.

Lemma engine_memory_bounded_witness :
  memory_used_bytes demo_engine = 213 ∧ memory_used_bytes demo_engine ≤ 240 ∧
  ENTRY_OVERHEAD_BYTES * len_entries demo_engine ≤ memory_used_bytes demo_engine.
Proof.
  destruct (engine_memory_bounded demo_limits demo_engine) as (H1 & H2 & H3);
    [done | apply demo_reachable |].
  split_and!; [rewrite H1; vm_compute; reflexivity | exact H2 | exact H3].
Defined.

(** ** Writing and reading back *)

(** C14: [put] on every branch.  A value over [max_value_bytes] or an entry
    over [max_memory_bytes] is refused and changes nothing; otherwise the
    write succeeds: [InsufficientMemory] is never returned, the entry is
    stored with the deadlines computed from the first clock reading, no other
    entry is changed, and none is lost when the memory suffices. *)
Theorem engine_put_outcome `{HashOrder} clk c e :
  engine_inv e →
  let '(r, e') := put clk c e in
  let b := estimate_entry_memory (command_id c) (pc_value c) (pc_tags c) in
  engine_inv e' ∧ limits e' = limits e ∧
  match r with
  | Ok o => len (pc_value c) ≤ max_value_bytes (limits e) ∧ b ≤ max_memory_bytes (limits e) ∧
      put_stored clk c e e' o
  | Err (ValueTooLarge v m) =>
      v = len (pc_value c) ∧ m = max_value_bytes (limits e) ∧ m < v ∧ e' = e
  | Err (ValueTooLargeForMemory b' m) =>
      b' = b ∧ m = max_memory_bytes (limits e) ∧ m < b' ∧
      len (pc_value c) ≤ max_value_bytes (limits e) ∧ e' = e
  | Err (InsufficientMemory _ _ _) => False
  end.
Proof. apply put_spec. Qed.

Lemma engine_put_outcome_witness :
  engine_inv (put (manual_clock 1002) (put_command "default" "c" "333") demo_engine).2 ∧
  is_ok (put (manual_clock 1002) (put_command "default" "c" "333") demo_engine).1 = true.
Proof.
  pose proof (engine_put_outcome (manual_clock 1002) (put_command "default" "c" "333")
    demo_engine demo_inv) as Hw.
  split; [|vm_compute; reflexivity].
  destruct (put (manual_clock 1002) _ demo_engine) as [r e']. exact (proj1 Hw).
Defined.

(** The life of a value: fresh up to and including its TTL, then stale up to
    and including its stale TTL, then gone. *)
Definition lifetime (put_at : N) (c : PutCommand) (now : N) : GetOutcome :=
  match pc_ttl c with
  | None => GHit (pc_value c)
  | Some ttl =>
    if now <=? put_at +| milliseconds ttl then GHit (pc_value c)
    else match pc_stale_ttl c with
    | Some stale_ttl =>
      if now <=? (put_at +| milliseconds ttl) +| milliseconds stale_ttl
      then GStale (pc_value c) else GMiss
    | None => GMiss
    end
  end.

Lemma put_entry_lifetime now c acc t :
  match entry_state_at (put_entry t c acc) now with
  | Fresh => GHit (pc_value c)
  | Stale => GStale (pc_value c)
  | Missing | Expired => GMiss
  end = lifetime t c now.
Proof.
  unfold entry_state_at, lifetime, put_entry, put_stale_until, put_expires_at. simpl.
  destruct (pc_ttl c) as [ttl|], (pc_stale_ttl c) as [st|]; simpl; try done;
    repeat case_match; done.
Qed.

(** C15: a read after a successful write follows the life of the value: a
    [get] of the key, at any later clock reading, returns the written bytes as
    a hit while the TTL lasts, as stale while the stale TTL lasts, and a miss
    afterwards. *)
Theorem engine_put_get `{HashOrder} clk c e o e' clk' :
  engine_inv e → put clk c e = (Ok o, e') →
  (get clk' (pc_namespace c) (pc_key c) e').1 = lifetime (clk 0%nat) c (clk' 0%nat).
Proof.
  intros Hinv Hput. pose proof (put_spec clk c e Hinv) as Hs. rewrite Hput in Hs.
  destruct Hs as (_ & _ & _ & _ & acc & es & _ & He & _).
  pose proof (get_ref_inner_spec clk' (pc_namespace c) (pc_key c) true e') as Hg.
  simpl in Hg. unfold get, get_ref. destruct (get_ref_inner _ _ _ _ e') as [out e2].
  destruct Hg as [-> _]. unfold visible. fold (command_id c).
  rewrite He, lookup_insert_eq. simpl. apply put_entry_lifetime.
Qed.

Lemma engine_put_get_witness :
  (get (manual_clock 1011) "default" (as_bytes "a")
    (put (manual_clock 1000) demo_a (with_clock_and_limits demo_limits)).2).1
  = GStale (as_bytes "11").
Proof.
  etrans.
  - apply (engine_put_get (manual_clock 1000) demo_a (with_clock_and_limits demo_limits)
      {| po_evicted := 0 |} _ (manual_clock 1011)).
    + by apply new_inv.
    + apply pair_fst_eq. vm_compute. reflexivity.
  - vm_compute. reflexivity.
Defined.

(** C16: reads are transparent: whatever a read does (the LRU touch, the lazy
    removal of an expired entry), no reader at the same or a later time sees a
    difference on any key, and the read itself returns what was visible. *)
Theorem engine_get_transparent clk ns key u e j now :
  engine_inv e → clk 0%nat ≤ now →
  (get_ref_inner clk ns key u e).1 = visible (clk 0%nat) (EntryId_new ns key) e ∧
  visible now j (get_ref_inner clk ns key u e).2 = visible now j e.
Proof.
  intros Hinv Hnow. pose proof (get_ref_inner_spec clk ns key u e) as Hs. simpl in Hs.
  destruct (get_ref_inner clk ns key u e) as [o e']. destruct Hs as [-> Hs]. split; [done|].
  simpl. destruct (entries e !! EntryId_new ns key) as [en|] eqn:E; [|by subst].
  destruct (entry_state_at en (clk 0%nat)) eqn:Est; subst e'; try done.
  - destruct u; [by apply visible_touch | done].
  - destruct u; [by apply visible_touch | done].
  - destruct (decide (j = EntryId_new ns key)) as [->|Hj]; [|by apply visible_remove_other].
    rewrite visible_removed. symmetry. apply (visible_expired _ _ _ en E).
    apply (expired_mono en (clk 0%nat)); [|done..].
    intros s x Hs Hx. destruct (eok_stale _ _ _ (inv_entry_ok e _ en Hinv E) s Hs) as (x' & ? & ?).
    congruence.
Qed.

Lemma engine_get_transparent_witness :
  visible 1040 (EntryId_new "default" (as_bytes "b"))
    (get_ref_inner (manual_clock 1035) "default" (as_bytes "a") true demo_engine).2
  = GHit (as_bytes "22").
Proof.
  destruct (engine_get_transparent (manual_clock 1035) "default" (as_bytes "a") true demo_engine
    (EntryId_new "default" (as_bytes "b")) 1040) as [_ ->]; [apply demo_inv | done |].
  vm_compute. reflexivity.
Defined.

(** [delete] removes the key for every later reader, reports whether an
    entry was stored, drops the lease of the key, and leaves every other key
    as it was. *)
Theorem engine_delete ns key e :
  let id := EntryId_new ns key in
  let '(removed, e') := delete ns key e in
  removed = bool_decide (is_Some (entries e !! id)) ∧
  leases e' !! id = None ∧
  (∀ now, visible now id e' = GMiss) ∧
  (∀ now j, j ≠ id → visible now j e' = visible now j e) ∧
  (delete ns key e').1 = false.
Proof.
  simpl. unfold delete. set (id := EntryId_new ns key). set (e0 := set_leases _ e).
  pose proof (remove_entry_result id e0) as Hr. pose proof (remove_entry_leases id e0) as Hl.
  pose proof (λ now, visible_removed now id e0) as Hv.
  pose proof (λ now j, visible_remove_other now id j e0) as Ho.
  pose proof (remove_entry_entries id e0) as He.
  destruct (remove_entry id e0) as [removed e']. simpl in *. split_and!; auto.
  - rewrite Hl. subst e0. simpl. destruct (entries e !! id); apply lookup_delete_eq.
  - rewrite remove_entry_result. simpl. by rewrite He, lookup_delete_eq.
Qed.

(** [invalidate_tag] removes exactly the entries of the namespace that
    carry the tag, wherever they came from, keeps every other entry
    unchanged, and returns the number of removed entries. *)
Theorem engine_invalidate_tag_exact `{HashOrder} ns tag e :
  engine_inv e →
  let '(n, e') := invalidate_tag ns tag e in
  entries e' = filter (λ p, ¬ tagged (entries e) (tag_id ns tag) p.1) (entries e) ∧
  n + N.of_nat (size (entries e')) = N.of_nat (size (entries e)) ∧
  (∀ id, ¬ tagged (entries e') (tag_id ns tag) id).
Proof.
  intros Hinv. pose proof (invalidate_tag_entries ns tag e Hinv) as [He Hn].
  destruct (invalidate_tag ns tag e) as [n e']. simpl in *. split_and!; [done | done |].
  intros id (en & Hl & Htag). rewrite He in Hl.
  apply map_lookup_filter_Some in Hl as [Hl Hnt]. apply Hnt. by exists en.
Qed.

Lemma engine_invalidate_tag_exact_witness :
  (invalidate_tag "default" "t" demo_engine).1 +
    N.of_nat (size (entries (invalidate_tag "default" "t" demo_engine).2)) = 2 ∧
  (invalidate_tag "default" "t" demo_engine).1 = 1.
Proof.
  pose proof (engine_invalidate_tag_exact "default" "t" demo_engine demo_inv) as Hw.
  split; [|vm_compute; reflexivity].
  destruct (invalidate_tag "default" "t" demo_engine) as [n e'].
  destruct Hw as (_ & Hn & _). cbn [fst snd]. rewrite Hn. vm_compute. reflexivity.
Defined.

(** ** Reclaiming expired entries *)

Lemma len_entries_lt_max e : engine_inv e → len_entries e < USIZE_MAX.
Proof.
  intros Hinv. destruct (inv_accounts e Hinv) as [H1 H2 H3 H4 _ _ _].
  assert (96 * len_entries e ≤ map_sum e_memory_bytes (entries e)); [|lia].
  apply map_sum_size_le. intros id en Hid. rewrite (eok_memory _ _ _ (H1 id en Hid)).
  unfold estimate_entry_memory, ENTRY_OVERHEAD_BYTES, sat_add, U64_MAX. lia.
Qed.

Lemma took_len_le e now m taken :
  engine_inv e → took now m (expiry_index e) 0 taken → len taken ≤ len_entries e.
Proof.
  intros Hinv Htook.
  assert (∀ k, k ∈ taken → k ∈ expiry_index e) as Hin
    by (intros k Hk; by apply (took_due _ _ _ _ _ Htook)).
  pose proof (size_without (xk_id <$> taken) (entries e)
    (taken_ids_nodup e taken Hinv (took_nodup _ _ _ _ _ Htook) Hin)) as Hsz.
  unfold len_entries, len in *. rewrite length_fmap in Hsz.
  cut (N.of_nat (size (without (xk_id <$> taken) (entries e))) + N.of_nat (length taken) =
    N.of_nat (size (entries e))); [lia|].
  apply Hsz. intros id (k & -> & Hk)%list_elem_of_fmap.
  destruct (expiry_key_entry e k Hinv (Hin k Hk)) as (en & Hen & _). eauto.
Qed.

(** C35: budgeted cleanup.  [reclaim_expired_budget n] removes at most [n]
    entries, all of them due at its clock reading, in order of their removal
    time; it returns the number removed, adds it to the expiration counter,
    and leaves a due entry behind only when the budget is used up. *)
Theorem engine_reclaim_budget clk m e :
  engine_inv e →
  let '(n, e') := reclaim_expired_budget clk m e in
  ∃ taken, took (clk 0%nat) m (expiry_index e) 0 taken ∧ n = len taken ∧ n ≤ m ∧
    entries e' = without (xk_id <$> taken) (entries e) ∧
    (n < m → ∀ k, k ∈ expiry_index e' → clk 0%nat < xk_expires_at_ms k) ∧
    expirations (stats e') mod (U64_MAX + 1) = (expirations (stats e) + n) mod (U64_MAX + 1).
Proof.
  intros Hinv. unfold reclaim_expired_budget.
  destruct (remove_expired_spec clk m e Hinv) as (taken & Htook & Hs).
  destruct (remove_expired_budget clk m e Hinv) as (Hle & _ & Hleft).
  destruct (remove_expired clk m e) as [n e']. destruct Hs as (Hn & He & _ & _ & Hst & _).
  by exists taken.
Qed.

Lemma engine_reclaim_budget_witness :
  ∃ taken, took 1031 1 (expiry_index demo_engine) 0 taken ∧ 1 = len taken.
Proof.
  pose proof (engine_reclaim_budget (manual_clock 1031) 1 demo_engine demo_inv) as Hw.
  assert ((reclaim_expired_budget (manual_clock 1031) 1 demo_engine).1 = 1) as Hn
    by (vm_compute; reflexivity).
  destruct (reclaim_expired_budget (manual_clock 1031) 1 demo_engine) as [n e']. simpl in Hn.
  subst n. destruct Hw as (taken & H1 & H2 & _). by exists taken.
Defined.

(** Cleanup is transparent to later readers: after a cleanup whose clock
    reading was [t], every reader at a time after [t] sees on every key what
    it would have seen without the cleanup. *)
Theorem engine_reclaim_transparent clk m e j now :
  engine_inv e → clk 0%nat < now →
  visible now j (reclaim_expired_budget clk m e).2 = visible now j e.
Proof.
  intros Hinv Hnow. unfold reclaim_expired_budget.
  destruct (remove_expired_spec clk m e Hinv) as (taken & Htook & Hs).
  destruct (remove_expired clk m e) as [n e']. destruct Hs as (_ & He & _). simpl.
  destruct (decide (j ∈ xk_id <$> taken)) as [Hj|Hj].
  - apply list_elem_of_fmap in Hj as (k & -> & Hk).
    destruct (took_due _ _ _ _ _ Htook k Hk) as [Hin Hdue].
    destruct (expiry_key_entry e k Hinv Hin) as (en & Hen & Hkey).
    rewrite (visible_expired now (xk_id k) e en Hen).
    + unfold visible. rewrite He, lookup_without, decide_True; [done|].
      by apply list_elem_of_fmap_2.
    + apply (removable_expired (limits e) (xk_id k) en k); [by apply inv_entry_ok | done | lia].
  - apply visible_eq. by rewrite He, lookup_without, decide_False.
Qed.

Lemma engine_reclaim_transparent_witness :
  visible 1011 (EntryId_new "default" (as_bytes "a"))
    (reclaim_expired_budget (manual_clock 1010) 8 demo_engine).2 = GStale (as_bytes "11").
Proof.
  rewrite (engine_reclaim_transparent (manual_clock 1010) 8 demo_engine
    (EntryId_new "default" (as_bytes "a")) 1011); [|apply demo_inv | done].
  vm_compute. reflexivity.
Defined.

(** An unbudgeted cleanup leaves no due entry. *)
Lemma reclaim_removes_due clk e id en k :
  engine_inv e → entries e !! id = Some en → entry_expiry_key id en = Some k →
  xk_expires_at_ms k ≤ clk 0%nat → entries (reclaim_expired clk e).2 !! id = None.
Proof.
  intros Hinv Hen Hkey Hdue. unfold reclaim_expired, reclaim_expired_budget.
  destruct (remove_expired_spec clk USIZE_MAX e Hinv) as (taken & Htook & Hs).
  destruct (remove_expired clk USIZE_MAX e) as [n e']. destruct Hs as (_ & He & _). simpl.
  assert (xk_id k = id) as Hid.
  { unfold entry_expiry_key in Hkey. by apply fmap_Some in Hkey as (? & _ & ->). }
  rewrite He, lookup_without. destruct (decide (k ∈ taken)) as [Hin|Hin].
  - rewrite decide_True; [done|]. rewrite <- Hid. by apply list_elem_of_fmap_2.
  - exfalso. assert (clk 0%nat < xk_expires_at_ms k); [|lia].
    apply (took_all _ _ _ _ _ Htook).
    + pose proof (took_len_le e _ _ taken Hinv Htook). pose proof (len_entries_lt_max e Hinv). lia.
    + apply elem_of_difference. rewrite elem_of_list_to_set. split; [|done].
      apply (inv_expiry e Hinv id k Hid). eauto.
Qed.

(** The bound of [engine_reclaim_transparent] is tight: at the exact millisecond at which an entry
    becomes removable it is still readable (a hit, or stale when it has a
    stale window), yet a cleanup with the same clock reading removes it. *)
Theorem engine_reclaim_early e id en now :
  engine_inv e → entries e !! id = Some en →
  removable_at_ms (e_expires_at_ms en) (e_stale_until_ms en) = Some now →
  visible now id e ≠ GMiss ∧
  visible now id (reclaim_expired (manual_clock now) e).2 = GMiss.
Proof.
  intros Hinv Hen Hrem. split.
  - unfold visible, entry_state_at. rewrite Hen. unfold removable_at_ms in Hrem.
    destruct (e_stale_until_ms en) as [s|] eqn:Es.
    + destruct (eok_stale _ _ _ (inv_entry_ok e id en Hinv Hen) s Es) as (x & -> & _).
      injection Hrem as ->. destruct (now <=? x); [done|]. by rewrite N.leb_refl.
    + rewrite Hrem. by rewrite N.leb_refl.
  - unfold visible. erewrite reclaim_removes_due; try done.
    + unfold entry_expiry_key. by rewrite Hrem.
    + done.
Qed.

Lemma engine_reclaim_early_witness :
  visible 1030 (EntryId_new "default" (as_bytes "a")) demo_engine ≠ GMiss ∧
  visible 1030 (EntryId_new "default" (as_bytes "a"))
    (reclaim_expired (manual_clock 1030) demo_engine).2 = GMiss.
Proof.
  apply (engine_reclaim_early demo_engine (EntryId_new "default" (as_bytes "a"))
    (put_entry 1000 demo_a 0) 1030); [apply demo_inv | vm_compute; reflexivity..].
Defined.

(** ** Eviction *)

(** C34: eviction terminates with room.  For any entry the limit admits,
    [evict_until_fits] removes entries, and only entries, until the incoming
    bytes fit, counts them exactly, and evicts nothing when they fitted at
    once. *)
Theorem engine_evict_makes_room `{HashOrder} b e :
  engine_inv e → b ≤ max_memory_bytes (limits e) →
  let '(n, e') := evict_until_fits b e in
  engine_inv e' ∧ entries e' ⊆ entries e ∧
  n + N.of_nat (size (entries e')) = N.of_nat (size (entries e)) ∧
  memory_used_bytes e' + b ≤ max_memory_bytes (limits e) ∧
  (memory_used_bytes e + b ≤ max_memory_bytes (limits e) → n = 0 ∧ e' = e).
Proof.
  intros Hinv Hb. pose proof (evict_until_fits_room b e Hinv Hb) as Hs.
  destruct (evict_until_fits b e) as [n e']. destruct Hs as (H1 & H2 & H3 & H4 & H5 & H6).
  rewrite H2 in H5. by split_and!.
Qed.

Lemma engine_evict_makes_room_witness :
  (evict_until_fits 100 demo_engine).1 = 1 ∧
  memory_used_bytes (evict_until_fits 100 demo_engine).2 + 100 ≤ 240.
Proof.
  pose proof (engine_evict_makes_room 100 demo_engine demo_inv ltac:(vm_compute; discriminate)) as Hw.
  split; [vm_compute; reflexivity|].
  destruct (evict_until_fits 100 demo_engine) as [n e']. cbn [snd].
  destruct Hw as (_ & _ & _ & Hw & _). exact Hw.
Defined.

(** The victim.  Eviction has a victim unless the engine is empty; it is
    an entry whose access counter is minimal among the sampled ones, hence the
    least recently used of all when the engine holds at most 16 entries. *)
Theorem engine_lru_victim `{HashOrder} e :
  match least_recently_used_entry e with
  | None => entries e = ∅
  | Some id => ∃ en, entries e !! id = Some en ∧
      (∀ j en', (j, en') ∈ take LRU_SAMPLE_SIZE (entries_iter (entries e)) →
         e_last_access en ≤ e_last_access en') ∧
      ((size (entries e) ≤ LRU_SAMPLE_SIZE)%nat →
         ∀ j en', entries e !! j = Some en' → e_last_access en ≤ e_last_access en')
  end.
Proof.
  destruct (least_recently_used_entry e) as [id|] eqn:E; [|by apply lru_None].
  apply lru_Some in E as (en & Hen & Hmin). exists en. split_and!; [done | done |].
  intros Hsz j en' Hj. apply (Hmin j en').
  assert (length (entries_iter (entries e)) ≤ LRU_SAMPLE_SIZE)%nat as Hlen.
  { rewrite entries_iter_perm. by rewrite length_map_to_list. }
  rewrite take_ge by done. rewrite entries_iter_perm. by apply elem_of_map_to_list.
Qed.

(** ** Cost accounting *)

Definition entry_cost (en : Entry) : N := default 0 (e_cost en).

Definition cost_exact (bound : N) (e : Engine) : Prop :=
  cost_score_total e = map_sum entry_cost (entries e) ∧ cost_score_total e ≤ bound.

(** The cost a call adds. *)
Definition op_cost (op : Op) : N :=
  match op with
  | OpPut c => default 0 (pc_cost c)
  | OpCompleteLease c => default 0 (cl_cost c)
  | _ => 0
  end.

Definition trace_cost (tr : list (Clock * Op)) : N := foldr (λ p acc, op_cost p.2 + acc) 0 tr.

Section cost.
Context `{HashOrder}.

Lemma cost_remove B id e : cost_exact B e → cost_exact B (remove_entry id e).2.
Proof.
  intros [Hc Hb]. unfold cost_exact. rewrite remove_entry_cost, remove_entry_entries.
  destruct (entries e !! id) as [en|] eqn:E; simpl.
  - rewrite (map_sum_delete entry_cost id en (entries e)) in Hc by done.
    unfold entry_cost in *. lia.
  - rewrite delete_id by done. lia.
Qed.

Lemma cost_touch B id en e :
  entries e !! id = Some en → cost_exact B e → cost_exact B (touch id en e).
Proof. intros Hid [Hc Hb]. split; [|done]. simpl. by rewrite (map_sum_update _ id en). Qed.

Lemma cost_record B id e : cost_exact B e → cost_exact B (record_access id e).
Proof.
  intros Hc. rewrite record_access_touch. destruct (entries e !! id) eqn:E; [|done].
  by apply cost_touch.
Qed.

Lemma cost_start_missing B clk id ttl e :
  cost_exact B e → cost_exact B (start_lease_for_missing clk id ttl e).2.
Proof. intros Hc. unfold start_lease_for_missing. by destruct (active_lease _ _ _). Qed.

Lemma cost_start B clk ns key ttl e :
  cost_exact B e → cost_exact B (start_lease clk ns key ttl e).2.
Proof.
  intros Hc. pose proof (cost_record B (EntryId_new ns key) e Hc) as Hr. unfold start_lease.
  destruct (entry_state _ _ _).
  - by apply cost_start_missing.
  - by destruct (entries (record_access (EntryId_new ns key) e) !! _).
  - by destruct (bool_decide _).
  - destruct (bool_decide _); [done|]. by apply cost_start_missing, cost_remove.
Qed.

Lemma cost_weaken B B' e : B ≤ B' → cost_exact B e → cost_exact B' e.
Proof. intros HB [H1 H2]. split; [done|lia]. Qed.

Lemma cost_put B clk c e :
  B + default 0 (pc_cost c) ≤ U64_MAX → cost_exact B e →
  cost_exact (B + default 0 (pc_cost c)) (put clk c e).2.
Proof.
  intros HB Hc. set (B' := B + default 0 (pc_cost c)).
  cut (cost_exact B (put clk c e).2 ∨ cost_exact B' (put clk c e).2).
  { intros [H1|H1]; [|done]. apply (cost_weaken B); [lia|done]. }
  unfold put. destruct (_ <? _); [by left|]. destruct (_ <? _); [by left|].
  fold (command_id c). set (b := estimate_entry_memory _ _ _).
  assert (cost_exact B (make_room (clock_after 1 clk) (command_id c) b e).2) as Hr.
  { apply make_room_ind; [|done..]. apply cost_remove. }
  pose proof (make_room_absent (clock_after 1 clk) (command_id c) b e) as Ha.
  destruct (make_room _ _ _ e) as [n e1]. destruct (_ <? _); [by left|]. right.
  destruct (insert_entry_fields (clk 0%nat) c e1) as (He & _ & _ & _ & _ & _ & Hct & _).
  change (e_memory_bytes (put_entry (clk 0%nat) c (next_access e1))) with b in He, Hct.
  cbn [snd] in *. destruct Hr as [Hr1 Hr2]. unfold cost_exact.
  rewrite Hct, He, map_sum_insert by done.
  change (entry_cost (put_entry (clk 0%nat) c (next_access e1))) with (default 0 (pc_cost c)).
  rewrite sat_add_exact by lia. subst B'. lia.
Qed.

Lemma cost_run_op B clk op e :
  B + op_cost op ≤ U64_MAX → cost_exact B e → cost_exact (B + op_cost op) (run_op clk op e).
Proof.
  intros HB Hc. destruct op; simpl in *; rewrite ?N.add_0_r.
  - by apply cost_put.
  - apply get_ref_inner_ind; auto using cost_remove, cost_touch.
  - apply batch_get_ind; auto using cost_remove, cost_touch.
  - by apply cost_remove.
  - apply invalidate_tag_ind; auto using cost_remove.
  - by apply cost_start.
  - unfold complete_lease. destruct (active_lease _ _ _); [|by apply (cost_weaken B); [lia|]].
    case_bool_decide; [|by apply (cost_weaken B); [lia|]].
    pose proof (cost_put B (clock_after 1 clk) {| pc_namespace := cl_namespace c;
      pc_key := cl_key c; pc_value := cl_value c; pc_ttl := cl_ttl c;
      pc_stale_ttl := cl_stale_ttl c; pc_tags := cl_tags c; pc_cost := cl_cost c |}
      (set_leases (base.delete (EntryId_new (cl_namespace c) (cl_key c)) (leases e)) e) HB Hc) as Hp.
    by destruct (put _ _ _).
  - apply remove_expired_ind; auto using cost_remove.
Qed.
End cost.

(** The cost score is the sum of the costs of the stored entries after any
    sequence of operations whose written costs do not overflow a [u64] in
    total. *)
Theorem engine_cost_exact `{HashOrder} lim tr :
  trace_cost tr ≤ U64_MAX →
  let e := run_trace tr (with_clock_and_limits lim) in
  cost_score_total e = map_sum entry_cost (entries e).
Proof.
  intros Htr. simpl.
  assert (∀ B e, cost_exact B e → B + trace_cost tr ≤ U64_MAX →
    cost_exact (B + trace_cost tr) (run_trace tr e)) as Hgen.
  { clear Htr. induction tr as [|[clk op] tr IH]; intros B e He HB; simpl in *.
    - by rewrite N.add_0_r.
    - rewrite N.add_assoc in *. apply IH; [|done]. apply cost_run_op; [lia|done]. }
  apply (Hgen 0); [|lia]. by split.
Qed.

Lemma engine_cost_exact_witness :
  let e := run_trace [(manual_clock 1000, OpPut demo_a); (manual_clock 1001, OpPut demo_b);
                      (manual_clock 1002, OpGet "default" (as_bytes "a") true)]
             (with_clock_and_limits demo_limits) in
  cost_score_total e = map_sum entry_cost (entries e) ∧ cost_score_total e = 5.
Proof.
  split; [|vm_compute; reflexivity].
  apply (engine_cost_exact demo_limits). vm_compute. discriminate.
Defined.

(** Beyond that the score drifts: it saturates at [u64::MAX] when entries
    are added but is decremented by the full cost when they are removed, so
    after two writes of maximal cost and one deletion it reads 0 while an
    entry of maximal cost is still stored. *)
Theorem engine_cost_drifts :
  let costly key := {| pc_namespace := "default"; pc_key := as_bytes key; pc_value := as_bytes "v";
    pc_ttl := None; pc_stale_ttl := None; pc_tags := []; pc_cost := Some U64_MAX |} in
  let e := run_trace [(manual_clock 0, OpPut (costly "a"%string));
                      (manual_clock 0, OpPut (costly "b"%string));
                      (manual_clock 0, OpDelete "default" (as_bytes "a"))]
             (with_clock_and_limits EngineLimits_default) in
  cost_score_total e = 0 ∧ map_sum entry_cost (entries e) = U64_MAX.
Proof. vm_compute. split; reflexivity. Qed.
End EngineSpec.
