(* ===== verification/EngineLease.v ===== *)
(** * EngineLease: stampede protection

    A lease on a key excludes further grants while it is active, tokens are
    never reused, completion consumes the lease and is refused to anybody
    else, and a lease on a missing key survives every operation on other keys.
    One gap is proved too: cleanup of an expired entry takes the key's active
    lease with it. *)

From S2P Require Import Prelude Bytes Protocol Engine EngineInv EnginePut EngineOps EngineSpec.

Module EngineLease.
Import Engine EngineInv EnginePut EngineOps EngineSpec.

(** ** Active leases *)

Lemma active_lease_Some now id e l :
  active_lease now id e = Some l ↔ leases e !! id = Some l ∧ now ≤ l_expires_at_ms l.
Proof.
  unfold active_lease. destruct (leases e !! id) as [l'|]; [|naive_solver].
  destruct (N.leb_spec now (l_expires_at_ms l')); naive_solver lia.
Qed.

Lemma active_lease_mono now now' id e :
  now ≤ now' → active_lease now id e = None → active_lease now' id e = None.
Proof.
  unfold active_lease. destruct (leases e !! id) as [l|]; [|done].
  destruct (N.leb_spec now (l_expires_at_ms l)), (N.leb_spec now' (l_expires_at_ms l)); try done.
  lia.
Qed.

(** [start_lease] never grants while the key's lease is active. *)
Lemma start_lease_active clk ns key ttl e l :
  leases e !! EntryId_new ns key = Some l → (∀ i, clk i ≤ l_expires_at_ms l) →
  let '(o, e') := start_lease clk ns key ttl e in
  (∀ tok sv, o ≠ LeaseGranted tok sv) ∧ leases e' !! EntryId_new ns key = Some l ∧
  (entries e !! EntryId_new ns key = None → o = LeaseDenied ∧ e' = e).
Proof.
  intros Hl Hclk. unfold start_lease. set (id := EntryId_new ns key) in *.
  assert (∀ i, active_lease (clk i) id e = Some l) as Hact
    by (intros i; by apply active_lease_Some).
  rewrite Hact, bool_decide_true by eauto.
  pose proof (record_access_leases id e) as Hrl.
  pose proof (record_access_lookup id e) as Hrv.
  destruct (entry_state (clk 1%nat) id e) eqn:Est.
  - unfold start_lease_for_missing, clock_after. rewrite Hact. naive_solver.
  - unfold entry_state in Est. destruct (entries e !! id) as [en|] eqn:E; [|done].
    destruct (entries (record_access id e) !! id) as [en'|]; [|done].
    rewrite Hrl. naive_solver.
  - unfold entry_state in Est. destruct (entries e !! id) as [en|] eqn:E; [|done].
    rewrite Hrl. naive_solver.
  - unfold entry_state in Est. destruct (entries e !! id) as [en|] eqn:E; [|done].
    naive_solver.
Qed.

(** Mutual exclusion.  While a lease on a key has not expired at any clock
    reading of the call, [start_lease] on that key does not grant a second
    one (it answers with a hit, the stale bytes or a denial), and the lease
    stays in place. *)
Theorem lease_exclusion clk ns key ttl e l :
  leases e !! EntryId_new ns key = Some l → (∀ i, clk i ≤ l_expires_at_ms l) →
  let '(o, e') := start_lease clk ns key ttl e in
  (∀ tok sv, o ≠ LeaseGranted tok sv) ∧ leases e' !! EntryId_new ns key = Some l.
Proof.
  intros Hl Hclk. pose proof (start_lease_active clk ns key ttl e l Hl Hclk) as Hs.
  destruct (start_lease clk ns key ttl e). naive_solver.
Qed.

Definition demo_leased : Engine :=
  (start_lease (manual_clock 1002) "default" (as_bytes "m") 100 demo_engine).2.

Lemma lease_exclusion_witness :
  leases (start_lease (manual_clock 1102) "default" (as_bytes "m") 100 demo_leased).2
    !! EntryId_new "default" (as_bytes "m")
  = Some {| l_token := "lease-2"; l_expires_at_ms := 1102 |}.
Proof.
  pose proof (lease_exclusion (manual_clock 1102) "default" (as_bytes "m") 100 demo_leased
    {| l_token := "lease-2"; l_expires_at_ms := 1102 |}) as Hw.
  specialize (Hw ltac:(vm_compute; reflexivity)). specialize (Hw ltac:(intros i; simpl; done)).
  destruct (start_lease _ _ _ _ demo_leased) as [o e']. apply Hw.
Defined.

(** ** Tokens *)

#[export] Instance lease_token_inj : Inj (=) (=) lease_token.
Proof. intros n m. unfold lease_token. intros H. simplify_eq. done. Qed.

(** The access counter never decreases. *)
Lemma next_access_touch id en e : next_access e ≤ U64_MAX →
  next_access e ≤ next_access (touch id en e) ∧ next_access (touch id en e) ≤ U64_MAX.
Proof. intros. simpl. split; [by apply sat_add_ge_l | apply sat_add_le_max]. Qed.

Lemma next_access_record id e : next_access e ≤ U64_MAX →
  next_access e ≤ next_access (record_access id e) ∧ next_access (record_access id e) ≤ U64_MAX.
Proof.
  intros. rewrite record_access_touch. destruct (entries e !! id); [|done].
  by apply next_access_touch.
Qed.

(** What a grant is: a new token, registered with its deadline, for a key
    without active lease. *)
Definition granted (clk : Clock) (id : EntryId) (ttl : N) (e e' : Engine) (tok : string) : Prop :=
  ∃ n, tok = lease_token n ∧ next_access e ≤ n ∧ n ≤ U64_MAX ∧ next_access e' = (n +| 1) ∧
    leases e' !! id = Some {| l_token := tok; l_expires_at_ms := clk 3%nat +| ttl |}.

Lemma create_lease_granted clk id ttl e0 e tok e' :
  next_access e0 ≤ next_access e ∧ next_access e ≤ U64_MAX →
  create_lease (clk 3%nat) id ttl e = (tok, e') → granted clk id ttl e0 e' tok.
Proof.
  intros [H1 H2] [= <- <-]. exists (next_access e). simpl. split_and!; try done.
  apply lookup_insert_eq.
Qed.

(** The grant at the end of [start_lease], from a state [e1] derived from [e]. *)
Lemma grant_for_missing clk id ttl e e1 tok sv e' :
  next_access e ≤ U64_MAX → clk 0%nat ≤ clk 2%nat → next_access e1 = next_access e →
  active_lease (clk 0%nat) id e = None ∨ leases e1 !! id = leases e !! id →
  start_lease_for_missing (clock_after 2 clk) id ttl e1 = (LeaseGranted tok sv, e') →
  granted clk id ttl e e' tok ∧ active_lease (clk 2%nat) id e = None ∧ sv = None.
Proof.
  intros Hn Hclk Hna Hac. unfold start_lease_for_missing, clock_after. simpl Nat.add.
  destruct (active_lease (clk 2%nat) id e1) eqn:Ea; [done|].
  destruct (create_lease (clk 3%nat) id ttl e1) as [t e2] eqn:Ec. intros Heq. simplify_eq.
  split_and!; [|destruct Hac as [Hac|Hac]|done].
  - apply (create_lease_granted clk id ttl e e1); [by rewrite Hna | done].
  - by apply (active_lease_mono (clk 0%nat)).
  - unfold active_lease in *. by rewrite Hac in Ea.
Qed.

Lemma start_lease_granted clk ns key ttl e tok sv e' :
  next_access e ≤ U64_MAX → clk 0%nat ≤ clk 2%nat →
  start_lease clk ns key ttl e = (LeaseGranted tok sv, e') →
  granted clk (EntryId_new ns key) ttl e e' tok ∧
  active_lease (clk 2%nat) (EntryId_new ns key) e = None ∧
  sv = match entries e !! EntryId_new ns key with
       | Some en => if decide (entry_state_at en (clk 1%nat) = Stale) then Some (e_value en) else None
       | None => None
       end.
Proof.
  intros Hn Hclk. unfold start_lease. set (id := EntryId_new ns key).
  pose proof (next_access_record id e Hn) as Hrn.
  pose proof (record_access_lookup id e) as Hrv.
  unfold entry_state. destruct (entries e !! id) as [en|] eqn:E; last first.
  { intros Hs. apply (grant_for_missing clk id ttl e e); auto. }
  destruct (entry_state_at en (clk 1%nat)) eqn:Est.
  - intros Hs. apply (grant_for_missing clk id ttl e e); auto.
  - destruct (entries (record_access id e) !! id); [done|]. by simpl in Hrv.
  - case_bool_decide as Hact; [done|]. apply eq_None_not_Some in Hact.
    destruct (create_lease (clk 3%nat) id ttl (record_access id e)) as [t e2] eqn:Ec.
    intros Heq. simplify_eq.
    split_and!; [by eapply create_lease_granted | by apply (active_lease_mono (clk 0%nat)) |].
    by rewrite Hrv, decide_True.
  - case_bool_decide as Hact; [done|]. apply eq_None_not_Some in Hact. intros Hs.
    apply (grant_for_missing clk id ttl e (remove_entry id e).2); auto.
    apply remove_entry_next_access.
Qed.

(** A grant is exclusive and its token is new.  When [start_lease] grants,
    no lease on the key was active, the token is registered with the deadline
    [now + lease_ttl_ms], it differs from the token of every lease held in the
    engine, and the stale bytes come with it exactly when the entry was
    stale. *)
Theorem lease_grant clk ns key ttl e tok sv e' :
  engine_inv e → next_access e < U64_MAX → clk 0%nat ≤ clk 2%nat →
  start_lease clk ns key ttl e = (LeaseGranted tok sv, e') →
  active_lease (clk 2%nat) (EntryId_new ns key) e = None ∧
  leases e' !! EntryId_new ns key =
    Some {| l_token := tok; l_expires_at_ms := clk 3%nat +| ttl |} ∧
  (∀ j l, leases e !! j = Some l → l_token l ≠ tok) ∧
  sv = match entries e !! EntryId_new ns key with
       | Some en => if decide (entry_state_at en (clk 1%nat) = Stale) then Some (e_value en) else None
       | None => None
       end.
Proof.
  intros Hinv Hn Hclk Hs.
  destruct (start_lease_granted clk ns key ttl e tok sv e' ltac:(lia) Hclk Hs)
    as ((n & -> & Hle & _ & _ & Hl) & Hact & Hsv).
  split_and!; try done. intros j l Hj.
  destruct (acc_tokens e (inv_accounts e Hinv) j l Hj) as (m & -> & Hm).
  intros ->%lease_token_inj. lia.
Qed.

Lemma lease_grant_witness :
  leases demo_leased !! EntryId_new "default" (as_bytes "m") =
    Some {| l_token := "lease-2"; l_expires_at_ms := 1102 |}.
Proof.
  destruct (lease_grant (manual_clock 1002) "default" (as_bytes "m") 100 demo_engine
    "lease-2" None demo_leased) as (_ & Hw & _ & _).
  - apply demo_inv.
  - vm_compute. reflexivity.
  - done.
  - apply pair_fst_eq. vm_compute. reflexivity.
  - rewrite Hw. vm_compute. reflexivity.
Defined.

(** ** Completion *)

(** The [put] that a completion performs. *)
Definition completion_put (c : CompleteLeaseCommand) : PutCommand :=
  {| pc_namespace := cl_namespace c; pc_key := cl_key c; pc_value := cl_value c;
     pc_ttl := cl_ttl c; pc_stale_ttl := cl_stale_ttl c; pc_tags := cl_tags c;
     pc_cost := cl_cost c |}.

(** ** A lease on a missing key survives other traffic *)

(** [id] is missing and leased by [l]. *)
Definition holds (id : EntryId) (l : Lease) (e : Engine) : Prop :=
  entries e !! id = None ∧ leases e !! id = Some l.

Section holds.
Context `{HashOrder} (id : EntryId) (l : Lease).

Lemma holds_remove j e : holds id l e → holds id l (remove_entry j e).2.
Proof.
  intros [He Hl]. split.
  - rewrite remove_entry_entries. apply lookup_delete_None. by right.
  - rewrite remove_entry_leases. destruct (entries e !! j) eqn:E; [|done].
    rewrite lookup_delete_ne; [done|]. congruence.
Qed.

Lemma holds_touch j en e : entries e !! j = Some en → holds id l e → holds id l (touch j en e).
Proof. intros Hj [He Hl]. split; [|done]. simpl. rewrite lookup_insert_ne; congruence. Qed.

Lemma holds_record j e : holds id l e → holds id l (record_access j e).
Proof.
  intros Hh. rewrite record_access_touch. destruct (entries e !! j) eqn:E; [|done].
  by apply holds_touch.
Qed.

Lemma holds_create now j ttl e : j ≠ id → holds id l e → holds id l (create_lease now j ttl e).2.
Proof. intros Hj [He Hl]. split; [done|]. simpl. by rewrite lookup_insert_ne. Qed.

Lemma holds_start_missing clk j ttl e :
  j ≠ id → holds id l e → holds id l (start_lease_for_missing clk j ttl e).2.
Proof.
  intros Hj Hh. unfold start_lease_for_missing. destruct (active_lease _ _ _); [done|].
  pose proof (holds_create (clk 1%nat) j ttl e Hj Hh). by destruct (create_lease _ _ _ _).
Qed.

Lemma holds_start clk ns key ttl e :
  EntryId_new ns key ≠ id → holds id l e → holds id l (start_lease clk ns key ttl e).2.
Proof.
  intros Hj Hh. unfold start_lease. set (j := EntryId_new ns key) in *.
  pose proof (holds_create (clk 3%nat) j ttl _ Hj (holds_record j e Hh)) as Hc.
  destruct (entry_state (clk 1%nat) j e).
  - by apply holds_start_missing.
  - destruct (entries (record_access j e) !! j); [by apply holds_record|].
    by destruct (create_lease _ _ _ _).
  - destruct (bool_decide _); [by apply holds_record|]. by destruct (create_lease _ _ _ _).
  - destruct (bool_decide _); [done|]. by apply holds_start_missing, holds_remove.
Qed.

Lemma holds_put clk c e : command_id c ≠ id → holds id l e → holds id l (put clk c e).2.
Proof.
  intros Hc. apply (put_ind (holds id l)); try done.
  - apply holds_remove.
  - intros now b e1 _ [He Hl]. unfold insert_entry. simpl.
    destruct (removable_at_ms _ _); (split; [|done]); simpl; by rewrite lookup_insert_ne.
Qed.

Lemma holds_delete_lease j e :
  j ≠ id → holds id l e → holds id l (set_leases (base.delete j (leases e)) e).
Proof. intros Hj [He Hl]. split; [done|]. simpl. by rewrite lookup_delete_ne. Qed.

Lemma holds_complete clk c e :
  EntryId_new (cl_namespace c) (cl_key c) ≠ id ∨
    (cl_lease_token c ≠ l_token l ∧ clk 0%nat ≤ l_expires_at_ms l) →
  holds id l e → holds id l (complete_lease clk c e).2.
Proof.
  intros Hc Hh. unfold complete_lease. set (j := EntryId_new _ _) in *.
  destruct (decide (j = id)) as [Hj|Hj].
  - destruct Hc as [Hc|[Htok Hclk]]; [done|]. destruct Hh as [He Hl].
    assert (active_lease (clk 0%nat) j e = Some l) as ->.
    { rewrite Hj. by apply active_lease_Some. }
    by rewrite bool_decide_false.
  - destruct (active_lease _ j e); [|by apply holds_delete_lease].
    case_bool_decide; [|done]. fold (completion_put c).
    pose proof (holds_put (clock_after 1 clk) (completion_put c) _ Hj
      (holds_delete_lease j e Hj Hh)). by destruct (put _ _ _).
Qed.

(** The calls that leave the lease alone: anything but a write to the key, its
    deletion, or a completion with the lease's token, while it is active. *)
Definition spares (p : Clock * Op) : Prop :=
  (∀ i, p.1 i ≤ l_expires_at_ms l) ∧
  match p.2 with
  | OpPut c => command_id c ≠ id
  | OpDelete ns key => EntryId_new ns key ≠ id
  | OpCompleteLease c =>
    EntryId_new (cl_namespace c) (cl_key c) ≠ id ∨ cl_lease_token c ≠ l_token l
  | _ => True
  end.

Lemma holds_run_op clk op e : spares (clk, op) → holds id l e → holds id l (run_op clk op e).
Proof.
  intros [Hclk Hop] Hh. simpl in *. destruct op; simpl in *.
  - by apply holds_put.
  - apply get_ref_inner_ind; auto using holds_remove, holds_touch.
  - apply batch_get_ind; auto using holds_remove, holds_touch.
  - by apply holds_remove, holds_delete_lease.
  - apply invalidate_tag_ind; auto using holds_remove.
  - destruct (decide (EntryId_new ns key = id)) as [Hj|Hj]; [|by apply holds_start].
    destruct Hh as [He Hl]. rewrite <- Hj in He, Hl.
    pose proof (start_lease_active clk ns key lease_ttl_ms e l Hl Hclk) as Hs.
    destruct (start_lease clk ns key lease_ttl_ms e) as [o e'].
    destruct Hs as (_ & _ & Hs). destruct (Hs He) as [_ ->]. by rewrite <- Hj.
  - apply holds_complete; [|done]. destruct Hop; auto.
  - apply remove_expired_ind; auto using holds_remove.
Qed.
End holds.

(** C17: single flight.  Once a client holds the lease of a missing key, every
    other client is denied for as long as the lease lasts: after any sequence
    of operations that does not write or delete that key or present its token,
    at times within the lease, [start_lease] on the key answers
    [LeaseDenied]. *)
Theorem lease_single_flight `{HashOrder} ns key l tr e clk ttl :
  holds (EntryId_new ns key) l e →
  Forall (spares (EntryId_new ns key) l) tr →
  (∀ i, clk i ≤ l_expires_at_ms l) →
  (start_lease clk ns key ttl (run_trace tr e)).1 = LeaseDenied.
Proof.
  intros Hh Htr Hclk.
  assert (holds (EntryId_new ns key) l (run_trace tr e)) as [He Hl].
  { revert e Hh. induction Htr as [|[c op] tr Hp Htr IH]; intros e Hh; [done|].
    apply IH. by apply holds_run_op. }
  pose proof (start_lease_active clk ns key ttl _ l Hl Hclk) as Hs.
  destruct (start_lease clk ns key ttl _). naive_solver.
Qed.

Lemma lease_single_flight_witness :
  (start_lease (manual_clock 1050) "default" (as_bytes "m") 7
     (run_trace [(manual_clock 1020, OpPut demo_a); (manual_clock 1060, OpReclaim 10)]
        demo_leased)).1 = LeaseDenied.
Proof.
  apply (lease_single_flight "default" (as_bytes "m")
    {| l_token := "lease-2"; l_expires_at_ms := 1102 |}).
  - split; vm_compute; reflexivity.
  - repeat constructor; unfold manual_clock; simpl; (done || (intros; lia)).
  - intros i. unfold manual_clock. simpl. lia.
Defined.

(** An entry removed by cleanup takes its lease with it. *)
Lemma entry_gone_lease_gone id clk m e en :
  entries e !! id = Some en → entries (remove_expired clk m e).2 !! id = None →
  leases (remove_expired clk m e).2 !! id = None.
Proof.
  intros Hen Hgone.
  assert (is_Some (entries (remove_expired clk m e).2 !! id) ∨
          leases (remove_expired clk m e).2 !! id = None) as [Hs|Hl]; [|rewrite Hgone in Hs; by destruct Hs|done].
  apply (remove_expired_ind (λ e, is_Some (entries e !! id) ∨ leases e !! id = None));
    [|by auto..|by eauto].
  - intros j e1 Hd. rewrite remove_entry_entries, remove_entry_leases.
    destruct (decide (j = id)) as [->|Hj].
    + destruct (entries e1 !! id) eqn:E1; [right; apply lookup_delete_eq|].
      destruct Hd as [[? ?]|Hd]; [done|by right].
    + rewrite lookup_delete_ne by done. destruct (entries e1 !! j); [|done].
      by rewrite lookup_delete_ne.
Qed.

(** Where the lease has an entry under it, cleanup defeats it.  If the
    entry of a key has passed its removal time while the key's lease is still
    active, [start_lease] denies a second client, but after a cleanup at the
    same clock reading it grants one: removing the expired entry also removed
    the active lease. *)
Theorem lease_lost_by_cleanup ns key e en k l now ttl :
  engine_inv e → entries e !! EntryId_new ns key = Some en →
  entry_expiry_key (EntryId_new ns key) en = Some k → xk_expires_at_ms k < now →
  leases e !! EntryId_new ns key = Some l → now ≤ l_expires_at_ms l →
  (start_lease (manual_clock now) ns key ttl e).1 = LeaseDenied ∧
  ∃ tok, (start_lease (manual_clock now) ns key ttl
            (reclaim_expired (manual_clock now) e).2).1 = LeaseGranted tok None.
Proof.
  intros Hinv Hen Hk Hnow Hl Hact. set (id := EntryId_new ns key) in *.
  assert (active_lease now id e = Some l) as Hal by by apply active_lease_Some.
  pose proof (removable_expired (limits e) id en k now (inv_entry_ok e id en Hinv Hen) Hk Hnow) as Hst.
  split.
  - unfold start_lease, entry_state, manual_clock. fold id.
    by rewrite Hal, Hen, Hst, bool_decide_true by eauto.
  - assert (entries (reclaim_expired (manual_clock now) e).2 !! id = None) as He'.
    { apply (reclaim_removes_due _ _ _ en k); [done..|]. unfold manual_clock. lia. }
    assert (leases (reclaim_expired (manual_clock now) e).2 !! id = None) as Hl'.
    { apply (entry_gone_lease_gone id (manual_clock now) USIZE_MAX e en Hen He'). }
    unfold start_lease, entry_state, start_lease_for_missing, active_lease. fold id.
    rewrite He', Hl'. simpl. eauto.
Qed.

(** A stale entry, its lease, and a cleanup after the stale window. *)
Definition demo_refreshing : Engine :=
  (start_lease (manual_clock 1015) "default" (as_bytes "a") 100 demo_engine).2.

Lemma demo_refreshing_inv : engine_inv demo_refreshing.
Proof. apply start_lease_inv, demo_inv. Defined.

Lemma lease_lost_by_cleanup_witness :
  (start_lease (manual_clock 1040) "default" (as_bytes "a") 100 demo_refreshing).1 = LeaseDenied ∧
  ∃ tok, (start_lease (manual_clock 1040) "default" (as_bytes "a") 100
            (reclaim_expired (manual_clock 1040) demo_refreshing).2).1 = LeaseGranted tok None.
Proof.
  apply (lease_lost_by_cleanup "default" (as_bytes "a") demo_refreshing
    (put_entry 1000 demo_a 2)
    {| xk_expires_at_ms := 1030; xk_id := EntryId_new "default" (as_bytes "a") |}
    {| l_token := "lease-3"; l_expires_at_ms := 1115 |});
    [apply demo_refreshing_inv | vm_compute; reflexivity .. | vm_compute; discriminate].
Defined.
End EngineLease.
