(* ===== verification/Sharded.v ===== *)
(** * Sharded: the engine the server shares

    [src/engine.rs], [ShardedEngine<C>]: a vector of engines, each behind its
    mutex, and a directory from tags to the shards that may hold them.  An
    operation is a sequence of critical sections; here each is a function on
    the state it locks, and the operation composes them.  [None] is a panic:
    the out-of-range index of [self.shards[index]].  Theorems show that it
    does not happen.  The hash of [DefaultHasher] is unspecified by the
    standard library beyond being a function of the hashed data, and so is
    the order of a [HashSet<usize>]: both are the class [ShardEnv]. *)

From S2P Require Import Prelude Bytes Protocol Engine.

Module Sharded.
Import Engine.

Class ShardEnv := {
  hash64 : string → bytes → N;
  shards_iter : gset nat → list nat;
  shards_iter_perm s : shards_iter s ≡ₚ elements s
}.

Record ShardedEngine := {
  shards : list Engine;
  tag_directory : gmap TagId (gset nat);
  sh_limits : EngineLimits
}.

Definition set_shards v s :=
  {| shards := v; tag_directory := tag_directory s; sh_limits := sh_limits s |}.
Definition set_tag_directory v s :=
  {| shards := shards s; tag_directory := v; sh_limits := sh_limits s |}.

(** [usize::div_ceil] *)
Definition div_ceil (a b : N) : N := (a + b - 1) / b.

Definition shard_limits (lim : EngineLimits) (shard_count : nat) : EngineLimits :=
  {| max_memory_bytes := div_ceil (max_memory_bytes lim) (N.of_nat shard_count);
     max_value_bytes := max_value_bytes lim |}.

(** [None] is the failure of [assert!(shard_count > 0)]. *)
Definition with_clock_and_limits (lim : EngineLimits) (shard_count : nat) : option ShardedEngine :=
  if bool_decide (shard_count = 0%nat) then None
  else Some {| shards := replicate shard_count
                 (Engine.with_clock_and_limits (shard_limits lim shard_count));
               tag_directory := ∅; sh_limits := lim |}.

Definition with_limits (lim : EngineLimits) : option ShardedEngine :=
  with_clock_and_limits lim DEFAULT_SHARD_COUNT.

(** [let mut shard = self.shards[index].lock(); ...; drop(shard)]: runs [f] on
    the shard and stores it back. *)
Definition with_shard {A} (index : nat) (f : Engine → A * Engine) (s : ShardedEngine) :
    option (A * ShardedEngine) :=
  e ← shards s !! index;
  let '(a, e') := f e in
  Some (a, set_shards (<[index := e']> (shards s)) s).

(** ** The tag directory *)

Definition remove_route (shard_index : nat) (directory : gmap TagId (gset nat)) (tid : TagId) :
    gmap TagId (gset nat) :=
  match directory !! tid with
  | None => directory
  | Some indices =>
    let indices := indices ∖ {[shard_index]} in
    if bool_decide (indices = ∅) then base.delete tid directory
    else <[tid := indices]> directory
  end.

Definition add_route (shard_index : nat) (directory : gmap TagId (gset nat)) (tid : TagId) :
    gmap TagId (gset nat) :=
  <[tid := {[shard_index]} ∪ default ∅ (directory !! tid)]> directory.

Definition update_tag_routes (shard_index : nat) (add_tags remove_tags : list TagId)
    (s : ShardedEngine) : ShardedEngine :=
  if bool_decide (add_tags = []) && bool_decide (remove_tags = []) then s
  else
    let directory := foldl (remove_route shard_index) (tag_directory s) remove_tags in
    set_tag_directory (foldl (add_route shard_index) directory add_tags) s.

(** The critical section of a write: the old tags of the key, the write, and
    those of the old tags the shard holds no more. *)
Definition write_section {A} (namespace : string) (key : bytes) (write : Engine → A * Engine)
    (e : Engine) : (A * list TagId) * Engine :=
  let old_tags := tag_ids_for_entry namespace key e in
  let '(a, e') := write e in
  ((a, filter (λ tid, has_tag_id tid e' = false) old_tags), e').

Section operations.
Context `{HashOrder, ShardEnv}.

Definition shard_index_for (namespace : string) (key : bytes) (s : ShardedEngine) : nat :=
  N.to_nat (hash64 namespace key mod len (shards s)).

Definition put (clk : Clock) (command : PutCommand) (s : ShardedEngine) :
    option (result PutOutcome PutError * ShardedEngine) :=
  let namespace := pc_namespace command in
  let key := pc_key command in
  let new_tags := tag_ids namespace (pc_tags command) in
  let shard_index := shard_index_for namespace key s in
  '(r, old_tags_without_entries, s) ←
    with_shard shard_index (write_section namespace key (Engine.put clk command)) s;
  let add_tags := if is_ok r then new_tags else [] in
  Some (r, update_tag_routes shard_index add_tags old_tags_without_entries s).

Definition get (clk : Clock) (namespace : string) (key : bytes) (s : ShardedEngine) :
    option (GetOutcome * ShardedEngine) :=
  with_shard (shard_index_for namespace key s) (Engine.get clk namespace key) s.

Definition get_ref (clk : Clock) (namespace : string) (key : bytes) (s : ShardedEngine) :
    option (GetOutcome * ShardedEngine) :=
  with_shard (shard_index_for namespace key s) (Engine.get_ref clk namespace key) s.

Definition get_ref_without_access_update (clk : Clock) (namespace : string) (key : bytes)
    (s : ShardedEngine) : option (GetOutcome * ShardedEngine) :=
  with_shard (shard_index_for namespace key s)
    (Engine.get_ref_without_access_update clk namespace key) s.

Definition delete (namespace : string) (key : bytes) (s : ShardedEngine) :
    option (bool * ShardedEngine) :=
  let shard_index := shard_index_for namespace key s in
  '(removed, old_tags_without_entries, s) ←
    with_shard shard_index (write_section namespace key (Engine.delete namespace key)) s;
  Some (removed, if removed : bool
                 then update_tag_routes shard_index [] old_tags_without_entries s else s).

(** The clock of the [i]-th key is its [i]-th reading. *)
Fixpoint batch_get (clk : Clock) (namespace : string) (keys : list bytes) (s : ShardedEngine) :
    option (list GetOutcome * ShardedEngine) :=
  match keys with
  | [] => Some ([], s)
  | key :: keys =>
    '(o, s) ← get clk namespace key s;
    '(os, s) ← batch_get (clock_after 1 clk) namespace keys s;
    Some (o :: os, s)
  end.

(** The sum over the routed shards in [invalidate_tag]. *)
Fixpoint invalidate_shards (namespace tag : string) (indices : list nat) (s : ShardedEngine) :
    option (N * ShardedEngine) :=
  match indices with
  | [] => Some (0, s)
  | index :: indices =>
    '(n, s) ← with_shard index (Engine.invalidate_tag namespace tag) s;
    '(m, s) ← invalidate_shards namespace tag indices s;
    Some (n + m, s)
  end.

(** The directory section of [invalidate_tag]: takes the route out. *)
Definition take_route (tid : TagId) (s : ShardedEngine) : list nat * ShardedEngine :=
  (default [] (shards_iter <$> tag_directory s !! tid),
   set_tag_directory (base.delete tid (tag_directory s)) s).

Definition invalidate_tag (namespace tag : string) (s : ShardedEngine) :
    option (N * ShardedEngine) :=
  let '(shard_indices, s) := take_route (tag_id namespace tag) s in
  invalidate_shards namespace tag shard_indices s.

Definition start_lease (clk : Clock) (namespace : string) (key : bytes) (lease_ttl_ms : N)
    (s : ShardedEngine) : option (StartLeaseOutcome * ShardedEngine) :=
  with_shard (shard_index_for namespace key s)
    (Engine.start_lease clk namespace key lease_ttl_ms) s.

Definition complete_lease (clk : Clock) (command : CompleteLeaseCommand) (s : ShardedEngine) :
    option (result PutOutcome CompleteLeaseError * ShardedEngine) :=
  let namespace := cl_namespace command in
  let key := cl_key command in
  let new_tags := tag_ids namespace (cl_tags command) in
  let shard_index := shard_index_for namespace key s in
  '(r, old_tags_without_entries, s) ←
    with_shard shard_index (write_section namespace key (Engine.complete_lease clk command)) s;
  let add_tags := if is_ok r then new_tags else [] in
  Some (r, update_tag_routes shard_index add_tags old_tags_without_entries s).

(** The [for shard in &self.shards] loop of [reclaim_expired_budget]; each
    shard takes its own reading of the clock. *)
Fixpoint reclaim_shards (clk : Clock) (remaining removed : N) (es : list Engine) :
    N * list Engine :=
  match es with
  | [] => (removed, [])
  | e :: es' =>
    if remaining =? 0 then (removed, e :: es')
    else
      let '(n, e) := Engine.reclaim_expired_budget clk remaining e in
      let '(removed, es') := reclaim_shards (clock_after 1 clk) (remaining -| n) (removed + n) es' in
      (removed, e :: es')
  end.

Definition reclaim_expired_budget (clk : Clock) (max_entries : N) (s : ShardedEngine) :
    N * ShardedEngine :=
  if max_entries =? 0 then (0, s)
  else
    let '(removed, es) := reclaim_shards clk max_entries 0 (shards s) in
    (removed, set_shards es s).
End operations.

(** ** Totals *)

Definition sum_shards (f : Engine → N) (s : ShardedEngine) : N :=
  foldr (λ e acc, f e + acc) 0 (shards s).

Definition len_entries (s : ShardedEngine) : N := sum_shards Engine.len_entries s.
Definition is_empty (s : ShardedEngine) : bool := len_entries s =? 0.
(** [Iterator::sum] on [usize], without its wrap-around: the sum is at most the
    limit and one less than the number of shards, so it can wrap only for a limit
    that close to [usize::MAX]. *)
Definition memory_used_bytes (s : ShardedEngine) : N := sum_shards Engine.memory_used_bytes s.
(** [Iterator::sum] on [u64], which wraps in release builds. *)
Definition cost_score_total (s : ShardedEngine) : N :=
  foldl wrap_add 0 (Engine.cost_score_total <$> shards s).
Definition limits (s : ShardedEngine) : EngineLimits := sh_limits s.

Definition stats (s : ShardedEngine) : EngineStats :=
  foldl (λ total e, {| expirations := expirations total +| expirations (Engine.stats e);
                       evictions := evictions total +| evictions (Engine.stats e) |})
    EngineStats_default (shards s).
End Sharded.
