(* ===== verification/ShardedInv.v ===== *)
(** * ShardedInv: routing and the invariant of the sharded engine

    Every shard satisfies the engine invariant and holds only keys that hash to
    it, and the tag directory routes each tag to every shard that holds an
    entry with it (it may list more).  Every operation preserves this and
    never indexes the shards out of range. *)

From S2P Require Import Prelude Bytes Protocol Engine EngineInv EnginePut EngineOps Sharded.

Module ShardedInv.
Import Engine EngineInv EnginePut EngineOps.

(** ** How one engine may change in an operation *)

(** Entries and leases appear only for keys in [X]; tagged entries appear only
    for tags in [T]. *)
Record evolves (X : EntryId → Prop) (T : TagId → Prop) (e e' : Engine) : Prop := {
  ev_limits : limits e' = limits e;
  ev_entries : ∀ j, is_Some (entries e' !! j) → is_Some (entries e !! j) ∨ X j;
  ev_leases : ∀ j, is_Some (leases e' !! j) → is_Some (leases e !! j) ∨ X j;
  ev_tagged : ∀ tid j, tagged (entries e') tid j → tagged (entries e) tid j ∨ T tid
}.

Lemma evolves_refl X T e : evolves X T e e.
Proof. split; auto. Qed.

Lemma evolves_weaken (X X' : EntryId → Prop) (T T' : TagId → Prop) e e' :
  (∀ j, X j → X' j) → (∀ t, T t → T' t) → evolves X T e e' → evolves X' T' e e'.
Proof. intros HX HT []. split; naive_solver. Qed.

Section evolves.
Context (X : EntryId → Prop) (T : TagId → Prop) (e0 : Engine).
Abbreviation ev := (evolves X T e0).

Lemma evolves_entries_leases e es ls :
  ev e → (∀ j en, es !! j = Some en → entries e !! j = Some en) →
  (∀ j, is_Some (ls !! j) → is_Some (leases e !! j) ∨ X j) →
  ∀ e', entries e' = es → leases e' = ls → limits e' = limits e → ev e'.
Proof.
  intros [H1 H2 H3 H4] Hes Hls e' <- <- Hlim. split.
  - congruence.
  - intros j [en Hj]. apply H2. eauto.
  - intros j Hj. destruct (Hls j Hj); auto.
  - intros tid j (en & Hj & Ht). apply (H4 tid j). exists en. auto.
Qed.

Lemma evolves_remove id e : ev e → ev (remove_entry id e).2.
Proof.
  intros He. eapply evolves_entries_leases; [exact He | | | reflexivity | reflexivity |].
  - intros j en. rewrite remove_entry_entries, lookup_delete_Some. naive_solver.
  - intros j. rewrite remove_entry_leases. destruct (entries e !! id); [|auto].
    intros [l Hl]. apply lookup_delete_Some in Hl as [_ Hl]. eauto.
  - apply remove_entry_limits.
Qed.

Lemma evolves_stats x e : ev e → ev (set_stats x e).
Proof. intros []. by split. Qed.

Lemma evolves_expiry x e : ev e → ev (set_expiry_index x e).
Proof. intros []. by split. Qed.

Lemma evolves_tag_index x e : ev e → ev (set_tag_index x e).
Proof. intros []. by split. Qed.

Lemma evolves_delete_lease id e : ev e → ev (set_leases (base.delete id (leases e)) e).
Proof.
  intros [H1 H2 H3 H4]. split; [done..| |done]. simpl.
  intros j [l Hj]. apply lookup_delete_Some in Hj as [_ Hj]. eauto.
Qed.

Lemma evolves_touch id en e : entries e !! id = Some en → ev e → ev (touch id en e).
Proof.
  intros Hid [H1 H2 H3 H4]. split; simpl; [done| |done|].
  - intros j [x Hj]. apply H2. apply (lookup_touched id en) in Hj as (y & -> & _); eauto.
  - intros tid j. rewrite touch_tagged by done. apply H4.
Qed.

Lemma evolves_record_access id e : ev e → ev (record_access id e).
Proof.
  intros He. rewrite record_access_touch. destruct (entries e !! id) eqn:E; [|done].
  by apply evolves_touch.
Qed.

Lemma evolves_create_lease now id ttl e : X id → ev e → ev (create_lease now id ttl e).2.
Proof.
  intros HX [H1 H2 H3 H4]. split; simpl; [done..| |done].
  intros j [l Hj]. destruct (decide (j = id)) as [->|Hne]; [by right|].
  rewrite lookup_insert_ne in Hj by done. eauto.
Qed.
End evolves.

Create HintDb evolves.
#[export] Hint Resolve evolves_refl evolves_remove evolves_stats evolves_expiry
  evolves_tag_index evolves_delete_lease evolves_touch evolves_record_access
  evolves_create_lease : evolves.

Definition nothing {A} : A → Prop := λ _, False.
Definition only {A} (a : A) : A → Prop := λ x, x = a.
Definition members {A} (l : list A) : A → Prop := λ x, x ∈ l.

Section engine_evolves.
Context `{HashOrder}.

Lemma get_evolves clk ns key u e :
  evolves nothing nothing e (get_ref_inner clk ns key u e).2.
Proof. apply get_ref_inner_ind; eauto with evolves. Qed.

Lemma delete_evolves ns key e : evolves nothing nothing e (Engine.delete ns key e).2.
Proof. unfold Engine.delete. eauto with evolves. Qed.

Lemma invalidate_evolves ns tag e :
  evolves nothing nothing e (Engine.invalidate_tag ns tag e).2.
Proof. apply invalidate_tag_ind; eauto with evolves. Qed.

Lemma reclaim_evolves clk n e :
  evolves nothing nothing e (Engine.reclaim_expired_budget clk n e).2.
Proof. apply remove_expired_ind; eauto with evolves. Qed.

Lemma start_missing_evolves clk id ttl e0 e :
  evolves (only id) nothing e0 e →
  evolves (only id) nothing e0 (start_lease_for_missing clk id ttl e).2.
Proof.
  intros He. unfold start_lease_for_missing. destruct (active_lease _ id e); [done|].
  by apply evolves_create_lease.
Qed.

Lemma start_lease_evolves clk ns key ttl e :
  evolves (only (EntryId_new ns key)) nothing e (Engine.start_lease clk ns key ttl e).2.
Proof.
  unfold Engine.start_lease. set (id := EntryId_new ns key).
  assert (only id id) as Hid by done.
  destruct (entry_state (clk 1%nat) id e).
  - apply start_missing_evolves, evolves_refl.
  - destruct (entries (record_access id e) !! id); simpl; eauto with evolves.
    by apply evolves_create_lease; [|apply evolves_record_access, evolves_refl].
  - destruct (bool_decide _); simpl; eauto with evolves.
    by apply evolves_create_lease; [|apply evolves_record_access, evolves_refl].
  - destruct (bool_decide _); simpl; eauto with evolves.
    apply start_missing_evolves. eauto with evolves.
Qed.

(** The tags a write can add: those of the command, and only on success. *)
Definition written {A E} (r : result A E) (ns : string) (tags : list string) : TagId → Prop :=
  members (if is_ok r then tag_ids ns tags else []).

Lemma put_leases_evolve clk c e j :
  is_Some (leases (Engine.put clk c e).2 !! j) → is_Some (leases e !! j).
Proof.
  apply (put_ind (λ e', is_Some (leases e' !! j) → is_Some (leases e !! j))); try done.
  - intros id e1 IH. rewrite remove_entry_leases. destruct (entries e1 !! id); [|done].
    intros [l Hl]. apply lookup_delete_Some in Hl as [_ Hl]. eauto.
  - intros now b e1 _ IH. unfold insert_entry. simpl. by destruct (removable_at_ms _ _).
Qed.

Lemma put_evolves clk c e :
  engine_inv e →
  let '(r, e') := Engine.put clk c e in
  evolves (only (command_id c)) (written r (pc_namespace c) (pc_tags c)) e e'.
Proof.
  intros Hinv. pose proof (put_spec clk c e Hinv) as Hs.
  pose proof (put_leases_evolve clk c e) as Hl.
  destruct (Engine.put clk c e) as [[o|[]] e']; simpl in *;
    destruct Hs as (_ & Hlim & Hs); [| naive_solver (apply evolves_refl)..].
  destruct Hs as (_ & _ & acc & es & Hes & He' & _). split; [done | | by auto |].
  - intros j. rewrite He'. destruct (decide (j = command_id c)) as [->|Hj]; [by right|].
    rewrite lookup_insert_ne by done. intros [en Hen].
    eapply lookup_weaken in Hen; [|exact Hes]. apply lookup_delete_Some in Hen as [_ Hen]. eauto.
  - intros tid j (en & Hen & Hns & Htag). rewrite He' in Hen.
    destruct (decide (j = command_id c)) as [->|Hj].
    + rewrite lookup_insert_eq in Hen. injection Hen as <-. right.
      unfold written, members, tag_ids. simpl in *. apply list_elem_of_fmap.
      exists (tid_tag tid). split; [|done]. unfold tag_id. destruct tid; simpl in *. congruence.
    + rewrite lookup_insert_ne in Hen by done. left. exists en.
      eapply lookup_weaken in Hen; [|exact Hes]. apply lookup_delete_Some in Hen as [_ Hen]. auto.
Qed.

Lemma complete_lease_evolves clk c e :
  engine_inv e →
  let '(r, e') := Engine.complete_lease clk c e in
  evolves (only (EntryId_new (cl_namespace c) (cl_key c)))
    (written r (cl_namespace c) (cl_tags c)) e e'.
Proof.
  intros Hinv. unfold Engine.complete_lease. set (id := EntryId_new _ _).
  destruct (active_lease _ id e) as [l|]; [|by eauto with evolves].
  case_bool_decide; [|by eauto with evolves].
  set (pc := {| pc_namespace := _ |}).
  pose proof (put_evolves (clock_after 1 clk) pc _ (delete_lease_inv id e Hinv)) as Hp.
  destruct (Engine.put _ pc _) as [r e']. destruct Hp as [H1 H2 H3 H4]. split; [done| | |].
  - done.
  - intros j Hj. destruct (H3 j Hj) as [[l' Hl]|]; [|by right].
    simpl in Hl. apply lookup_delete_Some in Hl as [_ Hl]. eauto.
  - intros tid j Hj. destruct (H4 tid j Hj) as [|HT]; [by left|]. right. by destruct r.
Qed.
End engine_evolves.

(** ** The tag directory *)

Import Sharded.

Section directory.
Context (i : nat).
Implicit Types dir : gmap TagId (gset nat).

Lemma remove_route_lookup dir t t' i' :
  i' ∈ default ∅ (remove_route i dir t !! t') ↔
  i' ∈ default ∅ (dir !! t') ∧ ¬ (i' = i ∧ t' = t).
Proof.
  unfold remove_route. destruct (dir !! t) as [ixs|] eqn:E.
  - destruct (decide (t' = t)) as [->|Ht].
    + case_bool_decide as Hd.
      * rewrite lookup_delete_eq, E. simpl. set_solver.
      * rewrite lookup_insert_eq, E. simpl. set_solver.
    + case_bool_decide; rewrite ?lookup_delete_ne, ?lookup_insert_ne by done; naive_solver.
  - split; [|naive_solver]. intros Hi. split; [done|]. intros [-> ->]. rewrite E in Hi. set_solver.
Qed.

Lemma remove_routes_lookup dir ts t' i' :
  i' ∈ default ∅ (foldl (remove_route i) dir ts !! t') ↔
  i' ∈ default ∅ (dir !! t') ∧ ¬ (i' = i ∧ t' ∈ ts).
Proof.
  revert dir. induction ts as [|t ts IH]; intros dir; simpl; [set_solver|].
  rewrite IH, remove_route_lookup. set_solver.
Qed.

Lemma remove_routes_nonempty dir ts t' :
  dir !! t' ≠ Some ∅ → foldl (remove_route i) dir ts !! t' ≠ Some ∅.
Proof.
  revert dir. induction ts as [|t ts IH]; intros dir Hne; simpl; [done|]. apply IH.
  unfold remove_route. destruct (dir !! t); [|done]. case_bool_decide.
  - rewrite lookup_delete. by case_decide.
  - rewrite lookup_insert. case_decide; congruence.
Qed.

Lemma add_routes_lookup dir ts t' i' :
  i' ∈ default ∅ (foldl (add_route i) dir ts !! t') ↔
  i' ∈ default ∅ (dir !! t') ∨ (i' = i ∧ t' ∈ ts).
Proof.
  revert dir. induction ts as [|t ts IH]; intros dir; simpl; [set_solver|].
  rewrite IH. unfold add_route. rewrite lookup_insert. case_decide; subst; simpl; set_solver.
Qed.

Lemma add_routes_nonempty dir ts t' :
  dir !! t' ≠ Some ∅ → foldl (add_route i) dir ts !! t' ≠ Some ∅.
Proof.
  revert dir. induction ts as [|t ts IH]; intros dir Hne; simpl; [done|]. apply IH.
  unfold add_route. rewrite lookup_insert. case_decide; [|done]. intros [= Heq]. set_solver.
Qed.

Lemma update_tag_routes_lookup add rem s t i' :
  i' ∈ default ∅ (tag_directory (update_tag_routes i add rem s) !! t) ↔
  (i' ∈ default ∅ (tag_directory s !! t) ∧ ¬ (i' = i ∧ t ∈ rem)) ∨ (i' = i ∧ t ∈ add).
Proof.
  unfold update_tag_routes. destruct (bool_decide _ && bool_decide _) eqn:E.
  - apply andb_true_iff in E as [->%bool_decide_eq_true ->%bool_decide_eq_true]. set_solver.
  - simpl. by rewrite add_routes_lookup, remove_routes_lookup.
Qed.

Lemma update_tag_routes_nonempty add rem s t :
  tag_directory s !! t ≠ Some ∅ → tag_directory (update_tag_routes i add rem s) !! t ≠ Some ∅.
Proof.
  intros Hne. unfold update_tag_routes. destruct (_ && _); [done|]. simpl.
  by apply add_routes_nonempty, remove_routes_nonempty.
Qed.

Lemma update_tag_routes_shards add rem s : shards (update_tag_routes i add rem s) = shards s.
Proof. unfold update_tag_routes. by destruct (_ && _). Qed.

Lemma update_tag_routes_limits add rem s : sh_limits (update_tag_routes i add rem s) = sh_limits s.
Proof. unfold update_tag_routes. by destruct (_ && _). Qed.
End directory.

(** ** The invariant *)

Section invariant.
Context `{HashOrder, ShardEnv}.

(** The shard of a key. *)
Definition home (id : EntryId) (s : ShardedEngine) : nat :=
  shard_index_for (eid_namespace id) (eid_key id) s.

Record shard_ok (s : ShardedEngine) (i : nat) (e : Engine) : Prop := {
  so_inv : engine_inv e;
  so_limits : Engine.limits e = shard_limits (sh_limits s) (length (shards s));
  so_entries : ∀ id, is_Some (entries e !! id) → home id s = i;
  so_leases : ∀ id, is_Some (leases e !! id) → home id s = i
}.

Definition routed (s : ShardedEngine) (i : nat) (e : Engine) : Prop :=
  ∀ tid id, tagged (entries e) tid id → i ∈ default ∅ (tag_directory s !! tid).

Record sharded_inv (s : ShardedEngine) : Prop := {
  si_nonempty : shards s ≠ [];
  si_shards : ∀ i e, shards s !! i = Some e → shard_ok s i e;
  si_routes : ∀ i e, shards s !! i = Some e → routed s i e;
  si_range : ∀ tid i, i ∈ default ∅ (tag_directory s !! tid) → (i < length (shards s))%nat;
  si_directory : ∀ tid, tag_directory s !! tid ≠ Some ∅
}.

Lemma home_in_range id s : shards s ≠ [] → is_Some (shards s !! home id s).
Proof.
  intros Hne. apply lookup_lt_is_Some. unfold home, shard_index_for.
  assert (0 < len (shards s)) by (destruct (shards s); [done|rewrite len_cons; lia]).
  pose proof (N.mod_upper_bound (hash64 (eid_namespace id) (eid_key id)) (len (shards s))).
  unfold len in *. lia.
Qed.

Lemma home_length id s s' : length (shards s') = length (shards s) → home id s' = home id s.
Proof. intros Hl. unfold home, shard_index_for, len. by rewrite Hl. Qed.

Lemma shard_ok_ext s s' i e :
  length (shards s') = length (shards s) → sh_limits s' = sh_limits s →
  shard_ok s i e → shard_ok s' i e.
Proof.
  intros Hl Hlim [H1 H2 H3 H4]. split; [done | by rewrite Hlim, Hl | |];
    intros id Hid; rewrite (home_length id s s' Hl); auto.
Qed.

(** A shard stays well formed through an operation on one of its keys. *)
Lemma evolves_shard_ok s i e e' X T :
  shard_ok s i e → evolves X T e e' → engine_inv e' → (∀ j, X j → home j s = i) →
  shard_ok s i e'.
Proof.
  intros [H1 H2 H3 H4] [E1 E2 E3 E4] Hinv HX. split; [done | congruence | |].
  - intros id Hid. destruct (E2 id Hid); auto.
  - intros id Hid. destruct (E3 id Hid); auto.
Qed.

(** The state after the critical section of shard [i]. *)
Definition store_shard (i : nat) (e : Engine) (s : ShardedEngine) : ShardedEngine :=
  set_shards (<[i := e]> (shards s)) s.

Lemma store_shard_lookup i e e' s j x :
  shards s !! i = Some e → shards (store_shard i e' s) !! j = Some x →
  (j = i ∧ x = e') ∨ (j ≠ i ∧ shards s !! j = Some x).
Proof.
  intros Hi. simpl. destruct (decide (j = i)) as [->|Hj].
  - rewrite list_lookup_insert_eq by (by eapply lookup_lt_Some). intros [= <-]. auto.
  - rewrite list_lookup_insert_ne by done. auto.
Qed.

Lemma with_shard_spec {A} i (f : Engine → A * Engine) s e :
  shards s !! i = Some e → with_shard i f s = Some ((f e).1, store_shard i (f e).2 s).
Proof. intros Hi. unfold with_shard. rewrite Hi. simpl. by destruct (f e). Qed.

(** A shard section followed by the directory section that matches it. *)
Lemma write_sections_inv s i e e' X add rem :
  sharded_inv s → shards s !! i = Some e → engine_inv e' →
  evolves X (members add) e e' → (∀ j, X j → home j s = i) →
  (∀ t id, t ∈ rem → ¬ tagged (entries e') t id) →
  sharded_inv (update_tag_routes i add rem (store_shard i e' s)).
Proof.
  intros [H1 H2 H3 H4 H5] Hi Hinv Hev HX Hrem.
  assert (length (shards (store_shard i e' s)) = length (shards s)) as Hlen
    by apply length_insert.
  assert (i < length (shards s))%nat as Hlt by by eapply lookup_lt_Some.
  split; rewrite ?update_tag_routes_shards.
  - intros Hnil. apply H1, length_zero_iff_nil. by rewrite <- Hlen, Hnil.
  - intros j x Hx. apply (shard_ok_ext s);
      [by rewrite update_tag_routes_shards | by rewrite update_tag_routes_limits |].
    apply (store_shard_lookup i e) in Hx as [[-> ->]|[_ Hx]]; [|by apply H2|done].
    by eapply evolves_shard_ok; [apply H2|..].
  - intros j x Hx tid id Htag. rewrite update_tag_routes_lookup.
    apply (store_shard_lookup i e) in Hx as [[-> ->]|[Hj Hx]]; [| |done].
    + destruct (ev_tagged _ _ _ _ Hev tid id Htag) as [Hold|Hnew]; [|by right].
      left. split; [by eapply H3|]. intros [_ Hin]. by eapply Hrem.
    + left. split; [by eapply H3 | tauto].
  - intros tid j. rewrite update_tag_routes_lookup, Hlen.
    intros [[Hj _]|[-> _]]; [by eapply H4 | done].
  - intros tid. by apply update_tag_routes_nonempty.
Qed.

Lemma store_shard_inv s i e e' X :
  sharded_inv s → shards s !! i = Some e → engine_inv e' →
  evolves X nothing e e' → (∀ j, X j → home j s = i) → sharded_inv (store_shard i e' s).
Proof.
  intros Hs Hi Hinv Hev HX. apply (write_sections_inv s i e e' X [] []); try done.
  - eapply evolves_weaken; [| |exact Hev]; [done|]. by intros t [].
  - set_solver.
Qed.

Lemma has_tag_id_false e tid id :
  engine_inv e → has_tag_id tid e = false → ¬ tagged (entries e) tid id.
Proof.
  intros Hinv. unfold has_tag_id. rewrite <- (proj1 (inv_tags e Hinv tid) id).
  destruct (tag_index e !! tid) as [ids|]; simpl; [|set_solver].
  case_bool_decide; [set_solver | done].
Qed.

(** ** Operations on one key *)

(** The key section of a sharded write, as the composition of its sections. *)
Lemma write_section_spec {A} ns key (write : Engine → A * Engine) s e :
  shards s !! home (EntryId_new ns key) s = Some e →
  ∃ rem, with_shard (shard_index_for ns key s) (write_section ns key write) s =
    Some (((write e).1, rem), store_shard (home (EntryId_new ns key) s) (write e).2 s) ∧
  ∀ t, t ∈ rem → has_tag_id t (write e).2 = false.
Proof.
  intros Hi. change (shard_index_for ns key s) with (home (EntryId_new ns key) s).
  rewrite (with_shard_spec _ _ _ e Hi). unfold write_section. destruct (write e) as [a e'].
  simpl. eexists. split; [reflexivity|]. intros t Ht. by apply list_elem_of_filter in Ht as [? _].
Qed.

(** [put] is the engine's [put] on the shard of its key, and leaves the other
    shards alone. *)
Lemma sharded_put_spec clk c s e :
  sharded_inv s → shards s !! home (command_id c) s = Some e →
  ∃ s', put clk c s = Some ((Engine.put clk c e).1, s') ∧ sharded_inv s' ∧
    shards s' = <[home (command_id c) s := (Engine.put clk c e).2]> (shards s).
Proof.
  intros Hs Hi. destruct (write_section_spec (pc_namespace c) (pc_key c) (Engine.put clk c) s e)
    as (rem & Heq & Hrem); [done|].
  unfold put. rewrite Heq. simpl. eexists. split; [reflexivity|].
  pose proof (si_shards s Hs _ _ Hi) as Hok. pose proof (put_inv clk c e (so_inv _ _ _ Hok)) as Hinv.
  pose proof (put_evolves clk c e (so_inv _ _ _ Hok)) as Hev.
  destruct (Engine.put clk c e) as [r e']. simpl in *. split.
  - eapply write_sections_inv; [done|exact Hi|done|exact Hev|by intros j ->|].
    intros t id Ht. apply has_tag_id_false; auto.
  - by rewrite update_tag_routes_shards.
Qed.

Lemma complete_lease_spec clk c s e :
  let id := EntryId_new (cl_namespace c) (cl_key c) in
  sharded_inv s → shards s !! home id s = Some e →
  ∃ s', complete_lease clk c s = Some ((Engine.complete_lease clk c e).1, s') ∧ sharded_inv s' ∧
    shards s' = <[home id s := (Engine.complete_lease clk c e).2]> (shards s).
Proof.
  intros id Hs Hi.
  destruct (write_section_spec (cl_namespace c) (cl_key c) (Engine.complete_lease clk c) s e)
    as (rem & Heq & Hrem); [done|].
  unfold complete_lease. rewrite Heq. simpl. eexists. split; [reflexivity|].
  pose proof (si_shards s Hs _ _ Hi) as Hok.
  pose proof (complete_lease_inv clk c e (so_inv _ _ _ Hok)) as Hinv.
  pose proof (complete_lease_evolves clk c e (so_inv _ _ _ Hok)) as Hev.
  destruct (Engine.complete_lease clk c e) as [r e']. simpl in *. split.
  - eapply write_sections_inv; [done|exact Hi|done|exact Hev|by intros j ->|].
    intros t j Ht. apply has_tag_id_false; auto.
  - by rewrite update_tag_routes_shards.
Qed.

Lemma delete_spec ns key s e :
  let id := EntryId_new ns key in
  sharded_inv s → shards s !! home id s = Some e →
  ∃ s', delete ns key s = Some ((Engine.delete ns key e).1, s') ∧ sharded_inv s' ∧
    shards s' = <[home id s := (Engine.delete ns key e).2]> (shards s).
Proof.
  intros id Hs Hi. destruct (write_section_spec ns key (Engine.delete ns key) s e)
    as (rem & Heq & Hrem); [done|].
  unfold delete. rewrite Heq. simpl. eexists. split; [reflexivity|].
  pose proof (si_shards s Hs _ _ Hi) as Hok.
  pose proof (delete_inv ns key e (so_inv _ _ _ Hok)) as Hinv.
  pose proof (delete_evolves ns key e) as Hev.
  destruct (Engine.delete ns key e) as [[] e']; simpl in *.
  - split; [|by rewrite update_tag_routes_shards].
    apply (write_sections_inv _ _ e _ nothing); [done..| |by intros j []|].
    + eapply evolves_weaken; [| |exact Hev]; [done | by intros t []].
    + intros t j Ht. apply has_tag_id_false; auto.
  - split; [|done]. by eapply store_shard_inv; [..|exact Hev|intros j []].
Qed.

(** The operations that do not touch the directory. *)
Lemma local_spec {A} (f : Engine → A * Engine) id X s e :
  sharded_inv s → shards s !! home id s = Some e →
  engine_inv (f e).2 → evolves X nothing e (f e).2 → (∀ j, X j → j = id) →
  ∃ s', with_shard (home id s) f s = Some ((f e).1, s') ∧ sharded_inv s' ∧
    shards s' = <[home id s := (f e).2]> (shards s).
Proof.
  intros Hs Hi Hinv Hev HX. rewrite (with_shard_spec _ f s e Hi). eexists.
  split; [reflexivity|]. split; [|done].
  eapply store_shard_inv; [done|exact Hi|done|exact Hev|]. intros j Hj. by rewrite (HX j Hj).
Qed.

(** ** Operations on several shards *)

Lemma shards_inv s es :
  sharded_inv s →
  Forall2 (λ e e', engine_inv e' ∧ evolves nothing nothing e e') (shards s) es →
  sharded_inv (set_shards es s).
Proof.
  intros [H1 H2 H3 H4 H5] Hes. pose proof (Forall2_length Hes) as Hlen.
  split; simpl; [| | | by rewrite <- Hlen | done].
  - intros ->. by destruct (shards s).
  - intros i e' Hi. destruct (Forall2_lookup_r _ _ _ _ _ Hes Hi) as (e & He & Hinv & Hev).
    apply (shard_ok_ext s); [done | done |].
    by eapply evolves_shard_ok; [apply H2|exact Hev|done|intros j []].
  - intros i e' Hi. destruct (Forall2_lookup_r _ _ _ _ _ Hes Hi) as (e & He & _ & Hev).
    intros tid id Ht. destruct (ev_tagged _ _ _ _ Hev tid id Ht) as [Ht'|[]]. by eapply H3.
Qed.

Lemma drop_route_inv s tid :
  sharded_inv s → (∀ i e id, shards s !! i = Some e → ¬ tagged (entries e) tid id) →
  sharded_inv (set_tag_directory (base.delete tid (tag_directory s)) s).
Proof.
  intros [H1 H2 H3 H4 H5] Hno. split; simpl; [done | | | |].
  - intros i e Hi. by apply (shard_ok_ext s); [..|apply H2].
  - intros i e Hi t id Ht. simpl. rewrite lookup_delete. case_decide as Hd; [|by eapply H3].
    subst t. by destruct (Hno i e id Hi).
  - intros t i. rewrite lookup_delete. case_decide; [set_solver|]. apply H4.
  - intros t. rewrite lookup_delete. by case_decide.
Qed.

Lemma sum_store f i e e' s :
  shards s !! i = Some e → sum_shards f (store_shard i e' s) + f e = sum_shards f s + f e'.
Proof.
  unfold sum_shards, store_shard. simpl. generalize (shards s). intros l. revert i.
  induction l as [|x l IH]; intros [|i] Hi; simpl in *; simplify_eq; [lia|].
  specialize (IH i Hi). lia.
Qed.

(** The loop over the routed shards invalidates exactly those. *)
Lemma invalidate_shards_spec ns tag ixs s :
  NoDup ixs → (∀ i, i ∈ ixs → (i < length (shards s))%nat) →
  (∀ i e, shards s !! i = Some e → engine_inv e) →
  ∃ n s', invalidate_shards ns tag ixs s = Some (n, s') ∧
    s' = set_shards (shards s') s ∧
    (∀ i, shards s' !! i =
      (λ e, if decide (i ∈ ixs) then (Engine.invalidate_tag ns tag e).2 else e) <$> shards s !! i) ∧
    n + len_entries s' = len_entries s.
Proof.
  revert s. induction ixs as [|i ixs IH]; intros s Hnd Hlt Hinv; simpl.
  - exists 0, s. split_and!; [done | by destruct s | | lia].
    intros i. destruct (shards s !! i); [|done]. done.
  - apply list.NoDup_cons in Hnd as [Hni Hnd].
    destruct (lookup_lt_is_Some_2 (shards s) i) as [e He]; [apply Hlt; set_solver|].
    rewrite (with_shard_spec _ _ _ e He). simpl.
    set (s1 := store_shard i _ s).
    assert (length (shards s1) = length (shards s)) as Hlen by apply length_insert.
    destruct (IH s1) as (n & s' & Heq & Hs' & Hlook & Hn); [done| | |].
    + intros j Hj. rewrite Hlen. apply Hlt. set_solver.
    + intros j x Hx. apply (store_shard_lookup i e) in Hx as [[_ ->]|[_ Hx]]; [| |done].
      * apply invalidate_tag_inv. by eapply Hinv.
      * by eapply Hinv.
    + rewrite Heq. simpl. eexists _, s'. split_and!; [reflexivity | by rewrite Hs' | |].
      * intros j. rewrite Hlook. unfold s1, store_shard. simpl. destruct (decide (j = i)) as [->|Hj].
        -- rewrite list_lookup_insert_eq by (by eapply lookup_lt_Some). rewrite He. simpl.
           rewrite decide_False by done. rewrite decide_True by set_solver. done.
        -- rewrite list_lookup_insert_ne by done. destruct (shards s !! j); [|done]. simpl.
           f_equal. by do 2 case_decide; set_solver.
      * pose proof (sum_store Engine.len_entries i e (Engine.invalidate_tag ns tag e).2 s He) as Hsum.
        destruct (invalidate_tag_entries ns tag e (Hinv i e He)) as [_ Hcount].
        unfold len_entries in *. fold s1 in Hsum. unfold Engine.len_entries in *. lia.
Qed.

Lemma invalidate_unrouted ns tag s i e :
  sharded_inv s → shards s !! i = Some e →
  i ∉ default ∅ (tag_directory s !! tag_id ns tag) →
  Engine.invalidate_tag ns tag e = (0, e).
Proof.
  intros Hs Hi Hr. unfold Engine.invalidate_tag.
  destruct (inv_tags e (so_inv _ _ _ (si_shards s Hs i e Hi)) (tag_id ns tag)) as [Hin Hne].
  destruct (tag_index e !! tag_id ns tag) as [ids|] eqn:E; [|done]. exfalso.
  assert (ids ≠ ∅) as Hids by congruence.
  apply set_choose_L in Hids as [id Hid]. apply Hr. eapply (si_routes s Hs i e Hi).
  apply Hin. exact Hid.
Qed.

Lemma invalidated_none ns tag e id :
  engine_inv e → ¬ tagged (entries (Engine.invalidate_tag ns tag e).2) (tag_id ns tag) id.
Proof.
  intros Hinv (en & Hen & Hns & Ht).
  rewrite (proj1 (invalidate_tag_entries ns tag e Hinv)) in Hen.
  apply map_lookup_filter_Some in Hen as [Hen Hnot]. apply Hnot. exists en. auto.
Qed.
End invariant.
End ShardedInv.
