(* ===== verification/ShardedSpec.v ===== *)
(** * ShardedSpec: the sharded engine as one cache

    The sharded engine as a state machine: reachable states satisfy the
    invariant and no operation panics; an operation on a key is the engine's
    operation on the shard of that key; invalidation through the tag directory
    equals a scan of every shard; the memory bound and cleanup across shards. *)

From S2P Require Import Prelude Bytes Protocol Engine EngineInv EnginePut EngineOps Sharded.
From S2P Require Import ShardedInv.

Module ShardedSpec.
Import Engine EngineInv EnginePut EngineOps Sharded ShardedInv.

(** ** Replies, for one engine and for the sharded one *)

Inductive Reply :=
| RpPut (r : result PutOutcome PutError)
| RpGet (o : GetOutcome)
| RpBatch (os : list GetOutcome)
| RpDeleted (b : bool)
| RpRemoved (n : N)
| RpLease (o : StartLeaseOutcome)
| RpComplete (r : result PutOutcome CompleteLeaseError).

Definition rmap {A B S} (f : A → B) (p : A * S) : B * S := (f p.1, p.2).

Section machine.
Context `{HashOrder, ShardEnv}.

(** The calls on a single key, on one engine. *)
Definition engine_reply (clk : Clock) (op : Op) (e : Engine) : Reply * Engine :=
  match op with
  | OpPut c => rmap RpPut (Engine.put clk c e)
  | OpGet ns key true => rmap RpGet (Engine.get_ref clk ns key e)
  | OpGet ns key false => rmap RpGet (Engine.get_ref_without_access_update clk ns key e)
  | OpBatchGet ns keys => rmap RpBatch (Engine.batch_get clk ns keys e)
  | OpDelete ns key => rmap RpDeleted (Engine.delete ns key e)
  | OpInvalidateTag ns tag => rmap RpRemoved (Engine.invalidate_tag ns tag e)
  | OpStartLease ns key ttl => rmap RpLease (Engine.start_lease clk ns key ttl e)
  | OpCompleteLease c => rmap RpComplete (Engine.complete_lease clk c e)
  | OpReclaim n => rmap RpRemoved (Engine.reclaim_expired_budget clk n e)
  end.

Definition sharded_reply (clk : Clock) (op : Op) (s : ShardedEngine) :
    option (Reply * ShardedEngine) :=
  match op with
  | OpPut c => rmap RpPut <$> put clk c s
  | OpGet ns key true => rmap RpGet <$> get_ref clk ns key s
  | OpGet ns key false => rmap RpGet <$> get_ref_without_access_update clk ns key s
  | OpBatchGet ns keys => rmap RpBatch <$> batch_get clk ns keys s
  | OpDelete ns key => rmap RpDeleted <$> delete ns key s
  | OpInvalidateTag ns tag => rmap RpRemoved <$> invalidate_tag ns tag s
  | OpStartLease ns key ttl => rmap RpLease <$> start_lease clk ns key ttl s
  | OpCompleteLease c => rmap RpComplete <$> complete_lease clk c s
  | OpReclaim n => Some (rmap RpRemoved (reclaim_expired_budget clk n s))
  end.

(** The key an operation is about. *)
Definition op_key (op : Op) : option EntryId :=
  match op with
  | OpPut c => Some (command_id c)
  | OpGet ns key _ | OpDelete ns key | OpStartLease ns key _ => Some (EntryId_new ns key)
  | OpCompleteLease c => Some (EntryId_new (cl_namespace c) (cl_key c))
  | OpBatchGet _ _ | OpInvalidateTag _ _ | OpReclaim _ => None
  end.

Inductive sstep : ShardedEngine → ShardedEngine → Prop :=
| sstep_call clk op s r s' : sharded_reply clk op s = Some (r, s') → sstep s s'.

(** ** Keyed operations *)

Lemma keyed_spec clk op id s :
  sharded_inv s → op_key op = Some id →
  ∃ e s', shards s !! home id s = Some e ∧
    sharded_reply clk op s = Some ((engine_reply clk op e).1, s') ∧ sharded_inv s' ∧
    shards s' = <[home id s := (engine_reply clk op e).2]> (shards s).
Proof.
  intros Hs Hop. destruct (home_in_range id s (si_nonempty s Hs)) as [e He].
  pose proof (so_inv _ _ _ (si_shards s Hs _ _ He)) as Hinv. exists e.
  destruct op as [c|ns key u|ns keys|ns key|ns tag|ns key ttl|c|n]; simplify_eq/=.
  - destruct (sharded_put_spec clk c s e Hs He) as (s' & -> & Hs' & Hsh). by exists s'.
  - assert (∀ u, ∃ s', with_shard (home (EntryId_new ns key) s)
        (λ e, Engine.get_ref_inner clk ns key u e) s
      = Some ((Engine.get_ref_inner clk ns key u e).1, s') ∧ sharded_inv s' ∧
        shards s' = <[home (EntryId_new ns key) s := (Engine.get_ref_inner clk ns key u e).2]>
          (shards s)) as Hg.
    { intros v. apply (local_spec _ _ nothing); auto using get_ref_inner_inv, get_evolves.
      by intros j []. }
    destruct (Hg u) as (s' & Heq & Hs' & Hsh). exists s'. split; [done|].
    destruct u; (split_and!; [|done|done]);
      unfold get_ref, get_ref_without_access_update; exact (f_equal (fmap (rmap RpGet)) Heq).
  - destruct (delete_spec ns key s e Hs He) as (s' & -> & Hs' & Hsh). by exists s'.
  - destruct (local_spec (Engine.start_lease clk ns key ttl) (EntryId_new ns key)
      (only (EntryId_new ns key)) s e) as (s' & Heq & Hs' & Hsh);
      auto using start_lease_inv, start_lease_evolves.
    exists s'. split_and!; [done| |done|done]. exact (f_equal (fmap (rmap RpLease)) Heq).
  - destruct (complete_lease_spec clk c s e Hs He) as (s' & -> & Hs' & Hsh). by exists s'.
Qed.

Lemma get_ok clk ns key s :
  sharded_inv s → ∃ o s', get clk ns key s = Some (o, s') ∧ sharded_inv s'.
Proof.
  intros Hs. destruct (keyed_spec clk (OpGet ns key true) _ s Hs eq_refl)
    as (e & s' & _ & Heq & Hs' & _). simpl in Heq.
  change (get clk ns key s) with (get_ref clk ns key s).
  apply fmap_Some in Heq as ([o s''] & Heq & Heq'). exists o, s''.
  split; [exact Heq|]. by injection Heq' as _ <-.
Qed.

Lemma batch_get_ok clk ns keys s :
  sharded_inv s → ∃ os s', batch_get clk ns keys s = Some (os, s') ∧ sharded_inv s' ∧
    length os = length keys.
Proof.
  revert clk s. induction keys as [|key keys IH]; intros clk s Hs; simpl; [by eauto|].
  destruct (get_ok clk ns key s Hs) as (o & s1 & -> & Hs1). simpl.
  destruct (IH (clock_after 1 clk) s1 Hs1) as (os & s2 & -> & Hs2 & Hl). simpl.
  eexists _, _. split_and!; [reflexivity | done | simpl; lia].
Qed.

(** ** Invalidation *)

Lemma invalidate_spec ns tag s :
  sharded_inv s →
  ∃ n s', invalidate_tag ns tag s = Some (n, s') ∧ sharded_inv s' ∧
    shards s' = (λ e, (Engine.invalidate_tag ns tag e).2) <$> shards s ∧
    n + len_entries s' = len_entries s.
Proof.
  intros Hs. unfold invalidate_tag, take_route.
  set (ixs := default [] _). set (s0 := set_tag_directory _ s).
  assert (∀ i, i ∈ ixs ↔ i ∈ default ∅ (tag_directory s !! tag_id ns tag)) as Hixs.
  { intros i. unfold ixs. destruct (tag_directory s !! _); simpl; [|set_solver].
    by rewrite shards_iter_perm, elem_of_elements. }
  assert (NoDup ixs) as Hnd.
  { unfold ixs. destruct (tag_directory s !! _); simpl; [|constructor].
    rewrite shards_iter_perm. apply NoDup_elements. }
  destruct (invalidate_shards_spec ns tag ixs s0) as (n & s' & Heq & Hs' & Hlook & Hn);
    [done | intros i Hi%Hixs; by eapply (si_range s Hs) |
     intros i e Hi; exact (so_inv _ _ _ (si_shards s Hs i e Hi)) |].
  assert (shards s' = (λ e, (Engine.invalidate_tag ns tag e).2) <$> shards s) as Hsh.
  { apply list_eq. intros i. rewrite Hlook, list_lookup_fmap. simpl.
    destruct (shards s !! i) as [e|] eqn:E; [|done]. simpl. f_equal. case_decide as Hd; [done|].
    rewrite (invalidate_unrouted ns tag s i e); [done..|]. by rewrite <- Hixs. }
  exists n, s'. split_and!; [done | | done | done].
  rewrite Hs', Hsh.
  refine (drop_route_inv
    (set_shards ((λ e, (Engine.invalidate_tag ns tag e).2) <$> shards s) s) (tag_id ns tag) _ _).
  - apply shards_inv; [done|]. apply Forall2_fmap_r, Forall_Forall2_diag, Forall_lookup.
    intros i e Hi. pose proof (so_inv _ _ _ (si_shards s Hs i e Hi)).
    auto using invalidate_tag_inv, invalidate_evolves.
  - intros i e' id. cbn [shards set_shards]. rewrite list_lookup_fmap. 
    intros (e & He & ->)%fmap_Some_1.
    apply invalidated_none. exact (so_inv _ _ _ (si_shards s Hs i e He)).
Qed.

(** ** Cleanup across shards *)

Definition total (es : list Engine) : N := foldr (λ e acc, Engine.len_entries e + acc) 0 es.

Lemma reclaim_shards_spec clk rem r es :
  Forall engine_inv es →
  let '(r', es') := reclaim_shards clk rem r es in
  Forall2 (λ e e', engine_inv e' ∧ evolves nothing nothing e e') es es' ∧
  r' + total es' = r + total es ∧ r ≤ r' ≤ r + rem ∧
  (r' < r + rem → ∀ i e', es' !! i = Some e' →
     ∀ k, k ∈ expiry_index e' → clk i < xk_expires_at_ms k).
Proof.
  revert clk rem r. induction es as [|e es IH]; intros clk rem r Hinv; simpl.
  - split_and!; [constructor | done | lia | lia | done].
  - apply Forall_cons_1 in Hinv as [He Hes]. destruct (N.eqb_spec rem 0) as [->|Hrem].
    + split_and!; [|done|lia|lia|lia].
      apply Forall_Forall2_diag. constructor; [by split; [|apply evolves_refl]|].
      eapply Forall_impl; [|exact Hes]. intros x Hx. split; [done|apply evolves_refl].
    + pose proof (remove_expired_inv clk rem e He) as Hi1.
      pose proof (reclaim_evolves clk rem e) as Hev.
      destruct (remove_expired_budget clk rem e He) as (Hle & Hsum & Hleft).
      unfold Engine.reclaim_expired_budget in *. destruct (remove_expired clk rem e) as [n e1].
      specialize (IH (clock_after 1 clk) (rem -| n) (r + n) Hes).
      destruct (reclaim_shards _ _ _ es) as [r' es']. unfold sat_sub in IH.
      destruct IH as (IH1 & IH2 & [IH3 IH3'] & IH4). cbn [fst snd] in *. split_and!.
      * by constructor.
      * unfold total, Engine.len_entries in *. simpl in *. lia.
      * lia.
      * lia.
      * intros Hlt [|i] e' Hi; simpl in Hi.
        -- injection Hi as <-. apply Hleft. lia.
        -- apply (IH4 ltac:(lia) i e' Hi).
Qed.

Lemma reclaim_inv clk n s : sharded_inv s → sharded_inv (reclaim_expired_budget clk n s).2.
Proof.
  intros Hs. unfold reclaim_expired_budget. destruct (_ =? _); [done|].
  assert (Forall engine_inv (shards s)) as Hall.
  { apply Forall_lookup. intros i e Hi. exact (so_inv _ _ _ (si_shards s Hs i e Hi)). }
  pose proof (reclaim_shards_spec clk n 0 (shards s) Hall) as Hr.
  destruct (reclaim_shards clk n 0 (shards s)) as [r es].
  apply shards_inv; [done | apply Hr].
Qed.

(** ** Every call *)

Lemma sharded_reply_ok clk op s :
  sharded_inv s → ∃ r s', sharded_reply clk op s = Some (r, s') ∧ sharded_inv s'.
Proof.
  intros Hs. destruct (op_key op) as [id|] eqn:Hop.
  { destruct (keyed_spec clk op id s Hs Hop) as (e & s' & _ & Heq & Hs' & _). eauto. }
  destruct op as [c|ns key u|ns keys|ns key|ns tag|ns key ttl|c|n]; try done; simpl.
  - destruct (batch_get_ok clk ns keys s Hs) as (os & s' & -> & Hs' & _). simpl. eauto.
  - destruct (invalidate_spec ns tag s Hs) as (n & s' & -> & Hs' & _). simpl. eauto.
  - eexists _, _. split; [reflexivity|]. by apply reclaim_inv.
Qed.

Lemma div_ceil_le a b : b ≠ 0 → div_ceil a b ≤ a.
Proof.
  intros Hb. unfold div_ceil. apply N.lt_succ_r, N.Div0.div_lt_upper_bound. nia.
Qed.

Lemma sharded_new_inv lim n s :
  max_memory_bytes lim < USIZE_MAX → with_clock_and_limits lim n = Some s → sharded_inv s.
Proof.
  intros Hlim. unfold with_clock_and_limits. case_bool_decide as Hn; [done|].
  intros [= <-]. split; simpl.
  - by destruct n.
  - intros i e [-> Hi]%lookup_replicate. split; simpl.
    + apply new_inv. simpl. pose proof (div_ceil_le (max_memory_bytes lim) (N.of_nat n)). lia.
    + by rewrite length_replicate.
    + intros id [x Hx]. by rewrite lookup_empty in Hx.
    + intros id [x Hx]. by rewrite lookup_empty in Hx.
  - intros i e [-> Hi]%lookup_replicate tid id (en & Hen & _).
    simpl in Hen. by rewrite lookup_empty in Hen.
  - intros tid i. rewrite lookup_empty. set_solver.
  - intros tid. by rewrite lookup_empty.
Qed.
End machine.

(** The cache the shards make up: the entry stored for a key. *)
Definition slookup `{ShardEnv} (id : EntryId) (s : ShardedEngine) : option Entry :=
  e ← shards s !! home id s; entries e !! id.

(** ** A concrete environment for the witnesses *)

(** The key as a number: two shards split the keys by parity. *)
Definition demo_env : ShardEnv := {|
  hash64 ns key := from_be_bytes key;
  shards_iter := elements;
  shards_iter_perm s := Permutation_refl _
|}.

Definition demo_sharded_limits : EngineLimits :=
  {| max_memory_bytes := 801; max_value_bytes := 64 |}.

Definition demo_new : ShardedEngine :=
  {| shards := replicate 2 (Engine.with_clock_and_limits
       (shard_limits demo_sharded_limits 2));
     tag_directory := ∅; sh_limits := demo_sharded_limits |}.

Definition demo_put (key : string) (tags : list string) : PutCommand :=
  {| pc_namespace := "default"; pc_key := as_bytes key; pc_value := as_bytes "v";
     pc_ttl := None; pc_stale_ttl := None; pc_tags := tags; pc_cost := None |}.

(** The state after a sequence of calls, if none panics. *)
Definition srun `{HashOrder, ShardEnv} (tr : list (Clock * Op)) (s : ShardedEngine) :
    option ShardedEngine :=
  foldl (λ o p, s ← o; snd <$> sharded_reply p.1 p.2 s) (Some s) tr.

Lemma srun_reachable `{HashOrder, ShardEnv} tr s s' : srun tr s = Some s' → rtc sstep s s'.
Proof.
  assert (∀ tr o s', foldl (λ o p, s ← o; snd <$> sharded_reply p.1 p.2 s) o tr = Some s' →
    ∃ s, o = Some s ∧ rtc sstep s s') as Hgen.
  { clear. intros tr. induction tr as [|[clk op] tr IH]; intros o s' Htr; simpl in Htr.
    - exists s'. split; [done|apply rtc_refl].
    - apply IH in Htr as (s1 & Hs1 & Hr). destruct o as [s|]; [|done]. exists s.
      split; [done|]. simpl in Hs1. apply fmap_Some in Hs1 as ([r s2] & Hs2 & ->).
      eapply rtc_l; [|exact Hr]. by eapply sstep_call. }
  intros Htr. destruct (Hgen tr (Some s) s' Htr) as (s1 & [= ->] & Hr). done.
Qed.

(** Two shards, three entries, two of them tagged ["t"], one in each shard. *)
Definition demo_trace : list (Clock * Op) :=
  [(manual_clock 10, OpPut (demo_put "a" ["t"%string]));
   (manual_clock 11, OpPut (demo_put "b" ["t"%string]));
   (manual_clock 12, OpPut (demo_put "c" []))].

Definition demo_sharded : ShardedEngine :=
  default demo_new (@srun canonical_order demo_env demo_trace demo_new).

Lemma demo_sharded_reachable : rtc (@sstep canonical_order demo_env) demo_new demo_sharded.
Proof.
  apply (@srun_reachable canonical_order demo_env demo_trace). unfold demo_sharded.
  assert (bool_decide (is_Some (@srun canonical_order demo_env demo_trace demo_new)) = true)
    as Hsome by (vm_compute; reflexivity).
  by destruct (@srun canonical_order demo_env demo_trace demo_new).
Qed.

(** ** Claims *)

Lemma sreachable_inv `{HashOrder, ShardEnv} lim n s0 s :
  max_memory_bytes lim < USIZE_MAX → with_clock_and_limits lim n = Some s0 →
  rtc sstep s0 s → sharded_inv s.
Proof.
  intros Hlim Hnew Hr. pose proof (sharded_new_inv lim n s0 Hlim Hnew) as H0inv.
  apply (rtc_ind_r sharded_inv _ H0inv) in Hr; [done|].
  intros s1 s2 _ [clk op s3 r s4 Heq] IH.
  destruct (sharded_reply_ok clk op s3 IH) as (r' & s' & Heq' & Hs'). congruence.
Qed.

(** The number of shards and the limits never change. *)
Definition same_shape (s s' : ShardedEngine) : Prop :=
  length (shards s') = length (shards s) ∧ sh_limits s' = sh_limits s.

#[export] Instance same_shape_preorder : PreOrder same_shape.
Proof. split; [by intros ? | intros s1 s2 s3 [] []; split; congruence]. Qed.

Section shape.
Context `{HashOrder, ShardEnv}.

Lemma with_shard_shape {A} i (f : Engine → A * Engine) s a s' :
  with_shard i f s = Some (a, s') → same_shape s s'.
Proof.
  unfold with_shard. intros Heq. apply bind_Some in Heq as (e & _ & Heq).
  destruct (f e). simplify_eq. split; [apply length_insert | done].
Qed.

Lemma update_routes_shape i add rem s : same_shape s (update_tag_routes i add rem s).
Proof. split; [by rewrite update_tag_routes_shards | apply update_tag_routes_limits]. Qed.

Lemma batch_get_shape clk ns keys s os s' :
  batch_get clk ns keys s = Some (os, s') → same_shape s s'.
Proof.
  revert clk s os. induction keys as [|key keys IH]; intros clk s os; simpl; [by intros [= _ <-]|].
  intros ([o s1] & Hg & ([os' s2] & Hb & Heq)%bind_Some)%bind_Some. simplify_eq.
  etrans; [by eapply with_shard_shape | by eapply IH].
Qed.

Lemma invalidate_shards_shape ns tag ixs s n s' :
  invalidate_shards ns tag ixs s = Some (n, s') → same_shape s s'.
Proof.
  revert s n. induction ixs as [|i ixs IH]; intros s n; simpl; [by intros [= _ <-]|].
  intros ([o s1] & Hg & ([os' s2] & Hb & Heq)%bind_Some)%bind_Some. simplify_eq.
  etrans; [by eapply with_shard_shape | by eapply IH].
Qed.

Lemma reclaim_shards_length clk rem r es :
  length (reclaim_shards clk rem r es).2 = length es.
Proof.
  revert clk rem r. induction es as [|e es IH]; intros clk rem r; simpl; [done|].
  destruct (_ =? _); [done|]. destruct (Engine.reclaim_expired_budget clk rem e) as [n e1].
  specialize (IH (clock_after 1 clk) (rem -| n) (r + n)).
  destruct (reclaim_shards _ _ _ es). simpl in *. lia.
Qed.

Lemma sharded_reply_shape clk op s r s' :
  sharded_reply clk op s = Some (r, s') → same_shape s s'.
Proof.
  destruct op as [c|ns key []|ns keys|ns key|ns tag|ns key ttl|c|n]; simpl; intros Heq;
    try (apply fmap_Some in Heq as ([a s1] & Heq & Hr); injection Hr as _ ->).
  - apply bind_Some in Heq as ([[a1 a2] s2] & Hw%with_shard_shape & Heq). simplify_eq/=.
    etrans; [exact Hw | apply update_routes_shape].
  - by eapply with_shard_shape.
  - by eapply with_shard_shape.
  - by eapply batch_get_shape.
  - apply bind_Some in Heq as ([[a1 a2] s2] & Hw%with_shard_shape & Heq). simplify_eq/=.
    etrans; [exact Hw|]. case_match; [apply update_routes_shape | reflexivity].
  - exact (invalidate_shards_shape _ _ _ _ _ _ Heq).
  - by eapply with_shard_shape.
  - apply bind_Some in Heq as ([[a1 a2] s2] & Hw%with_shard_shape & Heq). simplify_eq/=.
    etrans; [exact Hw | apply update_routes_shape].
  - injection Heq as _ <-. unfold reclaim_expired_budget. destruct (_ =? _); [done|].
    pose proof (reclaim_shards_length clk n 0 (shards s)). by destruct (reclaim_shards _ _ _ _).
Qed.

Lemma sreachable_shape lim n s0 s :
  with_clock_and_limits lim n = Some s0 → rtc sstep s0 s →
  length (shards s) = n ∧ sh_limits s = lim ∧ n ≠ 0%nat.
Proof.
  intros Hnew Hr. unfold with_clock_and_limits in Hnew. case_bool_decide; [done|].
  injection Hnew as <-. apply (rtc_ind_r (same_shape _) _ (reflexivity _)) in Hr.
  - destruct Hr as [Hl Hlim]. simpl in *. by rewrite length_replicate in Hl.
  - intros s1 s2 _ [clk op s3 r s4 Heq] IH. etrans; [exact IH | by eapply sharded_reply_shape].
Qed.
End shape.

Lemma demo_sharded_inv : @sharded_inv demo_env demo_sharded.
Proof.
  apply (@sreachable_inv canonical_order demo_env demo_sharded_limits 2 demo_new);
    [done | done | apply demo_sharded_reachable].
Qed.

(** C6: the sharded engine used by one caller at a time.  Created with [n]
    shards and a memory limit below [usize::MAX], in every state it reaches by
    any sequence of whole calls, at any clocks and iteration orders, every shard
    satisfies the engine invariant and holds only keys that hash to it, the
    directory routes every tag to all the shards that hold it, and no call of
    any operation panics. *)
Theorem sharded_reachable_inv `{HashOrder, ShardEnv} lim n s0 s :
  max_memory_bytes lim < USIZE_MAX → with_clock_and_limits lim n = Some s0 →
  rtc sstep s0 s →
  sharded_inv s ∧ ∀ clk op, is_Some (sharded_reply clk op s).
Proof.
  intros Hlim Hnew Hr. pose proof (sreachable_inv lim n s0 s Hlim Hnew Hr) as Hs.
  split; [done|]. intros clk op. destruct (sharded_reply_ok clk op s Hs) as (r & s' & -> & _). eauto.
Qed.

Lemma sharded_reachable_inv_witness : @sharded_inv demo_env demo_sharded.
Proof.
  apply (@sharded_reachable_inv canonical_order demo_env demo_sharded_limits 2 demo_new);
    [done | done | apply demo_sharded_reachable].
Defined.

(** C11: routed invalidation is exact.  In a state that satisfies the invariant,
    routes included, taking the shards from the tag directory has the effect of
    invalidating the tag in every shard: exactly the entries that carry the tag
    in the namespace disappear, all others stay, and the number returned is the
    number of entries removed. *)
Theorem sharded_invalidate_exact `{HashOrder, ShardEnv} ns tag s :
  sharded_inv s →
  ∃ n s', invalidate_tag ns tag s = Some (n, s') ∧
    shards s' = (λ e, (Engine.invalidate_tag ns tag e).2) <$> shards s ∧
    n + len_entries s' = len_entries s ∧
    ∀ id, slookup id s' =
      match slookup id s with
      | Some en => if decide (eid_namespace id = ns ∧ tag ∈ e_tags en) then None else Some en
      | None => None
      end.
Proof.
  intros Hs. destruct (invalidate_spec ns tag s Hs) as (n & s' & Heq & _ & Hsh & Hn).
  exists n, s'. split_and!; [done..|]. intros id. unfold slookup.
  assert (home id s' = home id s) as -> by (apply home_length; by rewrite Hsh, length_fmap).
  rewrite Hsh, list_lookup_fmap.
  destruct (home_in_range id s (si_nonempty s Hs)) as [e He]. rewrite He. simpl.
  rewrite (proj1 (invalidate_tag_entries ns tag e (so_inv _ _ _ (si_shards s Hs _ e He)))).
  destruct (entries e !! id) as [en|] eqn:E.
  - case_decide as Hd.
    + apply map_lookup_filter_None. right. intros x Hx. simpl. intros Hnot. apply Hnot.
      exists en. done.
    + apply map_lookup_filter_Some. split; [done|]. simpl. intros (x & Hx & H1 & H2).
      apply Hd. split; [done|]. simpl in H2. congruence.
  - apply map_lookup_filter_None. by left.
Qed.

Lemma sharded_invalidate_exact_witness :
  ∃ n s', @invalidate_tag canonical_order demo_env "default" "t" demo_sharded = Some (n, s') ∧
    n + len_entries s' = 3.
Proof.
  destruct (@sharded_invalidate_exact canonical_order demo_env "default" "t" demo_sharded
    demo_sharded_inv) as (n & s' & Heq & _ & Hn & _).
  exists n, s'. split; [exact Heq|]. rewrite Hn. vm_compute. reflexivity.
Defined.

(** Cleanup across shards.  [reclaim_expired_budget max] removes at most
    [max] entries in all, returns the number removed, and leaves a due entry in
    some shard only when the budget is used up. *)
Theorem sharded_reclaim_budget `{HashOrder, ShardEnv} clk m s :
  sharded_inv s →
  let '(n, s') := reclaim_expired_budget clk m s in
  n ≤ m ∧ n + len_entries s' = len_entries s ∧
  (n < m → ∀ i e, shards s' !! i = Some e →
     ∀ k, k ∈ expiry_index e → clk i < xk_expires_at_ms k).
Proof.
  intros Hs. unfold reclaim_expired_budget. destruct (N.eqb_spec m 0) as [->|Hm].
  { split_and!; [done | done | lia]. }
  assert (Forall engine_inv (shards s)) as Hall.
  { apply Forall_lookup. intros i e Hi. exact (so_inv _ _ _ (si_shards s Hs i e Hi)). }
  pose proof (reclaim_shards_spec clk m 0 (shards s) Hall) as Hr.
  destruct (reclaim_shards clk m 0 (shards s)) as [r es].
  destruct Hr as (_ & Hsum & [_ Hle] & Hleft). split_and!; [lia | | done].
  unfold len_entries, sum_shards, total in *. simpl. lia.
Qed.

Lemma sharded_reclaim_budget_witness :
  let '(n, s') := reclaim_expired_budget (manual_clock 50) 2 demo_sharded in
  n ≤ 2 ∧ n + len_entries s' = 3.
Proof.
  pose proof (@sharded_reclaim_budget canonical_order demo_env (manual_clock 50) 2 demo_sharded
    demo_sharded_inv) as Hw.
  destruct (reclaim_expired_budget (manual_clock 50) 2 demo_sharded) as [n s'].
  destruct Hw as (H1 & H2 & _). split; [exact H1|]. rewrite H2. vm_compute. reflexivity.
Defined.

(** ** Memory *)

Lemma sum_shards_le (f : Engine → N) c s :
  (∀ i e, shards s !! i = Some e → f e ≤ c) → sum_shards f s ≤ len (shards s) * c.
Proof.
  unfold sum_shards. generalize (shards s). intros l.
  induction l as [|e l IH]; intros Hl; [by vm_compute|]. simpl. rewrite len_cons.
  specialize (IH (λ i x Hx, Hl (S i) x Hx)). specialize (Hl O e eq_refl). lia.
Qed.

Lemma div_ceil_mul a b : b ≠ 0 → b * div_ceil a b ≤ a + (b - 1).
Proof.
  intros Hb. unfold div_ceil. pose proof (N.Div0.mul_div_le (a + b - 1) b). lia.
Qed.

(** In a consistent state the bytes charged are within the limits of the
    shards, which exceed the configured limit by less than their number. *)
Lemma inv_memory_bounded `{HashOrder, ShardEnv} s :
  sharded_inv s →
  memory_used_bytes s ≤
    len (shards s) * max_memory_bytes (shard_limits (sh_limits s) (length (shards s))) ∧
  memory_used_bytes s ≤ max_memory_bytes (sh_limits s) + (len (shards s) - 1).
Proof.
  intros Hs. assert (memory_used_bytes s ≤
    len (shards s) * max_memory_bytes (shard_limits (sh_limits s) (length (shards s)))) as Hle.
  { apply sum_shards_le. intros i e Hi. pose proof (si_shards s Hs i e Hi) as Hok.
    rewrite <- (so_limits _ _ _ Hok). apply (acc_limit e (inv_accounts e (so_inv _ _ _ Hok))). }
  split; [done|]. etrans; [exact Hle|]. unfold shard_limits. cbn [max_memory_bytes].
  apply div_ceil_mul. pose proof (si_nonempty s Hs). destruct (shards s); [done|]. rewrite len_cons. lia.
Qed.

(** Memory across shards.  The bytes charged are at most the number of
    shards times the limit of a shard, which exceeds the configured limit by
    less than the number of shards (the division rounds up). *)
Theorem sharded_memory_bounded `{HashOrder, ShardEnv} lim n s0 s :
  max_memory_bytes lim < USIZE_MAX → with_clock_and_limits lim n = Some s0 →
  rtc sstep s0 s →
  memory_used_bytes s ≤ N.of_nat n * max_memory_bytes (shard_limits lim n) ∧
  memory_used_bytes s ≤ max_memory_bytes lim + (N.of_nat n - 1).
Proof.
  intros Hlim Hnew Hr. pose proof (sreachable_inv lim n s0 s Hlim Hnew Hr) as Hs.
  destruct (sreachable_shape lim n s0 s Hnew Hr) as (<- & <- & _). by apply inv_memory_bounded.
Qed.

Lemma sharded_memory_bounded_witness : memory_used_bytes demo_sharded ≤ 801 + 1.
Proof.
  destruct (@sharded_memory_bounded canonical_order demo_env demo_sharded_limits 2 demo_new
    demo_sharded) as [_ H]; [done | done | apply demo_sharded_reachable | exact H].
Defined.

(** The limit is exceeded: two shards under a limit of 201 bytes get 101
    bytes each, and two writes that the engine accepts charge 202 bytes. *)
Theorem sharded_memory_exceeds_limit :
  let lim := {| max_memory_bytes := 201; max_value_bytes := 64 |} in
  let big key := put_command "ab" key "vw" in
  match with_clock_and_limits lim 2 with
  | Some s0 =>
    match @srun canonical_order demo_env
      [(manual_clock 0, OpPut (big "a"%string)); (manual_clock 0, OpPut (big "b"%string))] s0 with
    | Some s => memory_used_bytes s = 202 ∧ max_memory_bytes (limits s) = 201
    | None => False
    end
  | None => False
  end.
Proof. vm_compute. split; reflexivity. Qed.

(** With the default limits (64 MiB of memory, values up to 8 MiB, 16
    shards) a shard has 4 MiB, so a value between 4 MiB and the configured
    maximum of 8 MiB is always refused for memory, however empty the cache. *)
Theorem sharded_value_cap `{HashOrder, ShardEnv} s0 s clk c :
  with_limits EngineLimits_default = Some s0 → rtc sstep s0 s →
  4 * 1024 * 1024 ≤ len (pc_value c) ≤ max_value_bytes EngineLimits_default →
  ∃ b s', put clk c s = Some (Err (ValueTooLargeForMemory b (4 * 1024 * 1024)), s').
Proof.
  intros Hnew Hr Hv.
  pose proof (sreachable_inv EngineLimits_default _ s0 s ltac:(done) Hnew Hr) as Hs.
  destruct (sreachable_shape _ _ s0 s Hnew Hr) as (Hn & Hl & _).
  destruct (home_in_range (command_id c) s (si_nonempty s Hs)) as [e He].
  destruct (sharded_put_spec clk c s e Hs He) as (s' & Heq & _).
  pose proof (so_limits _ _ _ (si_shards s Hs _ e He)) as Hle. rewrite Hl, Hn in Hle.
  exists (estimate_entry_memory (command_id c) (pc_value c) (pc_tags c)), s'.
  rewrite Heq. do 2 f_equal. unfold Engine.put. rewrite Hle.
  cbn [max_value_bytes max_memory_bytes shard_limits].
  rewrite (proj2 (N.ltb_ge _ _)) by lia.
  change (div_ceil _ _) with (4 * 1024 * 1024). rewrite (proj2 (N.ltb_lt _ _)); [reflexivity|].
  unfold estimate_entry_memory, ENTRY_OVERHEAD_BYTES, sat_add, U64_MAX.
  cbn [max_value_bytes EngineLimits_default] in Hv. lia.
Qed.

(** The 16 empty shards of [ShardedEngine::with_limits]. *)
Definition default_sharded : ShardedEngine :=
  {| shards := replicate 16 (Engine.with_clock_and_limits
       (shard_limits EngineLimits_default 16));
     tag_directory := ∅; sh_limits := EngineLimits_default |}.

Lemma len_replicate {A} n (x : A) : len (replicate (N.to_nat n) x) = n.
Proof. unfold len. rewrite length_replicate. lia. Qed.

Lemma sharded_value_cap_witness :
  let c := {| pc_namespace := "default"; pc_key := [];
              pc_value := replicate (N.to_nat (5 * 1024 * 1024)) x00; pc_ttl := None;
              pc_stale_ttl := None; pc_tags := []; pc_cost := None |} in
  ∃ b s', @put canonical_order demo_env (manual_clock 0) c default_sharded
    = Some (Err (ValueTooLargeForMemory b (4 * 1024 * 1024)), s').
Proof.
  intros c. apply (@sharded_value_cap canonical_order demo_env default_sharded default_sharded);
    [reflexivity | apply rtc_refl |].
  unfold c. cbn [pc_value]. rewrite len_replicate. cbn [max_value_bytes EngineLimits_default]. lia.
Defined.
End ShardedSpec.
