(* ===== verification/CacheSpec.v ===== *)
(** * CacheSpec: the abstract cache

    What the engine promises, without its indexes, its memory accounts, its
    access counters, its shards and its mutexes.  The state is one [Cell] per
    key: the item stored under it and the lease held on it.  A call is an
    [Event], the call with its clock readings and its reply; [spec_step] says
    which replies and next states are allowed.  A cache may lose items, so
    the steps that make room name the cells they empty, and why.

    [CacheImpl] is the interface of an implementation: its actions are runs
    of the abstract cache.  What a client can rely on (a read answers the
    last write, a completion the last grant) is proved from the interface. *)

From S2P Require Import Prelude Bytes Protocol Engine EnginePut.

Module CacheSpec.
Import Engine EnginePut.

(** ** State *)

Record Item := {
  i_value : bytes;
  i_expires_at_ms : option N;
  i_stale_until_ms : option N;
  i_tags : list string;
  i_cost : option N
}.

Record Cell := { item : option Item; lease : option Lease }.

Definition void : Cell := {| item := None; lease := None |}.

Definition Store := EntryId → Cell.

Definition empty_store : Store := λ _, void.

(** Stores are compared cell by cell. *)
#[export] Instance store_equiv : Equiv Store := λ σ τ, ∀ j, σ j = τ j.

#[export] Instance store_equivalence : Equivalence (≡@{Store}).
Proof.
  split.
  - by intros σ j.
  - by intros σ τ H j.
  - intros σ τ υ H1 H2 j. by rewrite (H1 j).
Qed.

Definition item_state (now_ms : N) (it : Item) : EntryState :=
  match i_expires_at_ms it with
  | None => Fresh
  | Some expires_at =>
    if now_ms <=? expires_at then Fresh
    else match i_stale_until_ms it with
         | Some stale_until => if now_ms <=? stale_until then Stale else Expired
         | None => Expired
         end
  end.

Definition cell_state (now_ms : N) (c : Cell) : EntryState :=
  from_option (item_state now_ms) Missing (item c).

(** The item may be reclaimed: its last deadline is reached. *)
Definition due (now_ms : N) (it : Item) : Prop :=
  ∃ at_ms, removable_at_ms (i_expires_at_ms it) (i_stale_until_ms it) = Some at_ms ∧ at_ms ≤ now_ms.

Definition tagged_item (id : EntryId) (ns tag : string) (it : Item) : Prop :=
  eid_namespace id = ns ∧ tag ∈ i_tags it.

(** ** One cell *)

Definition held (now_ms : N) (c : Cell) : option Lease :=
  match lease c with
  | Some l => if now_ms <=? l_expires_at_ms l then Some l else None
  | None => None
  end.

Definition release (c : Cell) : Cell := {| item := item c; lease := None |}.

Definition grant (l : Lease) (c : Cell) : Cell := {| item := item c; lease := Some l |}.

Definition cell_get (now_ms : N) (c : Cell) : GetOutcome * Cell :=
  match item c with
  | None => (GMiss, c)
  | Some it =>
    match item_state now_ms it with
    | Fresh => (GHit (i_value it), c)
    | Stale => (GStale (i_value it), c)
    | Missing | Expired => (GMiss, void)
    end
  end.

Definition cell_grant_missing (clk : Clock) (ttl : N) (token : string) (c : Cell) :
    StartLeaseOutcome * Cell :=
  match held (clk 2%nat) c with
  | Some _ => (LeaseDenied, c)
  | None => (LeaseGranted token None,
             grant {| l_token := token; l_expires_at_ms := clk 3%nat +| ttl |} c)
  end.

Definition cell_start_lease (clk : Clock) (ttl : N) (token : string) (c : Cell) :
    StartLeaseOutcome * Cell :=
  match item c with
  | None => cell_grant_missing clk ttl token c
  | Some it =>
    match item_state (clk 1%nat) it, held (clk 0%nat) c with
    | Missing, _ => cell_grant_missing clk ttl token c
    | Fresh, _ => (LHit (i_value it), c)
    | Stale, Some _ => (LStale (i_value it), c)
    | Stale, None => (LeaseGranted token (Some (i_value it)),
                      grant {| l_token := token; l_expires_at_ms := clk 3%nat +| ttl |} c)
    | Expired, Some _ => (LeaseDenied, c)
    | Expired, None => cell_grant_missing clk ttl token void
    end
  end.

Definition put_item (now_ms : N) (c : PutCommand) : Item :=
  {| i_value := pc_value c; i_expires_at_ms := put_expires_at now_ms c;
     i_stale_until_ms := put_stale_until now_ms c; i_tags := pc_tags c; i_cost := pc_cost c |}.

(** A write over an item ends the lease on its key; one on a free key leaves
    the lease. *)
Definition cell_put (now_ms : N) (c : PutCommand) (x : Cell) : Cell :=
  {| item := Some (put_item now_ms c);
     lease := match item x with Some _ => None | None => lease x end |}.

(** The write a completion asks for. *)
Definition completed_put (c : CompleteLeaseCommand) : PutCommand :=
  {| pc_namespace := cl_namespace c; pc_key := cl_key c; pc_value := cl_value c;
     pc_ttl := cl_ttl c; pc_stale_ttl := cl_stale_ttl c; pc_tags := cl_tags c;
     pc_cost := cl_cost c |}.

(** ** Events and steps *)

Inductive Event :=
| EGet (clk : Clock) (ns : string) (key : bytes) (o : GetOutcome)
| EPut (clk : Clock) (c : PutCommand) (r : result PutOutcome PutError)
| EDelete (ns : string) (key : bytes) (removed : bool)
| EStartLease (clk : Clock) (ns : string) (key : bytes) (ttl : N) (o : StartLeaseOutcome)
| EComplete (clk : Clock) (c : CompleteLeaseCommand) (r : result PutOutcome CompleteLeaseError)
| EInvalidate (shard : nat) (ns tag : string) (removed : N)
| EReclaim (clk : Clock) (shard : nat) (max_entries removed : N).

(** The cells of [D] are emptied; with a target, its cell becomes [c]. *)
Definition voids (D : list EntryId) (σ σ' : Store) : Prop :=
  ∀ j, σ' j = if decide (j ∈ D) then void else σ j.

Definition moves (D : list EntryId) (id : EntryId) (c : Cell) (σ σ' : Store) : Prop :=
  ∀ j, σ' j = if decide (j = id) then c else if decide (j ∈ D) then void else σ j.

Section spec.
Context (place : EntryId → nat).

(** The items of [D] are those of shard [i], each with a reason [P] to go. *)
Definition losable (i : nat) (P : Item → Prop) (D : list EntryId) (σ : Store) : Prop :=
  ∀ j, j ∈ D → place j = i ∧ ∃ it, item (σ j) = Some it ∧ P it.

(** A write to [id]: others of its shard are lost, those due at [now_ms] and
    [n] evicted ones. *)
Definition stores (now_ms : N) (id : EntryId) (n : N) (c : Cell) (σ σ' : Store) : Prop :=
  ∃ D1 D2, NoDup (D1 ++ D2) ∧ (id ∉ D1 ++ D2) ∧ losable (place id) (due now_ms) D1 σ ∧
    losable (place id) (λ _, True) D2 σ ∧ len D2 = n ∧ moves (D1 ++ D2) id c σ σ'.

Definition step_complete (clk : Clock) (c : CompleteLeaseCommand)
    (r : result PutOutcome CompleteLeaseError) (σ σ' : Store) : Prop :=
  let id := EntryId_new (cl_namespace c) (cl_key c) in
  match held (clk 0%nat) (σ id) with
  | None => r = Err InvalidLeaseToken ∧ moves [] id (release (σ id)) σ σ'
  | Some l =>
    if decide (l_token l = cl_lease_token c) then
      match r with
      | Ok o => stores (clk 2%nat) id (po_evicted o)
                  (cell_put (clk 1%nat) (completed_put c) (release (σ id))) σ σ'
      | Err InvalidLeaseToken | Err (PutFailed (InsufficientMemory _ _ _)) => False
      | Err (PutFailed _) => moves [] id (release (σ id)) σ σ'
      end
    else r = Err InvalidLeaseToken ∧ σ' ≡ σ
  end.

Definition spec_step (ev : Event) (σ σ' : Store) : Prop :=
  match ev with
  | EGet clk ns key o =>
    let id := EntryId_new ns key in
    o = (cell_get (clk 0%nat) (σ id)).1 ∧ moves [] id (cell_get (clk 0%nat) (σ id)).2 σ σ'
  | EPut clk c r =>
    match r with
    | Ok o => stores (clk 1%nat) (command_id c) (po_evicted o)
                (cell_put (clk 0%nat) c (σ (command_id c))) σ σ'
    | Err (InsufficientMemory _ _ _) => False
    | Err _ => σ' ≡ σ
    end
  | EDelete ns key removed =>
    let id := EntryId_new ns key in
    removed = bool_decide (is_Some (item (σ id))) ∧ moves [] id void σ σ'
  | EStartLease clk ns key ttl o =>
    let id := EntryId_new ns key in
    ∃ n, o = (cell_start_lease clk ttl (lease_token n) (σ id)).1 ∧
      moves [] id (cell_start_lease clk ttl (lease_token n) (σ id)).2 σ σ'
  | EComplete clk c r => step_complete clk c r σ σ'
  | EInvalidate i ns tag n =>
    ∃ D, NoDup D ∧ len D = n ∧ voids D σ σ' ∧
      ∀ j, j ∈ D ↔ place j = i ∧ ∃ it, item (σ j) = Some it ∧ tagged_item j ns tag it
  | EReclaim clk i m n =>
    ∃ D, NoDup D ∧ len D = n ∧ n ≤ m ∧ voids D σ σ' ∧ losable i (due (clk 0%nat)) D σ ∧
      (n < m → ∀ j it, place j = i → item (σ' j) = Some it → ¬ due (clk 0%nat) it)
  end.

Inductive spec_run : list Event → Store → Store → Prop :=
| run_nil σ σ' : σ' ≡ σ → spec_run [] σ σ'
| run_cons ev evs σ σ1 σ' : spec_step ev σ σ1 → spec_run evs σ1 σ' → spec_run (ev :: evs) σ σ'.

(** ** Steps respect the equivalence of stores *)

Lemma voids_proper D σ τ σ' τ' : σ ≡ τ → σ' ≡ τ' → voids D σ σ' → voids D τ τ'.
Proof. intros H1 H2 Hv j. by rewrite <- (H2 j), <- (H1 j). Qed.

Lemma moves_proper D id c σ τ σ' τ' : σ ≡ τ → σ' ≡ τ' → moves D id c σ σ' → moves D id c τ τ'.
Proof. intros H1 H2 Hv j. by rewrite <- (H2 j), <- (H1 j). Qed.

Lemma losable_proper i P D σ τ : σ ≡ τ → losable i P D σ → losable i P D τ.
Proof. intros H1 Hl j. rewrite <- (H1 j). apply Hl. Qed.

Lemma stores_proper now id n c σ τ σ' τ' :
  σ ≡ τ → σ' ≡ τ' → stores now id n c σ σ' → stores now id n c τ τ'.
Proof.
  intros H1 H2 (D1 & D2 & ?). exists D1, D2.
  destruct_and!. split_and!; eauto using losable_proper, moves_proper.
Qed.

Lemma spec_step_proper ev σ τ σ' τ' :
  σ ≡ τ → σ' ≡ τ' → spec_step ev σ σ' → spec_step ev τ τ'.
Proof.
  intros H1 H2. destruct ev as [clk ns key o|clk c r|ns key b|clk ns key ttl o|clk c r|
    i ns tag n|clk i m n]; cbn [spec_step]; [| | | |unfold step_complete| |];
    rewrite <- ?(H1 (EntryId_new _ _)), <- ?(H1 (command_id _)).
  - intros [? ?]; eauto using moves_proper.
  - destruct r as [o|[]]; [by apply stores_proper| | |done]; intros H; by rewrite <- H1, <- H2.
  - intros [? ?]; eauto using moves_proper.
  - intros (k & ? & ?). eauto using moves_proper.
  - destruct (held _ _); [case_decide|].
    + destruct r as [|[|[]]]; [by apply stores_proper|done|by apply moves_proper..|done].
    + intros [-> Heq]. split; [done|]. by rewrite <- H1, <- H2.
    + intros [? ?]; eauto using moves_proper.
  - intros (D & ? & ? & ? & HD). exists D. split_and!; eauto using voids_proper.
    intros j. rewrite <- (H1 j). apply HD.
  - intros (D & ? & ? & ? & ? & ? & HD). exists D.
    split_and!; eauto using voids_proper, losable_proper.
    intros Hn j. rewrite <- (H2 j). by apply HD.
Qed.

#[global] Instance spec_step_equiv ev : Proper ((≡) ==> (≡) ==> iff) (spec_step ev).
Proof. intros σ τ H1 σ' τ' H2. split; by apply spec_step_proper. Qed.

#[global] Instance spec_run_equiv evs : Proper ((≡) ==> (≡) ==> iff) (spec_run evs).
Proof.
  assert (∀ σ τ σ' τ', σ ≡ τ → σ' ≡ τ' → spec_run evs σ σ' → spec_run evs τ τ') as Hp.
  { intros σ τ σ' τ' H1 H2 Hr. revert τ H1.
    induction Hr as [σ σ' H|ev evs σ σ1 σ' Hs Hr IH]; intros τ H1.
    - constructor. by rewrite <- H1, <- H2.
    - apply (run_cons _ _ _ σ1); [by rewrite <- H1|]. by apply IH. }
  intros σ τ H1 σ' τ' H2. by split; apply Hp.
Qed.

Lemma spec_run_app l1 l2 σ σ1 σ' :
  spec_run l1 σ σ1 → spec_run l2 σ1 σ' → spec_run (l1 ++ l2) σ σ'.
Proof.
  induction 1 as [σ σ1 H|ev l1 σ σ2 σ1 Hs _ IH]; intros Hr; simpl.
  - by rewrite <- H.
  - econstructor; eauto.
Qed.

Lemma spec_run_app_inv l1 l2 σ σ' :
  spec_run (l1 ++ l2) σ σ' → ∃ σ1, spec_run l1 σ σ1 ∧ spec_run l2 σ1 σ'.
Proof.
  revert σ. induction l1 as [|ev l1 IH]; intros σ Hr; simpl in Hr.
  - exists σ. split; [by constructor | done].
  - inversion Hr as [|? ? ? σ2 ? Hs Hr']; subst.
    apply IH in Hr' as (σ1 & ? & ?). exists σ1. split; [by econstructor | done].
Qed.

Lemma spec_run_one ev σ σ' : spec_step ev σ σ' → spec_run [ev] σ σ'.
Proof. intros Hs. econstructor; [exact Hs | by constructor]. Qed.
End spec.

(** ** What the history of a cell tells of its content *)

(** The item an event writes, and the lease it grants. *)
Definition written (ev : Event) : option (EntryId * Item) :=
  match ev with
  | EPut clk c (Ok _) => Some (command_id c, put_item (clk 0%nat) c)
  | EComplete clk c (Ok _) =>
    Some (command_id (completed_put c), put_item (clk 1%nat) (completed_put c))
  | _ => None
  end.

Definition granted (ev : Event) : option (EntryId * Lease) :=
  match ev with
  | EStartLease clk ns key ttl (LeaseGranted token _) =>
    Some (EntryId_new ns key, {| l_token := token; l_expires_at_ms := clk 3%nat +| ttl |})
  | _ => None
  end.

Section history.
Context (place : EntryId → nat).

(** After the event the item [it] is not stored under [id], unless the event
    writes it again: an overwrite, a deletion, a miss, an invalidation of one
    of its tags that reached its shard. *)
Definition ends_item (ev : Event) (id : EntryId) (it : Item) : Prop :=
  match ev with
  | EPut _ c (Ok _) => command_id c = id
  | EComplete _ c (Ok _) => command_id (completed_put c) = id
  | EDelete ns key _ => EntryId_new ns key = id
  | EGet _ ns key GMiss => EntryId_new ns key = id
  | EStartLease _ ns key _ (LeaseGranted _ None) => EntryId_new ns key = id
  | EInvalidate i ns tag _ => place id = i ∧ tagged_item id ns tag it
  | _ => False
  end.

(** After the event the lease [l] is not held on [id], unless the event grants
    it again. *)
Definition ends_lease (ev : Event) (id : EntryId) (l : Lease) : Prop :=
  match ev with
  | EStartLease _ ns key _ (LeaseGranted _ _) => EntryId_new ns key = id
  | EComplete _ c _ => command_id (completed_put c) = id ∧ cl_lease_token c = l_token l
  | EDelete ns key _ => EntryId_new ns key = id
  | _ => False
  end.

Lemma moves_cases D id c σ σ' j :
  moves D id c σ σ' → (j = id ∧ σ' j = c) ∨ (j ≠ id ∧ (σ' j = void ∨ σ' j = σ j)).
Proof. intros Hm. specialize (Hm j). repeat case_decide; auto. Qed.

Lemma voids_cases D σ σ' j :
  voids D σ σ' → (j ∈ D ∧ σ' j = void) ∨ ((j ∉ D) ∧ σ' j = σ j).
Proof. intros Hm. specialize (Hm j). case_decide; auto. Qed.

(** The content of a cell after a move is the target's or was there. *)
Lemma moves_item D id c σ σ' j it :
  moves D id c σ σ' → item (σ' j) = Some it →
  (id = j ∧ item c = Some it) ∨ (id ≠ j ∧ item (σ j) = Some it).
Proof.
  intros Hm Hit. destruct (moves_cases _ _ _ _ _ j Hm) as [[-> Hv]|[? [Hv|Hv]]];
    rewrite Hv in Hit; [by left | done | by right].
Qed.

Lemma moves_lease D id c σ σ' j l :
  moves D id c σ σ' → lease (σ' j) = Some l →
  (id = j ∧ lease c = Some l) ∨ (id ≠ j ∧ lease (σ j) = Some l).
Proof.
  intros Hm Hit. destruct (moves_cases _ _ _ _ _ j Hm) as [[-> Hv]|[? [Hv|Hv]]];
    rewrite Hv in Hit; [by left | done | by right].
Qed.

Lemma held_Some now c l : held now c = Some l ↔ lease c = Some l ∧ now ≤ l_expires_at_ms l.
Proof.
  unfold held. destruct (lease c) as [l'|]; [|naive_solver].
  destruct (N.leb_spec now (l_expires_at_ms l')); naive_solver lia.
Qed.

(** A completion writes with the lease given up, only gives the lease up, or
    does nothing, the lease being another's. *)
Lemma complete_cases clk c r σ σ' :
  let id := command_id (completed_put c) in
  step_complete place clk c r σ σ' →
  (∃ o D, r = Ok o ∧ moves D id (cell_put (clk 1%nat) (completed_put c) (release (σ id))) σ σ') ∨
  (is_ok r = false ∧ moves [] id (release (σ id)) σ σ') ∨
  (is_ok r = false ∧ σ' ≡ σ ∧ ∃ l, lease (σ id) = Some l ∧ l_token l ≠ cl_lease_token c).
Proof.
  intros id. unfold step_complete.
  change (EntryId_new (cl_namespace c) (cl_key c)) with id.
  destruct (held _ _) as [l|] eqn:El; [case_decide|].
  - destruct r as [o|[|[]]]; try done; [|auto..].
    intros (D1 & D2 & _ & _ & _ & _ & _ & Hm). eauto 6.
  - intros [-> Hs]. apply held_Some in El as [? _]. eauto 7.
  - intros [-> Hm]. auto.
Qed.

Lemma cell_get_item now c it :
  item (cell_get now c).2 = Some it → item c = Some it ∧ (cell_get now c).1 ≠ GMiss.
Proof.
  unfold cell_get. destruct (item c) as [it'|] eqn:E; simpl; [|congruence].
  destruct (item_state now it'); simpl; try done; rewrite E; intros [= ->]; done.
Qed.

Lemma cell_get_lease now c l : lease (cell_get now c).2 = Some l → lease c = Some l.
Proof.
  unfold cell_get. destruct (item c) as [it|]; [|done]. by destruct (item_state now it).
Qed.

Lemma cell_start_lease_item clk ttl tok c it :
  item (cell_start_lease clk ttl tok c).2 = Some it →
  item c = Some it ∧ ∀ t, (cell_start_lease clk ttl tok c).1 ≠ LeaseGranted t None.
Proof.
  unfold cell_start_lease, cell_grant_missing, held, item_state.
  destruct (item c) as [it'|] eqn:E.
  - intros Hit. repeat case_match; simplify_eq/=; split; congruence.
  - intros Hit. repeat case_match; simplify_eq/=; congruence.
Qed.

Lemma cell_start_lease_lease clk ttl tok c l :
  lease (cell_start_lease clk ttl tok c).2 = Some l →
  (lease c = Some l ∧ ∀ t sv, (cell_start_lease clk ttl tok c).1 ≠ LeaseGranted t sv) ∨
  ∃ sv, (cell_start_lease clk ttl tok c).1 = LeaseGranted (l_token l) sv ∧
    l_expires_at_ms l = clk 3%nat +| ttl.
Proof.
  unfold cell_start_lease, cell_grant_missing.
  intros Hl. repeat case_match; simplify_eq/=; first [by left | right; eauto].
Qed.

(** An item of the next state was there and not ended, or is the one written. *)
Lemma step_item ev σ σ' id it :
  spec_step place ev σ σ' → item (σ' id) = Some it →
  written ev = Some (id, it) ∨ (item (σ id) = Some it ∧ ¬ ends_item ev id it).
Proof.
  intros Hs Hit.
  destruct ev as [clk ns key o|clk c r|ns key b|clk ns key ttl o|clk c r|i ns tag n|clk i m n];
    cbn [spec_step written ends_item] in *.
  - destruct Hs as [-> Hm]. right. destruct (moves_item _ _ _ _ _ _ _ Hm Hit) as [[<- Hc]|[? ?]].
    + apply cell_get_item in Hc as [? ?]. destruct (cell_get _ _).1; naive_solver.
    + destruct (cell_get _ _).1; naive_solver.
  - destruct r as [o|[]]; try done; [|rewrite (Hs id) in Hit; by auto..].
    destruct Hs as (D1 & D2 & _ & _ & _ & _ & _ & Hm).
    destruct (moves_item _ _ _ _ _ _ _ Hm Hit) as [[<- ?]|[? ?]]; naive_solver.
  - destruct Hs as [-> Hm]. destruct (moves_item _ _ _ _ _ _ _ Hm Hit) as [[<- ?]|[? ?]]; naive_solver.
  - destruct Hs as (n & -> & Hm). right.
    destruct (moves_item _ _ _ _ _ _ _ Hm Hit) as [[<- Hc]|[? ?]].
    + apply cell_start_lease_item in Hc as [? Hg]. split; [done|].
      destruct (cell_start_lease _ _ _ _).1 as [| |t []|]; try tauto. by destruct (Hg t).
    + destruct (cell_start_lease _ _ _ _).1 as [| |? []|]; naive_solver.
  - apply complete_cases in Hs as [(o & D & -> & Hm)|[[Hr Hm]|(Hr & Hs & _)]].
    + destruct (moves_item _ _ _ _ _ _ _ Hm Hit) as [[<- ?]|[? ?]]; naive_solver.
    + right. destruct r; [done|].
      destruct (moves_item _ _ _ _ _ _ _ Hm Hit) as [[<- ?]|[? ?]]; naive_solver.
    + destruct r; [done|]. rewrite (Hs id) in Hit. by auto.
  - destruct Hs as (D & _ & _ & Hv & HD). right.
    destruct (voids_cases _ _ _ id Hv) as [[_ H]|[Hn H]]; rewrite H in Hit; [done|].
    split; [done|]. intros [Hp Ht]. apply Hn, HD. eauto.
  - destruct Hs as (D & _ & _ & _ & Hv & _). right.
    destruct (voids_cases _ _ _ id Hv) as [[_ H]|[Hn H]]; rewrite H in Hit; [done|]. tauto.
Qed.

Lemma step_lease ev σ σ' id l :
  spec_step place ev σ σ' → lease (σ' id) = Some l →
  granted ev = Some (id, l) ∨ (lease (σ id) = Some l ∧ ¬ ends_lease ev id l).
Proof.
  intros Hs Hl.
  destruct ev as [clk ns key o|clk c r|ns key b|clk ns key ttl o|clk c r|i ns tag n|clk i m n];
    cbn [spec_step granted ends_lease] in *.
  - destruct Hs as [-> Hm]. right. destruct (moves_lease _ _ _ _ _ _ _ Hm Hl) as [[<- Hc]|[? ?]];
      eauto using cell_get_lease.
  - right. destruct r as [o|[]]; try done; [|rewrite (Hs id) in Hl; by auto..].
    destruct Hs as (D1 & D2 & _ & _ & _ & _ & _ & Hm).
    destruct (moves_lease _ _ _ _ _ _ _ Hm Hl) as [[<- Hc]|[? ?]]; [|by auto].
    simpl in Hc. destruct (item (σ (command_id c))); naive_solver.
  - destruct Hs as [-> Hm]. destruct (moves_lease _ _ _ _ _ _ _ Hm Hl) as [[<- ?]|[? ?]]; naive_solver.
  - destruct Hs as (n & -> & Hm).
    destruct (moves_lease _ _ _ _ _ _ _ Hm Hl) as [[<- Hc]|[? ?]].
    + apply cell_start_lease_lease in Hc as [[Hc Hg]|(sv & -> & He)].
      * right. split; [done|]. destruct (cell_start_lease _ _ _ _).1; naive_solver.
      * left. by destruct l; simplify_eq/=.
    + right. destruct (cell_start_lease _ _ _ _).1; naive_solver.
  - right. apply complete_cases in Hs as [(o & D & -> & Hm)|[[Hr Hm]|(Hr & Hs & l' & Hl' & Ht)]].
    + destruct (moves_lease _ _ _ _ _ _ _ Hm Hl) as [[<- Hc]|[? ?]]; [|naive_solver].
      simpl in Hc. by destruct (item _).
    + destruct (moves_lease _ _ _ _ _ _ _ Hm Hl) as [[<- ?]|[? ?]]; naive_solver.
    + rewrite (Hs id) in Hl. split; [done|]. intros [<- ?]. simplify_eq.
  - destruct Hs as (D & _ & _ & Hv & HD). right.
    destruct (voids_cases _ _ _ id Hv) as [[_ H]|[Hn H]]; rewrite H in Hl; [done|]. tauto.
  - destruct Hs as (D & _ & _ & _ & Hv & _). right.
    destruct (voids_cases _ _ _ id Hv) as [[_ H]|[Hn H]]; rewrite H in Hl; [done|]. tauto.
Qed.

(** ** The last write and the last grant *)

(** In [evs], the last event on [id] that concerns [it] is the one that [made]
    it, and nothing after it [ended] it. *)
Definition last_made {A} (made : Event → option (EntryId * A))
    (ended : Event → EntryId → A → Prop) (evs : list Event) (id : EntryId) (a : A) : Prop :=
  ∃ pre ev post, evs = pre ++ ev :: post ∧ made ev = Some (id, a) ∧
    Forall (λ e, ¬ ended e id a) post.

Lemma last_made_snoc {A} (made : Event → option (EntryId * A)) ended evs ev id a :
  (made ev = Some (id, a) ∨ (last_made made ended evs id a ∧ ¬ ended ev id a)) →
  last_made made ended (evs ++ [ev]) id a.
Proof.
  intros [Hm|[(pre & w & post & -> & Hm & Hp) Hn]].
  - exists evs, ev, []. auto.
  - exists pre, w, (post ++ [ev]). rewrite <- app_assoc. simpl. split_and!; [done|done|].
    apply Forall_app. auto.
Qed.

Lemma history_item evs σ id it :
  spec_run place evs empty_store σ → item (σ id) = Some it →
  last_made written ends_item evs id it.
Proof.
  revert σ it. induction evs as [|ev evs IH] using rev_ind; intros σ it Hr Hit.
  - inversion Hr as [? ? Heq|]; subst. by rewrite (Heq id) in Hit.
  - apply spec_run_app_inv in Hr as (σ1 & Hr & Hr1).
    inversion Hr1 as [|? ? ? σ2 ? Hs Hn]; subst. inversion Hn as [? ? Heq|]; subst.
    rewrite Heq in Hit. apply last_made_snoc.
    destruct (step_item ev σ1 σ2 id it Hs Hit) as [?|[? ?]]; eauto.
Qed.

Lemma history_lease evs σ id l :
  spec_run place evs empty_store σ → lease (σ id) = Some l →
  last_made granted ends_lease evs id l.
Proof.
  revert σ l. induction evs as [|ev evs IH] using rev_ind; intros σ l Hr Hl.
  - inversion Hr as [? ? Heq|]; subst. by rewrite (Heq id) in Hl.
  - apply spec_run_app_inv in Hr as (σ1 & Hr & Hr1).
    inversion Hr1 as [|? ? ? σ2 ? Hs Hn]; subst. inversion Hn as [? ? Heq|]; subst.
    rewrite Heq in Hl. apply last_made_snoc.
    destruct (step_lease ev σ1 σ2 id l Hs Hl) as [?|[? ?]]; eauto.
Qed.

(** What a read answers. *)
Definition reads (ev : Event) : option (N * EntryId * EntryState * bytes) :=
  match ev with
  | EGet clk ns key (GHit v) => Some (clk 0%nat, EntryId_new ns key, Fresh, v)
  | EGet clk ns key (GStale v) => Some (clk 0%nat, EntryId_new ns key, Stale, v)
  | EStartLease clk ns key _ (LHit v) => Some (clk 1%nat, EntryId_new ns key, Fresh, v)
  | EStartLease clk ns key _ (LStale v) => Some (clk 1%nat, EntryId_new ns key, Stale, v)
  | EStartLease clk ns key _ (LeaseGranted _ (Some v)) =>
    Some (clk 1%nat, EntryId_new ns key, Stale, v)
  | _ => None
  end.

Lemma step_reads ev σ σ' now id st v :
  spec_step place ev σ σ' → reads ev = Some (now, id, st, v) →
  ∃ it, item (σ id) = Some it ∧ i_value it = v ∧ item_state now it = st.
Proof.
  destruct ev as [clk ns key o| | |clk ns key ttl o| | |]; try done; cbn [spec_step].
  - intros [-> _]. unfold cell_get. destruct (item _) as [it|] eqn:E; [|done].
    destruct (item_state (clk 0%nat) it) eqn:Es; cbn; intros; simplify_eq; eauto.
  - intros (n & -> & _). unfold cell_start_lease, cell_grant_missing.
    destruct (item _) as [it|] eqn:E; [|by repeat case_match].
    destruct (item_state (clk 1%nat) it) eqn:Es; repeat case_match; cbn; intros;
      simplify_eq; eauto.
Qed.

(** The completion that was accepted: the key, the token and the reading at
    which the lease was checked. *)
Definition accepted (ev : Event) : option (EntryId * string * N) :=
  match ev with
  | EComplete clk c (Ok _) | EComplete clk c (Err (PutFailed _)) =>
    Some (command_id (completed_put c), cl_lease_token c, clk 0%nat)
  | _ => None
  end.

Lemma step_accepted ev σ σ' id token now :
  spec_step place ev σ σ' → accepted ev = Some (id, token, now) →
  ∃ l, lease (σ id) = Some l ∧ l_token l = token ∧ now ≤ l_expires_at_ms l.
Proof.
  destruct ev as [| | | |clk c r| |]; try done. cbn [spec_step]. unfold step_complete.
  change (EntryId_new (cl_namespace c) (cl_key c)) with (command_id (completed_put c)).
  intros Hs Ha. destruct (held _ _) as [l|] eqn:El; [case_decide|].
  - apply held_Some in El as [? ?]. exists l. destruct r as [|[|]]; simplify_eq/=; eauto.
  - by destruct Hs as [-> _].
  - by destruct Hs as [-> _].
Qed.
End history.

(** ** The interface of an implementation *)

(** A machine with actions [A] on states [S]: it reports the events of each
    action, and they are a run of the abstract cache. *)
Class CacheImpl (place : EntryId → nat) (S A : Type) := {
  impl_step : A → S → option (list Event * S);
  impl_inv : S → Prop;
  impl_view : S → Store;
  impl_sound a s evs s' :
    impl_inv s → impl_step a s = Some (evs, s') →
    impl_inv s' ∧ spec_run place evs (impl_view s) (impl_view s')
}.

Section client.
Context {place S A} `{!CacheImpl place S A}.

(** The events of a sequence of actions. *)
Fixpoint impl_run (l : list A) (s : S) : option (list Event * S) :=
  match l with
  | [] => Some ([], s)
  | a :: l => '(evs, s) ← impl_step a s; '(evs', s) ← impl_run l s; Some (evs ++ evs', s)
  end.

Lemma impl_run_sound l s evs s' :
  impl_inv s → impl_run l s = Some (evs, s') →
  impl_inv s' ∧ spec_run place evs (impl_view s) (impl_view s').
Proof.
  revert s evs. induction l as [|a l IH]; intros s evs Hs Hr; cbn [impl_run] in Hr.
  - simplify_eq. split; [done|]. by constructor.
  - apply bind_Some in Hr as ([ev1 s1] & H1 & Hr). apply bind_Some in Hr as ([ev2 s2] & H2 & Hr).
    simplify_eq. destruct (impl_sound a s ev1 s1 Hs H1) as [Hi1 Hr1].
    destruct (IH s1 ev2 Hi1 H2) as [Hi2 Hr2]. split; [done|]. by eapply spec_run_app.
Qed.

(** Whatever happened before an event was a run. *)
Lemma impl_run_event l s pre ev post s' :
  impl_inv s → impl_view s ≡ empty_store → impl_run l s = Some (pre ++ ev :: post, s') →
  ∃ σ σ1, spec_run place pre empty_store σ ∧ spec_step place ev σ σ1.
Proof.
  intros Hi He Hr. apply impl_run_sound in Hr as [_ Hr]; [|done].
  apply spec_run_app_inv in Hr as (σ & Hr & Hr1). inversion Hr1; subst. exists σ.
  eexists. split; [by rewrite <- He | done].
Qed.

(** From an empty cache, a read answers the last write of its key, in the
    state its deadlines give, and the item written has not been overwritten,
    deleted, missed or invalidated since. *)
Lemma impl_reads_last_write l s pre ev post s' now id st v :
  impl_inv s → impl_view s ≡ empty_store → impl_run l s = Some (pre ++ ev :: post, s') →
  reads ev = Some (now, id, st, v) →
  ∃ it, last_made written (ends_item place) pre id it ∧ i_value it = v ∧ item_state now it = st.
Proof.
  intros Hi He Hr Hev. destruct (impl_run_event l s pre ev post s' Hi He Hr) as (σ & σ1 & Hp & Hs).
  destruct (step_reads place ev σ σ1 now id st v Hs Hev) as (it & Hit & Hv & Hst).
  exists it. split; [by eapply history_item | done].
Qed.

(** From an empty cache, a completion is accepted for the last lease granted
    on its key, before the deadline it was granted with, and at most once. *)
Lemma impl_accepts_last_grant l s pre ev post s' id token now :
  impl_inv s → impl_view s ≡ empty_store → impl_run l s = Some (pre ++ ev :: post, s') →
  accepted ev = Some (id, token, now) →
  ∃ le, last_made granted ends_lease pre id le ∧ l_token le = token ∧ now ≤ l_expires_at_ms le.
Proof.
  intros Hi He Hr Hev. destruct (impl_run_event l s pre ev post s' Hi He Hr) as (σ & σ1 & Hp & Hs).
  destruct (step_accepted place ev σ σ1 id token now Hs Hev) as (le & Hl & Ht & Hd).
  exists le. split; [by eapply history_lease | done].
Qed.
End client.
End CacheSpec.
