(* ===== verification/CacheEngine.v ===== *)
(** * CacheEngine: one engine implements the abstract cache

    [view] forgets the indexes, the accounts and the access counters of an
    [Engine].  Each method is then a step of [CacheSpec], and the engine an
    instance of [CacheImpl] with a single shard. *)

From S2P Require Import Prelude Bytes Protocol Engine EngineInv EnginePut EngineOps CacheSpec.

Module CacheEngine.
Import Engine EngineInv EnginePut EngineOps CacheSpec.

Definition item_of (en : Entry) : Item :=
  {| i_value := e_value en; i_expires_at_ms := e_expires_at_ms en;
     i_stale_until_ms := e_stale_until_ms en; i_tags := e_tags en; i_cost := e_cost en |}.

Definition view (e : Engine) : Store :=
  λ j, {| item := item_of <$> entries e !! j; lease := leases e !! j |}.

Lemma item_of_state en now : entry_state_at en now = item_state now (item_of en).
Proof. done. Qed.

Lemma item_of_last_access a en : item_of (entry_set_last_access a en) = item_of en.
Proof. done. Qed.

Lemma held_view now id e : held now (view e id) = active_lease now id e.
Proof. done. Qed.

Lemma view_new lim : view (with_clock_and_limits lim) ≡ empty_store.
Proof. intros j. unfold view. simpl. by rewrite !lookup_empty. Qed.

Lemma view_touch id en e : entries e !! id = Some en → view (touch id en e) ≡ view e.
Proof.
  intros He j. unfold view. simpl. destruct (decide (j = id)) as [->|Hj].
  - by rewrite lookup_insert_eq, He.
  - by rewrite lookup_insert_ne.
Qed.

Lemma view_record_access id e : view (record_access id e) ≡ view e.
Proof.
  rewrite record_access_touch. destruct (entries e !! id) eqn:E; [by apply view_touch | done].
Qed.

Lemma view_release id e :
  view (set_leases (base.delete id (leases e)) e) ≡
  λ j, if decide (j = id) then release (view e j) else view e j.
Proof.
  intros j. unfold view, release. simpl. case_decide as Hj; simplify_eq.
  - by rewrite lookup_delete_eq.
  - by rewrite lookup_delete_ne.
Qed.

(** Removing an entry empties its cell, if there is an entry. *)
Lemma view_remove id e :
  view (remove_entry id e).2 ≡
  λ j, if decide (j = id ∧ is_Some (entries e !! id)) then void else view e j.
Proof.
  intros j. unfold view. rewrite remove_entry_entries, remove_entry_leases.
  destruct (entries e !! id) as [en|] eqn:E.
  - case_decide as Hj.
    + destruct Hj as [-> _]. by rewrite !lookup_delete_eq.
    + by rewrite !lookup_delete_ne by (intros ->; apply Hj; eauto).
  - rewrite decide_False by (intros [_ []]; done). by rewrite delete_id.
Qed.

(** ** Losing entries *)

(** [e] is [e0] with some of its entries removed, each with its lease. *)
Definition sheds (e0 e : Engine) : Prop :=
  ∀ j, view e j = view e0 j ∨ (is_Some (entries e0 !! j) ∧ view e j = void).

Lemma view_entry e j it :
  item (view e j) = Some it ↔ ∃ en, entries e !! j = Some en ∧ item_of en = it.
Proof. unfold view. simpl. rewrite fmap_Some. naive_solver. Qed.

Lemma sheds_refl e : sheds e e.
Proof. by left. Qed.

Lemma sheds_lookup e0 e j en :
  sheds e0 e → entries e !! j = Some en → is_Some (entries e0 !! j) ∧ view e j = view e0 j.
Proof.
  intros Hs He. destruct (Hs j) as [Hv|[_ Hv]].
  - split; [|done]. assert (item (view e0 j) = Some (item_of en)) as Hi.
    { rewrite <- Hv. apply view_entry. eauto. }
    apply view_entry in Hi as (? & ? & _). eauto.
  - assert (item (view e j) = Some (item_of en)) as Hi by (apply view_entry; eauto).
    by rewrite Hv in Hi.
Qed.

Lemma sheds_remove id e0 e : sheds e0 e → sheds e0 (remove_entry id e).2.
Proof.
  intros Hs j. rewrite (view_remove id e j). case_decide as Hj; [|apply Hs].
  destruct Hj as [-> [en He]]. right. split; [|done]. by eapply sheds_lookup.
Qed.

(** Updates outside the view. *)
Lemma sheds_expiration e0 e : sheds e0 e → sheds e0 (count_expiration e).
Proof. done. Qed.

Lemma sheds_eviction e0 e : sheds e0 e → sheds e0 (count_eviction e).
Proof. done. Qed.

Lemma sheds_expiry_index e0 x e : sheds e0 e → sheds e0 (set_expiry_index x e).
Proof. done. Qed.

Lemma sheds_tag_index e0 x e : sheds e0 e → sheds e0 (set_tag_index x e).
Proof. done. Qed.

#[local] Hint Resolve sheds_refl sheds_remove sheds_expiration sheds_eviction
  sheds_expiry_index sheds_tag_index : cbx.

(** The ids that were lost. *)
Definition lost (e0 e : Engine) : list EntryId :=
  elements (dom (entries e0) ∖ dom (entries e)).

Lemma elem_of_lost e0 e j :
  j ∈ lost e0 e ↔ is_Some (entries e0 !! j) ∧ entries e !! j = None.
Proof.
  unfold lost. by rewrite elem_of_elements, elem_of_difference, elem_of_dom, not_elem_of_dom.
Qed.

Lemma lost_nodup e0 e : NoDup (lost e0 e).
Proof. apply NoDup_elements. Qed.

Lemma sheds_voids e0 e : sheds e0 e → voids (lost e0 e) (view e0) (view e).
Proof.
  intros Hs j. case_decide as Hj.
  - apply elem_of_lost in Hj as [[en He] Hn]. destruct (Hs j) as [Hv|[_ Hv]]; [|done].
    assert (item (view e j) = Some (item_of en)) as Hi by (rewrite Hv; apply view_entry; eauto).
    apply view_entry in Hi as (? & ? & _). congruence.
  - destruct (Hs j) as [Hv|[He Hv]]; [done|].
    destruct (entries e !! j) as [en|] eqn:E; [|by destruct Hj; apply elem_of_lost].
    by eapply sheds_lookup.
Qed.

Lemma sheds_size e0 e :
  sheds e0 e → len (lost e0 e) + N.of_nat (size (entries e)) = N.of_nat (size (entries e0)).
Proof.
  intros Hs. assert (dom (entries e) ⊆ dom (entries e0)) as Hd.
  { intros j [en He]%elem_of_dom. apply elem_of_dom. by eapply sheds_lookup. }
  unfold len, lost. change (length (elements ?X)) with (size X).
  rewrite size_difference by done. rewrite !size_dom.
  pose proof (subseteq_size _ _ Hd) as Hle. rewrite !size_dom in Hle. lia.
Qed.

(** ** Methods that touch one cell *)

(** Case analysis on whether a cell is the target or lost. *)
Ltac cells :=
  repeat case_decide; destruct_and?; subst; first [done | by exfalso; set_solver | naive_solver].


Lemma moves_same id c σ σ' : σ id = c → σ' ≡ σ → moves [] id c σ σ'.
Proof.
  intros <- Hs j. rewrite (Hs j). cells.
Qed.

Lemma moves_release id e :
  moves [] id (release (view e id)) (view e) (view (set_leases (base.delete id (leases e)) e)).
Proof.
  intros j. rewrite (view_release id e j). cells.
Qed.

Lemma moves_grant now id ttl e :
  moves [] id (grant {| l_token := lease_token (next_access e); l_expires_at_ms := now +| ttl |}
                 (view e id)) (view e) (view (create_lease now id ttl e).2).
Proof.
  intros j. unfold view, grant. simpl. case_decide as Hj; simplify_eq.
  - by rewrite lookup_insert_eq.
  - rewrite lookup_insert_ne by done. cells.
Qed.

Lemma moves_remove id e en :
  entries e !! id = Some en → moves [] id void (view e) (view (remove_entry id e).2).
Proof.
  intros He j. rewrite (view_remove id e j). cells.
Qed.

Lemma moves_trans id c c' σ σ1 σ' :
  moves [] id c σ σ1 → moves [] id c' σ1 σ' → moves [] id c' σ σ'.
Proof. intros H1 H2 j. rewrite (H2 j), (H1 j). cells. Qed.

Lemma moves_target D id c σ σ' : moves D id c σ σ' → σ' id = c.
Proof. intros Hm. rewrite (Hm id). by rewrite decide_True. Qed.

Section place.
Context (place : EntryId → nat).

Lemma get_refines clk ns key u e :
  spec_step place (EGet clk ns key (get_ref_inner clk ns key u e).1)
    (view e) (view (get_ref_inner clk ns key u e).2).
Proof.
  pose proof (get_ref_inner_spec clk ns key u e) as Hs. cbn [spec_step]. unfold cell_get.
  destruct (get_ref_inner clk ns key u e) as [o e']. cbn [fst snd]. destruct Hs as [-> He'].
  unfold visible. set (id := EntryId_new ns key) in *. simpl item.
  destruct (entries e !! id) as [en|] eqn:E; simpl.
  - rewrite <- item_of_state. destruct (entry_state_at en (clk 0%nat)) eqn:Est; simpl.
    + unfold entry_state_at in Est. by repeat case_match.
    + split; [done|]. apply moves_same; [done|]. rewrite He'. by destruct u; [apply view_touch|].
    + split; [done|]. apply moves_same; [done|]. rewrite He'. by destruct u; [apply view_touch|].
    + split; [done|]. rewrite He'. by eapply moves_remove.
  - split; [done|]. rewrite He'. by apply moves_same.
Qed.

Lemma delete_refines ns key e :
  spec_step place (EDelete ns key (delete ns key e).1) (view e) (view (delete ns key e).2).
Proof.
  cbn [spec_step]. unfold delete. set (id := EntryId_new ns key).
  rewrite remove_entry_result. simpl. split.
  - apply bool_decide_ext. unfold view. simpl. by rewrite fmap_is_Some.
  - intros j. rewrite (view_remove id _ j), (view_release id e j). simpl.
    destruct (decide (j = id)) as [->|Hj].
    + destruct (entries e !! id) as [en|] eqn:E; [by rewrite decide_True by eauto|].
      rewrite decide_False by (intros [_ []]; done). unfold release, view. simpl. by rewrite E.
    + rewrite decide_False by tauto. cells.
Qed.

(** The last part of [start_lease], for a key without entry or whose expired
    entry was removed. *)
Lemma grant_missing_refines clk id ttl e σ :
  (∃ c, moves [] id c σ (view e)) →
  ∃ n, let x := cell_grant_missing clk ttl (lease_token n) (view e id) in
  let '(o, e') := start_lease_for_missing (clock_after 2 clk) id ttl e in
  o = x.1 ∧ moves [] id x.2 σ (view e').
Proof.
  intros [c Hm]. exists (next_access e).
  unfold start_lease_for_missing, cell_grant_missing, clock_after. rewrite held_view. simpl Nat.add.
  destruct (active_lease (clk 2%nat) id e) as [l|]; simpl.
  - split; [done|]. eapply moves_trans; [exact Hm | by apply moves_same].
  - split; [done|]. eapply moves_trans; [exact Hm | apply moves_grant].
Qed.

Lemma record_grant_refines clk id ttl e :
  let e1 := record_access id e in
  ∃ n, (create_lease (clk 3%nat) id ttl e1).1 = lease_token n ∧
    moves [] id (grant {| l_token := lease_token n; l_expires_at_ms := clk 3%nat +| ttl |}
                   (view e id)) (view e) (view (create_lease (clk 3%nat) id ttl e1).2).
Proof.
  intros e1. exists (next_access e1). split; [done|].
  rewrite <- (view_record_access id e id). eapply (moves_proper _ _ _ (view e1));
    [apply view_record_access | done | apply moves_grant].
Qed.

Lemma start_lease_refines clk ns key ttl e :
  spec_step place (EStartLease clk ns key ttl (start_lease clk ns key ttl e).1)
    (view e) (view (start_lease clk ns key ttl e).2).
Proof.
  cbn [spec_step]. unfold start_lease, entry_state, cell_start_lease.
  set (id := EntryId_new ns key). rewrite held_view. simpl item.
  destruct (record_grant_refines clk id ttl e) as (n & Hn & Hg).
  pose proof (record_access_lookup id e) as Hval.
  destruct (entries e !! id) as [en|] eqn:E; simpl.
  2:{ destruct (grant_missing_refines clk id ttl e (view e)) as [k Hk];
        [exists (view e id); by apply moves_same|].
      exists k. destruct (start_lease_for_missing _ id ttl e). exact Hk. }
  rewrite <- item_of_state. destruct (entry_state_at en (clk 1%nat)) eqn:Est.
  - unfold entry_state_at in Est. by repeat case_match.
  - exists 0. destruct (entries (record_access id e) !! id) as [en'|]; [|done].
    injection Hval as Hv. split; [by rewrite Hv|]. apply moves_same; [done | apply view_record_access].
  - destruct (active_lease (clk 0%nat) id e) as [l|].
    + exists 0. rewrite bool_decide_true by eauto. rewrite Hval. simpl. split; [done|].
      apply moves_same; [done | apply view_record_access].
    + exists n. rewrite bool_decide_false by (intros []; done). rewrite Hval.
      split; [by rewrite <- Hn | exact Hg].
  - destruct (active_lease (clk 0%nat) id e) as [l|].
    + exists 0. rewrite bool_decide_true by eauto. split; [done | by apply moves_same].
    + rewrite bool_decide_false by (intros []; done).
      pose proof (moves_remove id e en E) as Hr.
      destruct (grant_missing_refines clk id ttl (remove_entry id e).2 (view e)) as [k Hk]; [eauto|].
      exists k. rewrite (moves_target _ _ _ _ _ Hr) in Hk.
      destruct (start_lease_for_missing _ id ttl _). exact Hk.
Qed.

(** ** Methods that lose entries *)

Section losing.
Context `{HashOrder} (i : nat) (e : Engine).
Hypothesis Hinv : engine_inv e.
Hypothesis Hplace : ∀ j, is_Some (entries e !! j) → place j = i.

Lemma lost_losable (P : Item → Prop) e' :
  (∀ j en, j ∈ lost e e' → entries e !! j = Some en → P (item_of en)) →
  losable place i P (lost e e') (view e).
Proof.
  intros HP j Hj. pose proof Hj as [[en He] _]%elem_of_lost. split; [eauto|].
  exists (item_of en). split; [apply view_entry; eauto | eauto].
Qed.

Lemma invalidate_refines ns tag :
  spec_step place (EInvalidate i ns tag (invalidate_tag ns tag e).1)
    (view e) (view (invalidate_tag ns tag e).2).
Proof.
  destruct (invalidate_tag_entries ns tag e Hinv) as [He Hn].
  assert (sheds e (invalidate_tag ns tag e).2) as Hs
    by (apply (invalidate_tag_ind (sheds e)); eauto with cbx).
  pose proof (sheds_size _ _ Hs). cbn [spec_step]. exists (lost e (invalidate_tag ns tag e).2).
  split_and!; [apply lost_nodup | lia | by apply sheds_voids |].
  intros j. rewrite elem_of_lost, He, map_lookup_filter_None. split.
  - intros [[en Hj] [Hn'|Ht]]; [congruence|]. specialize (Ht en Hj). apply dec_stable in Ht.
    split; [eauto|]. destruct Ht as (en' & Hj' & ? & ?). exists (item_of en'). simpl in *.
    split; [apply view_entry; eauto | done].
  - intros (_ & it & Hit & Ht). apply view_entry in Hit as (en & Hj & <-). split; [eauto|].
    right. intros en' Hj'. simplify_eq. intros Hnt. apply Hnt. exists en. by destruct Ht.
Qed.
End losing.

Lemma reclaim_due clk m e j en :
  engine_inv e → j ∈ lost e (remove_expired clk m e).2 → entries e !! j = Some en →
  due (clk 0%nat) (item_of en).
Proof.
  intros Hinv Hj He. destruct (remove_expired_spec clk m e Hinv) as (taken & Htook & Hr).
  apply elem_of_lost in Hj as [_ Hn]. destruct (remove_expired clk m e) as [n e'].
  destruct Hr as (_ & He' & _). simpl in Hn. rewrite He', lookup_without in Hn.
  case_decide as Hin; [|congruence]. apply list_elem_of_fmap in Hin as (k & -> & Hk).
  destruct (took_due _ _ _ _ _ Htook k Hk) as [Hki Hle].
  destruct (expiry_key_entry e k Hinv Hki) as (en' & Hen' & Hkey). simplify_eq.
  unfold entry_expiry_key in Hkey. apply fmap_Some in Hkey as (t & Ht & Hk').
  rewrite Hk' in Hle. by exists t.
Qed.

Lemma remove_expired_sheds clk m e : sheds e (remove_expired clk m e).2.
Proof. apply (remove_expired_ind (sheds e)); eauto with cbx. Qed.

Lemma reclaim_refines i clk m e :
  engine_inv e → (∀ j, is_Some (entries e !! j) → place j = i) →
  spec_step place (EReclaim clk i m (reclaim_expired_budget clk m e).1)
    (view e) (view (reclaim_expired_budget clk m e).2).
Proof.
  intros Hinv Hplace. unfold reclaim_expired_budget.
  destruct (remove_expired_budget clk m e Hinv) as (Hm & Hn & Hall).
  pose proof (remove_expired_sheds clk m e) as Hs. pose proof (sheds_size _ _ Hs).
  exists (lost e (remove_expired clk m e).2).
  split_and!; [apply lost_nodup | lia | done | by apply sheds_voids | |].
  - apply lost_losable; [done|]. intros j en. by apply reclaim_due.
  - intros Hlt j it _ Hit (t & Ht & Hle). apply view_entry in Hit as (en & Hen & <-).
    set (k := {| xk_expires_at_ms := t; xk_id := j |}).
    assert (k ∈ expiry_index (remove_expired clk m e).2) as Hk.
    { apply (inv_expiry _ (remove_expired_inv clk m e Hinv) j k eq_refl). exists en.
      split; [done|]. unfold entry_expiry_key. simpl in Ht. by rewrite Ht. }
    specialize (Hall Hlt k Hk). simpl in Hall. lia.
Qed.

(** ** Writes *)

Section writes.
Context `{HashOrder}.

(** Making room: the old entry goes, then due entries, then evicted ones. *)
Lemma make_room_sheds clk id b e :
  engine_inv e → b ≤ max_memory_bytes (limits e) →
  let e1 := (remove_entry id e).2 in
  ∃ e2, sheds e1 e2 ∧
    (∀ j en, j ∈ lost e1 e2 → entries e1 !! j = Some en → due (clk 0%nat) (item_of en)) ∧
    let '(n, e') := make_room clk id b e in sheds e2 e' ∧ len (lost e2 e') = n.
Proof.
  intros Hinv Hb e1. unfold make_room. fold e1.
  pose proof (remove_entry_inv id e Hinv) as Hi1. fold e1 in Hi1.
  set (e2 := if max_memory_bytes (limits e1) <? (memory_used_bytes e1 +| b)
             then (reclaim_expired clk e1).2 else e1).
  exists e2.
  assert (engine_inv e2) as Hi2 by (unfold e2; case_match; [by apply remove_expired_inv | done]).
  split_and!.
  - unfold e2. case_match; [apply remove_expired_sheds | apply sheds_refl].
  - unfold e2. case_match; intros j en Hj; [by apply reclaim_due with (m := USIZE_MAX)|].
    apply elem_of_lost in Hj as [? ?]. congruence.
  - unfold evict_until_fits.
    pose proof (evict_loop_spec (S (size (entries e2))) b 0 e2 Hi2 ltac:(lia)) as Hs.
    assert (sheds e2 (evict_loop (S (size (entries e2))) b 0 e2).2) as Hsh
      by (apply (evict_loop_ind (sheds e2)); eauto with cbx).
    destruct (evict_loop _ b 0 e2) as [n e']. simpl in Hsh. split; [done|].
    pose proof (sheds_size _ _ Hsh). destruct Hs as (_ & _ & _ & Hn & _). lia.
Qed.

(** Entries lost in two stages from what a write leaves of the others. *)
Lemma sheds_stores i now id c e e1 e2 e3 e' :
  (∀ j, is_Some (entries e !! j) → place j = i) → place id = i →
  e1 = (remove_entry id e).2 → sheds e1 e2 → sheds e2 e3 →
  (∀ j en, j ∈ lost e1 e2 → entries e1 !! j = Some en → due now (item_of en)) →
  moves [] id c (view e3) (view e') →
  stores place now id (len (lost e2 e3)) c (view e) (view e').
Proof.
  intros Hp Hid -> H1 H2 Hdue Hm. rewrite <- Hid in Hp. set (e1 := (remove_entry id e).2) in *.
  assert (∀ j, is_Some (entries e1 !! j) → j ≠ id ∧ entries e !! j = entries e1 !! j) as He1.
  { intros j [en Hj]. unfold e1 in *. rewrite remove_entry_entries in *.
    apply lookup_delete_Some in Hj as [? Hj]. by rewrite lookup_delete_ne. }
  assert (∀ j, is_Some (entries e2 !! j) → view e2 j = view e1 j ∧ is_Some (entries e1 !! j)) as He2.
  { intros j [en Hj]. by destruct (sheds_lookup _ _ _ _ H1 Hj). }
  exists (lost e1 e2), (lost e2 e3). split_and!.
  - apply list.NoDup_app. split_and!; auto using lost_nodup. intros j. rewrite !elem_of_lost.
    intros [_ Hn] [[en Hs] _]. congruence.
  - rewrite elem_of_app, !elem_of_lost. intros [[Hj _]|[Hj _]]; [|apply He2 in Hj as [_ Hj]];
      by destruct (He1 _ Hj) as [? _].
  - intros j Hj. pose proof Hj as [[en He] _]%elem_of_lost. destruct (He1 j) as [_ Heq]; [eauto|].
    split; [apply Hp; rewrite Heq; eauto|]. exists (item_of en).
    split; [apply view_entry; rewrite Heq; eauto | eauto].
  - intros j Hj. pose proof Hj as [Hs _]%elem_of_lost. destruct (He2 j Hs) as [_ He].
    destruct (He1 j He) as [_ Heq]. destruct He as [en He].
    split; [apply Hp; rewrite Heq; eauto|]. exists (item_of en).
    split; [apply view_entry; rewrite Heq; eauto | done].
  - done.
  - intros j. rewrite (Hm j). destruct (decide (j = id)) as [->|Hj]; [done|].
    rewrite decide_False by set_solver.
    rewrite (sheds_voids _ _ H2 j), (sheds_voids _ _ H1 j).
    change (view e1 j) with (view (remove_entry id e).2 j).
    rewrite (view_remove id e j), (decide_False (P := j = id ∧ _)) by tauto.
    repeat case_decide; set_solver.
Qed.

(** The entry put in place, after room was made for it. *)
Lemma insert_moves now c e e2 e3 :
  sheds (remove_entry (command_id c) e).2 e2 → sheds e2 e3 →
  moves [] (command_id c) (cell_put now c (view e (command_id c))) (view e3)
    (view (insert_entry now (command_id c) c
             (estimate_entry_memory (command_id c) (pc_value c) (pc_tags c)) e3)).
Proof.
  intros H1 H2. set (id := command_id c) in *.
  assert (lease (view e3 id) = lease (cell_put now c (view e id))) as Hl.
  { assert (view e2 id = view (remove_entry id e).2 id) as Hv.
    { destruct (H1 id) as [?|[[en He] _]]; [done|].
      by rewrite remove_entry_entries, lookup_delete_eq in He. }
    assert (view e3 id = view e2 id) as ->.
    { destruct (H2 id) as [?|[He ?]]; [done|]. destruct He as [en He].
      assert (item (view e2 id) = Some (item_of en)) as Hi by (apply view_entry; eauto).
      rewrite Hv, (view_remove id e id) in Hi.
      case_decide as Hd; [done|]. apply view_entry in Hi as (? & ? & _). destruct Hd. eauto. }
    rewrite Hv, (view_remove id e id). unfold cell_put, view. simpl.
    destruct (entries e !! id); simpl; [by rewrite decide_True by eauto|].
    by rewrite decide_False by (intros [_ []]; done). }
  destruct (insert_entry_fields now c e3) as (He & _ & _ & Hle & _). fold id in He, Hle.
  intros j. unfold view at 1. unfold put_entry in He, Hle. simpl e_memory_bytes in He, Hle.
  fold (command_id c) in He, Hle. fold id in He, Hle. rewrite He, Hle.
  destruct (decide (j = id)) as [->|Hj].
  - rewrite lookup_insert_eq. simpl in *. unfold cell_put. by f_equal.
  - rewrite lookup_insert_ne by done. by rewrite decide_False by set_solver.
Qed.

Lemma put_refines i clk c e :
  engine_inv e → (∀ j, is_Some (entries e !! j) → place j = i) → place (command_id c) = i →
  spec_step place (EPut clk c (put clk c e).1) (view e) (view (put clk c e).2).
Proof.
  intros Hinv Hp Hid. pose proof (put_spec clk c e Hinv) as Hs.
  unfold put in *. fold (command_id c) in *.
  set (b := estimate_entry_memory (command_id c) (pc_value c) (pc_tags c)) in *.
  destruct (N.ltb_spec (max_value_bytes (limits e)) (len (pc_value c))) as [|Hv]; [done|].
  destruct (N.ltb_spec (max_memory_bytes (limits e)) b) as [|Hb]; [done|].
  destruct (make_room_sheds (clock_after 1 clk) (command_id c) b e Hinv Hb) as (e2 & H1 & Hdue & Hm).
  destruct (make_room _ _ b e) as [n e3]. destruct Hm as [H2 <-].
  destruct (max_memory_bytes (limits e3) <? _); [by destruct Hs as (_ & _ & [])|].
  cbn [spec_step fst snd po_evicted].
  eapply (sheds_stores i (clk 1%nat) (command_id c) _ e); eauto. by eapply insert_moves.
Qed.

(** What a write does to the other cells does not depend on its own. *)
Lemma stores_other now id n c σ τ σ' :
  (∀ j, j ≠ id → σ j = τ j) → stores place now id n c σ σ' → stores place now id n c τ σ'.
Proof.
  intros Heq (D1 & D2 & Hnd & Hid & H1 & H2 & Hn & Hm). exists D1, D2. split_and!; try done.
  - intros j Hj. rewrite <- Heq by set_solver. by apply H1.
  - intros j Hj. rewrite <- Heq by set_solver. by apply H2.
  - intros j. rewrite (Hm j). destruct (decide (j = id)) as [->|]; [done|]. by rewrite Heq.
Qed.

Lemma complete_refines i clk c e :
  engine_inv e → (∀ j, is_Some (entries e !! j) → place j = i) →
  place (command_id (completed_put c)) = i →
  spec_step place (EComplete clk c (complete_lease clk c e).1)
    (view e) (view (complete_lease clk c e).2).
Proof.
  intros Hinv Hp Hid. cbn [spec_step]. unfold step_complete, complete_lease.
  change (EntryId_new (cl_namespace c) (cl_key c)) with (command_id (completed_put c)).
  fold (completed_put c). set (id := command_id (completed_put c)) in *. rewrite held_view.
  destruct (active_lease (clk 0%nat) id e) as [l|]; [|split; [done | apply moves_release]].
  case_bool_decide as Ht; [rewrite decide_True by done | by rewrite decide_False by done].
  set (e0 := set_leases (base.delete id (leases e)) e).
  pose proof (moves_release id e) as Hrel. fold e0 in Hrel.
  pose proof (moves_target _ _ _ _ _ Hrel) as Hcell.
  pose proof (put_refines i (clock_after 1 clk) (completed_put c) e0
    (delete_lease_inv id e Hinv) Hp Hid) as Hs.
  destruct (put (clock_after 1 clk) (completed_put c) e0) as [r e']. cbn [fst snd spec_step] in *.
  fold id in Hs. rewrite Hcell in Hs.
  destruct r as [o|[]]; cbn [result_map_err] in *; try done;
    [|by eapply moves_proper; [..|exact Hrel]..].
  eapply stores_other; [|exact Hs]. intros j Hj. rewrite (Hrel j), decide_False by done.
  by rewrite decide_False by set_solver.
Qed.
End writes.
End place.

(** ** The engine as an implementation of the abstract cache *)

Section impl.
Context `{HashOrder}.

Fixpoint batch_events (clk : Clock) (ns : string) (keys : list bytes) (e : Engine) : list Event :=
  match keys with
  | [] => []
  | key :: keys =>
    let '(o, e) := get clk ns key e in
    EGet clk ns key o :: batch_events (clock_after 1 clk) ns keys e
  end.

(** The events of a call: one, or one for each key of a batch. *)
Definition engine_events (clk : Clock) (op : Op) (e : Engine) : list Event :=
  match op with
  | OpPut c => [EPut clk c (put clk c e).1]
  | OpGet ns key u => [EGet clk ns key (get_ref_inner clk ns key u e).1]
  | OpBatchGet ns keys => batch_events clk ns keys e
  | OpDelete ns key => [EDelete ns key (delete ns key e).1]
  | OpInvalidateTag ns tag => [EInvalidate 0 ns tag (invalidate_tag ns tag e).1]
  | OpStartLease ns key ttl => [EStartLease clk ns key ttl (start_lease clk ns key ttl e).1]
  | OpCompleteLease c => [EComplete clk c (complete_lease clk c e).1]
  | OpReclaim n => [EReclaim clk 0 n (reclaim_expired_budget clk n e).1]
  end.

(** One engine is a cache with a single shard. *)
Definition one_shard : EntryId → nat := λ _, 0%nat.

Lemma batch_refines clk ns keys e :
  spec_run one_shard (batch_events clk ns keys e) (view e) (view (batch_get clk ns keys e).2).
Proof.
  revert clk e. induction keys as [|key keys IH]; intros clk e; cbn [batch_events batch_get].
  - by constructor.
  - pose proof (get_refines one_shard clk ns key true e) as Hg. unfold get, get_ref.
    destruct (get_ref_inner clk ns key true e) as [o e1].
    specialize (IH (clock_after 1 clk) e1).
    destruct (batch_get (clock_after 1 clk) ns keys e1) as [os e2]. by econstructor.
Qed.

Lemma engine_refines clk op e :
  engine_inv e → spec_run one_shard (engine_events clk op e) (view e) (view (run_op clk op e)).
Proof.
  intros Hinv. destruct op; cbn [engine_events run_op]; try apply spec_run_one.
  - by apply (put_refines one_shard 0).
  - apply get_refines.
  - apply batch_refines.
  - apply delete_refines.
  - by apply (invalidate_refines one_shard 0).
  - apply start_lease_refines.
  - by apply (complete_refines one_shard 0).
  - by apply (reclaim_refines one_shard 0).
Qed.

#[export] Program Instance engine_impl : CacheImpl one_shard Engine (Clock * Op) := {|
  impl_step a e := Some (engine_events a.1 a.2 e, run_op a.1 a.2 e);
  impl_inv := engine_inv;
  impl_view := view
|}.
Next Obligation.
  intros [clk op] e evs e' Hinv [= <- <-]. split; [by apply run_op_inv | by apply engine_refines].
Qed.
End impl.
End CacheEngine.
