(* ===== verification/Concurrent.v ===== *)
(** * Concurrent: calls in parallel, section by section

    The server runs the calls of its connections in parallel on one
    [ShardedEngine].  A call holds one mutex at a time and releases it before
    it takes the next, so an execution is an interleaving of critical
    sections.  [begin] is the first section of a call, [next] a later one; a
    call in progress is a [Task], its remaining sections.  Every interleaving
    keeps each shard consistent and never panics; the tag directory, however,
    can lose a route for good, and then invalidation misses a stored entry. *)

From S2P Require Import Prelude Bytes Protocol Engine EngineInv EnginePut EngineOps Sharded.
From S2P Require Import ShardedInv ShardedSpec.

Module Concurrent.
Import Engine EngineInv EnginePut EngineOps Sharded ShardedInv ShardedSpec.

Inductive Task :=
| Routes (shard_index : nat) (add_tags remove_tags : list TagId)
| Invalidate (namespace tag : string) (shard_indices : list nat)
| Gets (clk : Clock) (namespace : string) (keys : list bytes)
| Reclaim (clk : Clock) (shard_index : nat) (remaining : N).

Record Config := { state : ShardedEngine; tasks : list Task }.

Section sections.
Context `{HashOrder, ShardEnv}.

(** [if result.is_ok() { new_tags } else { Vec::new() }] *)
Definition added {A E} (namespace : string) (tags : list string) (r : result A E) : list TagId :=
  if is_ok r then tag_ids namespace tags else [].

(** The shard section of a write, then its directory section as a task. *)
Definition begin_write {A} (namespace : string) (key : bytes) (write : Engine → A * Engine)
    (routes : A → list TagId → list Task) (s : ShardedEngine) :
    option (ShardedEngine * list Task) :=
  '(r, rem, s) ← with_shard (shard_index_for namespace key s) (write_section namespace key write) s;
  Some (s, routes r rem).

(** A call that is one section on the shard of its key. *)
Definition begin_key {A} (namespace : string) (key : bytes) (f : Engine → A * Engine)
    (s : ShardedEngine) : option (ShardedEngine * list Task) :=
  '(_, s) ← with_shard (shard_index_for namespace key s) f s;
  Some (s, []).

Definition begin (clk : Clock) (op : Op) (s : ShardedEngine) :
    option (ShardedEngine * list Task) :=
  match op with
  | OpPut c =>
    let i := shard_index_for (pc_namespace c) (pc_key c) s in
    begin_write (pc_namespace c) (pc_key c) (Engine.put clk c)
      (λ r rem, [Routes i (added (pc_namespace c) (pc_tags c) r) rem]) s
  | OpCompleteLease c =>
    let i := shard_index_for (cl_namespace c) (cl_key c) s in
    begin_write (cl_namespace c) (cl_key c) (Engine.complete_lease clk c)
      (λ r rem, [Routes i (added (cl_namespace c) (cl_tags c) r) rem]) s
  | OpDelete ns key =>
    let i := shard_index_for ns key s in
    begin_write ns key (Engine.delete ns key)
      (λ removed rem, if removed : bool then [Routes i [] rem] else []) s
  | OpGet ns key u => begin_key ns key (Engine.get_ref_inner clk ns key u) s
  | OpStartLease ns key ttl => begin_key ns key (Engine.start_lease clk ns key ttl) s
  | OpInvalidateTag ns tag =>
    let '(indices, s) := take_route (tag_id ns tag) s in Some (s, [Invalidate ns tag indices])
  | OpBatchGet ns keys => Some (s, [Gets clk ns keys])
  | OpReclaim n => Some (s, [Reclaim clk 0 n])
  end.

Definition next (t : Task) (s : ShardedEngine) : option (ShardedEngine * list Task) :=
  match t with
  | Routes i add rem => Some (update_tag_routes i add rem s, [])
  | Invalidate ns tag [] => Some (s, [])
  | Invalidate ns tag (i :: indices) =>
    '(_, s) ← with_shard i (Engine.invalidate_tag ns tag) s;
    Some (s, [Invalidate ns tag indices])
  | Gets clk ns [] => Some (s, [])
  | Gets clk ns (key :: keys) =>
    '(_, s) ← with_shard (shard_index_for ns key s) (Engine.get clk ns key) s;
    Some (s, [Gets (clock_after 1 clk) ns keys])
  | Reclaim clk i remaining =>
    if bool_decide (i = length (shards s)) || (remaining =? 0) then Some (s, [])
    else
      '(n, s) ← with_shard i (Engine.reclaim_expired_budget clk remaining) s;
      Some (s, [Reclaim (clock_after 1 clk) (S i) (remaining -| n)])
  end.

(** A scheduler's choice: start a call, or run the next section of task [k]. *)
Inductive Action :=
| Begin (clk : Clock) (op : Op)
| Next (k : nat).

Definition exec (a : Action) (c : Config) : option Config :=
  match a with
  | Begin clk op =>
    '(s, ts) ← begin clk op (state c);
    Some {| state := s; tasks := tasks c ++ ts |}
  | Next k =>
    t ← tasks c !! k;
    '(s, ts) ← next t (state c);
    Some {| state := s; tasks := take k (tasks c) ++ ts ++ drop (S k) (tasks c) |}
  end.

Inductive cstep : Config → Config → Prop :=
| cstep_exec a c c' : exec a c = Some c' → cstep c c'.

Definition run_actions (l : list Action) (c : Config) : option Config :=
  foldl (λ o a, c ← o; exec a c) (Some c) l.

(** ** What every interleaving preserves *)

Definition task_ok (s : ShardedEngine) (t : Task) : Prop :=
  match t with
  | Routes i _ _ => (i < length (shards s))%nat
  | Invalidate _ _ ixs => ∀ i, i ∈ ixs → (i < length (shards s))%nat
  | Gets _ _ _ => True
  | Reclaim _ i _ => (i ≤ length (shards s))%nat
  end.

Record conc_inv (c : Config) : Prop := {
  ci_nonempty : shards (state c) ≠ [];
  ci_shards : ∀ i e, shards (state c) !! i = Some e → shard_ok (state c) i e;
  ci_range : ∀ tid i, i ∈ default ∅ (tag_directory (state c) !! tid) →
    (i < length (shards (state c)))%nat;
  ci_tasks : Forall (task_ok (state c)) (tasks c)
}.

(** A section: what it needs of the state it finds and gives to the one it
    leaves, whatever tasks are pending. *)
Definition section_ok (s s' : ShardedEngine) : Prop :=
  same_shape s s' ∧
  (∀ i e, shards s' !! i = Some e → shard_ok s' i e) ∧
  (∀ tid i, i ∈ default ∅ (tag_directory s' !! tid) → (i < length (shards s'))%nat).

Lemma task_ok_shape s s' t : same_shape s s' → task_ok s t → task_ok s' t.
Proof. intros [Hl _]. destruct t; simpl; by rewrite ?Hl. Qed.

Lemma section_refl c : conc_inv c → section_ok (state c) (state c).
Proof. intros []. split; [reflexivity|]. auto. Qed.

Lemma section_store c i e e' X T :
  conc_inv c → shards (state c) !! i = Some e → engine_inv e' → evolves X T e e' →
  (∀ j, X j → home j (state c) = i) → section_ok (state c) (store_shard i e' (state c)).
Proof.
  intros [_ Hok Hr _] Hi Hinv Hev HX. set (s := state c) in *.
  assert (same_shape s (store_shard i e' s)) as Hsh by (split; [apply length_insert|done]).
  split_and!; [done| |]; destruct Hsh as [Hl Hlim].
  - intros j x Hx. apply (shard_ok_ext s); [done|done|].
    apply (store_shard_lookup i e) in Hx as [[-> ->]|[_ Hx]]; [|by apply Hok|done].
    by eapply evolves_shard_ok; [apply Hok|..].
  - intros tid j Hj. rewrite Hl. by eapply Hr.
Qed.

(** A section on the shard of a key. *)
Lemma begin_key_ok {A} c ns key (f : Engine → A * Engine) X :
  let id := EntryId_new ns key in
  conc_inv c →
  (∀ e, engine_inv e → engine_inv (f e).2 ∧ evolves X nothing e (f e).2) →
  (∀ j, X j → j = id) →
  ∃ e, shards (state c) !! home id (state c) = Some e ∧
    let s' := store_shard (home id (state c)) (f e).2 (state c) in
    with_shard (shard_index_for ns key (state c)) f (state c) = Some ((f e).1, s') ∧
    begin_key ns key f (state c) = Some (s', []) ∧ section_ok (state c) s'.
Proof.
  intros id Hc Hf HX. destruct (home_in_range id (state c) (ci_nonempty c Hc)) as [e He].
  exists e. split; [done|]. unfold begin_key.
  change (shard_index_for ns key (state c)) with (home id (state c)).
  rewrite (with_shard_spec _ f (state c) e He).
  destruct (Hf e (so_inv _ _ _ (ci_shards c Hc _ e He))) as [Hinv Hev].
  split_and!; [done..|].
  eapply section_store; [done|exact He|done|exact Hev|]. intros j Hj. by rewrite (HX j Hj).
Qed.

Lemma section_ok_length s s' : section_ok s s' → length (shards s') = length (shards s).
Proof. by intros [[]]. Qed.

Lemma home_lt c id : conc_inv c → (home id (state c) < length (shards (state c)))%nat.
Proof. intros Hc. apply lookup_lt_is_Some, home_in_range, Hc. Qed.

(** The shard section of a write and the task it leaves. *)
Lemma begin_write_ok {A} c ns key (write : Engine → A * Engine) routes (T : A → list TagId) :
  let id := EntryId_new ns key in
  conc_inv c →
  (∀ e, engine_inv e → engine_inv (write e).2 ∧
     evolves (only id) (members (T (write e).1)) e (write e).2) →
  ∃ e rem, shards (state c) !! home id (state c) = Some e ∧
    let s' := store_shard (home id (state c)) (write e).2 (state c) in
    begin_write ns key write routes (state c) = Some (s', routes (write e).1 rem) ∧
    section_ok (state c) s' ∧
    evolves (only id) (members (T (write e).1)) e (write e).2 ∧
    (∀ tid j, tid ∈ rem → ¬ tagged (entries (write e).2) tid j).
Proof.
  intros id Hc Hw. destruct (home_in_range id (state c) (ci_nonempty c Hc)) as [e He].
  destruct (write_section_spec ns key write (state c) e He) as (rem & Heq & Hrem).
  destruct (Hw e (so_inv _ _ _ (ci_shards c Hc _ e He))) as [Hinv Hev].
  exists e, rem. split; [done|]. unfold begin_write. rewrite Heq. simpl. split_and!; [done| |done|].
  - eapply section_store; [done|exact He|done|exact Hev|]. by intros j ->.
  - intros tid j Ht. apply has_tag_id_false; auto.
Qed.

Lemma put_write_ok clk c e :
  engine_inv e → engine_inv (Engine.put clk c e).2 ∧
  evolves (only (command_id c))
    (members (added (pc_namespace c) (pc_tags c) (Engine.put clk c e).1))
    e (Engine.put clk c e).2.
Proof.
  intros Hinv. split; [by apply put_inv|]. pose proof (put_evolves clk c e Hinv).
  by destruct (Engine.put clk c e).
Qed.

Lemma complete_write_ok clk c e :
  engine_inv e → engine_inv (Engine.complete_lease clk c e).2 ∧
  evolves (only (EntryId_new (cl_namespace c) (cl_key c)))
    (members (added (cl_namespace c) (cl_tags c) (Engine.complete_lease clk c e).1))
    e (Engine.complete_lease clk c e).2.
Proof.
  intros Hinv. split; [by apply complete_lease_inv|]. pose proof (complete_lease_evolves clk c e Hinv).
  by destruct (Engine.complete_lease clk c e).
Qed.

Lemma delete_write_ok ns key e :
  engine_inv e → engine_inv (Engine.delete ns key e).2 ∧
  evolves (only (EntryId_new ns key)) (members []) e (Engine.delete ns key e).2.
Proof.
  intros Hinv. split; [by apply delete_inv|].
  eapply evolves_weaken; [| |apply delete_evolves]; by intros ? [].
Qed.

Lemma section_take c tid : conc_inv c → section_ok (state c) (take_route tid (state c)).2.
Proof.
  intros [_ Hok Hr _]. split_and!; [done| |]; simpl.
  - intros i e Hi. by apply (shard_ok_ext (state c)); [..|apply Hok].
  - intros t i. rewrite lookup_delete. case_decide; [set_solver|]. apply Hr.
Qed.

Lemma take_route_range c tid i :
  conc_inv c → i ∈ (take_route tid (state c)).1 →
  i ∈ default ∅ (tag_directory (state c) !! tid).
Proof.
  intros Hc. simpl. destruct (tag_directory (state c) !! tid); simpl; [|set_solver].
  by rewrite shards_iter_perm, elem_of_elements.
Qed.

Lemma begin_ok clk op c :
  conc_inv c →
  ∃ s' ts, begin clk op (state c) = Some (s', ts) ∧ section_ok (state c) s' ∧
    Forall (task_ok (state c)) ts.
Proof.
  intros Hc. destruct op as [pc|ns key u|ns keys|ns key|ns tag|ns key ttl|cl|n];
    cbn [begin]; pose proof (λ id, home_lt c id Hc) as Hlt.
  - destruct (begin_write_ok c (pc_namespace pc) (pc_key pc) (Engine.put clk pc)
      (λ r rem, [Routes (home (command_id pc) (state c))
        (added (pc_namespace pc) (pc_tags pc) r) rem])
      (added (pc_namespace pc) (pc_tags pc)) Hc (put_write_ok clk pc)) as (e & rem & _ & Heq & Hs & _).
    eexists _, _. split_and!; [exact Heq | exact Hs |]. by constructor; [apply Hlt|].
  - destruct (begin_key_ok c ns key (Engine.get_ref_inner clk ns key u) nothing Hc)
      as (e & _ & _ & Heq & Hs); [auto using get_ref_inner_inv, get_evolves | by intros j []|].
    by eexists _, _.
  - eexists _, _. split_and!; [reflexivity | by apply section_refl | by repeat constructor].
  - destruct (begin_write_ok c ns key (Engine.delete ns key)
      (λ (removed : bool) rem, if removed
         then [Routes (home (EntryId_new ns key) (state c)) [] rem] else []) (λ _, []) Hc
      (delete_write_ok ns key)) as (e & rem & _ & Heq & Hs & _).
    eexists _, _. split_and!; [exact Heq | exact Hs |].
    destruct (Engine.delete ns key e).1; [|constructor]. by constructor; [apply Hlt|].
  - eexists _, _. split_and!; [reflexivity | by apply (section_take c) |].
    constructor; [|constructor]. intros i Hi. eapply ci_range; [done|].
    by apply (take_route_range c (tag_id ns tag)).
  - destruct (begin_key_ok c ns key (Engine.start_lease clk ns key ttl)
      (only (EntryId_new ns key)) Hc) as (e & _ & _ & Heq & Hs);
      [auto using start_lease_inv, start_lease_evolves | done |].
    by eexists _, _.
  - destruct (begin_write_ok c (cl_namespace cl) (cl_key cl) (Engine.complete_lease clk cl)
      (λ r rem, [Routes (home (EntryId_new (cl_namespace cl) (cl_key cl)) (state c))
        (added (cl_namespace cl) (cl_tags cl) r) rem])
      (added (cl_namespace cl) (cl_tags cl)) Hc (complete_write_ok clk cl)) as (e & rem & _ & Heq & Hs & _).
    eexists _, _. split_and!; [exact Heq | exact Hs |]. by constructor; [apply Hlt|].
  - eexists _, _. split_and!; [reflexivity | by apply section_refl |].
    constructor; [simpl; lia|constructor].
Qed.

Lemma section_routes c i add rem :
  conc_inv c → (i < length (shards (state c)))%nat →
  section_ok (state c) (update_tag_routes i add rem (state c)).
Proof.
  intros [_ Hok Hr _] Hi. split; [apply update_routes_shape|].
  rewrite update_tag_routes_shards. split.
  - intros j e Hj. apply (shard_ok_ext (state c));
      [by rewrite update_tag_routes_shards | apply update_tag_routes_limits | by apply Hok].
  - intros tid j. rewrite update_tag_routes_lookup. intros [[Hj _]|[-> _]]; eauto.
Qed.

(** A section on any shard that adds nothing. *)
Lemma section_any {A} c i (f : Engine → A * Engine) :
  conc_inv c → (i < length (shards (state c)))%nat →
  (∀ e, engine_inv e → engine_inv (f e).2 ∧ evolves nothing nothing e (f e).2) →
  ∃ e, shards (state c) !! i = Some e ∧
    with_shard i f (state c) = Some ((f e).1, store_shard i (f e).2 (state c)) ∧
    section_ok (state c) (store_shard i (f e).2 (state c)).
Proof.
  intros Hc Hi Hf. apply lookup_lt_is_Some in Hi as [e He]. exists e. split; [done|].
  split; [by apply with_shard_spec|].
  destruct (Hf e (so_inv _ _ _ (ci_shards c Hc _ e He))) as [Hinv Hev].
  eapply section_store; [done|exact He|done|exact Hev|by intros j []].
Qed.

Lemma next_ok t c :
  conc_inv c → task_ok (state c) t →
  ∃ s' ts, next t (state c) = Some (s', ts) ∧ section_ok (state c) s' ∧
    Forall (task_ok (state c)) ts.
Proof.
  intros Hc Ht. destruct t as [i add rem|ns tag [|i ixs]|clk ns [|key keys]|clk i rem];
    cbn [next].
  - eexists _, _. split_and!; [reflexivity | by apply section_routes | constructor].
  - eexists _, _. split_and!; [reflexivity | by apply section_refl | constructor].
  - destruct (section_any c i (Engine.invalidate_tag ns tag)) as (e & _ & -> & Hs);
      [done | apply Ht; set_solver | auto using invalidate_tag_inv, invalidate_evolves |].
    eexists _, _. split_and!; [reflexivity | exact Hs |].
    constructor; [|constructor]. intros j Hj. apply Ht. set_solver.
  - eexists _, _. split_and!; [reflexivity | by apply section_refl | constructor].
  - destruct (begin_key_ok c ns key (Engine.get clk ns key) nothing Hc)
      as (e & _ & Heq & _ & Hs).
    { intros x Hx. split; [by apply get_ref_inner_inv | apply get_evolves]. }
    { by intros j []. }
    rewrite Heq. eexists _, _. split_and!; [reflexivity | exact Hs | by repeat constructor].
  - destruct (bool_decide _ || _) eqn:E.
    { eexists _, _. split_and!; [reflexivity | by apply section_refl | constructor]. }
    apply orb_false_iff in E as [Hi%bool_decide_eq_false _]. simpl in Ht.
    destruct (section_any c i (Engine.reclaim_expired_budget clk rem)) as (e & _ & -> & Hs);
      [done | lia | auto using remove_expired_inv, reclaim_evolves |].
    eexists _, _. split_and!; [reflexivity | exact Hs |]. constructor; [simpl; lia|constructor].
Qed.

Lemma section_conc_inv c s' ts :
  conc_inv c → section_ok (state c) s' → Forall (task_ok (state c)) ts →
  conc_inv {| state := s'; tasks := ts |}.
Proof.
  intros [Hne _ _ _] (Hsh & Hok & Hr) Hts. split; simpl; [|done|done|].
  - intros Hnil. apply Hne, length_zero_iff_nil. destruct Hsh as [<- _]. by rewrite Hnil.
  - eapply Forall_impl; [|exact Hts]. intros t. by apply task_ok_shape.
Qed.

Lemma exec_begin_ok clk op c :
  conc_inv c → ∃ c', exec (Begin clk op) c = Some c' ∧ conc_inv c'.
Proof.
  intros Hc. destruct (begin_ok clk op c Hc) as (s' & ts & Heq & Hs & Hts). simpl.
  rewrite Heq. simpl. eexists. split; [reflexivity|]. eapply section_conc_inv; [done..|].
  apply Forall_app. split; [apply Hc | done].
Qed.

Lemma exec_next_ok k t c :
  conc_inv c → tasks c !! k = Some t → ∃ c', exec (Next k) c = Some c' ∧ conc_inv c'.
Proof.
  intros Hc Hk. pose proof (ci_tasks c Hc) as Hts.
  destruct (next_ok t c Hc) as (s' & ts & Heq & Hs & Hnew).
  { by eapply (Forall_lookup_1 (task_ok (state c))). }
  simpl. rewrite Hk. simpl. rewrite Heq. simpl. eexists. split; [reflexivity|].
  eapply section_conc_inv; [done..|].
  rewrite !Forall_app. auto using Forall_take, Forall_drop.
Qed.

Lemma cstep_inv c c' : conc_inv c → cstep c c' → conc_inv c'.
Proof.
  intros Hc Hstep. revert Hc. destruct Hstep as [[clk op|k] c1 c2 Heq]; intros Hc.
  - destruct (exec_begin_ok clk op c1 Hc) as (c3 & Heq' & Hc3). congruence.
  - destruct (tasks c1 !! k) as [t|] eqn:Hk; [|simpl in Heq; by rewrite Hk in Heq].
    destruct (exec_next_ok k t c1 Hc Hk) as (c3 & Heq' & Hc3). congruence.
Qed.

Lemma idle_conc_inv s : sharded_inv s → conc_inv {| state := s; tasks := [] |}.
Proof. intros []. by split. Qed.

Lemma creachable_inv s c : sharded_inv s → rtc cstep {| state := s; tasks := [] |} c → conc_inv c.
Proof.
  intros Hs Hr. apply (rtc_ind_r conc_inv _ (idle_conc_inv s Hs)) in Hr; [done|].
  intros c1 c2 _ Hstep IH. by eapply cstep_inv.
Qed.

(** ** Sections compose to calls

    A call run alone, all its sections in a row, is the sequential operation. *)

Lemma write_alone {A} ns key (write : Engine → A * Engine) (add : A → list TagId) s :
  let i := shard_index_for ns key s in
  ('(s1, ts) ← begin_write ns key write (λ r rem, [Routes i (add r) rem]) s;
   match ts with [t] => fst <$> next t s1 | _ => None end) =
  ('(r, rem, s1) ← with_shard i (write_section ns key write) s;
   Some (update_tag_routes i (add r) rem s1)).
Proof.
  intros i. unfold begin_write. fold i.
  by destruct (with_shard i (write_section ns key write) s) as [[[r rem] s1]|].
Qed.

Fixpoint next_all (fuel : nat) (t : Task) (s : ShardedEngine) : option ShardedEngine :=
  match fuel with
  | O => None
  | S fuel =>
    '(s, ts) ← next t s;
    match ts with
    | [] => Some s
    | t :: _ => next_all fuel t s
    end
  end.

Lemma invalidate_alone ns tag ixs s :
  next_all (S (length ixs)) (Invalidate ns tag ixs) s = snd <$> invalidate_shards ns tag ixs s.
Proof.
  revert s. induction ixs as [|i ixs IH]; intros s; [done|].
  change (next_all (S (length (i :: ixs))) (Invalidate ns tag (i :: ixs)) s) with
    ('(s, ts) ← next (Invalidate ns tag (i :: ixs)) s;
     match ts with [] => Some s | t :: _ => next_all (S (length ixs)) t s end).
  cbn [next invalidate_shards].
  destruct (with_shard i (Engine.invalidate_tag ns tag) s) as [[n s1]|]; [|done].
  cbn [mbind option_bind]. rewrite IH.
  by destruct (invalidate_shards ns tag ixs s1) as [[m s2]|].
Qed.
End sections.

Lemma run_actions_reachable `{HashOrder, ShardEnv} l c c' :
  run_actions l c = Some c' → rtc cstep c c'.
Proof.
  assert (∀ l o c', foldl (λ o a, c ← o; exec a c) o l = Some c' →
    ∃ c, o = Some c ∧ rtc cstep c c') as Hgen.
  { clear. intros l. induction l as [|a l IH]; intros o c' Hl; simpl in Hl.
    - exists c'. split; [done | apply rtc_refl].
    - apply IH in Hl as (c1 & Hc1 & Hr). destruct o as [c|]; [|done]. exists c.
      split; [done|]. eapply rtc_l; [|exact Hr]. by eapply cstep_exec. }
  intros Hl. destruct (Hgen l (Some c) c' Hl) as (c1 & [= ->] & Hr). done.
Qed.

(** ** Claims *)

(** Concurrency safety.  In every interleaving of the critical sections of
    any calls, started from a consistent state, every shard satisfies the
    engine invariant and holds only its own keys, a new call can always start
    and every call in progress can always take its next step (no index is out
    of range). *)
Theorem concurrent_safe `{HashOrder, ShardEnv} s c :
  sharded_inv s → rtc cstep {| state := s; tasks := [] |} c →
  (∀ i e, shards (state c) !! i = Some e → shard_ok (state c) i e) ∧
  (∀ clk op, is_Some (exec (Begin clk op) c)) ∧
  (∀ k, (k < length (tasks c))%nat → is_Some (exec (Next k) c)).
Proof.
  intros Hs Hr. pose proof (creachable_inv s c Hs Hr) as Hc. split_and!.
  - apply Hc.
  - intros clk op. destruct (exec_begin_ok clk op c Hc) as (c' & -> & _). eauto.
  - intros k Hk. apply lookup_lt_is_Some in Hk as [t Ht].
    destruct (exec_next_ok k t c Hc Ht) as (c' & -> & _). eauto.
Qed.

(** The interleaving of [concurrent_route_lost]: ["a"] with tag ["t"] is stored; its deletion runs
    its shard section; ["c"], of the same shard, is stored with the same tag
    and registers its route; only then the deletion updates the directory. *)
Definition race : list Action :=
  [Begin (manual_clock 0) (OpPut (demo_put "a" ["t"%string])); Next 0;
   Begin (manual_clock 1) (OpDelete "default" (as_bytes "a"));
   Begin (manual_clock 2) (OpPut (demo_put "c" ["t"%string]));
   Next 1; Next 0].

Definition idle : Config := {| state := demo_new; tasks := [] |}.

Lemma demo_new_inv : @sharded_inv demo_env demo_new.
Proof. by apply (@sharded_new_inv demo_env demo_sharded_limits 2). Qed.

Lemma concurrent_safe_witness :
  ∃ c, @run_actions canonical_order demo_env (take 4 race) idle = Some c ∧
    (∀ i e, shards (state c) !! i = Some e → @shard_ok demo_env (state c) i e).
Proof.
  assert (bool_decide (is_Some (@run_actions canonical_order demo_env (take 4 race) idle)) = true)
    as Hsome by (vm_compute; reflexivity).
  destruct (@run_actions canonical_order demo_env (take 4 race) idle) as [c|] eqn:E; [|discriminate].
  exists c. split; [reflexivity|].
  apply (@concurrent_safe canonical_order demo_env demo_new c demo_new_inv).
  exact (@run_actions_reachable canonical_order demo_env _ _ _ E).
Defined.

(** A route is lost.  After the interleaving [race], a deletion overlapped by a
    [put] of another key of the shard, with all calls completed, an entry tagged ["t"] is stored and readable, yet the directory
    has no route for the tag: invalidating it removes nothing and the entry is
    still served. *)
Theorem concurrent_route_lost :
  match @run_actions canonical_order demo_env race idle with
  | None => False
  | Some c =>
    tasks c = [] ∧
    tag_directory (state c) !! tag_id "default" "t" = None ∧
    (e_tags <$> @slookup demo_env (EntryId_new "default" (as_bytes "c")) (state c))
      = Some ["t"%string] ∧
    match @invalidate_tag canonical_order demo_env "default" "t" (state c) with
    | Some (n, s) => n = 0 ∧
        (fst <$> @get demo_env (manual_clock 3) "default" (as_bytes "c") s)
          = Some (GHit (as_bytes "v"))
    | None => False
    end
  end.
Proof. vm_compute. repeat split; reflexivity. Qed.
End Concurrent.
