(* ===== verification/Consistent.v ===== *)
(** * Consistent: what holds of the engine between any two critical sections

    The calls of the server overlap, so a state that a call finds may be one in
    which another call has run its shard section and not yet its directory
    section.  [consistent] is the part of the engine's invariant that holds of
    those states too: every shard satisfies the engine invariant and holds only
    its own keys, and the directory names shards that exist.  The routes of the
    directory are left out.  From such a state no call panics, a call on a key
    is the engine's call on the key's shard, and the state stays consistent. *)

From S2P Require Import Prelude Bytes Protocol Engine EngineInv EnginePut EngineOps Sharded.
From S2P Require Import ShardedInv ShardedSpec Concurrent.

Module Consistent.
Import Engine EngineInv EnginePut EngineOps Sharded ShardedInv ShardedSpec Concurrent.

Section consistent.
Context `{HashOrder, ShardEnv}.

(** The invariant of interleavings, with no call of ours in progress. *)
Definition consistent (s : ShardedEngine) : Prop := conc_inv {| state := s; tasks := [] |}.

Lemma inv_consistent s : sharded_inv s → consistent s.
Proof. apply idle_conc_inv. Qed.

Lemma conc_consistent c : conc_inv c → consistent (state c).
Proof. intros []. by split. Qed.

Lemma consistent_nonempty s : consistent s → shards s ≠ [].
Proof. apply ci_nonempty. Qed.

Lemma consistent_shard s i e : consistent s → shards s !! i = Some e → shard_ok s i e.
Proof. intros Hs. apply (ci_shards _ Hs). Qed.

Lemma section_consistent s s' : consistent s → section_ok s s' → consistent s'.
Proof. intros Hs Hok. by eapply section_conc_inv; [exact Hs|..]. Qed.

(** ** Calls on one key *)

(** A write: its shard section, then its directory section. *)
Lemma write_consistent {A} ns key (write : Engine → A * Engine) (T : A → list TagId)
    (routes : A → list TagId → ShardedEngine → ShardedEngine) s e :
  let id := EntryId_new ns key in
  consistent s → shards s !! home id s = Some e →
  (∀ e, engine_inv e → engine_inv (write e).2 ∧
     evolves (only id) (members (T (write e).1)) e (write e).2) →
  (∀ a rem s1, routes a rem s1 = s1 ∨
     ∃ add, routes a rem s1 = update_tag_routes (home id s) add rem s1) →
  ∃ rem s', with_shard (shard_index_for ns key s) (write_section ns key write) s
      = Some (((write e).1, rem), s') ∧
    consistent (routes (write e).1 rem s') ∧
    shards (routes (write e).1 rem s') = <[home id s := (write e).2]> (shards s).
Proof.
  intros id Hs He Hw Hr. destruct (write_section_spec ns key write s e He) as (rem & Heq & _).
  exists rem. eexists. split; [exact Heq|]. set (s1 := store_shard _ _ s).
  destruct (Hw e (so_inv _ _ _ (consistent_shard s _ e Hs He))) as [Hinv Hev].
  assert (consistent s1) as Hs1.
  { eapply section_consistent; [exact Hs|]. eapply (section_store _ _ _ _ _ _ Hs); [exact He|done|exact Hev|].
    by intros j ->. }
  destruct (Hr (write e).1 rem s1) as [->|[add ->]]; [done|].
  rewrite update_tag_routes_shards. split; [|done]. eapply section_consistent; [exact Hs1|].
  apply (section_routes _ _ _ _ Hs1). simpl. rewrite length_insert. by eapply lookup_lt_Some.
Qed.

Lemma local_consistent {A} (f : Engine → A * Engine) id X s e :
  consistent s → shards s !! home id s = Some e →
  engine_inv (f e).2 → evolves X nothing e (f e).2 → (∀ j, X j → j = id) →
  ∃ s', with_shard (home id s) f s = Some ((f e).1, s') ∧ consistent s' ∧
    shards s' = <[home id s := (f e).2]> (shards s).
Proof.
  intros Hs He Hinv Hev HX. rewrite (with_shard_spec _ f s e He). eexists.
  split; [reflexivity|]. split; [|done]. eapply section_consistent; [exact Hs|].
  eapply (section_store _ _ _ _ _ _ Hs); [exact He|done|exact Hev|].
  intros j Hj. by rewrite (HX j Hj).
Qed.

(** A call on a key is the engine's call on the shard of that key. *)
Lemma keyed_consistent clk op id s :
  consistent s → op_key op = Some id →
  ∃ e s', shards s !! home id s = Some e ∧
    sharded_reply clk op s = Some ((engine_reply clk op e).1, s') ∧ consistent s' ∧
    shards s' = <[home id s := (engine_reply clk op e).2]> (shards s).
Proof.
  intros Hs Hop. destruct (home_in_range id s (consistent_nonempty s Hs)) as [e He].
  pose proof (so_inv _ _ _ (consistent_shard s _ _ Hs He)) as Hinv. exists e.
  destruct op as [c|ns key u|ns keys|ns key|ns tag|ns key ttl|c|n]; simplify_eq/=.
  - destruct (write_consistent (pc_namespace c) (pc_key c) (Engine.put clk c)
      (added (pc_namespace c) (pc_tags c))
      (λ r rem, update_tag_routes (home (command_id c) s) (added (pc_namespace c) (pc_tags c) r) rem)
      s e Hs He (put_write_ok clk c)) as (rem & s' & Heq & Hc & Hsh); [eauto|].
    eexists. split_and!; [done| |exact Hc|exact Hsh]. unfold put. rewrite Heq. by destruct (Engine.put clk c e).1.
  - assert (∀ u, ∃ s', with_shard (home (EntryId_new ns key) s)
        (λ e, Engine.get_ref_inner clk ns key u e) s
      = Some ((Engine.get_ref_inner clk ns key u e).1, s') ∧ consistent s' ∧
        shards s' = <[home (EntryId_new ns key) s := (Engine.get_ref_inner clk ns key u e).2]>
          (shards s)) as Hg.
    { intros v. apply (local_consistent _ _ nothing); auto using get_ref_inner_inv, get_evolves.
      by intros j []. }
    destruct (Hg u) as (s' & Heq & Hs' & Hsh). exists s'. split; [done|].
    destruct u; (split_and!; [|done|done]);
      unfold get_ref, get_ref_without_access_update; exact (f_equal (fmap (rmap RpGet)) Heq).
  - destruct (write_consistent ns key (Engine.delete ns key) (λ _, [])
      (λ (removed : bool) rem s1,
         if removed then update_tag_routes (home (EntryId_new ns key) s) [] rem s1 else s1)
      s e Hs He (delete_write_ok ns key)) as (rem & s' & Heq & Hc & Hsh).
    { intros [] rem s1; eauto. }
    eexists. split_and!; [done| |exact Hc|exact Hsh]. unfold delete. rewrite Heq.
    by destruct (Engine.delete ns key e).1.
  - destruct (local_consistent (Engine.start_lease clk ns key ttl) (EntryId_new ns key)
      (only (EntryId_new ns key)) s e) as (s' & Heq & Hs' & Hsh);
      auto using start_lease_inv, start_lease_evolves.
    exists s'. split_and!; [done| |done|done]. exact (f_equal (fmap (rmap RpLease)) Heq).
  - destruct (write_consistent (cl_namespace c) (cl_key c) (Engine.complete_lease clk c)
      (added (cl_namespace c) (cl_tags c))
      (λ r rem, update_tag_routes (home (EntryId_new (cl_namespace c) (cl_key c)) s)
         (added (cl_namespace c) (cl_tags c) r) rem)
      s e Hs He (complete_write_ok clk c)) as (rem & s' & Heq & Hc & Hsh); [eauto|].
    eexists. split_and!; [done| |exact Hc|exact Hsh]. unfold complete_lease. rewrite Heq.
    by destruct (Engine.complete_lease clk c e).1.
Qed.

(** ** Calls on several shards *)

Lemma get_consistent clk ns key s :
  consistent s → ∃ o s', get clk ns key s = Some (o, s') ∧ consistent s'.
Proof.
  intros Hs. destruct (keyed_consistent clk (OpGet ns key true) _ s Hs eq_refl)
    as (e & s' & _ & Heq & Hs' & _). simpl in Heq.
  change (get clk ns key s) with (get_ref clk ns key s).
  apply fmap_Some in Heq as ([o s''] & Heq & Heq'). exists o, s''.
  split; [exact Heq|]. by injection Heq' as _ <-.
Qed.

Lemma batch_get_consistent clk ns keys s :
  consistent s → ∃ os s', batch_get clk ns keys s = Some (os, s') ∧ consistent s'.
Proof.
  revert clk s. induction keys as [|key keys IH]; intros clk s Hs; simpl; [by eauto|].
  destruct (get_consistent clk ns key s Hs) as (o & s1 & -> & Hs1). simpl.
  destruct (IH (clock_after 1 clk) s1 Hs1) as (os & s2 & -> & Hs2). simpl. eauto.
Qed.

Lemma invalidate_shards_consistent ns tag ixs s :
  consistent s → (∀ i, i ∈ ixs → (i < length (shards s))%nat) →
  ∃ n s', invalidate_shards ns tag ixs s = Some (n, s') ∧ consistent s'.
Proof.
  revert s. induction ixs as [|i ixs IH]; intros s Hs Hlt; simpl; [by eauto|].
  destruct (section_any _ i (Engine.invalidate_tag ns tag) Hs) as (e & He & Heq & Hok);
    [apply Hlt; set_solver | auto using invalidate_tag_inv, invalidate_evolves |].
  cbn [state] in Heq. rewrite Heq. simpl. destruct (IH (store_shard i (Engine.invalidate_tag ns tag e).2 s))
    as (n & s' & -> & Hs').
  - by eapply section_consistent.
  - intros j Hj. simpl. rewrite length_insert. apply Hlt. set_solver.
  - simpl. eauto.
Qed.

Lemma invalidate_consistent ns tag s :
  consistent s → ∃ n s', invalidate_tag ns tag s = Some (n, s') ∧ consistent s'.
Proof.
  intros Hs. unfold invalidate_tag. destruct (take_route (tag_id ns tag) s) as [ixs s1] eqn:E.
  pose proof (section_take _ (tag_id ns tag) Hs) as Hok. simpl in Hok.
  pose proof (λ i, take_route_range _ (tag_id ns tag) i Hs) as Hr. simpl in Hr.
  unfold take_route in E. injection E as <- <-.
  apply invalidate_shards_consistent; [by eapply section_consistent|].
  intros i Hi. apply (ci_range _ Hs (tag_id ns tag)). by apply Hr.
Qed.

Lemma reclaim_consistent clk n s : consistent s → consistent (reclaim_expired_budget clk n s).2.
Proof.
  intros Hs. unfold reclaim_expired_budget. destruct (_ =? _); [done|].
  assert (Forall engine_inv (shards s)) as Hall.
  { apply Forall_lookup. intros i e Hi. exact (so_inv _ _ _ (consistent_shard s i e Hs Hi)). }
  pose proof (reclaim_shards_spec clk n 0 (shards s) Hall) as Hr.
  destruct (reclaim_shards clk n 0 (shards s)) as [r es]. destruct Hr as [Hes _].
  pose proof (Forall2_length Hes) as Hlen. eapply section_consistent; [exact Hs|].
  split_and!; [by split| |]; simpl.
  - intros i e' Hi. destruct (Forall2_lookup_r _ _ _ _ _ Hes Hi) as (e & He & Hinv & Hev).
    apply (shard_ok_ext s); [done | done |].
    by eapply evolves_shard_ok; [by apply consistent_shard|exact Hev|done|intros j []].
  - intros tid i Hi. rewrite <- Hlen. by eapply (ci_range _ Hs).
Qed.

(** ** Every call *)

Lemma reply_consistent clk op s :
  consistent s → ∃ r s', sharded_reply clk op s = Some (r, s') ∧ consistent s'.
Proof.
  intros Hs. destruct (op_key op) as [id|] eqn:Hop.
  { destruct (keyed_consistent clk op id s Hs Hop) as (e & s' & _ & Heq & Hs' & _). eauto. }
  destruct op as [c|ns key u|ns keys|ns key|ns tag|ns key ttl|c|n]; try done; simpl.
  - destruct (batch_get_consistent clk ns keys s Hs) as (os & s' & -> & Hs'). simpl. eauto.
  - destruct (invalidate_consistent ns tag s Hs) as (n & s' & -> & Hs'). simpl. eauto.
  - eexists _, _. split; [reflexivity|]. by apply reclaim_consistent.
Qed.

(** The bytes charged, between sections as between calls. *)
Lemma consistent_memory s :
  consistent s →
  memory_used_bytes s ≤ max_memory_bytes (sh_limits s) + (len (shards s) - 1).
Proof.
  intros Hs. etrans.
  - apply (sum_shards_le _ (max_memory_bytes (shard_limits (sh_limits s) (length (shards s))))).
    intros i e Hi. pose proof (consistent_shard s i e Hs Hi) as Hok.
    rewrite <- (so_limits _ _ _ Hok). apply (acc_limit e (inv_accounts e (so_inv _ _ _ Hok))).
  - unfold shard_limits. cbn [max_memory_bytes]. apply div_ceil_mul.
    pose proof (consistent_nonempty s Hs). destruct (shards s); [done|]. rewrite len_cons. lia.
Qed.
End consistent.
End Consistent.
