(* ===== verification/Linear.v ===== *)
(** * Linear: concurrent calls are atomic calls of the abstract cache

    [Concurrent] interleaves the critical sections of calls on the sharded
    engine.  Here each section is one event of [CacheSpec], with the reply
    the caller gets, or none: the section that updates the tag directory
    changes no cell.  So the events of any interleaving, in the order of the
    sections, are a run of the abstract cache: a keyed call takes effect at
    its shard section.  The clients' guarantees of [CacheSpec] follow. *)

From S2P Require Import Prelude Bytes Protocol Engine EngineInv EnginePut EngineOps Sharded.
From S2P Require Import ShardedInv ShardedSpec CacheSpec CacheEngine Concurrent.

Module Linear.
Import Engine EngineInv EnginePut EngineOps Sharded ShardedInv ShardedSpec.
Import CacheSpec CacheEngine Concurrent.

Section linear.
Context `{HashOrder, ShardEnv}.

(** The shard of a key among [n]. *)
Definition shard_place (n : nat) (id : EntryId) : nat :=
  N.to_nat (hash64 (eid_namespace id) (eid_key id) mod N.of_nat n).

Lemma home_place id s : home id s = shard_place (length (shards s)) id.
Proof. done. Qed.

(** A cell is that of its key's shard. *)
Definition sview (s : ShardedEngine) : Store :=
  λ j, from_option (λ e, view e j) void (shards s !! home j s).

(** ** One section *)

(** The reply of a section on shard [i]. *)
Definition reply {A} (i : nat) (f : Engine → A * Engine) (s : ShardedEngine) : option A :=
  fst <$> with_shard i f s.

(** The events of the first section of a call. *)
Definition observe_begin (clk : Clock) (op : Op) (s : ShardedEngine) : option (list Event) :=
  match op with
  | OpPut c =>
    r ← reply (shard_index_for (pc_namespace c) (pc_key c) s) (Engine.put clk c) s;
    Some [EPut clk c r]
  | OpCompleteLease c =>
    r ← reply (shard_index_for (cl_namespace c) (cl_key c) s) (Engine.complete_lease clk c) s;
    Some [EComplete clk c r]
  | OpDelete ns key =>
    b ← reply (shard_index_for ns key s) (Engine.delete ns key) s;
    Some [EDelete ns key b]
  | OpGet ns key u =>
    o ← reply (shard_index_for ns key s) (Engine.get_ref_inner clk ns key u) s;
    Some [EGet clk ns key o]
  | OpStartLease ns key ttl =>
    o ← reply (shard_index_for ns key s) (Engine.start_lease clk ns key ttl) s;
    Some [EStartLease clk ns key ttl o]
  | OpInvalidateTag _ _ | OpBatchGet _ _ | OpReclaim _ => Some []
  end.

(** The events of a later section. *)
Definition observe_next (t : Task) (s : ShardedEngine) : option (list Event) :=
  match t with
  | Routes _ _ _ | Invalidate _ _ [] | Gets _ _ [] => Some []
  | Invalidate ns tag (i :: _) =>
    n ← reply i (Engine.invalidate_tag ns tag) s;
    Some [EInvalidate i ns tag n]
  | Gets clk ns (key :: _) =>
    o ← reply (shard_index_for ns key s) (Engine.get clk ns key) s;
    Some [EGet clk ns key o]
  | Reclaim clk i remaining =>
    if bool_decide (i = length (shards s)) || (remaining =? 0) then Some []
    else
      n ← reply i (Engine.reclaim_expired_budget clk remaining) s;
      Some [EReclaim clk i remaining n]
  end.

Definition observe (a : Action) (c : Config) : option (list Event) :=
  match a with
  | Begin clk op => observe_begin clk op (state c)
  | Next k => t ← tasks c !! k; observe_next t (state c)
  end.

(** ** Lifting a step of a shard to the whole *)

(** The shard an event is about. *)
Definition located (place : EntryId → nat) (ev : Event) (i : nat) : Prop :=
  match ev with
  | EGet _ ns key _ | EDelete ns key _ | EStartLease _ ns key _ _ => place (EntryId_new ns key) = i
  | EPut _ c _ => place (command_id c) = i
  | EComplete _ c _ => place (command_id (completed_put c)) = i
  | EInvalidate k _ _ _ | EReclaim _ k _ _ => k = i
  end.

Section lift.
Context (place : EntryId → nat) (i : nat) (σe σe' σ σ' : Store).
Hypothesis Hin : ∀ j, place j = i → σ j = σe j ∧ σ' j = σe' j.
Hypothesis Hout : ∀ j, place j ≠ i → σ' j = σ j.

Lemma lift_moves D id c :
  (∀ j, j ∈ D → place j = i) → place id = i → moves D id c σe σe' → moves D id c σ σ'.
Proof.
  intros HD Hid Hm j. destruct (decide (place j = i)) as [Hj|Hj].
  - destruct (Hin j Hj) as [-> ->]. apply Hm.
  - rewrite (Hout j Hj), !decide_False; [done | auto | by intros ->].
Qed.

Lemma lift_voids D : (∀ j, j ∈ D → place j = i) → voids D σe σe' → voids D σ σ'.
Proof.
  intros HD Hm j. destruct (decide (place j = i)) as [Hj|Hj].
  - destruct (Hin j Hj) as [-> ->]. apply Hm.
  - rewrite (Hout j Hj), decide_False; [done | auto].
Qed.

Lemma lift_losable P D : losable place i P D σe → losable place i P D σ.
Proof. intros Hl j Hj. destruct (Hl j Hj) as [Hp ?]. by rewrite (proj1 (Hin j Hp)). Qed.

Lemma lift_same : σe' ≡ σe → σ' ≡ σ.
Proof.
  intros He j. destruct (decide (place j = i)) as [Hj|Hj]; [|by apply Hout].
  destruct (Hin j Hj) as [-> ->]. apply He.
Qed.

Lemma lift_stores now id n c :
  place id = i → stores place now id n c σe σe' → stores place now id n c σ σ'.
Proof.
  intros Hid (D1 & D2 & Hnd & Hn & H1 & H2 & Hl & Hm). rewrite Hid in H1, H2.
  exists D1, D2. rewrite Hid. split_and!; auto using lift_losable.
  apply lift_moves; [|done..]. intros j [Hj|Hj]%elem_of_app; [by apply H1 | by apply H2].
Qed.

Lemma lift_step ev : located place ev i → spec_step place ev σe σe' → spec_step place ev σ σ'.
Proof.
  assert (∀ id c, place id = i → moves [] id c σe σe' → moves [] id c σ σ') as Hm
    by (intros id c Hid; apply lift_moves; [set_solver | done]).
  destruct ev as [clk ns key o|clk c r|ns key b|clk ns key ttl o|clk c r|k ns tag n|clk k m n];
    cbn [located spec_step]; [| | | |unfold step_complete| |]; intros Hi.
  - destruct (Hin _ Hi) as [-> _]. intros []. auto.
  - destruct (Hin _ Hi) as [-> _].
    destruct r as [|[]]; [by apply lift_stores | apply lift_same..| done].
  - destruct (Hin _ Hi) as [-> _]. intros []. auto.
  - destruct (Hin _ Hi) as [-> _]. intros (m & ? & ?). eauto.
  - change (EntryId_new (cl_namespace c) (cl_key c)) with (command_id (completed_put c)).
    destruct (Hin _ Hi) as [-> _]. destruct (held _ _); [case_decide|].
    + destruct r as [|[|[]]]; [by apply lift_stores | done | by auto .. | done].
    + intros []. auto using lift_same.
    + intros []. auto.
  - subst k. intros (D & Hnd & Hn & Hv & HD). exists D. split_and!; try done.
    + apply lift_voids; [|done]. intros j Hj. by apply HD.
    + intros j. rewrite HD. split; intros [Hj ?]; destruct (Hin j Hj) as [Heq _];
        [by rewrite Heq | by rewrite <- Heq].
  - subst k. intros (D & Hnd & Hn & Hle & Hv & Hl & Hall). exists D.
    split_and!; try done; auto using lift_losable.
    + apply lift_voids; [|done]. intros j Hj. by apply Hl.
    + intros Hlt j it Hj. rewrite (proj2 (Hin j Hj)). by apply Hall.
Qed.
End lift.

(** ** Sections are events *)

Section sections.
Context (c : Config).
Hypothesis Hc : conc_inv c.
Let s := state c.
Let place := shard_place (length (shards s)).

(** A step of one shard, seen from outside. *)
Lemma shard_step i e e' ev :
  shards s !! i = Some e → located place ev i → spec_step place ev (view e) (view e') →
  spec_step place ev (sview s) (sview (store_shard i e' s)).
Proof.
  intros Hi Hloc Hs.
  assert (∀ j, home j (store_shard i e' s) = place j) as Hh
    by (intros j; apply home_length, length_insert).
  eapply (lift_step place i (view e) (view e')); [| |exact Hloc|exact Hs]; unfold sview; intros j Hj;
    rewrite Hh; change (home j s) with (place j).
  - rewrite Hj, Hi. simpl. by rewrite list_lookup_insert_eq by (by eapply lookup_lt_Some).
  - simpl. by rewrite list_lookup_insert_ne by congruence.
Qed.

Lemma shard_placed i e j : shards s !! i = Some e → is_Some (entries e !! j) → place j = i.
Proof. intros Hi. apply (so_entries _ _ _ (ci_shards c Hc i e Hi)). Qed.

Lemma shard_inv i e : shards s !! i = Some e → engine_inv e.
Proof. intros Hi. apply (so_inv _ _ _ (ci_shards c Hc i e Hi)). Qed.

Lemma key_shard id : ∃ e, shards s !! place id = Some e.
Proof. apply (home_in_range id s (ci_nonempty c Hc)). Qed.

Lemma reply_spec {A} i e (f : Engine → A * Engine) :
  shards s !! i = Some e → reply i f s = Some (f e).1.
Proof. intros Hi. unfold reply. by rewrite (with_shard_spec i f s e Hi). Qed.

(** What a section is to the abstract cache: the state it leaves and the
    events it is. *)
Definition section_refines (o : option (ShardedEngine * list Task)) (evs : option (list Event)) :
    Prop :=
  ∃ s' ts l, o = Some (s', ts) ∧ evs = Some l ∧ spec_run place l (sview s) (sview s').

(** A section that changes no cell. *)
Lemma silent_refines s' ts :
  shards s' = shards s → section_refines (Some (s', ts)) (Some []).
Proof.
  intros Hs. exists s', ts, []. split_and!; [done..|]. constructor.
  intros j. unfold sview, home, shard_index_for. by rewrite Hs.
Qed.

(** A section on shard [i] that is the event [ev] of its reply. *)
Lemma shard_refines {A} i e (f : Engine → A * Engine) (ev : A → Event) (ts : A → list Task) :
  shards s !! i = Some e → located place (ev (f e).1) i →
  spec_step place (ev (f e).1) (view e) (view (f e).2) →
  section_refines ('(a, s') ← with_shard i f s; Some (s', ts a))
    (a ← reply i f s; Some [ev a]).
Proof.
  intros Hi Hloc Hs. rewrite (with_shard_spec i f s e Hi), (reply_spec i e f Hi).
  eexists _, _, _. split_and!; [reflexivity..|]. by apply spec_run_one, (shard_step i e).
Qed.

(** The same for the shard section of a write. *)
Lemma write_refines {A} ns key e (f : Engine → A * Engine) (ev : A → Event) routes :
  let i := place (EntryId_new ns key) in
  shards s !! i = Some e → located place (ev (f e).1) i →
  spec_step place (ev (f e).1) (view e) (view (f e).2) →
  section_refines (begin_write ns key f routes s)
    (a ← reply (shard_index_for ns key s) f s; Some [ev a]).
Proof.
  intros i Hi Hloc Hs. destruct (write_section_spec ns key f s e Hi) as (rem & Heq & _).
  unfold begin_write. rewrite Heq.
  change (shard_index_for ns key s) with i. rewrite (reply_spec i e f Hi).
  eexists _, _, _. split_and!; [reflexivity..|]. by apply spec_run_one, (shard_step i e).
Qed.

Lemma begin_refines clk op :
  section_refines (begin clk op s) (observe_begin clk op s).
Proof.
  destruct op as [pc|ns key u|ns keys|ns key|ns tag|ns key ttl|cl|n];
    cbn [begin observe_begin]; unfold begin_key.
  - destruct (key_shard (command_id pc)) as [e He].
    eapply (write_refines _ _ e _ (EPut clk pc)); [exact He | done|].
    eapply put_refines; [by eapply shard_inv | intros j; by apply shard_placed | done].
  - destruct (key_shard (EntryId_new ns key)) as [e He].
    apply (shard_refines _ e _ (EGet clk ns key) (λ _, [])); [exact He | done | apply get_refines].
  - by apply silent_refines.
  - destruct (key_shard (EntryId_new ns key)) as [e He].
    eapply (write_refines _ _ e _ (EDelete ns key)); [exact He | done | apply delete_refines].
  - by apply silent_refines.
  - destruct (key_shard (EntryId_new ns key)) as [e He].
    apply (shard_refines _ e _ (EStartLease clk ns key ttl) (λ _, []));
      [exact He | done | apply start_lease_refines].
  - destruct (key_shard (command_id (completed_put cl))) as [e He].
    eapply (write_refines _ _ e _ (EComplete clk cl)); [exact He | done|].
    eapply complete_refines; [by eapply shard_inv | intros j; by apply shard_placed | done].
  - by apply silent_refines.
Qed.

Lemma next_refines t : task_ok s t → section_refines (next t s) (observe_next t s).
Proof.
  intros Ht. destruct t as [i add rem|ns tag [|i ixs]|clk ns [|key keys]|clk i rem];
    cbn [next observe_next].
  - apply silent_refines, update_tag_routes_shards.
  - by apply silent_refines.
  - destruct (lookup_lt_is_Some_2 (shards s) i) as [e He]; [apply Ht; set_solver|].
    apply (shard_refines _ e _ (EInvalidate i ns tag) (λ _, [Invalidate ns tag ixs]));
      [done | done|].
    apply invalidate_refines; [by eapply shard_inv | intros j; by apply shard_placed].
  - by apply silent_refines.
  - destruct (key_shard (EntryId_new ns key)) as [e He].
    apply (shard_refines _ e _ (EGet clk ns key) (λ _, [Gets (clock_after 1 clk) ns keys]));
      [exact He | done | apply get_refines].
  - destruct (bool_decide _ || _) eqn:E; [by apply silent_refines|].
    apply orb_false_iff in E as [Hi%bool_decide_eq_false _]. simpl in Ht.
    destruct (lookup_lt_is_Some_2 (shards s) i) as [e He]; [lia|].
    apply (shard_refines _ e _ (EReclaim clk i rem)
      (λ n, [Reclaim (clock_after 1 clk) (S i) (rem -| n)])); [done | done|].
    apply reclaim_refines; [by eapply shard_inv | intros j; by apply shard_placed].
Qed.
End sections.

Lemma exec_refines a c c' :
  conc_inv c → exec a c = Some c' →
  ∃ evs, observe a c = Some evs ∧
    spec_run (shard_place (length (shards (state c)))) evs (sview (state c)) (sview (state c')).
Proof.
  intros Hc Hx. destruct a as [clk op|k]; cbn [exec observe] in *.
  - destruct (begin_refines c Hc clk op) as (s' & ts & l & Hb & -> & Hr).
    rewrite Hb in Hx. simplify_eq/=. eauto.
  - apply bind_Some in Hx as (t & Ht & Hx). rewrite Ht. simpl.
    destruct (next_refines c Hc t) as (s' & ts & l & Hb & -> & Hr).
    { by eapply (Forall_lookup_1 (task_ok (state c))), Ht; apply Hc. }
    rewrite Hb in Hx. simplify_eq/=. eauto.
Qed.

Lemma exec_length a c c' :
  conc_inv c → exec a c = Some c' → length (shards (state c')) = length (shards (state c)).
Proof.
  intros Hc Hx. destruct a as [clk op|k]; cbn [exec] in *.
  - destruct (begin_ok clk op c Hc) as (s' & ts & Hb & Hs & _). rewrite Hb in Hx. simplify_eq/=.
    by apply section_ok_length.
  - apply bind_Some in Hx as (t & Ht & Hx).
    destruct (next_ok t c Hc) as (s' & ts & Hb & Hs & _).
    { by eapply (Forall_lookup_1 (task_ok (state c))), Ht; apply Hc. }
    rewrite Hb in Hx. simplify_eq/=. by apply section_ok_length.
Qed.

(** ** The interleaved sharded engine as an implementation *)

#[export] Program Instance conc_impl n : CacheImpl (shard_place n) Config Action := {|
  impl_step a c := evs ← observe a c; c' ← exec a c; Some (evs, c');
  impl_inv c := conc_inv c ∧ length (shards (state c)) = n;
  impl_view c := sview (state c)
|}.
Next Obligation.
  intros n a c evs c' [Hc Hn] Hx. apply bind_Some in Hx as (l & Hl & Hx).
  apply bind_Some in Hx as (c1 & Hx & [= -> ->]).
  destruct (exec_refines a c c' Hc Hx) as (evs' & Hevs & Hr). rewrite Hn in Hr. split_and!.
  - by eapply cstep_inv; [|econstructor].
  - by rewrite (exec_length a c c').
  - by simplify_eq.
Qed.

(** The events of an interleaving and the configuration it leads to. *)
Definition history (n : nat) (l : list Action) (c : Config) : option (list Event * Config) :=
  impl_run (place := shard_place n) l c.

Definition start (s : ShardedEngine) : Config := {| state := s; tasks := [] |}.

Lemma history_total n l c c' :
  conc_inv c → length (shards (state c)) = n → run_actions l c = Some c' →
  ∃ evs, history n l c = Some (evs, c').
Proof.
  unfold history, run_actions. revert c.
  induction l as [|a l IH]; intros c Hc Hn Hr; simpl in Hr; simplify_eq; [by exists []|].
  destruct (exec a c) as [c1|] eqn:Hx.
  2:{ exfalso. clear -Hr. induction l as [|b l IH]; simpl in Hr; [done | auto]. }
  destruct (exec_refines a c c1 Hc Hx) as (evs & Hevs & _).
  destruct (IH c1) as [evs' Hr']; [by eapply cstep_inv; [|econstructor] | by eapply exec_length | done|].
  exists (evs ++ evs'). cbn [impl_run impl_step conc_impl]. rewrite Hevs, Hx. cbn. by rewrite Hr'.
Qed.

Lemma start_inv s : sharded_inv s → conc_inv (start s).
Proof. apply idle_conc_inv. Qed.

Lemma sview_new lim n s : Sharded.with_clock_and_limits lim n = Some s → sview s ≡ empty_store.
Proof.
  unfold Sharded.with_clock_and_limits. case_bool_decide; [done|]. intros [= <-] j.
  unfold sview. destruct (_ !! _) as [e|] eqn:E; [|done]. simpl in *.
  apply lookup_replicate in E as [-> _]. apply view_new.
Qed.
End linear.

(** ** Claims *)

(** C1: linearizability.  Whatever calls run in parallel on the sharded engine
    and however their critical sections interleave, the events of the
    execution, each with the reply its caller gets, are in the order of the
    sections a run of the abstract cache: a sequential store of one cell per
    key.  Every keyed call takes effect at once, at its shard section; a tag
    invalidation empties exactly the tagged cells of the shards it visits; a
    write loses only entries that are due, or as many as it reports evicted,
    of its own shard. *)
Theorem concurrent_linearizable `{HashOrder, ShardEnv} s l c :
  sharded_inv s → run_actions l (start s) = Some c →
  ∃ evs, history (length (shards s)) l (start s) = Some (evs, c) ∧
    spec_run (shard_place (length (shards s))) evs (sview s) (sview (state c)).
Proof.
  intros Hs Hr. pose proof (start_inv s Hs) as Hc.
  destruct (history_total (length (shards s)) l (start s) c Hc eq_refl Hr) as [evs Hh].
  exists evs. split; [done|]. by apply (impl_run_sound l (start s) evs c) in Hh as [_ ?].
Qed.

(** The interleaving of the witnesses: a lease is granted on ["b"]; ["a"] is
    written, its routes pending; the lease is completed, its token is tried
    again; the routes of ["a"] are entered; both are read. *)
Definition demo_complete : CompleteLeaseCommand :=
  {| cl_namespace := "default"; cl_key := as_bytes "b"; cl_lease_token := "lease-0";
     cl_value := as_bytes "w"; cl_ttl := Some {| milliseconds := 100 |};
     cl_stale_ttl := Some {| milliseconds := 50 |}; cl_tags := []; cl_cost := None |}.

Definition demo_actions : list Action :=
  [Begin (manual_clock 0) (OpStartLease "default" (as_bytes "b") 10);
   Begin (manual_clock 1) (OpPut (demo_put "a" ["t"%string]));
   Begin (manual_clock 10) (OpCompleteLease demo_complete);
   Begin (manual_clock 11) (OpCompleteLease demo_complete);
   Next 0;
   Begin (manual_clock 111) (OpGet "default" (as_bytes "b") true);
   Begin (manual_clock 112) (OpGet "default" (as_bytes "a") true)].

Definition demo_events : list Event :=
  [EStartLease (manual_clock 0) "default" (as_bytes "b") 10 (LeaseGranted "lease-0" None);
   EPut (manual_clock 1) (demo_put "a" ["t"%string]) (Ok {| po_evicted := 0 |});
   EComplete (manual_clock 10) demo_complete (Ok {| po_evicted := 0 |});
   EComplete (manual_clock 11) demo_complete (Err InvalidLeaseToken);
   EGet (manual_clock 111) "default" (as_bytes "b") (GStale (as_bytes "w"));
   EGet (manual_clock 112) "default" (as_bytes "a") (GHit (as_bytes "v"))].

Lemma demo_history :
  ∃ c, @history canonical_order demo_env 2 demo_actions (start demo_new) = Some (demo_events, c).
Proof.
  assert (fst <$> @history canonical_order demo_env 2 demo_actions (start demo_new)
    = Some demo_events) as Hd by (vm_compute; reflexivity).
  apply fmap_Some in Hd as ([evs c] & -> & ->). by exists c.
Qed.

Lemma concurrent_linearizable_witness :
  ∃ c, @run_actions canonical_order demo_env demo_actions (start demo_new) = Some c ∧
  ∃ evs, @history canonical_order demo_env 2 demo_actions (start demo_new) = Some (evs, c) ∧
    @spec_run (@shard_place demo_env 2) evs (@sview demo_env demo_new) (@sview demo_env (state c)).
Proof.
  assert (bool_decide (is_Some (@run_actions canonical_order demo_env demo_actions
    (start demo_new))) = true) as Hsome by (vm_compute; reflexivity).
  destruct (@run_actions canonical_order demo_env demo_actions (start demo_new)) as [c|] eqn:E;
    [|discriminate].
  exists c. split; [reflexivity|].
  exact (@concurrent_linearizable canonical_order demo_env demo_new demo_actions c demo_new_inv E).
Defined.

(** C9: reads are of the last write.  In any interleaving of calls on a new
    sharded engine, a read that answers bytes (a hit, stale bytes, or the
    stale bytes that come with a lease) answers those of the last write of
    its key, fresh or stale as the deadlines of that write say; since then
    nobody overwrote or deleted the key, missed on it, or invalidated one of
    its tags on its shard. *)
Theorem concurrent_reads_last_write `{HashOrder, ShardEnv} lim n s l pre ev post c now id st v :
  max_memory_bytes lim < USIZE_MAX → Sharded.with_clock_and_limits lim n = Some s →
  history (length (shards s)) l (start s) = Some (pre ++ ev :: post, c) →
  reads ev = Some (now, id, st, v) →
  ∃ it, last_made written (ends_item (shard_place (length (shards s)))) pre id it ∧
    i_value it = v ∧ item_state now it = st.
Proof.
  intros Hlim Hnew. pose proof (sharded_new_inv lim n s Hlim Hnew) as Hs.
  apply impl_reads_last_write; [split; [by apply start_inv | done] | by eapply sview_new].
Qed.

Lemma concurrent_reads_last_write_witness :
  ∃ it, last_made written (ends_item (@shard_place demo_env 2)) (take 4 demo_events)
    (EntryId_new "default" (as_bytes "b")) it ∧
    i_value it = as_bytes "w" ∧ item_state 111 it = Stale.
Proof.
  destruct demo_history as [c Hh].
  destruct (@concurrent_reads_last_write canonical_order demo_env demo_sharded_limits 2 demo_new
    demo_actions (take 4 demo_events) (EGet (manual_clock 111) "default" (as_bytes "b") (GStale (as_bytes "w")))
    [EGet (manual_clock 112) "default" (as_bytes "a") (GHit (as_bytes "v"))] c
    111 (EntryId_new "default" (as_bytes "b")) Stale (as_bytes "w")
    ltac:(done) ltac:(done) Hh ltac:(done)) as [it Hit].
  exists it. exact Hit.
Defined.

(** C10: completions are of the last grant.  In any interleaving of calls on a
    new sharded engine, a completion whose token is accepted names the last
    lease granted on its key, before the deadline given at the grant; since
    then the key was not deleted and no completion with that token was tried,
    so a lease is completed at most once. *)
Theorem concurrent_completes_last_grant `{HashOrder, ShardEnv} lim n s l pre ev post c id token now :
  max_memory_bytes lim < USIZE_MAX → Sharded.with_clock_and_limits lim n = Some s →
  history (length (shards s)) l (start s) = Some (pre ++ ev :: post, c) →
  accepted ev = Some (id, token, now) →
  ∃ le, last_made granted ends_lease pre id le ∧ l_token le = token ∧ now ≤ l_expires_at_ms le.
Proof.
  intros Hlim Hnew. pose proof (sharded_new_inv lim n s Hlim Hnew) as Hs.
  apply impl_accepts_last_grant; [split; [by apply start_inv | done] | by eapply sview_new].
Qed.

Lemma concurrent_completes_last_grant_witness :
  ∃ le, last_made granted ends_lease (take 2 demo_events) (EntryId_new "default" (as_bytes "b")) le ∧
    l_token le = "lease-0"%string ∧ 10 ≤ l_expires_at_ms le.
Proof.
  destruct demo_history as [c Hh].
  destruct (@concurrent_completes_last_grant canonical_order demo_env demo_sharded_limits 2 demo_new
    demo_actions (take 2 demo_events)
    (EComplete (manual_clock 10) demo_complete (Ok {| po_evicted := 0 |})) (drop 3 demo_events) c
    (EntryId_new "default" (as_bytes "b")) "lease-0" 10
    ltac:(done) ltac:(done) Hh ltac:(done)) as [le Hle].
  exists le. exact Hle.
Defined.
End Linear.
