(* ===== verification/ConcRoutes.v ===== *)
(** * ConcRoutes: when tag routes survive concurrency

    A write that takes the last entry with a tag from a shard still has to
    take the route of the tag away, in a later critical section.  If no other
    write stores an entry with that tag in that shard in between, the directory
    loses no route that is needed: a stored entry whose tag has no route is
    covered by a call in progress that will register it or is about to
    invalidate the entry, and when no call is in progress the whole invariant
    holds, routes included. *)

From S2P Require Import Prelude Bytes Protocol Engine EngineInv EnginePut EngineOps Sharded.
From S2P Require Import ShardedInv ShardedSpec Concurrent.

Module ConcRoutes.
Import Engine EngineInv EnginePut EngineOps Sharded ShardedInv ShardedSpec Concurrent.

(** [t] will register shard [i] for [tid], or remove its entries from it. *)
Definition covers (i : nat) (tid : TagId) (t : Task) : Prop :=
  match t with
  | Routes j add _ => j = i ∧ tid ∈ add
  | Invalidate ns tag ixs => tag_id ns tag = tid ∧ i ∈ ixs
  | _ => False
  end.

Definition pending (ts : list Task) (i : nat) (tid : TagId) : Prop := Exists (covers i tid) ts.

Definition holds_tag (s : ShardedEngine) (i : nat) (tid : TagId) : Prop :=
  ∃ e id, shards s !! i = Some e ∧ tagged (entries e) tid id.

Definition route (s : ShardedEngine) (i : nat) (tid : TagId) : Prop :=
  i ∈ default ∅ (tag_directory s !! tid).

Definition covered (s : ShardedEngine) (ts : list Task) : Prop :=
  ∀ i tid, holds_tag s i tid → route s i tid ∨ pending ts i tid.

(** The shard in which a call may store an entry, and the tags of the entry. *)
Definition stores `{ShardEnv} (op : Op) (s : ShardedEngine) : option (nat * list TagId) :=
  match op with
  | OpPut c => Some (home (command_id c) s, tag_ids (pc_namespace c) (pc_tags c))
  | OpCompleteLease c =>
    Some (home (EntryId_new (cl_namespace c) (cl_key c)) s, tag_ids (cl_namespace c) (cl_tags c))
  | _ => None
  end.

(** The order asked of the calls: a write that stores a tag in a shard does not
    start while another call is about to take the route of that tag to that
    shard away.  Everything else may overlap. *)
Definition orderly `{ShardEnv} (a : Action) (c : Config) : Prop :=
  match a with
  | Begin _ op => ∀ i tags add rem tid, stores op (state c) = Some (i, tags) →
      Routes i add rem ∈ tasks c → tid ∈ tags → tid ∉ rem
  | Next _ => True
  end.

Inductive ostep `{HashOrder, ShardEnv} : Config → Config → Prop :=
| ostep_exec a c c' : exec a c = Some c' → orderly a c → ostep c c'.

Section routes.
Context `{HashOrder, ShardEnv}.

Record routes_inv (c : Config) : Prop := {
  ri_conc : conc_inv c;
  ri_covered : covered (state c) (tasks c);
  ri_directory : ∀ tid, tag_directory (state c) !! tid ≠ Some ∅;
  ri_stale : ∀ i add rem tid, Routes i add rem ∈ tasks c → tid ∈ rem → ¬ holds_tag (state c) i tid
}.

Lemma pending_app ts ts' i tid : pending (ts ++ ts') i tid ↔ pending ts i tid ∨ pending ts' i tid.
Proof. apply Exists_app. Qed.

Lemma pending_cons t ts i tid : pending (t :: ts) i tid ↔ covers i tid t ∨ pending ts i tid.
Proof. apply Exists_cons. Qed.

Lemma pending_nil i tid : pending [] i tid ↔ False.
Proof. apply Exists_nil. Qed.

(** A section of shard [i], which tags entries with [T] only. *)
Lemma holds_store s i e e' X T j tid :
  shards s !! i = Some e → evolves X T e e' → holds_tag (store_shard i e' s) j tid →
  (holds_tag s j tid ∨ (j = i ∧ T tid)).
Proof.
  intros Hi Hev (x & id & Hx & Ht). apply (store_shard_lookup i e) in Hx as [[-> ->]|[_ Hx]]; [| |done].
  - destruct (ev_tagged _ _ _ _ Hev tid id Ht) as [Hold|Hnew]; [|by right]. left. by exists e, id.
  - left. by exists x, id.
Qed.

Lemma covered_store s i e e' X T ts ts' :
  covered s ts → shards s !! i = Some e → evolves X T e e' →
  (∀ tid, T tid → pending ts' i tid) →
  (∀ j tid, holds_tag (store_shard i e' s) j tid → pending ts j tid → pending ts' j tid) →
  covered (store_shard i e' s) ts'.
Proof.
  intros Hc Hi Hev HT Hts j tid Hj.
  destruct (holds_store s i e e' X T j tid Hi Hev Hj) as [Hold|[-> Hnew]]; [|right; auto].
  destruct (Hc j tid Hold) as [Hr|Hp]; [by left|]. right. auto.
Qed.

(** The tasks of [Begin]: added to those in progress. *)
Lemma begin_covered clk op c s' ts :
  routes_inv c → begin clk op (state c) = Some (s', ts) → covered s' (tasks c ++ ts).
Proof.
  intros [Hc Hcov _ _] Hb.
  assert (∀ i e e' X T, shards (state c) !! i = Some e → evolves X T e e' →
    (∀ tid, T tid → pending ts i tid) → covered (store_shard i e' (state c)) (tasks c ++ ts)) as Hst.
  { intros i e e' X T Hi Hev HT. eapply covered_store; [done|done|exact Hev| |].
    - intros tid Ht. apply pending_app. auto.
    - intros j tid _ Hp. apply pending_app. auto. }
  destruct op as [pc|ns key u|ns keys|ns key|ns tag|ns key ttl|cl|n]; cbn [begin] in Hb.
  - destruct (begin_write_ok c (pc_namespace pc) (pc_key pc) (Engine.put clk pc)
      (λ r rem, [Routes (home (command_id pc) (state c))
        (added (pc_namespace pc) (pc_tags pc) r) rem])
      (added (pc_namespace pc) (pc_tags pc)) Hc (put_write_ok clk pc))
      as (e & rem & Hi & Heq & _ & Hev & _).
    pose proof (eq_trans (eq_sym Hb) Heq) as E. injection E as -> ->.
    eapply Hst; [done|exact Hev|]. intros tid Ht. apply pending_cons. left. by split.
  - destruct (begin_key_ok c ns key (Engine.get_ref_inner clk ns key u) nothing Hc)
      as (e & Hi & _ & Heq & _); [auto using get_ref_inner_inv, get_evolves | by intros j []|].
    rewrite Heq in Hb. injection Hb as <- <-. eapply Hst; [done|apply get_evolves|by intros ? []].
  - injection Hb as <- <-. intros i tid Hh. rewrite pending_app.
    destruct (Hcov i tid Hh); auto.
  - destruct (begin_write_ok c ns key (Engine.delete ns key)
      (λ (removed : bool) rem, if removed
         then [Routes (home (EntryId_new ns key) (state c)) [] rem] else []) (λ _, []) Hc
      (delete_write_ok ns key)) as (e & rem & Hi & Heq & _ & Hev & _).
    pose proof (eq_trans (eq_sym Hb) Heq) as E. injection E as -> ->.
    eapply Hst; [done|exact Hev|]. by intros tid Ht%not_elem_of_nil.
  - injection Hb as <- <-. intros i tid Hh. destruct (Hcov i tid Hh) as [Hr|Hp].
    + unfold route in *. simpl. rewrite lookup_delete. case_decide as Hd; [|by left]. subst tid.
      right. apply pending_app. right. apply pending_cons. left. split; [done|].
      destruct (tag_directory (state c) !! tag_id ns tag); [|done]. simpl in *.
      by rewrite shards_iter_perm, elem_of_elements.
    + right. apply pending_app. auto.
  - destruct (begin_key_ok c ns key (Engine.start_lease clk ns key ttl)
      (only (EntryId_new ns key)) Hc) as (e & Hi & _ & Heq & _);
      [auto using start_lease_inv, start_lease_evolves | done |].
    rewrite Heq in Hb. injection Hb as <- <-. eapply Hst; [done|apply start_lease_evolves|by intros ? []].
  - destruct (begin_write_ok c (cl_namespace cl) (cl_key cl) (Engine.complete_lease clk cl)
      (λ r rem, [Routes (home (EntryId_new (cl_namespace cl) (cl_key cl)) (state c))
        (added (cl_namespace cl) (cl_tags cl) r) rem])
      (added (cl_namespace cl) (cl_tags cl)) Hc (complete_write_ok clk cl))
      as (e & rem & Hi & Heq & _ & Hev & _).
    pose proof (eq_trans (eq_sym Hb) Heq) as E. injection E as -> ->.
    eapply Hst; [done|exact Hev|]. intros tid Ht. apply pending_cons. left. by split.
  - injection Hb as <- <-. intros i tid Hh. rewrite pending_app.
    destruct (Hcov i tid Hh); auto.
Qed.

(** One step of task [k], whose rest replaces it. *)
Lemma pending_rest ts k t new j tid :
  ts !! k = Some t → pending ts j tid → (covers j tid t → pending new j tid) →
  pending (take k ts ++ new ++ drop (S k) ts) j tid.
Proof.
  intros Hk Hp Ht. rewrite <- (take_drop_middle ts k t Hk), pending_app, pending_cons in Hp.
  rewrite !pending_app. naive_solver.
Qed.

Lemma next_covered k t c s' new :
  routes_inv c → tasks c !! k = Some t → next t (state c) = Some (s', new) →
  covered s' (take k (tasks c) ++ new ++ drop (S k) (tasks c)).
Proof.
  intros [Hc Hcov _ Hstale] Hk Hn. set (ts := take k (tasks c) ++ new ++ drop (S k) (tasks c)).
  pose proof (ci_tasks c Hc) as Hok. rewrite Forall_lookup in Hok. specialize (Hok k t Hk).
  assert (∀ i e e', shards (state c) !! i = Some e → evolves nothing nothing e e' →
    (∀ j tid, holds_tag (store_shard i e' (state c)) j tid → covers j tid t → pending new j tid) →
    covered (store_shard i e' (state c)) ts) as Hst.
  { intros i e e' Hi Hev Hcv. eapply covered_store; [done|done|exact Hev|by intros ? []|].
    intros j tid Hj Hp. eapply pending_rest; [done|done|auto]. }
  destruct t as [i add rem|ns tag [|i ixs]|clk ns [|key keys]|clk i rem]; cbn [next] in Hn.
  - injection Hn as <- <-. intros j tid (e & id & Hj & Ht). rewrite update_tag_routes_shards in Hj.
    assert (holds_tag (state c) j tid) as Hh by (by exists e, id).
    unfold route. rewrite update_tag_routes_lookup.
    destruct (decide (j = i ∧ tid ∈ add)) as [|Hna]; [tauto|].
    destruct (decide (j = i ∧ tid ∈ rem)) as [[-> Hrem]|Hnr].
    + exfalso. eapply Hstale; [by eapply list_elem_of_lookup_2|exact Hrem|exact Hh].
    + destruct (Hcov j tid Hh) as [Hr|Hp]; [tauto|]. right.
      eapply pending_rest; [done|done|]. simpl. intros [-> ?]. tauto.
  - injection Hn as <- <-. intros j tid Hh. destruct (Hcov j tid Hh) as [|Hp]; [by left|]. right.
    eapply pending_rest; [done|done|]. by intros [_ ?%not_elem_of_nil].
  - destruct (section_any c i (Engine.invalidate_tag ns tag)) as (e & Hi & Heq & _);
      [done | apply Hok; set_solver | auto using invalidate_tag_inv, invalidate_evolves |].
    rewrite Heq in Hn. injection Hn as <- <-.
    pose proof (so_inv _ _ _ (ci_shards c Hc i e Hi)) as Hinv.
    apply (Hst i e); [done|by apply invalidate_evolves|]. intros j tid Hh [<- Hin].
    apply pending_cons. left. split; [done|]. apply elem_of_cons in Hin as [->|Hin]; [|done].
    destruct Hh as (x & id & Hx & Ht).
    apply (store_shard_lookup i e) in Hx as [[_ ->]|[? _]]; [|done|done].
    by apply invalidated_none in Ht.
  - injection Hn as <- <-. intros j tid Hh. destruct (Hcov j tid Hh) as [|Hp]; [by left|]. right.
    by eapply pending_rest.
  - destruct (begin_key_ok c ns key (Engine.get clk ns key) nothing Hc) as (e & Hi & Heq & _ & _).
    { intros x Hx. split; [by apply get_ref_inner_inv | apply get_evolves]. }
    { by intros j []. }
    rewrite Heq in Hn. injection Hn as <- <-. apply (Hst _ e); [done|apply get_evolves|done].
  - destruct (bool_decide _ || _) eqn:E.
    { injection Hn as <- <-. intros j tid Hh. destruct (Hcov j tid Hh) as [|Hp]; [by left|]. right.
      by eapply pending_rest. }
    apply orb_false_iff in E as [Hi%bool_decide_eq_false _]. simpl in Hok.
    destruct (section_any c i (Engine.reclaim_expired_budget clk rem)) as (e & He & Heq & _);
      [done | lia | auto using remove_expired_inv, reclaim_evolves |].
    rewrite Heq in Hn. injection Hn as <- <-. apply (Hst _ e); [done|apply reclaim_evolves|done].
Qed.

Lemma with_shard_directory {A} i (f : Engine → A * Engine) s a s' :
  with_shard i f s = Some (a, s') → tag_directory s' = tag_directory s.
Proof.
  unfold with_shard. destruct (shards s !! i) as [e|]; [|done]. simpl.
  destruct (f e). by intros [= _ <-].
Qed.

(** Reads the change of directory off the equation of a section. *)
Ltac section_directory H :=
  repeat match type of H with context [with_shard ?i ?f ?s] =>
    let E := fresh in destruct (with_shard i f s) as [[? ?]|] eqn:E; [|done];
    apply with_shard_directory in E; simpl in H end;
  repeat case_match; simplify_eq/=; try congruence.

Lemma begin_directory clk op s s' ts tid :
  begin clk op s = Some (s', ts) → tag_directory s !! tid ≠ Some ∅ →
  tag_directory s' !! tid ≠ Some ∅.
Proof.
  intros Hb Hne. destruct op; cbn [begin] in Hb; unfold begin_write, begin_key in Hb;
    section_directory Hb.
  match goal with E : take_route _ _ = _ |- _ => injection E as _ <- end.
  simpl. rewrite lookup_delete. by case_decide.
Qed.

Lemma next_directory t s s' ts tid :
  next t s = Some (s', ts) → tag_directory s !! tid ≠ Some ∅ → tag_directory s' !! tid ≠ Some ∅.
Proof.
  intros Hn Hne. destruct t as [i add rem|ns tag [|i ixs]|clk ns [|key keys]|clk i rem];
    cbn [next] in Hn; try (by section_directory Hn).
  - injection Hn as <- <-. by apply update_tag_routes_nonempty.
  - destruct (bool_decide _ || _); section_directory Hn.
Qed.

(** ** No route is taken away that is needed *)

Lemma holds_shards s s' j tid : shards s' = shards s → holds_tag s' j tid → holds_tag s j tid.
Proof. intros Hs (e & id & He & Ht). exists e, id. by rewrite <- Hs. Qed.

Definition no_routes (ts : list Task) : Prop := ∀ i add rem, Routes i add rem ∉ ts.

(** What the first section of a call does to the tags of the shards, and the
    route removals it leaves for later. *)
Record begun (op : Op) (s s' : ShardedEngine) (ts : list Task) : Prop := {
  bg_holds : ∀ j tid, holds_tag s' j tid → holds_tag s j tid ∨
    ∃ tags, stores op s = Some (j, tags) ∧ tid ∈ tags;
  bg_routes : ∀ j add rem tid, Routes j add rem ∈ ts → tid ∈ rem → ¬ holds_tag s' j tid
}.

Lemma begun_quiet op s s' ts : shards s' = shards s → no_routes ts → begun op s s' ts.
Proof.
  intros Hs Hno. split.
  - intros j tid Hj. left. by eapply holds_shards.
  - intros j add rem tid Hin. by apply Hno in Hin.
Qed.

Lemma begun_write op s i e e' X T ts :
  shards s !! i = Some e → evolves X (members T) e e' →
  (∀ tid, tid ∈ T → ∃ tags, stores op s = Some (i, tags) ∧ tid ∈ tags) →
  (∀ j add rem tid id, Routes j add rem ∈ ts → tid ∈ rem → j = i ∧ ¬ tagged (entries e') tid id) →
  begun op s (store_shard i e' s) ts.
Proof.
  intros Hi Hev HT Hts. split.
  - intros j tid Hj. destruct (holds_store s i e e' X _ j tid Hi Hev Hj) as [?|[-> ?]]; [by left|].
    right. by apply HT.
  - intros j add rem tid Hin Hrem (x & id & Hx & Ht). destruct (Hts j add rem tid id Hin Hrem) as [-> Hno].
    apply (store_shard_lookup i e) in Hx as [[_ ->]|[? _]]; [done|done|done].
Qed.

Lemma begun_added {A E} op s i ns tags (r : result A E) tid :
  stores op s = Some (i, tag_ids ns tags) → tid ∈ added ns tags r →
  ∃ tags, stores op s = Some (i, tags) ∧ tid ∈ tags.
Proof.
  intros Hs Ht. exists (tag_ids ns tags). split; [done|]. unfold added in Ht.
  destruct (is_ok r); [done|]. by apply not_elem_of_nil in Ht.
Qed.

Lemma begin_begun clk op c s' ts :
  conc_inv c → begin clk op (state c) = Some (s', ts) → begun op (state c) s' ts.
Proof.
  intros Hc Hb. destruct op as [pc|ns key u|ns keys|ns key|ns tag|ns key ttl|cl|n]; cbn [begin] in Hb.
  - destruct (begin_write_ok c (pc_namespace pc) (pc_key pc) (Engine.put clk pc)
      (λ r rem, [Routes (home (command_id pc) (state c))
        (added (pc_namespace pc) (pc_tags pc) r) rem])
      (added (pc_namespace pc) (pc_tags pc)) Hc (put_write_ok clk pc))
      as (e & rem & Hi & Heq & _ & Hev & Hrem).
    pose proof (eq_trans (eq_sym Hb) Heq) as E. injection E as -> ->.
    eapply begun_write; [exact Hi|exact Hev|intros tid; by eapply begun_added|].
    intros j add rm tid id [= -> -> ->]%list_elem_of_singleton Hin. split; [done|by apply Hrem].
  - destruct (begin_key_ok c ns key (Engine.get_ref_inner clk ns key u) nothing Hc)
      as (e & Hi & _ & Heq & _); [auto using get_ref_inner_inv, get_evolves | by intros j []|].
    rewrite Heq in Hb. injection Hb as <- <-. eapply (begun_write _ _ _ _ _ _ []); [exact Hi| | |].
    + eapply evolves_weaken; [| |apply get_evolves]; [done|by intros ? []].
    + by intros tid ?%not_elem_of_nil.
    + by intros ????? ?%not_elem_of_nil.
  - injection Hb as <- <-. apply begun_quiet; [done|]. by intros i add rem ?%list_elem_of_singleton.
  - destruct (begin_write_ok c ns key (Engine.delete ns key)
      (λ (removed : bool) rem, if removed
         then [Routes (home (EntryId_new ns key) (state c)) [] rem] else []) (λ _, []) Hc
      (delete_write_ok ns key)) as (e & rem & Hi & Heq & _ & Hev & Hrem).
    pose proof (eq_trans (eq_sym Hb) Heq) as E. injection E as -> ->.
    eapply begun_write; [exact Hi|exact Hev|by intros tid ?%not_elem_of_nil|].
    intros j add rm tid id Hin Ht. destruct (Engine.delete ns key e).1; [|by apply not_elem_of_nil in Hin].
    apply list_elem_of_singleton in Hin as [= -> -> ->]. split; [done|by apply Hrem].
  - injection Hb as <- <-. apply begun_quiet; [done|]. by intros i add rem ?%list_elem_of_singleton.
  - destruct (begin_key_ok c ns key (Engine.start_lease clk ns key ttl)
      (only (EntryId_new ns key)) Hc) as (e & Hi & _ & Heq & _);
      [auto using start_lease_inv, start_lease_evolves | done |].
    rewrite Heq in Hb. injection Hb as <- <-. eapply (begun_write _ _ _ _ _ _ []); [exact Hi| | |].
    + eapply evolves_weaken; [| |apply start_lease_evolves]; [done|by intros ? []].
    + by intros tid ?%not_elem_of_nil.
    + by intros ????? ?%not_elem_of_nil.
  - destruct (begin_write_ok c (cl_namespace cl) (cl_key cl) (Engine.complete_lease clk cl)
      (λ r rem, [Routes (home (EntryId_new (cl_namespace cl) (cl_key cl)) (state c))
        (added (cl_namespace cl) (cl_tags cl) r) rem])
      (added (cl_namespace cl) (cl_tags cl)) Hc (complete_write_ok clk cl))
      as (e & rem & Hi & Heq & _ & Hev & Hrem).
    pose proof (eq_trans (eq_sym Hb) Heq) as E. injection E as -> ->.
    eapply begun_write; [exact Hi|exact Hev|intros tid; by eapply begun_added|].
    intros j add rm tid id [= -> -> ->]%list_elem_of_singleton Hin. split; [done|by apply Hrem].
  - injection Hb as <- <-. apply begun_quiet; [done|]. by intros i add rem ?%list_elem_of_singleton.
Qed.

(** A later section of a call stores nothing and leaves no removal. *)
Lemma next_sheds t c s' new :
  conc_inv c → task_ok (state c) t → next t (state c) = Some (s', new) →
  (∀ j tid, holds_tag s' j tid → holds_tag (state c) j tid) ∧ no_routes new.
Proof.
  intros Hc Hok Hn.
  assert (∀ i e e', shards (state c) !! i = Some e → evolves nothing nothing e e' →
    ∀ j tid, holds_tag (store_shard i e' (state c)) j tid → holds_tag (state c) j tid) as Hst.
  { intros i e e' Hi Hev j tid Hj.
    by destruct (holds_store _ i e e' _ _ j tid Hi Hev Hj) as [?|[_ []]]. }
  assert (no_routes []) as Hnil by by intros i add rem ?%not_elem_of_nil.
  destruct t as [i add rem|ns tag [|i ixs]|clk ns [|key keys]|clk i rem]; cbn [next] in Hn.
  - injection Hn as <- <-. split; [|done]. intros j tid. apply holds_shards, update_tag_routes_shards.
  - by injection Hn as <- <-.
  - destruct (section_any c i (Engine.invalidate_tag ns tag)) as (e & Hi & Heq & _);
      [done | apply Hok; set_solver | auto using invalidate_tag_inv, invalidate_evolves |].
    rewrite Heq in Hn. injection Hn as <- <-. split; [|by intros j add rem ?%list_elem_of_singleton].
    eapply Hst; [done|apply invalidate_evolves].
  - by injection Hn as <- <-.
  - destruct (begin_key_ok c ns key (Engine.get clk ns key) nothing Hc) as (e & Hi & Heq & _ & _).
    { intros x Hx. split; [by apply get_ref_inner_inv | apply get_evolves]. }
    { by intros j []. }
    rewrite Heq in Hn. injection Hn as <- <-. split; [|by intros j add rem ?%list_elem_of_singleton].
    eapply Hst; [done|apply get_evolves].
  - destruct (bool_decide _ || _) eqn:E; [by injection Hn as <- <-|].
    apply orb_false_iff in E as [Hi%bool_decide_eq_false _]. simpl in Hok.
    destruct (section_any c i (Engine.reclaim_expired_budget clk rem)) as (e & He & Heq & _);
      [done | lia | auto using remove_expired_inv, reclaim_evolves |].
    rewrite Heq in Hn. injection Hn as <- <-. split; [|by intros j add rm ?%list_elem_of_singleton].
    eapply Hst; [done|apply reclaim_evolves].
Qed.

(** ** Orderly interleavings *)

Lemma ostep_inv c c' : routes_inv c → ostep c c' → routes_inv c'.
Proof.
  intros Hr Hstep. revert Hr. destruct Hstep as [a c1 c2 Heq Hord]. intros Hr.
  pose proof Hr as [Hc Hcov Hd Hstale].
  assert (conc_inv c2) as Hc2 by (eapply cstep_inv; [exact Hc|by eapply cstep_exec]).
  destruct a as [clk op|k]; simpl in Heq.
  - destruct (begin clk op (state c1)) as [[s' ts]|] eqn:Eb; [|done]. injection Heq as <-.
    split; [done|by eapply begin_covered|intros tid; by eapply begin_directory|].
    destruct (begin_begun clk op c1 s' ts Hc Eb) as [Hh Hnew]. simpl.
    intros i add rem tid [Hin|Hin]%elem_of_app Hrem Hhold; [|by eapply Hnew].
    destruct (Hh i tid Hhold) as [Hold|(tags & Hs & Ht)]; [by eapply Hstale|].
    by apply (Hord i tags add rem tid).
  - destruct (tasks c1 !! k) as [t|] eqn:Ek; [|done]. simpl in Heq.
    destruct (next t (state c1)) as [[s' new]|] eqn:En; [|done]. injection Heq as <-.
    split; [done|by eapply next_covered|intros tid; by eapply next_directory|].
    destruct (next_sheds t c1 s' new Hc (Forall_lookup_1 _ _ _ _ (ci_tasks c1 Hc) Ek) En) as [Hh Hno].
    simpl. intros i add rem tid Hin Hrem Hhold. apply (Hstale i add rem tid); [|done|by apply Hh].
    rewrite !elem_of_app in Hin. destruct Hin as [Hin|[Hin|Hin]]; [|by apply Hno in Hin|].
    + eapply list_elem_of_lookup_1 in Hin as [j Hj]. apply lookup_take_Some in Hj as [Hj _].
      by eapply list_elem_of_lookup_2.
    + eapply list_elem_of_lookup_1 in Hin as [j Hj]. rewrite lookup_drop in Hj.
      by eapply list_elem_of_lookup_2.
Qed.

Lemma oreachable_inv s c :
  sharded_inv s → rtc ostep {| state := s; tasks := [] |} c → routes_inv c.
Proof.
  intros Hs Hr. assert (routes_inv {| state := s; tasks := [] |}) as Hidle.
  { split; [by apply idle_conc_inv| |apply Hs|by intros ???? ?%not_elem_of_nil].
    intros i tid (e & id & Hi & Ht). left. by eapply (si_routes s Hs). }
  apply (rtc_ind_r routes_inv _ Hidle) in Hr; [done|]. intros c1 c2 _ Hstep IH. by eapply ostep_inv.
Qed.
End routes.

(** C12: when routes survive concurrency.  Take any interleaving of the critical
    sections of calls in which no write that stores an entry with a tag in a
    shard starts while another call is between taking the last entry with that
    tag from that shard and taking its route away; all other calls overlap as
    they like.  Then a stored entry's tag is routed to its shard, or a call in
    progress will register the route or is about to invalidate the entry; and
    when no call is in progress the whole engine satisfies its invariant, routes
    included, so that invalidation by a tag then reaches every entry with it.
    (The interleaving [race], which loses a route, is not of this kind.) *)
Theorem concurrent_routes_kept `{HashOrder, ShardEnv} s c :
  sharded_inv s → rtc ostep {| state := s; tasks := [] |} c →
  covered (state c) (tasks c) ∧ (tasks c = [] → sharded_inv (state c)).
Proof.
  intros Hs Hr. pose proof (oreachable_inv s c Hs Hr) as [Hc Hcov Hd _]. split; [done|].
  intros Hidle. destruct Hc as [H1 H2 H3 _]. split; try done. intros i e Hi tid id Ht.
  destruct (Hcov i tid) as [Hroute|Hp]; [by exists e, id|done|].
  rewrite Hidle in Hp. by apply pending_nil in Hp.
Qed.

(** ** Interleavings that can be computed *)

Definition orderly_b `{ShardEnv} (a : Action) (c : Config) : bool :=
  match a with
  | Begin _ op =>
    match stores op (state c) with
    | Some (i, tags) =>
      forallb (λ t, match t with
                    | Routes j _ rem => negb (i =? j)%nat ||
                        forallb (λ tid, negb (bool_decide (tid ∈ rem))) tags
                    | _ => true
                    end) (tasks c)
    | None => true
    end
  | Next _ => true
  end.

Lemma orderly_b_spec `{ShardEnv} a c : orderly_b a c = true → orderly a c.
Proof.
  destruct a as [clk op|k]; simpl; [|done]. intros Hb i tags add rem tid Hs Hin Ht.
  rewrite Hs, forallb_forall in Hb. specialize (Hb _ (proj1 (list_elem_of_In _ _) Hin)). simpl in Hb.
  rewrite Nat.eqb_refl in Hb. simpl in Hb. rewrite forallb_forall in Hb.
  specialize (Hb _ (proj1 (list_elem_of_In _ _) Ht)).
  apply negb_true_iff, bool_decide_eq_false in Hb. done.
Qed.

Fixpoint run_orderly `{HashOrder, ShardEnv} (l : list Action) (c : Config) : option Config :=
  match l with
  | [] => Some c
  | a :: l => if orderly_b a c then c ← exec a c; run_orderly l c else None
  end.

Lemma run_orderly_reachable `{HashOrder, ShardEnv} l c c' :
  run_orderly l c = Some c' → rtc ostep c c'.
Proof.
  revert c. induction l as [|a l IH]; intros c; simpl; [intros [= ->]; apply rtc_refl|].
  destruct (orderly_b a c) eqn:E; [|done]. intros (c1 & Hex & Hr)%bind_Some.
  eapply rtc_l; [|by apply IH]. eapply ostep_exec; [done|by apply orderly_b_spec].
Qed.

(** ["a"], the only entry with tag ["t"] in its shard, is deleted; before the
    deletion takes the route away, ["c"] of the same shard is stored with tag
    ["u"] and an invalidation of ["u"] starts; then all three finish, the
    deletion last but one. *)
Definition overlapped : list Action :=
  [Begin (manual_clock 0) (OpPut (demo_put "a" ["t"%string])); Next 0;
   Begin (manual_clock 1) (OpDelete "default" (as_bytes "a"));
   Begin (manual_clock 2) (OpPut (demo_put "c" ["u"%string]));
   Begin (manual_clock 3) (OpInvalidateTag "default" "u");
   Next 1; Next 0; Next 0].

Lemma concurrent_routes_kept_witness :
  ∃ c, @run_orderly canonical_order demo_env overlapped idle = Some c ∧
    @sharded_inv demo_env (state c) ∧
    @run_orderly canonical_order demo_env race idle = None.
Proof.
  assert (option_map tasks (@run_orderly canonical_order demo_env overlapped idle) = Some [])
    as Hrun by (vm_compute; reflexivity).
  destruct (@run_orderly canonical_order demo_env overlapped idle) as [c|] eqn:E; [|discriminate].
  exists c. split; [reflexivity|]. split; [|vm_compute; reflexivity].
  simpl in Hrun. injection Hrun as Hidle.
  apply (@concurrent_routes_kept canonical_order demo_env demo_new c demo_new_inv); [|exact Hidle].
  exact (@run_orderly_reachable canonical_order demo_env _ _ _ E).
Defined.
End ConcRoutes.
