(* ===== verification/Server.v ===== *)
(** * Server: native requests, framing and metrics

    [src/server.rs]: the request counters, the execution of a decoded request
    on the sharded engine, the execution of the bytes of a frame with its two
    paths (borrowed and owned), the split of a read buffer into frames, the
    coalescing of responses, the admin routes and the expiration worker.
    Sockets, HTTP and the task runtime are not modelled; what they feed to
    these functions is their argument. *)

From S2P Require Import Prelude Bytes Protocol Engine Sharded.

(** ** Metrics *)

Module Metrics.

Definition METRIC_SHARD_COUNT : nat := 64.

(** The fields of [MetricsShard] and [MetricsSnapshot]. *)
Inductive Counter :=
| requests_total | health_requests | get_requests | put_requests | delete_requests
| batch_get_requests | tag_invalidate_requests | hits_total | misses_total | stale_total
| lease_grants | lease_denials | errors_total.

#[export] Instance Counter_eq_dec : EqDecision Counter.
Proof. solve_decision. Defined.

(** A record of thirteen [u64], by field. *)
Definition MetricsSnapshot : Type := Counter → N.
(** A record of thirteen [AtomicU64], by field. *)
Definition MetricsShard : Type := Counter → N.

Definition MetricsShard_default : MetricsShard := λ _, 0.
Definition MetricsSnapshot_default : MetricsSnapshot := λ _, 0.

(** [self.c.fetch_add(1, Ordering::Relaxed)]: atomics wrap around. *)
Definition fetch_add (c : Counter) (m : MetricsShard) : MetricsShard :=
  λ c', if decide (c' = c) then m c' +% 1 else m c'.

Definition snapshot_shard (m : MetricsShard) : MetricsSnapshot := λ c, m c.

Definition saturating_add (a b : MetricsSnapshot) : MetricsSnapshot := λ c, (a c +| b c).

Record Metrics := { m_shards : list MetricsShard }.

Definition Metrics_default : Metrics :=
  {| m_shards := replicate METRIC_SHARD_COUNT MetricsShard_default |}.

(** [u64::rotate_left] *)
Definition rotate_left (x n : N) : N :=
  N.lor (N.shiftl x n mod (U64_MAX + 1)) (N.shiftr x (64 - n)).

Definition shard_for_request (connection_id request_id : N) (m : Metrics) : nat :=
  N.to_nat (N.lxor connection_id (rotate_left request_id 17) mod len (m_shards m)).

Definition admin_shard : nat := 0.

Definition snapshot (m : Metrics) : MetricsSnapshot :=
  foldl saturating_add MetricsSnapshot_default (snapshot_shard <$> m_shards m).
End Metrics.

(** ** Handlers *)

Module Server.
Import Protocol Codec Metrics.
Import Sharded(ShardEnv, ShardedEngine, hash64).

Record AppState := { engine : ShardedEngine; metrics : Metrics }.

(** A handler on the shared state; [None] is a panic. *)
Definition Handler (A : Type) : Type := AppState → option (A * AppState).

Definition hret {A} (a : A) : Handler A := λ st, Some (a, st).
Definition hbind {A B} (h : Handler A) (k : A → Handler B) : Handler B := λ st,
  match h st with
  | Some (a, st') => k a st'
  | None => None
  end.

Notation "x <~ h ;; k" := (hbind h (λ x, k))
  (at level 100, h at level 99, right associativity, k at level 200).
Notation "h ;;; k" := (hbind h (λ _, k)) (at level 100, right associativity).

(** [state.engine.f(...)] *)
Definition call {A} (f : ShardedEngine → option (A * ShardedEngine)) : Handler A := λ st,
  match f (engine st) with
  | Some (a, s) => Some (a, {| engine := s; metrics := metrics st |})
  | None => None
  end.

(** [metrics.c.fetch_add(1)] on shard [m] of the counters. *)
Definition count (m : nat) (c : Counter) : Handler unit := λ st,
  match m_shards (metrics st) !! m with
  | Some sh => Some (tt, {| engine := engine st;
      metrics := {| m_shards := <[m := fetch_add c sh]> (m_shards (metrics st)) |} |})
  | None => None
  end.

(** [n.min(u32::MAX as usize) as u32] *)
Definition clamp_u32 (n : N) : N := N.min n U32_MAX.

Definition native_put_command (namespace : string) (key : bytes) (md : Metadata) (value : bytes) :
    Engine.PutCommand :=
  {| Engine.pc_namespace := namespace; Engine.pc_key := key; Engine.pc_value := value;
     Engine.pc_ttl := md_ttl md; Engine.pc_stale_ttl := md_stale_ttl md;
     Engine.pc_tags := md_tags md; Engine.pc_cost := md_cost md |}.

(** The command the [LeaseComplete] arm builds. *)
Definition native_complete_command (namespace : string) (key : bytes) (lease_token : string)
    (md : Metadata) (value : bytes) : Engine.CompleteLeaseCommand :=
  {| Engine.cl_namespace := namespace; Engine.cl_key := key;
     Engine.cl_lease_token := lease_token; Engine.cl_value := value;
     Engine.cl_ttl := md_ttl md; Engine.cl_stale_ttl := md_stale_ttl md;
     Engine.cl_tags := md_tags md; Engine.cl_cost := md_cost md |}.

Definition native_put_error (error : Engine.PutError) : ResponsePayload :=
  match error with
  | Engine.ValueTooLarge _ _ =>
    PError ValueTooLarge "value exceeds configured value limit"
  | Engine.ValueTooLargeForMemory _ _ =>
    PError EntryTooLarge "entry cannot fit configured memory limit"
  | Engine.InsufficientMemory _ _ _ =>
    PError InsufficientMemory "entry could not fit after cleanup and eviction"
  end.

Definition native_decode_error_code (error : DecodeError) : ErrorCode :=
  match error with
  | DUnsupportedVersion _ => UnsupportedVersion
  | DUnknownCommand _ => UnknownCommand
  | DFrameTooLarge _ _ => FrameTooLarge
  | DInvalidNamespace => InvalidNamespace
  | DInvalidTag => InvalidTag
  | _ => BadFrame
  end.

(** [format!("{error:?}")], the derived [Debug] of [DecodeError]. *)
Definition quote : string := String (Ascii.ascii_of_nat 34) "".

Definition debug_error (error : DecodeError) : string :=
  let u8 (b : byte) : string := pretty (Byte.to_N b) in
  let num (n : N) : string := pretty n in
  match error with
  | DIncompleteHeader => "IncompleteHeader"
  | DBadMagic => "BadMagic"
  | DUnsupportedVersion v => "UnsupportedVersion(" +:+ u8 v +:+ ")"
  | DInvalidKind k => "InvalidKind(" +:+ u8 k +:+ ")"
  | DUnknownCommand id => "UnknownCommand(" +:+ u8 id +:+ ")"
  | DNonzeroFlags f => "NonzeroFlags(" +:+ u8 f +:+ ")"
  | DNonzeroReserved r => "NonzeroReserved(" +:+ num r +:+ ")"
  | DFrameTooLarge n m => "FrameTooLarge { payload_len: " +:+ num n +:+ ", max: " +:+ num m +:+ " }"
  | DTruncatedPayload x a => "TruncatedPayload { expected: " +:+ num x +:+ ", actual: " +:+ num a +:+ " }"
  | DInvalidPayload what => "InvalidPayload(" +:+ quote +:+ what +:+ quote +:+ ")"
  | DInvalidUtf8 => "InvalidUtf8"
  | DInvalidNamespace => "InvalidNamespace"
  | DInvalidTag => "InvalidTag"
  | DInvalidBool v => "InvalidBool(" +:+ u8 v +:+ ")"
  | DTrailingBytes n => "TrailingBytes(" +:+ num n +:+ ")"
  end.

Definition native_decode_error_response (frame : bytes) (error : DecodeError) :
    option ResponseFrame :=
  if (len frame <? HEADER_LEN) || negb (bool_decide (slice frame 0 4 = MAGIC)) then None
  else
    let command := match Command_from_id (index frame 6) with Ok c => c | Err _ => Get end in
    let request_id := from_be_bytes (slice frame 8 16) in
    Some {| rs_request_id := request_id; rs_command := command;
            rs_payload := PError (native_decode_error_code error) (debug_error error) |}.

Section execute.
Context `{Engine.HashOrder, ShardEnv} (clk : Engine.Clock).

Definition execute_native_get (m : nat) (namespace : string) (key : bytes) :
    Handler ResponsePayload :=
  count m get_requests;;;
  o <~ call (Sharded.get clk namespace key);;
  match o with
  | Engine.GHit value => count m hits_total;;; hret (PHit value)
  | Engine.GStale value => count m stale_total;;; hret (PStale value)
  | Engine.GMiss => count m misses_total;;; hret PMiss
  end.

Definition execute_native_lease_start (m : nat) (namespace : string) (key : bytes)
    (lease_ttl_ms : N) : Handler ResponsePayload :=
  o <~ call (Sharded.start_lease clk namespace key lease_ttl_ms);;
  match o with
  | Engine.LHit value => count m hits_total;;; hret (PHit value)
  | Engine.LStale value => count m stale_total;;; hret (PStale value)
  | Engine.LeaseGranted token stale_value =>
    count m lease_grants;;; hret (PLeaseGranted token stale_value)
  | Engine.LeaseDenied => count m lease_denials;;; hret PLeaseDenied
  end.

(** The loop over the outcomes of a batch. *)
Fixpoint batch_items (m : nat) (outcomes : list Engine.GetOutcome) : Handler (list BatchItem) :=
  match outcomes with
  | [] => hret []
  | Engine.GHit value :: outcomes =>
    count m hits_total;;; items <~ batch_items m outcomes;; hret (BHit value :: items)
  | Engine.GStale value :: outcomes =>
    count m stale_total;;; items <~ batch_items m outcomes;; hret (BStale value :: items)
  | Engine.GMiss :: outcomes =>
    count m misses_total;;; items <~ batch_items m outcomes;; hret (BMiss :: items)
  end.

Definition execute_native_payload_with_metrics (m : nat) (payload : RequestPayload) :
    Handler ResponsePayload :=
  match payload with
  | RGet namespace key => execute_native_get m namespace key
  | RPut namespace key md value =>
    count m put_requests;;;
    r <~ call (Sharded.put clk (native_put_command namespace key md value));;
    match r with
    | Ok outcome => hret (PStored (clamp_u32 (Engine.po_evicted outcome)))
    | Err error => count m errors_total;;; hret (native_put_error error)
    end
  | RDelete namespace key =>
    count m delete_requests;;;
    removed <~ call (Sharded.delete namespace key);;
    hret (PDeleted removed)
  | RBatchGet namespace keys =>
    count m batch_get_requests;;;
    outcomes <~ call (Sharded.batch_get clk namespace keys);;
    items <~ batch_items m outcomes;;
    hret (PBatchGet items)
  | RTagInvalidate namespace tag =>
    count m tag_invalidate_requests;;;
    removed <~ call (Sharded.invalidate_tag namespace tag);;
    hret (PInvalidated (clamp_u32 removed))
  | RLeaseStart namespace key lease_ttl_ms _ =>
    execute_native_lease_start m namespace key lease_ttl_ms
  | RLeaseComplete namespace key lease_token md value =>
    r <~ call (Sharded.complete_lease clk
      (native_complete_command namespace key lease_token md value));;
    match r with
    | Ok outcome => hret (PStored (clamp_u32 (Engine.po_evicted outcome)))
    | Err Engine.InvalidLeaseToken =>
      count m errors_total;;;
      hret (PError InvalidLeaseToken "lease token is missing, expired, or no longer active")
    | Err (Engine.PutFailed error) => count m errors_total;;; hret (native_put_error error)
    end
  end.

Definition execute_native_payload_view (m : nat) (payload : RequestPayloadView) :
    Handler ResponsePayload :=
  match payload with
  | VGet namespace key => execute_native_get m namespace key
  | VDelete namespace key =>
    count m delete_requests;;;
    removed <~ call (Sharded.delete namespace key);;
    hret (PDeleted removed)
  | VTagInvalidate namespace tag =>
    count m tag_invalidate_requests;;;
    removed <~ call (Sharded.invalidate_tag namespace tag);;
    hret (PInvalidated (clamp_u32 removed))
  | VLeaseStart namespace key lease_ttl_ms _ =>
    execute_native_lease_start m namespace key lease_ttl_ms
  end.

Definition execute_native_request (m : nat) (frame : RequestFrame) : Handler ResponseFrame :=
  payload <~ execute_native_payload_with_metrics m (rq_payload frame);;
  hret {| rs_request_id := rq_request_id frame; rs_command := rq_command frame;
          rs_payload := payload |}.

Definition execute_native_request_view (m : nat) (frame : RequestFrameView) :
    Handler ResponseFrame :=
  payload <~ execute_native_payload_view m (rv_payload frame);;
  hret {| rs_request_id := rv_request_id frame; rs_command := rv_command frame;
          rs_payload := payload |}.

(** The result of an encoder, whose assertion may panic. *)
Definition encoded (out : option bytes) : Handler bytes := λ st,
  match out with Some bs => Some (bs, st) | None => None end.

Definition encode_native_get_response_frame (m : nat) (request_id : N) (command : Command)
    (namespace : string) (key : bytes) (out : bytes) : Handler bytes :=
  count m get_requests;;;
  o <~ call (Sharded.get_ref clk namespace key);;
  match o with
  | Engine.GHit value =>
    count m hits_total;;;
    encoded (encode_response_payload_view_frame_into request_id command (WHit value) out)
  | Engine.GStale value =>
    count m stale_total;;;
    encoded (encode_response_payload_view_frame_into request_id command (WStale value) out)
  | Engine.GMiss =>
    count m misses_total;;;
    encoded (encode_response_payload_view_frame_into request_id command WMiss out)
  end.

(** The response to a frame that does not decode, if there is one; the
    response buffer is left as it was otherwise. *)
Definition respond_decode_error (frame : bytes) (error : DecodeError) (response_buffer : bytes) :
    Handler bytes :=
  match native_decode_error_response frame error with
  | Some response => encoded (encode_response_frame_into response response_buffer)
  | None => hret response_buffer
  end.

Definition execute_native_frame_bytes_into (frame : bytes) (max_payload_len connection_id : N)
    (response_buffer : bytes) : Handler bytes := λ st,
  match decode_borrowed_request_frame frame max_payload_len with
  | Ok (Some request) =>
    let m := shard_for_request connection_id (rv_request_id request) (metrics st) in
    match rv_payload request with
    | VGet namespace key =>
      encode_native_get_response_frame m (rv_request_id request) (rv_command request)
        namespace key response_buffer st
    | _ =>
      (response <~ execute_native_request_view m request;;
       encoded (encode_response_frame_into response response_buffer)) st
    end
  | Ok None =>
    match decode_request_frame frame max_payload_len with
    | Ok request =>
      let m := shard_for_request connection_id (rq_request_id request) (metrics st) in
      (response <~ execute_native_request m request;;
       encoded (encode_response_frame_into response response_buffer)) st
    | Err error => respond_decode_error frame error response_buffer st
    end
  | Err error => respond_decode_error frame error response_buffer st
  end.
End execute.

(** ** Framing of the read buffer *)

Inductive FrameDrain :=
| Frames (ranges : list (N * N))
| NeedMore
| Close.

(** The [while] loop of [find_complete_native_frames]; a turn consumes at
    least a header, so the length of the buffer bounds the turns. *)
Fixpoint find_frames (fuel : nat) (buffer : bytes) (max_payload_len offset : N)
    (frames : list (N * N)) : FrameDrain :=
  let done := match frames with [] => NeedMore | _ => Frames frames end in
  match fuel with
  | O => done
  | S fuel =>
    if HEADER_LEN <=? (len buffer -| offset) then
      let payload_len := from_be_bytes (slice buffer (offset + 16) (offset + 20)) in
      if max_payload_len <? payload_len then Close
      else
        let frame_len := HEADER_LEN + payload_len in
        if (len buffer -| offset) <? frame_len then done
        else find_frames fuel buffer max_payload_len (offset + frame_len)
               (frames ++ [(offset, offset + frame_len)])
    else done
  end.

Definition find_complete_native_frames (buffer : bytes) (max_payload_len : N) : FrameDrain :=
  find_frames (S (length buffer)) buffer max_payload_len 0 [].

Definition drain_frame_ranges (buffer : bytes) (ranges : list (N * N)) : bytes :=
  match List.rev ranges with
  | (_, stop) :: _ => drop (N.to_nat stop) buffer
  | [] => buffer
  end.

(** ** Coalescing of responses *)

Definition MAX_IN_FLIGHT_PER_CONNECTION : nat := 128.
Definition MAX_RESPONSE_WRITE_BATCH_FRAMES : nat := 32.
Definition MAX_RESPONSE_WRITE_BATCH_BYTES : N := 64 * 1024.

(** The loop of [coalesce_native_responses]; [queue] is what [try_recv] finds
    in the channel. *)
Fixpoint coalesce_loop (batch : bytes) (frames : nat) (queue : list bytes) : bytes * list bytes :=
  match queue with
  | [] => (batch, [])
  | response :: queue' =>
    if bool_decide (frames < MAX_RESPONSE_WRITE_BATCH_FRAMES)%nat
       && (len batch <? MAX_RESPONSE_WRITE_BATCH_BYTES)
    then
      let exceeds_batch_bytes :=
        MAX_RESPONSE_WRITE_BATCH_BYTES <? (len batch +| len response) in
      let batch := batch ++ response in
      if exceeds_batch_bytes then (batch, queue')
      else coalesce_loop batch (S frames) queue'
    else (batch, queue)
  end.

Definition coalesce_native_responses (first : bytes) (queue : list bytes) : bytes * list bytes :=
  coalesce_loop first 1 queue.

(** ** Admin routes *)

Inductive HttpMethod := GET | OtherMethod.

#[export] Instance HttpMethod_eq_dec : EqDecision HttpMethod.
Proof. solve_decision. Defined.

Record AdminResponse := { status : N; body : string }.

Definition METRICS_ROUTE : string := "/metrics".
Definition HEALTH_ROUTE : string := "/healthz".

Definition metrics_response (st : AppState) : AdminResponse :=
  let snap := snapshot (metrics st) in
  let engine_stats := Sharded.stats (engine st) in
  let memory_used_bytes := Sharded.memory_used_bytes (engine st) in
  let cost_score_total := Sharded.cost_score_total (engine st) in
  let limits := Sharded.limits (engine st) in
  let line (name : string) (n : N) : string := name +:+ " " +:+ pretty n in
  {| status := 200;
     body := unlines
       ["# HELP cachebox_requests_total Total admin HTTP requests handled.";
        "# TYPE cachebox_requests_total counter";
        line "cachebox_requests_total" (snap requests_total);
        line "cachebox_requests_health_total" (snap health_requests);
        line "cachebox_requests_get_total" (snap get_requests);
        line "cachebox_requests_put_total" (snap put_requests);
        line "cachebox_requests_delete_total" (snap delete_requests);
        line "cachebox_requests_batch_get_total" (snap batch_get_requests);
        line "cachebox_requests_tag_invalidate_total" (snap tag_invalidate_requests);
        "# HELP cachebox_cache_hits_total Cache hit outcomes.";
        "# TYPE cachebox_cache_hits_total counter";
        line "cachebox_cache_hits_total" (snap hits_total);
        line "cachebox_cache_misses_total" (snap misses_total);
        line "cachebox_cache_stale_total" (snap stale_total);
        line "cachebox_lease_grants_total" (snap lease_grants);
        line "cachebox_lease_denials_total" (snap lease_denials);
        line "cachebox_errors_total" (snap errors_total);
        line "cachebox_expirations_total" (Engine.expirations engine_stats);
        line "cachebox_evictions_total" (Engine.evictions engine_stats);
        line "cachebox_memory_used_bytes" memory_used_bytes;
        line "cachebox_memory_limit_bytes" (Engine.max_memory_bytes limits);
        line "cachebox_cost_score_total" cost_score_total;
        "cachebox_connections_current 0"]%string |}.

Definition handle_request (method : HttpMethod) (path : string) : Handler AdminResponse := λ st,
  if bool_decide (method = GET) && bool_decide (path = METRICS_ROUTE)
  then Some (metrics_response st, st)
  else if bool_decide (method = GET) && bool_decide (path = HEALTH_ROUTE)
  then (count admin_shard requests_total;;; count admin_shard health_requests;;;
        hret {| status := 200; body := "ok" |}) st
  else (count admin_shard requests_total;;; count admin_shard errors_total;;;
        hret {| status := 404;
                body := "HTTP is admin-only; use the native socket protocol for cache operations" |})
       st.

(** ** The expiration worker

    [spawn_expiration_worker] spawns no task for a zero interval; otherwise
    each tick of the interval runs one budgeted cleanup. *)

Definition expiration_worker_enabled (interval_ms : N) : bool := negb (interval_ms =? 0).

Definition expiration_tick (clk : Engine.Clock) (max_entries_per_tick : N) (st : AppState) :
    AppState :=
  {| engine := (Sharded.reclaim_expired_budget clk max_entries_per_tick (engine st)).2;
     metrics := metrics st |}.

(** [AppState::from_config] with the limits of the configuration. *)
Definition from_limits (max_memory_bytes max_value_bytes : N) : option AppState :=
  s ← Sharded.with_limits {| Engine.max_memory_bytes := max_memory_bytes;
                             Engine.max_value_bytes := max_value_bytes |};
  Some {| engine := s; metrics := Metrics_default |}.
End Server.
