(* ===== verification/ServerFacts.v ===== *)
(** * ServerFacts: handlers run to completion

    [total lim h P]: from every consistent state with the limits [lim] the
    handler [h] returns without a panic, in a consistent state, a result that
    satisfies [P].  The handlers of the server are total, and what they return
    is a response the codec can carry, if its payload fits a frame.  The states
    are those of [Consistent], so they include the ones in which calls of other
    connections are between two of their critical sections. *)

From S2P Require Import Prelude Bytes Protocol ProtocolFacts ProtocolSpec Engine EngineInv.
From S2P Require Import EnginePut EngineOps Sharded ShardedInv ShardedSpec Consistent Server.

Module ServerFacts.
Import Protocol Codec ProtocolFacts Server.
Import Sharded(ShardEnv, ShardedEngine).
Import Engine(Engine, Clock, EngineLimits, EntryId_new, max_value_bytes).
Import EngineInv EngineOps ShardedInv ShardedSpec Consistent.

(** ** What one engine returns *)

Section outcomes.
Context (e : Engine) (Hinv : engine_inv e).
Let maxv := max_value_bytes (Engine.limits e).

Lemma stored_value_le id en : Engine.entries e !! id = Some en → len (Engine.e_value en) ≤ maxv.
Proof.
  intros Hid. apply (eok_value _ id). by apply (acc_entries e (inv_accounts e Hinv)).
Qed.

Definition outcome_fits (m : N) (o : Engine.GetOutcome) : Prop :=
  match o with Engine.GHit v | Engine.GStale v => len v ≤ m | Engine.GMiss => True end.

Lemma visible_fits now id : outcome_fits maxv (visible now id e).
Proof.
  unfold visible. destruct (Engine.entries e !! id) as [en|] eqn:E; [|done].
  pose proof (stored_value_le id en E). by destruct (Engine.entry_state_at en now).
Qed.

Lemma get_fits clk ns key u : outcome_fits maxv (Engine.get_ref_inner clk ns key u e).1.
Proof.
  pose proof (get_ref_inner_spec clk ns key u e) as Hs. simpl in Hs.
  destruct (Engine.get_ref_inner clk ns key u e) as [o e']. destruct Hs as [-> _].
  apply visible_fits.
Qed.

Definition lease_fits (m : N) (o : Engine.StartLeaseOutcome) : Prop :=
  match o with
  | Engine.LHit v | Engine.LStale v => len v ≤ m
  | Engine.LeaseGranted token stale =>
    (ascii_text token ∧ str_len token ≤ 26) ∧ opt_ok (λ v, len v ≤ m) stale
  | Engine.LeaseDenied => True
  end.

Lemma lease_token_fits n : n ≤ U64_MAX →
  ascii_text (Engine.lease_token n) ∧ str_len (Engine.lease_token n) ≤ 26.
Proof.
  intros Hn. destruct (pretty_u64 n Hn) as [H1 H2]. unfold Engine.lease_token. split.
  - by apply ascii_text_app.
  - rewrite str_len_app. change (str_len "lease-") with 6. lia.
Qed.

(** The value [start_lease] reads after recording the access. *)
Lemma recorded_value_le id en :
  Engine.entries (Engine.record_access id e) !! id = Some en → len (Engine.e_value en) ≤ maxv.
Proof.
  intros Hen. pose proof (record_access_lookup id e) as Hr. rewrite Hen in Hr. simpl in Hr.
  destruct (Engine.entries e !! id) as [en'|] eqn:E; [|done]. injection Hr as ->.
  by eapply stored_value_le.
Qed.

Lemma next_access_u64 (x : Engine) : engine_inv x → Engine.next_access x ≤ U64_MAX.
Proof. intros Hx. apply (acc_next x (inv_accounts x Hx)). Qed.

Lemma missing_fits clk id ttl x m :
  engine_inv x → lease_fits m (Engine.start_lease_for_missing clk id ttl x).1.
Proof.
  intros Hx. unfold Engine.start_lease_for_missing. destruct (Engine.active_lease _ id x); [done|].
  simpl. split; [|done]. apply lease_token_fits, next_access_u64, Hx.
Qed.

Lemma start_lease_fits clk ns key ttl : lease_fits maxv (Engine.start_lease clk ns key ttl e).1.
Proof.
  unfold Engine.start_lease. set (id := EntryId_new ns key).
  pose proof (record_access_inv id e Hinv) as Hr.
  pose proof (lease_token_fits _ (next_access_u64 _ Hr)) as Htok.
  destruct (Engine.entry_state (clk 1%nat) id e).
  - by apply missing_fits.
  - destruct (Engine.entries (Engine.record_access id e) !! id) as [en|] eqn:E; simpl; [|done].
    by eapply recorded_value_le.
  - destruct (Engine.entries (Engine.record_access id e) !! id) as [en|] eqn:E; simpl.
    + pose proof (recorded_value_le id en E). by destruct (bool_decide _).
    + destruct (bool_decide _); simpl; [rewrite len_nil; lia | done].
  - destruct (bool_decide _); [done|]. apply missing_fits. by apply remove_entry_inv.
Qed.
End outcomes.

(** ** Total handlers *)

Section total.
Context `{Engine.HashOrder, ShardEnv} (lim : EngineLimits).

Record st_ok (st : AppState) : Prop := {
  sto_inv : consistent (engine st);
  sto_limits : Sharded.sh_limits (engine st) = lim;
  sto_metrics : length (Metrics.m_shards (metrics st)) = Metrics.METRIC_SHARD_COUNT
}.

Definition total {A} (h : Handler A) (P : A → Prop) : Prop :=
  ∀ st, st_ok st → ∃ a st', h st = Some (a, st') ∧ st_ok st' ∧ P a.

Lemma total_ret {A} (a : A) (P : A → Prop) : P a → total (hret a) P.
Proof. intros Ha st Hst. by exists a, st. Qed.

Lemma total_bind {A B} (h : Handler A) (k : A → Handler B) (P : A → Prop) (Q : B → Prop) :
  total h P → (∀ a, P a → total (k a) Q) → total (hbind h k) Q.
Proof.
  intros Hh Hk st Hst. destruct (Hh st Hst) as (a & st1 & Heq & Hst1 & Ha).
  unfold hbind. rewrite Heq. by apply Hk.
Qed.

Lemma total_count m c : (m < Metrics.METRIC_SHARD_COUNT)%nat → total (count m c) (λ _, True).
Proof.
  intros Hm st [H1 H2 H3]. unfold count.
  destruct (lookup_lt_is_Some_2 (Metrics.m_shards (metrics st)) m) as [sh ->]; [by rewrite H3|].
  eexists _, _. split; [reflexivity|]. split; [|done]. split; simpl; [done|done|].
  by rewrite length_insert.
Qed.

(** A call of the engine, by its reply. *)
Lemma total_call {A} (f : ShardedEngine → option (A * ShardedEngine)) clk op (inj : A → Reply)
    (P : A → Prop) :
  (∀ a b, inj a = inj b → a = b) →
  (∀ s, sharded_reply clk op s = rmap inj <$> f s) →
  (∀ s a s', consistent s → Sharded.sh_limits s = lim →
     sharded_reply clk op s = Some (inj a, s') → P a) →
  total (call f) P.
Proof.
  intros Hinj Hf HP st [H1 H2 H3]. unfold call.
  destruct (reply_consistent clk op (engine st) H1) as (r & s' & Heq & Hs').
  pose proof (sharded_reply_shape _ _ _ _ _ Heq) as [_ Hlim].
  rewrite Hf in Heq. destruct (f (engine st)) as [[a s1]|] eqn:Ef; [|done]. simpl in Heq.
  injection Heq as <- ->. eexists _, _. split; [reflexivity|]. split.
  - split; simpl; [done | congruence | done].
  - apply (HP (engine st) a s'); [done|done|]. by rewrite Hf, Ef.
Qed.

(** What a reply of a key's shard satisfies. *)
Lemma keyed_reply clk op id s r s' (P : Reply → Prop) :
  consistent s → Sharded.sh_limits s = lim → op_key op = Some id →
  (∀ e, engine_inv e → max_value_bytes (Engine.limits e) = max_value_bytes lim →
     P (engine_reply clk op e).1) →
  sharded_reply clk op s = Some (r, s') → P r.
Proof.
  intros Hs Hlim Hop HP Heq. destruct (keyed_consistent clk op id s Hs Hop) as (e & s1 & He & Heq' & _).
  rewrite Heq' in Heq. injection Heq as <- _.
  destruct (consistent_shard s _ e Hs He) as [Hinv Hl _ _]. apply HP; [done|]. by rewrite Hl, Hlim.
Qed.

(** ** Responses the codec can carry *)

Let maxv := max_value_bytes lim.

(** The bytes of a response's payload. *)
Definition response_len (r : ResponsePayload) : N := len (encode_response_payload r []).

(** The payload takes at most [bound] bytes, and decodes back if it fits a
    frame. *)
Definition carried (cmd : Command) (bound : N) (r : ResponsePayload) : Prop :=
  (response_len r ≤ U32_MAX → response_ok cmd r) ∧ response_len r ≤ bound.

(** A bound on the payload of the response to a request, from the limit on
    values. *)
Definition response_bound (p : RequestPayload) : N :=
  match p with
  | RBatchGet _ keys => 5 + len keys * (5 + maxv)
  | _ => 128 + maxv
  end.

Ltac sizes := unfold response_len, write_bytes, write_string, write_bytes, write_bool, write_u16,
    write_u32, push in *; autorewrite with cbx_len in *; try lia.

Lemma carried_hit cmd v b : len v ≤ maxv → 5 + maxv ≤ b → carried cmd b (PHit v).
Proof.
  intros Hv Hb. unfold carried, response_len. cbn [encode_response_payload response_ok].
  unfold bytes_ok. split; [intros Hl|]; sizes.
Qed.

Lemma carried_stale cmd v b : len v ≤ maxv → 5 + maxv ≤ b → carried cmd b (PStale v).
Proof.
  intros Hv Hb. unfold carried, response_len. cbn [encode_response_payload response_ok].
  unfold bytes_ok. split; [intros Hl|]; sizes.
Qed.

Lemma carried_granted cmd token stale b :
  ascii_text token → str_len token ≤ 26 → opt_ok (λ v, len v ≤ maxv) stale →
  40 + maxv ≤ b → carried cmd b (PLeaseGranted token stale).
Proof.
  intros Ht Hl Hs Hb. split.
  - intros Hfit. split; [split; [by apply ascii_text_ok | unfold U32_MAX; lia]|].
    destruct stale; simpl in *; unfold bytes_ok; [|done]. unfold response_len in Hfit.
    cbn [encode_response_payload] in Hfit. sizes.
  - destruct stale; unfold response_len; simpl in *; sizes.
Qed.

Lemma carried_error cmd code msg b :
  ascii_text msg → str_len msg ≤ 64 → 80 ≤ b → carried cmd b (PError code msg).
Proof.
  intros. split; [split; [by apply ascii_text_ok | unfold U32_MAX; lia] |].
  unfold response_len. simpl. sizes.
Qed.

Lemma carried_put_error cmd err b : 80 ≤ b → carried cmd b (native_put_error err).
Proof. intros. destruct err; by apply carried_error. Qed.

Lemma carried_small cmd r b :
  response_ok cmd r → response_len r ≤ 5 → 5 ≤ b → carried cmd b r.
Proof. intros. split; [done|lia]. Qed.

Definition item_len (i : BatchItem) : N :=
  match i with BHit v | BStale v => 5 + len v | BMiss => 1 end.

Lemma items_len out items :
  len (foldl write_batch_item out items) = len out + foldr (λ i n, item_len i + n) 0 items.
Proof.
  revert out. induction items as [|i items IH]; intros out; simpl; [lia|]. rewrite IH.
  destruct i; simpl; sizes.
Qed.

Lemma items_fit items :
  foldr (λ i n, item_len i + n) 0 items ≤ U32_MAX → Forall item_ok items.
Proof.
  induction items as [|i items IH]; simpl; intros Hl; [constructor|].
  constructor; [|apply IH; lia]. destruct i; simpl in *; unfold bytes_ok; (done || lia).
Qed.

Lemma carried_items items b :
  len items ≤ U32_MAX →
  (∀ i, i ∈ items → match i with BHit v | BStale v => len v ≤ maxv | BMiss => True end) →
  5 + len items * (5 + maxv) ≤ b → carried BatchGet b (PBatchGet items).
Proof.
  intros Hn Hv Hb. assert (response_len (PBatchGet items) =
    5 + foldr (λ i n, item_len i + n) 0 items) as Heq.
  { unfold response_len. cbn [encode_response_payload]. rewrite items_len. sizes. }
  unfold carried. rewrite Heq. split.
  - intros Hl. split_and!; [done|apply items_fit; lia|done].
  - etrans; [|exact Hb]. apply N.add_le_mono_l. clear Heq Hn Hb.
    induction items as [|i items IH]; simpl; [lia|]. rewrite len_cons.
    specialize (IH (λ j Hj, Hv j ltac:(set_solver))). specialize (Hv i ltac:(set_solver)).
    destruct i; simpl; lia.
Qed.

(** ** The handlers *)

Section handlers.
Context (clk : Clock) (m : nat) (Hm : (m < Metrics.METRIC_SHARD_COUNT)%nat).

Lemma total_count_ret {A} c (a : A) (P : A → Prop) :
  P a → total (hbind (count m c) (λ _, hret a)) P.
Proof.
  intros Ha. eapply total_bind; [by apply total_count|]. intros _ _. by apply total_ret.
Qed.

Lemma total_get ns key : total (call (Sharded.get clk ns key)) (outcome_fits maxv).
Proof.
  apply (total_call _ clk (OpGet ns key true) RpGet); [by intros ?? [=]|done|].
  intros s o s' Hs Hlim Heq.
  apply (keyed_reply clk (OpGet ns key true) (EntryId_new ns key) s (RpGet o) s'
    (λ r, match r with RpGet o => outcome_fits maxv o | _ => True end)); [done..| |done].
  intros e He Hl. simpl. unfold maxv. rewrite <- Hl. by apply get_fits.
Qed.

Lemma total_execute_get cmd ns key :
  total (execute_native_get clk m ns key) (carried cmd (128 + maxv)).
Proof.
  unfold execute_native_get.
  eapply total_bind; [by apply total_count|]. intros _ _.
  eapply total_bind; [apply total_get|]. intros o Ho.
  destruct o as [v|v|]; apply total_count_ret; simpl in Ho.
  - apply carried_hit; lia.
  - apply carried_stale; lia.
  - by apply carried_small; [..|lia].
Qed.

Lemma total_lease_start cmd ns key ttl :
  total (execute_native_lease_start clk m ns key ttl) (carried cmd (128 + maxv)).
Proof.
  unfold execute_native_lease_start. eapply (total_bind _ _ (lease_fits maxv)).
  - apply (total_call _ clk (OpStartLease ns key ttl) RpLease); [by intros ?? [=]|done|].
    intros s o s' Hs Hlim Heq.
    apply (keyed_reply clk (OpStartLease ns key ttl) (EntryId_new ns key) s (RpLease o) s'
      (λ r, match r with RpLease o => lease_fits maxv o | _ => True end)); [done..| |done].
    intros e He Hl. simpl. unfold maxv. rewrite <- Hl. by apply start_lease_fits.
  - intros o Ho. destruct o as [v|v|token stale|]; apply total_count_ret; simpl in Ho.
    + apply carried_hit; lia.
    + apply carried_stale; lia.
    + destruct Ho as [[Ht Hl] Hs]. apply carried_granted; [done..|lia].
    + by apply carried_small; [..|lia].
Qed.

Lemma batch_get_fits c ns keys s os s' :
  consistent s → Sharded.sh_limits s = lim → Sharded.batch_get c ns keys s = Some (os, s') →
  length os = length keys ∧ Forall (outcome_fits maxv) os.
Proof.
  revert c s os. induction keys as [|key keys IH]; intros c s os Hs Hlim; simpl.
  { by intros [= <- <-]. }
  intros ([o s1] & Hg & ([os' s2] & Hb & Heq)%bind_Some)%bind_Some. injection Heq as <- <-.
  destruct (get_consistent c ns key s Hs) as (o' & s1' & Hg' & Hs1).
  rewrite Hg in Hg'. injection Hg' as <- <-.
  pose proof (with_shard_shape _ _ _ _ _ Hg) as [_ Hl1].
  destruct (IH _ _ _ Hs1 ltac:(congruence) Hb) as [Hlen Hall].
  split; [simpl; lia|]. constructor; [|done].
  apply (keyed_reply c (OpGet ns key true) (EntryId_new ns key) s (RpGet o) s1
    (λ r, match r with RpGet o => outcome_fits maxv o | _ => True end)); [done..| |].
  - intros e He Hl. simpl. unfold maxv. rewrite <- Hl. by apply get_fits.
  - simpl. change (Sharded.get_ref c ns key s) with (Sharded.get c ns key s). by rewrite Hg.
Qed.

Lemma total_batch_items os :
  Forall (outcome_fits maxv) os →
  total (batch_items m os) (λ items, length items = length os ∧
    ∀ i, i ∈ items → match i with BHit v | BStale v => len v ≤ maxv | BMiss => True end).
Proof.
  intros Hos. induction Hos as [|o os Ho _ IH]; simpl.
  { apply total_ret. split_and!; [done | set_solver]. }
  assert (∀ c i, match i with BHit v | BStale v => len v ≤ maxv | BMiss => True end →
    total (hbind (count m c) (λ _, hbind (batch_items m os) (λ items, hret (i :: items))))
      (λ items, length items = S (length os) ∧
        ∀ i, i ∈ items → match i with BHit v | BStale v => len v ≤ maxv | BMiss => True end))
    as Hstep.
  { intros c i Hv. eapply total_bind; [by apply total_count|]. intros _ _.
    eapply total_bind; [exact IH|]. intros items (H1 & H3). apply total_ret.
    split_and!; [simpl; lia |]. intros j [->|Hj]%elem_of_cons; [exact Hv | exact (H3 j Hj)]. }
  destruct o; apply Hstep; simpl in *; (done || lia).
Qed.

(** A call whose reply needs no further property. *)
Lemma total_call_any {A} (f : ShardedEngine → option (A * ShardedEngine)) op (inj : A → Reply) :
  (∀ a b, inj a = inj b → a = b) → (∀ s, sharded_reply clk op s = rmap inj <$> f s) →
  total (call f) (λ _, True).
Proof. intros Hinj Hf. by apply (total_call f clk op inj). Qed.

Lemma total_stored (r : result Engine.PutOutcome Engine.PutError) cmd b :
  80 ≤ b →
  total (match r with
         | Ok outcome => hret (PStored (clamp_u32 (Engine.po_evicted outcome)))
         | Err error => hbind (count m Metrics.errors_total) (λ _, hret (native_put_error error))
         end) (carried cmd b).
Proof.
  intros Hb. destruct r as [o|err].
  - apply total_ret, carried_small; [|unfold response_len; simpl; sizes|lia]. simpl. unfold clamp_u32. lia.
  - by apply total_count_ret, carried_put_error.
Qed.

Lemma total_execute p :
  (∀ ns keys, p = RBatchGet ns keys → len keys ≤ U32_MAX) →
  total (execute_native_payload_with_metrics clk m p)
    (carried (request_command p) (response_bound p)).
Proof.
  destruct p as [ns key|ns key md value|ns key|ns keys|ns tag|ns key ttl allow
                |ns key token md value]; cbn [response_bound request_command]; intros Hk;
    cbn [execute_native_payload_with_metrics].
  - by apply total_execute_get.
  - eapply total_bind; [by apply total_count|]. intros _ _.
    eapply total_bind; [by apply (total_call_any _ (OpPut (native_put_command ns key md value))
      RpPut); [intros ?? [=]|]|].
    intros r _. apply total_stored. lia.
  - eapply total_bind; [by apply total_count|]. intros _ _.
    eapply total_bind; [by apply (total_call_any _ (OpDelete ns key) RpDeleted);
      [intros ?? [=]|]|].
    intros r _. apply total_ret. by apply carried_small; [..|lia].
  - specialize (Hk ns keys eq_refl). eapply total_bind; [by apply total_count|]. intros _ _.
    eapply (total_bind _ _ (λ os, length os = length keys ∧ Forall (outcome_fits maxv) os)).
    { apply (total_call _ clk (OpBatchGet ns keys) RpBatch); [by intros ?? [=]|done|].
      intros s os s' Hs Hlim Heq. simpl in Heq. apply fmap_Some in Heq as ([os' s1] & Heq & Hr).
      injection Hr as -> ->. by eapply batch_get_fits. }
    intros os [Hlen Hos]. eapply total_bind; [by apply total_batch_items|].
    intros items (H1 & H3). apply total_ret.
    assert (len items = len keys) as Hl by (unfold len; by rewrite H1, Hlen).
    apply carried_items; [by rewrite Hl | done | by rewrite Hl].
  - eapply total_bind; [by apply total_count|]. intros _ _.
    eapply total_bind; [by apply (total_call_any _ (OpInvalidateTag ns tag) RpRemoved);
      [intros ?? [=]|]|].
    intros r _. apply total_ret. apply carried_small; [|unfold response_len; simpl; sizes|lia].
    simpl. unfold clamp_u32. lia.
  - by apply total_lease_start.
  - eapply total_bind; [by apply (total_call_any _
      (OpCompleteLease (native_complete_command ns key token md value)) RpComplete);
      [intros ?? [=]|]|].
    intros r _. destruct r as [o|[|err]].
    + apply (total_stored (Ok o)). lia.
    + by apply total_count_ret, carried_error; [..|lia].
    + apply (total_stored (Err err)). lia.
Qed.
End handlers.

(** Whatever the server holds, the response to the request fits a frame. *)
Definition response_fits (p : RequestPayload) : Prop :=
  ∀ clk m st r st', (m < Metrics.METRIC_SHARD_COUNT)%nat → st_ok st →
    execute_native_payload_with_metrics clk m p st = Some (r, st') → response_len r ≤ U32_MAX.

(** So it is when the limit on values leaves room for it. *)
Lemma bound_fits p : response_bound p ≤ U32_MAX → response_fits p.
Proof.
  intros Hb clk m st r st' Hm Hst Hex. destruct (total_execute clk m Hm p) with (st := st)
    as (r' & st1 & Hex' & _ & _ & Hl); [|done|].
  - intros ns keys ->. cbn [response_bound] in Hb. lia.
  - rewrite Hex in Hex'. injection Hex' as <- <-. lia.
Qed.
End total.
End ServerFacts.
