(* ===== verification/ServerSpec.v ===== *)
(** * ServerSpec: what the server promises a client

    The two execution paths of a frame agree, and a well-formed request is
    executed without a panic and answered with its id, its command and the
    result, exactly when the response fits a frame. *)

From S2P Require Import Prelude Bytes Protocol ProtocolFacts ProtocolSpec Engine EngineOps Sharded.
From S2P Require Import ShardedInv ShardedSpec Consistent Server ServerFacts.

Module ServerSpec.
Import Protocol Codec ProtocolFacts ProtocolSpec Server ServerFacts.
Import Metrics(MetricsShard, Counter, shard_for_request, m_shards).
Import Sharded(ShardEnv, ShardedEngine).
Import ShardedInv ShardedSpec Consistent.

(** ** The two paths of a frame *)

Section paths.
Context `{Engine.HashOrder, ShardEnv} (clk : Engine.Clock).

Lemma view_path m v :
  execute_native_payload_view clk m v
  = execute_native_payload_with_metrics clk m (view_owned v).
Proof. by destruct v. Qed.

Lemma view_request_path m f :
  execute_native_request_view clk m f = execute_native_request clk m (frame_owned f).
Proof. unfold execute_native_request_view, execute_native_request. by rewrite view_path. Qed.

(** The response of a request, encoded. *)
Definition answer (m : nat) (request : RequestFrame) (out : bytes) : Handler bytes :=
  hbind (execute_native_request clk m request) (λ response,
    encoded (encode_response_frame_into response out)).

(** The borrowed response encodes as the owned one. *)
Definition outcome_view (o : Engine.GetOutcome) : ResponsePayloadView :=
  match o with
  | Engine.GHit v => WHit v | Engine.GStale v => WStale v | Engine.GMiss => WMiss
  end.

Definition outcome_payload (o : Engine.GetOutcome) : ResponsePayload :=
  match o with
  | Engine.GHit v => PHit v | Engine.GStale v => PStale v | Engine.GMiss => PMiss
  end.

Lemma view_encoding id cmd o out :
  encode_response_payload_view_frame_into id cmd (outcome_view o) out =
  encode_response_frame_into
    {| rs_request_id := id; rs_command := cmd; rs_payload := outcome_payload o |} out.
Proof.
  unfold encode_response_payload_view_frame_into, encode_response_frame_into, encode_frame_into.
  cbn [rs_request_id rs_command rs_payload]. destruct o; reflexivity.
Qed.

Lemma get_path m id cmd ns key out st :
  encode_native_get_response_frame clk m id cmd ns key out st =
  answer m {| rq_request_id := id; rq_command := cmd; rq_payload := RGet ns key |} out st.
Proof.
  unfold answer, execute_native_request, encode_native_get_response_frame.
  cbn [rq_request_id rq_command rq_payload execute_native_payload_with_metrics].
  unfold execute_native_get, hbind, hret.
  destruct (count m Metrics.get_requests st) as [[[] st1]|]; [|reflexivity].
  change (Sharded.get_ref clk ns key) with (Sharded.get clk ns key).
  destruct (call (Sharded.get clk ns key) st1) as [[o st2]|]; [|reflexivity].
  pose proof (view_encoding id cmd o out) as Hv.
  destruct o; cbn [outcome_view outcome_payload] in Hv; rewrite Hv;
    destruct (count m _ st2) as [[[] st3]|]; reflexivity.
Qed.

Lemma execute_paths frame maxlen conn out st :
  execute_native_frame_bytes_into clk frame maxlen conn out st =
  match decode_request_frame frame maxlen with
  | Ok request => answer (shard_for_request conn (rq_request_id request) (metrics st)) request out st
  | Err error => respond_decode_error frame error out st
  end.
Proof.
  unfold execute_native_frame_bytes_into. pose proof (borrowed_decode frame maxlen) as Hb.
  destruct (decode_borrowed_request_frame frame maxlen) as [[v|]|e].
  - destruct Hb as [-> _]. cbn [frame_owned rq_request_id].
    destruct v as [id cmd [ns key|ns key|ns tag|ns key ttl allow]]; cbn [rv_payload];
      [apply get_path | unfold answer; by rewrite view_request_path ..].
  - by destruct (decode_request_frame frame maxlen).
  - by rewrite Hb.
Qed.
End paths.

(** C22: the borrowed fast path is the reference path.  Executing the bytes of
    a frame, with its zero-copy decoding and the direct encoding of [get]
    responses, is decoding the owned request, executing it and encoding the
    response; a frame that does not decode gets the decode-error response. *)
Theorem server_fast_path `{Engine.HashOrder, ShardEnv} clk frame maxlen conn out st :
  execute_native_frame_bytes_into clk frame maxlen conn out st =
  match decode_request_frame frame maxlen with
  | Ok request =>
    (hbind (execute_native_request clk
              (shard_for_request conn (rq_request_id request) (metrics st)) request)
       (λ response, encoded (encode_response_frame_into response out))) st
  | Err error => respond_decode_error frame error out st
  end.
Proof. apply execute_paths. Qed.

(** ** A request and its answer *)

Lemma metrics_shard_lt conn id st lim :
  ∀ `{ShardEnv}, st_ok lim st →
  (shard_for_request conn id (metrics st) < Metrics.METRIC_SHARD_COUNT)%nat.
Proof.
  intros Henv Hst. unfold shard_for_request, len. rewrite (sto_metrics _ _ Hst).
  change (N.of_nat Metrics.METRIC_SHARD_COUNT) with 64.
  pose proof (N.mod_upper_bound (N.lxor conn (Metrics.rotate_left id 17)) 64).
  unfold Metrics.METRIC_SHARD_COUNT. lia.
Qed.

(** A frame that decodes is executed; its response is framed if it fits. *)
Lemma execute_decoded `{Engine.HashOrder, ShardEnv} lim clk st frame f maxlen conn out :
  st_ok lim st → decode_request_frame frame maxlen = Ok f →
  let m := shard_for_request conn (rq_request_id f) (metrics st) in
  ∃ r st', let resp := {| rs_request_id := rq_request_id f; rs_command := rq_command f;
                          rs_payload := r |} in
    execute_native_payload_with_metrics clk m (rq_payload f) st = Some (r, st') ∧ st_ok lim st' ∧
    response_len r ≤ response_bound lim (rq_payload f) ∧
    (response_len r ≤ U32_MAX → response_frame_ok resp) ∧
    execute_native_frame_bytes_into clk frame maxlen conn out st =
      if response_len r <=? U32_MAX then Some (response_bytes resp, st') else None.
Proof.
  intros Hst Hd m. pose proof (decode_valid _ _ _ Hd) as ((Hl & _) & Hok & Hcmd & _ & Hid & _).
  assert (∀ ns keys, rq_payload f = RBatchGet ns keys → len keys ≤ U32_MAX) as Hkeys.
  { intros ns keys Hp. rewrite Hp in Hok. by destruct Hok as (_ & _ & _ & ?). }
  destruct (total_execute lim clk m ltac:(by eapply metrics_shard_lt) (rq_payload f) Hkeys st Hst)
    as (r & st' & Heq & Hst' & Hrok & Hlen).
  exists r, st'. intros resp. assert (response_len r ≤ U32_MAX → response_frame_ok resp) as Hresp.
  { intros Hfit. split_and!; [|rewrite <- Hcmd in Hrok; by apply Hrok|done]. simpl. rewrite Hid.
    pose proof (from_be_bytes_lt (slice frame 8 16)) as Hlt.
    rewrite len_slice in Hlt by (unfold HEADER_LEN in Hl; lia).
    change (256 ^ (16 - 8)) with (U64_MAX + 1) in Hlt. lia. }
  split_and!; [done..|]. rewrite execute_paths, Hd.
  unfold answer, execute_native_request, hbind, hret. fold m. rewrite Heq. fold resp.
  destruct (N.leb_spec (response_len r) U32_MAX) as [Hfit|Hbig].
  - by rewrite (encode_response_bytes resp out (Hresp Hfit)).
  - unfold encode_response_frame_into. by rewrite encode_frame_overflow by (apply response_appends || done).
Qed.

(** A frame whose response fits is answered by the bytes of a well-formed
    response. *)
Lemma answer_decoded `{Engine.HashOrder, ShardEnv} lim clk st frame f maxlen conn out :
  st_ok lim st → decode_request_frame frame maxlen = Ok f → response_fits lim (rq_payload f) →
  let m := shard_for_request conn (rq_request_id f) (metrics st) in
  ∃ r st', let resp := {| rs_request_id := rq_request_id f; rs_command := rq_command f;
                          rs_payload := r |} in
    execute_native_frame_bytes_into clk frame maxlen conn out st
      = Some (response_bytes resp, st') ∧
    execute_native_payload_with_metrics clk m (rq_payload f) st = Some (r, st') ∧
    st_ok lim st' ∧ response_frame_ok resp.
Proof.
  intros Hst Hd Hfits m.
  destruct (execute_decoded lim clk st frame f maxlen conn out Hst Hd)
    as (r & st' & Hex & Hst' & _ & Hresp & Heq).
  pose proof (Hfits clk m st r st' ltac:(by eapply metrics_shard_lt) Hst Hex) as Hfit.
  exists r, st'. rewrite (proj2 (N.leb_le _ _) Hfit) in Heq. split_and!; auto.
Qed.

(** C8: end to end.  A well-formed request within the payload limit, sent as
    its bytes to a server in a consistent state, is executed without a panic and
    leaves the server consistent.  If the payload of its response is at most
    [u32::MAX] bytes, the bytes the server writes decode at the client to the
    request's id, its command, and what executing its payload returned;
    otherwise the assertion of the encoder panics and nothing is written.  The
    payload is within the limit for every request, whatever is stored, when
    the maximum value size is at most [u32::MAX - 128] and, for a batch, the
    number of keys times (that size + 5) is at most [u32::MAX - 5]. *)
Theorem server_answers `{Engine.HashOrder, ShardEnv} lim clk st f maxlen conn out :
  st_ok lim st → request_frame_ok f →
  len (encode_request_payload (rq_payload f) []) ≤ maxlen →
  let m := shard_for_request conn (rq_request_id f) (metrics st) in
  ∃ r st', execute_native_payload_with_metrics clk m (rq_payload f) st = Some (r, st') ∧
    st_ok lim st' ∧
    (response_bound lim (rq_payload f) ≤ U32_MAX → response_len r ≤ U32_MAX) ∧
    match execute_native_frame_bytes_into clk (request_bytes f) maxlen conn out st with
    | Some (bs, st'') => response_len r ≤ U32_MAX ∧ st'' = st' ∧
        decode_response_frame bs U32_MAX =
          Ok {| rs_request_id := rq_request_id f; rs_command := rq_command f; rs_payload := r |}
    | None => U32_MAX < response_len r
    end.
Proof.
  intros Hst Hf Hl m. destruct (execute_decoded lim clk st (request_bytes f) f maxlen conn out Hst)
    as (r & st' & Hex & Hst' & Hb & Hresp & Heq); [by apply decode_whole_request|].
  exists r, st'. split_and!; [done|done|lia|]. rewrite Heq.
  destruct (N.leb_spec (response_len r) U32_MAX) as [Hfit|Hbig]; [|done]. split_and!; [done|done|].
  rewrite <- (app_nil_r (response_bytes _)). apply decode_response_bytes; [by apply Hresp|done].
Qed.

Definition sample_state : AppState := {| engine := demo_sharded; metrics := Metrics.Metrics_default |}.

Lemma sample_state_ok : @st_ok demo_env demo_sharded_limits sample_state.
Proof.
  split; [apply inv_consistent, demo_sharded_inv | vm_compute; reflexivity | reflexivity].
Qed.

Definition sample_get : RequestFrame :=
  {| rq_request_id := 9; rq_command := Get; rq_payload := RGet "default" (as_bytes "a") |}.

Lemma sample_get_ok : request_frame_ok sample_get.
Proof. concrete_ok. Qed.

(** Two keys at once, one stored and one not. *)
Definition sample_batch : RequestFrame :=
  {| rq_request_id := 9; rq_command := BatchGet;
     rq_payload := RBatchGet "default" [as_bytes "a"; as_bytes "z"] |}.

Lemma server_answers_witness :
  ∃ bs st', @execute_native_frame_bytes_into Engine.canonical_order demo_env
      (Engine.manual_clock 20) (request_bytes sample_batch) 1024 1 [] sample_state = Some (bs, st') ∧
    decode_response_frame bs U32_MAX =
      Ok {| rs_request_id := 9; rs_command := BatchGet;
            rs_payload := PBatchGet [BHit (as_bytes "v"); BMiss] |}.
Proof.
  destruct (@server_answers Engine.canonical_order demo_env demo_sharded_limits
    (Engine.manual_clock 20) sample_state sample_batch 1024 1 []) as (r & st' & H1 & _ & H3 & H4);
    [apply sample_state_ok | concrete_ok | vm_compute; discriminate |].
  assert (response_bound demo_sharded_limits (rq_payload sample_batch) ≤ U32_MAX) as Hb
    by (vm_compute; discriminate).
  specialize (H3 Hb).
  assert (fst <$> @execute_native_payload_with_metrics Engine.canonical_order demo_env
      (Engine.manual_clock 20) (shard_for_request 1 9 (metrics sample_state))
      (rq_payload sample_batch) sample_state = Some (PBatchGet [BHit (as_bytes "v"); BMiss])) as Hr
    by (vm_compute; reflexivity).
  change (shard_for_request 1 9 (metrics sample_state)) with
    (shard_for_request 1 (rq_request_id sample_batch) (metrics sample_state)) in Hr.
  rewrite H1 in Hr. injection Hr as ->.
  destruct (@execute_native_frame_bytes_into Engine.canonical_order demo_env
    (Engine.manual_clock 20) (request_bytes sample_batch) 1024 1 [] sample_state) as [[bs st'']|].
  - exists bs, st''. split; [reflexivity|]. exact (proj2 (proj2 H4)).
  - exfalso. apply (N.lt_irrefl U32_MAX). exact (N.lt_le_trans _ _ _ H4 H3).
Defined.
End ServerSpec.
