(* ===== verification/MetricsSpec.v ===== *)
(** * MetricsSpec: the counters count

    What [/metrics] reports of the native requests: the counters a request
    moves are a function of the request and its response, and the snapshot over
    the shards of the counters is the number of requests and outcomes, however
    the requests were spread over the shards. *)

From S2P Require Import Prelude Bytes Protocol Engine Sharded Server ServerFacts ServerSpec.
From S2P Require Import ShardedSpec.

Module MetricsSpec.
Import Protocol Codec Metrics Server ServerFacts.
Import Sharded(ShardEnv).
Import ShardedSpec.

(** ** What a request counts *)

Definition request_counters (p : RequestPayload) : list Counter :=
  match p with
  | RGet _ _ => [get_requests]
  | RPut _ _ _ _ => [put_requests]
  | RDelete _ _ => [delete_requests]
  | RBatchGet _ _ => [batch_get_requests]
  | RTagInvalidate _ _ => [tag_invalidate_requests]
  | RLeaseStart _ _ _ _ | RLeaseComplete _ _ _ _ _ => []
  end.

Definition item_counter (i : BatchItem) : Counter :=
  match i with BHit _ => hits_total | BStale _ => stale_total | BMiss => misses_total end.

Definition response_counters (r : ResponsePayload) : list Counter :=
  match r with
  | PHit _ => [hits_total]
  | PStale _ => [stale_total]
  | PMiss => [misses_total]
  | PBatchGet items => item_counter <$> items
  | PLeaseGranted _ _ => [lease_grants]
  | PLeaseDenied => [lease_denials]
  | PError _ _ => [errors_total]
  | _ => []
  end.

Definition counters (p : RequestPayload) (r : ResponsePayload) : list Counter :=
  request_counters p ++ response_counters r.

(** ** Counting on one shard *)

Definition bump (m : nat) (ms : Metrics) (c : Counter) : Metrics :=
  {| m_shards := alter (fetch_add c) m (m_shards ms) |}.

Definition bumps (m : nat) (cs : list Counter) (ms : Metrics) : Metrics := foldl (bump m) ms cs.

Lemma insert_alter {A} (f : A → A) i x (l : list A) :
  l !! i = Some x → <[i := f x]> l = alter f i l.
Proof. revert i. induction l as [|y l IH]; intros [|i] Hi; simplify_eq/=; [done|by rewrite IH]. Qed.

Section tallies.
Context `{Engine.HashOrder, ShardEnv} (clk : Engine.Clock) (m : nat).

(** A result [a] of [h] comes with counts [cs] that satisfy [Q a cs]. *)
Definition tallies {A} (h : Handler A) (Q : A → list Counter → Prop) : Prop :=
  ∀ st a st', h st = Some (a, st') → ∃ cs, metrics st' = bumps m cs (metrics st) ∧ Q a cs.

Lemma tallies_ret {A} (a : A) (Q : A → list Counter → Prop) : Q a [] → tallies (hret a) Q.
Proof. intros HQ st x st' [= <- <-]. by exists []. Qed.

Lemma tallies_bind {A B} (h : Handler A) (k : A → Handler B) Q1 Q :
  tallies h Q1 → (∀ a cs, Q1 a cs → tallies (k a) (λ b cs', Q b (cs ++ cs'))) →
  tallies (hbind h k) Q.
Proof.
  intros Hh Hk st b st'. unfold hbind. destruct (h st) as [[a st1]|] eqn:Eh; [|done].
  intros Hb. destruct (Hh st a st1 Eh) as (cs & E1 & H1).
  destruct (Hk a cs H1 st1 b st' Hb) as (cs' & E2 & H2). exists (cs ++ cs'). split; [|done].
  unfold bumps in *. by rewrite E2, E1, foldl_app.
Qed.

Lemma tallies_count {B} c (k : Handler B) Q :
  tallies k (λ b cs, Q b (c :: cs)) → tallies (hbind (count m c) (λ _, k)) Q.
Proof.
  intros Hk. apply (tallies_bind _ _ (λ _ cs, cs = [c])); [|by intros _ cs ->].
  intros st [] st'. unfold count. destruct (m_shards (metrics st) !! m) as [sh|] eqn:E; [|done].
  intros [= <-]. exists [c]. split; [|done]. unfold bumps, bump. simpl.
  by rewrite (insert_alter _ _ _ _ E).
Qed.

Lemma tallies_call {A B} f (k : A → Handler B) Q :
  (∀ a, tallies (k a) Q) → tallies (hbind (call f) k) Q.
Proof.
  intros Hk. apply (tallies_bind _ _ (λ _ cs, cs = [])); [|by intros a cs ->].
  intros st a st'. unfold call. destruct (f (engine st)) as [[x s]|]; [|done].
  intros [= <- <-]. by exists [].
Qed.

Lemma tallies_items os Q :
  (∀ items, Q items (item_counter <$> items)) → tallies (batch_items m os) Q.
Proof.
  revert Q. induction os as [|o os IH]; intros Q HQ; [apply tallies_ret, (HQ [])|].
  destruct o; cbn [batch_items]; apply tallies_count;
    (eapply tallies_bind; [apply (IH (λ items cs, cs = item_counter <$> items)); done|]);
    intros items cs ->; apply tallies_ret; rewrite app_nil_r;
    [apply (HQ (BHit _ :: items)) | apply (HQ (BStale _ :: items)) | apply (HQ (BMiss :: items))].
Qed.

(** A write's result: stored, or an error. *)
Lemma tallies_stored (r : result Engine.PutOutcome Engine.PutError) cs :
  tallies (match r with
           | Ok outcome => hret (PStored (clamp_u32 (Engine.po_evicted outcome)))
           | Err error => hbind (count m errors_total) (λ _, hret (native_put_error error))
           end) (λ resp cs', cs ++ cs' = cs ++ response_counters resp).
Proof.
  destruct r as [o|err]; [by apply tallies_ret|]. apply tallies_count, tallies_ret.
  by destruct err.
Qed.

Lemma tallies_execute p :
  tallies (execute_native_payload_with_metrics clk m p) (λ r cs, cs = counters p r).
Proof.
  destruct p as [ns key|ns key md value|ns key|ns keys|ns tag|ns key ttl allow
                |ns key token md value]; cbn [execute_native_payload_with_metrics].
  - apply tallies_count, tallies_call. intros []; by apply tallies_count, tallies_ret.
  - apply tallies_count, tallies_call. intros r. apply (tallies_stored r [put_requests]).
  - apply tallies_count, tallies_call. intros r. by apply tallies_ret.
  - apply tallies_count, tallies_call. intros os.
    eapply tallies_bind; [by apply (tallies_items os (λ items cs, cs = item_counter <$> items))|].
    intros items cs ->. apply tallies_ret. by rewrite app_nil_r.
  - apply tallies_count, tallies_call. intros r. by apply tallies_ret.
  - apply tallies_call. intros []; by apply tallies_count, tallies_ret.
  - apply tallies_call. intros [o|[|err]]; [by apply tallies_ret|by apply tallies_count, tallies_ret|].
    apply (tallies_stored (Err err) []).
Qed.
End tallies.

(** ** Sums over the shards *)

(** The true count, before the saturation of the snapshot. *)
Definition metric_sum (ms : Metrics) (c : Counter) : N :=
  foldr (λ sh acc, sh c + acc) 0 (m_shards ms).

Definition occurrences (c : Counter) (cs : list Counter) : N := len (filter (c =.) cs).

Lemma snapshot_sum ms c : metric_sum ms c ≤ U64_MAX → snapshot ms c = metric_sum ms c.
Proof.
  unfold metric_sum, snapshot.
  assert (∀ l (acc : MetricsSnapshot), acc c + foldr (λ sh acc, sh c + acc) 0 l ≤ U64_MAX →
    foldl saturating_add acc (snapshot_shard <$> l) c =
      acc c + foldr (λ (sh : MetricsShard) acc, sh c + acc) 0 l) as Hgen.
  { induction l as [|sh l IH]; intros acc Hacc; simpl in *; [lia|].
    rewrite IH; unfold saturating_add, snapshot_shard; cbn beta; rewrite sat_add_exact by lia; lia. }
  intros Hs. by rewrite Hgen.
Qed.

Lemma occurrences_one c c1 : occurrences c [c1] = if decide (c = c1) then 1 else 0.
Proof. unfold occurrences. rewrite filter_cons, filter_nil. by destruct (decide (c = c1)). Qed.

Lemma bump_sum m c ms c' :
  (m < length (m_shards ms))%nat → metric_sum ms c' + occurrences c' [c] ≤ U64_MAX →
  metric_sum (bump m ms c) c' = metric_sum ms c' + occurrences c' [c] ∧
  length (m_shards (bump m ms c)) = length (m_shards ms).
Proof.
  intros Hm Hs. split; [|apply length_alter]. unfold metric_sum, bump in *.
  rewrite occurrences_one in *. simpl m_shards. revert m Hm Hs.
  induction (m_shards ms) as [|sh l IH]; intros m Hm Hs; [simpl in Hm; lia|].
  simpl in Hm, Hs. destruct m as [|m].
  - simpl. unfold fetch_add. destruct (decide (c' = c)); [|lia].
    unfold wrap_add. rewrite N.mod_small; lia.
  - change (alter (fetch_add c) (S m) (sh :: l)) with (sh :: alter (fetch_add c) m l).
    simpl. rewrite IH by lia. lia.
Qed.

Lemma bumps_sum m cs ms c :
  (m < length (m_shards ms))%nat → metric_sum ms c + occurrences c cs ≤ U64_MAX →
  metric_sum (bumps m cs ms) c = metric_sum ms c + occurrences c cs ∧
  length (m_shards (bumps m cs ms)) = length (m_shards ms).
Proof.
  revert ms. induction cs as [|c1 cs IH]; intros ms Hm Hs; simpl.
  - change (occurrences c []) with 0. split; [lia|done].
  - assert (occurrences c (c1 :: cs) = occurrences c [c1] + occurrences c cs) as Ho.
    { unfold occurrences. change (c1 :: cs) with ([c1] ++ cs). by rewrite list.filter_app, len_app. }
    destruct (bump_sum m c1 ms c Hm ltac:(lia)) as [E1 E2].
    destruct (IH (bump m ms c1) ltac:(lia) ltac:(lia)) as [E3 E4]. split; [lia|congruence].
Qed.

(** ** A sequence of requests *)

Section requests.
Context `{Engine.HashOrder, ShardEnv}.

(** Requests of any connections, executed one after the other; each counts on
    the shard of its connection and id. *)
Fixpoint execute_all (reqs : list (Engine.Clock * N * RequestFrame)) :
    Handler (list (RequestPayload * ResponsePayload)) := λ st,
  match reqs with
  | [] => hret [] st
  | (clk, conn, f) :: reqs =>
    (r <~ execute_native_payload_with_metrics clk
            (shard_for_request conn (rq_request_id f) (metrics st)) (rq_payload f);;
     rs <~ execute_all reqs;;
     hret ((rq_payload f, r) :: rs)) st
  end.

Definition all_counters (log : list (RequestPayload * ResponsePayload)) : list Counter :=
  concat ((λ q, counters q.1 q.2) <$> log).

Lemma execute_all_sum reqs st log st' c :
  length (m_shards (metrics st)) = METRIC_SHARD_COUNT →
  execute_all reqs st = Some (log, st') →
  metric_sum (metrics st) c + occurrences c (all_counters log) ≤ U64_MAX →
  metric_sum (metrics st') c = metric_sum (metrics st) c + occurrences c (all_counters log).
Proof.
  revert st log. induction reqs as [|[[clk conn] f] reqs IH]; intros st log Hlen Hex Hs;
    cbn [execute_all] in Hex.
  - injection Hex as <- <-. change (occurrences c (all_counters [])) with 0. lia.
  - unfold hbind in Hex.
    set (m := shard_for_request conn (rq_request_id f) (metrics st)) in *.
    destruct (execute_native_payload_with_metrics clk m (rq_payload f) st) as [[r st1]|] eqn:E1; [|done].
    destruct (execute_all reqs st1) as [[rs st2]|] eqn:E2; [|done]. injection Hex as <- <-.
    assert (occurrences c (all_counters ((rq_payload f, r) :: rs)) =
      occurrences c (counters (rq_payload f) r) + occurrences c (all_counters rs)) as Ho.
    { unfold occurrences, all_counters. rewrite fmap_cons. simpl. by rewrite list.filter_app, len_app. }
    destruct (tallies_execute clk m (rq_payload f) st r st1 E1) as (cs & Hm & ->).
    assert (m < length (m_shards (metrics st)))%nat as Hlt.
    { subst m. unfold shard_for_request, len. rewrite Hlen.
      change (N.of_nat METRIC_SHARD_COUNT) with 64.
      pose proof (N.mod_upper_bound (N.lxor conn (rotate_left (rq_request_id f) 17)) 64).
      unfold METRIC_SHARD_COUNT. lia. }
    destruct (bumps_sum m (counters (rq_payload f) r) (metrics st) c Hlt ltac:(lia)) as [B1 B2].
    rewrite <- Hm in B1, B2. rewrite (IH st1 rs); [lia|congruence|done|lia].
Qed.
End requests.

(** C23: metrics count.  After any sequence of requests of any connections on a
    fresh server, each counter of the snapshot is the number of requests of its
    kind plus the number of responses with its outcome, batch items counted one
    by one, as long as that number fits a [u64]; it does not depend on how the
    requests were spread over the shards of the counters. *)
Theorem metrics_exact `{Engine.HashOrder, ShardEnv} reqs st log st' c :
  metrics st = Metrics_default → execute_all reqs st = Some (log, st') →
  occurrences c (all_counters log) ≤ U64_MAX →
  snapshot (metrics st') c = occurrences c (all_counters log).
Proof.
  intros Hst Hex Hs. assert (metric_sum (metrics st) c = 0) as Hzero.
  { rewrite Hst. reflexivity. }
  pose proof (execute_all_sum reqs st log st' c) as Hsum. rewrite Hzero in Hsum.
  rewrite snapshot_sum; rewrite Hsum by (first [done | by rewrite Hst | lia]); lia.
Qed.

(** A hit and a miss, of two connections. *)
Definition two_gets : list (Engine.Clock * N * RequestFrame) :=
  [(Engine.manual_clock 20, 1, {| rq_request_id := 1; rq_command := Get;
      rq_payload := RGet "default" (as_bytes "a") |});
   (Engine.manual_clock 21, 2, {| rq_request_id := 7; rq_command := Get;
      rq_payload := RGet "default" (as_bytes "zzz") |})].

Lemma metrics_exact_witness :
  ∃ log st', @execute_all Engine.canonical_order ShardedSpec.demo_env two_gets
      ServerSpec.ServerSpec.sample_state = Some (log, st') ∧
    snapshot (metrics st') get_requests = 2 ∧ snapshot (metrics st') misses_total = 1.
Proof.
  assert (fst <$> @execute_all Engine.canonical_order ShardedSpec.demo_env two_gets
    ServerSpec.ServerSpec.sample_state = Some
    [(RGet "default" (as_bytes "a"), PHit (as_bytes "v")); (RGet "default" (as_bytes "zzz"), PMiss)])
    as Hlog by (vm_compute; reflexivity).
  destruct (@execute_all Engine.canonical_order ShardedSpec.demo_env two_gets
    ServerSpec.ServerSpec.sample_state) as [[log st']|] eqn:E; [|discriminate].
  simpl in Hlog. injection Hlog as ->. eexists _, st'. split; [reflexivity|].
  split; (rewrite (@metrics_exact Engine.canonical_order ShardedSpec.demo_env two_gets
    ServerSpec.ServerSpec.sample_state _ st' _ eq_refl E);
    [vm_compute; reflexivity | vm_compute; discriminate]).
Defined.
End MetricsSpec.
