(* ===== verification/Connection.v ===== *)
(** * Connection: a native connection and its tasks

    [src/server.rs]: [handle_native_connection], its reading loop, the tasks it
    spawns under the semaphore, the bounded channel and the writer task, as a
    state machine.  A step is one action of one task; the scheduler picks any
    step that is enabled. *)

From S2P Require Import Prelude Bytes Protocol Engine Sharded Server.

Module Connection.
Import Protocol Codec Server.
Import Sharded(ShardEnv).

(** While every reading turn finds one frame the loop executes it and writes
    its response in line ([c_pipelined] is false).  From the first turn that
    finds several, frames are copied out ([c_backlog]) and handed to tasks one
    by one, each holding a permit of the semaphore while it executes its frame
    ([c_running]) and while it waits to send its response ([c_sending]).
    [c_channel] is the content of the channel, [c_output] the writes made,
    [c_writer] whether the writing side still works, and [c_closed] whether the
    reading loop has ended. *)
Record Conn := {
  c_buffer : bytes;
  c_pipelined : bool;
  c_backlog : list bytes;
  c_running : list bytes;
  c_sending : list bytes;
  c_channel : list bytes;
  c_output : list bytes;
  c_writer : bool;
  c_closed : bool
}.

Definition Conn_new : Conn :=
  {| c_buffer := []; c_pipelined := false; c_backlog := []; c_running := []; c_sending := [];
     c_channel := []; c_output := []; c_writer := true; c_closed := false |}.

(** What the reading loop changes. *)
Definition set_reader (buffer : bytes) (pipelined : bool) (backlog : list bytes) (closed : bool)
    (c : Conn) : Conn :=
  {| c_buffer := buffer; c_pipelined := pipelined; c_backlog := backlog;
     c_running := c_running c; c_sending := c_sending c; c_channel := c_channel c;
     c_output := c_output c; c_writer := c_writer c; c_closed := closed |}.

(** What the spawning, executing and sending of frames change. *)
Definition set_tasks (backlog running sending channel : list bytes) (c : Conn) : Conn :=
  {| c_buffer := c_buffer c; c_pipelined := c_pipelined c; c_backlog := backlog;
     c_running := running; c_sending := sending; c_channel := channel;
     c_output := c_output c; c_writer := c_writer c; c_closed := c_closed c |}.

(** What a write changes. *)
Definition set_writer (channel output : list bytes) (writer : bool) (c : Conn) : Conn :=
  {| c_buffer := c_buffer c; c_pipelined := c_pipelined c; c_backlog := c_backlog c;
     c_running := c_running c; c_sending := c_sending c; c_channel := channel;
     c_output := output; c_writer := writer; c_closed := c_closed c |}.

Definition frames_of (buffer : bytes) (ranges : list (N * N)) : list bytes :=
  (λ r : N * N, slice buffer r.1 r.2) <$> ranges.

Section connection.
Context `{Engine.HashOrder, ShardEnv} (max_payload_len connection_id : N).

(** The in-line loop: execute each frame and write its response. *)
Fixpoint serve_inline (clk : Engine.Clock) (frames : list bytes) (output : list bytes) :
    Handler (list bytes) :=
  match frames with
  | [] => hret output
  | frame :: frames =>
    response <~ execute_native_frame_bytes_into clk frame max_payload_len connection_id [];;
    serve_inline clk frames (output ++ [response])
  end.

(** What the loop does with the buffer it holds: handle its complete frames,
    or close, or wait for more. *)
Definition on_frames (clk : Engine.Clock) (c : Conn) : Handler Conn :=
  match find_complete_native_frames (c_buffer c) max_payload_len with
  | NeedMore => hret c
  | Close => hret (set_reader (c_buffer c) (c_pipelined c) (c_backlog c) true c)
  | Frames ranges =>
    let pipelined := c_pipelined c || (1 <? len ranges) in
    let frames := frames_of (c_buffer c) ranges in
    let buffer := drain_frame_ranges (c_buffer c) ranges in
    if pipelined
    then hret (set_reader buffer true frames (c_closed c) c)
    else output <~ serve_inline clk frames (c_output c);;
         hret (set_writer (c_channel c) output (c_writer c)
                 (set_reader buffer false (c_backlog c) (c_closed c) c))
  end.

(** The loop waits for bytes: it has spawned what it read before. *)
Definition reading (c : Conn) : Prop := c_closed c = false ∧ c_backlog c = [].

Definition received (chunk : bytes) (c : Conn) : Conn :=
  set_reader (c_buffer c ++ chunk) (c_pipelined c) [] false c.

(** One step of the connection and its tasks, with the bytes it receives.

    A reading turn takes what [read_buf] returns; [conn_eof] is the end of the
    stream or an error of the read; a failed write, which may have sent a part
    of its bytes, ends the in-line loop, or the writer task, after which the
    channel is gone and a task's [send] fails at once. *)
Inductive ConnAct : bytes → Conn → AppState → Conn → AppState → Prop :=
| conn_read clk chunk c st c' st' :
    reading c → on_frames clk (received chunk c) st = Some (c', st') →
    ConnAct chunk c st c' st'
| conn_eof c st :
    reading c →
    ConnAct [] c st (set_reader (c_buffer c) (c_pipelined c) (c_backlog c) true c) st
| conn_inline_fail clk chunk c st c' st' response part :
    reading c → on_frames clk (received chunk c) st = Some (c', st') →
    c_pipelined c' = false → c_output c' = c_output c ++ [response] →
    part `prefix_of` response →
    ConnAct chunk c st
      (set_writer (c_channel c) (c_output c ++ [part]) false
        (set_reader (c_buffer c') false (c_backlog c') true c)) st'
| conn_spawn c st frame rest :
    c_backlog c = frame :: rest →
    (length (c_running c) + length (c_sending c) < MAX_IN_FLIGHT_PER_CONNECTION)%nat →
    ConnAct [] c st
      (set_tasks rest (c_running c ++ [frame]) (c_sending c) (c_channel c) c) st
| conn_execute clk c st before frame after response st' :
    c_running c = before ++ frame :: after →
    execute_native_frame_bytes_into clk frame max_payload_len connection_id [] st
      = Some (response, st') →
    ConnAct [] c st
      (set_tasks (c_backlog c) (before ++ after) (c_sending c ++ [response]) (c_channel c) c) st'
| conn_send c st before response after :
    c_writer c = true → c_sending c = before ++ response :: after →
    (length (c_channel c) < MAX_IN_FLIGHT_PER_CONNECTION)%nat →
    ConnAct [] c st
      (set_tasks (c_backlog c) (c_running c) (before ++ after) (c_channel c ++ [response]) c) st
| conn_send_fail c st before response after :
    c_writer c = false → c_sending c = before ++ response :: after →
    ConnAct [] c st
      (set_tasks (c_backlog c) (c_running c) (before ++ after) (c_channel c) c) st
| conn_write c st first queue batch queue' :
    c_writer c = true → c_channel c = first :: queue →
    coalesce_native_responses first queue = (batch, queue') →
    ConnAct [] c st (set_writer queue' (c_output c ++ [batch]) true c) st
| conn_write_fail c st first queue batch queue' part :
    c_writer c = true → c_channel c = first :: queue →
    coalesce_native_responses first queue = (batch, queue') → part `prefix_of` batch →
    ConnAct [] c st (set_writer [] (c_output c ++ [part]) false c) st.

(** What a connection sees: its own steps, and changes of the shared state by
    the rest of the server. *)
Inductive ConnStep : bytes → Conn → AppState → Conn → AppState → Prop :=
| conn_act chunk c st c' st' : ConnAct chunk c st c' st' → ConnStep chunk c st c' st'
| conn_other c st st' : ConnStep [] c st c st'.

(** The states of a connection that has received [bytes] in all, when the rest
    of the server keeps its state within [P]. *)
Inductive conn_run (P : AppState → Prop) : bytes → Conn → AppState → Prop :=
| conn_run_new st : P st → conn_run P [] Conn_new st
| conn_run_step recv chunk c st c' st' :
    conn_run P recv c st → ConnStep chunk c st c' st' → P st' → conn_run P (recv ++ chunk) c' st'.
End connection.
End Connection.
