(* ===== verification/ConnRun.v ===== *)
(** * ConnRun: connections that can be executed

    The steps of [Connection] as a function of a scheduler's choice, so that a
    concrete run of a connection, with its pipelined tasks and the order in
    which they finish, can be computed. *)

From S2P Require Import Prelude Bytes Protocol Engine Sharded Server Connection.

Module ConnRun.
Import Protocol Codec Server Connection.
Import Sharded(ShardEnv).

(** A choice: a reading turn that receives [chunk], the end of the stream, the
    next frame of the backlog handed to a task, the [k]-th running task executing
    its frame, the [k]-th executed task sending its response, a write. *)
Inductive Move :=
| MRead (clk : Engine.Clock) (chunk : bytes)
| MEof
| MSpawn
| MExecute (clk : Engine.Clock) (k : nat)
| MSend (k : nat)
| MWrite.

Definition move_bytes (m : Move) : bytes := match m with MRead _ chunk => chunk | _ => [] end.

(** The [k]-th element, and the others. *)
Definition pick {A} (k : nat) (l : list A) : option (A * list A) :=
  x ← l !! k; Some (x, take k l ++ drop (S k) l).

Lemma pick_split {A} k (l : list A) x rest :
  pick k l = Some (x, rest) → ∃ before after, l = before ++ x :: after ∧ rest = before ++ after.
Proof.
  unfold pick. intros (y & Hy & [= -> <-])%bind_Some. exists (take k l), (drop (S k) l).
  by rewrite take_drop_middle.
Qed.

Section moves.
Context `{Engine.HashOrder, ShardEnv} (max_payload_len connection_id : N).

Definition is_reading (c : Conn) : bool := negb (c_closed c) && bool_decide (c_backlog c = []).

Definition in_flight_room (c : Conn) : bool :=
  (length (c_running c) + length (c_sending c) <? MAX_IN_FLIGHT_PER_CONNECTION)%nat.

Definition move (m : Move) (c : Conn) (st : AppState) : option (Conn * AppState) :=
  match m with
  | MRead clk chunk =>
    if is_reading c then on_frames max_payload_len connection_id clk (received chunk c) st else None
  | MEof =>
    if is_reading c
    then Some (set_reader (c_buffer c) (c_pipelined c) (c_backlog c) true c, st) else None
  | MSpawn =>
    match c_backlog c with
    | frame :: rest =>
      if in_flight_room c
      then Some (set_tasks rest (c_running c ++ [frame]) (c_sending c) (c_channel c) c, st) else None
    | [] => None
    end
  | MExecute clk k =>
    '(frame, others) ← pick k (c_running c);
    '(response, st) ← execute_native_frame_bytes_into clk frame max_payload_len connection_id [] st;
    Some (set_tasks (c_backlog c) others (c_sending c ++ [response]) (c_channel c) c, st)
  | MSend k =>
    '(response, others) ← pick k (c_sending c);
    if c_writer c && (length (c_channel c) <? MAX_IN_FLIGHT_PER_CONNECTION)%nat
    then Some (set_tasks (c_backlog c) (c_running c) others (c_channel c ++ [response]) c, st)
    else None
  | MWrite =>
    match c_channel c with
    | first :: queue =>
      if c_writer c
      then let '(batch, queue) := coalesce_native_responses first queue in
           Some (set_writer queue (c_output c ++ [batch]) true c, st)
      else None
    | [] => None
    end
  end.

Fixpoint moves (ms : list Move) (c : Conn) (st : AppState) : option (Conn * AppState) :=
  match ms with
  | [] => Some (c, st)
  | m :: ms => '(c, st) ← move m c st; moves ms c st
  end.

Lemma is_reading_spec c : is_reading c = true → reading c.
Proof.
  intros [Hc Hb]%andb_true_iff. apply negb_true_iff in Hc. by apply bool_decide_eq_true in Hb.
Qed.

(** A move is a step of the connection. *)
Lemma move_act m c st c' st' :
  move m c st = Some (c', st') →
  ConnAct max_payload_len connection_id (move_bytes m) c st c' st'.
Proof.
  destruct m as [clk chunk| | |clk k|k|]; simpl.
  - destruct (is_reading c) eqn:Er; [|done]. intros Hon.
    eapply conn_read; [by apply is_reading_spec|done].
  - destruct (is_reading c) eqn:Er; [|done]. intros [= <- <-].
    by apply conn_eof, is_reading_spec.
  - destruct (c_backlog c) as [|frame rest] eqn:Eb; [done|].
    destruct (in_flight_room c) eqn:Er; [|done]. intros [= <- <-].
    apply conn_spawn; [done|]. by apply Nat.ltb_lt.
  - intros ([frame others] & Hp & ([r st1] & Hex & [= <- <-])%bind_Some)%bind_Some.
    apply pick_split in Hp as (before & after & Hrun & ->). by eapply conn_execute.
  - intros ([r others] & Hp & Hs)%bind_Some.
    apply pick_split in Hp as (before & after & Hsend & ->).
    destruct (c_writer c) eqn:Ew; [|done]. destruct (_ <? _)%nat eqn:El; [|done].
    injection Hs as <- <-. eapply conn_send; [done|done|]. by apply Nat.ltb_lt.
  - destruct (c_channel c) as [|first queue] eqn:Ec; [done|].
    destruct (c_writer c) eqn:Ew; [|done].
    destruct (coalesce_native_responses first queue) as [batch queue'] eqn:Eco.
    intros [= <- <-]. by eapply conn_write.
Qed.

(** A computed run is a run, under an invariant [Q] of the shared state that the
    steps keep. *)
Lemma moves_run (P Q : AppState → Prop) ms recv c st c' st' :
  (∀ chunk c st c' st', ConnAct max_payload_len connection_id chunk c st c' st' → Q st → Q st') →
  (∀ st, Q st → P st) →
  conn_run max_payload_len connection_id P recv c st → Q st → moves ms c st = Some (c', st') →
  conn_run max_payload_len connection_id P (recv ++ concat (move_bytes <$> ms)) c' st'.
Proof.
  intros Hkeep HQ. revert recv c st. induction ms as [|m ms IH]; intros recv c st Hrun Hst Hms.
  - injection Hms as <- <-. by rewrite app_nil_r.
  - simpl in Hms. apply bind_Some in Hms as ([c1 st1] & Hm%move_act & Hms).
    pose proof (Hkeep _ _ _ _ _ Hm Hst) as Hst1. simpl. rewrite app_assoc.
    eapply IH; [|done|done]. eapply conn_run_step; [done|by apply conn_act|by apply HQ].
Qed.
End moves.
End ConnRun.
