(* ===== verification/ConnSpec.v ===== *)
(** * ConnSpec: the byte stream of a connection

    The split of the read buffer into frames does not depend on how the
    network cuts the stream; coalescing writes every response once and in
    order; on a connection, in-line or pipelined, every complete frame received
    is executed exactly once and the client receives the responses of the
    executed frames whole. *)

From S2P Require Import Prelude Bytes Protocol ProtocolFacts ProtocolSpec Engine Sharded.
From S2P Require Import ShardedSpec Server Connection.

Module ConnSpec.
Import Protocol Codec ProtocolFacts ProtocolSpec Server Connection.
Import Sharded(ShardEnv).
Import ShardedSpec(demo_env, demo_sharded).

(** ** Frames on the wire *)

(** The payload length a header declares. *)
Definition declared (bs : bytes) : N := from_be_bytes (slice bs 16 20).

(** A complete frame within the limit, whatever it holds. *)
Definition framed (maxlen : N) (f : bytes) : Prop :=
  len f = HEADER_LEN + declared f ∧ declared f ≤ maxlen.

(** The start of a frame, cut short. *)
Definition partial (maxlen : N) (t : bytes) : Prop :=
  len t < HEADER_LEN ∨ (declared t ≤ maxlen ∧ len t < HEADER_LEN + declared t).

(** A header that declares more than the limit. *)
Definition oversized (maxlen : N) (t : bytes) : Prop :=
  HEADER_LEN ≤ len t ∧ maxlen < declared t.

(** Frames followed by such a header: the reading loop closes the connection
    and leaves them all in the buffer. *)
Definition dropped (maxlen : N) (bs : bytes) : Prop :=
  ∃ fs t, bs = concat fs ++ t ∧ Forall (framed maxlen) fs ∧ oversized maxlen t.

Fixpoint ranges (offset : N) (fs : list bytes) : list (N * N) :=
  match fs with
  | [] => []
  | f :: fs => (offset, offset + len f) :: ranges (offset + len f) fs
  end.

Lemma len_concat_cons (f : bytes) fs : len (concat (f :: fs)) = len f + len (concat fs).
Proof. simpl. apply len_app. Qed.

Lemma slice_app_r {A} (pre l : list A) a b :
  slice (pre ++ l) (len pre + a) (len pre + b) = slice l a b.
Proof.
  unfold slice, len. rewrite skipn_app, drop_ge by lia. simpl. f_equal; [lia|]. f_equal. lia.
Qed.

Lemma slice_app_l {A} (l k : list A) a b : b ≤ len l → slice (l ++ k) a b = slice l a b.
Proof.
  unfold slice, len. intros Hb. rewrite skipn_app, take_app_le; [done|].
  rewrite length_drop. lia.
Qed.

Lemma declared_app t k : HEADER_LEN ≤ len t → declared (t ++ k) = declared t.
Proof.
  intros Ht. unfold declared. rewrite slice_app_l; [done|]. unfold HEADER_LEN in Ht. lia.
Qed.

Lemma slice_frame (pre f post : bytes) : slice (pre ++ f ++ post) (len pre) (len pre + len f) = f.
Proof. apply slice_app_mid. Qed.

Definition drained (acc : list (N * N)) : FrameDrain :=
  match acc with [] => NeedMore | _ => Frames acc end.

Lemma find_frames_tail fuel pre t maxlen acc :
  partial maxlen t → find_frames fuel (pre ++ t) maxlen (len pre) acc = drained acc.
Proof.
  intros Ht. destruct fuel as [|fuel]; [done|]. cbn [find_frames]. unfold sat_sub.
  rewrite len_app, N.add_comm, N.add_sub.
  destruct (N.leb_spec HEADER_LEN (len t)) as [Hh|Hh]; [|done].
  destruct Ht as [Ht|[Hd Ht]]; [lia|]. rewrite slice_app_r. fold (declared t).
  rewrite (proj2 (N.ltb_ge _ _)) by done. by rewrite (proj2 (N.ltb_lt _ _)).
Qed.

Lemma find_frames_oversized fuel pre t maxlen acc :
  oversized maxlen t → find_frames (S fuel) (pre ++ t) maxlen (len pre) acc = Close.
Proof.
  intros [Hh Hd]. cbn [find_frames]. unfold sat_sub. rewrite len_app, N.add_comm, N.add_sub.
  rewrite (proj2 (N.leb_le _ _)) by done. rewrite slice_app_r. fold (declared t).
  by rewrite (proj2 (N.ltb_lt _ _)).
Qed.

Lemma find_frames_cons fuel pre f rest maxlen acc :
  framed maxlen f →
  find_frames (S fuel) (pre ++ f ++ rest) maxlen (len pre) acc =
  find_frames fuel ((pre ++ f) ++ rest) maxlen (len (pre ++ f))
    (acc ++ [(len pre, len pre + len f)]).
Proof.
  intros [Hl Hd]. cbn [find_frames]. unfold sat_sub. rewrite !len_app.
  replace (len pre + (len f + len rest) - len pre) with (len f + len rest) by lia.
  rewrite (proj2 (N.leb_le _ _)) by lia. rewrite slice_app_r. fold (declared (f ++ rest)).
  rewrite declared_app by lia. rewrite (proj2 (N.ltb_ge _ _)) by done.
  rewrite (proj2 (N.ltb_ge _ _)) by lia. rewrite <- Hl, app_assoc. done.
Qed.

Lemma find_frames_all fuel pre fs t maxlen acc :
  Forall (framed maxlen) fs → (length fs < fuel)%nat →
  find_frames fuel (pre ++ concat fs ++ t) maxlen (len pre) acc =
  find_frames (fuel - length fs) ((pre ++ concat fs) ++ t) maxlen (len (pre ++ concat fs))
    (acc ++ ranges (len pre) fs).
Proof.
  intros Hfs. revert fuel pre acc. induction Hfs as [|f fs Hf _ IH]; intros fuel pre acc Hfuel; simpl.
  - by rewrite !app_nil_r, Nat.sub_0_r.
  - destruct fuel as [|fuel]; [simpl in Hfuel; lia|]. rewrite <- app_assoc.
    rewrite find_frames_cons by done. rewrite IH by (simpl in Hfuel; lia).
    rewrite <- (len_app pre f), (app_assoc pre f (concat fs)), <- (app_assoc acc). done.
Qed.

Lemma framed_count maxlen fs t :
  Forall (framed maxlen) fs → (length fs ≤ length (concat fs ++ t))%nat.
Proof.
  induction 1 as [|f fs [Hl _] _ IH]; simpl; [lia|]. rewrite !length_app in *.
  unfold len, HEADER_LEN in Hl. lia.
Qed.

(** The buffer is split into its complete frames. *)
Lemma find_complete fs t maxlen :
  Forall (framed maxlen) fs → partial maxlen t →
  find_complete_native_frames (concat fs ++ t) maxlen = drained (ranges 0 fs).
Proof.
  intros Hfs Ht. unfold find_complete_native_frames.
  pose proof (framed_count maxlen fs t Hfs).
  rewrite (find_frames_all _ [] fs t maxlen []) by (done || lia). by apply find_frames_tail.
Qed.

Lemma find_oversized fs t maxlen :
  Forall (framed maxlen) fs → oversized maxlen t →
  find_complete_native_frames (concat fs ++ t) maxlen = Close.
Proof.
  intros Hfs Ht. unfold find_complete_native_frames.
  pose proof (framed_count maxlen fs t Hfs).
  rewrite (find_frames_all _ [] fs t maxlen []) by (done || lia).
  replace (S (length (concat fs ++ t)) - length fs)%nat
    with (S (length (concat fs ++ t) - length fs)) by lia.
  by apply find_frames_oversized.
Qed.

Lemma frames_of_ranges pre fs t :
  frames_of (pre ++ concat fs ++ t) (ranges (len pre) fs) = fs.
Proof.
  revert pre. induction fs as [|f fs IH]; intros pre; simpl; [done|]. f_equal.
  - rewrite <- app_assoc. apply slice_frame.
  - rewrite <- (app_assoc f), (app_assoc pre f), <- len_app. apply IH.
Qed.

Lemma ranges_end pre fs t :
  fs ≠ [] → drain_frame_ranges (pre ++ concat fs ++ t) (ranges (len pre) fs) = t.
Proof.
  intros Hne. unfold drain_frame_ranges.
  assert (∃ a rest, List.rev (ranges (len pre) fs) = (a, len (pre ++ concat fs)) :: rest)
    as (a & rest & ->).
  { clear t. revert pre. induction fs as [|f fs IH]; [done|]. intros pre. simpl.
    destruct fs as [|f' fs].
    - simpl. rewrite app_nil_r, len_app. by eexists _, [].
    - destruct (IH ltac:(done) (pre ++ f)) as (a & rest & Heq). rewrite len_app in Heq.
      rewrite Heq. simpl. rewrite <- app_assoc. by eexists _, _. }
  rewrite app_assoc. unfold len. rewrite Nat2N.id. apply drop_app_length.
Qed.

(** What [find_complete_native_frames], the copies and the drain make of a
    buffer that starts with the frames [fs]. *)
Lemma buffer_split fs t maxlen :
  Forall (framed maxlen) fs → partial maxlen t → fs ≠ [] →
  find_complete_native_frames (concat fs ++ t) maxlen = Frames (ranges 0 fs) ∧
  frames_of (concat fs ++ t) (ranges 0 fs) = fs ∧
  drain_frame_ranges (concat fs ++ t) (ranges 0 fs) = t ∧
  len (ranges 0 fs) = len fs.
Proof.
  intros Hfs Ht Hne. split_and!.
  - rewrite find_complete by done. by destruct fs.
  - exact (frames_of_ranges [] fs t).
  - exact (ranges_end [] fs t Hne).
  - unfold len. f_equal. clear. generalize 0. induction fs as [|f fs IH]; intros n; simpl; [done|].
    by rewrite IH.
Qed.

(** Every buffer is a run of complete frames followed by the start of a frame
    or by a header that is too large. *)
Lemma buffer_cases maxlen bs :
  ∃ fs t, bs = concat fs ++ t ∧ Forall (framed maxlen) fs ∧ (partial maxlen t ∨ oversized maxlen t).
Proof.
  remember (length bs) as n eqn:Hn. revert bs Hn.
  induction (lt_wf n) as [n _ IH]. intros bs ->.
  destruct (decide (len bs < HEADER_LEN)) as [Hs|Hs]; [exists [], bs; by repeat constructor|].
  destruct (decide (maxlen < declared bs)) as [Ho|Ho].
  { exists [], bs. split_and!; [done|constructor|]. right. split; [lia|done]. }
  destruct (decide (len bs < HEADER_LEN + declared bs)) as [Hp|Hp].
  { exists [], bs. split_and!; [done|constructor|]. left. right. split; [lia|done]. }
  set (k := N.to_nat (HEADER_LEN + declared bs)).
  assert (len (take k bs) = HEADER_LEN + declared bs) as Hk.
  { unfold len in *. rewrite length_take. lia. }
  assert (declared (take k bs) = declared bs) as Hd.
  { rewrite <- (take_drop k bs) at 2. rewrite declared_app; [done|]. lia. }
  destruct (IH (length (drop k bs))) with (bs := drop k bs) as (fs & t & Heq & Hfs & Ht); [|done|].
  { rewrite length_drop. unfold k, HEADER_LEN in *. unfold len in Hs. lia. }
  exists (take k bs :: fs), t. split_and!; [|constructor; [split; lia|done]|done].
  simpl. rewrite <- app_assoc, <- Heq. by rewrite take_drop.
Qed.

(** ** Independence of the chunks *)

(** The reading loop as a function: the frames extracted from a sequence of
    reads, and what stays in the buffer; [None] when it closes. *)
Fixpoint feed (maxlen : N) (buffer : bytes) (chunks : list bytes) : option (list bytes * bytes) :=
  match chunks with
  | [] => Some ([], buffer)
  | chunk :: chunks =>
    let buffer := buffer ++ chunk in
    match find_complete_native_frames buffer maxlen with
    | Close => None
    | NeedMore => feed maxlen buffer chunks
    | Frames rs =>
      '(fs, rest) ← feed maxlen (drain_frame_ranges buffer rs) chunks;
      Some (frames_of buffer rs ++ fs, rest)
    end
  end.

(** A prefix of a stream of frames is some of the frames and a part of the
    next. *)
Lemma prefix_split maxlen fs tail p q :
  Forall (framed maxlen) fs → partial maxlen tail → p ++ q = concat fs ++ tail →
  ∃ fs1 fs2 t, p = concat fs1 ++ t ∧ fs = fs1 ++ fs2 ∧ t ++ q = concat fs2 ++ tail ∧ partial maxlen t.
Proof.
  intros Hfs Htail. revert p. induction Hfs as [|f fs [Hl Hd] Hfs IH]; intros p Heq; simpl in Heq.
  - exists [], [], p. split_and!; [done..|]. destruct (decide (len p < HEADER_LEN)); [by left|].
    right. pose proof (f_equal len Heq) as Hlen. rewrite len_app in Hlen.
    assert (declared tail = declared p) as Hdp by (rewrite <- Heq; apply declared_app; lia).
    rewrite <- Hdp. destruct Htail as [|[? ?]]; [lia|]. split; [done|lia].
  - rewrite <- app_assoc in Heq. destruct (decide (length f ≤ length p)%nat) as [Hle|Hlt].
    + assert (p = f ++ drop (length f) p) as Hp.
      { rewrite <- (take_drop (length f) p) at 1. f_equal.
        apply (f_equal (take (length f))) in Heq.
        by rewrite take_app_le, take_app_length in Heq. }
      rewrite Hp, <- app_assoc in Heq. apply app_inv_head in Heq.
      destruct (IH _ Heq) as (fs1 & fs2 & t & H1 & H2 & H3 & H4).
      exists (f :: fs1), fs2, t. split_and!; [|by rewrite H2|done|done].
      simpl. by rewrite <- app_assoc, <- H1.
    + exists [], (f :: fs), p. split_and!; [done|done|by rewrite Heq; simpl; rewrite app_assoc|].
      destruct (decide (len p < HEADER_LEN)); [by left|]. right.
      assert (declared f = declared p) as Hdp.
      { rewrite <- (declared_app f (concat fs ++ tail)), <- Heq by (unfold len in *; lia).
        apply declared_app. lia. }
      rewrite <- Hdp. split; [done|]. rewrite <- Hl. unfold len. lia.
Qed.

Lemma feed_frames maxlen chunks buffer fs tail :
  Forall (framed maxlen) fs → partial maxlen tail → buffer ++ concat chunks = concat fs ++ tail →
  partial maxlen buffer → feed maxlen buffer chunks = Some (fs, tail).
Proof.
  revert buffer fs. induction chunks as [|chunk chunks IH]; intros buffer fs Hfs Ht Heq Hb; simpl in *.
  - rewrite app_nil_r in Heq. subst buffer. destruct fs as [|f fs]; [done|]. exfalso.
    apply Forall_cons_1 in Hfs as [[Hl Hd] _]. simpl in Hb. rewrite <- app_assoc in Hb.
    destruct Hb as [Hb|[_ Hb]].
    + rewrite len_app in Hb. lia.
    + rewrite declared_app in Hb by lia. rewrite len_app in Hb. lia.
  - rewrite app_assoc in Heq.
    destruct (prefix_split maxlen fs tail (buffer ++ chunk) (concat chunks) Hfs Ht Heq)
      as (fs1 & fs2 & t & H1 & H2 & H3 & H4).
    rewrite H2 in Hfs. apply Forall_app in Hfs as [Hfs1 Hfs2]. rewrite H1.
    destruct fs1 as [|f1 fs1].
    + rewrite (find_complete [] t) by done. cbn [drained ranges concat app].
      rewrite (IH t fs2) by done. by rewrite H2.
    + destruct (buffer_split (f1 :: fs1) t maxlen) as (-> & -> & -> & _); [done..|].
      rewrite (IH t fs2) by done. by rewrite H2.
Qed.

(** The bytes of a request within the limit are a frame. *)
Lemma request_framed f maxlen :
  request_frame_ok f → len (encode_request_payload (rq_payload f) []) ≤ maxlen →
  framed maxlen (request_bytes f).
Proof.
  intros (_ & _ & _ & Hl) Hm. unfold framed, request_bytes. rewrite len_frame_bytes.
  assert (declared (frame_bytes KIND_REQUEST (rq_command f) (rq_request_id f)
    (encode_request_payload (rq_payload f) [])) = len (encode_request_payload (rq_payload f) []))
    as ->; [|done].
  unfold declared, frame_bytes. rewrite slice_app_l by by rewrite len_frame_header.
  change (slice _ 16 20) with (to_be_bytes 4 (len (encode_request_payload (rq_payload f) []))).
  by apply from_to_u32.
Qed.

(** C18: framing is independent of the chunks.  When a client sends requests
    within the limit, followed by the start of another frame, then however the
    network cuts the bytes into reads the server extracts the bytes of exactly
    these requests, in order, keeps the unfinished rest, and each extracted
    frame decodes to the request sent. *)
Theorem stream_frames maxlen reqs tail chunks :
  Forall (λ f, request_frame_ok f ∧ len (encode_request_payload (rq_payload f) []) ≤ maxlen) reqs →
  partial maxlen tail →
  concat chunks = concat (request_bytes <$> reqs) ++ tail →
  feed maxlen [] chunks = Some (request_bytes <$> reqs, tail) ∧
  ((λ bs, decode_request_frame bs maxlen) <$> (request_bytes <$> reqs)) = (Ok <$> reqs).
Proof.
  intros Hreqs Ht Heq. split.
  - apply feed_frames; [|done|done|by left].
    apply Forall_fmap. eapply Forall_impl; [|exact Hreqs]. intros f [Hf Hl]. by apply request_framed.
  - clear Heq. induction Hreqs as [|f reqs [Hf Hl] _ IH]; [done|]. rewrite !fmap_cons, IH. f_equal.
    rewrite <- (app_nil_r (request_bytes f)). by apply decode_request_bytes.
Qed.

Definition sample_requests : list RequestFrame :=
  [sample_request;
   {| rq_request_id := 8; rq_command := Delete; rq_payload := RDelete "default" (as_bytes "k") |}].

Lemma stream_frames_witness :
  feed 1024 [] ((λ b, [b]) <$> (concat (request_bytes <$> sample_requests) ++ as_bytes "CBX"))
  = Some (request_bytes <$> sample_requests, as_bytes "CBX").
Proof.
  apply (stream_frames 1024 sample_requests (as_bytes "CBX")).
  - repeat (apply List.Forall_cons || apply List.Forall_nil);
      (split; [concrete_ok | vm_compute; discriminate]).
  - left. vm_compute. reflexivity.
  - generalize (concat (request_bytes <$> sample_requests) ++ as_bytes "CBX"). intros l.
    induction l as [|b l IH]; [reflexivity|]. exact (f_equal (cons b) IH).
Defined.

(** ** Coalescing *)

Lemma coalesce_loop_spec batch n queue :
  let '(out, rest) := coalesce_loop batch n queue in
  ∃ taken, queue = taken ++ rest ∧ out = batch ++ concat taken ∧
    (n ≤ MAX_RESPONSE_WRITE_BATCH_FRAMES →
     n + length taken ≤ MAX_RESPONSE_WRITE_BATCH_FRAMES)%nat.
Proof.
  revert batch n. induction queue as [|r queue IH]; intros batch n; simpl.
  - exists []. simpl. rewrite app_nil_r. split_and!; [done|done|lia].
  - destruct (bool_decide (n < MAX_RESPONSE_WRITE_BATCH_FRAMES)%nat && _) eqn:E.
    + apply andb_true_iff in E as [Hn%bool_decide_eq_true _]. destruct (_ <? _).
      * exists [r]. simpl. rewrite app_nil_r. split_and!; [done|done|lia].
      * specialize (IH (batch ++ r) (S n)). destruct (coalesce_loop (batch ++ r) (S n) queue)
          as [out rest]. destruct IH as (taken & -> & -> & Hle). exists (r :: taken).
        simpl. rewrite <- app_assoc. split_and!; [done|done|lia].
    + exists []. simpl. rewrite app_nil_r. split_and!; [done|done|lia].
Qed.

(** Coalescing.  One write carries the first response and the next ones
    of the channel, whole and in order, at most 32 of them; the rest stays in
    the channel. *)
Theorem coalesce_in_order first queue :
  let '(batch, rest) := coalesce_native_responses first queue in
  ∃ taken, queue = taken ++ rest ∧ batch = concat (first :: taken) ∧
    (length (first :: taken) ≤ MAX_RESPONSE_WRITE_BATCH_FRAMES)%nat.
Proof.
  pose proof (coalesce_loop_spec first 1 queue) as Hs. unfold coalesce_native_responses.
  destruct (coalesce_loop first 1 queue) as [batch rest]. destruct Hs as (taken & H1 & H2 & H3).
  exists taken. split_and!; [done|done|]. simpl. unfold MAX_RESPONSE_WRITE_BATCH_FRAMES in *. lia.
Qed.

(** ** The connection *)

Section connection.
Context `{Engine.HashOrder, ShardEnv} (P : AppState → Prop) (maxlen conn : N).

(** The response to a frame executed in some state of the server. *)
Definition answers (p : bytes * bytes) : Prop :=
  ∃ clk st st', P st ∧
    execute_native_frame_bytes_into clk p.1 maxlen conn [] st = Some (p.2, st').

(** What the client has been sent: with a working writer, the responses [sent]
    but those still in the channel; otherwise a part of them. *)
Definition written (c : Conn) (sent : list bytes) : Prop :=
  if c_writer c then concat (c_output c) ++ concat (c_channel c) = concat sent
  else c_channel c = [] ∧ concat (c_output c) `prefix_of` concat sent.

(** What holds of a connection that received [recv]: [fs] are the complete
    frames received, [log] the frames executed so far with their responses,
    [sent] the responses that left their task. *)
Record conn_ok (recv : bytes) (c : Conn) (fs : list bytes) (log : list (bytes * bytes))
    (sent : list bytes) : Prop := {
  co_stream : recv = concat fs ++ c_buffer c;
  co_framed : Forall (framed maxlen) fs;
  co_partial : c_closed c = false → partial maxlen (c_buffer c);
  co_answers : Forall answers log;
  co_sent : sent ++ c_sending c ≡ₚ snd <$> log;
  co_written : written c sent;
  co_frames : (fst <$> log) ++ c_running c ++ c_backlog c ≡ₚ fs;
  co_inline : c_pipelined c = false →
    fst <$> log = fs ∧ snd <$> log = sent ∧ c_running c = [] ∧ c_sending c = [] ∧
    c_backlog c = [] ∧ c_channel c = [] ∧ (c_closed c = false → c_writer c = true);
  co_bounds : (length (c_running c) + length (c_sending c) ≤ MAX_IN_FLIGHT_PER_CONNECTION)%nat ∧
    (length (c_channel c) ≤ MAX_IN_FLIGHT_PER_CONNECTION)%nat
}.

(** One reading turn: the buffer completes the frames [new]. *)
Lemma on_frames_cases clk c st c' st' :
  on_frames maxlen conn clk c st = Some (c', st') →
  (c' = set_reader (c_buffer c) (c_pipelined c) (c_backlog c) true c ∧ st' = st ∧
   dropped maxlen (c_buffer c)) ∨
  ∃ new t, c_buffer c = concat new ++ t ∧ Forall (framed maxlen) new ∧ partial maxlen t ∧
    ((new = [] ∧ c' = c ∧ st' = st) ∨
     (new ≠ [] ∧ c' = set_reader t true new (c_closed c) c ∧ st' = st) ∨
     ∃ f r, new = [f] ∧ c_pipelined c = false ∧
       execute_native_frame_bytes_into clk f maxlen conn [] st = Some (r, st') ∧
       c' = set_writer (c_channel c) (c_output c ++ [r]) (c_writer c)
              (set_reader t false (c_backlog c) (c_closed c) c)).
Proof.
  unfold on_frames. destruct (buffer_cases maxlen (c_buffer c)) as (new & t & Hbuf & Hnew & [Ht|Ht]).
  2: { assert (find_complete_native_frames (c_buffer c) maxlen = Close) as ->
         by (rewrite Hbuf; by apply find_oversized). intros [= <- <-]. left.
       split_and!; [done..|]. by exists new, t. }
  intros Hon. right. exists new, t. split_and!; [done..|]. destruct new as [|f new].
  { rewrite Hbuf, find_complete in Hon by done. injection Hon as <- <-. by left. }
  right. destruct (buffer_split (f :: new) t maxlen Hnew Ht ltac:(done)) as (Hfind & Hfr & Hdr & Hlen).
  rewrite Hbuf, Hfind, Hfr, Hdr in Hon.
  destruct (c_pipelined c || (1 <? len (ranges 0 (f :: new)))) eqn:Ep.
  - injection Hon as <- <-. by left.
  - right. apply orb_false_iff in Ep as [Ep Hone]. rewrite Hlen in Hone.
    apply N.ltb_ge in Hone. destruct new as [|f' new]; [|rewrite !len_cons in Hone; lia].
    unfold hbind in Hon. simpl in Hon. unfold hbind, hret in Hon.
    destruct (execute_native_frame_bytes_into clk f maxlen conn [] st) as [[r st1]|] eqn:E; [|done].
    injection Hon as <- <-. by exists f, r.
Qed.

Lemma concat_snoc (l : list bytes) x : concat (l ++ [x]) = concat l ++ x.
Proof. rewrite concat_app. simpl. by rewrite app_nil_r. Qed.

Lemma conn_ok_grow recv chunk c fs log sent new t :
  conn_ok recv c fs log sent → c_buffer c ++ chunk = concat new ++ t →
  recv ++ chunk = concat (fs ++ new) ++ t.
Proof.
  intros Hok Hbuf. rewrite (co_stream _ _ _ _ _ Hok), <- app_assoc, Hbuf, concat_app.
  by rewrite app_assoc.
Qed.

(** A frame handled in line, whose response is written whole or in part. *)
Lemma inline_ok recv chunk c fs log sent f t r clk st st' part closed :
  conn_ok recv c fs log sent → reading c → c_pipelined c = false →
  c_buffer c ++ chunk = f ++ t → framed maxlen f → partial maxlen t → P st →
  execute_native_frame_bytes_into clk f maxlen conn [] st = Some (r, st') →
  part `prefix_of` r → (closed = false → part = r) →
  conn_ok (recv ++ chunk) (set_writer (c_channel c) (c_output c ++ [part]) (negb closed)
    (set_reader t false [] closed c)) (fs ++ [f]) (log ++ [(f, r)]) (sent ++ [r]).
Proof.
  intros Hok [Hop Hbl] Hp Hbuf Hf Ht HP Hex Hpart Hfull.
  destruct Hok as [H1 H2 H3 H4 H5 H6 H7 H8 H9].
  destruct (H8 Hp) as (Hlog & Hsent & Hrun & Hsend & _ & Hch & Hw). specialize (Hw Hop).
  unfold written in H6. rewrite Hw, Hch in H6. simpl in H6. rewrite app_nil_r in H6.
  assert (fst <$> log ++ [(f, r)] = fs ++ [f]) as Hl by (by rewrite fmap_app, Hlog).
  assert (snd <$> log ++ [(f, r)] = sent ++ [r]) as Hs by (by rewrite fmap_app, Hsent).
  split; cbn [set_writer set_reader c_buffer c_pipelined c_backlog c_running c_sending c_channel
    c_output c_writer c_closed]; rewrite ?Hl, ?Hs, ?Hrun, ?Hsend, ?Hch; simpl;
    rewrite ?app_nil_r; try done.
  - by rewrite H1, <- app_assoc, Hbuf, concat_snoc, <- app_assoc.
  - apply Forall_app. split; [done|by constructor].
  - apply Forall_app. split; [done|]. constructor; [|done]. by exists clk, st, st'.
  - unfold written. simpl. destruct closed; simpl.
    + split; [done|]. rewrite !concat_snoc, H6. by apply prefix_app.
    + rewrite (Hfull eq_refl), app_nil_r, !concat_snoc, H6. done.
  - intros _. split_and!; try done. by intros ->.
  - rewrite Hrun, Hsend, Hch in H9. exact H9.
Qed.

Lemma conn_read_ok clk recv chunk c st c' st' fs log sent :
  conn_ok recv c fs log sent → P st → reading c →
  on_frames maxlen conn clk (received chunk c) st = Some (c', st') →
  ∃ fs' log' sent', conn_ok (recv ++ chunk) c' fs' log' sent'.
Proof.
  intros Hok HP Hrd Hon. pose proof Hrd as [Hop Hbl].
  apply on_frames_cases in Hon as [(-> & -> & _)|(new & t & Hbuf & Hnew & Ht & Hc)].
  { exists fs, log, sent. destruct Hok. split; simpl; try done.
    - by rewrite co_stream0, <- app_assoc.
    - by rewrite Hbl in *.
    - intros Hp. destruct (co_inline0 Hp) as (?&?&?&?&?&?&?). by split_and!. }
  pose proof (conn_ok_grow recv chunk c fs log sent new t Hok Hbuf) as Hrecv.
  destruct Hc as [(-> & -> & ->)|[(Hne & -> & ->)|(f & r & -> & Hp & Hex & ->)]].
  - rewrite app_nil_r in Hrecv. simpl in Hbuf. subst t. exists fs, log, sent. destruct Hok.
    split; simpl; try done.
    + by rewrite Hbl in *.
    + intros Hp. destruct (co_inline0 Hp) as (?&?&?&?&?&?&?). split_and!; auto.
  - exists (fs ++ new), log, sent. destruct Hok. split; simpl; try done.
    + by apply Forall_app.
    + rewrite Hbl, app_nil_r in co_frames0. by rewrite app_assoc, co_frames0.
  - exists (fs ++ [f]), (log ++ [(f, r)]), (sent ++ [r]). simpl in Hbuf. rewrite app_nil_r in Hbuf.
    destruct (co_inline _ _ _ _ _ Hok Hp) as (_&_&_&_&_&_&Hw). specialize (Hw Hop).
    cbn [received set_reader c_writer c_channel c_output c_backlog c_closed]. rewrite Hw.
    apply (inline_ok recv chunk c fs log sent f t r clk st st' r false); try done.
    by apply Forall_cons_1 in Hnew as [? _].
Qed.

(** A step of the tasks, which receives nothing. *)
Lemma conn_tasks_ok recv c c' fs log log' sent sent' :
  conn_ok recv c fs log sent → c_buffer c' = c_buffer c → c_closed c' = c_closed c →
  c_pipelined c' = c_pipelined c → c_pipelined c = true → Forall answers log' →
  sent' ++ c_sending c' ≡ₚ snd <$> log' → written c' sent' →
  (fst <$> log') ++ c_running c' ++ c_backlog c' ≡ₚ fs →
  (length (c_running c') + length (c_sending c') ≤ MAX_IN_FLIGHT_PER_CONNECTION)%nat →
  (length (c_channel c') ≤ MAX_IN_FLIGHT_PER_CONNECTION)%nat →
  conn_ok recv c' fs log' sent'.
Proof. intros [] Hb Hc Hp Hpt. split; rewrite ?Hb, ?Hc, ?Hp; try done. congruence. Qed.

(** Tasks and the channel are used in pipelined mode only. *)
Lemma conn_ok_pipelined recv c fs log sent :
  conn_ok recv c fs log sent →
  c_backlog c ≠ [] ∨ c_running c ≠ [] ∨ c_sending c ≠ [] ∨ c_channel c ≠ [] →
  c_pipelined c = true.
Proof.
  intros Hok Hne. destruct (c_pipelined c) eqn:E; [done|].
  destruct (co_inline _ _ _ _ _ Hok E) as (_ & _ & ? & ? & ? & ? & _). naive_solver.
Qed.

Lemma written_batch c sent first queue batch queue' :
  written c sent → c_writer c = true → c_channel c = first :: queue →
  coalesce_native_responses first queue = (batch, queue') →
  concat (c_output c) ++ batch ++ concat queue' = concat sent ∧
  (length queue' ≤ length queue)%nat.
Proof.
  unfold written. intros Hw Hwr Hch Hco. rewrite Hwr, Hch in Hw.
  pose proof (coalesce_loop_spec first 1 queue) as Hs. unfold coalesce_native_responses in Hco.
  rewrite Hco in Hs. destruct Hs as (taken & -> & -> & _). simpl in Hw.
  split; [by rewrite <- Hw, concat_app, <- !app_assoc|]. rewrite length_app. lia.
Qed.

Lemma written_sent c r sent backlog running sending :
  written c sent →
  written (set_tasks backlog running sending
    (if c_writer c then c_channel c ++ [r] else c_channel c) c) (sent ++ [r]).
Proof.
  unfold written. simpl. destruct (c_writer c); intros Hw.
  - by rewrite !concat_snoc, app_assoc, Hw.
  - destruct Hw as [-> Hw]. split; [done|]. rewrite concat_snoc. by apply prefix_app_r.
Qed.

Lemma spawn_ok recv c fs log sent f rest :
  conn_ok recv c fs log sent → c_backlog c = f :: rest →
  (length (c_running c) + length (c_sending c) < MAX_IN_FLIGHT_PER_CONNECTION)%nat →
  conn_ok recv (set_tasks rest (c_running c ++ [f]) (c_sending c) (c_channel c) c) fs log sent.
Proof.
  intros Hok Hbl Hlt. pose proof Hok as []. eapply conn_tasks_ok; try done; simpl.
  - eapply conn_ok_pipelined; [done|]. rewrite Hbl. by left.
  - by rewrite Hbl, <- (app_assoc (c_running c)) in *.
  - rewrite length_app. simpl. lia.
  - apply co_bounds0.
Qed.

Lemma execute_ok recv c fs log sent before f after r clk st st' :
  conn_ok recv c fs log sent → P st → c_running c = before ++ f :: after →
  execute_native_frame_bytes_into clk f maxlen conn [] st = Some (r, st') →
  conn_ok recv (set_tasks (c_backlog c) (before ++ after) (c_sending c ++ [r]) (c_channel c) c)
    fs (log ++ [(f, r)]) sent.
Proof.
  intros Hok HP Hrun Hex. pose proof Hok as []. eapply conn_tasks_ok; try done; simpl.
  - eapply conn_ok_pipelined; [done|]. rewrite Hrun. right. left. by destruct before.
  - apply Forall_app. split; [done|]. constructor; [|done]. by exists clk, st, st'.
  - by rewrite app_assoc, co_sent0, fmap_app.
  - rewrite Hrun in co_frames0. rewrite <- co_frames0, fmap_app. simpl. rewrite <- !app_assoc.
    simpl. apply Permutation_app_head, Permutation_middle.
  - destruct co_bounds0 as [Hb _]. rewrite Hrun in Hb. rewrite !length_app in *. simpl in *. lia.
  - apply co_bounds0.
Qed.

(** A task leaves its response in the channel, or drops it when the writer is
    gone. *)
Lemma send_ok recv c fs log sent before r after :
  conn_ok recv c fs log sent → c_sending c = before ++ r :: after →
  (c_writer c = true → length (c_channel c) < MAX_IN_FLIGHT_PER_CONNECTION)%nat →
  conn_ok recv (set_tasks (c_backlog c) (c_running c) (before ++ after)
    (if c_writer c then c_channel c ++ [r] else c_channel c) c) fs log (sent ++ [r]).
Proof.
  intros Hok Hs Hlt. pose proof Hok as []. eapply conn_tasks_ok; try done; simpl.
  - eapply conn_ok_pipelined; [done|]. rewrite Hs. right. right. left. by destruct before.
  - rewrite <- co_sent0, Hs, <- app_assoc. simpl.
    apply Permutation_app_head, Permutation_middle.
  - by apply written_sent.
  - destruct co_bounds0 as [Hb _]. rewrite Hs in Hb. rewrite !length_app in *. simpl in *. lia.
  - destruct (c_writer c); [|apply co_bounds0]. rewrite length_app. specialize (Hlt eq_refl).
    simpl. lia.
Qed.

(** The writer writes a batch, whole or in part. *)
Lemma write_ok recv c fs log sent first queue batch queue' part (alive : bool) :
  conn_ok recv c fs log sent → c_writer c = true → c_channel c = first :: queue →
  coalesce_native_responses first queue = (batch, queue') → part `prefix_of` batch →
  (alive = true → part = batch) →
  conn_ok recv (set_writer (if alive then queue' else []) (c_output c ++ [part]) alive c)
    fs log sent.
Proof.
  intros Hok Hwr Hch Hco Hpart Hfull. pose proof Hok as [].
  destruct (written_batch c sent first queue batch queue' co_written0 Hwr Hch Hco) as [Hw Hle].
  eapply conn_tasks_ok; try done; simpl.
  - eapply conn_ok_pipelined; [done|]. rewrite Hch. by right; right; right.
  - unfold written. simpl. rewrite concat_snoc. destruct alive.
    + by rewrite (Hfull eq_refl), <- app_assoc.
    + split; [done|]. rewrite <- Hw. apply prefix_app. by apply prefix_app_r.
  - apply co_bounds0.
  - destruct co_bounds0 as [_ Hb]. rewrite Hch in Hb. simpl in Hb. destruct alive; simpl; lia.
Qed.

Lemma inline_fail_ok clk recv chunk c st c' st' fs log sent r part :
  conn_ok recv c fs log sent → P st → reading c →
  on_frames maxlen conn clk (received chunk c) st = Some (c', st') →
  c_pipelined c' = false → c_output c' = c_output c ++ [r] → part `prefix_of` r →
  ∃ fs' log' sent', conn_ok (recv ++ chunk)
    (set_writer (c_channel c) (c_output c ++ [part]) false
      (set_reader (c_buffer c') false (c_backlog c') true c)) fs' log' sent'.
Proof.
  intros Hok HP Hrd Hon Hp Hout Hpart.
  assert (∀ l : list bytes, l ≠ l ++ [r]) as Hl.
  { intros l Heq. apply (f_equal length) in Heq. rewrite length_app in Heq. simpl in Heq. lia. }
  apply on_frames_cases in Hon as [(-> & -> & _)|(new & t & Hbuf & Hnew & Ht & Hc)];
    [by apply Hl in Hout|].
  destruct Hc as [(-> & -> & ->)|[(Hne & -> & ->)|(f & r' & -> & Hp' & Hex & ->)]];
    [by apply Hl in Hout|done|].
  simpl in Hout. apply app_inj_tail in Hout as [_ ->].
  simpl in Hbuf. rewrite app_nil_r in Hbuf. eexists _, _, _.
  apply (inline_ok recv chunk c fs log sent f t r clk st st' part true); try done.
  by apply Forall_cons_1 in Hnew as [? _].
Qed.

(** Every step keeps the invariant. *)
Lemma conn_step_ok recv chunk c st c' st' fs log sent :
  conn_ok recv c fs log sent → P st → ConnStep maxlen conn chunk c st c' st' →
  ∃ fs' log' sent', conn_ok (recv ++ chunk) c' fs' log' sent'.
Proof.
  intros Hok HP Hstep. revert Hok HP.
  destruct Hstep as [chunk c st c' st' Hact|c st st'];
    [|intros; rewrite app_nil_r; by exists fs, log, sent].
  destruct Hact as [clk chunk c st c' st' Hrd Hon|c st Hrd
    |clk chunk c st c' st' r part Hrd Hon Hp' Hout Hpart|c st f rest Hbl Hlt
    |clk c st before f after r st' Hrun Hex|c st before r after Hwr Hs Hlt
    |c st before r after Hwr Hs|c st first queue batch queue' Hwr Hch Hco
    |c st first queue batch queue' part Hwr Hch Hco Hpart]; intros Hok HP;
    rewrite ?app_nil_r.
  - by eapply conn_read_ok.
  - exists fs, log, sent. destruct Hok. split; try done.
    simpl. intros Hp. destruct (co_inline0 Hp) as (?&?&?&?&?&?&?). by split_and!.
  - by eapply inline_fail_ok.
  - eexists _, _, _. by apply spawn_ok.
  - eexists _, _, _. by eapply execute_ok.
  - eexists _, _, _. pose proof (send_ok recv c fs log sent before r after Hok Hs) as Hsend.
    rewrite Hwr in Hsend. by apply Hsend.
  - eexists _, _, _. pose proof (send_ok recv c fs log sent before r after Hok Hs) as Hsend.
    rewrite Hwr in Hsend. by apply Hsend.
  - eexists _, _, _. by eapply (write_ok recv c fs log sent first queue batch queue' batch true).
  - eexists _, _, _. by eapply (write_ok recv c fs log sent first queue batch queue' part false).
Qed.

Lemma conn_run_P recv c st : conn_run maxlen conn P recv c st → P st.
Proof. by destruct 1. Qed.

(** What the buffer holds: no complete frame, unless a header that declares
    too much has closed the connection. *)
Definition rest_ok (c : Conn) : Prop :=
  partial maxlen (c_buffer c) ∨ (c_closed c = true ∧ dropped maxlen (c_buffer c)).

Lemma read_rest clk c st c' st' :
  on_frames maxlen conn clk c st = Some (c', st') → rest_ok c'.
Proof.
  intros Hon.
  apply on_frames_cases in Hon as [(-> & _ & Hd)|(new & t & Hbuf & _ & Ht & Hc)]; [by right|].
  left. destruct Hc as [(-> & -> & _)|[(_ & -> & _)|(f & r & _ & _ & _ & ->)]]; [|done..].
  by rewrite Hbuf.
Qed.

Lemma conn_run_rest recv c st : conn_run maxlen conn P recv c st → rest_ok c.
Proof.
  induction 1 as [st HP|recv chunk c st c' st' Hrun IH Hstep HP]; [by left; left|].
  revert IH. destruct Hstep as [chunk c st c' st' Hact|]; [|done].
  destruct Hact as [clk chunk c st c' st' Hrd Hon|c st Hrd
    |clk chunk c st c' st' r part Hrd Hon Hp' Hout Hpart| | | | | |]; intros IH; try done.
  - by eapply read_rest.
  - destruct IH as [?|[]]; [by left|by right].
  - destruct (read_rest _ _ _ _ _ Hon) as [?|[]]; [by left|by right].
Qed.

Lemma conn_run_ok recv c st :
  conn_run maxlen conn P recv c st → ∃ fs log sent, conn_ok recv c fs log sent.
Proof.
  induction 1 as [st HP|recv chunk c st c' st' Hrun (fs & log & sent & Hok) Hstep HP].
  - exists [], [], []. split; simpl; try done; [by left|]. split; simpl; lia.
  - eapply conn_step_ok; [done| |done]. by eapply conn_run_P.
Qed.
End connection.

(** C3: exactly once.  On a connection that has received [recv], in any
    interleaving of reads, task executions, sends, writes, the end of the stream
    and failed writes: the bytes received are the complete frames [fs] and a
    rest, unfinished while the connection is open; the frames executed, running
    and waiting are exactly the frames of [fs], each once; the responses that
    left their task are those of executed frames, each once, and they are the
    bytes written and in the channel, whole, or after a failed write begin with
    the bytes written; at most 128 frames are in flight and 128 responses in the
    channel.  While no read has found several frames the executed frames are
    [fs] in order. *)
Theorem connection_exactly_once `{Engine.HashOrder, ShardEnv} P maxlen conn recv c st :
  conn_run maxlen conn P recv c st →
  ∃ fs log sent, recv = concat fs ++ c_buffer c ∧ Forall (framed maxlen) fs ∧
    (c_closed c = false → partial maxlen (c_buffer c)) ∧ Forall (answers P maxlen conn) log ∧
    (fst <$> log) ++ c_running c ++ c_backlog c ≡ₚ fs ∧
    sent ++ c_sending c ≡ₚ snd <$> log ∧
    (if c_writer c then concat (c_output c) ++ concat (c_channel c) = concat sent
     else concat (c_output c) `prefix_of` concat sent) ∧
    (length (c_running c) + length (c_sending c) ≤ 128)%nat ∧ (length (c_channel c) ≤ 128)%nat ∧
    (c_pipelined c = false → fst <$> log = fs ∧ snd <$> log = sent).
Proof.
  intros Hrun. destruct (conn_run_ok P maxlen conn recv c st Hrun) as (fs & log & sent & []).
  exists fs, log, sent. unfold written in *. destruct co_bounds0.
  split_and!; try done; [|naive_solver..]. destruct (c_writer c); [done|]. by apply co_written0.
Qed.

Definition sample_ping : RequestFrame :=
  {| rq_request_id := 9; rq_command := Get; rq_payload := RGet "default" (as_bytes "a") |}.

Definition idle_state : AppState := {| engine := demo_sharded; metrics := Metrics.Metrics_default |}.

(** A read that delivers one request whole, from a fresh connection. *)
Lemma connection_exactly_once_witness :
  ∃ c st fs (log : list (bytes * bytes)) sent,
    @conn_run Engine.canonical_order demo_env 1024 1 (λ _, True)
      (request_bytes sample_ping) c st ∧
    request_bytes sample_ping = concat fs ++ c_buffer c ∧
    sent ++ c_sending c ≡ₚ snd <$> log.
Proof.
  set (step := @on_frames Engine.canonical_order demo_env 1024 1
    (Engine.manual_clock 20) (received (request_bytes sample_ping) Conn_new) idle_state).
  assert ((λ p : Conn * AppState, c_closed p.1) <$> step = Some false) as Hstep
    by (vm_compute; reflexivity).
  destruct step as [[c st]|] eqn:E; [|discriminate].
  assert (@conn_run Engine.canonical_order demo_env 1024 1 (λ _, True)
    ([] ++ request_bytes sample_ping) c st) as Hrun.
  { apply (@conn_run_step Engine.canonical_order demo_env 1024 1 (λ _, True) []
      (request_bytes sample_ping) Conn_new idle_state c st
      (@conn_run_new _ _ 1024 1 (λ _, True) idle_state I)); [|exact I].
    apply conn_act. exact (@conn_read _ _ 1024 1 (Engine.manual_clock 20) (request_bytes sample_ping)
      Conn_new idle_state c st (conj eq_refl eq_refl) E). }
  destruct (@connection_exactly_once Engine.canonical_order demo_env (λ _, True)
    1024 1 _ c st Hrun) as (fs & log & sent & H1 & _ & _ & _ & _ & H5 & _).
  exists c, st, fs, log, sent. split; [exact Hrun|]. split; [exact H1 | exact H5].
Defined.
End ConnSpec.
