(* ===== verification/Rejects.v ===== *)
(** * Rejects: frames that do not decode

    What the server does with a complete frame of the stream that is not a
    valid request: the errors such a frame can have, the texts of their
    messages, and the response. *)

From S2P Require Import Prelude Bytes Protocol ProtocolFacts ProtocolSpec Engine Sharded Server.
From S2P Require Import ServerSpec Connection ConnSpec.

Module Rejects.
Import Protocol Codec ProtocolFacts ProtocolSpec Server ServerSpec Connection ConnSpec.
Import Sharded(ShardEnv).

(** The errors of a complete frame within the limit. *)
Definition frame_error (e : DecodeError) : Prop :=
  match e with
  | DFrameTooLarge _ _ | DIncompleteHeader | DTruncatedPayload _ _ => False
  | DNonzeroReserved n | DTrailingBytes n => n ≤ U64_MAX
  | DInvalidPayload what => ascii_text what ∧ str_len what ≤ 40
  | _ => True
  end.

Lemma payload_error_frame e : payload_error e → frame_error e.
Proof. by destruct e. Qed.

Lemma be4_u64 bs a : from_be_bytes (slice bs a (a + 4)) ≤ U64_MAX.
Proof.
  pose proof (from_be_bytes_lt (slice bs a (a + 4))) as Hlt.
  assert (len (slice bs a (a + 4)) ≤ 4) as Hl.
  { unfold len, slice. rewrite length_take. lia. }
  pose proof (N.pow_le_mono_r 256 _ 4 ltac:(lia) Hl) as Hp.
  change (256 ^ 4) with 4294967296 in Hp. unfold U64_MAX. lia.
Qed.

Lemma header_error f maxlen kind e :
  framed maxlen f → decode_header f maxlen kind = Err e → frame_error e.
Proof.
  intros [Hl Hd]. unfold decode_header. fold (declared f).
  rewrite (proj2 (N.ltb_ge (len f) HEADER_LEN)) by lia.
  rewrite (proj2 (N.ltb_ge maxlen (declared f))) by done.
  do 4 (case_bool_decide; [|by intros [= <-]]). cbn [negb].
  destruct (N.eqb_spec (from_be_bytes (slice f 20 24)) 0); [done|].
  intros [= <-]. apply (be4_u64 f 20).
Qed.

Lemma frame_error_of f maxlen e :
  framed maxlen f → decode_request_frame f maxlen = Err e → frame_error e.
Proof.
  intros Hf. unfold decode_request_frame.
  destruct (decode_header f maxlen KIND_REQUEST) as [h|e'] eqn:Eh;
    [|intros [= <-]; by eapply header_error].
  apply decode_header_strict in Eh as [_ ->]. cbn [h_payload_len h_command h_request_id].
  fold (declared f). destruct Hf as [Hl Hd].
  rewrite (proj2 (N.ltb_ge (len f) _)) by lia.
  destruct (Command_from_id (index f 6)) as [cmd|e'] eqn:Ec.
  2: { intros [= <-]. unfold Command_from_id in Ec. by repeat (case_match; simplify_eq/=). }
  set (c := Cursor_new _). unfold rbind. pose proof (sane_request cmd c) as Hs.
  destruct (decode_request_payload cmd c) as [[p c']|e'];
    [|intros [= <-]; by apply payload_error_frame].
  unfold expect_empty. destruct (_ =? _); [done|]. intros [= <-]. simpl. rewrite Hs.
  unfold c, Cursor_new. cbn [c_input]. rewrite len_slice by lia.
  pose proof (be4_u64 f 16 : declared f ≤ U64_MAX) as Hb. lia.
Qed.

Lemma u8_text b : ascii_text (pretty (Byte.to_N b)) ∧ str_len (pretty (Byte.to_N b)) ≤ 20.
Proof. apply pretty_u64. pose proof (to_N_lt_256 b). unfold U64_MAX. lia. Qed.

(** [Name(n)] *)
Lemma call_text (name s : string) n :
  ascii_text name → str_len name ≤ n → ascii_text s → str_len s ≤ 42 →
  ascii_text (name +:+ s +:+ ")") ∧ str_len (name +:+ s +:+ ")") ≤ n + 43.
Proof.
  intros. split; [by repeat apply ascii_text_app|]. rewrite !str_len_app.
  change (str_len ")") with 1. lia.
Qed.

Lemma frame_error_text e :
  frame_error e → ascii_text (debug_error e) ∧ str_len (debug_error e) ≤ 64.
Proof.
  destruct e as [| |b|b|b|b|n|n m|x y|w| | | |b|n]; simpl frame_error; intros He; try done;
    try (by split; vm_compute);
    try (destruct (u8_text b) as [H1 H2]; apply (call_text _ _ 21); [done|done|done|lia]).
  - destruct (pretty_u64 n He) as [H1 H2]. apply (call_text _ _ 21); [done|done|done|lia].
  - destruct He as [Hw Hl]. cbn [debug_error].
    split; [by repeat apply ascii_text_app|]. rewrite !str_len_app.
    change (str_len quote) with 1. change (str_len "InvalidPayload(") with 15.
    change (str_len ")") with 1. lia.
  - destruct (pretty_u64 n He) as [H1 H2]. apply (call_text _ _ 21); [done|done|done|lia].
Qed.

Lemma reject_frame `{Engine.HashOrder, ShardEnv} clk frame maxlen conn st e :
  framed maxlen frame → decode_request_frame frame maxlen = Err e →
  find_complete_native_frames frame maxlen = Frames [(0, len frame)] ∧
  native_decode_error_code e ≠ FrameTooLarge ∧
  ∃ bs, execute_native_frame_bytes_into clk frame maxlen conn [] st = Some (bs, st) ∧
    if bool_decide (slice frame 0 4 = MAGIC)
    then decode_response_frame bs U32_MAX =
      Ok {| rs_request_id := from_be_bytes (slice frame 8 16);
            rs_command := match Command_from_id (index frame 6) with Ok c => c | Err _ => Get end;
            rs_payload := PError (native_decode_error_code e) (debug_error e) |}
    else bs = [].
Proof.
  intros Hf He. pose proof (frame_error_of frame maxlen e Hf He) as Herr.
  destruct (frame_error_text e Herr) as [Htext Hlen]. split_and!.
  - pose proof (find_complete [frame] [] maxlen) as Hfind. simpl in Hfind.
    rewrite !app_nil_r in Hfind. apply Hfind; [by constructor|by left].
  - by destruct e.
  - rewrite execute_paths, He. unfold respond_decode_error, native_decode_error_response.
    rewrite (proj2 (N.ltb_ge _ _)) by (destruct Hf; lia). cbn [orb].
    case_bool_decide; cbn [negb]; [|by exists []].
    set (resp := {| rs_request_id := _ |}).
    assert (response_frame_ok resp) as Hok.
    { split_and!; simpl.
      - pose proof (from_be_bytes_lt (slice frame 8 16)) as Hlt.
        rewrite len_slice in Hlt by (destruct Hf; unfold HEADER_LEN in *; lia).
        change (256 ^ (16 - 8)) with (U64_MAX + 1) in Hlt. lia.
      - split; [by apply ascii_text_ok|]. unfold U32_MAX. lia.
      - unfold write_string, write_bytes, write_u16, write_u32, push.
        autorewrite with cbx_len. unfold U32_MAX. lia. }
    rewrite (encode_response_bytes resp [] Hok). exists (response_bytes resp). split; [done|].
    rewrite <- (app_nil_r (response_bytes resp)). apply decode_response_bytes; [done|].
    apply Hok.
Qed.

(** Rejected frames, as the code treats them (the documents say that an invalid
    header closes the connection).  A complete frame of the stream that is not a valid
    request changes nothing.  If its magic is right it is answered with its
    request id, its command ([Get] when the id is unknown), the error code of
    the failure and its text; the code is never [FrameTooLarge].  If its magic
    is wrong nothing is written and the connection goes on. *)
Theorem server_rejects `{Engine.HashOrder, ShardEnv} clk frame maxlen conn st e :
  framed maxlen frame → decode_request_frame frame maxlen = Err e →
  find_complete_native_frames frame maxlen = Frames [(0, len frame)] ∧
  native_decode_error_code e ≠ FrameTooLarge ∧
  ∃ bs, execute_native_frame_bytes_into clk frame maxlen conn [] st = Some (bs, st) ∧
    if bool_decide (slice frame 0 4 = MAGIC)
    then decode_response_frame bs U32_MAX =
      Ok {| rs_request_id := from_be_bytes (slice frame 8 16);
            rs_command := match Command_from_id (index frame 6) with Ok c => c | Err _ => Get end;
            rs_payload := PError (native_decode_error_code e) (debug_error e) |}
    else bs = [].
Proof. apply reject_frame. Qed.

(** A get frame with a namespace the server does not accept. *)
Definition bad_namespace : bytes :=
  frame_bytes KIND_REQUEST Get 5
    (encode_request_payload (RGet "not a namespace" (as_bytes "k")) []).

Lemma server_rejects_witness :
  ∃ bs, @execute_native_frame_bytes_into Engine.canonical_order ShardedSpec.ShardedSpec.demo_env
      (Engine.manual_clock 0) bad_namespace 1024 1 [] sample_state = Some (bs, sample_state) ∧
    decode_response_frame bs U32_MAX =
      Ok {| rs_request_id := 5; rs_command := Get;
            rs_payload := PError InvalidNamespace "InvalidNamespace" |}.
Proof.
  destruct (@server_rejects Engine.canonical_order ShardedSpec.ShardedSpec.demo_env
    (Engine.manual_clock 0) bad_namespace 1024 1 sample_state DInvalidNamespace)
    as (_ & _ & bs & H1 & H2).
  - split; vm_compute; [reflexivity | discriminate].
  - vm_compute. reflexivity.
  - exists bs. split; [exact H1|]. rewrite bool_decide_eq_true_2 in H2 by (vm_compute; reflexivity).
    rewrite H2. vm_compute. reflexivity.
Defined.

(** An oversized header drops what precedes it.  When the buffer holds
    complete requests followed by a header that declares too much, the
    connection is closed without executing or answering any of them. *)
Theorem oversized_drops_requests `{Engine.HashOrder, ShardEnv} clk maxlen conn c st fs t :
  Forall (framed maxlen) fs → oversized maxlen t → c_buffer c = concat fs ++ t →
  ∃ c', on_frames maxlen conn clk c st = Some (c', st) ∧ c_closed c' = true ∧
    c_output c' = c_output c ∧ c_channel c' = c_channel c ∧ c_backlog c' = c_backlog c.
Proof.
  intros Hfs Ht Hb. unfold on_frames. rewrite Hb, find_oversized by done.
  by eexists.
Qed.

Lemma oversized_drops_requests_witness :
  ∃ c', @on_frames Engine.canonical_order ShardedSpec.ShardedSpec.demo_env 1024 1
    (Engine.manual_clock 0)
    (received (request_bytes sample_get ++ frame_header KIND_REQUEST Get 1 4096) Conn_new) sample_state = Some (c', sample_state) ∧
    c_closed c' = true ∧ c_output c' = [].
Proof.
  destruct (@oversized_drops_requests Engine.canonical_order ShardedSpec.ShardedSpec.demo_env
    (Engine.manual_clock 0) 1024 1
    (received (request_bytes sample_get ++ frame_header KIND_REQUEST Get 1 4096) Conn_new) sample_state [request_bytes sample_get]
    (frame_header KIND_REQUEST Get 1 4096)) as (c' & H1 & H2 & H3 & _).
  - apply List.Forall_cons; [|apply List.Forall_nil]. split; vm_compute; [reflexivity|discriminate].
  - split; vm_compute; [discriminate|reflexivity].
  - reflexivity.
  - exists c'. split; [exact H1|]. split; [exact H2 | exact H3].
Defined.
End Rejects.
