(* ===== verification/ConnLive.v ===== *)
(** * ConnLive: every accepted frame is answered

    A connection cannot deadlock: while a frame it accepted is waiting, running
    or not yet written, some task can make a step.  Once the reading loop has
    ended every step uses up work, so the tasks come to rest, and then every
    accepted frame has been executed and its response written. *)

From S2P Require Import Prelude Bytes Protocol ProtocolFacts ProtocolSpec Engine Sharded.
From S2P Require Import ShardedSpec Server ServerFacts ServerSpec Connection ConnSpec Rejects.

Module ConnLive.
Import Protocol Codec ProtocolFacts ProtocolSpec Server ServerFacts ServerSpec Connection ConnSpec.
Import Rejects.
Import Sharded(ShardEnv).
Import ShardedSpec(demo_env, demo_sharded).

Section live.
Context `{Engine.HashOrder, ShardEnv} (lim : Engine.EngineLimits) (maxlen conn : N).

(** If the frame is a request, its response fits a frame, whatever the server
    holds. *)
Definition answerable (frame : bytes) : Prop :=
  ∀ f, decode_request_frame frame maxlen = Ok f → response_fits lim (rq_payload f).

(** A frame of the stream, valid or not, executes in every consistent state. *)
Lemma execute_total clk frame st :
  st_ok lim st → framed maxlen frame → answerable frame →
  ∃ r st', execute_native_frame_bytes_into clk frame maxlen conn [] st = Some (r, st') ∧
    st_ok lim st'.
Proof.
  intros Hst Hf Ha. destruct (decode_request_frame frame maxlen) as [f|e] eqn:Ed.
  - destruct (answer_decoded lim clk st frame f maxlen conn [] Hst Ed (Ha f Ed))
      as (r & st' & Heq & _ & Hst' & _). eauto.
  - destruct (reject_frame clk frame maxlen conn st e Hf Ed) as (_ & _ & bs & Heq & _). eauto.
Qed.

(** The steps left before the tasks are at rest. *)
Definition work (c : Conn) : nat :=
  4 * length (c_backlog c) + 3 * length (c_running c) + 2 * length (c_sending c) +
  length (c_channel c).

(** A run of [n] steps of the tasks, other parts of the server acting in
    between. *)
Inductive conn_works : nat → Conn → Conn → Prop :=
| works_none c : conn_works 0 c c
| works_step n c c1 c2 st st' :
    conn_works n c c1 → st_ok lim st → ConnStep maxlen conn [] c1 st c2 st' → st_ok lim st' →
    c2 ≠ c1 → conn_works (S n) c c2.

(** No task can make a step, in any state of the server. *)
Definition at_rest (c : Conn) : Prop :=
  ∀ st c' st', st_ok lim st → ConnStep maxlen conn [] c st c' st' → st_ok lim st' → c' = c.

Lemma work_tasks backlog running sending channel c :
  work (set_tasks backlog running sending channel c) =
  (4 * length backlog + 3 * length running + 2 * length sending + length channel)%nat.
Proof. done. Qed.

(** No deadlock. *)
Lemma work_progress recv c fs log sent st :
  conn_ok (st_ok lim) maxlen conn recv c fs log sent →
  Forall answerable (c_running c ++ c_backlog c) → (0 < work c)%nat → st_ok lim st →
  ∃ c' st', ConnStep maxlen conn [] c st c' st' ∧ st_ok lim st' ∧ (work c' < work c)%nat.
Proof.
  intros Hok Hans Hw Hst. destruct (co_bounds _ _ _ _ _ _ _ _ Hok) as [Hfl Hcap].
  destruct (c_running c) as [|f running] eqn:Er.
  2: { assert (f ∈ fs) as Hf.
       { rewrite <- (co_frames _ _ _ _ _ _ _ _ Hok), Er. set_solver. }
       pose proof (co_framed _ _ _ _ _ _ _ _ Hok) as Hfr. rewrite list.Forall_forall in Hfr.
       apply Forall_cons_1 in Hans as [Hf' _].
       destruct (execute_total (Engine.manual_clock 0) f st Hst (Hfr f Hf) Hf') as (r & st' & Hex & Hst').
       eexists _, st'. split; [by apply conn_act; eapply (conn_execute _ _ (Engine.manual_clock 0) c st [] f running)|].
       split; [done|]. rewrite work_tasks, !length_app. unfold work. rewrite Er. simpl. lia. }
  destruct (c_channel c) as [|first queue] eqn:Ec.
  - destruct (c_sending c) as [|r sending] eqn:Es.
    + destruct (c_backlog c) as [|f rest] eqn:Eb;
        [unfold work in Hw; rewrite Er, Ec, Es, Eb in Hw; simpl in Hw; lia|].
      eexists _, st. split; [apply conn_act; eapply conn_spawn; [done|rewrite Er, Es; by apply Nat.ltb_lt]|].
      split; [done|]. rewrite work_tasks, !length_app. unfold work. rewrite Eb. simpl. lia.
    + destruct (c_writer c) eqn:Ew; eexists _, st.
      * split; [apply conn_act; eapply (conn_send _ _ c st [] r sending); [done|done|rewrite Ec; by apply Nat.ltb_lt]|].
        split; [done|]. rewrite work_tasks, !length_app. unfold work. rewrite Es. simpl. lia.
      * split; [by apply conn_act; eapply (conn_send_fail _ _ c st [] r sending)|].
        split; [done|]. rewrite work_tasks. unfold work. rewrite Es. simpl. lia.
  - assert (c_writer c = true) as Ew.
    { pose proof (co_written _ _ _ _ _ _ _ _ Hok) as Hwr. unfold written in Hwr.
      destruct (c_writer c); [done|]. destruct Hwr. congruence. }
    destruct (coalesce_native_responses first queue) as [batch queue'] eqn:Eco.
    destruct (written_batch c sent first queue batch queue'
      (co_written _ _ _ _ _ _ _ _ Hok) Ew Ec Eco) as [_ Hle].
    eexists _, st. split; [by apply conn_act; eapply conn_write|]. split; [done|].
    unfold work. simpl. rewrite Ec. simpl. lia.
Qed.

(** Once the reading loop has ended, every step uses up work. *)
Lemma work_decreases chunk c st c' st' :
  ConnStep maxlen conn chunk c st c' st' → c_closed c = true →
  c_closed c' = true ∧ (c' = c ∨ (work c' < work c)%nat).
Proof.
  destruct 1 as [chunk c st c' st' Hact|c st st']; [|auto].
  destruct Hact as [? ? ? ? ? ? [Hop _]|? ? [Hop _]|? ? ? ? ? ? ? ? [Hop _]|c st f rest Hbl Hlt
    |clk c st before f after r st' Hrun Hex|c st before r after Hwr Hs Hlt
    |c st before r after Hwr Hs|c st first queue batch queue' Hwr Hch Hco
    |c st first queue batch queue' part Hwr Hch Hco Hpart]; intros Hcl;
    try congruence; (split; [done|]); right; unfold work; simpl.
  - rewrite Hbl, length_app. simpl. lia.
  - rewrite Hrun, !length_app. simpl. lia.
  - rewrite Hs, !length_app. simpl. lia.
  - rewrite Hs, !length_app. simpl. lia.
  - pose proof (coalesce_loop_spec first 1 queue) as Hs. unfold coalesce_native_responses in Hco.
    rewrite Hco in Hs. destruct Hs as (taken & Hq & _ & _). rewrite Hch, Hq.
    simpl. rewrite length_app. lia.
  - rewrite Hch. simpl. lia.
Qed.

(** The tasks only take up the frames that were waiting. *)
Lemma pending_shrinks chunk c st c' st' :
  ConnStep maxlen conn chunk c st c' st' → c_closed c = true →
  c_running c' ++ c_backlog c' ⊆ c_running c ++ c_backlog c.
Proof.
  destruct 1 as [chunk c st c' st' Hact|c st st']; [|done].
  destruct Hact as [? ? ? ? ? ? [Hop _]|? ? [Hop _]|? ? ? ? ? ? ? ? [Hop _]|c st f rest Hbl Hlt
    |clk c st before f after r st' Hrun Hex| | | |]; intros Hcl; try congruence; simpl; try done.
  - rewrite Hbl. set_solver.
  - rewrite Hrun. set_solver.
Qed.

Lemma works_run recv c st n c' :
  conn_run maxlen conn (st_ok lim) recv c st → c_closed c = true →
  Forall answerable (c_running c ++ c_backlog c) → conn_works n c c' →
  (n + work c' ≤ work c)%nat ∧ c_closed c' = true ∧
  Forall answerable (c_running c' ++ c_backlog c') ∧
  ∃ st', conn_run maxlen conn (st_ok lim) recv c' st'.
Proof.
  intros Hrun Hcl Hans. induction 1 as [c|n c c1 c2 st1 st2 Hw IH Hst1 Hstep Hst2 Hne].
  { split_and!; [lia|done|done|by eexists]. }
  destruct (IH Hrun Hcl Hans) as (Hle & Hcl1 & Hans1 & st1' & Hrun1).
  destruct (work_decreases _ _ _ _ _ Hstep Hcl1) as [Hcl2 [?|Hlt]]; [done|].
  split_and!; [lia|done| |].
  - rewrite list.Forall_forall in *. intros f Hf. apply Hans1.
    by apply (pending_shrinks _ _ _ _ _ Hstep).
  - exists st2. rewrite <- (app_nil_r recv). eapply conn_run_step; [|exact Hstep|done].
    rewrite <- (app_nil_r recv). eapply conn_run_step; [exact Hrun1|apply conn_other|done].
Qed.

(** With no work left, everything accepted is answered. *)
Lemma work_done recv c fs log sent :
  conn_ok (st_ok lim) maxlen conn recv c fs log sent → work c = 0%nat →
  fst <$> log ≡ₚ fs ∧ sent ≡ₚ snd <$> log ∧
  (if c_writer c then concat (c_output c) = concat sent
   else concat (c_output c) `prefix_of` concat sent).
Proof.
  intros [] Hw. unfold work in Hw.
  assert (c_backlog c = [] ∧ c_running c = [] ∧ c_sending c = [] ∧ c_channel c = [])
    as (Hb & Hr & Hs & Hc) by (split_and!; apply nil_length_inv; lia).
  rewrite Hb, Hr, !app_nil_r in co_frames0. rewrite Hs, app_nil_r in co_sent0.
  unfold written in co_written0. rewrite Hc in co_written0. simpl in co_written0.
  rewrite app_nil_r in co_written0. split_and!; [done..|]. destruct (c_writer c); naive_solver.
Qed.
End live.

(** C4: every accepted frame is answered.  Take any connection reached while
    the rest of the server keeps the shared state consistent, whose frames that
    wait or run have responses of at most [u32::MAX] bytes whatever the server
    holds.  While work is left some task can make a step that uses it up, so
    there is no deadlock between the permits, the channel and the writer.  Once
    the reading loop has ended, every run of the tasks, under any scheduling and
    with anything happening elsewhere in the server, is at most [work c] steps
    long, and where it comes to rest every frame taken from the stream has been
    executed once and, unless a write failed, its response has been written
    whole.  What is left in the buffer holds no complete frame, except when a
    header declaring more than the limit closed the connection: then the
    complete frames still in the buffer before that header are never
    executed. *)
Theorem connection_drains `{Engine.HashOrder, ShardEnv} lim maxlen conn recv c st :
  conn_run maxlen conn (st_ok lim) recv c st →
  Forall (answerable lim maxlen) (c_running c ++ c_backlog c) →
  ((0 < work c)%nat → ∀ st1, st_ok lim st1 →
    ∃ c' st', ConnStep maxlen conn [] c st1 c' st' ∧ st_ok lim st' ∧ (work c' < work c)%nat) ∧
  (c_closed c = true → ∀ n c', conn_works lim maxlen conn n c c' →
    (n ≤ work c)%nat ∧
    (at_rest lim maxlen conn c' →
      ∃ fs log sent, recv = concat fs ++ c_buffer c' ∧ Forall (framed maxlen) fs ∧
        (partial maxlen (c_buffer c') ∨ dropped maxlen (c_buffer c')) ∧
        Forall (answers (st_ok lim) maxlen conn) log ∧ fst <$> log ≡ₚ fs ∧ sent ≡ₚ snd <$> log ∧
        if c_writer c' then concat (c_output c') = concat sent
        else concat (c_output c') `prefix_of` concat sent)).
Proof.
  intros Hrun Hans. split.
  - intros Hw st1 Hst1. destruct (conn_run_ok _ _ _ _ _ _ Hrun) as (fs & log & sent & Hok).
    by eapply work_progress.
  - intros Hcl n c' Hw. destruct (works_run lim maxlen conn recv c st n c' Hrun Hcl Hans Hw)
      as (Hle & Hcl' & Hans' & st' & Hrun'). split; [lia|]. intros Hrest.
    destruct (conn_run_ok _ _ _ _ _ _ Hrun') as (fs & log & sent & Hok).
    pose proof (conn_run_P _ _ _ _ _ _ Hrun') as Hst'.
    pose proof (conn_run_rest _ _ _ _ _ _ Hrun') as Hbuf.
    destruct (decide (0 < work c')%nat) as [Hpos|Hzero].
    + destruct (work_progress lim maxlen conn recv c' fs log sent st' Hok Hans' Hpos Hst')
        as (c2 & st2 & Hstep & Hst2 & Hlt).
      rewrite (Hrest st' c2 st2 Hst' Hstep Hst2) in Hlt. lia.
    + exists fs, log, sent. destruct (work_done lim maxlen conn recv c' fs log sent Hok)
        as (? & ? & ?); [lia|]. destruct Hok. split_and!; try done.
      destruct Hbuf as [?|[_ ?]]; [by left|by right].
Qed.

(** Two requests arrive in one read, and the client closes its side. *)
Definition two_pings : bytes := request_bytes sample_ping ++ request_bytes sample_ping.

Definition accepted : Conn :=
  set_reader [] true [request_bytes sample_ping; request_bytes sample_ping] false Conn_new.

Definition closing : Conn :=
  set_reader [] true [] true
    (set_tasks [] [request_bytes sample_ping; request_bytes sample_ping] [] [] accepted).

Lemma closing_run :
  @conn_run Engine.canonical_order demo_env 1024 1
    (@st_ok demo_env ShardedSpec.demo_sharded_limits) two_pings closing sample_state.
Proof.
  rewrite <- (app_nil_r two_pings). eapply conn_run_step;
    [|apply conn_act; exact (@conn_eof Engine.canonical_order demo_env 1024 1
       (set_tasks [] [request_bytes sample_ping; request_bytes sample_ping] [] [] accepted)
       sample_state (conj eq_refl eq_refl))|apply sample_state_ok].
  rewrite <- (app_nil_r two_pings). eapply conn_run_step;
    [|apply conn_act; exact (@conn_spawn Engine.canonical_order demo_env 1024 1
       (set_tasks [request_bytes sample_ping] [request_bytes sample_ping] [] [] accepted)
       sample_state (request_bytes sample_ping) [] eq_refl ltac:(by apply Nat.ltb_lt))
    |apply sample_state_ok].
  rewrite <- (app_nil_r two_pings). eapply conn_run_step;
    [|apply conn_act; exact (@conn_spawn Engine.canonical_order demo_env 1024 1 accepted sample_state
       (request_bytes sample_ping) [request_bytes sample_ping] eq_refl ltac:(by apply Nat.ltb_lt))
    |apply sample_state_ok].
  change two_pings with ([] ++ two_pings). eapply conn_run_step;
    [apply conn_run_new, sample_state_ok| |apply sample_state_ok].
  apply conn_act, (@conn_read Engine.canonical_order demo_env 1024 1 (Engine.manual_clock 20)); [done|].
  assert (find_complete_native_frames two_pings 1024 = Frames [(0, 40); (40, 80)]) as Hfind
    by (vm_compute; reflexivity).
  unfold on_frames. cbn [received set_reader c_buffer Conn_new app]. rewrite Hfind. reflexivity.
Qed.

Lemma sample_ping_answerable :
  @answerable Engine.canonical_order demo_env ShardedSpec.demo_sharded_limits 1024
    (request_bytes sample_ping).
Proof.
  intros f Hf. assert (decode_request_frame (request_bytes sample_ping) 1024 = Ok sample_ping) as Hd
    by (vm_compute; reflexivity).
  rewrite Hd in Hf. injection Hf as <-. apply bound_fits. vm_compute. discriminate.
Qed.

Lemma connection_drains_witness :
  work closing = 6%nat ∧
  ∀ n c', @conn_works Engine.canonical_order demo_env ShardedSpec.demo_sharded_limits 1024 1
    n closing c' → (n ≤ 6)%nat ∧
    (@at_rest Engine.canonical_order demo_env ShardedSpec.demo_sharded_limits 1024 1 c' →
     ∃ fs (log : list (bytes * bytes)), two_pings = concat fs ++ c_buffer c' ∧ fst <$> log ≡ₚ fs).
Proof.
  split; [reflexivity|]. intros n c' Hn.
  destruct (@connection_drains Engine.canonical_order demo_env ShardedSpec.demo_sharded_limits
    1024 1 two_pings closing sample_state) as [_ H2].
  - exact closing_run.
  - repeat (apply List.Forall_cons; [exact sample_ping_answerable|]). apply List.Forall_nil.
  - destruct (H2 eq_refl n c' Hn) as [Hle Hrest]. split; [exact Hle|]. intros Hr.
    destruct (Hrest Hr) as (fs & log & sent & Hrecv & _ & _ & _ & Hlog & _).
    exists fs, log. split; [exact Hrecv | exact Hlog].
Defined.
End ConnLive.
