(* ===== verification/ServerInv.v ===== *)
(** * ServerInv: the state of the server

    From its start, through native frames of any connections, admin requests
    and ticks of the expiration worker, the state of the server stays
    consistent, and none of these panics.  This discharges the hypothesis
    [st_ok] of the theorems about requests and connections. *)

From S2P Require Import Prelude Bytes Protocol ProtocolFacts ProtocolSpec Engine Sharded.
From S2P Require Import ShardedInv ShardedSpec Consistent Server ServerFacts ServerSpec Connection ConnSpec.
From S2P Require Import Rejects ConnLive.

Module ServerInv.
Import Protocol Codec Server ServerFacts ConnSpec ConnLive.
Import Sharded(ShardEnv).
Import ShardedInv ShardedSpec Consistent.

Section server.
Context `{Engine.HashOrder, ShardEnv} (lim : Engine.EngineLimits) (maxlen : N).

(** One atomic change of the shared state. *)
Inductive AppStep : AppState → AppState → Prop :=
| app_native clk frame conn st response st' :
    framed maxlen frame → answerable lim maxlen frame →
    execute_native_frame_bytes_into clk frame maxlen conn [] st = Some (response, st') →
    AppStep st st'
| app_admin method path st response st' :
    handle_request method path st = Some (response, st') → AppStep st st'
| app_tick clk max_entries st : AppStep st (expiration_tick clk max_entries st).

Lemma total_admin method path : ServerFacts.total lim (handle_request method path) (λ _, True).
Proof.
  intros st Hst. unfold handle_request.
  assert (∀ c resp, ∃ a st', (hbind (count Metrics.admin_shard Metrics.requests_total) (λ _,
    hbind (count Metrics.admin_shard c) (λ _, hret resp))) st = Some (a : AdminResponse, st') ∧
    st_ok lim st' ∧ True) as Hcount.
  { intros c resp. eapply total_bind; [by apply total_count; apply Nat.ltb_lt| |done].
    intros [] _. by apply total_count_ret; [apply Nat.ltb_lt|]. }
  destruct (_ && _); [by eexists _, st|]. destruct (_ && _); apply Hcount.
Qed.

Lemma tick_ok clk n st : st_ok lim st → st_ok lim (expiration_tick clk n st).
Proof.
  intros [H1 H2 H3]. split; simpl; [by apply reclaim_consistent| |done].
  rewrite <- H2. unfold Sharded.reclaim_expired_budget. destruct (_ =? 0); [done|].
  by destruct (Sharded.reclaim_shards _ _ _ _).
Qed.

Lemma step_ok st st' : st_ok lim st → AppStep st st' → st_ok lim st'.
Proof.
  intros Hst Hstep. revert Hst. destruct Hstep as [clk frame conn st r st' Hf Ha Hex
    |method path st r st' Hex|clk n st]; intros Hst.
  - destruct (execute_total lim maxlen conn clk frame st Hst Hf Ha) as (r' & st1 & Heq & Hok). congruence.
  - destruct (total_admin method path st Hst) as (r' & st1 & Heq & Hok & _). congruence.
  - by apply tick_ok.
Qed.

Lemma start_state_ok st :
  Engine.max_memory_bytes lim < USIZE_MAX →
  from_limits (Engine.max_memory_bytes lim) (Engine.max_value_bytes lim) = Some st → st_ok lim st.
Proof.
  intros Hlim. unfold from_limits. set (l := {| Engine.max_memory_bytes := _ |}).
  replace l with lim by (by destruct lim).
  destruct (Sharded.with_limits lim) as [s|] eqn:E; [|done]. intros [= <-].
  unfold Sharded.with_limits in E. pose proof (sharded_new_inv lim _ _ Hlim E) as Hinv.
  split; simpl; [by apply inv_consistent| |done]. unfold Sharded.with_clock_and_limits in E.
  case_bool_decide; [done|]. by injection E as <-.
Qed.
End server.

(** The server's invariant.  A server starts for any memory limit below
    [usize::MAX], and in every state it reaches by frames of native connections
    whose responses fit, admin requests and cleanup ticks, in any order and at
    any clock, its engine is consistent, with the configured limits; in such a
    state every further frame, admin request and tick is executed without a
    panic. *)
Theorem server_invariant `{Engine.HashOrder, ShardEnv} lim maxlen :
  Engine.max_memory_bytes lim < USIZE_MAX →
  ∃ st0, from_limits (Engine.max_memory_bytes lim) (Engine.max_value_bytes lim) = Some st0 ∧
    ∀ st, rtc (AppStep lim maxlen) st0 st →
      consistent (engine st) ∧ Sharded.limits (engine st) = lim ∧
      (∀ clk conn frame, framed maxlen frame → answerable lim maxlen frame →
        is_Some (execute_native_frame_bytes_into clk frame maxlen conn [] st)) ∧
      (∀ method path, is_Some (handle_request method path st)).
Proof.
  intros Hlim. destruct (from_limits _ _) as [st0|] eqn:E0; [|done].
  exists st0. split; [done|]. intros st Hr.
  assert (st_ok lim st) as Hst.
  { apply (rtc_ind_r (st_ok lim) st0) in Hr; [done|by apply start_state_ok|].
    intros st1 st2 _ Hstep Hok. by eapply step_ok. }
  destruct Hst as [H1 H2 H3] eqn:Hok. split_and!; [done|done| |].
  - intros clk conn frame Hf Ha.
    destruct (execute_total lim maxlen conn clk frame st Hst Hf Ha) as (r & st' & -> & _). eauto.
  - intros method path. destruct (total_admin lim method path st Hst) as (r & st' & -> & _). eauto.
Qed.

Lemma server_invariant_witness :
  ∃ st0, from_limits (64 * 1024 * 1024) (8 * 1024 * 1024) = Some st0 ∧
    @consistent demo_env (engine st0).
Proof.
  destruct (@server_invariant Engine.canonical_order demo_env Engine.EngineLimits_default 1024
    ltac:(vm_compute; reflexivity)) as (st0 & H0 & Hall).
  exists st0. split; [exact H0|]. exact (proj1 (Hall st0 (rtc_refl _ st0))).
Defined.
End ServerInv.
