(* ===== verification/Worker.v ===== *)
(** * Worker: the expiration worker makes progress

    [spawn_expiration_worker] of [src/server.rs] runs one budgeted cleanup at
    each tick, while connections go on calling the engine.  [Turn] is one of
    the two.  While nothing is written, the entries of each shard only become
    fewer ([shrinks], from the abstract cache), so after enough ticks every
    entry that was due is gone. *)

From S2P Require Import Prelude Bytes Protocol Engine EngineInv EnginePut EngineOps Sharded.
From S2P Require Import ShardedInv ShardedSpec CacheSpec CacheEngine Server ServerFacts.

Module Worker.
Import Engine EngineInv EnginePut EngineOps Sharded ShardedInv ShardedSpec CacheSpec CacheEngine.
Import Server(AppState, engine, metrics, expiration_tick).

(** ** Calls that write nothing *)

Definition writes_nothing (op : Op) : bool :=
  match op with
  | OpPut _ | OpCompleteLease _ => false
  | _ => true
  end.

(** Every entry of [e'] is one of [e], up to its last access. *)
Definition shrinks (e e' : Engine) : Prop :=
  ∀ j it, item (view e' j) = Some it → item (view e j) = Some it.

#[export] Instance shrinks_preorder : PreOrder shrinks.
Proof. split; [by intros e j | intros e1 e2 e3 H1 H2 j it Hj; by apply H1, H2]. Qed.

(** In the abstract cache, an item is there because it was or was written. *)
Lemma run_shrinks place evs σ σ' id it :
  spec_run place evs σ σ' → Forall (λ ev, written ev = None) evs →
  item (σ' id) = Some it → item (σ id) = Some it.
Proof.
  induction 1 as [σ σ' Heq|ev evs σ σ1 σ' Hs Hr IH]; intros Hev Hit.
  - by rewrite <- (Heq id).
  - apply Forall_cons_1 in Hev as [Hw Hev].
    destruct (step_item place ev σ σ1 id it Hs (IH Hev Hit)) as [?|[? _]]; congruence.
Qed.

Section shrinking.
Context `{HashOrder}.

Lemma quiet_events clk op e :
  writes_nothing op = true → Forall (λ ev, written ev = None) (engine_events clk op e).
Proof.
  destruct op as [c|ns key u|ns keys|ns key|ns tag|ns key ttl|c|n]; try done;
    intros _; cbn [engine_events]; try by repeat constructor.
  revert clk e. induction keys as [|key keys IH]; intros clk e; [constructor|].
  cbn [batch_events]. destruct (Engine.get clk ns key e). by constructor.
Qed.

Lemma run_op_shrinks clk op e :
  engine_inv e → writes_nothing op = true → shrinks e (run_op clk op e).
Proof.
  intros Hinv Hop j it. eapply run_shrinks; [by apply engine_refines | by apply quiet_events].
Qed.

Lemma engine_reply_state clk op e : (engine_reply clk op e).2 = run_op clk op e.
Proof. by destruct op; cbn; repeat case_match; simplify_eq/=. Qed.
End shrinking.

Lemma shrinks_size e e' : shrinks e e' → Engine.len_entries e' ≤ Engine.len_entries e.
Proof.
  intros Hs. unfold Engine.len_entries. rewrite <- !size_dom.
  assert (dom (entries e') ⊆ dom (entries e)) as Hd; [|apply subseteq_size in Hd; lia].
  intros j [en Hj]%elem_of_dom. apply elem_of_dom.
  destruct (proj1 (view_entry e j (item_of en))) as (? & ? & _); [|eauto].
  apply Hs, view_entry. eauto.
Qed.

(** ** Sharded engines *)

Definition sshrinks (s s' : ShardedEngine) : Prop := Forall2 shrinks (shards s) (shards s').

(** No entry of any shard is due at [now]. *)
Definition clean (now : N) (s : ShardedEngine) : Prop :=
  ∀ i e, shards s !! i = Some e → ∀ j it, item (view e j) = Some it → ¬ due now it.

Lemma sshrinks_size s s' : sshrinks s s' → Sharded.len_entries s' ≤ Sharded.len_entries s.
Proof.
  unfold sshrinks, Sharded.len_entries, sum_shards.
  induction 1 as [|e e' es es' He _ IH]; simpl; [done|]. apply shrinks_size in He. lia.
Qed.

Lemma sshrinks_clean now s s' : sshrinks s s' → clean now s → clean now s'.
Proof.
  intros Hs Hc i e' Hi j it Hit. destruct (Forall2_lookup_r _ _ _ _ _ Hs Hi) as (e & He & Hsh).
  by eapply Hc; [exact He | apply Hsh].
Qed.

Lemma len_entries_pos s i e :
  shards s !! i = Some e → 0 < Engine.len_entries e → 0 < Sharded.len_entries s.
Proof.
  unfold Sharded.len_entries, sum_shards. revert i.
  induction (shards s) as [|e' es IH]; intros [|i] Hi Hpos; simplify_eq/=; [lia|].
  specialize (IH i Hi Hpos). lia.
Qed.

Section sharded.
Context `{HashOrder, ShardEnv}.

Lemma sshrinks_insert s s' i e e' :
  shards s !! i = Some e → shrinks e e' → shards s' = <[i := e']> (shards s) → sshrinks s s'.
Proof.
  intros Hi Hsh Heq. unfold sshrinks. rewrite Heq.
  rewrite <- (list_insert_id (shards s) i e Hi) at 1.
  apply Forall2_insert; [|done]. apply Forall_Forall2_diag, Forall_true. by intros x j.
Qed.

Lemma batch_shrinks clk ns keys s os s' :
  sharded_inv s → batch_get clk ns keys s = Some (os, s') → sharded_inv s' ∧ sshrinks s s'.
Proof.
  revert clk s os. induction keys as [|key keys IH]; intros clk s os Hs; cbn [batch_get].
  - intros [= _ <-]. split; [done|]. apply Forall_Forall2_diag, Forall_true. by intros x j.
  - intros Hb. apply bind_Some in Hb as ([o s1] & Hg & Hb).
    apply bind_Some in Hb as ([os' s2] & Hb & [= _ ->]).
    destruct (keyed_spec clk (OpGet ns key true) _ s Hs eq_refl) as (e & s1' & He & Heq & Hs1 & Hsh).
    assert (s1' = s1) as ->.
    { simpl in Heq. apply fmap_Some in Heq as ([o' s1''] & Hg' & Heq').
      change (get_ref clk ns key s) with (get clk ns key s) in Hg'.
      injection Heq' as _ ->. congruence. }
    destruct (IH (clock_after 1 clk) s1 os' Hs1 Hb) as [Hs' Hsh']. split; [done|].
    assert (sshrinks s s1) as H1.
    { eapply sshrinks_insert; [exact He | |exact Hsh]. rewrite engine_reply_state.
      apply run_op_shrinks; [|done]. exact (so_inv _ _ _ (si_shards s Hs _ _ He)). }
    unfold sshrinks in *. by etrans.
Qed.

Lemma reclaim_shrinks clk m s : sharded_inv s → sshrinks s (reclaim_expired_budget clk m s).2.
Proof.
  intros Hs. unfold reclaim_expired_budget, sshrinks.
  destruct (m =? 0); [by apply Forall_Forall2_diag, Forall_true|].
  assert (Forall engine_inv (shards s)) as Hall.
  { apply Forall_lookup. intros i e Hi. exact (so_inv _ _ _ (si_shards s Hs i e Hi)). }
  assert (∀ es clk rem r, Forall engine_inv es →
    Forall2 shrinks es (reclaim_shards clk rem r es).2) as Hgen.
  { clear. intros es. induction es as [|e es IH]; intros clk rem r Hes; simpl; [constructor|].
    apply Forall_cons_1 in Hes as [He Hes].
    destruct (rem =? 0); [by apply Forall_Forall2_diag, Forall_true|].
    pose proof (run_op_shrinks clk (OpReclaim rem) e He eq_refl) as H1. cbn [run_op] in H1.
    destruct (Engine.reclaim_expired_budget clk rem e) as [n e1].
    specialize (IH (clock_after 1 clk) (rem -| n) (r + n) Hes).
    destruct (reclaim_shards _ _ _ es). by constructor. }
  specialize (Hgen (shards s) clk m 0 Hall).
  by destruct (reclaim_shards clk m 0 (shards s)).
Qed.

Lemma quiet_shrinks clk op s r s' :
  sharded_inv s → writes_nothing op = true → sharded_reply clk op s = Some (r, s') →
  sharded_inv s' ∧ sshrinks s s'.
Proof.
  intros Hs Hop Hr. destruct (sharded_reply_ok clk op s Hs) as (r0 & s0 & Hr0 & Hs0).
  rewrite Hr in Hr0. simplify_eq. split; [done|].
  destruct (op_key op) as [id|] eqn:Hk.
  { destruct (keyed_spec clk op id s Hs Hk) as (e & s1 & He & Heq & _ & Hsh).
    rewrite Hr in Heq. simplify_eq. eapply sshrinks_insert; [exact He | |exact Hsh].
    rewrite engine_reply_state. apply run_op_shrinks; [|done].
    exact (so_inv _ _ _ (si_shards s Hs _ _ He)). }
  destruct op as [c|ns key u|ns keys|ns key|ns tag|ns key ttl|c|n]; try done; simpl in Hr.
  - apply fmap_Some in Hr as ([os s1] & Hb & Heq). injection Heq as _ ->.
    by eapply batch_shrinks.
  - destruct (invalidate_spec ns tag s Hs) as (n & s1 & Heq & _ & Hsh & _).
    rewrite Heq in Hr. injection Hr as _ <-. unfold sshrinks. rewrite Hsh.
    apply Forall2_fmap_r, Forall_Forall2_diag, Forall_lookup. intros i e Hi.
    apply (run_op_shrinks (manual_clock 0) (OpInvalidateTag ns tag)); [|done].
    exact (so_inv _ _ _ (si_shards s Hs _ _ Hi)).
  - injection Hr as <- <-. by apply reclaim_shrinks.
Qed.

(** One cleanup removes its budget, or leaves nothing due. *)
Lemma reclaim_progress clk m now s :
  sharded_inv s → (∀ i, now ≤ clk i) →
  let s' := (reclaim_expired_budget clk m s).2 in
  sharded_inv s' ∧ (clean now s' ∨ m + Sharded.len_entries s' ≤ Sharded.len_entries s).
Proof.
  intros Hs Hclk s'. assert (sharded_inv s') as Hs' by by apply reclaim_inv. split; [done|].
  pose proof (sharded_reclaim_budget clk m s Hs) as Hb. unfold s' in *.
  destruct (reclaim_expired_budget clk m s) as [n s1]. simpl in *.
  destruct Hb as (Hle & Hsum & Hclean). destruct (N.lt_ge_cases n m) as [Hlt|Hge]; [left|right; lia].
  intros i e Hi j it Hit (t & Ht & Hdue). apply view_entry in Hit as (en & Hen & <-).
  assert ({| xk_expires_at_ms := t; xk_id := j |} ∈ expiry_index e) as Hk.
  { apply (inv_expiry e (so_inv _ _ _ (si_shards s1 Hs' i e Hi)) j); [done|]. exists en.
    split; [done|]. unfold entry_expiry_key. simpl in Ht. by rewrite Ht. }
  specialize (Hclean Hlt i e Hi _ Hk). specialize (Hclk i). simpl in Hclean. lia.
Qed.

(** ** The worker among calls *)

Inductive Turn :=
| Tick (clk : Clock)
| Call (clk : Clock) (op : Op).

(** A turn: a tick of the worker with its budget, or a call of a connection. *)
Definition turn (max_entries_per_tick : N) (t : Turn) (st : AppState) : option AppState :=
  match t with
  | Tick clk => Some (expiration_tick clk max_entries_per_tick st)
  | Call clk op =>
    '(_, s) ← sharded_reply clk op (engine st);
    Some {| Server.engine := s; Server.metrics := metrics st |}
  end.

Fixpoint turns (m : N) (l : list Turn) (st : AppState) : option AppState :=
  match l with
  | [] => Some st
  | t :: l => st ← turn m t st; turns m l st
  end.

Fixpoint ticks (l : list Turn) : N :=
  match l with
  | [] => 0
  | Tick _ :: l => ticks l + 1
  | Call _ _ :: l => ticks l
  end.

(** Every tick reads the clock at [now] or later, and no call writes. *)
Definition quiet_after (now : N) (t : Turn) : Prop :=
  match t with
  | Tick clk => ∀ i, now ≤ clk i
  | Call _ op => writes_nothing op = true
  end.

Lemma turns_clean m now l st st' :
  sharded_inv (engine st) → Forall (quiet_after now) l → turns m l st = Some st' →
  clean now (engine st) ∨ Sharded.len_entries (engine st) ≤ ticks l * m →
  clean now (engine st').
Proof.
  revert st. induction l as [|t l IH]; intros st Hs Hq Hr Hor.
  - simplify_eq/=. destruct Hor as [?|Hz]; [done|]. intros i e Hi j it Hit.
    apply view_entry in Hit as (en & Hen & _). exfalso.
    assert (0 < Sharded.len_entries (engine st')); [|lia].
    apply (len_entries_pos _ i e); [done|]. unfold Engine.len_entries.
    assert (size (entries e) ≠ 0%nat) by (apply map_size_ne_0_lookup; eauto). lia.
  - apply Forall_cons_1 in Hq as [Ht Hq]. cbn [turns] in Hr. apply bind_Some in Hr as (st1 & H1 & Hr).
    destruct t as [clk|clk op]; cbn [turn quiet_after ticks] in *.
    + injection H1 as <-. destruct (reclaim_progress clk m now (engine st) Hs Ht) as [Hs1 Hp].
      apply (IH (expiration_tick clk m st) Hs1 Hq Hr). destruct Hor as [Hc|Hle].
      * left. eapply sshrinks_clean; [by apply reclaim_shrinks | done].
      * destruct Hp as [?|Hp]; [by left|]. right. simpl. lia.
    + apply bind_Some in H1 as ([r s1] & H1 & [= <-]).
      destruct (quiet_shrinks clk op (engine st) r s1 Hs Ht H1) as [Hs1 Hsh].
      apply (IH {| Server.engine := s1; Server.metrics := metrics st |} Hs1 Hq Hr).
      destruct Hor as [Hc|Hle]; [left; by eapply sshrinks_clean|].
      right. apply sshrinks_size in Hsh. simpl. lia.
Qed.

Lemma turns_total m now l st :
  sharded_inv (engine st) → Forall (quiet_after now) l → is_Some (turns m l st).
Proof.
  revert st. induction l as [|t l IH]; intros st Hs Hq; [by eexists|].
  apply Forall_cons_1 in Hq as [Ht Hq]. cbn [turns]. destruct t as [clk|clk op]; cbn [turn].
  - simpl. apply IH; [by apply reclaim_inv | done].
  - destruct (sharded_reply_ok clk op (engine st) Hs) as (r & s1 & -> & Hs1). simpl. by apply IH.
Qed.
End sharded.

(** C13: the expiration worker makes progress.  Let the clock be at [now] or
    later and let calls that write nothing (reads, batches, deletions,
    invalidations, lease requests) run in between, in any order.  Once the
    ticks of the worker, each with its budget, add up to the number of entries
    stored at the start, no entry that was to be removed at [now] is stored in
    any shard; and no turn panics. *)
Theorem worker_reclaims `{HashOrder, ShardEnv} m now l st :
  sharded_inv (engine st) → Forall (quiet_after now) l →
  Sharded.len_entries (engine st) ≤ ticks l * m →
  ∃ st', turns m l st = Some st' ∧
    ∀ i e id en at_ms, shards (engine st') !! i = Some e → entries e !! id = Some en →
      removable_at_ms (e_expires_at_ms en) (e_stale_until_ms en) = Some at_ms → now < at_ms.
Proof.
  intros Hs Hq Hle. destruct (turns_total m now l st Hs Hq) as [st' Hr]. exists st'.
  split; [done|]. intros i e id en at_ms Hi He Hat.
  apply N.lt_nge. intros Hge.
  apply (turns_clean m now l st st' Hs Hq Hr (or_intror Hle) i e Hi id (item_of en)).
  - apply view_entry. eauto.
  - by exists at_ms.
Qed.

(** Three entries due at 110, one of them in the second shard. *)
Definition due_put (key : string) : PutCommand :=
  {| pc_namespace := "default"; pc_key := as_bytes key; pc_value := as_bytes "v";
     pc_ttl := Some {| milliseconds := 100 |}; pc_stale_ttl := None; pc_tags := []; pc_cost := None |}.

Definition due_trace : list (Clock * Op) :=
  [(manual_clock 10, OpPut (due_put "a")); (manual_clock 10, OpPut (due_put "b"));
   (manual_clock 10, OpPut (due_put "c"))].

Definition due_sharded : ShardedEngine :=
  default demo_new (@srun canonical_order demo_env due_trace demo_new).

Definition due_state : AppState :=
  {| Server.engine := due_sharded; Server.metrics := Server.Metrics.Metrics_default |}.

Lemma due_sharded_inv : @sharded_inv demo_env due_sharded.
Proof.
  apply (@sreachable_inv canonical_order demo_env demo_sharded_limits 2 demo_new);
    [done | reflexivity |].
  apply (@srun_reachable canonical_order demo_env due_trace). unfold due_sharded.
  assert (bool_decide (is_Some (@srun canonical_order demo_env due_trace demo_new)) = true)
    as Hsome by (vm_compute; reflexivity).
  by destruct (@srun canonical_order demo_env due_trace demo_new).
Qed.

(** Two ticks of two, with a read in between. *)
Definition due_turns : list Turn :=
  [Tick (manual_clock 110); Call (manual_clock 110) (OpGet "default" (as_bytes "a") true);
   Tick (manual_clock 111)].

Lemma worker_reclaims_witness :
  Sharded.len_entries due_sharded = 3 ∧
  ∃ st', @turns canonical_order demo_env 2 due_turns due_state = Some st' ∧
    ∀ i e id en at_ms, shards (engine st') !! i = Some e → entries e !! id = Some en →
      removable_at_ms (e_expires_at_ms en) (e_stale_until_ms en) = Some at_ms → 110 < at_ms.
Proof.
  assert (Sharded.len_entries due_sharded = 3) as Hlen by (vm_compute; reflexivity).
  split; [exact Hlen|].
  apply (@worker_reclaims canonical_order demo_env 2 110 due_turns due_state).
  - exact due_sharded_inv.
  - repeat constructor; unfold manual_clock; intros; discriminate.
  - change (engine due_state) with due_sharded. rewrite Hlen. vm_compute. discriminate.
Defined.
End Worker.
