(* ===== verification/System.v ===== *)
(** * System: the server with all its connections

    The parts of [src/server.rs] together: the listeners of [run] accept
    connections, each with the next id of [NEXT_NATIVE_CONNECTION_ID]; every
    connection makes the steps of [Connection] on the state they share; admin
    requests and the ticks of the expiration worker run in between.  A step of a
    connection that executes a frame makes its call of the engine in one go;
    between any two steps the critical sections of other calls in progress
    ([Concurrent]) run in any order, so a step also finds the states in which
    calls are half done.  Each connection of the system is then a run of
    [Connection] whose environment is the rest of the server, so its theorems
    hold of all of them at once. *)

From S2P Require Import Prelude Bytes Protocol Engine EngineOps Sharded ShardedInv ShardedSpec.
From S2P Require Import Concurrent Consistent Server ServerFacts ServerSpec Connection ConnSpec.
From S2P Require Import ConnRun ConnLive ServerInv.

Module System.
Import Protocol Codec Server ServerFacts ServerSpec Connection ConnRun ConnSpec ConnLive ServerInv.
Import Sharded(ShardEnv, ShardedEngine).
Import EngineOps(Op(..)). Import ShardedInv ShardedSpec Concurrent Consistent.

(** ** State and steps *)

(** A connection that was accepted, and the bytes it has received. *)
Record Session := { se_id : N; se_recv : bytes; se_conn : Conn }.

(** The shared state, the next connection id, the connections, and the calls of
    the engine that have run some of their critical sections and not the
    others. *)
Record System := {
  sy_state : AppState;
  sy_next_id : N;
  sy_sessions : list Session;
  sy_calls : list Task
}.

(** The server before the first connection; ids start at 1. *)
Definition System_new (st : AppState) : System :=
  {| sy_state := st; sy_next_id := 1; sy_sessions := []; sy_calls := [] |}.

(** [accept], and the start of [handle_native_connection] in its own task. *)
Definition accept (s : System) : System :=
  {| sy_state := sy_state s; sy_next_id := (sy_next_id s + 1) mod (U64_MAX + 1);
     sy_sessions := sy_sessions s ++
       [{| se_id := sy_next_id s; se_recv := []; se_conn := Conn_new |}];
     sy_calls := sy_calls s |}.

Definition set_state (st : AppState) (s : System) : System :=
  {| sy_state := st; sy_next_id := sy_next_id s; sy_sessions := sy_sessions s;
     sy_calls := sy_calls s |}.

(** Session [k] has received [chunk] more and is now at [c]. *)
Definition set_session (k : nat) (se : Session) (chunk : bytes) (c : Conn) (st : AppState)
    (s : System) : System :=
  {| sy_state := st; sy_next_id := sy_next_id s;
     sy_sessions := <[k := {| se_id := se_id se; se_recv := se_recv se ++ chunk; se_conn := c |}]>
       (sy_sessions s);
     sy_calls := sy_calls s |}.

(** The engine and the calls in progress on it. *)
Definition calls (s : System) : Concurrent.Config :=
  {| state := engine (sy_state s); tasks := sy_calls s |}.

Definition set_calls (c : Concurrent.Config) (s : System) : System :=
  {| sy_state := {| engine := state c; metrics := metrics (sy_state s) |};
     sy_next_id := sy_next_id s; sy_sessions := sy_sessions s; sy_calls := tasks c |}.

Section system.
Context `{Engine.HashOrder, ShardEnv} (maxlen max_entries_per_tick : N).

Inductive SysStep : System → System → Prop :=
| sys_accept s : SysStep s (accept s)
| sys_conn s k se chunk c st :
    sy_sessions s !! k = Some se →
    ConnAct maxlen (se_id se) chunk (se_conn se) (sy_state s) c st →
    SysStep s (set_session k se chunk c st s)
| sys_admin s method path response st :
    handle_request method path (sy_state s) = Some (response, st) →
    SysStep s (set_state st s)
| sys_tick s clk :
    SysStep s (set_state (expiration_tick clk max_entries_per_tick (sy_state s)) s)
| sys_section s a c :
    exec a (calls s) = Some c → SysStep s (set_calls c s).

(** ** The shared state *)

(** A property of the state that the counters and the calls of the engine
    preserve, the expiration worker's among them. *)
Record preserved (P : AppState → Prop) : Prop := {
  pv_count : ∀ m c st st', P st → count m c st = Some (tt, st') → P st';
  pv_reply : ∀ clk op st r s', P st → sharded_reply clk op (engine st) = Some (r, s') →
    P {| engine := s'; metrics := metrics st |}
}.

Section kept.
Context (P : AppState → Prop) (HP : preserved P).

(** A handler that, when it does not panic, preserves [P]. *)
Definition keeps {A} (h : Handler A) : Prop :=
  ∀ st a st', P st → h st = Some (a, st') → P st'.

Lemma keeps_ret {A} (a : A) : keeps (hret a).
Proof. by intros st a' st' Hst [= <- <-]. Qed.

Lemma keeps_bind {A B} (h : Handler A) (k : A → Handler B) :
  keeps h → (∀ a, keeps (k a)) → keeps (hbind h k).
Proof.
  intros Hh Hk st b st' Hst. unfold hbind. destruct (h st) as [[a st1]|] eqn:E; [|done].
  intros Hb. eapply Hk; [|exact Hb]. by eapply Hh.
Qed.

Lemma keeps_count m c : keeps (count m c).
Proof. intros st [] st' Hst Heq. by eapply pv_count. Qed.

Lemma keeps_encoded o : keeps (encoded o).
Proof. intros st bs st' Hst. by destruct o; intros [= <- <-]. Qed.

Lemma keeps_call {A} (f : ShardedEngine → option (A * ShardedEngine)) clk op (inj : A → Reply) :
  (∀ a b, inj a = inj b → a = b) → (∀ s, sharded_reply clk op s = rmap inj <$> f s) →
  keeps (call f).
Proof.
  intros Hi Hf st a st' Hst. unfold call. destruct (f (engine st)) as [[a1 s1]|] eqn:E; [|done].
  intros [= <- <-]. apply (pv_reply P HP clk op st (inj a1) s1 Hst). by rewrite Hf, E.
Qed.

#[local] Hint Resolve keeps_ret keeps_count keeps_encoded : cbx.

Lemma keeps_batch_items m os : keeps (batch_items m os).
Proof.
  induction os as [|o os IH]; cbn [batch_items]; [apply keeps_ret|].
  destruct o; (apply keeps_bind; [apply keeps_count|]; intros _;
    apply keeps_bind; [exact IH|]; intros; apply keeps_ret).
Qed.

Lemma keeps_execute clk m p : keeps (execute_native_payload_with_metrics clk m p).
Proof.
  destruct p as [ns key|ns key md value|ns key|ns keys|ns tag|ns key ttl allow
                |ns key token md value]; cbn [execute_native_payload_with_metrics];
    [unfold execute_native_get| | | | |unfold execute_native_lease_start|];
    repeat (apply keeps_bind; [solve [eauto with cbx]|intros _]).
  - apply keeps_bind.
    + by apply (keeps_call _ clk (OpGet ns key true) RpGet); [intros ?? [=]|].
    + intros []; (apply keeps_bind; eauto with cbx).
  - apply keeps_bind.
    + by apply (keeps_call _ clk (OpPut (native_put_command ns key md value)) RpPut); [intros ?? [=]|].
    + intros []; [|apply keeps_bind]; eauto with cbx.
  - apply keeps_bind; [|eauto with cbx].
    by apply (keeps_call _ clk (OpDelete ns key) RpDeleted); [intros ?? [=]|].
  - apply keeps_bind.
    + by apply (keeps_call _ clk (OpBatchGet ns keys) RpBatch); [intros ?? [=]|].
    + intros os. apply keeps_bind; [apply keeps_batch_items|]. eauto with cbx.
  - apply keeps_bind; [|eauto with cbx].
    by apply (keeps_call _ clk (OpInvalidateTag ns tag) RpRemoved); [intros ?? [=]|].
  - apply keeps_bind.
    + by apply (keeps_call _ clk (OpStartLease ns key ttl) RpLease); [intros ?? [=]|].
    + intros []; (apply keeps_bind; eauto with cbx).
  - apply keeps_bind.
    + by apply (keeps_call _ clk (OpCompleteLease
        (native_complete_command ns key token md value)) RpComplete); [intros ?? [=]|].
    + intros [|[|]]; [|apply keeps_bind..]; eauto with cbx.
Qed.

Lemma keeps_frame clk frame conn out : keeps (execute_native_frame_bytes_into clk frame maxlen conn out).
Proof.
  intros st bs st' Hst. rewrite execute_paths. destruct (decode_request_frame frame maxlen) as [f|e].
  - apply keeps_bind; [|eauto with cbx|done]. apply keeps_bind; [apply keeps_execute|eauto with cbx].
  - unfold respond_decode_error. destruct (native_decode_error_response frame e);
      [by apply keeps_encoded | by apply keeps_ret].
Qed.

Lemma keeps_inline clk conn frames out : keeps (serve_inline maxlen conn clk frames out).
Proof.
  revert out. induction frames as [|f frames IH]; intros out; cbn [serve_inline]; [apply keeps_ret|].
  apply keeps_bind; [apply keeps_frame|auto].
Qed.

Lemma keeps_on_frames clk conn c : keeps (on_frames maxlen conn clk c).
Proof.
  unfold on_frames. destruct (find_complete_native_frames (c_buffer c) maxlen) as [ranges| |];
    [|apply keeps_ret..].
  destruct (_ || _); [apply keeps_ret|]. apply keeps_bind; [apply keeps_inline|intros; apply keeps_ret].
Qed.

Lemma keeps_admin method path : keeps (handle_request method path).
Proof.
  unfold handle_request. intros st a st' Hst. destruct (_ && _); [by intros [= _ <-]|].
  assert (∀ c c' resp, keeps (hbind (count c c') (λ _, hret (resp : AdminResponse)))) as Hc.
  { intros. apply keeps_bind; [apply keeps_count|intros; apply keeps_ret]. }
  destruct (_ && _); (apply keeps_bind; [apply keeps_count|intros; apply Hc|done]).
Qed.

Lemma keeps_tick clk n st : P st → P (expiration_tick clk n st).
Proof.
  intros Hst. unfold expiration_tick.
  destruct (Sharded.reclaim_expired_budget clk n (engine st)) as [k s'] eqn:E.
  apply (pv_reply P HP clk (OpReclaim n) st (RpRemoved k) s' Hst). simpl. by rewrite E.
Qed.

Lemma keeps_act conn chunk c st c' st' :
  ConnAct maxlen conn chunk c st c' st' → P st → P st'.
Proof.
  destruct 1 as [clk chunk c st c' st' Hrd Hon|c st Hrd
    |clk chunk c st c' st' r part Hrd Hon Hp' Hout Hpart|c st f rest Hbl Hlt
    |clk c st before f after r st' Hrun Hex|c st before r after Hwr Hs Hlt
    |c st before r after Hwr Hs|c st first queue batch queue' Hwr Hch Hco
    |c st first queue batch queue' part Hwr Hch Hco Hpart]; intros Hst; try done.
  - by eapply keeps_on_frames.
  - by eapply keeps_on_frames.
  - by eapply keeps_frame.
Qed.
End kept.

Context (lim : Engine.EngineLimits) (n : nat).

(** A consistent state with [n] shards. *)
Definition st_len (st : AppState) : Prop :=
  st_ok lim st ∧ length (Sharded.shards (engine st)) = n.

Lemma st_len_preserved : preserved st_len.
Proof.
  split.
  - intros m c st st' [[H1 H2 H3] H4]. unfold count.
    destruct (Metrics.m_shards (metrics st) !! m) eqn:E; [|done]. intros [= <-].
    split; [|done]. split; simpl; [done|done|]. by rewrite length_insert.
  - intros clk op st r s' [[H1 H2 H3] H4] Heq.
    destruct (sharded_reply_shape _ _ _ _ _ Heq) as [Hn Hl]. split; [|simpl; congruence].
    split; simpl; [|congruence|done].
    destruct (reply_consistent clk op (engine st) H1) as (r1 & s1 & Heq1 & Hs1). congruence.
Qed.

(** ** The invariant of the system *)

(** Session [k] is a run of its connection up to the present state. *)
Definition session_ok (st : AppState) (se : Session) : Prop :=
  conn_run maxlen (se_id se) (st_ok lim) (se_recv se) (se_conn se) st.

Record sys_ok (s : System) : Prop := {
  syo_state : st_len (sy_state s);
  syo_calls : Forall (task_ok (engine (sy_state s))) (sy_calls s);
  syo_sessions : Forall (session_ok (sy_state s)) (sy_sessions s)
}.

Lemma calls_inv s : sys_ok s → conc_inv (calls s).
Proof. intros [[[[H1 H2 H3 _] _ _] _] Hc _]. by split. Qed.

(** The rest of the server is the environment of a session. *)
Lemma session_env st st' se : st_ok lim st' → session_ok st se → session_ok st' se.
Proof.
  intros Hst Hse. unfold session_ok. rewrite <- (app_nil_r (se_recv se)).
  eapply conn_run_step; [exact Hse|apply conn_other|done].
Qed.

Lemma sessions_env st st' l :
  st_ok lim st' → Forall (session_ok st) l → Forall (session_ok st') l.
Proof. intros Hst. apply Forall_impl. intros se. by apply session_env. Qed.

Lemma tasks_env st st' ts :
  st_len st → st_len st' → Forall (task_ok (engine st)) ts → Forall (task_ok (engine st')) ts.
Proof.
  intros [[_ H1 _] H2] [[_ H3 _] H4]. apply Forall_impl. intros t. apply task_ok_shape.
  split; congruence.
Qed.

Lemma set_state_ok st s : st_len st → sys_ok s → sys_ok (set_state st s).
Proof.
  intros Hst [Hs Hc Hl]. split; simpl; [done|by eapply tasks_env|].
  eapply sessions_env; [apply Hst|done].
Qed.

(** A critical section of a call in progress. *)
Lemma set_calls_ok a c s : sys_ok s → exec a (calls s) = Some c → sys_ok (set_calls c s).
Proof.
  intros Hs Hex. pose proof (calls_inv s Hs) as Hc.
  assert (same_shape (engine (sy_state s)) (state c) ∧ conc_inv c) as [[Hn Hl] Hc'].
  { split; [|eapply cstep_inv; [exact Hc|by eapply cstep_exec]]. destruct a as [clk op|k].
    - destruct (begin_ok clk op _ Hc) as (s' & ts & Heq & [Hsh _] & _). simpl in Hex, Heq.
      rewrite Heq in Hex. by injection Hex as <-.
    - simpl in Hex. destruct (sy_calls s !! k) as [t|] eqn:Ek; [|done]. simpl in Hex.
      destruct (next_ok t _ Hc) as (s' & ts & Heq & [Hsh _] & _).
      { exact (Forall_lookup_1 _ _ _ _ (ci_tasks _ Hc) Ek). }
      simpl in Heq. rewrite Heq in Hex. by injection Hex as <-. }
  destruct Hs as [[[_ H2 H3] H4] _ Hse]. assert (st_len (sy_state (set_calls c s))) as Hst.
  { split; [|simpl; congruence]. split; simpl; [by apply conc_consistent|congruence|done]. }
  split; [done|apply Hc'|]. eapply sessions_env; [apply Hst|done].
Qed.

Lemma sys_step_ok s s' : sys_ok s → SysStep s s' → sys_ok s'.
Proof.
  intros Hs Hstep. revert Hs. destruct Hstep as [s|s k se chunk c st Hk Hact|s method path r st Hex
    |s clk|s a c Hex]; intros Hs.
  - destruct Hs as [Hst Hc Hs]. split; [done|done|]. simpl. apply Forall_app. split; [done|].
    apply Forall_singleton. apply conn_run_new, Hst.
  - pose proof Hs as [Hst Hc Hall].
    pose proof (keeps_act _ st_len_preserved _ _ _ _ _ _ Hact Hst) as Hst'.
    split; [done|exact (tasks_env _ _ _ Hst Hst' Hc)|]. simpl. apply Forall_insert.
    + eapply sessions_env; [apply Hst'|done].
    + unfold session_ok. simpl. eapply conn_run_step; [|apply conn_act, Hact|apply Hst'].
      exact (Forall_lookup_1 _ _ _ _ Hall Hk).
  - apply set_state_ok; [|done]. destruct Hs as [Hst _ _].
    by eapply (keeps_admin _ st_len_preserved).
  - apply set_state_ok; [|done]. apply keeps_tick; [apply st_len_preserved|apply Hs].
  - by eapply set_calls_ok.
Qed.

Lemma sys_reachable_ok st s :
  st_len st → rtc SysStep (System_new st) s → sys_ok s.
Proof.
  intros Hst Hr. apply (rtc_ind_r sys_ok (System_new st)) in Hr; [done|by split|].
  intros s1 s2 _ Hstep Hs. by eapply sys_step_ok.
Qed.

(** ** Ids *)

(** The [i]-th connection has id [i + 1], modulo 2^64. *)
Definition ids_ok (s : System) : Prop :=
  sy_next_id s = (1 + len (sy_sessions s)) mod (U64_MAX + 1) ∧
  ∀ i se, sy_sessions s !! i = Some se → se_id se = (1 + N.of_nat i) mod (U64_MAX + 1).

Lemma ids_step s s' : ids_ok s → SysStep s s' → ids_ok s'.
Proof.
  intros [Hn Hi] Hstep. revert Hn Hi.
  destruct Hstep as [s|s k se chunk c st Hk Hact|s method path r st Hex|s clk|s a c Hex];
    intros Hn Hi;
    split; simpl; try done.
  - rewrite Hn, N.Div0.add_mod_idemp_l, len_app. f_equal. unfold len. simpl. lia.
  - intros i se Hse. apply lookup_app_Some in Hse as [Hse|[Hle Hse]]; [by apply Hi|].
    apply list_lookup_singleton_Some in Hse as [Hz <-]. simpl. rewrite Hn. f_equal. unfold len. lia.
  - unfold len. rewrite length_insert. exact Hn.
  - intros i se' Hse. destruct (decide (i = k)) as [->|Hne].
    + rewrite list_lookup_insert_eq in Hse by (by eapply lookup_lt_Some). simplify_eq/=. by apply Hi.
    + rewrite list_lookup_insert_ne in Hse by done. by apply Hi.
Qed.

Lemma ids_reachable st s : rtc SysStep (System_new st) s → ids_ok s.
Proof.
  intros Hr. apply (rtc_ind_r ids_ok (System_new st)) in Hr; [done| |].
  - split; [done|]. intros i se Hi. by destruct i.
  - intros s1 s2 _ Hstep Hs. by eapply ids_step.
Qed.

Lemma ids_distinct s i j se se' :
  ids_ok s → len (sy_sessions s) ≤ U64_MAX → sy_sessions s !! i = Some se →
  sy_sessions s !! j = Some se' → se_id se = se_id se' → i = j.
Proof.
  intros [_ Hi] Hlen Hse Hse' Heq.
  pose proof (lookup_lt_Some _ _ _ Hse). pose proof (lookup_lt_Some _ _ _ Hse').
  rewrite (Hi i se Hse), (Hi j se' Hse') in Heq. unfold len in Hlen.
  rewrite !N.mod_small in Heq by lia. lia.
Qed.

(** A session with work left can go on, whatever the others do. *)
Lemma session_progress s k se :
  sys_ok s → sy_sessions s !! k = Some se →
  Forall (answerable lim maxlen) (c_running (se_conn se) ++ c_backlog (se_conn se)) →
  (0 < work (se_conn se))%nat →
  ∃ c st, SysStep s (set_session k se [] c st s) ∧ (work c < work (se_conn se))%nat.
Proof.
  intros [[Hst _] _ Hall] Hk Hans Hw. pose proof (Forall_lookup_1 _ _ _ _ Hall Hk) as Hrun.
  destruct (conn_run_ok _ _ _ _ _ _ Hrun) as (fs & log & sent & Hok).
  destruct (work_progress lim maxlen (se_id se) _ _ fs log sent (sy_state s) Hok Hans Hw Hst)
    as (c & st & Hstep & _ & Hlt).
  exists c, st. split; [|done]. apply sys_conn; [done|].
  inversion Hstep; subst; [done|lia].
Qed.
End system.

(** ** Claim *)

(** The server starts in a consistent state with its sixteen shards. *)
Lemma start_state_len `{Engine.HashOrder, ShardEnv} lim st :
  Engine.max_memory_bytes lim < USIZE_MAX →
  from_limits (Engine.max_memory_bytes lim) (Engine.max_value_bytes lim) = Some st →
  st_len lim Engine.DEFAULT_SHARD_COUNT st.
Proof.
  intros Hlim Hnew. split; [by apply start_state_ok|].
  unfold from_limits, Sharded.with_limits, Sharded.with_clock_and_limits in Hnew. simpl in Hnew.
  by injection Hnew as <-.
Qed.

(** C2: the whole server.  Started with any memory limit below [usize::MAX], in
    every state the server reaches by accepting connections, steps of any of
    them, admin requests, cleanup ticks and critical sections of engine calls
    that are in progress, in any order: every shard of the engine satisfies the
    engine invariant and holds only its own keys (of the routes of the tag
    directory nothing is claimed), and every call in progress can run its next
    section; no two of the connections accepted have the same id (up to 2^64 of
    them); on every connection the frames taken from its buffer are executed
    and answered at most once, the responses being those the handlers gave in
    consistent states of the shared server, and its buffer holds no complete
    frame unless an oversized header has closed it; and a connection with
    frames left whose responses always fit has a step of its own that brings it
    closer to rest, whatever the others are doing.  A step that executes a
    frame makes its engine call in one go; sections of other calls come before
    and after it. *)
Theorem system_serves `{Engine.HashOrder, ShardEnv} lim maxlen max_entries st0 s :
  Engine.max_memory_bytes lim < USIZE_MAX →
  from_limits (Engine.max_memory_bytes lim) (Engine.max_value_bytes lim) = Some st0 →
  rtc (SysStep maxlen max_entries) (System_new st0) s →
  (∀ i e, Sharded.shards (engine (sy_state s)) !! i = Some e →
     shard_ok (engine (sy_state s)) i e) ∧
  (∀ k, (k < length (sy_calls s))%nat → is_Some (exec (Next k) (calls s))) ∧
  (∀ i j se se', len (sy_sessions s) ≤ U64_MAX → sy_sessions s !! i = Some se →
     sy_sessions s !! j = Some se' → se_id se = se_id se' → i = j) ∧
  (∀ k se, sy_sessions s !! k = Some se →
     (∃ fs log sent, conn_ok (st_ok lim) maxlen (se_id se) (se_recv se) (se_conn se) fs log sent) ∧
     rest_ok maxlen (se_conn se) ∧
     (Forall (answerable lim maxlen) (c_running (se_conn se) ++ c_backlog (se_conn se)) →
      (0 < work (se_conn se))%nat →
      ∃ c st, SysStep maxlen max_entries s (set_session k se [] c st s) ∧
        (work c < work (se_conn se))%nat)).
Proof.
  intros Hlim Hnew Hr. pose proof (start_state_len lim st0 Hlim Hnew) as Hst0.
  pose proof (sys_reachable_ok maxlen max_entries lim _ st0 s Hst0 Hr) as Hs.
  pose proof (ids_reachable maxlen max_entries st0 s Hr) as Hids. split_and!.
  - intros i e. apply consistent_shard, (sto_inv _ _ (proj1 (syo_state _ _ _ _ Hs))).
  - intros k [t Ht]%lookup_lt_is_Some.
    destruct (exec_next_ok k t _ (calls_inv _ _ _ _ Hs) Ht) as (c' & -> & _). eauto.
  - intros i j se se' Hlen Hi Hj. by apply (ids_distinct s).
  - intros k se Hk. pose proof (Forall_lookup_1 _ _ _ _ (syo_sessions _ _ _ _ Hs) Hk) as Hrun.
    split_and!; [by eapply conn_run_ok|by eapply conn_run_rest|by eapply session_progress].
Qed.

(** ** A run of the server *)

(** Session [k] makes a move. *)
Definition session_move `{Engine.HashOrder, ShardEnv} (maxlen : N) (k : nat) (m : Move) (s : System) :
    option System :=
  se ← sy_sessions s !! k;
  '(c, st) ← move maxlen (se_id se) m (se_conn se) (sy_state s);
  Some (set_session k se (move_bytes m) c st s).

Lemma session_move_step `{Engine.HashOrder, ShardEnv} maxlen max_entries k m s s' :
  session_move maxlen k m s = Some s' → SysStep maxlen max_entries s s'.
Proof.
  intros (se & Hse & ([c st] & Hm%move_act & [= <-])%bind_Some)%bind_Some. by apply sys_conn.
Qed.

(** Two connections; a [put] has stored its entry and not yet registered its
    tag when the first connection reads the key. *)
Definition overlapping (st0 : AppState) : option System :=
  let s := accept (accept (System_new st0)) in
  c ← @exec Engine.canonical_order demo_env
        (Begin (Engine.manual_clock 10) (OpPut (demo_put "a" ["t"%string]))) (calls s);
  @session_move Engine.canonical_order demo_env 1024 0
    (MRead (Engine.manual_clock 20) (ProtocolSpec.ProtocolSpec.request_bytes sample_ping))
    (set_calls c s).

Lemma overlapping_reached st0 s :
  overlapping st0 = Some s →
  rtc (@SysStep Engine.canonical_order demo_env 1024 8) (System_new st0) s.
Proof.
  intros (c & Hex & Hm%(session_move_step _ 8))%bind_Some.
  eapply rtc_l; [apply sys_accept|]. eapply rtc_l; [apply sys_accept|].
  eapply rtc_l; [by eapply sys_section|]. by apply rtc_once.
Qed.

(** What the run shows: calls in progress, and the response of the first
    connection as the client decodes it. *)
Definition overlapping_view (s : System) : nat * option (result ResponseFrame DecodeError) :=
  (length (sy_calls s),
   se ← sy_sessions s !! 0%nat; r ← c_output (se_conn se) !! 0%nat;
   Some (decode_response_frame r U32_MAX)).

Lemma system_serves_witness :
  ∃ st0 s, from_limits 1048576 1024 = Some st0 ∧ overlapping st0 = Some s ∧
    overlapping_view s = (1%nat, Some (Ok {| rs_request_id := 9; rs_command := Get;
      rs_payload := PHit (as_bytes "v") |})) ∧
    (∀ i e, Sharded.shards (engine (sy_state s)) !! i = Some e →
       @shard_ok demo_env (engine (sy_state s)) i e) ∧
    is_Some (@exec Engine.canonical_order demo_env (Next 0) (calls s)).
Proof.
  destruct (from_limits 1048576 1024) as [st0|] eqn:E; [|discriminate E].
  assert (overlapping_view <$> (from_limits 1048576 1024 ≫= overlapping) =
    Some (1%nat, Some (Ok {| rs_request_id := 9; rs_command := Get;
      rs_payload := PHit (as_bytes "v") |}))) as Hv by (vm_compute; reflexivity).
  rewrite E in Hv. cbn [mbind option_bind] in Hv.
  destruct (overlapping st0) as [s|] eqn:Es; [|discriminate Hv].
  exists st0, s. split; [reflexivity|]. split; [exact Es|].
  assert (overlapping_view s = (1%nat, Some (Ok {| rs_request_id := 9; rs_command := Get;
      rs_payload := PHit (as_bytes "v") |}))) as Hview by exact (Some_inj _ _ Hv).
  split; [exact Hview|].
  destruct (@system_serves Engine.canonical_order demo_env
    {| Engine.max_memory_bytes := 1048576; Engine.max_value_bytes := 1024 |} 1024 8 st0 s)
    as (Hinv & Hnext & _).
  - vm_compute. reflexivity.
  - exact E.
  - exact (overlapping_reached st0 s Es).
  - split; [exact Hinv|]. apply Hnext. injection Hview as Hn _. rewrite Hn. apply Nat.lt_0_1.
Defined.
End System.
