(* ===== verification/Numbers.v ===== *)
(** * Numbers: the text of unsigned integers

    [str::parse] of the standard library at [u64] and [usize], and that it
    reads back what [Display] prints. *)

From Stdlib Require Import Strings.Ascii.
From S2P Require Import Prelude Bytes.

Module Numbers.

Definition digit (a : Ascii.ascii) : option N :=
  let n := Ascii.N_of_ascii a in
  if (48 <=? n) && (n <=? 57) then Some (n - 48) else None.

(** The value of a string of digits, read after [acc]. *)
Fixpoint digits (acc : N) (s : string) : option N :=
  match s with
  | EmptyString => Some acc
  | String a s => match digit a with Some d => digits (acc * 10 + d) s | None => None end
  end.

(** [s.parse::<u64>()] ([usize] on 64-bit targets): digits, at least one, after
    an optional ["+"].  A prefix of the digits never exceeds the whole, so that
    checking the result is checking every step for overflow. *)
Definition parse_unsigned (s : string) : option N :=
  let checked (s : string) : option N :=
    if bool_decide (s = ""%string) then None
    else match digits 0 s with
         | Some v => if v <=? U64_MAX then Some v else None
         | None => None
         end in
  match s with
  | String a s' => if bool_decide (a = "+"%char) then checked s' else checked s
  | EmptyString => None
  end.

(** ** Reading back what is printed *)

Lemma digit_char d : d < 10 → digit (pretty_N_char d) = Some d.
Proof.
  intros Hd. assert (d = 0 ∨ d = 1 ∨ d = 2 ∨ d = 3 ∨ d = 4 ∨ d = 5 ∨ d = 6 ∨ d = 7 ∨ d = 8 ∨ d = 9)
    as Hcases by lia.
  by repeat destruct Hcases as [->|Hcases]; subst.
Qed.

Lemma digits_pretty_go x s : digits 0 (pretty_N_go x s) = digits x s.
Proof.
  revert s. induction (N.lt_wf_0 x) as [x _ IH]; intros s.
  destruct (decide (x = 0)) as [->|Hx]; [by rewrite pretty_N_go_0|].
  rewrite pretty_N_go_step by lia. rewrite IH by (apply N.div_lt; lia). simpl.
  rewrite digit_char by (apply N.mod_lt; lia). f_equal.
  rewrite (N.div_mod x 10) at 3 by done. lia.
Qed.

Lemma digits_nonempty_plus x s a s' :
  pretty_N_go x s = String a s' → (s = String a s' ∨ a ≠ "+"%char).
Proof.
  revert s. induction (N.lt_wf_0 x) as [x _ IH]; intros s.
  destruct (decide (x = 0)) as [->|Hx]; [rewrite pretty_N_go_0; by left|].
  rewrite pretty_N_go_step by lia. intros Heq. right.
  destruct (IH (x / 10) ltac:(apply N.div_lt; lia) _ Heq) as [[= <- _]|Hne]; [|done].
  unfold pretty_N_char. by repeat case_match.
Qed.

Lemma digits_pretty n : digits 0 (pretty n) = Some n.
Proof.
  unfold pretty, pretty_N. case_decide as H0; [by subst|].
  pose proof (digits_pretty_go n "") as Hd. exact Hd.
Qed.

Lemma pretty_nonempty (n : N) : pretty n ≠ ""%string.
Proof.
  unfold pretty, pretty_N. case_decide as H0; [done|].
  pose proof (digits_pretty_go n "") as Hd. simpl in Hd. intros E. rewrite E in Hd. simpl in Hd.
  congruence.
Qed.

Lemma parse_unsigned_pretty n : n ≤ U64_MAX → parse_unsigned (pretty n) = Some n.
Proof.
  intros Hn. unfold pretty, pretty_N. case_decide as H0; [by subst|].
  pose proof (digits_pretty_go n "") as Hd. simpl in Hd.
  destruct (pretty_N_go n "") as [|a s] eqn:E.
  - simpl in Hd. congruence.
  - unfold parse_unsigned. rewrite bool_decide_eq_false_2.
    + rewrite bool_decide_eq_false_2 by done. rewrite Hd. by rewrite (proj2 (N.leb_le _ _)).
    + destruct (digits_nonempty_plus n "" a s E) as [?|?]; done.
Qed.

Lemma parse_unsigned_le s v : parse_unsigned s = Some v → v ≤ U64_MAX.
Proof.
  unfold parse_unsigned. intros Hs.
  by repeat (case_match || case_bool_decide); simplify_eq; apply N.leb_le.
Qed.
End Numbers.
