(* ===== verification/Addr.v ===== *)
(** * Addr: the text of socket addresses

    [str::parse::<SocketAddr>], which [src/config.rs] applies to the bind
    addresses: the standard library's recursive-descent parser over the bytes
    of the text.  A reader that fails leaves the input where it was
    ([read_atomically]), so a reader is a function from the input to a value
    and the rest, if any. *)

From Stdlib Require Import Strings.Ascii.
From S2P Require Import Prelude Bytes Numbers.

Module Addr.
Import Numbers.

Inductive SocketAddr :=
| V4 (octets : list N) (port : N)
| V6 (groups : list N) (scope_id port : N).

#[export] Instance SocketAddr_eq_dec : EqDecision SocketAddr.
Proof. solve_decision. Defined.

Definition Parser (A : Type) : Type := string → option (A * string).

(** [char::to_digit] for radix 10 and 16 *)
Definition to_digit (radix : N) (a : Ascii.ascii) : option N :=
  let n := Ascii.N_of_ascii a in
  let d := if (48 <=? n) && (n <=? 57) then Some (n - 48)
           else if (97 <=? n) && (n <=? 102) then Some (n - 87)
           else if (65 <=? n) && (n <=? 70) then Some (n - 55)
           else None in
  match d with Some d => if d <? radix then Some d else None | None => None end.

Definition read_given_char (c : Ascii.ascii) : Parser unit := λ s,
  match s with
  | String a s' => if bool_decide (a = c) then Some (tt, s') else None
  | EmptyString => None
  end.

(** The digit loop of [read_number]: the value, the number of digits and the
    rest.  With a maximum of digits the loop gives up past it; without one,
    when the value exceeds [bound]. *)
Fixpoint read_digits (radix : N) (max_digits : option nat) (bound : N) (count : nat) (result : N)
    (s : string) : option (N * nat * string) :=
  match s with
  | EmptyString => Some (result, count, s)
  | String a s' =>
    match to_digit radix a with
    | None => Some (result, count, s)
    | Some d =>
      let result := result * radix + d in
      if match max_digits with
         | Some m => bool_decide (m < S count)%nat
         | None => bound <? result
         end
      then None else read_digits radix max_digits bound (S count) result s'
    end
  end.

Definition leading_zero (s : string) : bool :=
  match s with String a _ => bool_decide (a = "0"%char) | EmptyString => false end.

Definition read_number (radix : N) (max_digits : option nat) (allow_zero_prefix : bool)
    (bound : N) : Parser N := λ s,
  match read_digits radix max_digits bound 0 0 s with
  | None => None
  | Some (result, count, rest) =>
    if bool_decide (count = 0%nat) then None
    else if negb allow_zero_prefix && leading_zero s && bool_decide (1 < count)%nat then None
    else if bound <? result then None
    else Some (result, rest)
  end.

(** [read_separator(sep, index, inner)] *)
Definition read_separator {A} (sep : Ascii.ascii) (index : nat) (inner : Parser A) : Parser A := λ s,
  match index with
  | O => inner s
  | S _ => '(_, s) ← read_given_char sep s; inner s
  end.

Definition read_octet (index : nat) : Parser N :=
  read_separator "." index (read_number 10 (Some 3%nat) false U8_MAX).

Definition read_ipv4_addr : Parser (list N) := λ s,
  '(a, s) ← read_octet 0 s;
  '(b, s) ← read_octet 1 s;
  '(c, s) ← read_octet 2 s;
  '(d, s) ← read_octet 3 s;
  Some ([a; b; c; d], s).

(** [read_groups] on the [left] slots that remain, from slot [i]: the groups
    read, whether they end in an IPv4 address, and the rest. *)
Fixpoint read_groups (left i : nat) (groups : list N) (s : string) : list N * bool * string :=
  match left with
  | O => (groups, false, s)
  | S left' =>
    match (if bool_decide (1 < left)%nat then read_separator ":" i read_ipv4_addr s else None) with
    | Some ([one; two; three; four], s) =>
      (groups ++ [one * 256 + two; three * 256 + four], true, s)
    | _ =>
      match read_separator ":" i (read_number 16 (Some 4%nat) true U16_MAX) s with
      | Some (g, s) => read_groups left' (S i) (groups ++ [g]) s
      | None => (groups, false, s)
      end
    end
  end.

Definition read_ipv6_addr : Parser (list N) := λ s,
  let '(head, head_ipv4, s) := read_groups 8 0 [] s in
  if bool_decide (length head = 8%nat) then Some (head, s)
  else if (head_ipv4 : bool) then None
  else
    '(_, s) ← read_given_char ":" s;
    '(_, s) ← read_given_char ":" s;
    let '(tail, _, s) := read_groups (8 - (length head + 1)) 0 [] s in
    Some (head ++ replicate (8 - length head - length tail) 0 ++ tail, s).

Definition read_port : Parser N := λ s,
  '(_, s) ← read_given_char ":" s; read_number 10 None true U16_MAX s.

Definition read_scope_id : Parser N := λ s,
  '(_, s) ← read_given_char "%" s; read_number 10 None true U32_MAX s.

Definition read_socket_addr_v4 : Parser SocketAddr := λ s,
  '(ip, s) ← read_ipv4_addr s;
  '(port, s) ← read_port s;
  Some (V4 ip port, s).

Definition read_socket_addr_v6 : Parser SocketAddr := λ s,
  '(_, s) ← read_given_char "[" s;
  '(ip, s) ← read_ipv6_addr s;
  let '(scope_id, s) := default (0, s) (read_scope_id s) in
  '(_, s) ← read_given_char "]" s;
  '(port, s) ← read_port s;
  Some (V6 ip scope_id port, s).

(** [SocketAddr::from_str]: the whole text is an address. *)
Definition parse_addr (s : string) : option SocketAddr :=
  match (match read_socket_addr_v4 s with Some r => Some r | None => read_socket_addr_v6 s end) with
  | Some (a, EmptyString) => Some a
  | _ => None
  end.

Example parse_v4 : parse_addr "127.0.0.1:7400" = Some (V4 [127; 0; 0; 1] 7400).
Proof. reflexivity. Qed.

Example parse_v6 : parse_addr "[fe80::1%3]:80" = Some (V6 [0xfe80; 0; 0; 0; 0; 0; 0; 1] 3 80).
Proof. reflexivity. Qed.

Example parse_v6_mapped :
  parse_addr "[::ffff:10.0.0.1]:1" = Some (V6 [0; 0; 0; 0; 0; 0xffff; 0x0a00; 1] 0 1).
Proof. reflexivity. Qed.

Example parse_rejects :
  parse_addr <$> ["localhost:1"; "127.0.0.1"; "127.0.0.01:1"; "127.0.0.256:1"; "127.0.0.1:65536";
                  "[::1:80"; "[1:2:3:4:5:6:7:8::]:1"]%string = replicate 7 None.
Proof. reflexivity. Qed.

(** ** Addresses that parse are addresses *)

Definition octets_ok (l : list N) : Prop := length l = 4%nat ∧ Forall (λ n, n ≤ U8_MAX) l.

Definition groups_ok (l : list N) : Prop := length l = 8%nat ∧ Forall (λ n, n ≤ U16_MAX) l.

Definition addr_ok (a : SocketAddr) : Prop :=
  match a with
  | V4 octets port => octets_ok octets ∧ port ≤ U16_MAX
  | V6 groups scope_id port => groups_ok groups ∧ scope_id ≤ U32_MAX ∧ port ≤ U16_MAX
  end.

Lemma read_number_le radix m z bound s v r :
  read_number radix m z bound s = Some (v, r) → v ≤ bound.
Proof.
  unfold read_number. destruct (read_digits _ _ _ _ _ s) as [[[w k] r']|]; [|done].
  intros Hr. destruct (bool_decide (k = 0%nat)); [done|]. destruct (_ && _ && _); [done|].
  destruct (N.ltb_spec bound w); [done|]. by injection Hr as <- <-.
Qed.

Lemma read_separator_le sep i m z radix bound s v r :
  read_separator sep i (read_number radix m z bound) s = Some (v, r) → v ≤ bound.
Proof.
  destruct i; simpl; [apply read_number_le|].
  intros ([[] s'] & _ & H)%bind_Some. by eapply read_number_le.
Qed.

Lemma read_ipv4_ok s l r : read_ipv4_addr s = Some (l, r) → octets_ok l.
Proof.
  unfold read_ipv4_addr, read_octet.
  intros ([a s1] & Ha%read_separator_le & H)%bind_Some.
  apply bind_Some in H as ([b s2] & Hb%read_separator_le & H).
  apply bind_Some in H as ([c s3] & Hc%read_separator_le & H).
  apply bind_Some in H as ([d s4] & Hd%read_separator_le & [= <- <-]).
  split; [done|]. by repeat constructor.
Qed.

Lemma read_separated_ipv4_ok i s l r :
  read_separator ":" i read_ipv4_addr s = Some (l, r) → octets_ok l.
Proof.
  destruct i; simpl; [apply read_ipv4_ok|].
  intros ([[] s'] & _ & H)%bind_Some. by eapply read_ipv4_ok.
Qed.

Lemma read_groups_ok left i gs s :
  Forall (λ n, n ≤ U16_MAX) gs →
  let '(l, _, _) := read_groups left i gs s in
  Forall (λ n, n ≤ U16_MAX) l ∧ (length l ≤ length gs + left)%nat.
Proof.
  revert i gs s. induction left as [|left IH]; intros i gs s Hgs; simpl; [split; [done|lia]|].
  destruct (if bool_decide (1 < S left)%nat then _ else None) as [[l r]|] eqn:E.
  - case_bool_decide as Hleft; [|done].
    apply read_separated_ipv4_ok in E as [Hl Hb].
    destruct l as [|a [|b [|c [|d [|]]]]]; try done.
    apply Forall_cons_1 in Hb as [? Hb]. apply Forall_cons_1 in Hb as [? Hb].
    apply Forall_cons_1 in Hb as [? Hb]. apply Forall_cons_1 in Hb as [? _].
    unfold U8_MAX, U16_MAX in *. split; [apply Forall_app; split; [done|]|].
    + repeat constructor; lia.
    + rewrite length_app. simpl. lia.
  - destruct (read_separator ":" i (read_number 16 (Some 4%nat) true U16_MAX) s) as [[g r]|] eqn:Eg.
    + apply read_separator_le in Eg. specialize (IH (S i) (gs ++ [g]) r).
      destruct (read_groups left (S i) (gs ++ [g]) r) as [[l b] r'].
      rewrite length_app in IH. simpl in IH. destruct IH as [H1 H2].
      * apply Forall_app. split; [done|]. by constructor.
      * split; [done|lia].
    + split; [done|lia].
Qed.

Lemma read_ipv6_ok s l r : read_ipv6_addr s = Some (l, r) → groups_ok l.
Proof.
  unfold read_ipv6_addr.
  pose proof (read_groups_ok 8 0 [] s ltac:(constructor)) as Hh.
  destruct (read_groups 8 0 [] s) as [[head v4] s1]. destruct Hh as [Hh Hlh]. simpl in Hlh.
  case_bool_decide as H8; [by intros [= <- <-]|]. destruct v4; [done|].
  intros ([[] s2] & _ & H)%bind_Some. apply bind_Some in H as ([[] s3] & _ & H).
  pose proof (read_groups_ok (8 - (length head + 1)) 0 [] s3 ltac:(constructor)) as Ht.
  destruct (read_groups (8 - (length head + 1)) 0 [] s3) as [[tail b] s4].
  destruct Ht as [Ht Hlt]. simpl in Hlt. injection H as <- <-.
  split; [rewrite !length_app, length_replicate; lia|].
  apply Forall_app. split; [done|]. apply Forall_app. split; [|done].
  apply Forall_replicate. unfold U16_MAX. lia.
Qed.

Lemma read_port_le s v r : read_port s = Some (v, r) → v ≤ U16_MAX.
Proof. intros ([[] s'] & _ & H)%bind_Some. by eapply read_number_le. Qed.

Lemma read_scope_le s : (default (0, s) (read_scope_id s)).1 ≤ U32_MAX.
Proof.
  destruct (read_scope_id s) as [[v r]|] eqn:E; simpl; [|unfold U32_MAX; lia].
  apply bind_Some in E as ([[] s'] & _ & H). by eapply read_number_le.
Qed.

Lemma parse_addr_ok s a : parse_addr s = Some a → addr_ok a.
Proof.
  unfold parse_addr. destruct (read_socket_addr_v4 s) as [[x r]|] eqn:E4.
  - destruct r; [|done]. intros [= <-].
    apply bind_Some in E4 as ([ip s1] & Hip%read_ipv4_ok & E4).
    apply bind_Some in E4 as ([port s2] & Hp%read_port_le & [= <- _]). done.
  - destruct (read_socket_addr_v6 s) as [[x r]|] eqn:E6; [|done]. destruct r; [|done].
    intros [= <-]. apply bind_Some in E6 as ([[] s1] & _ & E6).
    apply bind_Some in E6 as ([ip s2] & Hip%read_ipv6_ok & E6).
    pose proof (read_scope_le s2) as Hs. destruct (default (0, s2) (read_scope_id s2)) as [sc s3].
    apply bind_Some in E6 as ([[] s4] & _ & E6).
    apply bind_Some in E6 as ([port s5] & Hp%read_port_le & [= <- _]). done.
Qed.

(** ** Printing an IPv4 socket address *)

(** [Display for SocketAddrV4] *)
Definition display_v4 (a : SocketAddr) : string :=
  match a with
  | V4 [a; b; c; d] port =>
    pretty a +:+ String "." (pretty b +:+ String "." (pretty c +:+ String "."
      (pretty d +:+ String ":" (pretty port))))
  | _ => ""
  end.

Lemma read_char_eq c s : read_given_char c (String c s) = Some (tt, s).
Proof. unfold read_given_char. by rewrite bool_decide_eq_true_2. Qed.

Lemma read_octet_pretty n r c :
  n ≤ U8_MAX → c = "."%char ∨ c = ":"%char ∨ c = "]"%char ∨ c = "%"%char →
  read_number 10 (Some 3%nat) false U8_MAX (pretty n +:+ String c r) = Some (n, String c r).
Proof.
  intros Hn Hc. assert (n = Byte.to_N (byte_of_N n)) as Hb.
  { rewrite to_N_byte_of_N, N.mod_small; [done|]. unfold U8_MAX in Hn. lia. }
  rewrite Hb. generalize (byte_of_N n). clear Hn Hb n. intros b.
  destruct b, Hc as [-> | [-> | [-> | ->]]]; reflexivity.
Qed.

Lemma to_digit_10 a d : digit a = Some d → to_digit 10 a = Some d.
Proof. destruct a as [[] [] [] [] [] [] [] []]; by vm_compute. Qed.

Lemma digits_ge acc s v : digits acc s = Some v → acc ≤ v.
Proof.
  revert acc. induction s as [|a s IH]; intros acc; simpl; [intros [= ->]; lia|].
  destruct (digit a) as [d|]; [|done]. intros H%IH. lia.
Qed.

(** The text ends the number before it. *)
Definition no_digit (s : string) : Prop :=
  match s with EmptyString => True | String a _ => to_digit 10 a = None end.

Lemma read_digits_all bound k acc s v rest :
  digits acc s = Some v → v ≤ bound → no_digit rest →
  read_digits 10 None bound k acc (s +:+ rest) = Some (v, (k + String.length s)%nat, rest).
Proof.
  revert k acc. induction s as [|a s IH]; intros k acc.
  - intros [= ->] _ Hr. rewrite string_app_nil, Nat.add_0_r.
    destruct rest as [|a r]; [done|]. cbn [read_digits]. by rewrite Hr.
  - rewrite string_app_cons. cbn [digits read_digits].
    destruct (digit a) as [d|] eqn:Ed; [|done]. intros Hv Hb Hr. rewrite (to_digit_10 a d Ed).
    pose proof (digits_ge _ _ _ Hv). rewrite (proj2 (N.ltb_ge _ _)) by lia.
    rewrite (IH (S k)) by done. do 2 f_equal. f_equal. simpl. lia.
Qed.

Lemma read_port_pretty n : n ≤ U16_MAX → read_port (String ":" (pretty n)) = Some (n, ""%string).
Proof.
  intros Hn. unfold read_port. simpl. unfold read_number.
  pose proof (read_digits_all U16_MAX 0 0 (pretty n) n "") as Hd.
  rewrite string_app_nil_r in Hd. rewrite Hd; [|by apply digits_pretty|done|done].
  rewrite bool_decide_eq_false_2 by (pose proof (pretty_nonempty n); destruct (pretty n); simpl; lia || done).
  simpl. by rewrite (proj2 (N.ltb_ge _ _)).
Qed.

Lemma display_v4_parse octets port :
  addr_ok (V4 octets port) → parse_addr (display_v4 (V4 octets port)) = Some (V4 octets port).
Proof.
  intros [[Hl Hb] Hp]. destruct octets as [|a [|b [|c [|d [|]]]]]; try done.
  apply Forall_cons_1 in Hb as [? Hb]. apply Forall_cons_1 in Hb as [? Hb].
  apply Forall_cons_1 in Hb as [? Hb]. apply Forall_cons_1 in Hb as [? _].
  unfold parse_addr, display_v4, read_socket_addr_v4, read_ipv4_addr, read_octet.
  cbn [read_separator]. rewrite (read_octet_pretty a) by auto.
  cbn [mbind option_bind]. rewrite read_char_eq. cbn [mbind option_bind].
  rewrite (read_octet_pretty b) by auto.
  cbn [mbind option_bind]. rewrite read_char_eq. cbn [mbind option_bind].
  rewrite (read_octet_pretty c) by auto.
  cbn [mbind option_bind]. rewrite read_char_eq. cbn [mbind option_bind].
  rewrite (read_octet_pretty d) by auto.
  cbn [mbind option_bind]. by rewrite read_port_pretty.
Qed.
End Addr.
