(* ===== verification/AddrShow.v ===== *)
(** * AddrShow: printing socket addresses

    [Display for SocketAddr], with which [src/server.rs] and [src/main.rs]
    report the addresses they bind: the standard library's text of IPv4 and
    IPv6 addresses, the longest run of zero groups compressed and IPv4-mapped
    addresses in dotted form.  What it prints parses back. *)

From Stdlib Require Import Strings.Ascii.
From S2P Require Import Prelude Bytes Numbers Addr.

Module AddrShow.
Import Numbers Addr.

(** ** Hexadecimal groups *)

Definition hex_char (d : N) : ascii :=
  if d <? 10 then ascii_of_N (48 + d) else ascii_of_N (87 + d).

(** [{:x}] of a [u16] *)
Definition hex_digits (n : N) : list N :=
  if n <? 16 then [n]
  else if n <? 256 then [n / 16; n mod 16]
  else if n <? 4096 then [n / 256; n / 16 mod 16; n mod 16]
  else [n / 4096; n / 256 mod 16; n / 16 mod 16; n mod 16].

Definition hex_text (ds : list N) : string := foldr (λ d s, String (hex_char d) s) "" ds.

Definition show_group (n : N) : string := hex_text (hex_digits n).

(** [fmt_subslice]: groups separated by colons *)
Definition show_groups (gs : list N) : string := String.concat ":" (show_group <$> gs).

(** ** Addresses *)

(** The loop that finds the first longest run of zeros: [start] and [len]. *)
Fixpoint longest_zeros (i : nat) (current longest : nat * nat) (gs : list N) : nat * nat :=
  match gs with
  | [] => longest
  | g :: gs =>
    if g =? 0 then
      let current := (if bool_decide (current.2 = 0%nat) then i else current.1, S current.2) in
      longest_zeros (S i) current (if bool_decide (longest.2 < current.2)%nat then current else longest) gs
    else longest_zeros (S i) (0%nat, 0%nat) longest gs
  end.

Definition show_octets (a b c d : N) : string :=
  pretty a +:+ String "." (pretty b +:+ String "." (pretty c +:+ String "." (pretty d))).

(** [Ipv6Addr::to_ipv4_mapped] *)
Definition mapped_prefix : list N := [0; 0; 0; 0; 0; 0xffff].

Definition to_ipv4_mapped (gs : list N) : option (N * N) :=
  match drop 6 gs with
  | [x; y] => if bool_decide (take 6 gs = mapped_prefix) then Some (x, y) else None
  | _ => None
  end.

(** [Display for Ipv6Addr] *)
Definition show_v6 (gs : list N) : string :=
  match to_ipv4_mapped gs with
  | Some (x, y) => "::ffff:" +:+ show_octets (x / 256) (x mod 256) (y / 256) (y mod 256)
  | None =>
    let '(start, n) := longest_zeros 0 (0%nat, 0%nat) (0%nat, 0%nat) gs in
    if bool_decide (1 < n)%nat
    then show_groups (take start gs) +:+ "::" +:+ show_groups (drop (start + n) gs)
    else show_groups gs
  end.

(** [SocketAddr::to_string] *)
Definition addr_to_string (a : SocketAddr) : string :=
  match a with
  | V4 _ _ => display_v4 a
  | V6 gs scope_id port =>
    "[" +:+ show_v6 gs +:+ (if scope_id =? 0 then "" else "%" +:+ pretty scope_id) +:+ "]:" +:+
    pretty port
  end.

Example show_v6_examples :
  addr_to_string <$> [V6 [0xfe80; 0; 0; 0; 0; 0; 0; 1] 3 80; V6 [0; 0; 0; 0; 0; 0; 0; 0] 0 1;
    V6 [1; 0; 0; 2; 0; 0; 0; 0xabc] 0 65535; V6 [0; 0; 0; 0; 0; 0xffff; 0x0a00; 1] 0 1;
    V6 [1; 2; 3; 0; 5; 6; 7; 8] 0 1]
  = ["[fe80::1%3]:80"; "[::]:1"; "[1:0:0:2::abc]:65535"; "[::ffff:10.0.0.1]:1";
     "[1:2:3:0:5:6:7:8]:1"]%string.
Proof. by vm_compute. Qed.

(** ** Reading the text back *)

(** The text begins with something that ends a number. *)
Definition ends (s : string) : Prop :=
  match s with
  | String a _ => to_digit 16 a = None ∧ a ≠ "."%char
  | EmptyString => False
  end.

Lemma to_digit_hex d : d < 16 → to_digit 16 (hex_char d) = Some d.
Proof.
  intros Hd. rewrite <- (N2Nat.id d) in *. assert (N.to_nat d < 16)%nat as Hn by lia.
  revert Hn. generalize (N.to_nat d). clear. intros n Hn.
  do 16 (destruct n as [|n]; [done|]). lia.
Qed.

Lemma hex_digits_ok n :
  n ≤ U16_MAX →
  Forall (λ d, d < 16) (hex_digits n) ∧ (1 ≤ length (hex_digits n) ≤ 4)%nat ∧
  foldl (λ acc d, acc * 16 + d) 0 (hex_digits n) = n.
Proof.
  unfold U16_MAX, hex_digits. intros Hn.
  destruct (N.ltb_spec n 16); [|destruct (N.ltb_spec n 256); [|destruct (N.ltb_spec n 4096)]];
    (split; [repeat (apply List.Forall_cons || apply List.Forall_nil)|split; [simpl; lia|simpl]]);
    zify; Z.to_euclidean_division_equations; lia.
Qed.

Lemma ends_no_digit s : ends s → ∃ a r, s = String a r ∧ to_digit 16 a = None.
Proof. destruct s as [|a r]; [done|]. intros [? ?]. eauto. Qed.

(** The digit loop reads a group up to what ends it. *)
Lemma read_digits_hex ds rest m bound k acc :
  Forall (λ d, d < 16) ds → (k + length ds ≤ m)%nat → ends rest →
  read_digits 16 (Some m) bound k acc (hex_text ds +:+ rest) =
    Some (foldl (λ acc d, acc * 16 + d) acc ds, (k + length ds)%nat, rest).
Proof.
  intros Hds Hm Hrest. revert k acc Hm. induction Hds as [|d ds Hd _ IH]; intros k acc Hm.
  - destruct (ends_no_digit rest Hrest) as (a & r & -> & Ha). simpl hex_text.
    rewrite string_app_nil. cbn [read_digits]. rewrite Ha. simpl. by rewrite Nat.add_0_r.
  - change (hex_text (d :: ds)) with (String (hex_char d) (hex_text ds)).
    rewrite string_app_cons. cbn [read_digits]. rewrite to_digit_hex by done.
    simpl length in *. rewrite bool_decide_eq_false_2 by lia.
    rewrite IH by lia. simpl. do 2 f_equal. f_equal. lia.
Qed.

Lemma read_group_show n rest :
  n ≤ U16_MAX → ends rest →
  read_number 16 (Some 4%nat) true U16_MAX (show_group n +:+ rest) = Some (n, rest).
Proof.
  intros Hn Hrest. destruct (hex_digits_ok n Hn) as (Hds & Hlen & Hval).
  unfold read_number, show_group. rewrite read_digits_hex by (done || lia).
  rewrite Hval, bool_decide_eq_false_2 by lia. simpl. by rewrite (proj2 (N.ltb_ge _ _)).
Qed.

Lemma hex_char_not_dot d : d < 16 → hex_char d ≠ "."%char.
Proof. intros Hd Heq. apply to_digit_hex in Hd. by rewrite Heq in Hd. Qed.

Lemma to_digit_10_16 a : to_digit 16 a = None → to_digit 10 a = None.
Proof. destruct a as [[] [] [] [] [] [] [] []]; by vm_compute. Qed.

Lemma read_digits_rest ds rest m bound k acc v k' r :
  Forall (λ d, d < 16) ds → ends rest →
  read_digits 10 m bound k acc (hex_text ds +:+ rest) = Some (v, k', r) →
  ∃ ds', Forall (λ d, d < 16) ds' ∧ r = hex_text ds' +:+ rest.
Proof.
  intros Hds Hrest. revert k acc. induction Hds as [|d ds Hd Hds IH]; intros k acc Hr.
  - exists []. split; [constructor|]. simpl hex_text in *. rewrite string_app_nil in *.
    destruct (ends_no_digit rest Hrest) as (a & s & -> & Ha). cbn [read_digits] in Hr.
    rewrite (to_digit_10_16 a Ha) in Hr. by injection Hr.
  - change (hex_text (d :: ds)) with (String (hex_char d) (hex_text ds)) in Hr.
    rewrite string_app_cons in Hr. cbn [read_digits] in Hr.
    destruct (to_digit 10 (hex_char d)) as [x|].
    + destruct (match m with Some m => _ | None => _ end); [done|]. by eapply IH.
    + injection Hr as _ _ <-. exists (d :: ds). split; [by constructor|done].
Qed.

(** A group is not the start of a dotted address. *)
Lemma group_not_ipv4 ds rest :
  Forall (λ d, d < 16) ds → ends rest → read_ipv4_addr (hex_text ds +:+ rest) = None.
Proof.
  intros Hds Hrest. unfold read_ipv4_addr, read_octet. cbn [read_separator].
  destruct (read_number 10 _ _ _ _) as [[v r]|] eqn:E; [|done]. cbn [mbind option_bind].
  unfold read_number in E.
  destruct (read_digits 10 _ _ _ _ _) as [[[w k] r']|] eqn:Ed; [|done].
  destruct (bool_decide _); [done|]. destruct (_ && _ && _); [done|].
  destruct (_ <? _); [done|]. injection E as _ <-.
  apply read_digits_rest in Ed as (ds' & Hds' & ->); [|done|done].
  destruct Hds' as [|d ds' Hd _].
  - simpl hex_text. rewrite string_app_nil. destruct rest as [|a s]; [done|].
    destruct Hrest as [_ Ha]. simpl. by rewrite bool_decide_eq_false_2.
  - change (hex_text (d :: ds')) with (String (hex_char d) (hex_text ds')).
    rewrite string_app_cons. simpl. rewrite bool_decide_eq_false_2; [done|].
    by apply hex_char_not_dot.
Qed.

(** Nothing more of an address can be read. *)
Definition stops (s : string) : Prop :=
  ends s ∧ ∀ i, read_separator ":" i (read_number 16 (Some 4%nat) true U16_MAX) s = None ∧
                read_separator ":" i read_ipv4_addr s = None.

Lemma ends_no_number s radix m z bound :
  ends s → (radix = 10 ∨ radix = 16) → read_number radix m z bound s = None.
Proof.
  intros Hs Hr. destruct (ends_no_digit s Hs) as (a & r & -> & Ha). unfold read_number.
  cbn [read_digits]. destruct Hr as [-> | ->]; rewrite ?(to_digit_10_16 a Ha), ?Ha; done.
Qed.

Lemma ends_no_ipv4 s : ends s → read_ipv4_addr s = None.
Proof. intros Hs. apply (group_not_ipv4 [] s); [constructor|done]. Qed.

Lemma stops_bracket s : stops (String "]" s).
Proof.
  assert (ends (String "]" s)) as He by (split; [done|congruence]).
  split; [done|]. intros [|i]; simpl; [|done]. split; [apply ends_no_number; auto|by apply ends_no_ipv4].
Qed.

Lemma stops_percent s : stops (String "%" s).
Proof.
  assert (ends (String "%" s)) as He by (split; [done|congruence]).
  split; [done|]. intros [|i]; simpl; [|done]. split; [apply ends_no_number; auto|by apply ends_no_ipv4].
Qed.

Lemma ends_colon s : ends (String ":" s).
Proof. split; [done|congruence]. Qed.

Lemma stops_colons s : stops (String ":" (String ":" s)).
Proof.
  split; [apply ends_colon|]. intros [|i]; simpl;
    (split; [apply ends_no_number; auto using ends_colon|apply ends_no_ipv4, ends_colon]).
Qed.

(** The groups after the first, and what follows them. *)
Definition more_groups (gs : list N) (rest : string) : string :=
  foldr (λ g s, String ":" (show_group g +:+ s)) rest gs.

Lemma ends_more gs rest : ends rest → ends (more_groups gs rest).
Proof. destruct gs; [done|]. intros _. apply ends_colon. Qed.

Lemma show_groups_app g gs rest :
  show_groups (g :: gs) +:+ rest = show_group g +:+ more_groups gs rest.
Proof.
  revert g. induction gs as [|h gs IH]; intros g; [done|]. unfold show_groups in *.
  rewrite !fmap_cons. cbn [String.concat]. rewrite !string_app_assoc. f_equal.
  specialize (IH h). rewrite fmap_cons in IH. unfold more_groups in *. cbn [foldr].
  rewrite <- IH. by rewrite string_app_cons, string_app_nil.
Qed.

Lemma group_step left i acc g rest :
  g ≤ U16_MAX → ends rest →
  read_groups (S left) i acc ((if bool_decide (i = 0%nat) then "" else ":") +:+ show_group g +:+ rest) =
    read_groups left (S i) (acc ++ [g]) rest.
Proof.
  intros Hg Hrest. destruct (hex_digits_ok g Hg) as (Hds & _ & _).
  assert (∀ (A : Type) (p : Parser A), read_separator ":" i p
    ((if bool_decide (i = 0%nat) then "" else ":") +:+ show_group g +:+ rest)
    = p (show_group g +:+ rest)) as Hsep.
  { intros A p. destruct i; [done|]. cbn [read_separator]. rewrite bool_decide_eq_false_2 by done.
    by rewrite string_app_cons, string_app_nil, read_char_eq. }
  cbn [read_groups]. rewrite !Hsep, read_group_show by done. unfold show_group at 1.
  rewrite group_not_ipv4 by done. by destruct (bool_decide (1 < S left)%nat).
Qed.

Lemma read_more gs left i acc rest :
  Forall (λ g, g ≤ U16_MAX) gs → (length gs ≤ left)%nat → stops rest →
  read_groups left (S i) acc (more_groups gs rest) = (acc ++ gs, false, rest).
Proof.
  intros Hgs. revert left i acc. induction Hgs as [|g gs Hg _ IH]; intros left i acc Hl Hrest.
  - rewrite app_nil_r. destruct left as [|left]; [done|]. destruct Hrest as [_ Hs].
    destruct (Hs (S i)) as [Hn H4]. cbn [more_groups foldr read_groups]. rewrite Hn, H4.
    by destruct (bool_decide (1 < S left)%nat).
  - simpl in Hl. destruct left as [|left]; [lia|].
    change (more_groups (g :: gs) rest) with (":" +:+ show_group g +:+ more_groups gs rest).
    pose proof (group_step left (S i) acc g (more_groups gs rest) Hg (ends_more _ _ (proj1 Hrest)))
      as Hgi.
    rewrite bool_decide_eq_false_2 in Hgi by done. rewrite Hgi.
    rewrite IH by (done || lia). by rewrite <- app_assoc.
Qed.

(** The groups of a text are read up to what stops them. *)
Lemma read_groups_show gs left rest :
  Forall (λ g, g ≤ U16_MAX) gs → (length gs ≤ left)%nat → stops rest →
  read_groups left 0 [] (show_groups gs +:+ rest) = (gs, false, rest).
Proof.
  intros Hgs Hl Hrest. destruct Hgs as [|g gs Hg Hgs].
  - destruct left as [|left]; [done|]. destruct Hrest as [_ Hs].
    destruct (Hs 0%nat) as [Hn H4]. cbn [show_groups fmap list_fmap String.concat]. rewrite string_app_nil.
    cbn [read_groups]. rewrite Hn, H4. by destruct (bool_decide (1 < S left)%nat).
  - simpl in Hl. destruct left as [|left]; [lia|]. rewrite show_groups_app.
    pose proof (group_step left 0 [] g (more_groups gs rest) Hg (ends_more _ _ (proj1 Hrest))) as Hg0.
    rewrite bool_decide_eq_true_2, string_app_nil in Hg0 by done. rewrite Hg0.
    by rewrite read_more by (done || lia).
Qed.

(** ** The longest run of zeros *)

(** The span lies within the groups and covers zeros only. *)
Definition zero_span (gs : list N) (p : nat * nat) : Prop :=
  (p.1 + p.2 ≤ length gs)%nat ∧ ∀ j, (p.1 ≤ j < p.1 + p.2)%nat → gs !! j = Some 0.

Lemma longest_zeros_span pre gs current longest :
  zero_span (pre ++ gs) longest → zero_span (pre ++ gs) current →
  (current.2 ≠ 0%nat → current.1 + current.2 = length pre)%nat →
  zero_span (pre ++ gs) (longest_zeros (length pre) current longest gs).
Proof.
  revert pre current longest. induction gs as [|g gs IH]; intros pre current longest Hl Hc Hend.
  - done.
  - replace (pre ++ g :: gs) with ((pre ++ [g]) ++ gs) in * by (by rewrite <- app_assoc).
    cbn [longest_zeros]. destruct (N.eqb_spec g 0) as [->|Hg].
    + replace (S (length pre)) with (length (pre ++ [0])) by (rewrite length_app; simpl; lia).
      set (next := (_, _)).
      assert (zero_span ((pre ++ [0]) ++ gs) next ∧ (next.1 + next.2 = length (pre ++ [0%N]))%nat)
        as [Hn Hne].
      { assert (((pre ++ [0]) ++ gs) !! length pre = Some 0) as Hz.
        { rewrite <- app_assoc. cbn [app]. by rewrite list_lookup_middle. }
        subst next. destruct Hc as [Hc1 Hc2]. rewrite !length_app in *. simpl in *.
        case_bool_decide as E; cbn [fst snd] in *; (split; [|lia]); (split; cbn [fst snd];
          [rewrite !length_app; simpl; lia|]); intros j Hj.
        - rewrite E in Hj. replace j with (length pre) by lia. done.
        - specialize (Hend E). destruct (decide (j = length pre)) as [->|Hne]; [done|].
          apply Hc2. lia. }
      apply IH; [by case_bool_decide|done|lia].
    + replace (S (length pre)) with (length (pre ++ [g])) by (rewrite length_app; simpl; lia).
      apply IH; [done| |done]. split; simpl; [lia|]. intros. lia.
Qed.

Lemma longest_zeros_split gs start n :
  longest_zeros 0 (0%nat, 0%nat) (0%nat, 0%nat) gs = (start, n) →
  gs = take start gs ++ replicate n 0 ++ drop (start + n) gs ∧ (start + n ≤ length gs)%nat.
Proof.
  intros Heq. pose proof (longest_zeros_span [] gs (0%nat, 0%nat) (0%nat, 0%nat)) as Hs.
  assert (zero_span gs (0%nat, 0%nat)) as H0 by (split; simpl; [lia|intros; lia]).
  simpl in Hs. rewrite Heq in Hs. destruct Hs as [Hle Hz]; [done..|].
  simpl in Hle, Hz. split; [|done].
  rewrite <- (take_drop start gs) at 1. f_equal. rewrite <- (take_drop n (drop start gs)) at 1.
  rewrite drop_drop. f_equal. apply list_eq_same_length with n;
    [by rewrite length_replicate|rewrite length_take, length_drop; lia|].
  intros j x y Hj Hx Hy. rewrite lookup_take_lt, lookup_drop in Hx by done.
  rewrite Hz in Hx by lia. apply lookup_replicate in Hy as [-> _]. by injection Hx as <-.
Qed.

(** ** Addresses *)

(** What follows an address in a socket address. *)
Definition closes (s : string) : Prop :=
  ∃ r, s = String "]" r ∨ s = String "%" r.

Lemma closes_stops s : closes s → stops s.
Proof. intros [r [-> | ->]]; [apply stops_bracket|apply stops_percent]. Qed.

Lemma read_colons s : read_groups 8 0 [] (String ":" (String ":" s)) = ([], false, String ":" (String ":" s)).
Proof. apply (read_groups_show [] 8 (String ":" (String ":" s))); [constructor|simpl; lia|apply stops_colons]. Qed.

(** The compressed form: two runs of groups around the colons. *)
Lemma read_ipv6_compressed head tail n rest :
  Forall (λ g, g ≤ U16_MAX) head → Forall (λ g, g ≤ U16_MAX) tail → (1 < n)%nat →
  (length head + n + length tail = 8)%nat → closes rest →
  read_ipv6_addr (show_groups head +:+ "::" +:+ show_groups tail +:+ rest) =
    Some (head ++ replicate n 0 ++ tail, rest).
Proof.
  intros Hh Ht Hn Hlen Hrest. unfold read_ipv6_addr. rewrite !string_app_cons, string_app_nil.
  rewrite (read_groups_show head 8) by (done || lia || apply stops_colons).
  rewrite bool_decide_eq_false_2 by lia. cbn [mbind option_bind]. rewrite read_char_eq.
  cbn [mbind option_bind]. rewrite read_char_eq. cbn [mbind option_bind].
  rewrite read_groups_show by (done || lia || by apply closes_stops).
  by replace (8 - length head - length tail)%nat with n by lia.
Qed.

Lemma read_ipv6_full gs rest :
  groups_ok gs → closes rest → read_ipv6_addr (show_groups gs +:+ rest) = Some (gs, rest).
Proof.
  intros [Hlen Hgs] Hrest. unfold read_ipv6_addr.
  rewrite (read_groups_show gs 8) by (done || lia || by apply closes_stops).
  by rewrite bool_decide_eq_true_2.
Qed.

Lemma read_octets a b c d rest :
  a ≤ U8_MAX → b ≤ U8_MAX → c ≤ U8_MAX → d ≤ U8_MAX → closes rest →
  read_ipv4_addr (show_octets a b c d +:+ rest) = Some ([a; b; c; d], rest).
Proof.
  intros Ha Hb Hc Hd [r Hr]. unfold read_ipv4_addr, show_octets, read_octet.
  rewrite !string_app_assoc, !string_app_cons, !string_app_assoc, !string_app_cons,
    !string_app_assoc, !string_app_cons. cbn [read_separator].
  rewrite (read_octet_pretty a) by auto. cbn [mbind option_bind]. rewrite read_char_eq.
  cbn [mbind option_bind]. rewrite (read_octet_pretty b) by auto. cbn [mbind option_bind].
  rewrite read_char_eq. cbn [mbind option_bind]. rewrite (read_octet_pretty c) by auto.
  cbn [mbind option_bind]. rewrite read_char_eq. cbn [mbind option_bind].
  destruct Hr as [-> | ->]; rewrite (read_octet_pretty d) by auto; done.
Qed.

(** Groups that end in a dotted address. *)
Lemma ipv4_step left i acc s a b c d rest :
  (1 ≤ left)%nat → read_ipv4_addr s = Some ([a; b; c; d], rest) →
  read_groups (S left) (S i) acc (String ":" s) =
    (acc ++ [a * 256 + b; c * 256 + d], true, rest).
Proof.
  intros Hl Hs. cbn [read_groups read_separator]. rewrite bool_decide_eq_true_2 by lia.
  rewrite read_char_eq. cbn [mbind option_bind]. by rewrite Hs.
Qed.

Lemma group_halves x : x ≤ U16_MAX → x / 256 ≤ U8_MAX ∧ x mod 256 ≤ U8_MAX ∧ x / 256 * 256 + x mod 256 = x.
Proof. unfold U16_MAX, U8_MAX. intros Hx. zify. Z.to_euclidean_division_equations. lia. Qed.

Lemma read_ipv6_mapped x y rest :
  x ≤ U16_MAX → y ≤ U16_MAX → closes rest →
  read_ipv6_addr ("::ffff:" +:+ show_octets (x / 256) (x mod 256) (y / 256) (y mod 256) +:+ rest) =
    Some (mapped_prefix ++ [x; y], rest).
Proof.
  intros Hx Hy Hrest. unfold read_ipv6_addr. rewrite !string_app_cons, string_app_nil.
  rewrite read_colons. cbn [length]. rewrite bool_decide_eq_false_2 by done.
  cbn [mbind option_bind]. rewrite read_char_eq. cbn [mbind option_bind]. rewrite read_char_eq.
  cbn [mbind option_bind]. set (o := show_octets _ _ _ _ +:+ rest).
  pose proof (group_step 6 0 [] 0xffff (String ":" o) ltac:(done) (ends_colon _)) as Hg.
  rewrite bool_decide_eq_true_2, string_app_nil in Hg by done.
  change (show_group 0xffff) with "ffff"%string in Hg.
  rewrite !string_app_cons, string_app_nil in Hg. change (8 - (0 + 1))%nat with 7%nat. rewrite Hg.
  destruct (group_halves x Hx) as (Hx1 & Hx2 & Ex). destruct (group_halves y Hy) as (Hy1 & Hy2 & Ey).
  rewrite (ipv4_step 5 0 _ o _ _ _ _ rest ltac:(lia) (read_octets _ _ _ _ rest Hx1 Hx2 Hy1 Hy2 Hrest)).
  by rewrite Ex, Ey.
Qed.

Lemma read_ipv6_show gs rest :
  groups_ok gs → closes rest → read_ipv6_addr (show_v6 gs +:+ rest) = Some (gs, rest).
Proof.
  intros Hok Hrest. pose proof Hok as [Hlen Hgs]. unfold show_v6.
  destruct (to_ipv4_mapped gs) as [[x y]|] eqn:Em.
  - unfold to_ipv4_mapped in Em. destruct (drop 6 gs) as [|x' [|y' [|]]] eqn:Ed; try done.
    case_bool_decide as Et; [|done]. injection Em as -> ->.
    rewrite <- (take_drop 6 gs), Et, Ed in Hgs |- *. apply Forall_app in Hgs as [_ Hxy].
    apply Forall_cons_1 in Hxy as [Hx Hxy]. apply Forall_cons_1 in Hxy as [Hy _].
    rewrite string_app_assoc. by apply read_ipv6_mapped.
  - destruct (longest_zeros 0 _ _ gs) as [start n] eqn:El.
    apply longest_zeros_split in El as [Hsplit Hle]. case_bool_decide as Hn.
    + rewrite !string_app_assoc. rewrite (read_ipv6_compressed _ _ n); [by rewrite <- Hsplit|..]; try done.
      * by apply Forall_take.
      * by apply Forall_drop.
      * rewrite length_take, length_drop. lia.
    + by apply read_ipv6_full.
Qed.

Lemma read_scope_pretty n s :
  n ≤ U32_MAX → read_scope_id (String "%" (pretty n +:+ String "]" s)) = Some (n, String "]" s).
Proof.
  intros Hn. unfold read_scope_id. rewrite read_char_eq. cbn [mbind option_bind].
  unfold read_number. rewrite (read_digits_all _ _ _ _ n); [|by apply digits_pretty|done|done].
  rewrite bool_decide_eq_false_2 by (pose proof (pretty_nonempty n); destruct (pretty n); simpl; lia || done).
  simpl. by rewrite (proj2 (N.ltb_ge _ _)).
Qed.

Lemma v6_not_v4 s : read_socket_addr_v4 (String "[" s) = None.
Proof. done. Qed.

Lemma bind_eq {A B} (o : option A) (f : A → option B) a : o = Some a → o ≫= f = f a.
Proof. by intros ->. Qed.

Lemma read_v6_parts s gs rest scope_id port tail :
  read_ipv6_addr s = Some (gs, rest) → read_port tail = Some (port, ""%string) →
  default (0, rest) (read_scope_id rest) = (scope_id, String "]" tail) →
  read_socket_addr_v6 (String "[" s) = Some (V6 gs scope_id port, ""%string).
Proof.
  intros Hs Hp Hscope. unfold read_socket_addr_v6.
  rewrite (bind_eq _ _ _ (read_char_eq _ _)). cbv beta iota. rewrite (bind_eq _ _ _ Hs).
  cbv beta iota. rewrite Hscope, (bind_eq _ _ _ (read_char_eq _ _)). cbv beta iota.
  by rewrite (bind_eq _ _ _ Hp).
Qed.

Lemma read_no_scope s : read_scope_id (String "]" s) = None.
Proof. done. Qed.

(** What follows the address in the text. *)
Definition scope_text (scope_id : N) (rest : string) : string :=
  if scope_id =? 0 then rest else String "%" (pretty scope_id +:+ rest).

Lemma v6_text gs scope_id port :
  addr_to_string (V6 gs scope_id port) =
  String "[" (show_v6 gs +:+ scope_text scope_id (String "]" (String ":" (pretty port)))).
Proof.
  unfold addr_to_string, scope_text. generalize (show_v6 gs) (pretty port). intros s p.
  destruct (scope_id =? 0); by rewrite !string_app_cons, !string_app_nil, ?string_app_cons.
Qed.

Lemma read_v6_show gs scope_id port :
  addr_ok (V6 gs scope_id port) →
  read_socket_addr_v6 (addr_to_string (V6 gs scope_id port)) = Some (V6 gs scope_id port, ""%string).
Proof.
  intros (Hg & Hs & Hp). rewrite v6_text.
  set (rest := String "]" (String ":" (pretty port))).
  eapply read_v6_parts; [apply read_ipv6_show; [done|]|by apply read_port_pretty|].
  - unfold scope_text. destruct (scope_id =? 0); eexists; [by left|by right].
  - unfold scope_text. destruct (N.eqb_spec scope_id 0) as [->|_].
    + unfold rest. by rewrite read_no_scope.
    + unfold rest. by rewrite read_scope_pretty.
Qed.

(** What is printed parses back. *)
Lemma addr_roundtrip a : addr_ok a → parse_addr (addr_to_string a) = Some a.
Proof.
  destruct a as [octets port|gs scope_id port]; intros Ha; [by apply display_v4_parse|].
  pose proof (read_v6_show gs scope_id port Ha) as Hr.
  rewrite v6_text in *. unfold parse_addr. by rewrite v6_not_v4, Hr.
Qed.
End AddrShow.
