(* ===== verification/Config.v ===== *)
(** * Config: the command line

    [src/config.rs]: the configuration, its defaults, the argument loop of
    [Config::from_args] with its two number parsers, and the text of its
    errors.  [str::parse] is [parse_unsigned] of [Numbers] and [parse_addr] of
    [Addr]. *)

From S2P Require Import Prelude Bytes Numbers Addr AddrShow.

Module Config.
Import Numbers Addr AddrShow.

Definition DEFAULT_BIND_ADDR : string := "127.0.0.1:7400".
Definition DEFAULT_NATIVE_BIND_ADDR : string := "127.0.0.1:7401".
Definition DEFAULT_MAX_BODY_BYTES : N := 8 * 1024 * 1024.
Definition DEFAULT_MAX_MEMORY_BYTES : N := 64 * 1024 * 1024.
Definition DEFAULT_MAX_VALUE_BYTES : N := 8 * 1024 * 1024.
Definition DEFAULT_CLEANUP_INTERVAL_MS : N := 250.
Definition DEFAULT_CLEANUP_MAX_ENTRIES_PER_TICK : N := 128.

Inductive ConfigError :=
| HelpRequested
| MissingValue (flag : string)
| UnknownArgument (argument : string)
| InvalidBindAddress (value : string)
| InvalidNativeBindAddress (value : string)
| InvalidNativeUnixSocket (value : string)
| InvalidMaxBodyBytes (value : string)
| InvalidMaxMemoryBytes (value : string)
| InvalidMaxValueBytes (value : string)
| InvalidCleanupIntervalMs (value : string)
| InvalidCleanupMaxEntriesPerTick (value : string).

(** [fmt::Display for ConfigError] *)
Definition display (e : ConfigError) : string :=
  match e with
  | HelpRequested => "help requested"
  | MissingValue flag => "missing value for " +:+ flag
  | UnknownArgument argument => "unknown argument: " +:+ argument
  | InvalidBindAddress value => "invalid bind address: " +:+ value
  | InvalidNativeBindAddress value => "invalid native bind address: " +:+ value
  | InvalidNativeUnixSocket value => "invalid native Unix socket path: " +:+ value
  | InvalidMaxBodyBytes value => "invalid max body byte limit: " +:+ value
  | InvalidMaxMemoryBytes value => "invalid max memory byte limit: " +:+ value
  | InvalidMaxValueBytes value => "invalid max value byte limit: " +:+ value
  | InvalidCleanupIntervalMs value => "invalid cleanup interval in milliseconds: " +:+ value
  | InvalidCleanupMaxEntriesPerTick value => "invalid cleanup max entries per tick: " +:+ value
  end.

(** ** Numbers *)

Definition parse_nonzero_usize (flag : string) (value : option string)
    (error : string → ConfigError) : result N ConfigError :=
  match value with
  | None => Err (MissingValue flag)
  | Some value =>
    match parse_unsigned value with
    | None => Err (error value)
    | Some parsed => if parsed =? 0 then Err (error value) else Ok parsed
    end
  end.

Definition parse_u64 (flag : string) (value : option string) (error : string → ConfigError) :
    result N ConfigError :=
  match value with
  | None => Err (MissingValue flag)
  | Some value =>
    match parse_unsigned value with Some v => Ok v | None => Err (error value) end
  end.

(** ** Arguments *)

Record Config := {
  bind_addr : SocketAddr;
  native_bind_addr : option SocketAddr;
  native_unix_socket : option string;
  max_body_bytes : N;
  max_memory_bytes : N;
  max_value_bytes : N;
  cleanup_interval_ms : N;
  cleanup_max_entries_per_tick : N
}.

(** [None] is the panic of [expect] on a default address. *)
Definition Config_default : option Config :=
  b ← parse_addr DEFAULT_BIND_ADDR;
  nb ← parse_addr DEFAULT_NATIVE_BIND_ADDR;
  Some {| bind_addr := b; native_bind_addr := Some nb; native_unix_socket := None;
          max_body_bytes := DEFAULT_MAX_BODY_BYTES;
          max_memory_bytes := DEFAULT_MAX_MEMORY_BYTES;
          max_value_bytes := DEFAULT_MAX_VALUE_BYTES;
          cleanup_interval_ms := DEFAULT_CLEANUP_INTERVAL_MS;
          cleanup_max_entries_per_tick := DEFAULT_CLEANUP_MAX_ENTRIES_PER_TICK |}.

Definition set_bind_addr v c := {| bind_addr := v; native_bind_addr := native_bind_addr c;
  native_unix_socket := native_unix_socket c; max_body_bytes := max_body_bytes c;
  max_memory_bytes := max_memory_bytes c; max_value_bytes := max_value_bytes c;
  cleanup_interval_ms := cleanup_interval_ms c;
  cleanup_max_entries_per_tick := cleanup_max_entries_per_tick c |}.
Definition set_native_bind_addr v c := {| bind_addr := bind_addr c; native_bind_addr := v;
  native_unix_socket := native_unix_socket c; max_body_bytes := max_body_bytes c;
  max_memory_bytes := max_memory_bytes c; max_value_bytes := max_value_bytes c;
  cleanup_interval_ms := cleanup_interval_ms c;
  cleanup_max_entries_per_tick := cleanup_max_entries_per_tick c |}.
Definition set_native_unix_socket v c := {| bind_addr := bind_addr c;
  native_bind_addr := native_bind_addr c; native_unix_socket := v;
  max_body_bytes := max_body_bytes c;
  max_memory_bytes := max_memory_bytes c; max_value_bytes := max_value_bytes c;
  cleanup_interval_ms := cleanup_interval_ms c;
  cleanup_max_entries_per_tick := cleanup_max_entries_per_tick c |}.
(** The five numeric fields. *)
Definition set_numbers body mem val ms n c := {| bind_addr := bind_addr c;
  native_bind_addr := native_bind_addr c; native_unix_socket := native_unix_socket c;
  max_body_bytes := body; max_memory_bytes := mem; max_value_bytes := val;
  cleanup_interval_ms := ms; cleanup_max_entries_per_tick := n |}.
Definition set_max_body_bytes v c := set_numbers v (max_memory_bytes c) (max_value_bytes c)
  (cleanup_interval_ms c) (cleanup_max_entries_per_tick c) c.
Definition set_max_memory_bytes v c := set_numbers (max_body_bytes c) v (max_value_bytes c)
  (cleanup_interval_ms c) (cleanup_max_entries_per_tick c) c.
Definition set_max_value_bytes v c := set_numbers (max_body_bytes c) (max_memory_bytes c) v
  (cleanup_interval_ms c) (cleanup_max_entries_per_tick c) c.
Definition set_cleanup_interval_ms v c := set_numbers (max_body_bytes c) (max_memory_bytes c)
  (max_value_bytes c) v (cleanup_max_entries_per_tick c) c.
Definition set_cleanup_max_entries_per_tick v c := set_numbers (max_body_bytes c)
  (max_memory_bytes c) (max_value_bytes c) (cleanup_interval_ms c) v c.

Definition result_map {A B E} (f : A → B) (r : result A E) : result B E :=
  match r with Ok a => Ok (f a) | Err e => Err e end.

(** The arms of the [match] that take a value: [value] is [args.next()]. *)
Definition apply_flag (argument : string) (value : option string) (config : Config) :
    result Config ConfigError :=
  if bool_decide (argument = "--bind"%string) then
    match value with
    | None => Err (MissingValue argument)
    | Some value => match parse_addr value with
                    | Some a => Ok (set_bind_addr a config)
                    | None => Err (InvalidBindAddress value)
                    end
    end
  else if bool_decide (argument = "--native-bind"%string) then
    match value with
    | None => Err (MissingValue argument)
    | Some value => match parse_addr value with
                    | Some a => Ok (set_native_bind_addr (Some a) config)
                    | None => Err (InvalidNativeBindAddress value)
                    end
    end
  else if bool_decide (argument = "--native-unix"%string) then
    match value with
    | None => Err (MissingValue argument)
    | Some value => if bool_decide (value = ""%string) then Err (InvalidNativeUnixSocket value)
                    else Ok (set_native_unix_socket (Some value) config)
    end
  else if bool_decide (argument = "--max-body-bytes"%string) then
    result_map (λ v, set_max_body_bytes v config)
      (parse_nonzero_usize argument value InvalidMaxBodyBytes)
  else if bool_decide (argument = "--max-memory-bytes"%string) then
    result_map (λ v, set_max_memory_bytes v config)
      (parse_nonzero_usize argument value InvalidMaxMemoryBytes)
  else if bool_decide (argument = "--max-value-bytes"%string) then
    result_map (λ v, set_max_value_bytes v config)
      (parse_nonzero_usize argument value InvalidMaxValueBytes)
  else if bool_decide (argument = "--cleanup-interval-ms"%string) then
    result_map (λ v, set_cleanup_interval_ms v config)
      (parse_u64 argument value InvalidCleanupIntervalMs)
  else if bool_decide (argument = "--cleanup-max-entries-per-tick"%string) then
    result_map (λ v, set_cleanup_max_entries_per_tick v config)
      (parse_nonzero_usize argument value InvalidCleanupMaxEntriesPerTick)
  else Err (UnknownArgument argument).

(** The [while let Some(argument) = args.next()] loop. *)
Fixpoint parse_args (args : list string) (config : Config) : result Config ConfigError :=
  match args with
  | [] => Ok config
  | argument :: args =>
    if bool_decide (argument = "-h"%string) || bool_decide (argument = "--help"%string)
    then Err HelpRequested
    else match args with
    | [] => match apply_flag argument None config with Ok c => Ok c | Err e => Err e end
    | value :: rest =>
      match apply_flag argument (Some value) config with
      | Ok c => parse_args rest c
      | Err e => Err e
      end
    end
  end.

Definition from_args (args : list string) : option (result Config ConfigError) :=
  parse_args args <$> Config_default.

(** The arguments the loop takes from the iterator before it returns: it stops at
    [--help], at an unknown argument, and after a value it cannot use. *)
Fixpoint args_read (args : list string) (config : Config) : list string :=
  match args with
  | [] => []
  | argument :: args =>
    argument ::
    (if bool_decide (argument = "-h"%string) || bool_decide (argument = "--help"%string) then []
     else match args with
     | [] => []
     | value :: rest =>
       match apply_flag argument (Some value) config with
       | Ok c => value :: args_read rest c
       | Err (UnknownArgument _) => []
       | Err _ => [value]
       end
     end)
  end.

(** ** Help *)

Definition help_text (program_name : string) : string :=
  unlines
    ["Cachebox cache server";
     "";
     "Usage:";
     "  " +:+ program_name +:+ " [--bind <addr:port>] [--native-bind <addr:port>] [--native-unix <path>] [--max-body-bytes <bytes>] [--max-memory-bytes <bytes>] [--max-value-bytes <bytes>] [--cleanup-interval-ms <ms>] [--cleanup-max-entries-per-tick <count>]";
     "  " +:+ program_name +:+ " --help";
     "";
     "Options:";
     "  --bind <addr:port>  Address for the HTTP admin server to bind.";
     "                      Default: " +:+ DEFAULT_BIND_ADDR;
     "  --native-bind <addr:port>";
     "                      Address for the native TCP data-plane listener.";
     "                      Default: " +:+ DEFAULT_NATIVE_BIND_ADDR;
     "  --native-unix <path>";
     "                      Path for the native Unix socket data-plane listener.";
     "                      Disabled unless provided. Unix platforms only.";
     "  --max-body-bytes    Maximum accepted request body size.";
     "                      Default: " +:+ pretty DEFAULT_MAX_BODY_BYTES;
     "  --max-memory-bytes  Maximum estimated in-memory cache size.";
     "                      Default: " +:+ pretty DEFAULT_MAX_MEMORY_BYTES;
     "  --max-value-bytes   Maximum single cached value size.";
     "                      Default: " +:+ pretty DEFAULT_MAX_VALUE_BYTES;
     "  --cleanup-interval-ms";
     "                      Background expired-entry cleanup interval in milliseconds.";
     "                      Use 0 to disable background cleanup.";
     "                      Default: " +:+ pretty DEFAULT_CLEANUP_INTERVAL_MS;
     "  --cleanup-max-entries-per-tick";
     "                      Maximum expired entries reclaimed per cleanup tick.";
     "                      Default: " +:+ pretty DEFAULT_CLEANUP_MAX_ENTRIES_PER_TICK;
     "  -h, --help          Print this help text."]%string.

(** ** Properties *)

(** What every accepted configuration satisfies. *)
Record config_ok (c : Config) : Prop := {
  cfg_bind : addr_ok (bind_addr c);
  cfg_native : ∃ a, native_bind_addr c = Some a ∧ addr_ok a;
  cfg_body : 0 < max_body_bytes c ≤ U64_MAX;
  cfg_memory : 0 < max_memory_bytes c ≤ U64_MAX;
  cfg_value : 0 < max_value_bytes c ≤ U64_MAX;
  cfg_interval : cleanup_interval_ms c ≤ U64_MAX;
  cfg_tick : 0 < cleanup_max_entries_per_tick c ≤ U64_MAX;
  cfg_unix : native_unix_socket c ≠ Some ""%string
}.

Lemma parse_nonzero_ok flag value err v :
  parse_nonzero_usize flag value err = Ok v → 0 < v ≤ U64_MAX.
Proof.
  unfold parse_nonzero_usize. intros Hv. destruct value as [s|]; [|done].
  destruct (parse_unsigned s) as [n|] eqn:E; [|done]. apply parse_unsigned_le in E.
  destruct (N.eqb_spec n 0); [done|]. simplify_eq. lia.
Qed.

Lemma parse_u64_ok flag value err v : parse_u64 flag value err = Ok v → v ≤ U64_MAX.
Proof.
  unfold parse_u64. intros Hv. destruct value as [s|]; [|done].
  destruct (parse_unsigned s) as [n|] eqn:E; [|done]. apply parse_unsigned_le in E. by simplify_eq.
Qed.

Lemma result_map_Ok {A B E} (f : A → B) (r : result A E) b :
  result_map f r = Ok b → ∃ a, r = Ok a ∧ b = f a.
Proof. destruct r; simpl; [|done]. intros [= <-]. eauto. Qed.

Lemma apply_flag_ok argument value c c' :
  config_ok c → apply_flag argument value c = Ok c' → config_ok c'.
Proof.
  intros [Hb Hn H1 H2 H3 H4 H5 H6]. unfold apply_flag.
  case_bool_decide.
  { destruct value as [v|]; [|done]. destruct (parse_addr v) as [a|] eqn:E; [|done].
    apply parse_addr_ok in E. intros [= <-]. by split. }
  case_bool_decide.
  { destruct value as [v|]; [|done]. destruct (parse_addr v) as [a|] eqn:E; [|done].
    apply parse_addr_ok in E. intros [= <-]. split; try done. by exists a. }
  case_bool_decide.
  { destruct value as [v|]; [|done]. case_bool_decide; [done|]. intros [= <-]. split; try done.
    simpl. congruence. }
  do 3 (case_bool_decide;
    [intros (v & Hv%parse_nonzero_ok & ->)%result_map_Ok; by split|]).
  case_bool_decide; [intros (v & Hv%parse_u64_ok & ->)%result_map_Ok; by split|].
  case_bool_decide; [intros (v & Hv%parse_nonzero_ok & ->)%result_map_Ok; by split|done].
Qed.

Lemma parse_args_ok args c c' :
  config_ok c → parse_args args c = Ok c' → config_ok c'.
Proof.
  remember (length args) as n eqn:Hn. revert args c Hn.
  induction (lt_wf n) as [n _ IH]. intros args c -> Hc.
  destruct args as [|a [|v rest]]; simpl; [by intros [= <-]| |].
  - destruct (_ || _); [done|]. destruct (apply_flag a None c) eqn:E; [|done].
    intros [= <-]. by eapply apply_flag_ok.
  - destruct (_ || _); [done|]. destruct (apply_flag a (Some v) c) as [c1|] eqn:E; [|done].
    intros Hr. eapply (IH (length rest)); [simpl; lia|done| |exact Hr]. by eapply apply_flag_ok.
Qed.

Lemma default_ok c : Config_default = Some c → config_ok c.
Proof.
  unfold Config_default.
  intros (b & Hb%parse_addr_ok & (nb & Hnb%parse_addr_ok & [= <-])%bind_Some)%bind_Some.
  split; try done. by exists nb.
Qed.

(** The arguments that state every field of a configuration. *)
Definition to_args (c : Config) : list string :=
  ["--bind"%string; addr_to_string (bind_addr c)] ++
  (match native_bind_addr c with
   | Some a => ["--native-bind"%string; addr_to_string a] | None => [] end) ++
  (match native_unix_socket c with
   | Some p => ["--native-unix"%string; p] | None => [] end) ++
  ["--max-body-bytes"%string; pretty (max_body_bytes c);
   "--max-memory-bytes"%string; pretty (max_memory_bytes c);
   "--max-value-bytes"%string; pretty (max_value_bytes c);
   "--cleanup-interval-ms"%string; pretty (cleanup_interval_ms c);
   "--cleanup-max-entries-per-tick"%string; pretty (cleanup_max_entries_per_tick c)].

Lemma parse_args_cons argument value rest c c' :
  argument ≠ "-h"%string → argument ≠ "--help"%string →
  apply_flag argument (Some value) c = Ok c' →
  parse_args (argument :: value :: rest) c = parse_args rest c'.
Proof.
  intros H1 H2 Hf. cbn [parse_args]. rewrite !bool_decide_eq_false_2 by done. simpl. by rewrite Hf.
Qed.

Lemma parse_nonzero_pretty flag err n :
  0 < n ≤ U64_MAX → parse_nonzero_usize flag (Some (pretty n)) err = Ok n.
Proof.
  intros [H1 H2]. unfold parse_nonzero_usize. rewrite parse_unsigned_pretty by done.
  by rewrite (proj2 (N.eqb_neq _ _)) by lia.
Qed.

(** A numeric flag followed by its printed value. *)
Lemma parse_number_flag flag n rest c (set : N → Config → Config) err :
  flag ≠ "-h"%string → flag ≠ "--help"%string →
  apply_flag flag (Some (pretty n)) c =
    result_map (λ v, set v c) (parse_nonzero_usize flag (Some (pretty n)) err) →
  0 < n ≤ U64_MAX → parse_args (flag :: pretty n :: rest) c = parse_args rest (set n c).
Proof.
  intros H1 H2 Hf Hn. apply parse_args_cons; [done|done|]. by rewrite Hf, parse_nonzero_pretty.
Qed.

Lemma parse_interval_flag n rest c :
  n ≤ U64_MAX →
  parse_args ("--cleanup-interval-ms"%string :: pretty n :: rest) c
  = parse_args rest (set_cleanup_interval_ms n c).
Proof.
  intros Hn. apply parse_args_cons; [done|done|].
  change (apply_flag "--cleanup-interval-ms" (Some (pretty n)) c) with
    (result_map (λ v, set_cleanup_interval_ms v c)
      (parse_u64 "--cleanup-interval-ms" (Some (pretty n)) InvalidCleanupIntervalMs)).
  unfold parse_u64. by rewrite parse_unsigned_pretty.
Qed.

Lemma parse_numbers c c0 :
  config_ok c →
  parse_args
    ["--max-body-bytes"%string; pretty (max_body_bytes c);
     "--max-memory-bytes"%string; pretty (max_memory_bytes c);
     "--max-value-bytes"%string; pretty (max_value_bytes c);
     "--cleanup-interval-ms"%string; pretty (cleanup_interval_ms c);
     "--cleanup-max-entries-per-tick"%string; pretty (cleanup_max_entries_per_tick c)] c0
  = Ok (set_numbers (max_body_bytes c) (max_memory_bytes c) (max_value_bytes c)
          (cleanup_interval_ms c) (cleanup_max_entries_per_tick c) c0).
Proof.
  intros [_ _ H1 H2 H3 H4 H5 _].
  rewrite (parse_number_flag _ _ _ _ set_max_body_bytes InvalidMaxBodyBytes) by done.
  rewrite (parse_number_flag _ _ _ _ set_max_memory_bytes InvalidMaxMemoryBytes) by done.
  rewrite (parse_number_flag _ _ _ _ set_max_value_bytes InvalidMaxValueBytes) by done.
  rewrite parse_interval_flag by done.
  rewrite (parse_number_flag _ _ _ _ set_cleanup_max_entries_per_tick
    InvalidCleanupMaxEntriesPerTick) by done.
  reflexivity.
Qed.

Lemma parse_all c c0 :
  config_ok c → native_unix_socket c0 = None → parse_args (to_args c) c0 = Ok c.
Proof.
  intros Hc Hunix. pose proof (λ a, addr_roundtrip a) as Hshow. pose proof (cfg_bind c Hc) as Hba.
  destruct (cfg_native c Hc) as (nb & Hnb & Hna). pose proof (cfg_unix c Hc) as Hne.
  unfold to_args. rewrite Hnb. cbn [app].
  rewrite (parse_args_cons _ _ _ _ (set_bind_addr (bind_addr c) c0)); [|done|done|].
  2: { change (apply_flag "--bind" (Some (addr_to_string (bind_addr c))) c0) with
         (match parse_addr (addr_to_string (bind_addr c)) with
          | Some a => Ok (set_bind_addr a c0) | None => Err (InvalidBindAddress (addr_to_string (bind_addr c))) end).
       by rewrite Hshow by auto. }
  rewrite (parse_args_cons _ _ _ _ (set_native_bind_addr (Some nb) (set_bind_addr (bind_addr c) c0)));
    [|done|done|].
  2: { change (apply_flag "--native-bind" (Some (addr_to_string nb)) (set_bind_addr (bind_addr c) c0)) with
         (match parse_addr (addr_to_string nb) with
          | Some a => Ok (set_native_bind_addr (Some a) (set_bind_addr (bind_addr c) c0))
          | None => Err (InvalidNativeBindAddress (addr_to_string nb)) end).
       by rewrite Hshow by auto. }
  destruct (native_unix_socket c) as [path|] eqn:Hpath; cbn [app].
  - rewrite (parse_args_cons _ _ _ _ (set_native_unix_socket (Some path)
      (set_native_bind_addr (Some nb) (set_bind_addr (bind_addr c) c0)))); [|done|done|].
    2: { transitivity (if bool_decide (path = ""%string) then Err (InvalidNativeUnixSocket path)
           else Ok (set_native_unix_socket (Some path)
             (set_native_bind_addr (Some nb) (set_bind_addr (bind_addr c) c0)))); [reflexivity|].
         by rewrite bool_decide_eq_false_2 by congruence. }
    rewrite parse_numbers by done. by destruct c; simpl in *; subst.
  - rewrite parse_numbers by done. destruct c, c0; simpl in *; subst. done.
Qed.

Lemma from_to_args c : config_ok c → from_args (to_args c) = Some (Ok c).
Proof.
  intros Hc. unfold from_args. destruct Config_default as [d|] eqn:E; [|by vm_compute in E].
  simpl. f_equal. apply parse_all; [done|]. unfold Config_default in E.
  apply bind_Some in E as (b & _ & (nb & _ & [= <-])%bind_Some). done.
Qed.

Lemma from_args_total args :
  ∃ r, from_args args = Some r ∧ ∀ c, r = Ok c → config_ok c.
Proof.
  unfold from_args. destruct Config_default as [d|] eqn:E; [|by vm_compute in E].
  eexists. split; [reflexivity|]. intros c Hc. eapply parse_args_ok; [|exact Hc].
  by apply default_ok.
Qed.

(** Configurations are valid.  [from_args] returns without a panic for any
    arguments (the default addresses parse), and a configuration it accepts has
    two well-formed addresses, so that both listeners are always enabled,
    positive limits of 64 bits, a positive cleanup budget and no empty socket
    path. *)
Theorem config_valid args :
  ∃ r, from_args args = Some r ∧ ∀ c, r = Ok c → config_ok c.
Proof. apply from_args_total. Qed.

Definition sample_config : Config :=
  {| bind_addr := V4 [0; 0; 0; 0] 1; native_bind_addr := Some (V4 [10; 0; 255; 1] 65535);
     native_unix_socket := Some "/run/cbx"%string; max_body_bytes := 4096;
     max_memory_bytes := 1048576; max_value_bytes := 1024; cleanup_interval_ms := 0;
     cleanup_max_entries_per_tick := 7 |}.

Lemma sample_config_ok : config_ok sample_config.
Proof.
  split; [|eexists; split; [reflexivity|]|..]; simpl; unfold addr_ok, octets_ok;
    repeat (split || constructor); try (vm_compute; congruence); done.
Qed.
End Config.
