(* ===== verification/Startup.v ===== *)
(** * Startup: from the command line to a running server

    [src/main.rs], and of [src/server.rs] the start-up report, [run], the Unix
    socket's [bind_native_unix_listener] and the accept loops.  The operating
    system is a record of the outcomes of the calls the code makes, [Os]; an
    operation returns its result and the list of its effects, in order. *)

From S2P Require Import Prelude Bytes Numbers Addr AddrShow Config Server.

Module Startup.
Import Numbers Addr AddrShow Config.

(** ** Errors and effects *)

Inductive ErrorKind := NotFound | AddrInUse | AlreadyExists | OtherKind.

#[export] Instance ErrorKind_eq_dec : EqDecision ErrorKind.
Proof. solve_decision. Defined.

(** [std::io::Error]: its kind and its text *)
Record IoError := { kind : ErrorKind; message : string }.

Inductive TaskName := NativeTcp | NativeUnix | Cleanup.

#[export] Instance TaskName_eq_dec : EqDecision TaskName.
Proof. solve_decision. Defined.

Inductive Event :=
| Printed (text : string)
| BoundTcp (addr : SocketAddr)
| Removed (path : string)
| BoundUnix (path : string)
| Spawned (task : TaskName)
| Served
| Aborted (task : TaskName).

#[export] Instance Event_eq_dec : EqDecision Event.
Proof. solve_decision. Defined.

Definition println (line : string) : Event := Printed (line +:+ newline).

(** The outcomes of the system calls of one start. *)
Record Os := {
  os_bind_admin : result unit IoError;
  os_local_addr : result SocketAddr IoError;
  os_bind_native : result unit IoError;
  os_exists : bool;
  os_connect : result unit IoError;
  os_is_socket : result bool IoError;
  os_remove : result unit IoError;
  os_bind_unix : result unit IoError;
  os_ctrl_c : bool;
  os_serve : result unit IoError;
  os_remove_at_exit : result unit IoError
}.

(** An operation that may fail: its result, and its effects after those given. *)
Definition Io (A : Type) : Type := list Event → result A IoError * list Event.

Definition iret {A} (a : A) : Io A := λ tr, (Ok a, tr).
Definition ierr {A} (e : IoError) : Io A := λ tr, (Err e, tr).
Definition ilift {A} (r : result A IoError) : Io A := λ tr, (r, tr).
Definition emit (e : Event) : Io unit := λ tr, (Ok tt, tr ++ [e]).
Definition ibind {A B} (m : Io A) (k : A → Io B) : Io B := λ tr,
  match m tr with
  | (Ok a, tr) => k a tr
  | (Err e, tr) => (Err e, tr)
  end.

Declare Scope io_scope.
Delimit Scope io_scope with io.
Notation "x <- m ;; k" := (ibind m (λ x, k))
  (at level 100, m at level 99, right associativity, k at level 200) : io_scope.
Notation "m ;;> k" := (ibind m (λ _, k)) (at level 100, right associativity) : io_scope.
Open Scope io_scope.

(** ** The start-up report *)

Record StartupReport := {
  rp_admin_bind_addr : string;
  rp_native_bind_addr : option string;
  rp_native_unix_socket : option string;
  rp_max_body_bytes : N;
  rp_max_memory_bytes : N;
  rp_max_value_bytes : N;
  rp_cleanup_interval_ms : N;
  rp_cleanup_max_entries_per_tick : N
}.

Definition startup_report (config : Config) : StartupReport :=
  {| rp_admin_bind_addr := addr_to_string (bind_addr config);
     rp_native_bind_addr := addr_to_string <$> native_bind_addr config;
     rp_native_unix_socket := native_unix_socket config;
     rp_max_body_bytes := max_body_bytes config;
     rp_max_memory_bytes := max_memory_bytes config;
     rp_max_value_bytes := max_value_bytes config;
     rp_cleanup_interval_ms := cleanup_interval_ms config;
     rp_cleanup_max_entries_per_tick := cleanup_max_entries_per_tick config |}.

(** ** [run] *)

Definition active_error (path : string) : IoError :=
  {| kind := AddrInUse; message := "native Unix socket is already active: " +:+ path |}.

Definition not_socket_error (path : string) : IoError :=
  {| kind := AlreadyExists; message := "native Unix socket path is not a socket: " +:+ path |}.

Definition bind_native_unix_listener (os : Os) (path : string) : Io unit :=
  (if os_exists os then
     match os_connect os with
     | Ok _ => ierr (active_error path)
     | Err error =>
       if bool_decide (kind error = NotFound) then iret tt
       else
         is_socket <- ilift (os_is_socket os);;
         if negb is_socket then ierr (not_socket_error path)
         else ilift (os_remove os);;> emit (Removed path)
     end
   else iret tt);;>
  ilift (os_bind_unix os);;> emit (BoundUnix path).

Definition start_line (config : Config) (local_addr : SocketAddr) : string :=
  "event=server_start admin_bind_addr=" +:+ addr_to_string local_addr +:+
  " native_bind_addr=" +:+ default "disabled"%string (addr_to_string <$> native_bind_addr config) +:+
  " native_unix_socket=" +:+ default "disabled"%string (native_unix_socket config) +:+
  " max_body_bytes=" +:+ pretty (max_body_bytes config) +:+
  " max_memory_bytes=" +:+ pretty (max_memory_bytes config) +:+
  " max_value_bytes=" +:+ pretty (max_value_bytes config) +:+
  " cleanup_interval_ms=" +:+ pretty (cleanup_interval_ms config) +:+
  " cleanup_max_entries_per_tick=" +:+ pretty (cleanup_max_entries_per_tick config).

(** [shutdown_signal], when the signal comes *)
Definition shutdown_signal (os : Os) : Io unit :=
  if os_ctrl_c os then emit (println "event=server_shutdown signal=ctrl_c") else iret tt.

(** [if let Some(task) = task { task.abort() }] *)
Definition abort_task (spawned : bool) (task : TaskName) : Io unit :=
  if spawned then emit (Aborted task) else iret tt.

Definition spawn_task (enabled : bool) (task : TaskName) : Io unit :=
  if enabled then emit (Spawned task) else iret tt.

Definition is_some {A} (o : option A) : bool := match o with Some _ => true | None => false end.

(** On Unix. *)
Definition run (os : Os) (config : Config) : Io unit :=
  ilift (os_bind_admin os);;> emit (BoundTcp (bind_addr config));;>
  local_addr <- ilift (os_local_addr os);;
  emit (println (start_line config local_addr));;>
  (match native_bind_addr config with
   | Some addr => ilift (os_bind_native os);;> emit (BoundTcp addr)
   | None => iret tt
   end);;>
  spawn_task (is_some (native_bind_addr config)) NativeTcp;;>
  (match native_unix_socket config with
   | Some path => bind_native_unix_listener os path
   | None => iret tt
   end);;>
  spawn_task (is_some (native_unix_socket config)) NativeUnix;;>
  let cleanup := Server.Server.expiration_worker_enabled (cleanup_interval_ms config) in
  spawn_task cleanup Cleanup;;>
  emit Served;;> shutdown_signal os;;>
  abort_task cleanup Cleanup;;>
  abort_task (is_some (native_bind_addr config)) NativeTcp;;>
  abort_task (is_some (native_unix_socket config)) NativeUnix;;>
  (match native_unix_socket config with
   | Some path => if is_ok (os_remove_at_exit os) then emit (Removed path) else iret tt
   | None => iret tt
   end);;>
  ilift (os_serve os).

(** ** [main] *)






(** ** Accept loops *)

(** One turn of the loop of [run_native_tcp_listener]: what [accept] and
    [set_nodelay] return.  The result is the number of connections handed to a
    task, and the error that ended the loop, if one did. *)
Fixpoint run_native_tcp_listener (turns : list (result unit IoError * result unit IoError))
    (spawned : nat) : nat * option IoError :=
  match turns with
  | [] => (spawned, None)
  | (Err error, _) :: _ => (spawned, Some error)
  | (Ok _, Err error) :: _ => (spawned, Some error)
  | (Ok _, Ok _) :: turns => run_native_tcp_listener turns (S spawned)
  end.

Fixpoint run_native_unix_listener (turns : list (result unit IoError)) (spawned : nat) :
    nat * option IoError :=
  match turns with
  | [] => (spawned, None)
  | Err error :: _ => (spawned, Some error)
  | Ok _ :: turns => run_native_unix_listener turns (S spawned)
  end.

(** The first failed turn ends the loop for good, while [run] goes on serving:
    nothing looks at the result of the listener's task. *)
Theorem listener_ends served turn rest n :
  (turn.1 ≠ Ok tt ∨ turn.2 ≠ Ok tt) →
  ∃ e, run_native_tcp_listener (replicate served (Ok tt, Ok tt) ++ turn :: rest) n =
    ((n + served)%nat, Some e).
Proof.
  intros Hf. revert n. induction served as [|served IH]; intros n.
  - rewrite Nat.add_0_r. destruct turn as [[[]|e] [[]|e']]; simpl in *; eauto. naive_solver.
  - destruct (IH (S n)) as [e He]. exists e. simpl. rewrite He. f_equal. lia.
Qed.

(** ** The life of a server *)

(** The calls that must succeed for the server to serve. *)
Definition unix_ok (os : Os) : Prop :=
  (os_exists os = true → ∃ e, os_connect os = Err e ∧
     (kind e ≠ NotFound → os_is_socket os = Ok true ∧ os_remove os = Ok tt)) ∧
  os_bind_unix os = Ok tt.

Definition start_ok (os : Os) (config : Config) : Prop :=
  os_bind_admin os = Ok tt ∧ is_ok (os_local_addr os) = true ∧
  (is_some (native_bind_addr config) = true → os_bind_native os = Ok tt) ∧
  (is_some (native_unix_socket config) = true → unix_ok os).

(** A socket file that nobody serves. *)
Definition stale_socket (os : Os) : Prop :=
  os_exists os = true ∧ (∃ e, os_connect os = Err e ∧ kind e ≠ NotFound) ∧
  os_is_socket os = Ok true.

(** What the bind of the Unix socket does to the path. *)
Definition unix_effects (os : Os) (path : string) (more : list Event) : Prop :=
  more = [] ∨ (stale_socket os ∧ more = [Removed path]).

Lemma unix_cases os path tr :
  ∃ r more, bind_native_unix_listener os path tr = (r, tr ++ more) ∧
    ((r = Ok tt ∧ unix_ok os ∧ ∃ pre, more = pre ++ [BoundUnix path] ∧ unix_effects os path pre) ∨
     ((∃ e, r = Err e) ∧ ¬ unix_ok os ∧ unix_effects os path more)).
Proof.
  unfold bind_native_unix_listener, ibind, ilift, iret, ierr, emit.
  destruct (os_exists os) eqn:Ex; [destruct (os_connect os) as [[]|e] eqn:Ec|].
  - exists (Err (active_error path)), []. rewrite app_nil_r. split; [done|]. right.
    split_and!; [eauto| |by left]. intros [Hc _]. destruct (Hc Ex) as (? & ? & _). congruence.
  - case_bool_decide as Hk.
    + destruct (os_bind_unix os) as [[]|e'] eqn:Eb.
      * eexists _, [BoundUnix path]. split; [done|]. left. split_and!; [done| |by exists []; split; [|left]].
        split; [|done]. intros _. exists e. by split.
      * exists (Err e'), []. rewrite app_nil_r. split; [done|]. right.
        split_and!; [eauto|intros [_ ?]; congruence|by left].
    + assert (os_is_socket os = Ok true → stale_socket os) as Hstale
        by (intros; split_and!; eauto).
      destruct (os_is_socket os) as [[]|e'] eqn:Es; simpl.
      * destruct (os_remove os) as [[]|e'] eqn:Er.
        -- destruct (os_bind_unix os) as [[]|e'] eqn:Eb.
           ++ eexists _, [Removed path; BoundUnix path]. split; [by rewrite <- app_assoc|]. left.
              split_and!; [done| |exists [Removed path]; split; [done|right; auto]].
              split; [|done]. intros _. exists e. by split.
           ++ eexists _, [Removed path]. split; [done|]. right.
              split_and!; [eauto|intros [_ ?]; congruence|right; auto].
        -- exists (Err e'), []. rewrite app_nil_r. split; [done|]. right.
           split_and!; [eauto| |by left]. intros [Hc _].
           destruct (Hc Ex) as (e0 & He & Hr). rewrite Ec in He. injection He as <-. destruct (Hr Hk). congruence.
      * exists (Err (not_socket_error path)), []. rewrite app_nil_r. split; [done|]. right.
        split_and!; [eauto| |by left]. intros [Hc _].
        destruct (Hc Ex) as (e0 & He & Hr). rewrite Ec in He. injection He as <-. destruct (Hr Hk). congruence.
      * exists (Err e'), []. rewrite app_nil_r. split; [done|]. right.
        split_and!; [eauto| |by left]. intros [Hc _].
        destruct (Hc Ex) as (e0 & He & Hr). rewrite Ec in He. injection He as <-. destruct (Hr Hk). congruence.
  - destruct (os_bind_unix os) as [[]|e'] eqn:Eb.
    + eexists _, [BoundUnix path]. split; [done|]. left. split_and!; [done|by split; [rewrite Ex|]|by exists []; split; [|left]].
    + exists (Err e'), []. rewrite app_nil_r. split; [done|]. right.
      split_and!; [eauto|intros [_ ?]; congruence|by left].
Qed.

(** The tasks a configuration asks for. *)
Definition wanted (config : Config) (t : TaskName) : bool :=
  match t with
  | NativeTcp => is_some (native_bind_addr config)
  | NativeUnix => is_some (native_unix_socket config)
  | Cleanup => Server.Server.expiration_worker_enabled (cleanup_interval_ms config)
  end.

Definition spawn_events (config : Config) (ts : list TaskName) : list Event :=
  Spawned <$> filter (λ t, wanted config t = true) ts.

Definition abort_events (config : Config) (ts : list TaskName) : list Event :=
  Aborted <$> filter (λ t, wanted config t = true) ts.

(** The part of [run] from the moment it serves. *)
Definition serve_events (os : Os) (config : Config) : list Event :=
  [Served] ++ (if os_ctrl_c os then [println "event=server_shutdown signal=ctrl_c"] else []) ++
  abort_events config [Cleanup; NativeTcp; NativeUnix] ++
  (match native_unix_socket config with
   | Some path => if is_ok (os_remove_at_exit os) then [Removed path] else []
   | None => []
   end).

(** The part of [run] before it serves: which of its calls failed, if any. *)
Inductive started (os : Os) (config : Config) : result unit IoError → list Event → Prop :=
| started_ok pre :
    start_ok os config →
    (∀ p, Removed p ∈ pre → native_unix_socket config = Some p ∧ stale_socket os) →
    (∀ t, Spawned t ∈ pre ↔ wanted config t = true) →
    (∀ a, BoundTcp a ∈ pre ↔ a = bind_addr config ∨ Some a = native_bind_addr config) →
    Served ∉ pre → (∀ t, Aborted t ∉ pre) →
    started os config (os_serve os) (pre ++ serve_events os config)
| started_err e pre :
    ¬ start_ok os config →
    (∀ p, Removed p ∈ pre → native_unix_socket config = Some p ∧ stale_socket os) →
    (∀ t, Spawned t ∈ pre → t = NativeTcp) →
    Served ∉ pre → (∀ t, Aborted t ∉ pre) →
    started os config (Err e) pre.

Lemma spawn_task_eq config t tr :
  spawn_task (wanted config t) t tr = (Ok tt, tr ++ spawn_events config [t]).
Proof.
  unfold spawn_task, spawn_events. rewrite filter_cons, filter_nil.
  destruct (wanted config t) eqn:E; [by rewrite decide_True|]. rewrite decide_False by congruence.
  by rewrite app_nil_r.
Qed.

Lemma abort_task_eq config t tr :
  abort_task (wanted config t) t tr = (Ok tt, tr ++ abort_events config [t]).
Proof.
  unfold abort_task, abort_events. rewrite filter_cons, filter_nil.
  destruct (wanted config t) eqn:E; [by rewrite decide_True|]. rewrite decide_False by congruence.
  by rewrite app_nil_r.
Qed.

Lemma abort_events_cons config t ts :
  abort_events config (t :: ts) = abort_events config [t] ++ abort_events config ts.
Proof. unfold abort_events. change (t :: ts) with ([t] ++ ts). by rewrite list.filter_app, fmap_app. Qed.

(** The rest of [run] once everything is bound. *)
Lemma run_serves os config tr :
  (spawn_task (wanted config Cleanup) Cleanup;;>
   emit Served;;> shutdown_signal os;;>
   abort_task (wanted config Cleanup) Cleanup;;>
   abort_task (wanted config NativeTcp) NativeTcp;;>
   abort_task (wanted config NativeUnix) NativeUnix;;>
   (match native_unix_socket config with
    | Some path => if is_ok (os_remove_at_exit os) then emit (Removed path) else iret tt
    | None => iret tt
    end);;>
   ilift (os_serve os)) tr =
  (os_serve os, (tr ++ spawn_events config [Cleanup]) ++ serve_events os config).
Proof.
  unfold ibind at 1. rewrite spawn_task_eq. generalize (tr ++ spawn_events config [Cleanup]). clear tr.
  intros tr. unfold serve_events. rewrite !(abort_events_cons _ _ (_ :: _)).
  unfold ibind at 1, emit at 1. unfold ibind at 1.
  assert (shutdown_signal os (tr ++ [Served]) = (Ok tt, (tr ++ [Served]) ++
    if os_ctrl_c os then [println "event=server_shutdown signal=ctrl_c"] else [])) as ->.
  { unfold shutdown_signal. destruct (os_ctrl_c os); [done|]. by rewrite app_nil_r. }
  unfold ibind at 1. rewrite abort_task_eq. unfold ibind at 1. rewrite abort_task_eq.
  unfold ibind at 1. rewrite abort_task_eq. unfold ibind, ilift, emit, iret.
  destruct (native_unix_socket config) as [path|]; [destruct (is_ok (os_remove_at_exit os))|];
    rewrite ?app_nil_r, <- ?app_assoc; done.
Qed.

(** Closes the membership conditions of [started] on a concrete list. *)
Ltac events := repeat intros ?; repeat match goal with
  | H : _ ∈ _ ++ _ |- _ => apply elem_of_app in H
  | H : _ ∈ _ :: _ |- _ => apply elem_of_cons in H
  | H : _ ∈ [] |- _ => by apply not_elem_of_nil in H
  | H : _ ∨ _ |- _ => destruct H
  end; simplify_eq; try done.

Lemma unix_effects_events os path more :
  unix_effects os path more →
  (∀ p, Removed p ∈ more → p = path ∧ stale_socket os) ∧
  (∀ e, e ∈ more → ∃ p, e = Removed p).
Proof. intros [-> | [Hs ->]]; split; events; eauto. Qed.

Lemma in_spawn config t ts : Spawned t ∈ spawn_events config ts ↔ wanted config t = true ∧ t ∈ ts.
Proof.
  unfold spawn_events. rewrite list_elem_of_fmap. setoid_rewrite list_elem_of_filter.
  split; [by intros (? & [= <-] & ?)|eauto].
Qed.

Lemma not_in_spawn config e ts : (∀ t, e ≠ Spawned t) → e ∉ spawn_events config ts.
Proof. intros He (t & -> & _)%list_elem_of_fmap. by destruct (He t). Qed.

(** The start up to the TCP listeners. *)
Definition tcp_events (config : Config) (line : string) : list Event :=
  [BoundTcp (bind_addr config); println line] ++ (BoundTcp <$> option_list (native_bind_addr config)) ++
  spawn_events config [NativeTcp].

Lemma in_tcp_events config line e :
  e ∈ tcp_events config line ↔
  (e = BoundTcp (bind_addr config) ∨ ∃ a, native_bind_addr config = Some a ∧ e = BoundTcp a) ∨
  e = println line ∨ (e = Spawned NativeTcp ∧ wanted config NativeTcp = true).
Proof.
  unfold tcp_events, spawn_events. rewrite filter_cons, filter_nil. unfold wanted.
  destruct (native_bind_addr config) as [a|]; simpl;
    rewrite ?elem_of_cons, ?elem_of_nil; naive_solver.
Qed.

(** [run] from the bind of the Unix socket on. *)
Definition run_unix (os : Os) (config : Config) : Io unit :=
  (match native_unix_socket config with
   | Some path => bind_native_unix_listener os path
   | None => iret tt
   end);;>
  spawn_task (is_some (native_unix_socket config)) NativeUnix;;>
  spawn_task (wanted config Cleanup) Cleanup;;>
  emit Served;;> shutdown_signal os;;>
  abort_task (wanted config Cleanup) Cleanup;;>
  abort_task (is_some (native_bind_addr config)) NativeTcp;;>
  abort_task (is_some (native_unix_socket config)) NativeUnix;;>
  (match native_unix_socket config with
   | Some path => if is_ok (os_remove_at_exit os) then emit (Removed path) else iret tt
   | None => iret tt
   end);;>
  ilift (os_serve os).

Lemma run_unix_cases os config tr :
  (∃ pre, run_unix os config tr = (os_serve os, tr ++ (pre ++
      spawn_events config [NativeUnix; Cleanup]) ++ serve_events os config) ∧
    (is_some (native_unix_socket config) = true → unix_ok os) ∧
    ∀ e, e ∈ pre → ∃ p, native_unix_socket config = Some p ∧
      (e = BoundUnix p ∨ (e = Removed p ∧ stale_socket os))) ∨
  (∃ e pre, run_unix os config tr = (Err e, tr ++ pre) ∧
    ¬ (is_some (native_unix_socket config) = true → unix_ok os) ∧
    ∀ e, e ∈ pre → ∃ p, native_unix_socket config = Some p ∧ e = Removed p ∧ stale_socket os).
Proof.
  unfold run_unix. set (k := λ _ : unit, _).
  assert (∀ tr, k tt tr = (os_serve os, tr ++ spawn_events config [NativeUnix; Cleanup] ++
    serve_events os config)) as Hk.
  { intros tr'. subst k. cbv beta.
    change (is_some (native_unix_socket config)) with (wanted config NativeUnix).
    change (is_some (native_bind_addr config)) with (wanted config NativeTcp).
    unfold ibind at 1. rewrite spawn_task_eq, run_serves. f_equal. unfold spawn_events.
    change [NativeUnix; Cleanup] with ([NativeUnix] ++ [Cleanup]).
    by rewrite list.filter_app, fmap_app, <- !app_assoc. }
  unfold ibind. destruct (native_unix_socket config) as [path|] eqn:Eu.
  - destruct (unix_cases os path tr) as (r & more & Heq & Hc). rewrite Heq.
    destruct Hc as [(-> & Hok & pre & -> & Hpre)|([e ->] & Hno & Hpre)];
      apply unix_effects_events in Hpre as [Hp1 Hp2].
    + left. exists (pre ++ [BoundUnix path]). rewrite Hk, <- !app_assoc. split_and!; [done|done|].
      intros e [He|He]%elem_of_app; exists path; split; try done.
      * destruct (Hp2 e He) as [p ->]. destruct (Hp1 p He) as [-> ?]. auto.
      * left. by apply list_elem_of_singleton in He.
    + right. exists e, more. split_and!; [done|naive_solver|]. intros e' He. exists path.
      destruct (Hp2 e' He) as [p ->]. by destruct (Hp1 p He) as [-> ?].
  - left. exists []. unfold iret. rewrite Hk. split_and!; [done|done|]. events.
Qed.

Definition bind_tcp (os : Os) (config : Config) : Io unit :=
  match native_bind_addr config with
  | Some addr => ilift (os_bind_native os);;> emit (BoundTcp addr)
  | None => iret tt
  end.

Lemma bind_tcp_cases os config tr :
  (bind_tcp os config tr = (Ok tt, tr ++ (BoundTcp <$> option_list (native_bind_addr config))) ∧
   (is_some (native_bind_addr config) = true → os_bind_native os = Ok tt)) ∨
  (∃ e, bind_tcp os config tr = (Err e, tr) ∧
   ¬ (is_some (native_bind_addr config) = true → os_bind_native os = Ok tt)).
Proof.
  unfold bind_tcp, ibind, ilift, emit, iret. destruct (native_bind_addr config) as [a|];
    [destruct (os_bind_native os) as [[]|e]|].
  - by left.
  - right. exists e. split; [done|]. naive_solver.
  - left. by rewrite app_nil_r.
Qed.

(** Where an event of the start comes from. *)
Ltac start_events Htcp Hpre :=
  repeat intros ?; repeat match goal with
  | H : _ ∈ _ ++ _ |- _ => apply elem_of_app in H as [H|H]
  | H : _ ∈ tcp_events _ _ |- _ => apply Htcp in H
  | H : _ ∈ spawn_events _ _ |- _ => by apply not_in_spawn in H
  | H : _ ∈ _ |- _ => destruct (Hpre _ H) as (? & ? & ?); clear H
  end; naive_solver.

Lemma run_started os config tr :
  ∃ r more, run os config tr = (r, tr ++ more) ∧ started os config r more.
Proof.
  change (run os config) with
    (ilift (os_bind_admin os);;> emit (BoundTcp (bind_addr config));;>
     local_addr <- ilift (os_local_addr os);;
     emit (println (start_line config local_addr));;>
     bind_tcp os config;;>
     spawn_task (wanted config NativeTcp) NativeTcp;;> run_unix os config).
  unfold ibind at 1, ilift at 1. destruct (os_bind_admin os) as [[]|e] eqn:Ea.
  2: { exists (Err e), []. rewrite app_nil_r. split; [done|]. apply started_err; [|events..].
       intros (? & _). congruence. }
  unfold ibind at 1, emit at 1. unfold ibind at 1, ilift at 1.
  destruct (os_local_addr os) as [local|e] eqn:El.
  2: { exists (Err e), [BoundTcp (bind_addr config)]. split; [done|]. apply started_err; [|events..].
       intros (_ & Hl & _). by rewrite El in Hl. }
  unfold ibind at 1, emit at 1. set (line := start_line config local).
  unfold ibind at 1. rewrite <- app_assoc. cbn [app].
  destruct (bind_tcp_cases os config (tr ++ [BoundTcp (bind_addr config); println line]))
    as [[-> Hbn]|(e & -> & Hno)].
  2: { exists (Err e), [BoundTcp (bind_addr config); println line]. split; [done|].
       apply started_err; [|events..]. by intros (_ & _ & ? & _). }
  unfold ibind at 1. rewrite spawn_task_eq, <- !app_assoc.
  change (_ ++ _ ++ spawn_events config [NativeTcp]) with (tcp_events config line).
  pose proof (in_tcp_events config line) as Htcp.
  destruct (run_unix_cases os config (tr ++ tcp_events config line))
    as [(pre & -> & Hok & Hpre)|(e & pre & -> & Hno & Hpre)].
  - exists (os_serve os), ((tcp_events config line ++ pre ++ spawn_events config [NativeUnix; Cleanup])
      ++ serve_events os config).
    rewrite <- !app_assoc. split; [done|]. rewrite (app_assoc _ _ (serve_events _ _)),
      (app_assoc (tcp_events _ _)). apply started_ok;
      [split; [done|split; [by rewrite El|by split]]|..].
    + start_events Htcp Hpre.
    + intros t. rewrite !elem_of_app, Htcp, in_spawn. split.
      * intros [Ht|[Ht|[Ht _]]]; [naive_solver| |done].
        destruct (Hpre _ Ht) as (q & ? & Hq). naive_solver.
      * intros Ht. destruct t; [left; naive_solver|right; right..]; (split; [done|set_solver]).
    + intros a. split; [start_events Htcp Hpre|]. rewrite !elem_of_app, Htcp.
      intros [-> | Ha]; left; left; [by left|]. right. eauto.
    + start_events Htcp Hpre.
    + start_events Htcp Hpre.
  - exists (Err e), (tcp_events config line ++ pre). rewrite <- app_assoc. split; [done|].
    apply started_err; [by intros (_ & _ & _ & ?)|start_events Htcp Hpre..].
Qed.

(** ** Claims *)

(** C25: the life of a server.  Whatever the operating system answers, [run]
    serves exactly when every bind it needs succeeds; then it bound the
    configured addresses and spawned exactly the tasks the configuration asks
    for, before serving, and returns the result of serving after it has aborted
    each of them; otherwise it returns an error without having served.  Before
    serving it removes nothing but a configured socket path that exists, to
    which connecting failed with an error other than [NotFound], and which is a
    socket. *)
Theorem run_lifecycle os config r tr :
  run os config [] = (r, tr) →
  (Served ∈ tr ↔ start_ok os config) ∧
  (start_ok os config →
    r = os_serve os ∧ ∃ before after, tr = before ++ Served :: after ∧
    (∀ a, BoundTcp a ∈ before ↔ a = bind_addr config ∨ Some a = native_bind_addr config) ∧
    (∀ t, Spawned t ∈ before ↔ wanted config t = true) ∧
    (∀ t, Aborted t ∈ after ↔ wanted config t = true) ∧
    (∀ p, Removed p ∈ before → native_unix_socket config = Some p ∧ stale_socket os)) ∧
  (¬ start_ok os config → is_ok r = false ∧ (∀ t, Spawned t ∈ tr → t = NativeTcp) ∧
    (∀ p, Removed p ∈ tr → native_unix_socket config = Some p ∧ stale_socket os)).
Proof.
  intros Heq. destruct (run_started os config []) as (r' & more & Heq' & Hs).
  rewrite Heq in Heq'. injection Heq' as <- <-.
  destruct Hs as [pre Hok H1 H2 H3 H4 H5|e pre Hno H1 H2 H3 H4].
  - split_and!; [|intros _|done].
    + split; [done|]. intros _. apply elem_of_app. right. by left.
    + split; [done|]. eexists pre, _. split; [reflexivity|]. split_and!; try done.
      intros t. rewrite !elem_of_app. unfold abort_events. rewrite list_elem_of_fmap.
      setoid_rewrite list_elem_of_filter. split.
      * intros [Ht|[(? & [= <-] & ? & _)|Ht]]; [|done|].
        -- destruct (os_ctrl_c os); events.
        -- destruct (native_unix_socket config); [destruct (is_ok _)|]; events.
      * intros Ht. right. left. exists t. split; [done|]. split; [done|]. destruct t; set_solver.
  - split_and!; [by split|done|done].
Qed.

Definition calm_os : Os :=
  {| os_bind_admin := Ok tt; os_local_addr := Ok (V4 [0; 0; 0; 0] 1); os_bind_native := Ok tt;
     os_exists := true; os_connect := Err {| kind := OtherKind; message := "refused" |};
     os_is_socket := Ok true; os_remove := Ok tt; os_bind_unix := Ok tt; os_ctrl_c := true;
     os_serve := Ok tt; os_remove_at_exit := Ok tt |}.

Lemma run_lifecycle_witness :
  ∃ r tr, run calm_os sample_config [] = (r, tr) ∧ Served ∈ tr ∧ r = Ok tt.
Proof.
  destruct (run calm_os sample_config []) as [r tr] eqn:E.
  destruct (run_lifecycle calm_os sample_config r tr E) as (H1 & H2 & _).
  assert (start_ok calm_os sample_config) as Hok.
  { split; [reflexivity|]. split; [reflexivity|]. split; [reflexivity|]. intros _. split; [|reflexivity].
    intros _. eexists. split; [reflexivity|]. intros _. split; reflexivity. }
  exists r, tr. split; [reflexivity|]. split; [exact (proj2 H1 Hok) | exact (proj1 (H2 Hok))].
Defined.


(** C27: the report states the configuration.  The flags with the texts of the
    start-up report as values parse back to the configuration, for every valid
    configuration, IPv6 addresses with scopes and compressed zeros included. *)
Theorem report_roundtrip config :
  config_ok config →
  let r := startup_report config in
  from_args
    (["--bind"%string; rp_admin_bind_addr r] ++
     (match rp_native_bind_addr r with Some a => ["--native-bind"%string; a] | None => [] end) ++
     (match rp_native_unix_socket r with Some p => ["--native-unix"%string; p] | None => [] end) ++
     ["--max-body-bytes"%string; pretty (rp_max_body_bytes r);
      "--max-memory-bytes"%string; pretty (rp_max_memory_bytes r);
      "--max-value-bytes"%string; pretty (rp_max_value_bytes r);
      "--cleanup-interval-ms"%string; pretty (rp_cleanup_interval_ms r);
      "--cleanup-max-entries-per-tick"%string; pretty (rp_cleanup_max_entries_per_tick r)])
  = Some (Ok config).
Proof.
  intros Hc r. rewrite <- (from_to_args config Hc). f_equal. unfold to_args, r. simpl.
  by destruct (native_bind_addr config).
Qed.

Definition sample_v6_config : Config :=
  {| bind_addr := V6 [0xfe80; 0; 0; 0; 0; 0; 0; 1] 3 80;
     native_bind_addr := Some (V6 [0; 0; 0; 0; 0; 0xffff; 0x0a00; 1] 0 65535);
     native_unix_socket := None; max_body_bytes := 4096; max_memory_bytes := 1048576;
     max_value_bytes := 1024; cleanup_interval_ms := 0; cleanup_max_entries_per_tick := 7 |}.

Lemma report_roundtrip_witness :
  rp_admin_bind_addr (startup_report sample_v6_config) = "[fe80::1%3]:80"%string ∧
  from_args ["--bind"; "[fe80::1%3]:80"; "--native-bind"; "[::ffff:10.0.0.1]:65535";
    "--max-body-bytes"; "4096"; "--max-memory-bytes"; "1048576"; "--max-value-bytes"; "1024";
    "--cleanup-interval-ms"; "0"; "--cleanup-max-entries-per-tick"; "7"]%string
  = Some (Ok sample_v6_config).
Proof.
  split; [vm_compute; reflexivity|]. rewrite <- (report_roundtrip sample_v6_config).
  - vm_compute. reflexivity.
  - split; [|eexists; split; [reflexivity|]|..]; simpl; unfold addr_ok, groups_ok;
      repeat (split || constructor); try (vm_compute; congruence); done.
Defined.
End Startup.
