(* ===== verification/Cachebox.v ===== *)
(** * Cachebox: the program from its command line to its connections

    What [src/main.rs] and [run] put together: the arguments give a
    configuration ([Config]), its limits the state of the server
    ([AppState::from_config]), and the listeners, the admin routes and the
    cleanup worker act on that state ([Startup], [System]). *)

From S2P Require Import Prelude Bytes Engine Sharded ShardedInv ShardedSpec.
From S2P Require Import Consistent Server ServerFacts Connection ServerInv System Config Startup.

Module Cachebox.
Import Server ServerFacts ServerInv System.
Import Config(Config). Import Startup(IoError).
Import Sharded(ShardEnv). Import ShardedInv ShardedSpec Consistent.

Section cachebox.
Context `{Engine.HashOrder, ShardEnv}.

(** [AppState::from_config] *)
Definition from_config (config : Config) : option AppState :=
  from_limits (Config.max_memory_bytes config) (Config.max_value_bytes config).

Definition config_limits (config : Config) : Engine.EngineLimits :=
  {| Engine.max_memory_bytes := Config.max_memory_bytes config;
     Engine.max_value_bytes := Config.max_value_bytes config |}.

(** [Router]: the fallback handler takes every method and path. *)
Definition Router : Type := HttpMethod → string → option (AdminResponse * AppState).

Definition app_with_state (st : AppState) : Router := λ method path, handle_request method path st.

Definition app (config : Config) : option Router := app_with_state <$> from_config config.

(** The server after [n] connections were handed to their tasks. *)
Definition accepted (n : nat) (s : System) : System := Nat.iter n accept s.

(** [serve_native_tcp] and [serve_native_unix]: a state of its own, and the
    accept loop of the listener on it. *)
Definition serve_native_tcp (config : Config)
    (turns : list (result unit IoError * result unit IoError)) : option (System * option IoError) :=
  st ← from_config config;
  let '(n, e) := Startup.run_native_tcp_listener turns 0 in
  Some (accepted n (System_new st), e).

Definition serve_native_unix (config : Config) (turns : list (result unit IoError)) :
    option (System * option IoError) :=
  st ← from_config config;
  let '(n, e) := Startup.run_native_unix_listener turns 0 in
  Some (accepted n (System_new st), e).

(** The steps of the server under a configuration. *)
Definition cachebox_step (config : Config) : System → System → Prop :=
  SysStep (Config.max_body_bytes config) (Config.cleanup_max_entries_per_tick config).

Lemma from_config_total config : is_Some (from_config config).
Proof. unfold from_config, from_limits, Sharded.with_limits, Sharded.with_clock_and_limits. simpl. eauto. Qed.

Lemma accepted_reached config n s : rtc (cachebox_step config) s (accepted n s).
Proof.
  induction n as [|n IH]; [done|]. eapply rtc_r; [exact IH|]. apply sys_accept.
Qed.

Lemma reached_bounded config st s :
  Config.max_memory_bytes config < USIZE_MAX → from_config config = Some st →
  rtc (cachebox_step config) (System_new st) s →
  st_len (config_limits config) Engine.DEFAULT_SHARD_COUNT (sy_state s).
Proof.
  intros Hlim Hnew Hr. eapply syo_state, sys_reachable_ok; [|exact Hr].
  by apply (start_state_len (config_limits config)).
Qed.
End cachebox.

(** ** Claim *)

(** C24: the memory of the program.  A configuration with a memory limit
    below [usize::MAX] gives a server, and in every state it reaches, by
    connections accepted and served, admin requests, cleanup ticks and critical
    sections of engine calls in any order, the bytes charged for its entries are at most [--max-memory-bytes]
    and fifteen (the limit of each of the sixteen shards is rounded up).  So it
    is too for the servers of [serve_native_tcp] and [serve_native_unix]. *)
Theorem cachebox_memory `{Engine.HashOrder, ShardEnv} config :
  Config.max_memory_bytes config < USIZE_MAX →
  ∃ st, from_config config = Some st ∧
    (∀ s, rtc (cachebox_step config) (System_new st) s →
       Sharded.memory_used_bytes (engine (sy_state s)) ≤ Config.max_memory_bytes config + 15) ∧
    (∀ turns, ∃ s e, serve_native_tcp config turns = Some (s, e) ∧
       rtc (cachebox_step config) (System_new st) s) ∧
    (∀ turns, ∃ s e, serve_native_unix config turns = Some (s, e) ∧
       rtc (cachebox_step config) (System_new st) s).
Proof.
  intros Hlim. destruct (from_config_total config) as [st Hst]. exists st. split_and!; [done|..].
  - intros s Hr. destruct (reached_bounded config st s Hlim Hst Hr) as [[Hinv Hl _] Hn].
    pose proof (consistent_memory _ Hinv) as Hle. unfold len in Hle.
    rewrite Hl, Hn in Hle. exact Hle.
  - intros turns. unfold serve_native_tcp. rewrite Hst. simpl.
    destruct (Startup.run_native_tcp_listener turns 0) as [n e]. eexists _, e.
    split; [done|]. apply accepted_reached.
  - intros turns. unfold serve_native_unix. rewrite Hst. simpl.
    destruct (Startup.run_native_unix_listener turns 0) as [n e]. eexists _, e.
    split; [done|]. apply accepted_reached.
Qed.

(** The default configuration. *)
Lemma cachebox_memory_witness :
  ∃ config st, Config.from_args [] = Some (Ok config) ∧
    @from_config config = Some st ∧
    ∀ s, rtc (@cachebox_step Engine.canonical_order demo_env config) (System_new st) s →
      Sharded.memory_used_bytes (engine (sy_state s)) ≤ 67108864 + 15.
Proof.
  destruct (Config.from_args []) as [[config|]|] eqn:E; [|discriminate E|discriminate E].
  assert (Config.max_memory_bytes config = 67108864) as Hm
    by (vm_compute in E; injection E as <-; reflexivity).
  destruct (@cachebox_memory Engine.canonical_order demo_env config) as (st & Hst & Hb & _).
  - rewrite Hm. vm_compute. reflexivity.
  - exists config, st. split; [reflexivity|]. split; [exact Hst|]. rewrite <- Hm. exact Hb.
Defined.
End Cachebox.
