(* ===== verification/Client.v ===== *)
(** * Client: the Rust native client

    [clients/rust/cachebox-client/src/lib.rs]: request ids, one request and
    its response, pipelined requests with the matcher that puts the responses
    back in submission order, and the typed calls.  The socket is what was
    written, how many more bytes the peer will take, and what it will deliver;
    a write past the one or a read past the other is the I/O error of
    [write_all] and [read_exact].  The reusable buffers are cleared before
    every use and are not part of the state. *)

From S2P Require Import Prelude Bytes Protocol Server.

Module Client.
Import Protocol Codec.

Inductive ClientError :=
| Io
| Decode (e : DecodeError)
| ServerError (code : ErrorCode) (message : string)
| UnexpectedResponse (what : string).

(** [{:?}] of [ErrorCode] *)
Definition debug_code (code : ErrorCode) : string :=
  match code with
  | BadFrame => "BadFrame"
  | UnsupportedVersion => "UnsupportedVersion"
  | UnknownCommand => "UnknownCommand"
  | InvalidNamespace => "InvalidNamespace"
  | InvalidTag => "InvalidTag"
  | InvalidTtl => "InvalidTtl"
  | ValueTooLarge => "ValueTooLarge"
  | EntryTooLarge => "EntryTooLarge"
  | InsufficientMemory => "InsufficientMemory"
  | InvalidLeaseToken => "InvalidLeaseToken"
  | FrameTooLarge => "FrameTooLarge"
  end.

(** [Display for ClientError]; [io] is the text of the I/O error. *)
Definition ClientError_fmt (io : string) (error : ClientError) : string :=
  match error with
  | Io => "I/O error: " +:+ io
  | Decode error => "decode error: " +:+ Server.Server.debug_error error
  | ServerError code message => "server error " +:+ debug_code code +:+ ": " +:+ message
  | UnexpectedResponse message => "unexpected response: " +:+ message
  end.

Inductive GetResult := Hit (value : bytes) | Stale (value : bytes) | Miss.

(** [TryFrom<ResponsePayload> for GetResult] *)
Definition GetResult_try_from (payload : ResponsePayload) : result GetResult ClientError :=
  match payload with
  | PHit value => Ok (Hit value)
  | PStale value => Ok (Stale value)
  | PMiss => Ok Miss
  | _ => Err (UnexpectedResponse "get did not return hit, stale, or miss")
  end.

(** [From<BatchItem> for GetResult] *)
Definition GetResult_from (item : BatchItem) : GetResult :=
  match item with BHit value => Hit value | BStale value => Stale value | BMiss => Miss end.

Inductive LeaseStartResult :=
| LHit (value : bytes)
| LStale (value : bytes)
| LeaseGranted (lease_token : string) (stale_value : option bytes)
| LeaseDenied.

Definition LeaseStartResult_try_from (payload : ResponsePayload) :
    result LeaseStartResult ClientError :=
  match payload with
  | PHit value => Ok (LHit value)
  | PStale value => Ok (LStale value)
  | PLeaseGranted lease_token stale_value => Ok (LeaseGranted lease_token stale_value)
  | PLeaseDenied => Ok LeaseDenied
  | _ => Err (UnexpectedResponse "lease start did not return a lease state")
  end.

(** The client and its socket. *)
Record NativeClient := {
  next_request_id : N;
  max_payload_len : N;
  sent : bytes;
  accepts : N;
  incoming : bytes
}.

Definition set_next_request_id (id : N) (c : NativeClient) : NativeClient :=
  {| next_request_id := id; max_payload_len := max_payload_len c; sent := sent c;
     accepts := accepts c; incoming := incoming c |}.

Definition set_incoming (bs : bytes) (c : NativeClient) : NativeClient :=
  {| next_request_id := next_request_id c; max_payload_len := max_payload_len c;
     sent := sent c; accepts := accepts c; incoming := bs |}.

Definition set_output (out : bytes) (n : N) (c : NativeClient) : NativeClient :=
  {| next_request_id := next_request_id c; max_payload_len := max_payload_len c;
     sent := out; accepts := n; incoming := incoming c |}.

(** [connect_tcp], [connect_unix]: a fresh client on a stream that takes [n]
    bytes and delivers [input]. *)
Definition connect (n : N) (input : bytes) : NativeClient :=
  {| next_request_id := 1; max_payload_len := USIZE_MAX; sent := []; accepts := n;
     incoming := input |}.

Definition set_max_payload_len (n : N) (c : NativeClient) : NativeClient :=
  {| next_request_id := next_request_id c; max_payload_len := n; sent := sent c;
     accepts := accepts c; incoming := incoming c |}.

(** A call of the client: a panic ([None]), or a result and the client after. *)
Definition Call (A : Type) : Type := NativeClient → option (result A ClientError * NativeClient).

Definition cret {A} (a : A) : Call A := λ c, Some (Ok a, c).
Definition cfail {A} (e : ClientError) : Call A := λ c, Some (Err e, c).
Definition cbind {A B} (m : Call A) (k : A → Call B) : Call B := λ c,
  match m c with
  | Some (Ok a, c') => k a c'
  | Some (Err e, c') => Some (Err e, c')
  | None => None
  end.

Notation "x <== m ;; k" := (cbind m (λ x, k))
  (at level 100, m at level 99, right associativity, k at level 200).

Definition lift {A} (r : result A ClientError) : Call A :=
  match r with Ok a => cret a | Err e => cfail e end.

(** [self.next_request_id] and its successor, [wrapping_add(1).max(1)]. *)
Definition next_id (id : N) : N := N.max (id +% 1) 1.

Definition fresh_id : Call N := λ c,
  Some (Ok (next_request_id c), set_next_request_id (next_id (next_request_id c)) c).

(** [encode_request_frame_into], whose assertion may panic. *)
Definition encode (frame : RequestFrame) : Call bytes := λ c,
  match encode_request_frame frame with Some bs => Some (Ok bs, c) | None => None end.

Definition write_all (bs : bytes) : Call unit := λ c,
  if accepts c <? len bs
  then Some (Err Io, set_output (sent c ++ take (N.to_nat (accepts c)) bs) 0 c)
  else Some (Ok tt, set_output (sent c ++ bs) (accepts c - len bs) c).

Definition read_exact (n : N) : Call bytes := λ c,
  if len (incoming c) <? n
  then Some (Err Io, set_incoming [] c)
  else Some (Ok (take (N.to_nat n) (incoming c)),
             set_incoming (drop (N.to_nat n) (incoming c)) c).

Definition read_response_frame : Call ResponseFrame :=
  header <== read_exact HEADER_LEN;;
  let payload_len := from_be_bytes (slice header 16 20) in
  payload <== read_exact payload_len;;
  λ c, lift (result_map_err Decode (decode_response_frame (header ++ payload) (max_payload_len c))) c.

Definition request (command : Command) (payload : RequestPayload) : Call ResponsePayload :=
  request_id <== fresh_id;;
  bs <== encode {| rq_request_id := request_id; rq_command := command; rq_payload := payload |};;
  _ <== write_all bs;;
  response <== read_response_frame;;
  if negb (rs_request_id response =? request_id)
     || negb (bool_decide (rs_command response = command))
  then cfail (UnexpectedResponse "response header mismatch")
  else match rs_payload response with
  | PError code message => cfail (ServerError code message)
  | payload => cret payload
  end.

(** ** Typed calls *)

Definition get_raw (namespace : string) (key : bytes) : Call ResponsePayload :=
  request Get (RGet namespace key).

Definition get (namespace : string) (key : bytes) : Call GetResult :=
  payload <== get_raw namespace key;; lift (GetResult_try_from payload).

Definition put (namespace : string) (key : bytes) (metadata : Metadata) (value : bytes) : Call N :=
  payload <== request Put (RPut namespace key metadata value);;
  match payload with
  | PStored evicted => cret evicted
  | _ => cfail (UnexpectedResponse "put did not return stored")
  end.

Definition delete (namespace : string) (key : bytes) : Call bool :=
  payload <== request Delete (RDelete namespace key);;
  match payload with
  | PDeleted removed => cret removed
  | _ => cfail (UnexpectedResponse "delete did not return deleted")
  end.

Definition batch_get_raw (namespace : string) (keys : list bytes) : Call (list BatchItem) :=
  payload <== request BatchGet (RBatchGet namespace keys);;
  match payload with
  | PBatchGet items => cret items
  | _ => cfail (UnexpectedResponse "batch get did not return batch")
  end.

Definition batch_get (namespace : string) (keys : list bytes) : Call (list GetResult) :=
  payload <== request BatchGet (RBatchGet namespace keys);;
  match payload with
  | PBatchGet items => cret (GetResult_from <$> items)
  | _ => cfail (UnexpectedResponse "batch get did not return batch")
  end.

Definition invalidate_tag (namespace tag : string) : Call N :=
  payload <== request TagInvalidate (RTagInvalidate namespace tag);;
  match payload with
  | PInvalidated removed => cret removed
  | _ => cfail (UnexpectedResponse "tag invalidation did not return invalidated")
  end.

Definition start_lease_raw (namespace : string) (key : bytes) (lease_ttl_ms : N)
    (allow_stale_ms : option N) : Call ResponsePayload :=
  request LeaseStart (RLeaseStart namespace key lease_ttl_ms allow_stale_ms).

Definition start_lease (namespace : string) (key : bytes) (lease_ttl_ms : N)
    (allow_stale_ms : option N) : Call LeaseStartResult :=
  payload <== start_lease_raw namespace key lease_ttl_ms allow_stale_ms;;
  lift (LeaseStartResult_try_from payload).

Definition complete_lease (namespace : string) (key : bytes) (lease_token : string)
    (metadata : Metadata) (value : bytes) : Call N :=
  payload <== request LeaseComplete (RLeaseComplete namespace key lease_token metadata value);;
  match payload with
  | PStored evicted => cret evicted
  | _ => cfail (UnexpectedResponse "lease completion did not return stored")
  end.

(** ** Pipelined requests *)

Record ExpectedResponse := { ex_index : nat; ex_command : Command }.

Record PipelinedResponseMatcher := {
  pm_expected : gmap N ExpectedResponse;
  pm_payloads : list (option ResponsePayload);
  pm_errors : list (option (ErrorCode * string))
}.

Definition matcher_new (expected_count : nat) (expected : gmap N ExpectedResponse) :
    PipelinedResponseMatcher :=
  {| pm_expected := expected; pm_payloads := replicate expected_count None;
     pm_errors := replicate expected_count None |}.

(** [v[i] = x], [None] being the panic of an index out of range. *)
Definition assign {A} (l : list A) (i : nat) (x : A) : option (list A) :=
  if bool_decide (i < length l)%nat then Some (<[i := x]> l) else None.

Definition matcher_push (response : ResponseFrame) (m : PipelinedResponseMatcher) :
    option (result PipelinedResponseMatcher ClientError) :=
  match pm_expected m !! rs_request_id response with
  | None => Some (Err (UnexpectedResponse "unknown response request id"))
  | Some expected =>
    let ex := base.delete (rs_request_id response) (pm_expected m) in
    if negb (bool_decide (rs_command response = ex_command expected))
    then Some (Err (UnexpectedResponse "response command mismatch"))
    else match rs_payload response with
    | PError code message =>
      errors ← assign (pm_errors m) (ex_index expected) (Some (code, message));
      Some (Ok {| pm_expected := ex; pm_payloads := pm_payloads m; pm_errors := errors |})
    | payload =>
      payloads ← assign (pm_payloads m) (ex_index expected) (Some payload);
      Some (Ok {| pm_expected := ex; pm_payloads := payloads; pm_errors := pm_errors m |})
    end
  end.

(** [payloads.into_iter().map(|p| p.ok_or(...)).collect()] *)
Fixpoint collect (l : list (option ResponsePayload)) : result (list ResponsePayload) ClientError :=
  match l with
  | [] => Ok []
  | None :: _ => Err (UnexpectedResponse "missing pipelined response payload")
  | Some p :: l => match collect l with Ok ps => Ok (p :: ps) | Err e => Err e end
  end.

Definition matcher_finish (m : PipelinedResponseMatcher) :
    result (list ResponsePayload) ClientError :=
  match omap id (pm_errors m) with
  | (code, message) :: _ => Err (ServerError code message)
  | [] => collect (pm_payloads m)
  end.

(** The loop that numbers, registers and encodes the requests. *)
Fixpoint encode_all (index : nat) (requests : list (Command * RequestPayload))
    (expected : gmap N ExpectedResponse) (buffer : bytes) :
    Call (gmap N ExpectedResponse * bytes) :=
  match requests with
  | [] => cret (expected, buffer)
  | (command, payload) :: requests =>
    request_id <== fresh_id;;
    bs <== encode {| rq_request_id := request_id; rq_command := command; rq_payload := payload |};;
    encode_all (S index) requests
      (<[request_id := {| ex_index := index; ex_command := command |}]> expected) (buffer ++ bs)
  end.

(** [for _ in 0..expected_count { matcher.push(self.read_response_frame()?)? }] *)
Fixpoint read_all (n : nat) (m : PipelinedResponseMatcher) : Call PipelinedResponseMatcher :=
  match n with
  | O => cret m
  | S n =>
    response <== read_response_frame;;
    m <== (λ c, match matcher_push response m with
                | Some r => lift r c
                | None => None
                end);;
    read_all n m
  end.

Definition request_pipelined (requests : list (Command * RequestPayload)) :
    Call (list ResponsePayload) :=
  let expected_count := length requests in
  match requests with
  | [] => cret []
  | _ =>
    encoded <== encode_all 0 requests ∅ [];;
    _ <== write_all encoded.2;;
    m <== read_all expected_count (matcher_new expected_count encoded.1);;
    lift (matcher_finish m)
  end.
End Client.
