(* ===== verification/ClientSpec.v ===== *)
(** * ClientSpec: what the client promises its caller

    A call returns the payload the server answered, whatever the typed call;
    pipelined calls return the payloads in submission order although the
    server answers them in any order. *)

From S2P Require Import Prelude Bytes Protocol ProtocolFacts ProtocolSpec Engine EngineOps Sharded.
From S2P Require Import ShardedInv ShardedSpec Server ServerFacts ServerSpec Client.

Module ClientSpec.
Import Protocol Codec ProtocolFacts ProtocolSpec Client.

(** ** The socket *)

Lemma read_exact_app n l r c :
  incoming c = l ++ r → len l = n → read_exact n c = Some (Ok l, set_incoming r c).
Proof.
  intros Hi <-. unfold read_exact. rewrite Hi, (proj2 (N.ltb_ge _ _)) by (rewrite len_app; lia).
  unfold len. by rewrite Nat2N.id, take_app_length, drop_app_length.
Qed.

Lemma write_all_ok bs c :
  len bs ≤ accepts c →
  write_all bs c = Some (Ok tt, set_output (sent c ++ bs) (accepts c - len bs) c).
Proof. intros Hl. unfold write_all. by rewrite (proj2 (N.ltb_ge _ _)). Qed.

Lemma encode_ok f c : request_frame_ok f → encode f c = Some (Ok (request_bytes f), c).
Proof.
  intros Hf. unfold encode, encode_request_frame. by rewrite encode_request_bytes.
Qed.

Lemma response_header_len f :
  response_frame_ok f →
  from_be_bytes (slice (frame_header KIND_RESPONSE (rs_command f) (rs_request_id f)
    (len (encode_response_payload (rs_payload f) []))) 16 20)
  = len (encode_response_payload (rs_payload f) []).
Proof.
  intros (_ & _ & Hl). unfold frame_header. change (slice _ 16 20) with
    (to_be_bytes 4 (len (encode_response_payload (rs_payload f) []))).
  by apply from_to_u32.
Qed.

(** Reading one response consumes its bytes and no others. *)
Lemma read_response f rest c :
  response_frame_ok f → len (encode_response_payload (rs_payload f) []) ≤ max_payload_len c →
  incoming c = response_bytes f ++ rest →
  read_response_frame c = Some (Ok f, set_incoming rest c).
Proof.
  intros Hf Hl Hi. unfold response_bytes in Hi. rewrite frame_bytes_app in Hi.
  unfold read_response_frame, cbind.
  rewrite (read_exact_app _ _ _ _ Hi) by apply len_frame_header.
  rewrite response_header_len by done. erewrite read_exact_app by reflexivity.
  fold (frame_bytes KIND_RESPONSE (rs_command f) (rs_request_id f)
    (encode_response_payload (rs_payload f) [])). fold (response_bytes f).
  rewrite <- (app_nil_r (response_bytes f)). cbn [max_payload_len set_incoming].
  by rewrite decode_response_bytes.
Qed.

(** ** One call *)

(** What a call returns for the payload of its response. *)
Definition payload_result (p : ResponsePayload) : result ResponsePayload ClientError :=
  match p with PError code message => Err (ServerError code message) | p => Ok p end.

(** The client after sending [out] and leaving [rest] unread. *)
Definition client_after (id : N) (out rest : bytes) (c : NativeClient) : NativeClient :=
  {| next_request_id := id; max_payload_len := max_payload_len c; sent := sent c ++ out;
     accepts := accepts c - len out; incoming := rest |}.

Lemma request_spec c command payload rs rest :
  let f := {| rq_request_id := next_request_id c; rq_command := command; rq_payload := payload |} in
  request_frame_ok f → len (request_bytes f) ≤ accepts c →
  response_frame_ok rs → rs_request_id rs = next_request_id c → rs_command rs = command →
  len (encode_response_payload (rs_payload rs) []) ≤ max_payload_len c →
  incoming c = response_bytes rs ++ rest →
  request command payload c = Some (payload_result (rs_payload rs),
    client_after (next_id (next_request_id c)) (request_bytes f) rest c).
Proof.
  intros f Hf Ha Hrs Hid Hcmd Hl Hi. unfold request, cbind, fresh_id. fold f.
  rewrite encode_ok by done. rewrite write_all_ok by done.
  erewrite read_response by done. rewrite Hid, N.eqb_refl, bool_decide_eq_true_2 by done.
  by destruct (rs_payload rs).
Qed.

(** A call to the server.  The bytes the client sends for a request are
    executed by a consistent server, and when the server's response is what the
    client reads next, the call returns the payload the server computed (an
    error response as [ClientError::Server]), the bytes after the response stay
    unread, and the next call has another id. *)
Theorem client_server_call `{Engine.HashOrder, Sharded.ShardEnv} lim clk st conn maxlen c command payload :
  let f := {| rq_request_id := next_request_id c; rq_command := command; rq_payload := payload |} in
  let m := Server.Metrics.shard_for_request conn (rq_request_id f) (Server.Server.metrics st) in
  ServerFacts.ServerFacts.st_ok lim st → request_frame_ok f →
  len (encode_request_payload payload []) ≤ maxlen →
  ServerFacts.ServerFacts.response_fits lim payload →
  len (request_bytes f) ≤ accepts c → U32_MAX ≤ max_payload_len c →
  ∃ bs r st',
    Server.Server.execute_native_frame_bytes_into clk (request_bytes f) maxlen conn [] st
      = Some (bs, st') ∧
    Server.Server.execute_native_payload_with_metrics clk m payload st = Some (r, st') ∧
    ∀ rest, incoming c = bs ++ rest →
      request command payload c = Some (payload_result r,
        client_after (next_id (next_request_id c)) (request_bytes f) rest c).
Proof.
  intros f m Hst Hf Hl Hb Ha Hmax.
  destruct (ServerSpec.ServerSpec.answer_decoded lim clk st (request_bytes f) f maxlen conn [] Hst)
    as (r & st' & H1 & H2 & _ & Hresp); [by apply decode_whole_request|done|].
  eexists _, r, st'. split_and!; [exact H1|exact H2|]. intros rest Hi.
  rewrite (request_spec c command payload _ rest Hf Ha Hresp eq_refl eq_refl); [done| |done].
  destruct Hresp as (_ & _ & Hlen). simpl in *. lia.
Qed.

Definition sample_client (input : bytes) : NativeClient := connect 4096 input.

(** A [get] of the demo engine: the client reads the hit. *)
Lemma client_server_call_witness :
  ∃ bs st', @Server.Server.execute_native_frame_bytes_into Engine.canonical_order
      ShardedSpec.ShardedSpec.demo_env (Engine.manual_clock 20)
      (request_bytes {| rq_request_id := 1; rq_command := Get;
                        rq_payload := RGet "default" (as_bytes "a") |}) 1024 1 []
      ServerSpec.ServerSpec.sample_state = Some (bs, st') ∧
    option_map fst (request Get (RGet "default" (as_bytes "a")) (sample_client (bs ++ [x00])))
      = Some (Ok (PHit (as_bytes "v"))).
Proof.
  assert (∃ bs st', @Server.Server.execute_native_frame_bytes_into Engine.canonical_order
      ShardedSpec.ShardedSpec.demo_env (Engine.manual_clock 20)
      (request_bytes {| rq_request_id := 1; rq_command := Get;
                        rq_payload := RGet "default" (as_bytes "a") |}) 1024 1 []
      ServerSpec.ServerSpec.sample_state = Some (bs, st')) as (bs & st' & Hex).
  { destruct (@client_server_call Engine.canonical_order ShardedSpec.ShardedSpec.demo_env
      ShardedSpec.ShardedSpec.demo_sharded_limits (Engine.manual_clock 20)
      ServerSpec.ServerSpec.sample_state 1 1024 (sample_client []) Get (RGet "default" (as_bytes "a")))
      as (bs & r & st' & H1 & _);
      [apply ServerSpec.ServerSpec.sample_state_ok | concrete_ok | vm_compute; discriminate |
       apply ServerFacts.ServerFacts.bound_fits; vm_compute; discriminate |
       vm_compute; discriminate ..|]. by exists bs, st'. }
  exists bs, st'. split; [exact Hex|].
  destruct (@client_server_call Engine.canonical_order ShardedSpec.ShardedSpec.demo_env
      ShardedSpec.ShardedSpec.demo_sharded_limits (Engine.manual_clock 20)
      ServerSpec.ServerSpec.sample_state 1 1024 (sample_client (bs ++ [x00])) Get
      (RGet "default" (as_bytes "a"))) as (bs2 & r & st2 & H1 & H2 & H3);
      [apply ServerSpec.ServerSpec.sample_state_ok | concrete_ok | vm_compute; discriminate |
       apply ServerFacts.ServerFacts.bound_fits; vm_compute; discriminate |
       vm_compute; discriminate ..|].
  cbn [next_request_id sample_client connect] in H1. rewrite Hex in H1. injection H1 as <- _.
  rewrite (H3 [x00] eq_refl). simpl.
  assert (fst <$> @Server.Server.execute_native_payload_with_metrics Engine.canonical_order
      ShardedSpec.ShardedSpec.demo_env (Engine.manual_clock 20)
      (Server.Metrics.shard_for_request 1 1 (Server.Server.metrics ServerSpec.ServerSpec.sample_state))
      (RGet "default" (as_bytes "a")) ServerSpec.ServerSpec.sample_state
      = Some (PHit (as_bytes "v"))) as Hr by (vm_compute; reflexivity).
  cbn [rq_request_id next_request_id sample_client connect] in H2.
  rewrite H2 in Hr. injection Hr as ->. reflexivity.
Defined.

(** ** Request ids *)

(** The [i]-th id after [id]: the ids cycle through [1 .. U64_MAX]. *)
Definition id_at (id : N) (i : nat) : N := (id - 1 + N.of_nat i) mod U64_MAX + 1.

Lemma next_id_at id i : next_id (id_at id i) = id_at id (S i).
Proof.
  unfold next_id, id_at, wrap_add, U64_MAX. rewrite Nat2N.inj_succ.
  zify. Z.to_euclidean_division_equations. lia.
Qed.

Lemma id_at_0 id : 1 ≤ id ≤ U64_MAX → id_at id 0 = id.
Proof.
  intros [H1 H2]. unfold id_at. change (N.of_nat 0) with 0. rewrite N.add_0_r.
  rewrite N.mod_small; lia.
Qed.

Lemma id_at_u64 id i : 1 ≤ id_at id i ≤ U64_MAX.
Proof.
  unfold id_at. pose proof (N.mod_upper_bound (id - 1 + N.of_nat i) U64_MAX ltac:(done)) as Hlt. revert Hlt.
  generalize ((id - 1 + N.of_nat i) mod U64_MAX). lia.
Qed.

Lemma id_at_inj id i j :
  N.of_nat i < U64_MAX → N.of_nat j < U64_MAX → id_at id i = id_at id j → i = j.
Proof.
  unfold id_at, U64_MAX. intros Hi Hj Heq. set (M := 18446744073709551615) in *.
  pose proof (N.div_mod (id - 1 + N.of_nat i) M ltac:(done)) as Di.
  pose proof (N.div_mod (id - 1 + N.of_nat j) M ltac:(done)) as Dj.
  apply N.add_cancel_r in Heq. rewrite Heq in Di. revert Di Dj.
  generalize ((id - 1 + N.of_nat j) mod M), ((id - 1 + N.of_nat i) / M),
    ((id - 1 + N.of_nat j) / M). subst M. intros. lia.
Qed.

(** The frames of pipelined requests. *)
Fixpoint issued (id : N) (requests : list (Command * RequestPayload)) : list RequestFrame :=
  match requests with
  | [] => []
  | (command, payload) :: requests =>
    {| rq_request_id := id; rq_command := command; rq_payload := payload |}
      :: issued (next_id id) requests
  end.

Lemma length_issued id requests : length (issued id requests) = length requests.
Proof. revert id. induction requests as [|[]]; intros; simpl; auto. Qed.

Lemma issued_lookup id k requests i f :
  issued (id_at id k) requests !! i = Some f → rq_request_id f = id_at id (k + i).
Proof.
  revert k i. induction requests as [|[cmd p] requests IH]; intros k i; simpl; [done|].
  destruct i as [|i]; simpl.
  - intros [= <-]. by rewrite Nat.add_0_r.
  - rewrite next_id_at. intros ->%IH. f_equal. lia.
Qed.

Lemma issued_ids_NoDup id requests :
  1 ≤ id ≤ U64_MAX → len requests ≤ U64_MAX →
  NoDup (rq_request_id <$> issued id requests).
Proof.
  intros Hid Hl. apply NoDup_alt. intros i j x Hi Hj.
  rewrite list_lookup_fmap in Hi, Hj. rewrite <- (id_at_0 id) in Hi, Hj by done.
  destruct (_ !! i) as [f|] eqn:Ei in Hi; [|done].
  destruct (_ !! j) as [g|] eqn:Ej in Hj; [|done]. simpl in *. simplify_eq.
  pose proof (issued_lookup id 0 requests i _ Ei) as Fi.
  pose proof (issued_lookup id 0 requests j _ Ej) as Fj.
  apply lookup_lt_Some in Ei, Ej. rewrite length_issued in Ei, Ej. unfold len in Hl.
  eapply (id_at_inj id); [lia|lia|]. by rewrite <- (Nat.add_0_l i), <- (Nat.add_0_l j), <- Fi, <- Fj.
Qed.

(** What the matcher expects for them. *)
Fixpoint register (index : nat) (fs : list RequestFrame) (expected : gmap N ExpectedResponse) :
    gmap N ExpectedResponse :=
  match fs with
  | [] => expected
  | f :: fs => register (S index) fs
      (<[rq_request_id f := {| ex_index := index; ex_command := rq_command f |}]> expected)
  end.

Lemma register_other index fs expected id :
  id ∉ (rq_request_id <$> fs) → register index fs expected !! id = expected !! id.
Proof.
  revert index expected. induction fs as [|f fs IH]; intros index expected Hid; simpl; [done|].
  rewrite fmap_cons in Hid. apply not_elem_of_cons in Hid as [Hne Hid].
  by rewrite IH, lookup_insert_ne.
Qed.

Lemma register_lookup index fs expected i f :
  NoDup (rq_request_id <$> fs) → fs !! i = Some f →
  register index fs expected !! rq_request_id f
  = Some {| ex_index := index + i; ex_command := rq_command f |}.
Proof.
  revert index expected i. induction fs as [|g fs IH]; intros index expected i; [done|].
  rewrite fmap_cons. intros [Hn Hnd]%list.NoDup_cons. destruct i as [|i]; simpl.
  - intros [= ->]. rewrite register_other by done. by rewrite lookup_insert_eq, Nat.add_0_r.
  - intros Hi. rewrite (IH _ _ i) by done. do 2 f_equal. lia.
Qed.

Lemma encode_all_spec id k index requests expected buffer c :
  next_request_id c = id_at id k →
  Forall request_frame_ok (issued (id_at id k) requests) →
  encode_all index requests expected buffer c =
  Some (Ok (register index (issued (id_at id k) requests) expected,
            buffer ++ concat (request_bytes <$> issued (id_at id k) requests)),
        set_next_request_id (id_at id (k + length requests)) c).
Proof.
  revert k index expected buffer c.
  induction requests as [|[cmd p] requests IH]; intros k index expected buffer c Hid Hok.
  - simpl. rewrite app_nil_r, Nat.add_0_r, <- Hid. by destruct c.
  - simpl in Hok. apply Forall_cons_1 in Hok as [Hf Hok]. rewrite next_id_at in Hok.
    cbn [encode_all issued]. unfold cbind at 1, fresh_id. rewrite Hid, next_id_at.
    unfold cbind. rewrite encode_ok by done.
    rewrite (IH (S k)) by done. rewrite fmap_cons, concat_cons, <- app_assoc.
    do 2 f_equal. unfold set_next_request_id. simpl. f_equal. f_equal. lia.
Qed.

(** ** The matcher *)

Definition ok_part (p : ResponsePayload) : option ResponsePayload :=
  match p with PError _ _ => None | p => Some p end.

Definition error_part (p : ResponsePayload) : option (ErrorCode * string) :=
  match p with PError code message => Some (code, message) | _ => None end.

(** The result of pipelined requests answered with [ps], in submission order:
    the first error, or the payloads. *)
Definition pipelined_result (ps : list ResponsePayload) : result (list ResponsePayload) ClientError :=
  match omap error_part ps with
  | (code, message) :: _ => Err (ServerError code message)
  | [] => Ok ps
  end.

Section matcher.
Context (ps : list ResponsePayload).

(** The matcher after every response but [todo], each with its index. *)
Record awaiting (m : PipelinedResponseMatcher) (todo : list (nat * ResponseFrame)) : Prop := {
  aw_expected i r : (i, r) ∈ todo →
    pm_expected m !! rs_request_id r = Some {| ex_index := i; ex_command := rs_command r |};
  aw_payload i r : (i, r) ∈ todo → ps !! i = Some (rs_payload r);
  aw_ids : NoDup (rs_request_id ∘ snd <$> todo);
  aw_indices : NoDup (fst <$> todo);
  aw_len_payloads : length (pm_payloads m) = length ps;
  aw_len_errors : length (pm_errors m) = length ps;
  aw_slots i p : ps !! i = Some p →
    if bool_decide (i ∈ (fst <$> todo))
    then pm_payloads m !! i = Some None ∧ pm_errors m !! i = Some None
    else pm_payloads m !! i = Some (ok_part p) ∧ pm_errors m !! i = Some (error_part p)
}.

(** Filling slot [i] leaves the others. *)
Lemma slots_fill i r todo (l l' : list (option ResponsePayload)) (e e' : list (option (ErrorCode * string))) :
  i ∉ (fst <$> todo) → ps !! i = Some (rs_payload r) →
  l' !! i = Some (ok_part (rs_payload r)) → e' !! i = Some (error_part (rs_payload r)) →
  (∀ j, j ≠ i → l' !! j = l !! j) → (∀ j, j ≠ i → e' !! j = e !! j) →
  (∀ j p, ps !! j = Some p → if bool_decide (j ∈ (fst <$> (i, r) :: todo))
    then l !! j = Some None ∧ e !! j = Some None
    else l !! j = Some (ok_part p) ∧ e !! j = Some (error_part p)) →
  ∀ j p, ps !! j = Some p → if bool_decide (j ∈ (fst <$> todo))
    then l' !! j = Some None ∧ e' !! j = Some None
    else l' !! j = Some (ok_part p) ∧ e' !! j = Some (error_part p).
Proof.
  intros Hi Hp Hl He Hlo Heo Hs j p Hj. destruct (decide (j = i)) as [->|Hne].
  - rewrite bool_decide_eq_false_2 by done. by simplify_eq.
  - specialize (Hs j p Hj). rewrite Hlo, Heo by done. rewrite fmap_cons in Hs.
    erewrite bool_decide_ext; [exact Hs|]. rewrite elem_of_cons. simpl. naive_solver.
Qed.

Lemma push_awaiting m i r todo :
  awaiting m ((i, r) :: todo) → ∃ m', matcher_push r m = Some (Ok m') ∧ awaiting m' todo.
Proof.
  intros [He Hp Hids Hidx Hlp Hle Hs].
  pose proof (He i r ltac:(left)) as Hei. pose proof (Hp i r ltac:(left)) as Hpi.
  rewrite fmap_cons in Hids. rewrite fmap_cons in Hidx. apply list.NoDup_cons in Hids as [Hid Hids].
  apply list.NoDup_cons in Hidx as [Hix Hidx]. simpl in Hid, Hix.
  assert (i < length ps)%nat as Hlt by (by eapply lookup_lt_Some).
  unfold matcher_push. rewrite Hei. cbn [ex_command ex_index].
  rewrite bool_decide_eq_true_2 by done. cbn [negb]. unfold assign.
  rewrite Hlp, Hle, bool_decide_eq_true_2 by done.
  assert (∀ j q, (j, q) ∈ todo → base.delete (rs_request_id r) (pm_expected m)
    !! rs_request_id q = Some {| ex_index := j; ex_command := rs_command q |}) as Hdel.
  { intros j q Hq. rewrite lookup_delete_ne; [apply He; by right|]. intros Heq. apply Hid.
    rewrite Heq. apply (list_elem_of_fmap_2 (rs_request_id ∘ snd) _ _ Hq). }
  destruct (error_part (rs_payload r)) as [[code message]|] eqn:Hr.
  - assert (rs_payload r = PError code message) as Hpe
      by (destruct (rs_payload r); simpl in Hr; congruence).
    rewrite Hpe. eexists. split; [reflexivity|].
    split; simpl; try done; [by intros; apply Hp; right | by rewrite length_insert |].
    apply (slots_fill i r todo (pm_payloads m) _ (pm_errors m)); try done.
    + specialize (Hs i _ Hpi). rewrite bool_decide_eq_true_2 in Hs by left.
      rewrite Hpe. apply Hs.
    + rewrite Hr. rewrite list_lookup_insert_eq; [done|lia].
    + intros. by rewrite list_lookup_insert_ne.
  - exists {| pm_expected := base.delete (rs_request_id r) (pm_expected m);
              pm_payloads := <[i := Some (rs_payload r)]> (pm_payloads m);
              pm_errors := pm_errors m |}.
    split; [by destruct (rs_payload r)|].
    split; simpl; try done; [by intros; apply Hp; right | by rewrite length_insert |].
    apply (slots_fill i r todo (pm_payloads m) _ (pm_errors m)); try done.
    + rewrite list_lookup_insert_eq; [by destruct (rs_payload r)|lia].
    + specialize (Hs i _ Hpi). rewrite bool_decide_eq_true_2 in Hs by left.
      rewrite Hr. apply Hs.
    + intros. by rewrite list_lookup_insert_ne.
Qed.

(** With every response pushed, the matcher holds them in order. *)
Lemma awaiting_nil m :
  awaiting m [] → pm_payloads m = ok_part <$> ps ∧ pm_errors m = error_part <$> ps.
Proof.
  intros [_ _ _ _ Hlp Hle Hs].
  split; apply list_eq_same_length with (length ps); rewrite ?length_fmap; try done;
    intros i x y Hi Hx Hy; rewrite list_lookup_fmap in Hy;
    destruct (ps !! i) as [p|] eqn:Ep; try done;
    specialize (Hs i p Ep); simpl in *; destruct Hs; simplify_eq; done.
Qed.

Lemma collect_ok l : omap error_part l = [] → collect (ok_part <$> l) = Ok l.
Proof.
  induction l as [|p l IH]; [done|]. rewrite fmap_cons.
  destruct p; try done; intros H; cbn [ok_part collect]; by rewrite (IH H).
Qed.

Lemma finish_awaiting m : awaiting m [] → matcher_finish m = pipelined_result ps.
Proof.
  intros (Hp & He)%awaiting_nil. unfold matcher_finish, pipelined_result. rewrite Hp, He.
  assert (omap id (error_part <$> ps) = omap error_part ps) as ->.
  { clear. induction ps as [|p l IH]; [done|]. destruct p; cbn; first [exact IH | by f_equal]. }
  destruct (omap error_part ps) as [|[code message] es] eqn:E; [|done]. by apply collect_ok.
Qed.

(** Reading the responses of [todo], in their order. *)
Lemma read_all_spec todo m c rest :
  awaiting m todo →
  Forall (λ q, response_frame_ok q.2 ∧
    len (encode_response_payload (rs_payload q.2) []) ≤ max_payload_len c) todo →
  incoming c = concat (response_bytes ∘ snd <$> todo) ++ rest →
  ∃ m', read_all (length todo) m c = Some (Ok m', set_incoming rest c) ∧ awaiting m' [].
Proof.
  revert m c. induction todo as [|[i r] todo IH]; intros m c Haw Hok Hin.
  - exists m. simpl in *. rewrite <- Hin. split; [by destruct c|done].
  - apply Forall_cons_1 in Hok as [[Hr Hl] Hok]. simpl in Hr, Hl.
    rewrite fmap_cons, concat_cons, <- app_assoc in Hin. simpl in Hin.
    destruct (push_awaiting m i r todo Haw) as (m1 & Hpush & Haw1).
    cbn [length read_all]. unfold cbind at 1. rewrite (read_response _ _ _ Hr Hl Hin).
    unfold cbind at 1. rewrite Hpush. cbn [lift cret].
    destruct (IH m1 (set_incoming (concat (response_bytes ∘ snd <$> todo) ++ rest) c) Haw1)
      as (m' & Hread & Haw'); [exact Hok|done|]. exists m'. split; [|done]. exact Hread.
Qed.
End matcher.

(** The response with which the server answers [f]. *)
Definition response_to (f : RequestFrame) (p : ResponsePayload) : ResponseFrame :=
  {| rs_request_id := rq_request_id f; rs_command := rq_command f; rs_payload := p |}.

Lemma imap_todo {A} (rs l : list A) :
  rs ≡ₚ l → ∃ todo, rs = snd <$> todo ∧ todo ≡ₚ imap pair l.
Proof.
  intros Hrs. assert (l = snd <$> imap pair l) as Hl.
  { rewrite fmap_imap. change (λ n : nat, snd ∘ pair n) with (λ n : nat, const (@id A) n).
    by rewrite imap_const, list_fmap_id. }
  rewrite Hl in Hrs. apply Permutation_map_inv in Hrs as (todo & -> & Hp). by exists todo.
Qed.

Lemma matcher_awaiting fs ps todo :
  NoDup (rq_request_id <$> fs) → length fs = length ps →
  todo ≡ₚ imap pair (zip_with response_to fs ps) →
  awaiting ps (matcher_new (length fs) (register 0 fs ∅)) todo.
Proof.
  intros Hnd Hlen Htodo.
  assert (∀ i r, (i, r) ∈ todo → ∃ f p, fs !! i = Some f ∧ ps !! i = Some p ∧ r = response_to f p)
    as Hin.
  { intros i r Hr. rewrite Htodo in Hr. apply elem_of_lookup_imap in Hr as (j & q & Heq & Hq).
    injection Heq as -> ->. apply lookup_zip_with_Some in Hq as (f & p & -> & ? & ?). eauto. }
  assert (fst <$> imap pair (zip_with response_to fs ps) = seq 0 (length ps)) as Hidx.
  { rewrite fmap_imap. change (λ (n : nat), fst ∘ pair n) with (λ (n : nat) (_ : ResponseFrame), n).
    rewrite imap_seq_0. rewrite list_fmap_id, length_zip_with. f_equal. lia. }
  split; simpl.
  - intros i r (f & p & Hf & _ & ->)%Hin. simpl. by apply (register_lookup 0 _ _ i).
  - intros i r (f & p & _ & Hp & ->)%Hin. exact Hp.
  - rewrite Htodo, fmap_imap. change (λ n : nat, (rs_request_id ∘ snd) ∘ pair n) with
      (λ n : nat, const rs_request_id n). rewrite imap_const, zip_with_zip, <- list_fmap_compose.
    erewrite (list_fmap_ext _ (rq_request_id ∘ fst)); [|by intros ? [] ?].
    rewrite list_fmap_compose, fst_zip; [done|lia].
  - rewrite Htodo, Hidx. apply NoDup_seq.
  - by rewrite length_replicate.
  - by rewrite length_replicate.
  - intros i p Hi. apply lookup_lt_Some in Hi. rewrite bool_decide_eq_true_2.
    + rewrite !lookup_replicate_2 by lia. done.
    + rewrite Htodo, Hidx. apply elem_of_seq. lia.
Qed.

Lemma pipelined_spec c requests ps rs rest :
  let fs := issued (next_request_id c) requests in
  let out := concat (request_bytes <$> fs) in
  1 ≤ next_request_id c ≤ U64_MAX → len requests ≤ U64_MAX →
  Forall request_frame_ok fs → len out ≤ accepts c →
  length ps = length requests → rs ≡ₚ zip_with response_to fs ps →
  Forall (λ r, response_frame_ok r ∧
    len (encode_response_payload (rs_payload r) []) ≤ max_payload_len c) rs →
  incoming c = concat (response_bytes <$> rs) ++ rest →
  request_pipelined requests c = Some (pipelined_result ps,
    client_after (id_at (next_request_id c) (length requests)) out rest c).
Proof.
  intros fs out Hid Hn Hfs Ha Hps Hrs Hok Hin.
  destruct requests as [|q requests].
  { destruct ps; [|done]. apply Permutation_nil_r in Hrs as ->. simpl in Hin. simpl.
    unfold client_after. rewrite id_at_0, app_nil_r, N.sub_0_r, <- Hin by done. by destruct c. }
  destruct (imap_todo rs (zip_with response_to fs ps) Hrs) as (todo & -> & Htodo).
  assert (length fs = length ps) as Hlen by (unfold fs; by rewrite length_issued).
  pose proof (matcher_awaiting fs ps todo ltac:(by apply issued_ids_NoDup) Hlen Htodo) as Haw.
  assert (length todo = length fs) as Hlt.
  { rewrite Htodo, length_imap, length_zip_with. lia. }
  unfold request_pipelined, cbind at 1.
  rewrite (encode_all_spec (next_request_id c) 0) by (rewrite ?id_at_0 by done; done).
  rewrite id_at_0, Nat.add_0_l by done. fold fs. cbn [fst snd]. rewrite app_nil_l. fold out.
  set (c1 := set_next_request_id _ c). unfold cbind at 1. rewrite write_all_ok by done.
  change (sent c1) with (sent c). change (accepts c1) with (accepts c).
  rewrite Forall_fmap in Hok. rewrite <- list_fmap_compose in Hin.
  destruct (read_all_spec ps todo (matcher_new (length fs) (register 0 fs ∅))
    (set_output (sent c ++ out) (accepts c - len out) c1) rest Haw Hok Hin)
    as (m' & Hread & Haw').
  assert (length (q :: requests) = length fs) as Hq by (unfold fs; by rewrite length_issued).
  unfold cbind. rewrite Hlt, <- Hq in Hread. rewrite Hread.
  rewrite (finish_awaiting ps m' Haw').
  by destruct (pipelined_result ps).
Qed.

(** C19: pipelined calls.  The requests of a batch are well formed and get
    distinct ids, one after the other from the client's next.  When the peer answers every request of the batch
    once, in any order, the client sends the requests in order with distinct
    ids, reads exactly the answers, and returns their payloads in submission
    order, or the error of the first request that was answered with one. *)
Theorem client_pipelined_in_order c requests ps rs rest :
  let fs := issued (next_request_id c) requests in
  let out := concat (request_bytes <$> fs) in
  1 ≤ next_request_id c ≤ U64_MAX → len requests ≤ U64_MAX →
  Forall request_frame_ok fs → len out ≤ accepts c →
  length ps = length requests → rs ≡ₚ zip_with response_to fs ps →
  Forall (λ r, response_frame_ok r ∧
    len (encode_response_payload (rs_payload r) []) ≤ max_payload_len c) rs →
  incoming c = concat (response_bytes <$> rs) ++ rest →
  request_pipelined requests c = Some (pipelined_result ps,
    client_after (id_at (next_request_id c) (length requests)) out rest c).
Proof. apply pipelined_spec. Qed.

Definition sample_batch : list (Command * RequestPayload) :=
  [(Get, RGet "default" (as_bytes "a")); (Delete, RDelete "default" (as_bytes "b"))].

Definition sample_payloads : list ResponsePayload := [PHit (as_bytes "v"); PDeleted true].

Definition swapped_responses : list ResponseFrame :=
  [{| rs_request_id := 2; rs_command := Delete; rs_payload := PDeleted true |};
   {| rs_request_id := 1; rs_command := Get; rs_payload := PHit (as_bytes "v") |}].

(** The responses of two requests arrive swapped. *)
Lemma client_pipelined_in_order_witness :
  option_map fst (request_pipelined sample_batch
    (sample_client (concat (response_bytes <$> swapped_responses) ++ [x00])))
  = Some (Ok sample_payloads).
Proof.
  rewrite (client_pipelined_in_order (sample_client (concat (response_bytes <$> swapped_responses)
    ++ [x00])) sample_batch sample_payloads swapped_responses [x00]);
    [reflexivity | split; vm_compute; discriminate | vm_compute; discriminate | concrete_ok
    | vm_compute; discriminate | reflexivity | apply Permutation_swap | concrete_ok | reflexivity].
Defined.
End ClientSpec.
