(* ===== verification/Exchange.v ===== *)
(** * Exchange: a client and a server over one connection

    The composition of the Rust client, the frame codec, the connection with
    its tasks and the request handlers: what [request_pipelined] returns when
    its bytes go through [handle_native_connection] and back. *)

From S2P Require Import Prelude Bytes Protocol ProtocolFacts ProtocolSpec Engine Sharded.
From S2P Require Import ShardedSpec Server ServerFacts ServerSpec Connection ConnSpec ConnLive.
From S2P Require Import ConnRun System Client ClientSpec.

Module Exchange.
Import Protocol Codec ProtocolFacts ProtocolSpec Server ServerFacts ServerSpec Connection ConnSpec.
Import ConnRun ConnLive Client ClientSpec.
Import Sharded(ShardEnv).
Import Metrics(shard_for_request).

(** ** Frames are found in one way only *)

Lemma framed_not_partial maxlen f rest : framed maxlen f → ¬ partial maxlen (f ++ rest).
Proof.
  intros [Hl Hd] [Hp|[_ Hp]]; rewrite len_app in Hp; [lia|].
  rewrite declared_app in Hp by lia. lia.
Qed.

Lemma framing_unique maxlen fs gs t u :
  Forall (framed maxlen) fs → Forall (framed maxlen) gs → partial maxlen t → partial maxlen u →
  concat fs ++ t = concat gs ++ u → fs = gs ∧ t = u.
Proof.
  intros Hfs. revert gs. induction Hfs as [|f fs Hf Hfs IH]; intros [|g gs] Hgs Ht Hu Heq;
    simpl in Heq; rewrite <- ?app_assoc in Heq.
  - done.
  - subst t. apply Forall_cons_1 in Hgs as [Hg _]. by apply framed_not_partial in Ht.
  - subst u. by apply framed_not_partial in Hu.
  - apply Forall_cons_1 in Hgs as [Hg Hgs].
    assert (len f = len g) as Hlen.
    { pose proof Hf as [Hlf _]. pose proof Hg as [Hlg _]. rewrite Hlf, Hlg. f_equal.
      rewrite <- (declared_app f (concat fs ++ t)), Heq by lia. apply declared_app. lia. }
    apply app_inj_1 in Heq as [-> Heq]; [|unfold len in Hlen; lia].
    destruct (IH gs Hgs Ht Hu Heq) as [-> ->]. done.
Qed.

(** ** The responses of a run *)

Section exchange.
Context `{Engine.HashOrder, ShardEnv} (lim : Engine.EngineLimits) (maxlen conn : N).

(** [p] is what the server returns for [f] in some consistent state. *)
Definition served (f : RequestFrame) (p : ResponsePayload) : Prop :=
  response_frame_ok (response_to f p) ∧
  ∃ clk st st', st_ok lim st ∧ st_ok lim st' ∧
    execute_native_payload_with_metrics clk
      (shard_for_request conn (rq_request_id f) (metrics st)) (rq_payload f) st = Some (p, st').

(** The request is well formed and within the limits of both directions. *)
Definition sendable (f : RequestFrame) : Prop :=
  request_frame_ok f ∧ len (encode_request_payload (rq_payload f) []) ≤ maxlen ∧
  response_fits lim (rq_payload f).

Lemma answers_served f r :
  sendable f → answers (st_ok lim) maxlen conn (request_bytes f, r) →
  ∃ p, r = response_bytes (response_to f p) ∧ served f p.
Proof.
  intros (Hf & Hl & Hb) (clk & st & st' & Hst & Heq).
  destruct (answer_decoded lim clk st (request_bytes f) f maxlen conn [] Hst)
    as (p & st1 & Hex & Hpay & Hst1 & Hok); [by apply decode_whole_request|done|].
  simpl in Heq. rewrite Hex in Heq. injection Heq as <- <-.
  exists p. split; [done|]. split; [done|]. by exists clk, st, st1.
Qed.

(** The log of a run, in the order of the requests. *)
Lemma log_served fs log :
  Forall sendable fs → Forall (answers (st_ok lim) maxlen conn) log →
  fst <$> log = request_bytes <$> fs →
  ∃ ps, Forall2 served fs ps ∧ snd <$> log = response_bytes <$> zip_with response_to fs ps.
Proof.
  revert log. induction fs as [|f fs IH]; intros [|[b r] log] Hfs Hlog Heq; try done.
  { by exists []. }
  apply Forall_cons_1 in Hfs as [Hf Hfs], Hlog as [Hl Hlog].
  rewrite !fmap_cons in Heq. injection Heq as Hb Heq. simpl in Hb. subst b.
  destruct (answers_served f r Hf Hl) as (p & -> & Hp).
  destruct (IH log Hfs Hlog Heq) as (ps & Hps & Hs). exists (p :: ps). split; [by constructor|].
  by rewrite fmap_cons, Hs.
Qed.

(** What a connection at rest has written, for the requests it received. *)
Lemma conn_answers fs c st :
  conn_run maxlen conn (st_ok lim) (concat (request_bytes <$> fs)) c st →
  c_closed c = false → c_writer c = true → work c = 0%nat → Forall sendable fs →
  ∃ ps rs, Forall2 served fs ps ∧ rs ≡ₚ zip_with response_to fs ps ∧
    concat (c_output c) = concat (response_bytes <$> rs).
Proof.
  intros Hrun Hop Hwr Hw Hfs.
  destruct (conn_run_ok _ _ _ _ _ _ Hrun) as (gs & log & sent & Hok).
  destruct (work_done lim maxlen conn _ c gs log sent Hok Hw) as (Hlog & Hsent & Hout).
  rewrite Hwr in Hout. pose proof Hok as [Hstream Hframed Hpart Hans _ _ _ _ _].
  destruct (framing_unique maxlen (request_bytes <$> fs) gs [] (c_buffer c)) as [<- _].
  - apply Forall_fmap. eapply Forall_impl; [|exact Hfs]. intros f (Hf & Hl & _).
    by apply request_framed.
  - done.
  - by left.
  - by apply Hpart.
  - by rewrite app_nil_r.
  - symmetry in Hlog. apply Permutation_map_inv in Hlog as (log' & Heq & Hp).
    rewrite Hp in Hans. destruct (log_served fs log' Hfs Hans (eq_sym Heq)) as (ps & Hps & Hs).
    rewrite Hp, Hs in Hsent. apply Permutation_map_inv in Hsent as (rs & -> & Hrs).
    exists ps, rs. by split_and!.
Qed.

End exchange.

(** C5: a pipelined exchange.  A client whose payload limit is at least
    [u32::MAX] (a new client has [usize::MAX]), and whose socket takes all its
    bytes, sends a batch of requests numbered from its next id, each
    well formed, within the server's payload limit, and with a response of at
    most [u32::MAX] bytes whatever the server holds.  When all the bytes reach a
    connection whose tasks, in any interleaving and with other connections
    acting in between, have come to rest without a failed write, then the call
    of the client on the bytes the connection wrote returns one payload per
    request in submission order, each what the server returned when it executed
    that request in a consistent state, or the error of the first request
    answered with one; and the client has read exactly these bytes. *)
Theorem pipelined_exchange `{Engine.HashOrder, ShardEnv} lim maxlen conn client requests c st rest :
  let fs := issued (next_request_id client) requests in
  let out := concat (request_bytes <$> fs) in
  1 ≤ next_request_id client ≤ U64_MAX → len requests ≤ U64_MAX → len out ≤ accepts client →
  U32_MAX ≤ max_payload_len client → Forall (sendable lim maxlen) fs →
  conn_run maxlen conn (st_ok lim) out c st → c_closed c = false → c_writer c = true →
  work c = 0%nat → incoming client = concat (c_output c) ++ rest →
  ∃ ps, Forall2 (served lim conn) fs ps ∧
    request_pipelined requests client = Some (pipelined_result ps,
      client_after (id_at (next_request_id client) (length requests)) out rest client).
Proof.
  intros fs out Hid Hn Ha Hmax Hfs Hrun Hop Hwr Hw Hin.
  destruct (conn_answers lim maxlen conn fs c st Hrun Hop Hwr Hw Hfs) as (ps & rs & Hps & Hrs & Hout).
  exists ps. split; [done|]. assert (length fs = length ps) as Hlen
    by (by eapply Forall2_length).
  apply (pipelined_spec client requests ps rs rest); try done.
  - eapply Forall_impl; [|exact Hfs]. by intros f (? & _).
  - rewrite <- Hlen. apply length_issued.
  - apply list.Forall_forall. intros r Hr. rewrite Hrs in Hr.
    apply elem_of_lookup_zip_with in Hr as (i & f & p & -> & Hf & Hp).
    destruct (Forall2_lookup_lr _ _ _ _ _ _ Hps Hf Hp) as [Hok _]. split; [done|].
    destruct Hok as (_ & _ & Hl). lia.
  - by rewrite Hin, Hout.
Qed.

(** Three requests arrive in one read and are executed in reverse. *)
Definition three_requests : list (Command * RequestPayload) :=
  [(Get, RGet "default" (as_bytes "a"));
   (Delete, RDelete "default" (as_bytes "b"));
   (Get, RGet "default" (as_bytes "z"))].

Definition three_bytes : bytes := concat (request_bytes <$> issued 1 three_requests).

Definition reversed : list Move :=
  [MRead (Engine.manual_clock 20) three_bytes; MSpawn; MSpawn; MSpawn;
   MExecute (Engine.manual_clock 21) 2; MSend 0; MWrite;
   MExecute (Engine.manual_clock 22) 1; MExecute (Engine.manual_clock 23) 0; MSend 0; MSend 0;
   MWrite].

Definition reversed_run : option (Conn * AppState) :=
  @moves Engine.canonical_order ShardedSpec.ShardedSpec.demo_env 1024 1 reversed Conn_new sample_state.

(** The ids of the responses, in the order of the bytes written. *)
Definition written_ids (c : Conn) : list (option N) :=
  (λ bs, match decode_response_frame bs U32_MAX with
         | Ok r => Some (rs_request_id r) | Err _ => None end) <$>
  frames_of (concat (c_output c)) (match find_complete_native_frames (concat (c_output c)) U32_MAX
    with Frames rs => rs | _ => [] end).

Lemma sample_state_len :
  @System.System.st_len ShardedSpec.ShardedSpec.demo_env
    ShardedSpec.ShardedSpec.demo_sharded_limits 2 sample_state.
Proof. split; [apply sample_state_ok | vm_compute; reflexivity]. Qed.

Lemma reversed_conn c st :
  reversed_run = Some (c, st) →
  @conn_run Engine.canonical_order ShardedSpec.ShardedSpec.demo_env 1024 1
    (@st_ok ShardedSpec.ShardedSpec.demo_env ShardedSpec.ShardedSpec.demo_sharded_limits)
    three_bytes c st.
Proof.
  intros Hrun. change three_bytes with ([] ++ (three_bytes ++ [])).
  apply (@moves_run Engine.canonical_order ShardedSpec.ShardedSpec.demo_env 1024 1 _
    (@System.System.st_len ShardedSpec.ShardedSpec.demo_env
       ShardedSpec.ShardedSpec.demo_sharded_limits 2) reversed [] Conn_new sample_state c st).
  - intros chunk c1 st1 c2 st2 Hact. eapply System.System.keeps_act; [|exact Hact].
    apply System.System.st_len_preserved.
  - by intros ? [].
  - apply conn_run_new, sample_state_ok.
  - apply sample_state_len.
  - exact Hrun.
Qed.

Lemma three_sendable :
  Forall (@sendable Engine.canonical_order ShardedSpec.ShardedSpec.demo_env
    ShardedSpec.ShardedSpec.demo_sharded_limits 1024) (issued 1 three_requests).
Proof.
  repeat (apply List.Forall_cons; [split; [concrete_ok|split;
    [vm_compute; discriminate|apply bound_fits; vm_compute; discriminate]]|]).
  apply List.Forall_nil.
Qed.

Lemma pipelined_exchange_witness :
  ∃ c st ps, reversed_run = Some (c, st) ∧ written_ids c = [Some 3; Some 2; Some 1] ∧
    length ps = 3%nat ∧
    option_map fst (request_pipelined three_requests (connect U32_MAX (concat (c_output c))))
      = Some (pipelined_result ps).
Proof.
  assert ((λ p : Conn * AppState, (written_ids p.1, c_closed p.1, c_writer p.1, work p.1))
    <$> reversed_run = Some ([Some 3; Some 2; Some 1], false, true, 0%nat)) as Hview
    by (vm_compute; reflexivity).
  destruct reversed_run as [[c st]|] eqn:E; [|discriminate Hview].
  apply Some_inj in Hview. cbn [fst] in Hview. injection Hview as Hids Hcl Hwr Hw.
  destruct (@pipelined_exchange Engine.canonical_order ShardedSpec.ShardedSpec.demo_env
    ShardedSpec.ShardedSpec.demo_sharded_limits 1024 1 (connect U32_MAX (concat (c_output c)))
    three_requests c st []) as (ps & Hps & Hcall).
  - split; vm_compute; discriminate.
  - vm_compute. discriminate.
  - vm_compute. discriminate.
  - vm_compute. discriminate.
  - exact three_sendable.
  - exact (reversed_conn c st E).
  - exact Hcl.
  - exact Hwr.
  - exact Hw.
  - by rewrite app_nil_r.
  - exists c, st, ps. split; [reflexivity|]. split; [exact Hids|]. split.
    + symmetry. exact (Forall2_length Hps).
    + rewrite Hcall. reflexivity.
Defined.
End Exchange.
