(* ===== verification/Ai.v ===== *)
(** * Ai: cache keys and stream capture for model calls

    [clients/rust/cachebox-client/src/ai.rs]: the normalization of prompt and
    embedding requests into bytes, their digest and key, the decision taken on
    the outcome of a lease, and the capture of a generated stream.

    JSON values are those of the crate [serde_json], whose text is the class
    [SerdeJson]: how a number and a string literal are written.  A JSON object
    is the list of its fields in the order the crate iterates over them. *)

From stdpp Require Import sorting.
From S2P Require Import Prelude Bytes.

Module Ai.

(** ** JSON *)

Class SerdeJson := {
  Number : Type;
  number_to_string : Number → string;
  json_string : string → string
}.

(** [slice::sort_by_key(|(key, _)| *key)] and the iteration order of a
    [BTreeMap<String, A>]: strings are compared by byte. *)
Definition key_le {A} (p q : string * A) : Prop := String.le p.1 q.1.

#[export] Instance key_le_dec {A} : RelDecision (@key_le A).
Proof. intros p q. unfold key_le. apply _. Defined.

Definition sort_by_key {A} (l : list (string * A)) : list (string * A) := merge_sort key_le l.

(** A [BTreeMap<String, A>] and its iterator. *)
Abbreviation BTreeMap := (gmap string).

Definition btree_iter {A} (m : BTreeMap A) : list (string * A) := sort_by_key (map_to_list m).

Section ai.
Context `{SerdeJson}.

Inductive Value :=
| Null
| Bool (b : bool)
| Num (n : Number)
| Str (s : string)
| Array (values : list Value)
| Object (fields : list (string * Value)).

(** The fields of an object are rendered before they are sorted: the order
    depends on the keys alone. *)
Fixpoint canonical_json (value : Value) : string :=
  match value with
  | Null => "null"
  | Bool b => if b then "true" else "false"
  | Num n => number_to_string n
  | Str s => json_string s
  | Array values => "[" +:+ String.concat "," (canonical_json <$> values) +:+ "]"
  | Object fields =>
    let items := sort_by_key ((λ p, (p.1, canonical_json p.2)) <$> fields) in
    "{" +:+ String.concat "," ((λ p, json_string p.1 +:+ ":" +:+ p.2) <$> items) +:+ "}"
  end.

(** ** Inputs *)

Record PromptMessage := {
  pm_role : string;
  pm_content : string;
  pm_name : option string
}.

Definition PromptMessage_new (role content : string) : PromptMessage :=
  {| pm_role := role; pm_content := content; pm_name := None |}.

Definition with_name (name : string) (m : PromptMessage) : PromptMessage :=
  {| pm_role := pm_role m; pm_content := pm_content m; pm_name := Some name |}.

Record PromptCacheKeyInput := {
  pi_provider : string;
  pi_model : string;
  pi_model_version : option string;
  pi_messages : list PromptMessage;
  pi_system_prompt : option string;
  pi_tool_schema : option Value;
  pi_sampling_parameters : BTreeMap Value;
  pi_output_format : option string;
  pi_retrieval_context_hash : option string;
  pi_application_namespace : string
}.

Definition PromptCacheKeyInput_new (provider model application_namespace : string) :
    PromptCacheKeyInput :=
  {| pi_provider := provider; pi_model := model; pi_model_version := None; pi_messages := [];
     pi_system_prompt := None; pi_tool_schema := None; pi_sampling_parameters := ∅;
     pi_output_format := None; pi_retrieval_context_hash := None;
     pi_application_namespace := application_namespace |}.

Record EmbeddingCacheKeyInput := {
  ei_model : string;
  ei_model_version : option string;
  ei_input_content_hash : string;
  ei_normalization_settings : BTreeMap Value;
  ei_chunking_strategy : string;
  ei_dimensions : N;
  ei_application_namespace : string
}.

Definition EmbeddingCacheKeyInput_new (model input_content_hash chunking_strategy : string)
    (dimensions : N) (application_namespace : string) : EmbeddingCacheKeyInput :=
  {| ei_model := model; ei_model_version := None; ei_input_content_hash := input_content_hash;
     ei_normalization_settings := ∅; ei_chunking_strategy := chunking_strategy;
     ei_dimensions := dimensions; ei_application_namespace := application_namespace |}.

(** ** Normalization *)

Definition append_u64 (value : N) (out : bytes) : bytes := out ++ to_be_bytes 8 value.

Definition append_bytes (field value : bytes) (out : bytes) : bytes :=
  let out := append_u64 (len field) out in
  let out := out ++ field in
  let out := append_u64 (len value) out in
  out ++ value.

Definition append_str (field : bytes) (value : string) (out : bytes) : bytes :=
  append_bytes field (as_bytes value) out.

Definition append_optional_str (field : bytes) (value : option string) (out : bytes) : bytes :=
  match value with
  | Some value => append_str field value out
  | None => append_bytes field (as_bytes "<none>") out
  end.

Definition append_json (field : bytes) (value : option Value) (out : bytes) : bytes :=
  match value with
  | Some value => append_bytes field (as_bytes (canonical_json value)) out
  | None => append_bytes field (as_bytes "<none>") out
  end.

Definition append_json_map (field key_field value_field : bytes) (values : BTreeMap Value)
    (out : bytes) : bytes :=
  let out := append_bytes field (as_bytes "map") out in
  let out := append_u64 (N.of_nat (size values)) out in
  foldl (λ out p,
    let out := append_str key_field p.1 out in
    append_bytes value_field (as_bytes (canonical_json p.2)) out) out (btree_iter values).

Definition PROMPT_KEY_PREFIX : bytes := as_bytes "ai:prompt:v1:".
Definition EMBEDDING_KEY_PREFIX : bytes := as_bytes "ai:embedding:v1:".
Definition PROMPT_NORMALIZATION_VERSION : bytes := as_bytes "cachebox.ai.prompt.v1".
Definition EMBEDDING_NORMALIZATION_VERSION : bytes := as_bytes "cachebox.ai.embedding.v1".

Definition append_message (out : bytes) (message : PromptMessage) : bytes :=
  let out := append_str (as_bytes "message.role") (pm_role message) out in
  let out := append_optional_str (as_bytes "message.name") (pm_name message) out in
  append_str (as_bytes "message.content") (pm_content message) out.

Definition normalize_prompt_input (input : PromptCacheKeyInput) : bytes :=
  let out := [] in
  let out := append_bytes (as_bytes "version") PROMPT_NORMALIZATION_VERSION out in
  let out := append_str (as_bytes "provider") (pi_provider input) out in
  let out := append_str (as_bytes "model") (pi_model input) out in
  let out := append_optional_str (as_bytes "model_version") (pi_model_version input) out in
  let out := append_optional_str (as_bytes "system_prompt") (pi_system_prompt input) out in
  let out := append_json (as_bytes "tool_schema") (pi_tool_schema input) out in
  let out := append_json_map (as_bytes "sampling_parameters") (as_bytes "sampling.name")
    (as_bytes "sampling.value") (pi_sampling_parameters input) out in
  let out := append_optional_str (as_bytes "output_format") (pi_output_format input) out in
  let out := append_optional_str (as_bytes "retrieval_context_hash")
    (pi_retrieval_context_hash input) out in
  let out := append_str (as_bytes "application_namespace") (pi_application_namespace input) out in
  let out := append_u64 (len (pi_messages input)) out in
  foldl append_message out (pi_messages input).

Definition normalize_embedding_input (input : EmbeddingCacheKeyInput) : bytes :=
  let out := [] in
  let out := append_bytes (as_bytes "version") EMBEDDING_NORMALIZATION_VERSION out in
  let out := append_str (as_bytes "model") (ei_model input) out in
  let out := append_optional_str (as_bytes "model_version") (ei_model_version input) out in
  let out := append_str (as_bytes "input_content_hash") (ei_input_content_hash input) out in
  let out := append_json_map (as_bytes "normalization_settings") (as_bytes "normalization.name")
    (as_bytes "normalization.value") (ei_normalization_settings input) out in
  let out := append_str (as_bytes "chunking_strategy") (ei_chunking_strategy input) out in
  let out := append_u64 (ei_dimensions input) out in
  append_str (as_bytes "application_namespace") (ei_application_namespace input) out.

(** ** Digest and key *)

Definition U128 : N := 2 ^ 128.
Definition FNV_OFFSET_BASIS : N := 0x6c62272e07bb014262b821756295c58d.
Definition FNV_PRIME : N := 0x0000000001000000000000000000013b.

(** [a.wrapping_mul(b)] on [u128]: the low 128 bits of the product, computed
    along the bits of [b]. *)
Definition wrapping_mul_u128 (a b : N) : N := N.land (b * a) (N.ones 128).

Definition fnv1a_128 (bs : bytes) : N :=
  foldl (λ hash byte, wrapping_mul_u128 (N.lxor hash (Byte.to_N byte)) FNV_PRIME) FNV_OFFSET_BASIS bs.

Definition HEX : bytes := as_bytes "0123456789abcdef".

(** [(0..128).step_by(4).rev()] *)
Definition shifts : list N := reverse ((λ i, N.of_nat (4 * i)) <$> seq 0 32).

Definition write_hex_u128 (value : N) (out : bytes) : bytes :=
  foldl (λ out shift, out ++ [index HEX (N.to_nat (N.land (N.shiftr value shift) 15))]) out shifts.

Definition digest_key (prefix : bytes) (digest : N) : bytes := write_hex_u128 digest prefix.

Definition prompt_cache_key (input : PromptCacheKeyInput) : bytes :=
  digest_key PROMPT_KEY_PREFIX (fnv1a_128 (normalize_prompt_input input)).

Definition embedding_cache_key (input : EmbeddingCacheKeyInput) : bytes :=
  digest_key EMBEDDING_KEY_PREFIX (fnv1a_128 (normalize_embedding_input input)).
End ai.

(** ** Generation under a lease *)

Inductive GenerationLeaseStart :=
| GHit (value : bytes)
| GStale (value : bytes)
| GLeaseGranted (lease_token : string) (stale_value : option bytes)
| GLeaseDenied.

Inductive GenerationLeaseAction :=
| ReturnCached (value : bytes)
| Generate (lease_token : string) (stale_value : option bytes)
| RetryLater.

Definition generation_lease_action (start : GenerationLeaseStart) : GenerationLeaseAction :=
  match start with
  | GHit value | GStale value => ReturnCached value
  | GLeaseGranted lease_token stale_value => Generate lease_token stale_value
  | GLeaseDenied => RetryLater
  end.

Inductive GenerationCompletionFailure :=
| FInvalidLeaseToken | FExpiredLease | FRejectedValue | FTransportError.

Inductive GenerationCompletion :=
| Completed
| Failed (lease_token : string) (reason : GenerationCompletionFailure).

Definition generation_completion_success : GenerationCompletion := Completed.

Definition generation_completion_failure (lease_token : string)
    (reason : GenerationCompletionFailure) : GenerationCompletion := Failed lease_token reason.

(** ** Stream capture *)

Record StreamCapture := { sc_chunks : list bytes; sc_failed : bool }.

Record CapturedStream := { cs_lease_token : string; cs_value : bytes }.

Inductive StreamCaptureError := GenerationFailed.

Definition StreamCapture_new : StreamCapture := {| sc_chunks := []; sc_failed := false |}.

Definition push_chunk (chunk : bytes) (c : StreamCapture) : StreamCapture :=
  if negb (sc_failed c)
  then {| sc_chunks := sc_chunks c ++ [chunk]; sc_failed := sc_failed c |}
  else c.

Definition mark_failed (c : StreamCapture) : StreamCapture :=
  {| sc_chunks := []; sc_failed := true |}.

Definition finish (lease_token : string) (c : StreamCapture) :
    result CapturedStream StreamCaptureError :=
  if sc_failed c then Err GenerationFailed
  else Ok {| cs_lease_token := lease_token; cs_value := concat (sc_chunks c) |}.
End Ai.
