(* ===== verification/AiJson.v ===== *)
(** * AiJson: canonical JSON

    [canonical_json] writes two values alike exactly when they are the same up
    to the order of the fields of their objects.  The laws of [serde_json] the
    proof rests on are those of JSON text: numbers are made of number
    characters and determine the number, a string literal starts with a quote
    and ends where its text says. *)

From stdpp Require Import sorting.
From Stdlib Require Import Strings.Ascii.
From S2P Require Import Prelude Bytes Numbers Ai.

Module AiJson.
Import Ai.

(** ** Strings *)

Fixpoint string_all (p : Ascii.ascii → bool) (s : string) : bool :=
  match s with EmptyString => true | String a s => p a && string_all p s end.

(** A text that starts with no character of [p]. *)
Definition starts_not (p : Ascii.ascii → bool) (s : string) : Prop :=
  match s with EmptyString => True | String a _ => p a = false end.

Lemma span_inj p a b r r' :
  string_all p a = true → string_all p b = true → starts_not p r → starts_not p r' →
  a +:+ r = b +:+ r' → a = b ∧ r = r'.
Proof.
  revert b. induction a as [|x a IH]; intros [|y b] Ha Hb Hr Hr' Heq;
    rewrite ?string_app_cons, ?string_app_nil in Heq; simpl in *.
  - done.
  - subst r. simpl in Hr. by rewrite Hr in Hb.
  - subst r'. simpl in Hr'. by rewrite Hr' in Ha.
  - apply andb_true_iff in Ha as [_ Ha], Hb as [_ Hb]. injection Heq as -> Heq.
    destruct (IH b Ha Hb Hr Hr' Heq) as [-> ->]. done.
Qed.

(** ** The laws of the text of JSON *)

Definition number_char (a : Ascii.ascii) : bool :=
  let n := Ascii.N_of_ascii a in
  ((48 <=? n) && (n <=? 57)) ||
  bool_decide (a ∈ ["+"; "-"; "."; "e"; "E"]%char).

Definition quote_char : Ascii.ascii := Ascii.ascii_of_N 34.

Class SerdeJsonLaws `(SerdeJson) : Prop := {
  number_text n : number_to_string n ≠ ""%string ∧ string_all number_char (number_to_string n) = true;
  number_inj n m : number_to_string n = number_to_string m → n = m;
  string_quoted s : ∃ body, json_string s = String quote_char body;
  string_delimited s t r r' :
    json_string s +:+ r = json_string t +:+ r' → s = t ∧ r = r'
}.

(** ** Sorting by key *)

Section sorting.
Context {A : Type}.
Implicit Types l : list (string * A).

#[local] Instance key_le_total : Total (@key_le A).
Proof. intros p q. apply String.le_total. Qed.

#[local] Instance key_le_trans : Transitive (@key_le A).
Proof. intros p q r. unfold key_le. by etrans. Qed.

Lemma sort_perm l : sort_by_key l ≡ₚ l.
Proof. apply merge_sort_Permutation. Qed.

Lemma sort_sorted l : StronglySorted key_le (sort_by_key l).
Proof. apply StronglySorted_merge_sort; apply _. Qed.

Lemma NoDup_key_unique l p q : NoDup l.*1 → p ∈ l → q ∈ l → p.1 = q.1 → p = q.
Proof.
  intros Hnd [i Hi]%list_elem_of_lookup [j Hj]%list_elem_of_lookup Heq.
  assert (i = j) as ->; [|congruence].
  apply (NoDup_lookup _ i j p.1 Hnd); rewrite list_lookup_fmap.
  - by rewrite Hi.
  - by rewrite Hj, Heq.
Qed.

(** Lists with unique keys and the same elements are sorted alike. *)
Lemma sort_unique l l' : NoDup l.*1 → l ≡ₚ l' → sort_by_key l = sort_by_key l'.
Proof.
  intros Hnd Hp. apply (StronglySorted_unique_strong key_le).
  - intros p q. rewrite sort_perm, sort_perm, <- Hp. intros H1 H2 H3 H4.
    apply (NoDup_key_unique l); [done..|]. by apply (anti_symm String.le).
  - apply sort_sorted.
  - apply sort_sorted.
  - by rewrite !sort_perm.
Qed.
End sorting.

(** Mapping the values commutes with sorting. *)
Lemma sort_fmap {A B} (f : A → B) (l : list (string * A)) :
  NoDup l.*1 →
  sort_by_key (prod_map id f <$> l) = prod_map id f <$> sort_by_key l.
Proof.
  intros Hnd. assert (prod_map id f <$> l ≡ₚ prod_map id f <$> sort_by_key l) as Hp
    by by rewrite sort_perm.
  assert (NoDup (prod_map id f <$> l).*1) as Hnd'.
  { rewrite <- list_fmap_compose. by erewrite (list_fmap_ext _ fst). }
  apply (StronglySorted_unique_strong key_le).
  - intros p q. rewrite sort_perm, <- Hp. intros H1 H2 H3 H4.
    apply (NoDup_key_unique (prod_map id f <$> l)); [done..|]. by apply (anti_symm String.le).
  - apply sort_sorted.
  - generalize (sort_sorted l). clear. generalize (sort_by_key l). clear l.
    induction 1 as [|p k Hk IH Hf]; constructor; [done|].
    apply Forall_fmap. revert Hf. apply Forall_impl. done.
  - by rewrite sort_perm.
Qed.

Section values.
Context `{SJ : SerdeJson}.

(** The keys of an object are distinct. *)
Inductive json_ok : Value → Prop :=
| ok_null : json_ok Null
| ok_bool b : json_ok (Bool b)
| ok_num n : json_ok (Num n)
| ok_str s : json_ok (Str s)
| ok_array vs : Forall json_ok vs → json_ok (Array vs)
| ok_object fs : NoDup fs.*1 → Forall (λ p, json_ok p.2) fs → json_ok (Object fs).

(** The same value up to the order of fields. *)
Inductive json_equiv : Value → Value → Prop :=
| eqv_null : json_equiv Null Null
| eqv_bool b : json_equiv (Bool b) (Bool b)
| eqv_num n : json_equiv (Num n) (Num n)
| eqv_str s : json_equiv (Str s) (Str s)
| eqv_array vs ws : Forall2 json_equiv vs ws → json_equiv (Array vs) (Array ws)
| eqv_object fs fs' gs' gs :
    fs ≡ₚ fs' → Forall2 (λ p q, p.1 = q.1 ∧ json_equiv p.2 q.2) fs' gs' → gs' ≡ₚ gs →
    json_equiv (Object fs) (Object gs).

(** Induction on a value and the values it contains. *)
Lemma value_ind_strong (P : Value → Prop) :
  P Null → (∀ b, P (Bool b)) → (∀ n, P (Num n)) → (∀ s, P (Str s)) →
  (∀ vs, Forall P vs → P (Array vs)) →
  (∀ fs, Forall (λ p : string * Value, P p.2) fs → P (Object fs)) →
  ∀ v, P v.
Proof.
  intros H1 H2 H3 H4 H5 H6. fix IH 1. intros [|b|n|s|vs|fs]; [done|apply H2|apply H3|apply H4| |].
  - apply H5. induction vs; constructor; [apply IH|done].
  - apply H6. induction fs as [|[k v] fs IHf]; constructor; [apply IH|done].
Qed.

Definition field_text (p : string * Value) : string :=
  json_string p.1 +:+ ":" +:+ canonical_json p.2.

Lemma canonical_object fs :
  NoDup fs.*1 →
  canonical_json (Object fs)
  = "{" +:+ String.concat "," (field_text <$> sort_by_key fs) +:+ "}".
Proof.
  intros Hnd. cbn [canonical_json].
  change (λ p : string * Value, (p.1, canonical_json p.2)) with
    (λ p : string * Value, prod_map id canonical_json p).
  change ((λ p : string * Value, prod_map id canonical_json p) <$> fs) with
    (prod_map id canonical_json <$> fs).
  rewrite sort_fmap by done. by rewrite <- list_fmap_compose.
Qed.

(** ** Equivalent values are written alike *)

Lemma canonical_equiv v w :
  json_equiv v w → json_ok v → json_ok w → canonical_json v = canonical_json w.
Proof.
  revert w. induction v as [| | | |vs IH|fs IH] using value_ind_strong; intros w Heq Hv Hw;
    inversion Heq as [| | | |? ws Hvs|? fs' gs' gs Hfs Hf Hgs]; subst; try done.
  - cbn [canonical_json]. do 3 f_equal. inversion Hv as [| | | |? Hvo|]; subst.
    inversion Hw as [| | | |? Hwo|]; subst. clear Heq Hv Hw.
    revert IH Hvo Hwo. induction Hvs as [|v w vs ws Hvw Hvs IHl]; [done|].
    intros Hi Ho Ho'. apply Forall_cons_1 in Hi as [Hi Hil]. apply Forall_cons_1 in Ho as [Ho Hol].
    apply Forall_cons_1 in Ho' as [Ho' Hol']. rewrite !fmap_cons. f_equal; [by apply Hi|].
    by apply IHl.
  - inversion Hv as [| | | | |? Hnd Ho]; subst. inversion Hw as [| | | | |? Hnd' Ho']; subst.
    cbn [canonical_json]. do 4 f_equal.
    change (λ p : string * Value, (p.1, canonical_json p.2)) with
      (prod_map id canonical_json : string * Value → _).
    apply sort_unique; [by rewrite <- list_fmap_compose; erewrite (list_fmap_ext _ fst)|].
    rewrite Hfs, <- Hgs. rewrite Hfs in IH, Ho. rewrite <- Hgs in Ho'. apply reflexive_eq.
    clear -Hf IH Ho Ho'. revert IH Ho Ho'.
    induction Hf as [|p q fs' gs' [Hk Hpq] Hf IHl]; [done|].
    intros Hi Ho Ho'. apply Forall_cons_1 in Hi as [Hi Hil]. apply Forall_cons_1 in Ho as [Ho Hol].
    apply Forall_cons_1 in Ho' as [Ho' Hol']. rewrite !fmap_cons. f_equal; [|by apply IHl].
    unfold prod_map. rewrite Hk. f_equal. by apply Hi.
Qed.

(** ** What is written alike is equivalent *)

(** The character that ends a number or follows a value. *)
Definition delim_char (a : Ascii.ascii) : bool := bool_decide (a ∈ [","; "]"; "}"]%char).

Definition delimited (s : string) : Prop :=
  match s with EmptyString => True | String a _ => delim_char a = true end.

Lemma delimited_not_number s : delimited s → starts_not number_char s.
Proof.
  destruct s as [|a s]; [done|]. simpl. unfold delim_char. intros Ha%bool_decide_eq_true.
  repeat (apply elem_of_cons in Ha as [->|Ha]; [by vm_compute|]). by apply not_elem_of_nil in Ha.
Qed.

(** A comma-separated list, its closing character and what follows. *)
Fixpoint tail_items (close : Ascii.ascii) (l : list string) (r : string) : string :=
  match l with [] => String close r | x :: l => "," +:+ x +:+ tail_items close l r end.

Definition items (close : Ascii.ascii) (l : list string) (r : string) : string :=
  match l with [] => String close r | x :: l => x +:+ tail_items close l r end.

Lemma concat_items close l r :
  String.concat "," l +:+ String close "" +:+ r = items close l r.
Proof.
  destruct l as [|x l]; [done|]. simpl items. revert x.
  induction l as [|y l IH]; intros x; [done|].
  change (String.concat "," (x :: y :: l)) with (x +:+ "," +:+ String.concat "," (y :: l)).
  rewrite !string_app_assoc. simpl tail_items. by rewrite <- IH.
Qed.

Lemma tail_delimited close l r : delim_char close = true → delimited (tail_items close l r).
Proof. by destruct l. Qed.

Section items_inj.
Context {T : Type} (enc : T → string) (R : T → T → Prop) (close : Ascii.ascii).
Hypothesis close_delim : delim_char close = true.
Hypothesis close_comma : close ≠ ","%char.

Definition separable (x y : T) : Prop :=
  ∀ s s', delimited s → delimited s' → enc x +:+ s = enc y +:+ s' → R x y ∧ s = s'.

Lemma tail_items_inj l l' r r' :
  (∀ x y, x ∈ l → y ∈ l' → separable x y) →
  tail_items close (enc <$> l) r = tail_items close (enc <$> l') r' → Forall2 R l l' ∧ r = r'.
Proof.
  revert l'. induction l as [|x l IH]; intros [|y l'] Hsep; rewrite ?fmap_cons, ?fmap_nil;
    cbn [tail_items]; intros Heq.
  - injection Heq as ->. done.
  - injection Heq as Hc _. by destruct close_comma.
  - injection Heq as Hc _. by destruct close_comma.
  - apply (inj (String.append ",")) in Heq.
    destruct (Hsep x y ltac:(left) ltac:(left) _ _ (tail_delimited _ _ _ close_delim)
      (tail_delimited _ _ _ close_delim) Heq) as [Hxy Ht].
    apply IH in Ht as [Hl ->]; [|intros; apply Hsep; by right]. split; [by constructor|done].
Qed.

Lemma items_inj l l' r r' :
  (∀ x y, x ∈ l → y ∈ l' → separable x y) →
  (∀ x s s', x ∈ l ∨ x ∈ l' → enc x +:+ s ≠ String close s') →
  items close (enc <$> l) r = items close (enc <$> l') r' → Forall2 R l l' ∧ r = r'.
Proof.
  intros Hsep Hc. destruct l as [|x l], l' as [|y l']; rewrite ?fmap_cons, ?fmap_nil;
    cbn [items]; intros Heq.
  - injection Heq as ->. done.
  - symmetry in Heq. by apply Hc in Heq; [|right; left].
  - by apply Hc in Heq; [|left; left].
  - destruct (Hsep x y ltac:(left) ltac:(left) _ _ (tail_delimited _ _ _ close_delim)
      (tail_delimited _ _ _ close_delim) Heq) as [Hxy Ht].
    apply tail_items_inj in Ht as [Hl ->]; [|intros; apply Hsep; by right].
    split; [by constructor|done].
Qed.
End items_inj.

Context `{!SerdeJsonLaws SJ}.

(** The first character tells the kind of the value. *)
Definition value_kind (v : Value) : nat :=
  match v with Null => 0 | Bool _ => 1 | Num _ => 2 | Str _ => 3 | Array _ => 4 | Object _ => 5 end%nat.

Definition char_kind (a : Ascii.ascii) : nat :=
  if bool_decide (a = "n"%char) then 0
  else if bool_decide (a ∈ ["t"; "f"]%char) then 1
  else if bool_decide (a = quote_char) then 3
  else if bool_decide (a = "["%char) then 4
  else if bool_decide (a = "{"%char) then 5
  else 2%nat.

Lemma number_char_kind a : number_char a = true → char_kind a = 2%nat ∧ delim_char a = false.
Proof. destruct a as [[] [] [] [] [] [] [] []]; vm_compute; done. Qed.

Lemma canonical_head v :
  ∃ a s, canonical_json v = String a s ∧ char_kind a = value_kind v ∧ delim_char a = false.
Proof.
  destruct v as [|[]|n|s|vs|fs]; try by eexists _, _.
  - destruct (number_text n) as [Hne Hall]. cbn [canonical_json].
    destruct (number_to_string n) as [|a t]; [done|]. simpl in Hall.
    apply andb_true_iff in Hall as [Ha _]. destruct (number_char_kind a Ha). by eexists _, _.
  - destruct (string_quoted s) as [body Hb]. exists quote_char, body. by cbn [canonical_json].
Qed.

Lemma canonical_not_close v close s s' :
  delim_char close = true → canonical_json v +:+ s ≠ String close s'.
Proof.
  intros Hc Heq. destruct (canonical_head v) as (a & t & Hv & _ & Ha). rewrite Hv in Heq.
  injection Heq as -> _. congruence.
Qed.

Lemma canonical_same_kind v w s s' :
  canonical_json v +:+ s = canonical_json w +:+ s' → value_kind v = value_kind w.
Proof.
  destruct (canonical_head v) as (a & t & -> & Ha & _), (canonical_head w) as (b & u & -> & Hb & _).
  intros Heq. injection Heq as -> _. congruence.
Qed.

Definition canonical_sep (v : Value) : Prop :=
  ∀ w, json_ok v → json_ok w → separable canonical_json json_equiv v w.

Lemma array_sep vs : Forall canonical_sep vs → canonical_sep (Array vs).
Proof.
  intros IH w Hv Hw s s' Hs Hs' Heq. pose proof (canonical_same_kind _ _ _ _ Heq) as Hk.
  destruct w as [| | | |ws|]; try done. inversion Hv as [| | | |? Hvo|]; subst.
  inversion Hw as [| | | |? Hwo|]; subst. cbn [canonical_json] in Heq.
  rewrite !string_app_assoc in Heq. apply (inj (String.append "[")) in Heq.
  change "]" with (String "]" "") in Heq. rewrite !concat_items in Heq.
  apply (items_inj canonical_json json_equiv "]" eq_refl ltac:(done)) in Heq as [Hl ->].
  - split; [by constructor|done].
  - intros x y Hx Hy. rewrite list.Forall_forall in IH, Hvo, Hwo.
    exact (IH x Hx y (Hvo x Hx) (Hwo y Hy)).
  - intros x t t' _. by apply canonical_not_close.
Qed.

Lemma field_not_close p s s' : field_text p +:+ s ≠ String "}" s'.
Proof.
  unfold field_text. destruct (string_quoted p.1) as [body ->]. intros Heq.
  by injection Heq.
Qed.

Lemma field_sep p q :
  canonical_sep p.2 → json_ok p.2 → json_ok q.2 →
  separable field_text (λ p q, p.1 = q.1 ∧ json_equiv p.2 q.2) p q.
Proof.
  intros IH Hp Hq s s' Hs Hs' Heq. unfold field_text in Heq. rewrite !string_app_assoc in Heq.
  apply string_delimited in Heq as [Hk Heq]. apply (inj (String.append ":")) in Heq.
  apply IH in Heq as [? ->]; done.
Qed.

Lemma object_sep fs : Forall (λ p : string * Value, canonical_sep p.2) fs → canonical_sep (Object fs).
Proof.
  intros IH w Hv Hw s s' Hs Hs' Heq. pose proof (canonical_same_kind _ _ _ _ Heq) as Hk.
  destruct w as [| | | | |gs]; try done. inversion Hv as [| | | | |? Hnd Hvo]; subst.
  inversion Hw as [| | | | |? Hnd' Hwo]; subst. rewrite !canonical_object in Heq by done.
  rewrite !string_app_assoc in Heq. apply (inj (String.append "{")) in Heq.
  change "}" with (String "}" "") in Heq. rewrite !concat_items in Heq.
  eapply (items_inj field_text _ "}" eq_refl ltac:(done)) in Heq as [Hl ->].
  - split; [|done]. eapply eqv_object; [symmetry; apply sort_perm|exact Hl|apply sort_perm].
  - intros p q. rewrite !sort_perm. intros Hp Hq. rewrite list.Forall_forall in IH, Hvo, Hwo.
    apply field_sep; auto.
  - intros p t t' _. apply field_not_close.
Qed.

Lemma canonical_separable v : canonical_sep v.
Proof.
  induction v as [| b|n|t|vs IH|fs IH] using value_ind_strong; [..|by apply array_sep|by apply object_sep];
    intros w _ _ s s' Hs Hs' Heq; pose proof (canonical_same_kind _ _ _ _ Heq) as Hk;
    destruct w as [|b'|m|u| |]; try done; cbn [canonical_json] in Heq.
  - apply (inj (String.append "null")) in Heq as ->. split; [constructor|done].
  - destruct b, b'; try done.
    + apply (inj (String.append "true")) in Heq as ->. split; [constructor|done].
    + apply (inj (String.append "false")) in Heq as ->. split; [constructor|done].
  - destruct (number_text n) as [_ Hn], (number_text m) as [_ Hm].
    apply (span_inj number_char) in Heq as [Heq ->]; try done; [|by apply delimited_not_number..].
    apply number_inj in Heq as ->. split; [constructor|done].
  - apply string_delimited in Heq as [-> ->]. split; [constructor|done].
Qed.

(** Two values are written alike exactly when they are equivalent. *)
Lemma canonical_json_iff v w :
  json_ok v → json_ok w → canonical_json v = canonical_json w ↔ json_equiv v w.
Proof.
  intros Hv Hw. split; [|by intros; apply canonical_equiv].
  intros Heq. apply (canonical_separable v w Hv Hw "" ""); [done|done|]. by rewrite Heq.
Qed.

Lemma canonical_not_none v : canonical_json v ≠ "<none>"%string.
Proof.
  intros Hv. destruct (canonical_head v) as (a & t & Ha & Hk & _). rewrite Hv in Ha.
  injection Ha as <- <-. destruct v as [| | n| | |]; try done.
  destruct (number_text n) as [_ Hn]. cbn [canonical_json] in Hv. by rewrite Hv in Hn.
Qed.
End values.
End AiJson.
