(* ===== verification/AiSpec.v ===== *)
(** * AiSpec: what the cache keys promise

    Two requests have the same normal form exactly when they are the same
    request up to the order of the fields of their JSON objects, and up to one
    confusion: an absent optional text and the text ["<none>"].  A key is a
    prefix and the digest in hexadecimal, from which the digest can be read
    back.  A captured stream is the concatenation of its chunks, or nothing. *)

From stdpp Require Import sorting.
From Stdlib Require Import Strings.Ascii.
From S2P Require Import Prelude Bytes ProtocolFacts Numbers Ai AiJson.

Module AiSpec.
Import Ai AiJson.
Import ProtocolFacts(from_to_u64).

(** ** Length-prefixed fields *)

Definition item (field value : bytes) : bytes :=
  to_be_bytes 8 (len field) ++ field ++ to_be_bytes 8 (len value) ++ value.

Lemma append_bytes_item field value out : append_bytes field value out = out ++ item field value.
Proof. unfold append_bytes, append_u64, item. by rewrite <- !app_assoc. Qed.

Lemma be8_inj n m r r' :
  n ≤ U64_MAX → m ≤ U64_MAX → to_be_bytes 8 n ++ r = to_be_bytes 8 m ++ r' → n = m ∧ r = r'.
Proof.
  intros Hn Hm Heq. apply app_inj_1 in Heq as [Heq ->]; [|by rewrite !length_to_be_bytes].
  split; [|done]. rewrite <- (from_to_u64 n), <- (from_to_u64 m) by done. by rewrite Heq.
Qed.

Lemma item_inj field v w r r' :
  len v ≤ U64_MAX → len w ≤ U64_MAX →
  item field v ++ r = item field w ++ r' → v = w ∧ r = r'.
Proof.
  intros Hv Hw. unfold item. rewrite <- !app_assoc. intros Heq%app_inv_head%app_inv_head.
  apply be8_inj in Heq as [Hl Heq]; [|done|done].
  apply app_inj_1 in Heq; [done|]. unfold len in Hl. lia.
Qed.

(** [enc] can be read back off the front of a sequence, up to [E]. *)
Definition readable {A} (enc : A → bytes) (P : A → Prop) (E : A → A → Prop) : Prop :=
  ∀ a b r r', P a → P b → enc a ++ r = enc b ++ r' → E a b ∧ r = r'.

Lemma readable_concat {A} (enc : A → bytes) P E l l' r r' :
  readable enc P E → Forall P l → Forall P l' → length l = length l' →
  concat (enc <$> l) ++ r = concat (enc <$> l') ++ r' → Forall2 E l l' ∧ r = r'.
Proof.
  intros He. revert l'. induction l as [|a l IH]; intros [|b l'] Hl Hl' Hlen Heq; try done.
  apply Forall_cons_1 in Hl as [Ha Hl], Hl' as [Hb Hl']. rewrite !fmap_cons in Heq. simpl in Heq.
  rewrite <- !app_assoc in Heq. apply He in Heq as [Hab Heq]; [|done|done].
  apply IH in Heq as [? ->]; [|done|done|by injection Hlen]. split; [by constructor|done].
Qed.

Lemma foldl_appends {A} (f : bytes → A → bytes) (enc : A → bytes) l out :
  (∀ out a, f out a = out ++ enc a) → foldl f out l = out ++ concat (enc <$> l).
Proof.
  intros Hf. revert out. induction l as [|a l IH]; intros out; simpl; [by rewrite app_nil_r|].
  by rewrite IH, Hf, <- app_assoc.
Qed.

(** ** Texts *)

Definition text_fits (s : string) : Prop := str_len s ≤ U64_MAX.

Lemma text_item_inj field s t r r' :
  text_fits s → text_fits t →
  item field (as_bytes s) ++ r = item field (as_bytes t) ++ r' → s = t ∧ r = r'.
Proof.
  unfold text_fits. rewrite <- !len_as_bytes. intros Hs Ht Heq.
  apply item_inj in Heq as [Heq ->]; [|done|done]. split; [|done]. by apply as_bytes_inj.
Qed.

(** The text of an optional text. *)
Definition opt_text (o : option string) : string := default "<none>" o.

Section keys.
Context `{SJ : SerdeJson}.

Definition opt_json (o : option Value) : string :=
  match o with Some v => canonical_json v | None => "<none>" end.

Lemma append_optional_item field o out :
  append_optional_str field o out = out ++ item field (as_bytes (opt_text o)).
Proof. destruct o; apply append_bytes_item. Qed.

Lemma append_json_item field o out :
  append_json field o out = out ++ item field (as_bytes (opt_json o)).
Proof. destruct o; apply append_bytes_item. Qed.

(** ** Maps *)

Lemma btree_iter_fmap {A B} (f : A → B) (m : BTreeMap A) :
  btree_iter (f <$> m) = prod_map id f <$> btree_iter m.
Proof.
  unfold btree_iter. rewrite <- sort_fmap by apply NoDup_fst_map_to_list.
  apply sort_unique; [apply NoDup_fst_map_to_list|]. by rewrite map_to_list_fmap.
Qed.

Lemma btree_iter_inj {A} (m m' : BTreeMap A) : btree_iter m = btree_iter m' → m = m'.
Proof.
  intros Heq. apply map_to_list_inj. unfold btree_iter in Heq.
  by rewrite <- (sort_perm (map_to_list m)), Heq, sort_perm.
Qed.

Lemma length_btree_iter {A} (m : BTreeMap A) : length (btree_iter m) = size m.
Proof. unfold btree_iter. by rewrite sort_perm, length_map_to_list. Qed.

(** The texts of the values of a map. *)
Definition json_texts (m : BTreeMap Value) : BTreeMap string := canonical_json <$> m.

Definition entry_bytes (key_field value_field : bytes) (p : string * string) : bytes :=
  item key_field (as_bytes p.1) ++ item value_field (as_bytes p.2).

Definition json_map_bytes (field key_field value_field : bytes) (m : BTreeMap string) : bytes :=
  item field (as_bytes "map") ++ to_be_bytes 8 (N.of_nat (size m)) ++
  concat (entry_bytes key_field value_field <$> btree_iter m).

Lemma append_json_map_bytes field kf vf m out :
  append_json_map field kf vf m out = out ++ json_map_bytes field kf vf (json_texts m).
Proof.
  unfold append_json_map, json_map_bytes, json_texts, append_u64, append_str.
  rewrite (foldl_appends _ (λ p, entry_bytes kf vf (p.1, canonical_json p.2)))
    by (intros; rewrite !append_bytes_item; unfold entry_bytes; by rewrite <- app_assoc).
  rewrite append_bytes_item, <- !app_assoc, btree_iter_fmap, <- list_fmap_compose.
  by rewrite map_size_fmap.
Qed.

Definition map_fits (m : BTreeMap Value) : Prop :=
  N.of_nat (size m) ≤ U64_MAX ∧
  Forall (λ p : string * string, text_fits p.1 ∧ text_fits p.2) (btree_iter (json_texts m)).

Lemma entry_readable kf vf :
  readable (entry_bytes kf vf) (λ p, text_fits p.1 ∧ text_fits p.2) eq.
Proof.
  intros [a x] [b y] r r' [Ha Hx] [Hb Hy]. unfold entry_bytes. rewrite <- !app_assoc.
  intros Heq. apply text_item_inj in Heq as [Hk Heq]; [|done|done].
  apply text_item_inj in Heq as [Hv Heq]; [|done|done]. simpl in *. by subst.
Qed.

Lemma json_map_inj field kf vf m m' r r' :
  map_fits m → map_fits m' →
  json_map_bytes field kf vf (json_texts m) ++ r = json_map_bytes field kf vf (json_texts m') ++ r' →
  json_texts m = json_texts m' ∧ r = r'.
Proof.
  intros [Hs Hm] [Hs' Hm']. unfold json_map_bytes. rewrite <- !app_assoc. intros Heq%app_inv_head.
  apply be8_inj in Heq as [Hsz Heq];
    [|unfold json_texts; by rewrite map_size_fmap..].
  apply (readable_concat _ _ _ _ _ _ _ (entry_readable kf vf)) in Heq as [Heq ->]; [|done|done|].
  - split; [|done]. apply btree_iter_inj. by apply list_eq_Forall2.
  - rewrite !length_btree_iter. lia.
Qed.

Context `{!SerdeJsonLaws SJ}.

(** The same map up to the order of fields in its values. *)
Definition json_map_equiv (m m' : BTreeMap Value) : Prop :=
  ∀ k, option_Forall2 json_equiv (m !! k) (m' !! k).

Lemma json_texts_iff m m' :
  map_Forall (λ _, json_ok) m → map_Forall (λ _, json_ok) m' →
  json_texts m = json_texts m' ↔ json_map_equiv m m'.
Proof.
  intros Hm Hm'. unfold json_texts. split.
  - intros Heq k. apply (f_equal (lookup k)) in Heq. rewrite !lookup_fmap in Heq.
    destruct (m !! k) as [v|] eqn:Ev, (m' !! k) as [w|] eqn:Ew; try done; constructor.
    injection Heq as Heq. apply canonical_json_iff; [by eapply Hm|by eapply Hm'|done].
  - intros Heq. apply map_eq. intros k. rewrite !lookup_fmap. specialize (Heq k).
    destruct (m !! k) as [v|] eqn:Ev, (m' !! k) as [w|] eqn:Ew; inversion Heq; subst; [|done].
    simpl. f_equal. apply canonical_json_iff; [by eapply Hm|by eapply Hm'|done].
Qed.

Definition opt_json_ok (o : option Value) : Prop := ∀ v, o = Some v → json_ok v.

Lemma opt_json_iff o o' :
  opt_json_ok o → opt_json_ok o' → opt_json o = opt_json o' ↔ option_Forall2 json_equiv o o'.
Proof.
  intros Ho Ho'. destruct o as [v|], o' as [w|]; simpl; split; intros Heq; try done.
  - constructor. apply canonical_json_iff; auto.
  - inversion Heq; subst. apply canonical_json_iff; auto.
  - by apply canonical_not_none in Heq.
  - inversion Heq.
  - symmetry in Heq. by apply canonical_not_none in Heq.
  - inversion Heq.
  - constructor.
Qed.

(** ** Prompts *)

Definition message_bytes (m : PromptMessage) : bytes :=
  item (as_bytes "message.role") (as_bytes (pm_role m)) ++
  item (as_bytes "message.name") (as_bytes (opt_text (pm_name m))) ++
  item (as_bytes "message.content") (as_bytes (pm_content m)).

Definition message_fits (m : PromptMessage) : Prop :=
  text_fits (pm_role m) ∧ text_fits (opt_text (pm_name m)) ∧ text_fits (pm_content m).

(** The same message, an absent name and the name ["<none>"] confused. *)
Definition message_equiv (m m' : PromptMessage) : Prop :=
  pm_role m = pm_role m' ∧ opt_text (pm_name m) = opt_text (pm_name m') ∧
  pm_content m = pm_content m'.

Lemma message_readable : readable message_bytes message_fits message_equiv.
Proof.
  intros m m' r r' (H1 & H2 & H3) (H1' & H2' & H3'). unfold message_bytes. rewrite <- !app_assoc.
  intros Heq. apply text_item_inj in Heq as [E1 Heq]; [|done|done].
  apply text_item_inj in Heq as [E2 Heq]; [|done|done].
  apply text_item_inj in Heq as [E3 Heq]; [|done|done]. done.
Qed.

Lemma message_equiv_bytes m m' : message_equiv m m' → message_bytes m = message_bytes m'.
Proof. intros (H1 & H2 & H3). unfold message_bytes. by rewrite H1, H2, H3. Qed.

(** Texts that fit in memory, JSON objects without repeated keys. *)
Record prompt_ok (i : PromptCacheKeyInput) : Prop := {
  pk_provider : text_fits (pi_provider i);
  pk_model : text_fits (pi_model i);
  pk_version : text_fits (opt_text (pi_model_version i));
  pk_system : text_fits (opt_text (pi_system_prompt i));
  pk_tool_text : text_fits (opt_json (pi_tool_schema i));
  pk_tool : opt_json_ok (pi_tool_schema i);
  pk_params_fit : map_fits (pi_sampling_parameters i);
  pk_params : map_Forall (λ _, json_ok) (pi_sampling_parameters i);
  pk_format : text_fits (opt_text (pi_output_format i));
  pk_context : text_fits (opt_text (pi_retrieval_context_hash i));
  pk_namespace : text_fits (pi_application_namespace i);
  pk_count : len (pi_messages i) ≤ U64_MAX;
  pk_messages : Forall message_fits (pi_messages i)
}.

Record prompt_equiv (i j : PromptCacheKeyInput) : Prop := {
  pe_provider : pi_provider i = pi_provider j;
  pe_model : pi_model i = pi_model j;
  pe_version : opt_text (pi_model_version i) = opt_text (pi_model_version j);
  pe_system : opt_text (pi_system_prompt i) = opt_text (pi_system_prompt j);
  pe_tool : option_Forall2 json_equiv (pi_tool_schema i) (pi_tool_schema j);
  pe_params : json_map_equiv (pi_sampling_parameters i) (pi_sampling_parameters j);
  pe_format : opt_text (pi_output_format i) = opt_text (pi_output_format j);
  pe_context : opt_text (pi_retrieval_context_hash i) = opt_text (pi_retrieval_context_hash j);
  pe_namespace : pi_application_namespace i = pi_application_namespace j;
  pe_messages : Forall2 message_equiv (pi_messages i) (pi_messages j)
}.

Definition prompt_bytes (i : PromptCacheKeyInput) : bytes :=
  item (as_bytes "version") PROMPT_NORMALIZATION_VERSION ++
  item (as_bytes "provider") (as_bytes (pi_provider i)) ++
  item (as_bytes "model") (as_bytes (pi_model i)) ++
  item (as_bytes "model_version") (as_bytes (opt_text (pi_model_version i))) ++
  item (as_bytes "system_prompt") (as_bytes (opt_text (pi_system_prompt i))) ++
  item (as_bytes "tool_schema") (as_bytes (opt_json (pi_tool_schema i))) ++
  json_map_bytes (as_bytes "sampling_parameters") (as_bytes "sampling.name")
    (as_bytes "sampling.value") (json_texts (pi_sampling_parameters i)) ++
  item (as_bytes "output_format") (as_bytes (opt_text (pi_output_format i))) ++
  item (as_bytes "retrieval_context_hash") (as_bytes (opt_text (pi_retrieval_context_hash i))) ++
  item (as_bytes "application_namespace") (as_bytes (pi_application_namespace i)) ++
  to_be_bytes 8 (len (pi_messages i)) ++ concat (message_bytes <$> pi_messages i).

Lemma append_message_bytes out m : append_message out m = out ++ message_bytes m.
Proof.
  unfold append_message, append_str, message_bytes.
  by rewrite !append_optional_item, !append_bytes_item, <- !app_assoc.
Qed.

Lemma normalize_prompt_bytes i : normalize_prompt_input i = prompt_bytes i.
Proof.
  unfold normalize_prompt_input, prompt_bytes. cbv zeta.
  rewrite (foldl_appends _ message_bytes) by apply append_message_bytes.
  unfold append_str, append_u64.
  repeat rewrite ?append_bytes_item, ?append_json_map_bytes, ?append_optional_item,
    ?append_json_item.
  rewrite <- !app_assoc. reflexivity.
Qed.

(** Reads the next text off both sides of the equation [H]. *)
Ltac next_text H E := apply text_item_inj in H as [E H]; [|done|done].

Lemma prompt_bytes_inj i j :
  prompt_ok i → prompt_ok j → prompt_bytes i = prompt_bytes j → prompt_equiv i j.
Proof.
  intros [] [] Heq. unfold prompt_bytes in Heq. apply app_inv_head in Heq.
  next_text Heq E1. next_text Heq E2. next_text Heq E3. next_text Heq E4. next_text Heq E5.
  apply json_map_inj in Heq as [E6 Heq]; [|done|done].
  next_text Heq E7. next_text Heq E8. next_text Heq E9.
  apply be8_inj in Heq as [E10 Heq]; [|done|done].
  rewrite <- (app_nil_r (concat (message_bytes <$> pi_messages i))) in Heq.
  rewrite <- (app_nil_r (concat (message_bytes <$> pi_messages j))) in Heq.
  apply (readable_concat _ _ _ _ _ _ _ message_readable) in Heq as [E11 _];
    [|done|done|unfold len in E10; lia].
  split; try done; [by apply opt_json_iff|by apply json_texts_iff].
Qed.

Lemma Forall2_concat {A} (E : A → A → Prop) (enc : A → bytes) l l' :
  (∀ a b, E a b → enc a = enc b) → Forall2 E l l' → concat (enc <$> l) = concat (enc <$> l').
Proof. intros He. induction 1; [done|]. rewrite !fmap_cons. simpl. by f_equal; auto. Qed.

Lemma prompt_equiv_bytes i j :
  prompt_ok i → prompt_ok j → prompt_equiv i j → prompt_bytes i = prompt_bytes j.
Proof.
  intros [] [] [E1 E2 E3 E4 E5 E6 E7 E8 E9 E10]. unfold prompt_bytes.
  apply opt_json_iff in E5; [|done|done]. apply json_texts_iff in E6; [|done|done].
  pose proof E10 as Hlen. apply Forall2_length in Hlen. unfold len. rewrite Hlen.
  rewrite (Forall2_concat _ _ _ _ message_equiv_bytes E10).
  by rewrite E1, E2, E3, E4, E5, E6, E7, E8, E9.
Qed.

(** ** Embeddings *)

Record embedding_ok (i : EmbeddingCacheKeyInput) : Prop := {
  ek_model : text_fits (ei_model i);
  ek_version : text_fits (opt_text (ei_model_version i));
  ek_hash : text_fits (ei_input_content_hash i);
  ek_settings_fit : map_fits (ei_normalization_settings i);
  ek_settings : map_Forall (λ _, json_ok) (ei_normalization_settings i);
  ek_chunking : text_fits (ei_chunking_strategy i);
  ek_dimensions : ei_dimensions i ≤ U32_MAX;
  ek_namespace : text_fits (ei_application_namespace i)
}.

Record embedding_equiv (i j : EmbeddingCacheKeyInput) : Prop := {
  ee_model : ei_model i = ei_model j;
  ee_version : opt_text (ei_model_version i) = opt_text (ei_model_version j);
  ee_hash : ei_input_content_hash i = ei_input_content_hash j;
  ee_settings : json_map_equiv (ei_normalization_settings i) (ei_normalization_settings j);
  ee_chunking : ei_chunking_strategy i = ei_chunking_strategy j;
  ee_dimensions : ei_dimensions i = ei_dimensions j;
  ee_namespace : ei_application_namespace i = ei_application_namespace j
}.

Definition embedding_bytes (i : EmbeddingCacheKeyInput) : bytes :=
  item (as_bytes "version") EMBEDDING_NORMALIZATION_VERSION ++
  item (as_bytes "model") (as_bytes (ei_model i)) ++
  item (as_bytes "model_version") (as_bytes (opt_text (ei_model_version i))) ++
  item (as_bytes "input_content_hash") (as_bytes (ei_input_content_hash i)) ++
  json_map_bytes (as_bytes "normalization_settings") (as_bytes "normalization.name")
    (as_bytes "normalization.value") (json_texts (ei_normalization_settings i)) ++
  item (as_bytes "chunking_strategy") (as_bytes (ei_chunking_strategy i)) ++
  to_be_bytes 8 (ei_dimensions i) ++
  item (as_bytes "application_namespace") (as_bytes (ei_application_namespace i)).

Lemma normalize_embedding_bytes i : normalize_embedding_input i = embedding_bytes i.
Proof.
  unfold normalize_embedding_input, embedding_bytes, append_str, append_u64. cbv zeta.
  repeat rewrite ?append_bytes_item, ?append_json_map_bytes, ?append_optional_item.
  rewrite <- !app_assoc. reflexivity.
Qed.

Lemma embedding_bytes_iff i j :
  embedding_ok i → embedding_ok j → embedding_bytes i = embedding_bytes j ↔ embedding_equiv i j.
Proof.
  intros [] []. unfold embedding_bytes. split.
  - intros Heq%app_inv_head. next_text Heq E1. next_text Heq E2. next_text Heq E3.
    apply json_map_inj in Heq as [E4 Heq]; [|done|done]. next_text Heq E5.
    apply be8_inj in Heq as [E6 Heq]; [|unfold U32_MAX, U64_MAX in *; lia..].
    rewrite <- (app_nil_r (item _ _)) in Heq at 1. symmetry in Heq.
    rewrite <- (app_nil_r (item _ _)) in Heq at 1. next_text Heq E7.
    split; try done. by apply json_texts_iff.
  - intros [E1 E2 E3 E4 E5 E6 E7]. apply json_texts_iff in E4; [|done|done].
    by rewrite E1, E2, E3, E4, E5, E6, E7.
Qed.
End keys.

(** ** Hexadecimal digests *)

Definition hex_value (b : Byte.byte) : N :=
  let n := Byte.to_N b in if n <=? 57 then n - 48 else n - 87.

(** Reads a hexadecimal text, most significant digit first. *)
Definition from_hex (text : bytes) : N := foldl (λ acc b, 16 * acc + hex_value b) 0 text.

Definition hex_digit (value : N) (i : nat) : Byte.byte :=
  index HEX (N.to_nat (N.land (N.shiftr value (N.of_nat (4 * i))) 15)).

(** The last [n] hexadecimal digits of [value]. *)
Definition hex_digits (n : nat) (value : N) : bytes := hex_digit value <$> reverse (seq 0 n).

Lemma write_hex_digits value out : write_hex_u128 value out = out ++ hex_digits 32 value.
Proof.
  unfold write_hex_u128, shifts, hex_digits.
  rewrite <- (fmap_reverse (λ i, N.of_nat (4 * i))).
  generalize (reverse (seq 0 32)). intros l. revert out.
  induction l as [|i l IH]; intros out; [by rewrite app_nil_r|].
  rewrite !fmap_cons. simpl foldl. by rewrite IH, <- app_assoc.
Qed.

Lemma hex_digits_S n value :
  hex_digits (S n) value = hex_digit value n :: hex_digits n value.
Proof. unfold hex_digits. by rewrite seq_S, reverse_app. Qed.

Lemma nibble_shift value i :
  N.land (N.shiftr value (N.of_nat (4 * i))) 15 = (value / 16 ^ N.of_nat i) mod 16.
Proof.
  change 15 with (N.ones 4). rewrite N.land_ones, N.shiftr_div_pow2, Nat2N.inj_mul.
  change (N.of_nat 4) with 4. by rewrite N.pow_mul_r.
Qed.

Lemma hex_digit_spec value i :
  hex_value (hex_digit value i) = (value / 16 ^ N.of_nat i) mod 16 ∧ hex_digit value i ∈ HEX.
Proof.
  unfold hex_digit. rewrite nibble_shift.
  assert (Hd : (value / 16 ^ N.of_nat i) mod 16 < 16) by (by apply N.mod_lt).
  revert Hd. generalize ((value / 16 ^ N.of_nat i) mod 16). intros d Hd.
  rewrite <- (N2Nat.id d) in Hd |- *. assert (Hn : (N.to_nat d < 16)%nat) by lia.
  rewrite Nat2N.id. revert Hn. generalize (N.to_nat d). clear. intros n Hn.
  do 16 (destruct n as [|n]; [split; [done|apply list_elem_of_In; vm_compute; tauto]|]). lia.
Qed.

Lemma from_hex_digits n value acc :
  foldl (λ acc b, 16 * acc + hex_value b) acc (hex_digits n value) =
    acc * 16 ^ N.of_nat n + value mod 16 ^ N.of_nat n.
Proof.
  revert acc. induction n as [|n IH]; intros acc.
  - simpl. rewrite N.mod_1_r. lia.
  - rewrite hex_digits_S. simpl foldl. rewrite IH, (proj1 (hex_digit_spec value n)).
    rewrite Nat2N.inj_succ, N.pow_succ_r', (N.mul_comm 16 (16 ^ _)), N.Div0.mod_mul_r. lia.
Qed.

Lemma fnv1a_128_bound bs : fnv1a_128 bs < U128.
Proof.
  unfold fnv1a_128. assert (Hb : FNV_OFFSET_BASIS < U128) by done.
  revert Hb. generalize FNV_OFFSET_BASIS. induction bs as [|b bs IH]; intros h Hh; [done|].
  simpl. apply IH. unfold wrapping_mul_u128. rewrite N.land_ones. by apply N.mod_lt.
Qed.

(** [key] is [prefix] and a digest of 32 hexadecimal digits that reads as [digest]. *)
Definition key_shows (prefix key : bytes) (digest : N) : Prop :=
  ∃ text, key = prefix ++ text ∧ length text = 32%nat ∧ Forall (.∈ HEX) text ∧
    from_hex text = digest.

Lemma digest_key_shows prefix digest :
  digest < U128 → key_shows prefix (digest_key prefix digest) digest.
Proof.
  intros Hd. exists (hex_digits 32 digest). split; [apply write_hex_digits|]. split; [done|]. split.
  - unfold hex_digits. apply Forall_fmap, list.Forall_forall. intros i _.
    apply (hex_digit_spec digest i).
  - unfold from_hex. rewrite from_hex_digits. apply N.mod_small, Hd.
Qed.

(** ** A concrete text of JSON *)

Fixpoint escape (s : string) : string :=
  match s with
  | EmptyString => String quote_char ""
  | String a s =>
    if bool_decide (a = quote_char ∨ a = "\"%char)
    then String "\" (String a (escape s)) else String a (escape s)
  end.

(** Natural numbers, and strings with quotes and backslashes escaped. *)
Definition plain_json : SerdeJson :=
  {| Number := N; number_to_string := pretty; json_string s := String quote_char (escape s) |}.

Lemma digits_number_chars acc s v :
  Numbers.digits acc s = Some v → string_all number_char s = true.
Proof.
  revert acc. induction s as [|a s IH]; intros acc; simpl; [done|].
  destruct (Numbers.digit a) as [d|] eqn:Ed; [|done]. intros H%IH. rewrite H, andb_true_r.
  unfold number_char. unfold Numbers.digit in Ed.
  destruct ((48 <=? Ascii.N_of_ascii a) && (Ascii.N_of_ascii a <=? 57)); done.
Qed.

Lemma escape_delimited s t r r' : escape s +:+ r = escape t +:+ r' → s = t ∧ r = r'.
Proof.
  revert t. induction s as [|a s IH]; intros [|b t]; cbn [escape]; repeat case_bool_decide;
    rewrite ?string_app_cons, ?string_app_nil; intros Heq; try (injection Heq; intros; naive_solver).
Qed.

#[export] Instance plain_json_laws : SerdeJsonLaws plain_json.
Proof.
  split; cbn [number_to_string json_string plain_json].
  - intros n. split; [apply Numbers.pretty_nonempty|].
    apply (digits_number_chars 0 _ n), Numbers.digits_pretty.
  - intros n m Heq. apply (f_equal (Numbers.digits 0)) in Heq.
    rewrite !Numbers.digits_pretty in Heq. congruence.
  - intros s. by eexists.
  - intros s t r r' Heq. rewrite !string_app_cons in Heq. injection Heq as Heq.
    by apply escape_delimited.
Qed.

(** A prompt whose tool schema lists its fields in one order or the other. *)
Definition sample_schema (swap : bool) : @Value plain_json :=
  let a := ("type"%string, Str "object") in
  let b := ("max"%string, Array [@Num plain_json 7; Null; Bool true]) in
  Object (if swap then [b; a] else [a; b]).

Definition sample_prompt (swap : bool) : @PromptCacheKeyInput plain_json :=
  {| pi_provider := "p"; pi_model := "m"; pi_model_version := Some "1"%string;
     pi_messages := [with_name "bot" (PromptMessage_new "user" "hi")];
     pi_system_prompt := None; pi_tool_schema := Some (sample_schema swap);
     pi_sampling_parameters := {[ "top_p"%string := @Num plain_json 1 ]};
     pi_output_format := None; pi_retrieval_context_hash := None;
     pi_application_namespace := "ns" |}.

Lemma sample_schema_ok swap : json_ok (sample_schema swap).
Proof.
  destruct swap; apply ok_object; repeat constructor; set_solver.
Qed.

Lemma sample_params_texts swap :
  btree_iter (json_texts (pi_sampling_parameters (sample_prompt swap))) =
    [("top_p", "1")]%string.
Proof. unfold json_texts. cbn [sample_prompt pi_sampling_parameters]. by rewrite map_fmap_singleton. Qed.

Lemma sample_prompt_ok swap : prompt_ok (sample_prompt swap).
Proof.
  assert (Hs : opt_json (pi_tool_schema (sample_prompt swap)) =
    opt_json (pi_tool_schema (sample_prompt false))) by (destruct swap; vm_compute; reflexivity).
  split; rewrite ?Hs;
    lazymatch goal with
    | |- text_fits _ => vm_compute; discriminate
    | |- _ ≤ _ => vm_compute; discriminate
    | |- _ => idtac
    end.
  - intros v [= <-]. apply sample_schema_ok.
  - split; [vm_compute; discriminate|]. rewrite sample_params_texts.
    apply Forall_singleton. split; vm_compute; discriminate.
  - apply map_Forall_singleton. constructor.
  - apply Forall_singleton. repeat split; vm_compute; discriminate.
Qed.

(** C28: normal forms of prompts.  The normalized bytes of two prompt requests
    are equal exactly when the requests are equal up to the order of the fields
    of JSON objects (in the tool schema and the sampling parameters), an absent
    optional text being confused only with the text ["<none>"]: the order of
    messages, every field and every boundary between fields count. *)
Theorem prompt_normal_form `{SJ : SerdeJson, !SerdeJsonLaws SJ} i j :
  prompt_ok i → prompt_ok j →
  normalize_prompt_input i = normalize_prompt_input j ↔ prompt_equiv i j.
Proof.
  intros Hi Hj. rewrite !normalize_prompt_bytes.
  split; [by apply prompt_bytes_inj|by apply prompt_equiv_bytes].
Qed.

(** The order of the fields of the schema does not matter. *)
Lemma prompt_normal_form_witness :
  normalize_prompt_input (sample_prompt true) = normalize_prompt_input (sample_prompt false).
Proof.
  apply (prompt_normal_form (sample_prompt true) (sample_prompt false));
    [apply sample_prompt_ok..|]. split; try reflexivity.
  - constructor. eapply eqv_object; [apply Permutation_swap| |reflexivity].
    repeat constructor.
  - intros k. destruct (decide (k = "top_p"%string)) as [->|Hk].
    + constructor. constructor.
    + cbn [sample_prompt pi_sampling_parameters]. rewrite lookup_singleton_ne by congruence.
      constructor.
  - repeat constructor.
Defined.

(** Normal forms of embeddings.  The normalized bytes of two embedding
    requests are equal exactly when the requests are equal up to the order of
    the fields of JSON objects in the settings, an absent version being confused
    only with the version ["<none>"]; and no prompt has the normal form of an
    embedding. *)
Theorem embedding_normal_form `{SJ : SerdeJson, !SerdeJsonLaws SJ} i j :
  embedding_ok i → embedding_ok j →
  (normalize_embedding_input i = normalize_embedding_input j ↔ embedding_equiv i j) ∧
  ∀ p, normalize_prompt_input p ≠ normalize_embedding_input i.
Proof.
  intros Hi Hj. rewrite !normalize_embedding_bytes. split; [by apply embedding_bytes_iff|].
  intros p. rewrite normalize_prompt_bytes. unfold prompt_bytes, embedding_bytes.
  intros Heq%item_inj; [by destruct Heq|done|done].
Qed.

Definition sample_embedding : @EmbeddingCacheKeyInput plain_json :=
  EmbeddingCacheKeyInput_new "m" "sha256:1" "md" 1536 "ns".

Lemma sample_embedding_ok : embedding_ok sample_embedding.
Proof.
  split; lazymatch goal with
    | |- map_Forall _ _ => apply map_Forall_empty
    | |- map_fits _ => split; [vm_compute; discriminate|]; by apply Forall_nil
    | |- _ => vm_compute; discriminate
    end.
Qed.

Lemma embedding_normal_form_witness :
  normalize_prompt_input (sample_prompt true) ≠ normalize_embedding_input sample_embedding.
Proof.
  apply (embedding_normal_form sample_embedding sample_embedding); apply sample_embedding_ok.
Defined.

(** The shape of cache keys.  A cache key is its documented prefix and 32
    lower-case hexadecimal digits from which the 128-bit digest of the normal
    form can be read back; so two prompts have the same key exactly when their
    digests collide, and a prompt and an embedding never share a key. *)
Theorem cache_key_format `{SJ : SerdeJson} p q e :
  key_shows PROMPT_KEY_PREFIX (prompt_cache_key p) (fnv1a_128 (normalize_prompt_input p)) ∧
  key_shows EMBEDDING_KEY_PREFIX (embedding_cache_key e) (fnv1a_128 (normalize_embedding_input e)) ∧
  (prompt_cache_key p = prompt_cache_key q ↔
    fnv1a_128 (normalize_prompt_input p) = fnv1a_128 (normalize_prompt_input q)) ∧
  prompt_cache_key p ≠ embedding_cache_key e.
Proof.
  pose proof (digest_key_shows PROMPT_KEY_PREFIX _ (fnv1a_128_bound (normalize_prompt_input p))) as Hp.
  pose proof (digest_key_shows PROMPT_KEY_PREFIX _ (fnv1a_128_bound (normalize_prompt_input q))) as Hq.
  pose proof (digest_key_shows EMBEDDING_KEY_PREFIX _
    (fnv1a_128_bound (normalize_embedding_input e))) as He.
  split; [done|]. split; [done|]. unfold prompt_cache_key, embedding_cache_key. split.
  - split; [|congruence]. intros Heq. destruct Hp as (t & Ht & _ & _ & <-), Hq as (u & Hu & _ & _ & <-).
    rewrite Ht, Hu in Heq. by apply app_inv_head in Heq as ->.
  - intros Heq. destruct Hp as (t & Ht & _ & _ & _), He as (u & Hu & _ & _ & _).
    rewrite Ht, Hu in Heq. discriminate Heq.
Qed.

(** The published digest of the one byte ["a"]. *)
Example fnv1a_128_a : fnv1a_128 (as_bytes "a") = 0xd228cb696f1a8caf78912b704e4a8964.
Proof. by vm_compute. Qed.

(** ** Streams *)

Inductive stream_event := Push (chunk : bytes) | Broken.

Definition stream_step (c : StreamCapture) (e : stream_event) : StreamCapture :=
  match e with Push chunk => push_chunk chunk c | Broken => mark_failed c end.

Definition pushed (e : stream_event) : bytes := match e with Push chunk => chunk | Broken => [] end.

Definition failed (e : stream_event) : bool := match e with Push _ => false | Broken => true end.

Lemma stream_failed es c : sc_failed c = true → sc_failed (foldl stream_step c es) = true.
Proof.
  revert c. induction es as [|[chunk|] es IH]; intros c Hc; [done| |]; simpl; apply IH; [|done].
  unfold push_chunk. by rewrite Hc.
Qed.

Lemma stream_finish token es c :
  sc_failed c = false →
  finish token (foldl stream_step c es) =
    if existsb failed es then Err GenerationFailed
    else Ok {| cs_lease_token := token;
               cs_value := concat (sc_chunks c) ++ concat (pushed <$> es) |}.
Proof.
  revert c. induction es as [|[chunk|] es IH]; intros c Hc; simpl.
  - unfold finish. by rewrite Hc, app_nil_r.
  - rewrite IH by (unfold push_chunk; by rewrite Hc). unfold push_chunk. rewrite Hc. simpl.
    rewrite concat_app. simpl. by rewrite app_nil_r, <- app_assoc.
  - unfold finish. by rewrite stream_failed.
Qed.

(** Captured streams.  Whatever the sequence of chunks and failures of a
    generation, a capture in which no failure was marked finishes with the
    chunks in order under the lease token, and one with a failure, anywhere in
    the sequence, yields no value. *)
Theorem stream_capture token es :
  finish token (foldl stream_step StreamCapture_new es) =
    if existsb failed es then Err GenerationFailed
    else Ok {| cs_lease_token := token; cs_value := concat (pushed <$> es) |}.
Proof. by apply stream_finish. Qed.
End AiSpec.
