(* ===== verification/Bench.v ===== *)
(** * Bench: the benchmark program

    [src/bin/cachebox-bench.rs]: the statistics, the warm-up and measuring
    loops, the scenarios that run in the process (engine, sharded engine,
    codec), and the raw protocol client with the checks its scenarios make on
    the responses.

    A scenario is a program in a state monad that may panic (a failed
    assertion, [expect] or index).  [Instant::now] gives the next of a sequence
    of readings in nanoseconds, and every call on an engine takes the next of a
    sequence of system clocks, so nothing is assumed of time here.  The
    measuring loop ends by the clock alone, and takes fuel. *)

From stdpp Require Import sorting.
From S2P Require Import Prelude Bytes Protocol Engine Sharded.

Module Bench.
Import Protocol Codec.
Import Sharded(ShardEnv).

Definition WARMUP_ITERS : nat := 100.
Definition MEASURE_DURATION : N := 1000000000.
Definition PIPELINE_DEPTH : nat := 32.

(** ** Statistics *)

(** A [Duration] is its nanoseconds; [throughput_ops_s], a floating-point
    number, is kept as the operations and nanoseconds it is the quotient of. *)
Notation Duration := N (only parsing).
Definition DURATION_MAX : Duration := (U64_MAX + 1) * 1000000000 - 1.

Record BenchResult := {
  name : string;
  transport : string;
  iterations : N;
  p50_ns : N;
  p95_ns : N;
  p99_ns : N;
  throughput_ops_s : N * Duration;
  memory_used_bytes : N;
  cost_score_total : N;
  notes : string
}.

(** [None] is the panic of an index out of range; the product wraps. *)
Definition percentile_ns (samples : list Duration) (percentile : N) : option N :=
  let index := N.min ((len samples * percentile) mod (U64_MAX + 1) / 100) (len samples -| 1) in
  samples !! N.to_nat index.

Definition summarize (name transport notes : string) (samples : list Duration)
    (elapsed : Duration) (memory_used_bytes : N) : option BenchResult :=
  let samples := merge_sort N.le samples in
  let iterations := len samples in
  p50 ← percentile_ns samples 50;
  p95 ← percentile_ns samples 95;
  p99 ← percentile_ns samples 99;
  Some {| name := name; transport := transport; iterations := iterations; p50_ns := p50;
          p95_ns := p95; p99_ns := p99; throughput_ops_s := (iterations, elapsed);
          memory_used_bytes := memory_used_bytes; cost_score_total := 0; notes := notes |}.

(** [total + sample] panics when a [Duration] overflows. *)
Definition total_duration (samples : list Duration) : option Duration :=
  foldl (λ total sample, t ← total;
    if DURATION_MAX <? t + sample then None else Some (t + sample)) (Some 0) samples.

Definition with_memory (result : BenchResult) (memory : N) : BenchResult :=
  {| name := name result; transport := transport result; iterations := iterations result;
     p50_ns := p50_ns result; p95_ns := p95_ns result; p99_ns := p99_ns result;
     throughput_ops_s := throughput_ops_s result; memory_used_bytes := memory;
     cost_score_total := cost_score_total result; notes := notes result |}.

(** ** Programs *)

(** A run ends with a value, panics, or is cut off ([Running]). *)
Inductive Run (A : Type) := Done (a : A) | Panicked | Running.
Arguments Done {A} a.
Arguments Panicked {A}.
Arguments Running {A}.

(** The readings taken, the engine calls made, and what the closures of the
    scenario share. *)
Record World (S : Type) := { instants : nat; calls : nat; local : S }.
Arguments instants {S} w.
Arguments calls {S} w.
Arguments local {S} w.
Arguments Build_World {S} instants calls local.

Section program.
Context (instant : nat → N) (clocks : nat → Engine.Clock) {S : Type}.

Definition Prog (A : Type) : Type := World S → Run (A * World S).

Definition ret {A} (a : A) : Prog A := λ w, Done (a, w).
Definition bind {A B} (m : Prog A) (k : A → Prog B) : Prog B := λ w,
  match m w with
  | Done (a, w') => k a w'
  | Panicked => Panicked
  | Running => Running
  end.

Notation "x <~ m ;; k" := (bind m (λ x, k))
  (at level 100, m at level 99, right associativity, k at level 200).

Definition expect {A} (o : option A) : Prog A := λ w,
  match o with Some a => Done (a, w) | None => Panicked end.
Definition assert (b : bool) : Prog unit := expect (if b then Some tt else None).
Definition read : Prog S := λ w, Done (local w, w).
Definition write (s : S) : Prog unit := λ w, Done (tt, Build_World (instants w) (calls w) s).

(** [Instant::now()] *)
Definition now : Prog N := λ w,
  Done (instant (instants w), Build_World (Datatypes.S (instants w)) (calls w) (local w)).

(** The system clock as the next call on an engine reads it. *)
Definition system_clock : Prog Engine.Clock := λ w,
  Done (clocks (calls w), Build_World (instants w) (Datatypes.S (calls w)) (local w)).

(** [started.elapsed()], which saturates at zero. *)
Definition elapsed (started : N) : Prog Duration := t <~ now;; ret (t -| started).

Fixpoint times (n : nat) (operation : Prog unit) : Prog unit :=
  match n with
  | 0%nat => ret tt
  | Datatypes.S n => _ <~ operation;; times n operation
  end.

(** [warmup_sync], [warmup_async!] *)
Definition warmup (operation : Prog unit) : Prog unit := times WARMUP_ITERS operation.

(** The measuring loop, of at most [turns] turns: untimed preparation, the timed
    operation, and the samples its duration gives. *)
Fixpoint measure_loop {X} (turns : nat) (started : N) (prepare : Prog X)
    (operation : X → Prog unit) (record : Duration → list Duration)
    (samples : list Duration) : Prog (list Duration) :=
  match turns with
  | 0%nat => λ _, Running
  | Datatypes.S turns =>
    spent <~ elapsed started;;
    if spent <? MEASURE_DURATION then
      x <~ prepare;;
      sample_started <~ now;;
      _ <~ operation x;;
      sample <~ elapsed sample_started;;
      measure_loop turns started prepare operation record (samples ++ record sample)
    else ret samples
  end.

Definition measure (turns : nat) (name transport notes : string) (operation : Prog unit) :
    Prog BenchResult :=
  started <~ now;;
  samples <~ measure_loop turns started (ret tt) (λ _, operation) (λ d, [d]) [];;
  spent <~ elapsed started;;
  expect (summarize name transport notes samples spent 0).

Definition measure_sync turns name notes operation := measure turns name "engine" notes operation.
Definition measure_process_sync turns name notes operation :=
  measure turns name "process" notes operation.
End program.
Arguments Prog S A : clear implicits.

(** The result of a program started on [s]. *)
Definition run_on {S A} (m : Prog S A) (s : S) : Run A :=
  match m (Build_World 0 0 s) with
  | Done (a, _) => Done a
  | Panicked => Panicked
  | Running => Running
  end.

Notation "x <~ m ;; k" := (bind m (λ x, k))
  (at level 100, m at level 99, right associativity, k at level 200).

(** ** Scenarios in the process *)

#[export] Instance GetOutcome_eq_dec : EqDecision Engine.GetOutcome.
Proof. solve_decision. Defined.

Definition put_command (namespace : string) (key value : bytes) : Engine.PutCommand :=
  {| Engine.pc_namespace := namespace; Engine.pc_key := key; Engine.pc_value := value;
     Engine.pc_ttl := Some {| milliseconds := 60000 |}; Engine.pc_stale_ttl := None;
     Engine.pc_tags := []; Engine.pc_cost := None |}.

(** [Engine::new()] *)
Definition Engine_new : Engine.Engine := Engine.with_clock_and_limits Engine.EngineLimits_default.

Definition value : bytes := as_bytes "value".

Section scenarios.
Context `{Engine.HashOrder, ShardEnv}.
Context (instant : nat → N) (clocks : nat → Engine.Clock) (turns : nat).

(** A call on the engine among the shared state, as [engine.put(..)] is. *)
Definition on_engine {X A} (f : Engine.Clock → Engine.Engine → A * Engine.Engine) :
    Prog (Engine.Engine * X) A :=
  clk <~ system_clock clocks;;
  s <~ read;;
  let '(a, e) := f clk s.1 in
  _ <~ write (e, s.2);;
  ret a.

Definition get_shared {S X} : Prog (S * X) X := s <~ read;; ret s.2.
Definition set_shared {S X} (x : X) : Prog (S * X) unit := s <~ read;; write (s.1, x).

(** [index], then [index += 1] *)
Definition next_index {S} : Prog (S * N) N :=
  index <~ get_shared;; _ <~ set_shared (index +% 1);; ret index.

Definition engine_put {X} (command : Engine.PutCommand) : Prog (Engine.Engine * X) unit :=
  r <~ on_engine (λ clk, Engine.put clk command);;
  assert (is_ok r).

Definition engine_report {X} (result : BenchResult) : Prog (Engine.Engine * X) BenchResult :=
  s <~ read;; ret (with_memory result (Engine.memory_used_bytes s.1)).

Definition engine_get_hit {X} : Prog (Engine.Engine * X) unit :=
  o <~ on_engine (λ clk, Engine.get clk "bench" (as_bytes "get-key"));;
  assert (bool_decide (o = Engine.GHit value)).

Definition bench_engine_get : Run BenchResult :=
  run_on (
    _ <~ engine_put (put_command "bench" (as_bytes "get-key") value);;
    _ <~ warmup engine_get_hit;;
    result <~ measure_sync instant turns "engine_get" "engine_cached_hit" engine_get_hit;;
    engine_report result) (Engine_new, tt).

Definition engine_put_unique (prefix : string) : Prog (Engine.Engine * N) unit :=
  index <~ next_index;;
  engine_put (put_command "bench" (as_bytes (prefix +:+ pretty index)) value).

Definition bench_engine_put : Run BenchResult :=
  run_on (
    _ <~ warmup (engine_put_unique "put-warmup-");;
    result <~ measure_sync instant turns "engine_put" "engine_unique_keys"
      (engine_put_unique "put-");;
    engine_report result) (Engine_new, 0).

Definition tagged_command (tag : string) (item : nat) : Engine.PutCommand :=
  let command := put_command "bench" (as_bytes (tag +:+ "-" +:+ pretty (N.of_nat item))) value in
  {| Engine.pc_namespace := Engine.pc_namespace command; Engine.pc_key := Engine.pc_key command;
     Engine.pc_value := Engine.pc_value command; Engine.pc_ttl := Engine.pc_ttl command;
     Engine.pc_stale_ttl := Engine.pc_stale_ttl command; Engine.pc_tags := [tag];
     Engine.pc_cost := Engine.pc_cost command |}.

Fixpoint put_tagged {X} (tag : string) (items : list nat) : Prog (Engine.Engine * X) unit :=
  match items with
  | [] => ret tt
  | item :: items => _ <~ engine_put (tagged_command tag item);; put_tagged tag items
  end.

Definition engine_put_tagged_values {X} (index : N) : Prog (Engine.Engine * X) string :=
  let tag := "tag-" +:+ pretty index in
  _ <~ put_tagged tag (seq 0 8);; ret tag.

Definition engine_invalidate_8 {X} (tag : string) : Prog (Engine.Engine * X) unit :=
  removed <~ on_engine (λ _, Engine.invalidate_tag "bench" tag);;
  assert (removed =? 8).

Definition tagged_values : Prog (Engine.Engine * N) string :=
  index <~ get_shared;;
  tag <~ engine_put_tagged_values index;;
  _ <~ set_shared (index +% 1);;
  ret tag.

Definition tagged_warmup : Prog (Engine.Engine * N) unit :=
  index <~ get_shared;;
  tag <~ engine_put_tagged_values index;;
  _ <~ engine_invalidate_8 tag;;
  set_shared (index +% 1).

Definition bench_engine_tag_invalidate_8 : Run BenchResult :=
  run_on (
    _ <~ warmup tagged_warmup;;
    started <~ now instant;;
    samples <~ measure_loop instant turns started tagged_values engine_invalidate_8 (λ d, [d]) [];;
    measured_elapsed <~ expect (total_duration samples);;
    result <~ expect (summarize "engine_tag_invalidate_8" "engine" "remove_8_tagged_keys"
      samples measured_elapsed 0);;
    engine_report result) (Engine_new, 0).

(** [get_ref] with the closure that encodes a hit into [out] and panics on
    anything else. *)
Definition encode_hit (outcome : Engine.GetOutcome) (out : bytes) : option bytes :=
  match outcome with
  | Engine.GHit value => encode_response_payload_view_frame_into 1 Get (WHit value) out
  | _ => None
  end.

Definition engine_get_ref_encode : Prog (Engine.Engine * bytes) unit :=
  outcome <~ on_engine (λ clk, Engine.get_ref clk "bench" (as_bytes "get-ref-encode"));;
  out <~ get_shared;;
  out <~ expect (encode_hit outcome out);;
  set_shared out.

Definition bench_engine_get_ref_encode : Run BenchResult :=
  run_on (
    _ <~ engine_put (put_command "bench" (as_bytes "get-ref-encode") value);;
    _ <~ warmup engine_get_ref_encode;;
    result <~ measure_process_sync instant turns "engine_get_ref_encode"
      "engine_get_ref_plus_borrowed_encode" engine_get_ref_encode;;
    engine_report result) (Engine_new, []).

(** A call on the sharded engine, which panics when it does. *)
Definition on_sharded {A} (f : Engine.Clock → Sharded.ShardedEngine → option (A * Sharded.ShardedEngine)) :
    Prog (Sharded.ShardedEngine * bytes) A :=
  clk <~ system_clock clocks;;
  s <~ read;;
  r <~ expect (f clk s.1);;
  _ <~ write (r.2, s.2);;
  ret r.1.

Definition encode_sharded_get_ref_response (key : bytes) (update_access : bool) :
    Prog (Sharded.ShardedEngine * bytes) unit :=
  outcome <~ on_sharded (λ clk,
    if update_access then Sharded.get_ref clk "bench" key
    else Sharded.get_ref_without_access_update clk "bench" key);;
  out <~ get_shared;;
  out <~ expect (encode_hit outcome out);;
  set_shared out.

Definition sharded_scenario (key : bytes) (update_access : bool) (name notes : string) :
    Run BenchResult :=
  match Sharded.with_limits Engine.EngineLimits_default with
  | None => Panicked
  | Some engine =>
    run_on (
      r <~ on_sharded (λ clk, Sharded.put clk (put_command "bench" key value));;
      _ <~ assert (is_ok r);;
      _ <~ warmup (encode_sharded_get_ref_response key update_access);;
      result <~ measure_process_sync instant turns name notes
        (encode_sharded_get_ref_response key update_access);;
      s <~ read;;
      ret (with_memory result (Sharded.memory_used_bytes s.1))) (engine, [])
  end.

Definition bench_sharded_get_ref_encode : Run BenchResult :=
  sharded_scenario (as_bytes "sharded-get-ref-encode") true
    "sharded_get_ref_encode" "shard_lock_get_ref_access_update_encode".

Definition bench_sharded_get_ref_no_access_encode : Run BenchResult :=
  sharded_scenario (as_bytes "sharded-get-ref-no-access-encode") false
    "sharded_get_ref_no_access_encode" "shard_lock_get_ref_without_access_update_encode".

Definition native_get_payload (key : bytes) : RequestPayload := RGet "bench" key.

Definition decode_get (frame : bytes) : Prog unit unit :=
  match decode_request_frame frame USIZE_MAX with
  | Ok decoded => assert (bool_decide (rq_command decoded = Get))
  | Err _ => expect None
  end.

Definition bench_protocol_decode_get : Run BenchResult :=
  match encode_request_frame {| rq_request_id := 1; rq_command := Get;
          rq_payload := native_get_payload (as_bytes "decode-key") |} with
  | None => Panicked
  | Some frame =>
    run_on (
      _ <~ warmup (decode_get frame);;
      measure_process_sync instant turns "protocol_decode_get" "decode_prebuilt_get_frame"
        (decode_get frame)) tt
  end.

Definition encode_value : Prog bytes unit :=
  out <~ read;;
  out <~ expect (encode_response_payload_view_frame_into 1 Get (WHit value) out);;
  write out.

Definition bench_protocol_encode_hit : Run BenchResult :=
  run_on (
    _ <~ warmup encode_value;;
    measure_process_sync instant turns "protocol_encode_hit" "encode_borrowed_hit_response"
      encode_value) [].
End scenarios.
End Bench.
