(* ===== verification/BenchSpec.v ===== *)
(** * BenchSpec: what the benchmark reports

    The percentiles are order statistics of the samples; the measuring loop
    takes one sample per turn, over disjoint intervals, until a second has
    passed; and the scenarios that run in the process pass their assertions and
    report as many iterations as the loop made turns. *)

From stdpp Require Import sorting.
From S2P Require Import Prelude Bytes Protocol ProtocolFacts ProtocolSpec Engine EngineInv.
From S2P Require Import EnginePut EngineOps EngineSpec Sharded ShardedInv ShardedSpec Bench.

Module BenchSpec.
Import Protocol Codec Bench.
Import Sharded(ShardEnv).

(** ** Order statistics *)

(** [p] is at position [i] of the samples in ascending order. *)
Definition at_rank (samples : list N) (i p : N) : Prop :=
  p ∈ samples ∧ len (filter (λ x, x < p) samples) ≤ i < len (filter (λ x, x ≤ p) samples).

Lemma filter_every (P : N → Prop) `{∀ x, Decision (P x)} (l : list N) : (∀ x, x ∈ l → P x) → filter P l = l.
Proof.
  induction l as [|x l IH]; intros Hl; [done|].
  rewrite filter_cons_True by (apply Hl; set_solver). f_equal. apply IH. set_solver.
Qed.

Lemma filter_none (P : N → Prop) `{∀ x, Decision (P x)} (l : list N) : (∀ x, x ∈ l → ¬ P x) → filter P l = [].
Proof.
  induction l as [|x l IH]; intros Hl; [done|].
  rewrite filter_cons_False by (apply Hl; set_solver). apply IH. set_solver.
Qed.

Lemma sorted_before (l1 l2 : list N) x p :
  Sorted N.le (l1 ++ p :: l2) → x ∈ l1 → x ≤ p.
Proof.
  intros Hs Hx. apply (StronglySorted_app_1_elem_of N.le l1 (p :: l2)); [|done|set_solver].
  apply Sorted_StronglySorted; [|done]. intros ???; apply N.le_trans.
Qed.

Lemma sorted_after (l1 l2 : list N) x p :
  Sorted N.le (l1 ++ p :: l2) → x ∈ l2 → p ≤ x.
Proof.
  intros Hs Hx. rewrite cons_middle, app_assoc in Hs.
  apply (StronglySorted_app_1_elem_of N.le (l1 ++ [p]) l2); [|set_solver|done].
  apply Sorted_StronglySorted; [|done]. intros ???; apply N.le_trans.
Qed.

Lemma sorted_at_rank l i p : Sorted N.le l → l !! i = Some p → at_rank l (N.of_nat i) p.
Proof.
  intros Hs Hi. pose proof (lookup_lt_Some _ _ _ Hi) as Hlt.
  rewrite <- (take_drop_middle l i p Hi) in Hs |- *.
  set (l1 := take i l) in *. set (l2 := drop (S i) l) in *.
  assert (length l1 = i) as Hl by (subst l1; rewrite length_take; lia).
  split; [set_solver|]. unfold len. split.
  - rewrite list.filter_app, filter_cons_False by lia.
    rewrite (filter_none _ l2) by (intros x Hx%(sorted_after _ _ _ _ Hs); lia).
    rewrite app_nil_r. pose proof (list.length_filter (λ x, x < p) l1). lia.
  - rewrite list.filter_app, filter_cons_True by done.
    rewrite (filter_every _ l1) by (intros x Hx; by apply (sorted_before _ _ _ _ Hs)).
    rewrite length_app. simpl. lia.
Qed.

Lemma at_rank_perm l l' i p : l ≡ₚ l' → at_rank l i p → at_rank l' i p.
Proof. unfold at_rank, len. intros Hp. by rewrite Hp. Qed.

(** What [summarize] reports of the samples. *)
Record summary (samples : list N) (elapsed : N) (r : BenchResult) : Prop := {
  sum_iterations : iterations r = len samples;
  sum_p50 : at_rank samples (len samples * 50 / 100) (p50_ns r);
  sum_p95 : at_rank samples (len samples * 95 / 100) (p95_ns r);
  sum_p99 : at_rank samples (len samples * 99 / 100) (p99_ns r);
  sum_order : p50_ns r ≤ p95_ns r ≤ p99_ns r;
  sum_throughput : throughput_ops_s r = (len samples, elapsed)
}.

Lemma percentile_sorted l q :
  Sorted N.le l → l ≠ [] → len l * 100 ≤ U64_MAX → q < 100 →
  ∃ p, percentile_ns l q = Some p ∧ l !! N.to_nat (len l * q / 100) = Some p ∧
    at_rank l (len l * q / 100) p.
Proof.
  intros Hs Hne Hfit Hq.
  assert (0 < len l) as Hpos by (destruct l; [done|unfold len; simpl; lia]).
  assert (len l * q / 100 < len l) as Hlt by (apply N.Div0.div_lt_upper_bound; nia).
  unfold percentile_ns. rewrite N.mod_small by nia.
  rewrite N.min_l by (unfold sat_sub; lia).
  destruct (lookup_lt_is_Some_2 l (N.to_nat (len l * q / 100))) as [p Hp].
  { revert Hlt. generalize (len l * q / 100). unfold len. lia. }
  exists p. split_and!; [done..|]. pose proof (sorted_at_rank l _ p Hs Hp) as Hr.
  by rewrite N2Nat.id in Hr.
Qed.

Lemma sorted_lookup_le l i j x y :
  Sorted N.le l → l !! i = Some x → l !! j = Some y → (i ≤ j)%nat → x ≤ y.
Proof.
  intros Hs Hi Hj Hij. destruct (decide (i = j)) as [->|Hne].
  { assert (x = y) as -> by congruence. done. }
  rewrite <- (take_drop_middle l i x Hi) in Hs. apply (sorted_after _ _ y x Hs).
  apply list_elem_of_lookup. exists (j - S i)%nat. rewrite lookup_drop, <- Hj. f_equal. lia.
Qed.

Lemma summarize_spec name transport notes samples elapsed mem :
  samples ≠ [] → len samples * 100 ≤ U64_MAX →
  ∃ r, summarize name transport notes samples elapsed mem = Some r ∧
    memory_used_bytes r = mem ∧ summary samples elapsed r.
Proof.
  intros Hne Hfit. unfold summarize.
  pose proof (merge_sort_Permutation N.le samples) as Hp.
  assert (len (merge_sort N.le samples) = len samples) as Hlen by (unfold len; by rewrite Hp).
  assert (Sorted N.le (merge_sort N.le samples)) as Hs.
  { apply Sorted_merge_sort. intros a b. lia. }
  set (l := merge_sort N.le samples) in *.
  assert (l ≠ []) as Hl.
  { intros ->. apply Permutation_nil_l in Hp. done. }
  destruct (percentile_sorted l 50 Hs Hl ltac:(lia) ltac:(lia)) as (p & -> & Ep & Hrp).
  destruct (percentile_sorted l 95 Hs Hl ltac:(lia) ltac:(lia)) as (q & -> & Eq & Hrq).
  destruct (percentile_sorted l 99 Hs Hl ltac:(lia) ltac:(lia)) as (t & -> & Et & Hrt).
  eexists. split; [reflexivity|]. split; [done|]. rewrite Hlen in *.
  split; simpl; rewrite ?Hlen; try done.
  1-3: by apply (at_rank_perm l).
  pose proof (N.Div0.div_le_mono (len samples * 50) (len samples * 95) 100 ltac:(lia)).
  pose proof (N.Div0.div_le_mono (len samples * 95) (len samples * 99) 100 ltac:(lia)).
  split; eapply (sorted_lookup_le l); try done; lia.
Qed.
Lemma bind_singleton (l : list N) : l ≫= (λ d, [d]) = l.
Proof. induction l as [|x l IH]; [done|]. by rewrite bind_cons, IH. Qed.

(** ** Programs that pass *)

Section steady.
Context {S : Type}.

(** From shared state in [J], [m] ends without a panic and without reading the
    instants, in shared state that satisfies [Q] of its result. *)
Definition steady {A} (J : S → Prop) (m : Prog S A) (Q : A → S → Prop) : Prop :=
  ∀ w, J (local w) → ∃ a w', m w = Done (a, w') ∧ instants w' = instants w ∧ Q a (local w').

Lemma steady_ret {A} (J : S → Prop) (a : A) (Q : A → S → Prop) :
  (∀ s, J s → Q a s) → steady J (ret a) Q.
Proof. intros HQ w Hw. exists a, w. auto. Qed.

Lemma steady_bind {A B} J R Q (m : Prog S A) (k : A → Prog S B) :
  steady J m R → (∀ a, steady (R a) (k a) Q) → steady J (bind m k) Q.
Proof.
  intros Hm Hk w Hw. destruct (Hm w Hw) as (a & w1 & E1 & I1 & H1).
  destruct (Hk a w1 H1) as (b & w2 & E2 & I2 & H2). exists b, w2.
  unfold bind. rewrite E1. split_and!; [done | congruence | done].
Qed.

Lemma steady_mono {A} (J J' : S → Prop) (Q Q' : A → S → Prop) m :
  steady J' m Q' → (∀ s, J s → J' s) → (∀ a s, Q' a s → Q a s) → steady J m Q.
Proof. intros Hm HJ HQ w Hw. destruct (Hm w (HJ _ Hw)) as (a & w' & ? & ? & ?). eauto 6. Qed.

Lemma steady_read (J : S → Prop) : steady J read (λ a s, s = a ∧ J a).
Proof. intros w Hw. by exists (local w), w. Qed.

Lemma steady_write (J : S → Prop) s : steady J (write s) (λ _ s', s' = s).
Proof. intros w Hw. by eexists tt, _. Qed.

Lemma steady_expect {A} (J : S → Prop) (o : option A) (a : A) :
  o = Some a → steady J (expect o) (λ b s, b = a ∧ J s).
Proof. intros -> w Hw. by exists a, w. Qed.

Lemma steady_clock clocks (J : S → Prop) :
  steady J (system_clock clocks) (λ clk s, (∃ i, clk = clocks i) ∧ J s).
Proof. intros w Hw. eexists _, _. split; [reflexivity|]. eauto. Qed.

Lemma steady_times J m n : steady J m (λ _, J) → steady J (times n m) (λ _, J).
Proof.
  intros Hm. induction n as [|n IH]; simpl; [by apply steady_ret|].
  eapply steady_bind; [exact Hm|]. by intros [].
Qed.

Lemma steady_times_counted (J : nat → S → Prop) m n k :
  (∀ k, steady (J (Datatypes.S k)) m (λ _, J k)) → steady (J (n + k)%nat) (times n m) (λ _, J k).
Proof.
  intros Hm. induction n as [|n IH]; simpl; [by apply steady_ret|].
  eapply steady_bind; [apply Hm|]. by intros [].
Qed.

(** ** The measuring loop *)

Context (instant : nat → N).

(** Turn [j] of a loop that starts at reading [k] reads the instants
    [k + 3 * j], to see whether to go on, and the next two around the
    operation; the loop ends in turn [n]. *)
Definition stops (k : nat) (started : N) (n : nat) : Prop :=
  (∀ j, (j < n)%nat → instant (k + 3 * j)%nat -| started < MEASURE_DURATION) ∧
  MEASURE_DURATION ≤ (instant (k + 3 * n)%nat -| started).

Definition samples_at (k n : nat) : list N :=
  (λ j, instant (k + 3 * j + 2)%nat -| instant (k + 3 * j + 1)%nat) <$> seq 0 n.

#[local] Arguments samples_at : simpl never.

Lemma samples_at_S k n :
  samples_at k (Datatypes.S n) = (instant (k + 2)%nat -| instant (k + 1)%nat) :: samples_at (k + 3) n.
Proof.
  unfold samples_at. simpl. rewrite Nat.add_0_r. f_equal. rewrite <- seq_shift, <- list_fmap_compose.
  apply list_fmap_ext. intros j x _. simpl. f_equal; f_equal; lia.
Qed.

(** With a condition [J] on the shared state that counts the turns left. *)
Lemma measure_loop_counted {X} (J : nat → S → Prop) Q (prepare : Prog S X) operation record n :
  ∀ turns started acc w,
  (∀ k, steady (J (Datatypes.S k)) prepare (Q k)) →
  (∀ k x, steady (Q k x) (operation x) (λ _, J k)) → J n (local w) →
  stops (instants w) started n → (n < turns)%nat →
  ∃ w', measure_loop instant turns started prepare operation record acc w
      = Done (acc ++ (samples_at (instants w) n ≫= record), w') ∧
    instants w' = (instants w + 3 * n + 1)%nat ∧ J 0%nat (local w').
Proof.
  induction n as [|n IH]; intros [|turns] started acc w Hp Ho Hw [Hgo Hend] Ht; try lia;
    rewrite ?samples_at_S, ?bind_cons; cbn [measure_loop]; unfold elapsed, bind, now, ret; simpl.
  { rewrite Nat.mul_0_r, Nat.add_0_r in Hend. rewrite (proj2 (N.ltb_ge _ _) Hend).
    eexists. rewrite app_nil_r. split; [reflexivity|]. split; simpl; [lia|done]. }
  pose proof (Hgo 0%nat ltac:(lia)) as H0. rewrite Nat.mul_0_r, Nat.add_0_r in H0.
  rewrite (proj2 (N.ltb_lt _ _) H0).
  destruct (Hp n (Build_World (Datatypes.S (instants w)) (calls w) (local w)) Hw)
    as (x & w1 & -> & I1 & H1). simpl in I1.
  destruct (Ho n x (Build_World (Datatypes.S (instants w1)) (calls w1) (local w1)) H1)
    as ([] & w2 & -> & I2 & H2). simpl in I2.
  edestruct (IH turns started (acc ++ record (instant (instants w2) -| instant (instants w1)))
    (Build_World (Datatypes.S (instants w2)) (calls w2) (local w2))) as (w3 & E3 & I3 & H3);
    [done|done|done| |lia|].
  { simpl. rewrite I2, I1. split.
    - intros j Hj. specialize (Hgo (Datatypes.S j) ltac:(lia)).
      replace (Datatypes.S (Datatypes.S (Datatypes.S (instants w))) + 3 * j)%nat
        with (instants w + 3 * Datatypes.S j)%nat by lia. done.
    - replace (Datatypes.S (Datatypes.S (Datatypes.S (instants w))) + 3 * n)%nat
        with (instants w + 3 * Datatypes.S n)%nat by lia. done. }
  exists w3. rewrite E3. simpl in *. rewrite I2, I1 in *. split_and!; [|lia|done].
  rewrite <- app_assoc.
  replace (instants w + 2)%nat with (Datatypes.S (Datatypes.S (instants w))) by lia.
  replace (instants w + 1)%nat with (Datatypes.S (instants w)) by lia.
  by replace (instants w + 3)%nat with (Datatypes.S (Datatypes.S (Datatypes.S (instants w)))) by lia.
Qed.

Lemma measure_loop_spec {X} J Q (prepare : Prog S X) operation record n : ∀ turns started acc w,
  steady J prepare Q → (∀ x, steady (Q x) (operation x) (λ _, J)) → J (local w) →
  stops (instants w) started n → (n < turns)%nat →
  ∃ w', measure_loop instant turns started prepare operation record acc w
      = Done (acc ++ (samples_at (instants w) n ≫= record), w') ∧
    instants w' = (instants w + 3 * n + 1)%nat ∧ J (local w').
Proof. intros. by eapply (measure_loop_counted (λ _, J) (λ _, Q)). Qed.

(** [measure] from reading [k]: the samples, and the time it reports. *)
Definition measured (k n : nat) : list N := samples_at (k + 1) n.
Definition spent (k n : nat) : N := instant (k + 3 * n + 2)%nat -| instant k.

Lemma measured_len k n : len (measured k n) = N.of_nat n.
Proof. unfold measured, samples_at, len. by rewrite length_fmap, length_seq. Qed.

Lemma measured_ne k n : (0 < n)%nat → measured k n ≠ [].
Proof. intros Hn Hm. pose proof (measured_len k n) as Hl. rewrite Hm in Hl. unfold len in Hl. simpl in Hl. lia. Qed.

Lemma measure_run J turns name transport notes operation w n :
  steady J operation (λ _, J) → J (local w) →
  stops (instants w + 1) (instant (instants w)) n → (n < turns)%nat →
  ∃ w', J (local w') ∧
    measure instant turns name transport notes operation w =
      match summarize name transport notes (measured (instants w) n) (spent (instants w) n) 0 with
      | Some r => Done (r, w')
      | None => Panicked
      end.
Proof.
  intros Ho Hw Hstop Ht. unfold measure, bind at 1, now. simpl.
  destruct (measure_loop_spec J (λ _ : unit, J) (ret tt) (λ _, operation) (λ d, [d]) n turns
    (instant (instants w)) [] (Build_World (Datatypes.S (instants w)) (calls w) (local w)))
    as (w1 & E1 & I1 & H1); [by apply steady_ret|done|done| |done|].
  { simpl. by rewrite <- Nat.add_1_r. }
  unfold bind at 1. rewrite E1. cbn [instants] in I1 |- *.
  unfold elapsed, bind, now, ret, expect, measured, spent. rewrite app_nil_l.
  replace (samples_at (Datatypes.S (instants w)) n ≫= (λ d, [d]))
    with (samples_at (instants w + 1) n).
  2:{ by rewrite Nat.add_1_r, bind_singleton. }
  rewrite I1.
  replace (Datatypes.S (instants w) + 3 * n + 1)%nat with (instants w + 3 * n + 2)%nat by lia.
  destruct (summarize _ _ _ _ _ _) as [r|]; [|exists w1; split; [exact H1|reflexivity]].
  eexists. split; [|reflexivity]. done.
Qed.
End steady.

(** Samples of disjoint intervals: their sum is within the time spent. *)
Definition total (l : list N) : N := foldr N.add 0 l.

Lemma instant_mono instant : (∀ i, instant i ≤ instant (S i)) → ∀ i j, (i ≤ j)%nat → instant i ≤ instant j.
Proof. intros Hm i j Hij. induction Hij as [|j Hij IH]; [done|]. etrans; [exact IH|done]. Qed.

Lemma samples_total instant k n :
  (∀ i, instant i ≤ instant (S i)) →
  total (samples_at instant k n) + instant k ≤ instant (k + 3 * n)%nat.
Proof.
  intros Hm. revert k. induction n as [|n IH]; intros k.
  { unfold samples_at. simpl. by rewrite !Nat.add_0_r. }
  rewrite samples_at_S. specialize (IH (k + 3)%nat). cbn [total foldr]. fold (total (samples_at instant (k + 3) n)).
  replace (k + 3 * S n)%nat with (k + 3 + 3 * n)%nat by lia.
  pose proof (instant_mono instant Hm k (k + 1) ltac:(lia)).
  pose proof (instant_mono instant Hm (k + 1) (k + 2) ltac:(lia)).
  pose proof (instant_mono instant Hm (k + 2) (k + 3) ltac:(lia)). unfold sat_sub. lia.
Qed.

Lemma summarize_empty name transport notes elapsed mem :
  summarize name transport notes [] elapsed mem = None.
Proof. reflexivity. Qed.

(** What a measurement reports.  With an operation that does not fail, on
    any monotonic clock, the loop makes one turn for each check that finds less
    than a second passed.  If it made one, the report counts the turns, its
    percentiles are the samples at these ranks in ascending order, so they are
    ordered, at least a second was spent, and the samples, which time disjoint
    intervals, add up to no more; if the first check is already late there is
    no sample and the report panics. *)
Theorem measure_report {S} (J : S → Prop) instant turns name transport notes operation w n :
  steady J operation (λ _, J) → J (local w) → (∀ i, instant i ≤ instant (Datatypes.S i)) →
  stops instant (instants w + 1) (instant (instants w)) n → (n < turns)%nat →
  N.of_nat n * 100 ≤ U64_MAX →
  let samples := measured instant (instants w) n in
  let elapsed := spent instant (instants w) n in
  let m := measure instant turns name transport notes operation w in
  len samples = N.of_nat n ∧ total samples ≤ elapsed ∧ MEASURE_DURATION ≤ elapsed ∧
  ((0 < n)%nat → ∃ r w', m = Done (r, w') ∧ summary samples elapsed r ∧ J (local w')) ∧
  (n = 0%nat → m = Panicked).
Proof.
  intros Ho Hw Hm Hstop Ht Hfit samples elapsed m.
  destruct (measure_run instant J turns name transport notes operation w n Ho Hw Hstop Ht)
    as (w' & Hw' & Em). fold m samples elapsed in Em.
  assert (instant (instants w + 1 + 3 * n)%nat -| instant (instants w) ≤ elapsed) as Hspent.
  { unfold elapsed, spent, sat_sub.
    pose proof (instant_mono instant Hm (instants w + 1 + 3 * n) (instants w + 3 * n + 2)). lia. }
  split_and!.
  - apply measured_len.
  - pose proof (samples_total instant (instants w + 1) n Hm) as Hs. fold samples in Hs.
    pose proof (instant_mono instant Hm (instants w) (instants w + 1)) as H1.
    unfold sat_sub in Hspent. change (samples_at instant (instants w + 1) n) with samples in Hs. lia.
  - destruct Hstop as [_ Hend]. lia.
  - intros Hn. destruct (summarize_spec name transport notes samples elapsed 0) as (r & Er & _ & Hr).
    + by apply measured_ne.
    + unfold samples. by rewrite measured_len.
    + rewrite Er in Em. eauto 6.
  - intros ->. exact Em.
Qed.
(** Three readings a turn, 300 ms apart: one turn. *)
Definition demo_instant (i : nat) : N := N.min (300000000 * N.of_nat i) 1000000000000.

Lemma demo_mono i : demo_instant i ≤ demo_instant (S i).
Proof. unfold demo_instant. lia. Qed.

Lemma demo_stops : stops demo_instant 1 (demo_instant 0) 1.
Proof. split; [intros [|j] Hj; [by vm_compute|lia]|by vm_compute]. Qed.

(** An operation that does nothing. *)
Lemma measure_report_witness :
  ∃ r w, @measure demo_instant unit 2 "nothing" "process" "no_op" (ret tt) (Build_World 0 0 tt)
    = Done (r, w) ∧ iterations r = 1 ∧ p50_ns r ≤ p99_ns r.
Proof.
  destruct (measure_report (λ _ : unit, True) demo_instant 2 "nothing" "process" "no_op"
    (ret tt) (Build_World 0 0 tt) 1) as (_ & _ & _ & Hpos & _);
    [by apply steady_ret|done|apply demo_mono|apply demo_stops|
     lia|by vm_compute|].
  destruct Hpos as (r & w & E & Hs & _); [lia|]. exists r, w. split; [exact E|].
  split; [exact (sum_iterations _ _ _ Hs)|].
  destruct (sum_order _ _ _ Hs) as [H1 H2]. by etrans.
Defined.
End BenchSpec.
