(* ===== verification/BenchPass.v ===== *)
(** * BenchPass: the scenarios pass

    The scenarios that run in the process make no failing assertion, whatever
    the instants, when all readings of the system clock are within the minute
    that the entries live; and what they report of memory is the memory of the
    entries they leave. *)

From S2P Require Import Prelude Bytes Protocol ProtocolFacts ProtocolSpec Engine EngineInv.
From S2P Require Import EnginePut EngineOps EngineSpec Sharded ShardedInv ShardedSpec Numbers.
From S2P Require Import Bench BenchSpec.

Module BenchPass.
Import Protocol Codec Engine EngineInv EnginePut EngineOps EngineSpec.
Import Sharded(ShardEnv, ShardedEngine, shards, sum_shards).
Import ShardedInv ShardedSpec.
Import Bench BenchSpec.

(** ** Running a scenario *)

Section ends.
Context {S : Type}.

(** From shared state in [J], with [k] instants read, [m] ends without a panic. *)
Definition ends {A} (k : nat) (J : S → Prop) (m : Prog S A) (Q : A → S → Prop) : Prop :=
  ∀ w, instants w = k → J (local w) → ∃ a w', m w = Done (a, w') ∧ Q a (local w').

Lemma ends_steady {A B} k J R Q (m : Prog S A) (f : A → Prog S B) :
  steady J m R → (∀ a, ends k (R a) (f a) Q) → ends k J (bind m f) Q.
Proof.
  intros Hm Hf w Hk Hw. destruct (Hm w Hw) as (a & w1 & E1 & I1 & H1).
  destruct (Hf a w1 ltac:(congruence) H1) as (b & w2 & E2 & H2). exists b, w2.
  unfold bind. by rewrite E1.
Qed.

Lemma ends_then {A B} k J R Q (m : Prog S A) (f : A → Prog S B) :
  ends k J m R → (∀ a, steady (R a) (f a) Q) → ends k J (bind m f) Q.
Proof.
  intros Hm Hf w Hk Hw. destruct (Hm w Hk Hw) as (a & w1 & E1 & H1).
  destruct (Hf a w1 H1) as (b & w2 & E2 & _ & H2). exists b, w2. unfold bind. by rewrite E1.
Qed.

Lemma run_on_ends {A} J (P : A → Prop) (m : Prog S A) s :
  J s → ends 0 J m (λ a _, P a) → ∃ a, run_on m s = Done a ∧ P a.
Proof.
  intros Hs Hm. destruct (Hm (Build_World 0 0 s) eq_refl Hs) as (a & w' & E & HP).
  exists a. unfold run_on. by rewrite E.
Qed.
End ends.

(** A monotonic sequence of instants on which a scenario makes [n] turns. *)
Record timed (instant : nat → N) (turns n : nat) : Prop := {
  tm_mono : ∀ i, instant i ≤ instant (S i);
  tm_max : ∀ i, instant i ≤ DURATION_MAX;
  tm_stops : stops instant 1 (instant 0%nat) n;
  tm_turns : (0 < n < turns)%nat;
  tm_fits : N.of_nat n * 100 ≤ U64_MAX
}.

Section scenarios.
Context `{HashOrder, ShardEnv}.
Context (instant : nat → N) (clocks : nat → Clock) (turns n : nat).
Hypothesis Htimed : timed instant turns n.

Lemma ends_measure {S} (J : S → Prop) name transport notes operation :
  steady J operation (λ _, J) →
  ends 0 J (measure instant turns name transport notes operation)
    (λ r s, iterations r = N.of_nat n ∧ Bench.memory_used_bytes r = 0 ∧ J s).
Proof.
  intros Ho w Hk Hw. destruct Htimed as [Hmono _ Hstop [Hn Ht] Hfit].
  destruct (measure_run instant J turns name transport notes operation w n Ho Hw) as (w' & Hw' & E);
    [by rewrite Hk|done|].
  destruct (summarize_spec name transport notes (measured instant (instants w) n)
    (spent instant (instants w) n) 0) as (r & Er & Hmem & Hr); [by apply measured_ne|by rewrite measured_len|].
  rewrite Er in E. exists r, w'. split_and!; [done| |done|done].
  by rewrite (sum_iterations _ _ _ Hr), measured_len.
Qed.

(** ** Calls on the engine *)

Lemma on_engine_steady {X A} (J : Engine * X → Prop) (Q : A → Engine * X → Prop) f :
  (∀ i s, J s → Q (f (clocks i) s.1).1 ((f (clocks i) s.1).2, s.2)) →
  steady J (on_engine clocks f) Q.
Proof.
  intros Hf. eapply steady_bind; [apply steady_clock|]. intros clk.
  eapply steady_bind; [apply steady_read|]. intros s w (Hs & [[i ->] HJ]).
  specialize (Hf i s HJ). destruct (f (clocks i) s.1) as [a e] eqn:E.
  exists a. eexists. unfold bind, write, ret. simpl. split_and!; [reflexivity|done|done].
Qed.

Definition small (c : PutCommand) : Prop :=
  len (pc_value c) ≤ max_value_bytes EngineLimits_default ∧
  estimate_entry_memory (command_id c) (pc_value c) (pc_tags c) ≤ 1000.

(** The engine of a scenario. *)
Definition good (e : Engine) : Prop := engine_inv e ∧ limits e = EngineLimits_default.

Lemma new_good : good Engine_new.
Proof. split; [by apply new_inv|done]. Qed.

Lemma engine_put_steady {X} (J R : Engine * X → Prop) c :
  small c → (∀ s, J s → good s.1) →
  (∀ i s e' o, J s → good e' → put_stored (clocks i) c s.1 e' o → R (e', s.2)) →
  steady J (engine_put clocks c) (λ _, R).
Proof.
  intros [Hv Hm] Hgood HR.
  apply (steady_bind J (λ r s, is_ok r = true ∧ R s)).
  - apply on_engine_steady. intros i s Hs. destruct (Hgood s Hs) as [Hinv Hlim].
    pose proof (put_spec (clocks i) c s.1 Hinv) as Hput.
    specialize (HR i s). destruct (put (clocks i) c s.1) as [r e']. simpl.
    rewrite Hlim in Hput. destruct Hput as (Hi & Hl & Hr).
    assert (max_memory_bytes EngineLimits_default = 67108864) as Hmax by done.
    destruct r as [o|[v m|b m|b u m]]; [|exfalso; lia..|done].
    split; [done|]. apply (HR e' o Hs); [by split|]. apply Hr.
  - intros r. apply (steady_mono _ (λ s, is_ok r = true ∧ R s) _ (λ _, R) (assert (is_ok r)));
      [|done|done].
    intros w [-> Hw]. exists tt, w. by split_and!.
Qed.

(** ** One key read over and over *)

(** All readings of the system clock are within a minute. *)
Definition within_minute : Prop := ∀ i a j b, clocks i a ≤ (clocks j b +| 60000).
Hypothesis Hminute : within_minute.

(** The engine holds [id] alone, fresh at every reading. *)
Definition alone (id : EntryId) (m : N) (e : Engine) : Prop :=
  engine_inv e ∧ ∃ en, entries e = {[id := en]} ∧ e_value en = value ∧
    (∀ i a, entry_state_at en (clocks i a) = Fresh) ∧ e_memory_bytes en = m.

Definition holding {X} (id : EntryId) (m : N) (s : Engine * X) : Prop := alone id m s.1.

Lemma small_put key : len key ≤ 100 → small (put_command "bench" key value).
Proof.
  intros Hk. split; [done|]. unfold estimate_entry_memory. simpl.
  change (str_len "bench") with 5. change (len value) with 5. change (sum_usize []) with 0.
  unfold ENTRY_OVERHEAD_BYTES, sat_add, U64_MAX. lia.
Qed.

Lemma put_alone i key e :
  len key ≤ 100 → engine_inv e → entries e = ∅ →
  1000 ≤ max_memory_bytes (limits e) → 5 ≤ max_value_bytes (limits e) →
  let id := EntryId_new "bench" key in
  let '(r, e') := put (clocks i) (put_command "bench" key value) e in
  is_ok r = true ∧ alone id (estimate_entry_memory id value []) e'.
Proof.
  intros Hk Hinv Hempty Hm Hv id. pose proof (small_put key Hk) as [_ Hb].
  pose proof (put_spec (clocks i) (put_command "bench" key value) e Hinv) as Hput.
  destruct (put _ _ e) as [r e']. destruct Hput as (Hinv' & _ & Hr).
  change (len (pc_value (put_command "bench" key value))) with 5 in Hr.
  destruct r as [o|[v m|b m|b u m]]; [|exfalso; lia..|done].
  destruct Hr as (_ & _ & acc & es & Hes & Hent & _). rewrite Hempty, delete_empty in Hes.
  assert (es = ∅) as -> by (apply (anti_symm (⊆)); [done|apply map_empty_subseteq]).
  rewrite insert_empty in Hent. split; [done|]. split; [done|].
  eexists. split_and!; [exact Hent|done| |done].
  intros j a. unfold entry_state_at. simpl. by rewrite (proj2 (N.leb_le _ _) (Hminute j a i 0%nat)).
Qed.

Lemma get_alone i key u m e :
  alone (EntryId_new "bench" key) m e →
  let '(o, e') := get_ref_inner (clocks i) "bench" key u e in
  o = GHit value ∧ alone (EntryId_new "bench" key) m e'.
Proof.
  intros (Hinv & en & He & Hv & Hf & Hm).
  pose proof (get_ref_inner_inv (clocks i) "bench" key u e Hinv) as Hinv'.
  pose proof (get_ref_inner_spec (clocks i) "bench" key u e) as Hs. simpl in Hs.
  destruct (get_ref_inner (clocks i) "bench" key u e) as [o e']. simpl in *.
  destruct Hs as [-> He']. unfold visible. rewrite He, lookup_singleton_eq in *.
  rewrite Hf in *. split; [by rewrite Hv|]. split; [done|].
  destruct u; subst e'; [|by eauto 6].
  eexists. simpl. rewrite He, insert_singleton_eq. split_and!; [reflexivity|done|done|done].
Qed.

Lemma alone_memory id m e : alone id m e → Engine.memory_used_bytes e = m.
Proof.
  intros (Hinv & en & He & _ & _ & <-). rewrite (acc_memory _ (inv_accounts _ Hinv)), He.
  rewrite <- insert_empty, map_sum_insert, map_sum_empty by apply lookup_empty. lia.
Qed.

Lemma put_holding {X} key (x : X) :
  len key ≤ 100 →
  let id := EntryId_new "bench" key in
  steady (λ s, s = (Engine_new, x)) (engine_put clocks (put_command "bench" key value))
    (λ _, holding id (estimate_entry_memory id value [])).
Proof.
  intros Hk id. apply (steady_bind _ (λ r s, is_ok r = true ∧ holding id (estimate_entry_memory id value []) s)).
  - apply on_engine_steady. intros i s ->. destruct new_good as [Hinv Hlim]. simpl.
    pose proof (put_alone i key Engine_new Hk Hinv eq_refl) as Hput.
    destruct (put _ _ Engine_new) as [r e']. by apply Hput.
  - intros r w [Hr Hw]. exists tt, w. unfold assert. by rewrite Hr.
Qed.

Lemma get_holding {X} key u m :
  steady (@holding X (EntryId_new "bench" key) m)
    (on_engine clocks (λ clk, get_ref_inner clk "bench" key u))
    (λ o s, o = GHit value ∧ holding (EntryId_new "bench" key) m s).
Proof.
  apply on_engine_steady. intros i [e x] Ha. pose proof (get_alone i key u m e Ha) as Hg. simpl.
  by destruct (get_ref_inner (clocks i) "bench" key u e).
Qed.

(** The result of a scenario that ends. *)
Definition reports (P : N → Prop) (r : BenchResult) : Prop :=
  iterations r = N.of_nat n ∧ P (Bench.memory_used_bytes r).

Lemma ends_report {X} (J : Engine * X → Prop) (P : N → Prop) name transport notes operation :
  steady J operation (λ _, J) →
  (∀ s, J s → P (Engine.memory_used_bytes s.1)) →
  ends 0 J (bind (measure instant turns name transport notes operation) engine_report)
    (λ r _, reports P r).
Proof.
  intros Ho HJ. eapply ends_then; [by apply ends_measure|]. intros r w (Hr & _ & Hw).
  eexists _, w. split; [reflexivity|]. split; [done|]. split; [done|]. simpl. by apply HJ.
Qed.

Lemma engine_get_passes :
  ∃ r, bench_engine_get instant clocks turns = Done r ∧ reports (eq 113) r.
Proof.
  apply (run_on_ends (λ s, s = (Engine_new, tt))); [done|].
  eapply ends_steady; [by apply put_holding|]. intros []; cbv beta.
  match goal with |- ends 0 ?J _ _ => assert (steady J (engine_get_hit clocks) (λ _, J)) as Hop end.
  { eapply steady_bind; [apply (get_holding _ true)|]. intros o w [-> Hw].
    exists tt, w. unfold assert. by rewrite bool_decide_eq_true_2. }
  eapply ends_steady; [by apply steady_times|]. intros []; cbv beta.
  apply ends_report; [done|]. intros s Hs.
  by rewrite (alone_memory _ _ _ Hs).
Qed.

(** Encoding a hit of [value] does not panic. *)
Lemma encode_value_ok out :
  encode_response_payload_view_frame_into 1 Get (WHit value) out =
  encode_response_payload_view_frame_into 1 Get (WHit value) [].
Proof. reflexivity. Qed.

Definition value_frame : bytes :=
  default [] (encode_response_payload_view_frame_into 1 Get (WHit value) []).

Lemma encode_hit_value out : encode_hit (GHit value) out = Some value_frame.
Proof. unfold encode_hit. rewrite encode_value_ok. reflexivity. Qed.

Lemma steady_get_shared {S X} (J : S * X → Prop) : steady J get_shared (λ x s, s.2 = x ∧ J s).
Proof. intros w Hw. by exists (local w).2, w. Qed.

Lemma steady_set_shared {S X} (J Q : S * X → Prop) x :
  (∀ s, J s → Q (s.1, x)) → steady J (set_shared x) (λ _, Q).
Proof. intros HQ w Hw. eexists tt, _. split; [reflexivity|]. split; [done|]. by apply HQ. Qed.

Lemma encode_steady {S} (J : S * bytes → Prop) o :
  (∀ e x y, J (e, x) → J (e, y)) →
  steady (λ s, o = GHit value ∧ J s)
    (bind get_shared (λ out, bind (expect (encode_hit o out)) set_shared)) (λ _, J).
Proof.
  intros HJ. eapply steady_bind; [apply steady_get_shared|]. intros out w (_ & -> & Hw).
  rewrite encode_hit_value. revert w Hw. eapply steady_bind; [by apply steady_expect|].
  intros out'. apply steady_set_shared. intros [e x] [_ Hs]. by apply (HJ e x).
Qed.

Lemma engine_get_ref_passes :
  ∃ r, bench_engine_get_ref_encode instant clocks turns = Done r ∧ reports (eq 120) r.
Proof.
  apply (run_on_ends (λ s, s = (Engine_new, []))); [done|].
  eapply ends_steady; [by apply put_holding|]. intros []; cbv beta.
  match goal with |- ends 0 ?J _ _ =>
    assert (steady J (engine_get_ref_encode clocks) (λ _, J)) as Hop end.
  { eapply steady_bind; [apply (get_holding _ true)|]. intros o. by apply encode_steady. }
  eapply ends_steady; [by apply steady_times|]. intros []; cbv beta.
  apply ends_report; [done|]. intros s Hs.
  by rewrite (alone_memory _ _ _ Hs).
Qed.

(** ** Unique keys *)

Definition counting (s : Engine * N) : Prop := good s.1 ∧ s.2 ≤ U64_MAX.

Lemma next_index_steady {S} (J : S * N → Prop) :
  (∀ e i, J (e, i) → J (e, i +% 1)) → (∀ s, J s → s.2 ≤ U64_MAX) →
  steady J next_index (λ i s, i ≤ U64_MAX ∧ J s).
Proof.
  intros HJ Hu w Hw. exists (local w).2. eexists. split; [reflexivity|].
  split; [done|]. destruct (local w) as [e i] eqn:E. simpl. split; [by apply (Hu (e, i))|].
  by apply HJ.
Qed.

Lemma wrap_add_le a b : (a +% b) ≤ U64_MAX.
Proof. unfold wrap_add. pose proof (N.mod_upper_bound (a + b) (U64_MAX + 1) ltac:(done)). lia. Qed.

Lemma put_unique_steady prefix :
  str_len prefix ≤ 80 → steady counting (engine_put_unique clocks prefix) (λ _, counting).
Proof.
  intros Hp. eapply steady_bind.
  { apply (next_index_steady counting); [|by intros s []].
    intros e i [Hg _]. split; [done|apply wrap_add_le]. }
  intros i. cbv beta. intros w [Hi Hw]. revert w Hw.
  apply engine_put_steady; [|by intros s []|by intros ???? [_ ?] ? _].
  apply small_put. rewrite len_as_bytes, str_len_app.
  pose proof (pretty_u64 i Hi) as [_ ?]. lia.
Qed.

Lemma engine_put_passes :
  ∃ r, bench_engine_put instant clocks turns = Done r ∧ reports (λ m, m ≤ 64 * 1024 * 1024) r.
Proof.
  apply (run_on_ends counting); [split; [apply new_good|done]|].
  eapply ends_steady; [by apply steady_times, put_unique_steady|]. intros []; cbv beta.
  apply ends_report; [by apply put_unique_steady|]. intros s [[Hinv Hl] _].
  pose proof (acc_limit _ (inv_accounts _ Hinv)) as Hlim. by rewrite Hl in Hlim.
Qed.

(** ** Tagged entries *)

(** The engine holds [k] of the values with [tag], and nothing else. *)
Record filling (tag : string) (k : nat) (s : Engine * N) : Prop := {
  fl_good : good s.1;
  fl_index : s.2 ≤ U64_MAX;
  fl_keys : ∀ id, is_Some (entries s.1 !! id) →
    ∃ i, (i < k)%nat ∧ id = command_id (tagged_command tag i);
  fl_tags : ∀ id en, entries s.1 !! id = Some en → tag ∈ e_tags en;
  fl_size : size (entries s.1) = k;
  fl_memory : map_sum e_memory_bytes (entries s.1) ≤ 1000 * N.of_nat k
}.

Definition emptied (s : Engine * N) : Prop := good s.1 ∧ s.2 ≤ U64_MAX ∧ entries s.1 = ∅.

Lemma tagged_id_inj tag i j :
  command_id (tagged_command tag i) = command_id (tagged_command tag j) → i = j.
Proof.
  intros [= Hk]. apply as_bytes_inj, (inj _) in Hk. injection Hk as Hk.
  by apply Nat2N.inj, (inj pretty).
Qed.

Lemma tagged_small tag i :
  str_len tag ≤ 24 → N.of_nat i ≤ U64_MAX → small (tagged_command tag i).
Proof.
  intros Ht Hi. split; [done|]. unfold estimate_entry_memory. simpl.
  rewrite len_as_bytes, !str_len_app. pose proof (pretty_u64 _ Hi) as [_ ?].
  change (str_len "bench") with 5. change (len value) with 5. change (str_len "-") with 1.
  assert (sum_usize [str_len tag] = str_len tag) as ->.
  { unfold sum_usize. simpl. unfold wrap_add, U64_MAX. apply N.mod_small. lia. }
  unfold ENTRY_OVERHEAD_BYTES, sat_add, U64_MAX. lia.
Qed.

Lemma put_tagged_one tag k :
  str_len tag ≤ 24 → (k < 8)%nat →
  steady (filling tag k) (engine_put clocks (tagged_command tag k)) (λ _, filling tag (S k)).
Proof.
  intros Ht Hk.
  assert (small (tagged_command tag k)) as Hsmall by (apply tagged_small; unfold U64_MAX; lia).
  apply engine_put_steady; [done|by intros s []|].
  intros i s e' o Hs He' (acc & es & _ & Hent & Hroom).
  destruct Hs as [Hg Hix Hkeys Htags Hsize Hmem].
  set (id := command_id (tagged_command tag k)) in *.
  assert (entries s.1 !! id = None) as Hnone.
  { destruct (entries s.1 !! id) eqn:E; [|done]. destruct (Hkeys id) as (j & Hj & Heq); [by eexists|].
    apply tagged_id_inj in Heq. lia. }
  rewrite delete_id in Hroom by done. destruct Hroom as [_ ->].
  { destruct Hg as [_ ->]. destruct Hsmall as [_ Hb]. simpl in *.
    change (max_memory_bytes EngineLimits_default) with 67108864. unfold command_id in Hb. simpl in Hb. lia. }
  split; simpl; rewrite ?Hent; try done.
  - intros j [x Hj]. destruct (decide (j = id)) as [->|Hne]; [by exists k; split; [lia|]|].
    rewrite lookup_insert_ne in Hj by done. destruct (Hkeys j) as (i' & ? & ?); [by eexists|].
    exists i'. split; [lia|done].
  - intros j x Hj. apply lookup_insert_Some in Hj as [[_ <-]|[_ Hj]]; [simpl; set_solver|by eapply Htags].
  - by rewrite map_size_insert_None, Hsize.
  - rewrite map_sum_insert by done. destruct Hsmall as [_ Hb]. simpl in *. unfold command_id in Hb. simpl in Hb. lia.
Qed.

Lemma put_tagged_steady tag m : ∀ k,
  str_len tag ≤ 24 → (k + m ≤ 8)%nat →
  steady (filling tag k) (put_tagged clocks tag (seq k m)) (λ _, filling tag (k + m)).
Proof.
  induction m as [|m IH]; intros k Ht Hk; simpl.
  { rewrite Nat.add_0_r. by apply steady_ret. }
  eapply steady_bind; [apply put_tagged_one; [done|lia]|]. intros [].
  rewrite <- Nat.add_succ_comm. apply IH; [done|lia].
Qed.

Lemma emptied_filling tag s : emptied s → filling tag 0 s.
Proof.
  intros (Hg & Hi & He). split; rewrite ?He; try done.
  intros id [x Hx]. by rewrite lookup_empty in Hx.
Qed.

Lemma invalidate_steady tag :
  steady (filling tag 8) (engine_invalidate_8 clocks tag) (λ _, emptied).
Proof.
  eapply steady_bind.
  - apply (on_engine_steady (filling tag 8) (λ r s, r = 8 ∧ emptied s)).
    intros i [e x] [[Hinv Hlim] Hix Hkeys Htags Hsize _]. simpl in *.
    pose proof (invalidate_tag_entries "bench" tag e Hinv) as [He Hn].
    pose proof (invalidate_tag_inv "bench" tag e Hinv) as Hinv'.
    assert (limits (invalidate_tag "bench" tag e).2 = EngineLimits_default) as Hl.
    { apply (invalidate_tag_ind (λ e, limits e = EngineLimits_default)); try done.
      intros id e1 He1. by rewrite remove_entry_limits. }
    destruct (invalidate_tag "bench" tag e) as [r e']. simpl in *.
    assert (entries e' = ∅) as Hempty.
    { rewrite He. apply map_empty. intros id. apply map_lookup_filter_None. right.
      intros en Hid Hnt. apply Hnt. exists en.
      destruct (Hkeys id) as (j & _ & ->); [by eexists|]. split_and!; [done|done|by eapply Htags]. }
    rewrite Hempty, Hsize, map_size_empty in Hn. split; [lia|]. split_and!; [|done|done].
    by split.
  - intros r w [-> Hw]. by exists tt, w.
Qed.

Lemma tag_len i : i ≤ U64_MAX → str_len ("tag-" +:+ pretty i) ≤ 24.
Proof.
  intros Hi. rewrite str_len_app. pose proof (pretty_u64 i Hi) as [_ ?].
  change (str_len "tag-") with 4. lia.
Qed.

(** Eight values with the tag of the current index, in an engine that was empty. *)
Lemma put_values_steady i :
  i ≤ U64_MAX →
  steady emptied (engine_put_tagged_values clocks i) (λ tag s, filling tag 8 s).
Proof.
  intros Hi. eapply (steady_bind _ (λ _, filling ("tag-" +:+ pretty i) 8));
    [|intros []; by apply steady_ret].
  eapply steady_mono; [apply (put_tagged_steady _ 8 0); [by apply tag_len|done]|
    apply emptied_filling|done].
Qed.

Lemma steady_index {A} (k : N → Prog (Engine * N) A) Q :
  (∀ i, i ≤ U64_MAX → steady emptied (k i) Q) → steady emptied (bind get_shared k) Q.
Proof.
  intros Hk. eapply steady_bind; [apply steady_get_shared|]. intros i w (<- & Hw).
  apply Hk; [|done]. by destruct Hw as (_ & Hi & _).
Qed.

Lemma tagged_values_steady : steady emptied (tagged_values clocks) (λ tag s, filling tag 8 s).
Proof.
  apply steady_index. intros i Hi. eapply steady_bind; [by apply put_values_steady|].
  intros tag. eapply (steady_bind _ (λ _, filling tag 8)); [|intros []; by apply steady_ret].
  apply steady_set_shared. intros [e j] [Hg Hj Hk Htg Hs Hm]. by split; [| apply wrap_add_le|..].
Qed.

Lemma tagged_warmup_steady : steady emptied (tagged_warmup clocks) (λ _, emptied).
Proof.
  apply steady_index. intros i Hi. eapply steady_bind; [by apply put_values_steady|].
  intros tag. eapply steady_bind; [apply invalidate_steady|]. intros [].
  apply steady_set_shared. intros s (Hg & _ & He). split_and!; [done|apply wrap_add_le|done].
Qed.

Lemma total_duration_ok l : total l ≤ DURATION_MAX → total_duration l = Some (total l).
Proof.
  unfold total_duration. intros Hl. cut (∀ acc, acc + total l ≤ DURATION_MAX →
    foldl (λ total sample, t ← total;
      if DURATION_MAX <? t + sample then None else Some (t + sample)) (Some acc) l
    = Some (acc + total l)).
  { intros Hacc. rewrite Hacc; [done|]. by rewrite N.add_0_l. }
  clear Hl. induction l as [|x l IH]; intros acc Hacc; simpl in *; [by rewrite N.add_0_r|].
  rewrite (proj2 (N.ltb_ge _ _)) by lia. rewrite IH by lia. f_equal. lia.
Qed.

Lemma engine_tag_passes :
  ∃ r, bench_engine_tag_invalidate_8 instant clocks turns = Done r ∧ reports (eq 0) r.
Proof.
  apply (run_on_ends emptied); [split_and!; [apply new_good|done|done]|].
  eapply ends_steady; [apply steady_times, tagged_warmup_steady|]. intros [].
  intros w Hk Hw. destruct Htimed as [Hmono Hmax Hstop [Hn Ht] Hfit].
  unfold bind at 1, now. cbn [instants].
  destruct (measure_loop_spec instant emptied (λ tag s, filling tag 8 s) (tagged_values clocks)
    (engine_invalidate_8 clocks) (λ d, [d]) n turns (instant (instants w)) []
    (Build_World (S (instants w)) (calls w) (local w))) as (w1 & E1 & _ & H1);
    [apply tagged_values_steady|apply invalidate_steady|done|by cbn [instants]; rewrite Hk|done|].
  unfold bind at 1. rewrite E1, app_nil_l. cbn [instants]. rewrite Hk, bind_singleton.
  change (samples_at instant 1 n) with (measured instant 0 n).
  pose proof (samples_total instant 1 n Hmono) as Htot. specialize (Hmax (1 + 3 * n)%nat).
  unfold bind at 1, expect at 1. rewrite total_duration_ok by (unfold measured; simpl in *; lia).
  destruct (summarize_spec "engine_tag_invalidate_8" "engine" "remove_8_tagged_keys"
    (measured instant 0 n) (total (measured instant 0 n)) 0) as (r & Er & _ & Hr);
    [by apply measured_ne|by rewrite measured_len|].
  unfold bind at 1, expect at 1. rewrite Er.
  eexists _, w1. split; [reflexivity|]. split; simpl.
  - by rewrite (sum_iterations _ _ _ Hr), measured_len.
  - destruct H1 as ([Hinv _] & _ & He). rewrite (acc_memory _ (inv_accounts _ Hinv)), He. done.
Qed.

(** ** The sharded engine *)

(** The key is alone in its shard, and the shards charge [m] bytes in all. *)
Definition sharded_holding (id : EntryId) (m : N) (s : ShardedEngine * bytes) : Prop :=
  sharded_inv s.1 ∧ Sharded.memory_used_bytes s.1 = m ∧
  ∃ e, shards s.1 !! home id s.1 = Some e ∧ alone id m e.

Lemma sum_shards_set f i e e' s s' :
  shards s !! i = Some e → shards s' = <[i := e']> (shards s) →
  sum_shards f s' + f e = sum_shards f s + f e'.
Proof.
  intros Hi Hs'. rewrite <- (sum_store f i e e' s Hi). unfold sum_shards, store_shard.
  simpl. by rewrite Hs'.
Qed.

Lemma shards_home id i e s s' :
  is_Some (shards s !! i) → i = home id s → shards s' = <[i := e]> (shards s) →
  shards s' !! home id s' = Some e.
Proof.
  intros Hi -> Hs'. rewrite (home_length id s s') by (by rewrite Hs', length_insert).
  rewrite Hs'. apply list_lookup_insert_eq. by apply lookup_lt_is_Some.
Qed.

Lemma on_sharded_steady {A} (J : ShardedEngine * bytes → Prop) Q
    (f : Clock → ShardedEngine → option (A * ShardedEngine)) :
  (∀ i s, J s → ∃ a s', f (clocks i) s.1 = Some (a, s') ∧ Q a (s', s.2)) →
  steady J (on_sharded clocks f) Q.
Proof.
  intros Hf. eapply steady_bind; [apply steady_clock|]. intros clk.
  eapply steady_bind; [apply steady_read|]. intros s w (Hs & [[i ->] HJ]).
  destruct (Hf i s HJ) as (a & s' & E & HQ). exists a. eexists.
  unfold bind, expect. rewrite E. simpl. split_and!; [reflexivity|done|done].
Qed.

Lemma sharded_get_steady key u m :
  steady (sharded_holding (EntryId_new "bench" key) m)
    (encode_sharded_get_ref_response clocks key u)
    (λ _, sharded_holding (EntryId_new "bench" key) m).
Proof.
  eapply steady_bind; [|intros o; apply encode_steady; by intros s x y].
  apply on_sharded_steady. intros i [s out] (Hinv & Hmem & e & He & Ha).
  destruct (keyed_spec (clocks i) (OpGet "bench" key u) (EntryId_new "bench" key) s Hinv eq_refl)
    as (e1 & s' & He1 & Heq & Hinv' & Hsh).
  simpl in He, Hmem. assert (e1 = e) as -> by congruence.
  pose proof (get_alone i key u m e Ha) as Hg.
  assert (∃ o e', get_ref_inner (clocks i) "bench" key u e = (o, e') ∧
    (if u then Sharded.get_ref (clocks i) "bench" key s
     else Sharded.get_ref_without_access_update (clocks i) "bench" key s) = Some (o, s') ∧
    shards s' = <[home (EntryId_new "bench" key) s := e']> (shards s)) as (o & e' & E & Es & Hs').
  { destruct u; simpl in Heq, Hsh; apply fmap_Some in Heq as ([o s1] & E1 & E2);
      injection E2 as Eo <-; unfold Engine.get_ref, Engine.get_ref_without_access_update in *;
      destruct (get_ref_inner _ _ _ _ e) as [o' e']; simpl in *; subst o'; eauto. }
  rewrite E in Hg. destruct Hg as [-> Ha']. exists (GHit value), s'. split; [by destruct u|].
  split; [done|]. split_and!; [done| |].
  - pose proof (sum_shards_set Engine.memory_used_bytes _ e e' s s' He Hs') as Hsum.
    rewrite (alone_memory _ _ _ Ha), (alone_memory _ _ _ Ha') in Hsum.
    unfold Sharded.memory_used_bytes in *. simpl in *. lia.
  - exists e'. split; [|done]. by apply (shards_home _ (home (EntryId_new "bench" key) s) e' s).
Qed.

Lemma sharded_put_steady key s0 :
  len key ≤ 100 → Sharded.with_limits EngineLimits_default = Some s0 →
  let id := EntryId_new "bench" key in
  steady (λ s, s = (s0, []))
    (on_sharded clocks (λ clk, Sharded.put clk (put_command "bench" key value)))
    (λ r s, is_ok r = true ∧ sharded_holding id (estimate_entry_memory id value []) s).
Proof.
  intros Hk Hnew id. pose proof (sharded_new_inv EngineLimits_default _ _ ltac:(by vm_compute) Hnew) as Hinv.
  set (e := Engine.with_clock_and_limits (Sharded.shard_limits EngineLimits_default 16)).
  assert (shards s0 = replicate 16 e) as Hs0.
  { apply (inj Some). exact (f_equal (option_map shards) (eq_sym Hnew)). }
  apply on_sharded_steady. intros i s ->. simpl.
  destruct (home_in_range id s0 (si_nonempty _ Hinv)) as [e1 He].
  assert (e1 = e) as -> by (rewrite Hs0 in He; by apply lookup_replicate in He as [-> _]).
  destruct (sharded_put_spec (clocks i) (put_command "bench" key value) s0 e Hinv He)
    as (s' & Eput & Hinv' & Hsh).
  pose proof (put_alone i key e Hk (so_inv _ _ _ (si_shards _ Hinv _ _ He)) eq_refl) as Hput.
  destruct (put (clocks i) (put_command "bench" key value) e) as [r e'].
  destruct Hput as [Hr Ha]; [done|done|]. exists r, s'. split; [done|]. split; [done|].
  split_and!; [done| |].
  - pose proof (sum_shards_set Engine.memory_used_bytes _ e e' s0 s' He Hsh) as Hsum.
    rewrite (alone_memory _ _ _ Ha) in Hsum.
    assert (sum_shards Engine.memory_used_bytes s0 = 0) as Hz by (unfold sum_shards; by rewrite Hs0).
    change (Engine.memory_used_bytes e) with 0 in Hsum.
    rewrite Hz in Hsum. unfold Sharded.memory_used_bytes. cbn [fst]. fold id in Hsum. lia.
  - exists e'. split; [|done]. by apply (shards_home id (home id s0) e' s0).
Qed.

Lemma sharded_passes key u name notes m :
  len key ≤ 100 → estimate_entry_memory (EntryId_new "bench" key) value [] = m →
  ∃ r, sharded_scenario instant clocks turns key u name notes = Done r ∧ reports (eq m) r.
Proof.
  intros Hk Hm. unfold sharded_scenario.
  destruct (Sharded.with_limits EngineLimits_default) as [s0|] eqn:Hnew; [|by vm_compute in Hnew].
  apply (run_on_ends (λ s, s = (s0, []))); [done|].
  eapply ends_steady; [by apply sharded_put_steady|]. intros r. rewrite Hm.
  eapply (ends_steady _ _ (λ _, sharded_holding (EntryId_new "bench" key) m)).
  { intros w [Hr Hw]. exists tt, w. unfold assert. by rewrite Hr. }
  intros [].
  eapply ends_steady; [apply steady_times, sharded_get_steady|]. intros [].
  eapply ends_then; [apply ends_measure, sharded_get_steady|]. intros b w (Hb & _ & _ & Hw & _).
  eexists _, w. split; [reflexivity|]. split; [done|]. split; simpl; [done|]. by rewrite Hw.
Qed.

(** ** The codec *)

(** A scenario that neither sets up nor reports anything else. *)
Lemma plain_passes {S} (J : S → Prop) s operation name transport notes :
  J s → steady J operation (λ _, J) →
  ∃ r, run_on (bind (warmup operation) (λ _,
    measure instant turns name transport notes operation)) s = Done r ∧ reports (eq 0) r.
Proof.
  intros Hs Hop. apply (run_on_ends J); [done|].
  eapply ends_steady; [by apply steady_times|]. intros [] w Hk Hw.
  destruct (ends_measure J name transport notes operation Hop w Hk Hw) as (r & w' & E & Hi & Hm & _).
  by exists r, w'.
Qed.

Lemma decode_get_passes :
  ∃ r, bench_protocol_decode_get instant turns = Done r ∧ reports (eq 0) r.
Proof.
  unfold bench_protocol_decode_get.
  destruct (encode_request_frame _) as [frame|] eqn:Ef; [|done].
  apply (plain_passes (λ _, True)); [done|]. injection Ef as <-. intros w _. exists tt, w. by vm_compute.
Qed.

Lemma encode_hit_passes :
  ∃ r, bench_protocol_encode_hit instant turns = Done r ∧ reports (eq 0) r.
Proof.
  unfold bench_protocol_encode_hit, measure_process_sync.
  apply (plain_passes (λ _, True)); [done|]. intros w _.
  eexists tt, (Build_World (instants w) (calls w) value_frame). unfold encode_value, bind, read, expect.
  by rewrite encode_value_ok.
Qed.
End scenarios.

(** C33: the scenarios in the process pass.  On instants with which the measuring
    loop makes [n] > 0 turns, and a system clock whose readings are within a minute,
    every scenario on the engine, the sharded engine and the codec ends without
    a failed assertion and reports [n] iterations, for every hash function and
    iteration order; the memory it reports is that of the entries it leaves: the
    one that was read, at most the limit after unique keys, none after the last
    invalidation. *)
Theorem scenarios_pass `{HashOrder, ShardEnv} instant clocks turns n :
  timed instant turns n → within_minute clocks →
  let passes run (P : N → Prop) := ∃ r, run = Done r ∧ reports n P r in
  passes (bench_engine_get instant clocks turns) (eq 113) ∧
  passes (bench_engine_put instant clocks turns) (λ m, m ≤ 64 * 1024 * 1024) ∧
  passes (bench_engine_tag_invalidate_8 instant clocks turns) (eq 0) ∧
  passes (bench_engine_get_ref_encode instant clocks turns) (eq 120) ∧
  passes (bench_sharded_get_ref_encode instant clocks turns) (eq 128) ∧
  passes (bench_sharded_get_ref_no_access_encode instant clocks turns) (eq 138) ∧
  passes (bench_protocol_decode_get instant turns) (eq 0) ∧
  passes (bench_protocol_encode_hit instant turns) (eq 0).
Proof.
  intros Ht Hm passes. split_and!.
  - by apply engine_get_passes.
  - by apply engine_put_passes.
  - by apply engine_tag_passes.
  - by apply engine_get_ref_passes.
  - apply (sharded_passes instant clocks turns n Ht Hm); [by vm_compute|reflexivity].
  - apply (sharded_passes instant clocks turns n Ht Hm); [by vm_compute|reflexivity].
  - by apply decode_get_passes.
  - by apply encode_hit_passes.
Qed.

Lemma demo_timed : timed demo_instant 2 1.
Proof.
  split; [apply demo_mono| |apply demo_stops|lia|by vm_compute].
  intros i. unfold demo_instant, DURATION_MAX, U64_MAX. lia.
Qed.

Lemma scenarios_pass_witness :
  ∃ r, @bench_engine_tag_invalidate_8 canonical_order demo_instant (λ _, manual_clock 7) 2
    = Done r ∧ iterations r = 1 ∧ Bench.memory_used_bytes r = 0.
Proof.
  destruct (@scenarios_pass canonical_order demo_env demo_instant (λ _, manual_clock 7) 2 1 demo_timed)
    as (_ & _ & (r & E & Hi & Hm) & _).
  - intros i a j b. by vm_compute.
  - exists r. split; [exact E|]. split; [exact Hi|]. symmetry. exact Hm.
Defined.
End BenchPass.
