(* ===== verification/BenchNative.v ===== *)
(** * BenchNative: the raw protocol client of the benchmark

    [RawNativeBenchClient] of [src/bin/cachebox-bench.rs], its requests and the
    scenarios over one connection.  The other end of the connection is a
    parameter: what it delivers in reply to a write, and the state it keeps; a
    write it does not take, a read it has not delivered the bytes for, a
    response that does not decode and a failed check are panics.  The buffers
    of the client are cleared before each use and are not part of its state. *)

From S2P Require Import Prelude Bytes Protocol Engine Bench.

Module BenchNative.
Import Protocol Codec Bench.

#[export] Instance BatchItem_eq_dec : EqDecision BatchItem.
Proof. solve_decision. Defined.
#[export] Instance ResponsePayload_eq_dec : EqDecision ResponsePayload.
Proof. solve_decision. Defined.

Record RawNativeBenchClient (P : Type) := {
  rc_transport : string;
  next_request_id : N;
  incoming : bytes;
  peer : P
}.
Arguments rc_transport {P} r.
Arguments next_request_id {P} r.
Arguments incoming {P} r.
Arguments peer {P} r.

(** [connect_tcp], [connect_unix] once the connection stands. *)
Definition connected {P} (transport : string) (p : P) : RawNativeBenchClient P :=
  {| rc_transport := transport; next_request_id := 1; incoming := []; peer := p |}.

Definition native_put_payload (key : bytes) (metadata : Metadata) (value : bytes) : RequestPayload :=
  RPut "bench" key metadata value.

Definition native_tag_invalidate_payload (tag : string) : RequestPayload :=
  RTagInvalidate "bench" tag.

Definition ttl_metadata : Metadata :=
  {| md_ttl := Some {| milliseconds := 60000 |}; md_stale_ttl := Some {| milliseconds := 60000 |};
     md_cost := md_cost Metadata_default; md_tags := md_tags Metadata_default;
     md_content_type := md_content_type Metadata_default |}.

Section client.
Context {P : Type} (reply : Engine.Clock → bytes → P → option (bytes * P)).
Context (instant : nat → N) (clocks : nat → Engine.Clock) (turns : nat).

(** The client, and the index some scenarios count with. *)
Notation NProg := (Prog (RawNativeBenchClient P * N)).

Definition client : NProg (RawNativeBenchClient P) := s <~ read;; ret s.1.
Definition set_client (c : RawNativeBenchClient P) : NProg unit := s <~ read;; write (c, s.2).

Definition write_all_request_buffer (bs : bytes) : NProg unit :=
  clk <~ system_clock clocks;;
  c <~ client;;
  r <~ expect (reply clk bs (peer c));;
  set_client {| rc_transport := rc_transport c; next_request_id := next_request_id c;
                incoming := incoming c ++ r.1; peer := r.2 |}.

Definition read_exact (n : N) : NProg bytes :=
  c <~ client;;
  _ <~ assert (n <=? len (incoming c));;
  _ <~ set_client {| rc_transport := rc_transport c; next_request_id := next_request_id c;
                     incoming := drop (N.to_nat n) (incoming c); peer := peer c |};;
  ret (take (N.to_nat n) (incoming c)).

Definition send_request (command : Command) (payload : RequestPayload) : NProg N :=
  c <~ client;;
  let request_id := next_request_id c in
  _ <~ set_client {| rc_transport := rc_transport c; next_request_id := request_id +% 1;
                     incoming := incoming c; peer := peer c |};;
  bs <~ expect (encode_request_frame {| rq_request_id := request_id; rq_command := command;
                                        rq_payload := payload |});;
  _ <~ write_all_request_buffer bs;;
  ret request_id.

Definition read_response : NProg ResponseFrame :=
  header <~ read_exact HEADER_LEN;;
  let payload_len := from_be_bytes (slice header 16 20) in
  payload <~ read_exact payload_len;;
  expect (match decode_response_frame (header ++ payload) USIZE_MAX with
          | Ok f => Some f | Err _ => None end).

Definition request (command : Command) (payload : RequestPayload) : NProg ResponsePayload :=
  request_id <~ send_request command payload;;
  response <~ read_response;;
  _ <~ assert (rs_request_id response =? request_id);;
  _ <~ assert (bool_decide (rs_command response = command));;
  ret (rs_payload response).

(** [assert_eq!(client.request(command, payload).await, expected)] *)
Definition request_is (command : Command) (payload : RequestPayload)
    (expected : ResponsePayload) : NProg unit :=
  response <~ request command payload;;
  assert (bool_decide (response = expected)).

(** ** Scenarios on one connection *)

Definition measure_native (name notes : string) (operation : NProg unit) : NProg BenchResult :=
  c <~ client;;
  measure instant turns name (rc_transport c) notes operation.

Definition get_hit (key : bytes) : NProg unit :=
  request_is Get (native_get_payload key) (PHit value).

Definition put_stored (key : bytes) (metadata : Metadata) : NProg unit :=
  request_is Put (native_put_payload key metadata value) (PStored 0).

Definition bench_native_single_key_get : NProg BenchResult :=
  _ <~ put_stored (as_bytes "get-key") Metadata_default;;
  _ <~ warmup (get_hit (as_bytes "get-key"));;
  measure_native "single_key_get" "cached_hit" (get_hit (as_bytes "get-key")).

Definition put_unique (prefix : string) (metadata : Metadata) : NProg unit :=
  index <~ next_index;;
  put_stored (as_bytes (prefix +:+ pretty index)) metadata.

Definition bench_native_single_key_put : NProg BenchResult :=
  _ <~ set_shared 0;;
  _ <~ warmup (put_unique "native-put-warmup-" Metadata_default);;
  measure_native "single_key_put" "unique_keys" (put_unique "native-put-" Metadata_default).

Fixpoint for_each {A} (l : list A) (body : A → NProg unit) : NProg unit :=
  match l with
  | [] => ret tt
  | x :: l => _ <~ body x;; for_each l body
  end.

Definition batch_key (index : nat) : bytes := as_bytes ("native-batch-" +:+ pretty (N.of_nat index)).

Definition assert_native_batch_hits (keys : list bytes) : NProg unit :=
  request_is BatchGet (RBatchGet "bench" keys) (PBatchGet (replicate (length keys) (BHit value))).

Definition bench_native_batch_get : NProg BenchResult :=
  _ <~ for_each (seq 0 32) (λ index, put_stored (batch_key index) Metadata_default);;
  let keys := batch_key <$> seq 0 32 in
  _ <~ warmup (assert_native_batch_hits keys);;
  measure_native "batch_get_32" "32_keys" (assert_native_batch_hits keys).

Definition contended_lease : RequestPayload :=
  RLeaseStart "bench" (as_bytes "native-contention") 60000 None.

Definition bench_native_lease_contention : NProg BenchResult :=
  response <~ request LeaseStart contended_lease;;
  _ <~ assert (match response with PLeaseGranted _ _ => true | _ => false end);;
  _ <~ warmup (request_is LeaseStart contended_lease PLeaseDenied);;
  measure_native "lease_contention" "same_missing_key"
    (request_is LeaseStart contended_lease PLeaseDenied).

Definition native_invalidate_tag (tag : string) (expected_removed : N) : NProg unit :=
  request_is TagInvalidate (native_tag_invalidate_payload tag) (PInvalidated expected_removed).

Definition bench_native_tag_invalidate_empty : NProg BenchResult :=
  _ <~ warmup (native_invalidate_tag "empty-tag" 0);;
  measure_native "tag_invalidate_empty" "single_empty_invalidate" (native_invalidate_tag "empty-tag" 0).

Definition native_put_tagged_values (index : N) : NProg string :=
  let tag := "native-tag-" +:+ pretty index in
  let metadata := {| md_ttl := md_ttl Metadata_default; md_stale_ttl := md_stale_ttl Metadata_default;
                     md_cost := md_cost Metadata_default; md_tags := [tag];
                     md_content_type := md_content_type Metadata_default |} in
  _ <~ for_each (seq 0 8) (λ item,
    put_stored (as_bytes (tag +:+ "-" +:+ pretty (N.of_nat item))) metadata);;
  ret tag.

Definition native_tag_invalidation_round (index : N) : NProg unit :=
  tag <~ native_put_tagged_values index;;
  native_invalidate_tag tag 8.

Definition counted_round : NProg unit :=
  index <~ get_shared;;
  _ <~ native_tag_invalidation_round index;;
  set_shared (index +% 1).

Definition bench_native_tag_invalidation : NProg BenchResult :=
  _ <~ set_shared 0;;
  _ <~ warmup counted_round;;
  measure_native "tag_workflow_put8_invalidate" "8_puts_plus_invalidate" counted_round.

Definition native_tagged : NProg string :=
  index <~ get_shared;;
  tag <~ native_put_tagged_values index;;
  _ <~ set_shared (index +% 1);;
  ret tag.

Definition bench_native_tag_invalidate_8 : NProg BenchResult :=
  _ <~ set_shared 0;;
  _ <~ warmup counted_round;;
  started <~ now instant;;
  samples <~ measure_loop instant turns started native_tagged
    (λ tag, native_invalidate_tag tag 8) (λ d, [d]) [];;
  measured_elapsed <~ expect (total_duration samples);;
  c <~ client;;
  expect (summarize "tag_invalidate_8" (rc_transport c) "single_invalidate_8_tagged_keys"
    samples measured_elapsed 0).

Definition bench_native_ttl_heavy_writes : NProg BenchResult :=
  _ <~ set_shared 0;;
  _ <~ warmup (put_unique "native-ttl-warmup-" ttl_metadata);;
  measure_native "ttl_heavy_writes" "ttl_and_stale_ttl" (put_unique "native-ttl-" ttl_metadata).

(** ** Pipelined requests *)

Fixpoint send_gets (n : nat) (key : bytes) : NProg (list N) :=
  match n with
  | 0%nat => ret []
  | S n =>
    request_id <~ send_request Get (native_get_payload key);;
    ids <~ send_gets n key;;
    ret (request_id :: ids)
  end.

(** The loop over the responses, with [seen] indexed like [expected_ids]. *)
Fixpoint read_gets (n : nat) (expected_ids : list N) (seen : list bool) : NProg (list bool) :=
  match n with
  | 0%nat => ret seen
  | S n =>
    response <~ read_response;;
    index <~ expect (fst <$> list_find (eq (rs_request_id response)) expected_ids);;
    seen_before <~ expect (seen !! index);;
    _ <~ assert (negb seen_before);;
    _ <~ assert (bool_decide (rs_command response = Get));;
    _ <~ assert (bool_decide (rs_payload response = PHit value));;
    read_gets n expected_ids (<[index := true]> seen)
  end.

Definition native_pipelined_get_round : NProg unit :=
  expected_ids <~ send_gets PIPELINE_DEPTH (as_bytes "pipeline-get-key");;
  seen <~ read_gets PIPELINE_DEPTH expected_ids (replicate PIPELINE_DEPTH false);;
  assert (forallb id seen).

Definition bench_native_pipelined_get : NProg BenchResult :=
  _ <~ put_stored (as_bytes "pipeline-get-key") Metadata_default;;
  _ <~ warmup native_pipelined_get_round;;
  started <~ now instant;;
  samples <~ measure_loop instant turns started (ret tt) (λ _, native_pipelined_get_round)
    (λ d, replicate PIPELINE_DEPTH (d / N.of_nat PIPELINE_DEPTH)) [];;
  spent <~ elapsed instant started;;
  c <~ client;;
  expect (summarize "pipelined_get_32" (rc_transport c) "one_connection_32_outstanding_gets"
    samples spent 0).
End client.
End BenchNative.
