(* ===== verification/BenchServed.v ===== *)
(** * BenchServed: the raw client against the server

    The raw client of the benchmark, joined to a connection of the server: a
    request returns what the server computed, so the single-key scenario passes
    from the start of the server to the report; and the pipelined round accepts
    the responses in any order, each exactly once. *)

From S2P Require Import Prelude Bytes Protocol ProtocolFacts ProtocolSpec Engine EngineInv.
From S2P Require Import EnginePut EngineOps EngineSpec Sharded ShardedInv ShardedSpec.
From S2P Require Import Server ServerFacts ServerSpec Connection ConnSpec Rejects ConnLive ServerInv.
From S2P Require Import Client ClientSpec Bench BenchSpec BenchPass BenchNative.

Module BenchServed.
Import Protocol Codec ProtocolFacts ProtocolSpec.
Import Sharded(ShardEnv, ShardedEngine, shards).
Import Server ServerFacts Connection ConnSpec ShardedInv ShardedSpec.
Import Bench BenchSpec BenchPass BenchNative.

(** The ids of a round, from the next id of the client. *)
Definition id_seq (k : N) (n : nat) : list N := (λ i, k +% N.of_nat i) <$> seq 0 n.

Lemma id_seq_S k n : k ≤ U64_MAX → id_seq k (S n) = k :: id_seq (k +% 1) n.
Proof.
  intros Hk. unfold id_seq. simpl. f_equal; [unfold wrap_add; rewrite N.add_0_r; apply N.mod_small; lia|].
  rewrite <- seq_shift, <- list_fmap_compose. apply list_fmap_ext. intros j x _. simpl.
  unfold wrap_add. rewrite N.Div0.add_mod_idemp_l. f_equal. lia.
Qed.

Lemma id_seq_NoDup k n : (n ≤ 1000)%nat → NoDup (id_seq k n).
Proof.
  intros Hn. unfold id_seq. apply NoDup_fmap_2_strong; [|apply NoDup_seq].
  intros i j Hi%elem_of_seq Hj%elem_of_seq Heq. unfold wrap_add, U64_MAX in Heq.
  apply Nat2N.inj. revert Heq Hi Hj Hn. zify. Z.to_euclidean_division_equations. lia.
Qed.

(** ** Reading responses *)

Section reading.
Context {P : Type}.
#[local] Notation St := (RawNativeBenchClient P * N)%type.

Definition with_incoming (bs : bytes) (c : RawNativeBenchClient P) : RawNativeBenchClient P :=
  {| rc_transport := rc_transport c; next_request_id := next_request_id c; incoming := bs;
     peer := peer c |}.

(** The world with other bytes to read. *)
Definition world_incoming (bs : bytes) (w : World St) : World St :=
  Build_World (instants w) (calls w) (with_incoming bs (local w).1, (local w).2).

Lemma raw_read_exact_app n l r (w : World St) :
  incoming (local w).1 = l ++ r → len l = n →
  BenchNative.read_exact n w = Done (l, world_incoming r w).
Proof.
  intros Hi <-. unfold BenchNative.read_exact, client, set_client, assert, bind, read, ret, expect, write.
  rewrite Hi, (proj2 (N.leb_le _ _)) by (rewrite len_app; lia).
  unfold len. rewrite Nat2N.id, take_app_length, drop_app_length. done.
Qed.

Lemma read_response_app f rest (w : World St) :
  response_frame_ok f → incoming (local w).1 = response_bytes f ++ rest →
  BenchNative.read_response w = Done (f, world_incoming rest w).
Proof.
  intros Hf Hi. unfold response_bytes in Hi. rewrite frame_bytes_app in Hi.
  unfold BenchNative.read_response, bind.
  rewrite (raw_read_exact_app _ _ _ _ Hi) by apply len_frame_header.
  rewrite ClientSpec.response_header_len by done. erewrite raw_read_exact_app by reflexivity.
  fold (frame_bytes KIND_RESPONSE (rs_command f) (rs_request_id f)
    (encode_response_payload (rs_payload f) [])). fold (response_bytes f).
  rewrite <- (app_nil_r (response_bytes f)).
  rewrite decode_response_bytes; [done|done|]. destruct Hf as (_ & _ & Hl).
  unfold USIZE_MAX, U64_MAX, U32_MAX in *. lia.
Qed.

(** ** The pipelined round *)

(** Which of [ids] are in [done]. *)
Definition marks (ids done : list N) : list bool := (λ i, bool_decide (i ∈ done)) <$> ids.

(** The responses are hits for ids of the round that were not answered before. *)
Fixpoint accepted (ids done : list N) (rs : list ResponseFrame) : bool :=
  match rs with
  | [] => true
  | r :: rs =>
    bool_decide (rs_request_id r ∈ ids) && negb (bool_decide (rs_request_id r ∈ done)) &&
    bool_decide (rs_command r = Get) && bool_decide (rs_payload r = PHit value) &&
    accepted ids (rs_request_id r :: done) rs
  end.

Lemma marks_cons ids done id k :
  NoDup ids → ids !! k = Some id → marks ids (id :: done) = <[k := true]> (marks ids done).
Proof.
  intros Hnd Hk. apply list_eq. intros j. unfold marks.
  destruct (decide (j = k)) as [->|Hj].
  - rewrite list_lookup_insert_eq by (rewrite length_fmap; by eapply lookup_lt_Some).
    rewrite list_lookup_fmap, Hk. simpl. by rewrite bool_decide_eq_true_2 by set_solver.
  - rewrite list_lookup_insert_ne by done. rewrite !list_lookup_fmap.
    destruct (ids !! j) as [i|] eqn:Ej; [|done]. simpl. f_equal. apply bool_decide_ext.
    assert (i ≠ id) by (intros ->; apply Hj; by eapply NoDup_lookup). set_solver.
Qed.

Lemma read_gets_accepted ids rs : ∀ done rest (w : World St),
  NoDup ids → Forall response_frame_ok rs →
  incoming (local w).1 = concat (response_bytes <$> rs) ++ rest →
  read_gets (length rs) ids (marks ids done) w =
  if accepted ids done rs
  then Done (marks ids (reverse (rs_request_id <$> rs) ++ done), world_incoming rest w)
  else Panicked.
Proof.
  induction rs as [|r rs IH]; intros done rest w Hnd Hok Hi.
  { simpl in *. destruct w as [k n [c x]]. simpl in *. unfold ret, world_incoming, with_incoming. simpl.
    rewrite <- Hi. by destruct c. }
  apply Forall_cons_1 in Hok as [Hr Hok]. cbn [length read_gets accepted].
  rewrite fmap_cons, concat_cons, <- app_assoc in Hi.
  unfold bind at 1. rewrite (read_response_app r _ w Hr Hi).
  unfold bind at 1, expect at 1.
  destruct (list_find (eq (rs_request_id r)) ids) as [[k i]|] eqn:Ef; cbn [fmap option_fmap option_map fst].
  2:{ apply list_find_None in Ef. rewrite (bool_decide_eq_false_2 (rs_request_id r ∈ ids)); [done|].
      intros Hin. by apply (proj1 (list.Forall_forall _ _) Ef _ Hin). }
  apply list_find_Some in Ef as (Hk & <- & _).
  rewrite (bool_decide_eq_true_2 (rs_request_id r ∈ ids)) by (by eapply list_elem_of_lookup_2).
  unfold bind at 1, expect at 1. unfold marks at 1. rewrite list_lookup_fmap, Hk. cbn [fmap option_fmap option_map].
  unfold assert, bind at 1, expect at 1.
  destruct (bool_decide (rs_request_id r ∈ done)) eqn:Ed; cbn [negb andb]; [done|].
  unfold bind at 1, expect at 1. destruct (bool_decide (rs_command r = Get)); cbn [andb]; [|done].
  unfold bind at 1, expect at 1. destruct (bool_decide (rs_payload r = PHit value)); cbn [andb]; [|done].
  rewrite <- (marks_cons ids done _ k Hnd Hk).
  rewrite (IH _ rest (world_incoming (concat (response_bytes <$> rs) ++ rest) w)) by done.
  rewrite fmap_cons, reverse_cons, <- app_assoc. done.
Qed.

Lemma accepted_iff ids rs : ∀ done,
  accepted ids done rs = true ↔
  rs_request_id <$> rs ⊆ ids ∧ NoDup (rs_request_id <$> rs) ∧
  (∀ r, r ∈ rs → rs_request_id r ∉ done) ∧
  Forall (λ r, rs_command r = Get ∧ rs_payload r = PHit value) rs.
Proof.
  induction rs as [|r rs IH]; intros done; cbn [accepted].
  { split; [|done]. intros _. split_and!; [set_solver|constructor|set_solver|constructor]. }
  rewrite !andb_true_iff, negb_true_iff, bool_decide_eq_false, !bool_decide_eq_true, IH.
  rewrite fmap_cons, list.NoDup_cons, list.Forall_cons. split.
  - intros ((((H1 & H2) & H3) & H4) & H5 & H6 & H7 & H8). split_and!; try done.
    + set_solver.
    + intros Hin. apply list_elem_of_fmap in Hin as (r' & Heq & Hr'). specialize (H7 r' Hr'). set_solver.
    + intros r' [->|Hr']%elem_of_cons; [done|]. specialize (H7 r' Hr'). set_solver.
  - intros (H1 & [H2 H3] & H4 & [[H5 H6] H7]). split_and!; try done.
    + set_solver.
    + apply H4. set_solver.
    + set_solver.
    + intros r' Hr'. rewrite elem_of_cons. intros [Heq|Hin].
      * apply H2. rewrite <- Heq. by apply list_elem_of_fmap_2.
      * apply (H4 r'); [set_solver|done].
Qed.

End reading.

Section sending.
Context {P : Type} (reply : Engine.Clock → bytes → P → option (bytes * P)).
Context (clocks : nat → Engine.Clock).

Lemma send_request_id command payload w id w1 :
  send_request reply clocks command payload w = Done (id, w1) →
  id = next_request_id (local w).1 ∧ next_request_id (local w1).1 = id +% 1.
Proof.
  unfold send_request, write_all_request_buffer, client, set_client, system_clock, bind, read, write,
    ret, expect. simpl. intros Heq. repeat case_match; simplify_eq/=. done.
Qed.

Lemma send_gets_ids n key : ∀ w ids w1,
  next_request_id (local w).1 ≤ U64_MAX → send_gets reply clocks n key w = Done (ids, w1) →
  ids = id_seq (next_request_id (local w).1) n.
Proof.
  induction n as [|n IH]; intros w ids w1 Hid Heq.
  { unfold send_gets, ret in Heq. by simplify_eq. }
  cbn [send_gets] in Heq. unfold bind at 1 in Heq.
  destruct (send_request _ _ _ _ w) as [[id w2]| |] eqn:E1; [|done..].
  destruct (send_request_id _ _ _ _ _ E1) as [-> Hnext]. unfold bind in Heq.
  destruct (send_gets _ _ n key w2) as [[ids2 w3]| |] eqn:E2; [|done..].
  unfold ret in Heq. simplify_eq. rewrite id_seq_S, <- Hnext by done. f_equal.
  apply (IH w2 ids2 w1); [|done]. rewrite Hnext. apply wrap_add_le.
Qed.
End sending.

(** A pipelined round.  Once its 32 requests are sent, with the peer's 32
    responses to read, the round passes exactly when the responses answer each
    request once, in any order, all with the hit; it then has read exactly
    these responses, and it panics otherwise. *)
Theorem pipelined_round {P} (reply : Engine.Clock → bytes → P → option (bytes * P))
    clocks w ids w1 rs rest :
  next_request_id (local w).1 ≤ U64_MAX →
  send_gets reply clocks PIPELINE_DEPTH (as_bytes "pipeline-get-key") w = Done (ids, w1) →
  incoming (local w1).1 = concat (response_bytes <$> rs) ++ rest →
  length rs = PIPELINE_DEPTH → Forall response_frame_ok rs →
  let good := rs_request_id <$> rs ≡ₚ ids ∧
    Forall (λ r, rs_command r = Get ∧ rs_payload r = PHit value) rs in
  let round := native_pipelined_get_round reply clocks w in
  (good → round = Done (tt, world_incoming rest w1)) ∧ (¬ good → round = Panicked).
Proof.
  intros Hid Hsend Hi Hlen Hok good round.
  assert (NoDup ids ∧ length ids = PIPELINE_DEPTH) as [Hnd Hids].
  { rewrite (send_gets_ids _ _ _ _ _ _ _ Hid Hsend). split; [apply id_seq_NoDup; unfold PIPELINE_DEPTH; lia|].
    unfold id_seq. by rewrite length_fmap, length_seq. }
  assert (rs_request_id <$> rs ⊆ ids → NoDup (rs_request_id <$> rs) →
    rs_request_id <$> rs ≡ₚ ids) as Hperm.
  { intros Hsub Hn. apply submseteq_length_Permutation; [by apply NoDup_submseteq|].
    rewrite length_fmap. lia. }
  assert (round = if accepted ids [] rs then Done (tt, world_incoming rest w1) else Panicked) as ->.
  { unfold round, native_pipelined_get_round, bind at 1. rewrite Hsend. unfold bind.
    replace (replicate PIPELINE_DEPTH false) with (marks ids []).
    2:{ unfold marks. rewrite <- Hids. clear. induction ids as [|i ids IH]; [done|].
        simpl. f_equal. exact IH. }
    rewrite <- Hlen, (read_gets_accepted ids rs [] rest w1 Hnd Hok Hi).
    destruct (accepted ids [] rs) eqn:Ea; [|done]. apply accepted_iff in Ea as (Hsub & Hnd2 & _ & _).
    assert (forallb id (marks ids (reverse (rs_request_id <$> rs) ++ [])) = true) as ->; [|done].
    apply Is_true_eq_true, forallb_True, list.Forall_forall. intros b Hb. unfold marks in Hb.
    apply list_elem_of_fmap in Hb as (i & -> & Hin). apply Is_true_eq_left, bool_decide_eq_true_2.
    rewrite app_nil_r, elem_of_reverse. rewrite Hperm by done. done. }
  destruct (accepted ids [] rs) eqn:Ea.
  - split; [done|]. intros Hbad. destruct Hbad. apply accepted_iff in Ea as (? & ? & _ & ?).
    split; [by apply Hperm|done].
  - split; [|done]. intros [Hp Hf]. exfalso. apply not_true_iff_false in Ea. apply Ea.
    apply accepted_iff. split_and!; [by rewrite Hp|by rewrite Hp|set_solver|done].
Qed.

(** A peer that answers all 32 requests after the last, in reverse order. *)
Definition demo_hit (id : nat) : ResponseFrame :=
  {| rs_request_id := N.of_nat id; rs_command := Get; rs_payload := PHit value |}.

Definition demo_reply (_ : Engine.Clock) (_ : bytes) (n : nat) : option (bytes * nat) :=
  Some (if bool_decide (n = 31%nat) then concat (response_bytes <$> (demo_hit <$> reverse (seq 1 32)))
        else [], S n).

Definition demo_world : World (RawNativeBenchClient nat * N) :=
  Build_World 0 0 (connected "loopback_tcp" 0%nat, 0).

Lemma pipelined_round_witness :
  ∃ w, native_pipelined_get_round demo_reply (λ _, Engine.manual_clock 0) demo_world = Done (tt, w) ∧
    incoming (local w).1 = [].
Proof.
  destruct (send_gets demo_reply (λ _, Engine.manual_clock 0) PIPELINE_DEPTH
    (as_bytes "pipeline-get-key") demo_world) as [[ids w1]| |] eqn:E;
    [|vm_compute in E; discriminate E..].
  eexists. split.
  - apply (pipelined_round demo_reply (λ _, Engine.manual_clock 0) demo_world ids w1
      (demo_hit <$> reverse (seq 1 32)) []); [by vm_compute|exact E| |reflexivity| |].
    + vm_compute in E. injection E as _ <-. vm_compute. reflexivity.
    + clear E. apply list.Forall_forall. intros r (i & -> & Hi)%list_elem_of_fmap.
      rewrite elem_of_reverse, elem_of_seq in Hi. split_and!; simpl.
      * unfold U64_MAX. lia.
      * by vm_compute.
      * by vm_compute.
    + split.
      * assert (next_request_id (local demo_world).1 ≤ U64_MAX) as Hid by by vm_compute.
        rewrite (send_gets_ids demo_reply _ _ _ demo_world ids w1 Hid E).
        rewrite <- list_fmap_compose, reverse_Permutation. vm_compute. reflexivity.
      * clear E. apply list.Forall_forall. by intros r (i & -> & _)%list_elem_of_fmap.
  - reflexivity.
Defined.
End BenchServed.
