(* ===== verification/BenchLoop.v ===== *)
(** * BenchLoop: a scenario over a connection of the server

    The raw client of the benchmark joined to a connection ([Connection]) of a
    server ([Server]) on the sharded engine: a request of the client is one
    reading turn of the connection, and returns what the server computed; the
    single-key scenario passes from the start of the server to its report. *)

From S2P Require Import Prelude Bytes Protocol ProtocolFacts ProtocolSpec Engine EngineInv.
From S2P Require Import EnginePut EngineOps EngineSpec Sharded ShardedInv ShardedSpec Consistent.
From S2P Require Import Server ServerFacts ServerSpec Connection ConnSpec Rejects ConnLive ServerInv.
From S2P Require Import Bench BenchSpec BenchPass BenchNative BenchServed.

Module BenchLoop.
Import Protocol Codec ProtocolFacts ProtocolSpec EngineInv EnginePut EngineOps.
Import Sharded(ShardEnv, ShardedEngine, shards).
Import Server ServerFacts Connection ConnSpec ShardedInv ShardedSpec Consistent.
Import Bench BenchSpec BenchPass BenchNative BenchServed.

Section execute.
Context `{Engine.HashOrder, ShardEnv}.

(** The engine call behind a request. *)
Lemma exec_get clk m ns key st r st' :
  execute_native_payload_with_metrics clk m (RGet ns key) st = Some (r, st') →
  ∃ o, Sharded.get clk ns key (engine st) = Some (o, engine st') ∧
    r = match o with Engine.GHit v => PHit v | Engine.GStale v => PStale v | Engine.GMiss => PMiss end.
Proof.
  cbn [execute_native_payload_with_metrics]. unfold execute_native_get, hbind, count, call, hret.
  destruct (Metrics.m_shards (metrics st) !! m); [|done]. cbn [engine metrics].
  destruct (Sharded.get clk ns key (engine st)) as [[o s]|]; [|done]. intros Hex. exists o.
  destruct o; cbn in Hex; repeat (case_match; simplify_eq/=); done.
Qed.

Lemma exec_put clk m ns key md v st r st' :
  execute_native_payload_with_metrics clk m (RPut ns key md v) st = Some (r, st') →
  ∃ x, Sharded.put clk (native_put_command ns key md v) (engine st) = Some (x, engine st') ∧
    r = match x with Ok o => PStored (clamp_u32 (Engine.po_evicted o)) | Err e => native_put_error e end.
Proof.
  cbn [execute_native_payload_with_metrics]. unfold hbind, count, call, hret.
  destruct (Metrics.m_shards (metrics st) !! m); [|done]. cbn [engine metrics].
  destruct (Sharded.put clk _ (engine st)) as [[x s]|]; [|done]. intros Hex. exists x.
  destruct x; cbn in Hex; repeat (case_match; simplify_eq/=); simplify_eq/=; done.
Qed.
End execute.

(** A request whose answer the peer delivers whole returns it. *)
Lemma request_answered {P} (reply : Engine.Clock → bytes → P → option (bytes * P)) clocks
    command payload r p' (w : World (RawNativeBenchClient P * N)) :
  let id := next_request_id (local w).1 in
  let f := {| rq_request_id := id; rq_command := command; rq_payload := payload |} in
  let resp := {| rs_request_id := id; rs_command := command; rs_payload := r |} in
  request_frame_ok f → response_frame_ok resp → incoming (local w).1 = [] →
  reply (clocks (calls w)) (request_bytes f) (peer (local w).1) = Some (response_bytes resp, p') →
  request reply clocks command payload w = Done (r, Build_World (instants w) (S (calls w))
    ({| rc_transport := rc_transport (local w).1; next_request_id := id +% 1; incoming := [];
        peer := p' |}, (local w).2)).
Proof.
  destruct w as [k n [[tr id inc p] x]]. cbn [local fst snd incoming next_request_id peer calls].
  intros Hf Hresp -> Hreply. set (resp := {| rs_request_id := id |}) in *.
  unfold request, bind at 1, send_request, client, set_client, bind, read, write, ret, expect.
  cbn [local fst snd incoming next_request_id peer instants calls rc_transport].
  unfold encode_request_frame. rewrite (encode_request_bytes _ _ Hf).
  unfold write_all_request_buffer, system_clock, client, set_client, bind, read, write, ret, expect.
  cbn [local fst snd incoming next_request_id peer instants calls rc_transport].
  rewrite Hreply. cbn [fst snd].
  erewrite (read_response_app resp []); [|done|cbn [local fst incoming]; by rewrite app_nil_r].
  unfold assert, expect. cbn [rs_request_id rs_command rs_payload resp].
  rewrite N.eqb_refl, bool_decide_eq_true_2 by done. reflexivity.
Qed.

(** ** Cleanup and entries that do not expire *)

Definition keeps_forever (e e' : Engine.Engine) : Prop :=
  ∀ id en, Engine.entries e !! id = Some en → Engine.entry_expiry_key id en = None →
    Engine.entries e' !! id = Some en.

Lemma remove_expired_keeps clk m e :
  engine_inv e → keeps_forever e (Engine.remove_expired clk m e).2.
Proof.
  intros Hinv id en Hen Hx. destruct (remove_expired_spec clk m e Hinv) as (taken & Htook & Hs).
  destruct (Engine.remove_expired clk m e) as [n e']. destruct Hs as (_ & He & _). simpl.
  rewrite He, lookup_without, decide_False; [done|].
  intros (k & -> & Hk)%list_elem_of_fmap. apply (took_due _ _ _ _ _ Htook) in Hk as [Hk _].
  destruct (expiry_key_entry e k Hinv Hk) as (en' & Hen' & Hk'). congruence.
Qed.

Lemma reclaim_shards_keeps clk rem r es :
  Forall engine_inv es → Forall2 keeps_forever es (Sharded.reclaim_shards clk rem r es).2.
Proof.
  intros Hes. revert clk rem r. induction Hes as [|e es He Hes IH]; intros clk rem r; simpl; [constructor|].
  destruct (_ =? _).
  { simpl. apply Forall_Forall2_diag, Forall_true. by intros x id en. }
  pose proof (remove_expired_keeps clk rem e He) as Hk. unfold Engine.reclaim_expired_budget.
  destruct (Engine.remove_expired clk rem e) as [n e1].
  specialize (IH (Engine.clock_after 1 clk) (rem -| n) (r + n)).
  destruct (Sharded.reclaim_shards _ _ _ es) as [r' es']. by constructor.
Qed.

Lemma reclaim_keeps clk m s :
  Forall engine_inv (shards s) →
  Forall2 keeps_forever (shards s) (shards (Sharded.reclaim_expired_budget clk m s).2).
Proof.
  intros Hall. unfold Sharded.reclaim_expired_budget. destruct (_ =? _).
  { apply Forall_Forall2_diag, Forall_true. by intros x id en. }
  pose proof (reclaim_shards_keeps clk m 0 (shards s) Hall) as Hk.
  by destruct (Sharded.reclaim_shards clk m 0 (shards s)).
Qed.

Section loopback.
Context `{Engine.HashOrder, ShardEnv} (lim : Engine.EngineLimits) (maxlen conn : N).
Context (clocks : nat → Engine.Clock).

(** The connection takes the bytes in one read, and what it writes then is
    delivered. *)
Definition loopback (clk : Engine.Clock) (bs : bytes) (p : Conn * AppState) :
    option (bytes * (Conn * AppState)) :=
  '(c, st) ← on_frames maxlen conn clk (received bs p.1) p.2;
  Some (concat (drop (length (c_output p.1)) (c_output c)), (c, st)).

(** A connection between two requests of a sequential client. *)
Definition idle (c : Conn) : Prop :=
  c_buffer c = [] ∧ c_pipelined c = false ∧ c_backlog c = [] ∧ c_closed c = false.

(** A request that the server takes and can answer. *)
Record askable (command : Command) (payload : RequestPayload) : Prop := {
  ask_ok : ∀ id, id ≤ U64_MAX →
    request_frame_ok {| rq_request_id := id; rq_command := command; rq_payload := payload |};
  ask_fits : len (encode_request_payload payload []) ≤ maxlen;
  ask_bound : response_bound lim payload ≤ U32_MAX
}.

Lemma buffer_one b :
  framed maxlen b →
  ∃ rs, find_complete_native_frames b maxlen = Frames rs ∧ frames_of b rs = [b] ∧
    drain_frame_ranges b rs = [] ∧ len rs = 1.
Proof.
  intros Hb. destruct (buffer_split [b] [] maxlen) as (H1 & H2 & H3 & H4);
    [by apply Forall_singleton|by left; vm_compute|done|].
  exists (ranges 0 [b]). cbn [concat] in H1, H2, H3. rewrite !app_nil_r in H1, H2, H3. done.
Qed.

Lemma loopback_request clk f c st :
  st_ok lim st → idle c → request_frame_ok f →
  len (encode_request_payload (rq_payload f) []) ≤ maxlen →
  response_bound lim (rq_payload f) ≤ U32_MAX →
  ∃ m r st' c', let resp := {| rs_request_id := rq_request_id f; rs_command := rq_command f;
                              rs_payload := r |} in
    loopback clk (request_bytes f) (c, st) = Some (response_bytes resp, (c', st')) ∧ idle c' ∧
    execute_native_payload_with_metrics clk m (rq_payload f) st = Some (r, st') ∧
    st_ok lim st' ∧ response_frame_ok resp.
Proof.
  intros Hst (Hbuf & Hp & Hback & Hcl) Hf Hl Hb.
  destruct (ServerSpec.answer_decoded lim clk st (request_bytes f) f maxlen conn [] Hst)
    as (r & st' & H1 & H2 & H3 & Hresp); [by apply decode_whole_request|by apply bound_fits|].
  destruct (buffer_one (request_bytes f)) as (rs & Efind & Eframes & Edrain & Elen);
    [by apply request_framed|].
  eexists _, r, st', _. cbv zeta. split_and!; [|..|exact H2|exact H3|exact Hresp].
  - unfold loopback, on_frames, received. cbn [fst snd]. cbn [set_reader c_buffer c_pipelined].
    rewrite Hbuf, app_nil_l, Efind, Elen, Hp, Eframes, Edrain. cbn [orb].
    change (1 <? 1) with false. cbn iota.
    cbn [serve_inline]. unfold hbind, hret. cbn [set_reader c_output]. rewrite H1.
    cbn [mbind option_bind]. cbn [set_writer set_reader c_output].
    rewrite drop_app_length. cbn [concat]. rewrite app_nil_r. reflexivity.
  - by split_and!.
Qed.

(** The client between two requests, with the server's state in [J]. *)
Definition joined (J : AppState → Prop) (s : RawNativeBenchClient (Conn * AppState) * N) : Prop :=
  incoming s.1 = [] ∧ next_request_id s.1 ≤ U64_MAX ∧ idle (peer s.1).1 ∧ J (peer s.1).2.

(** A request returns what the server computes for it. *)
Lemma request_steady J Q command payload :
  askable command payload → (∀ st, J st → st_ok lim st) →
  (∀ i m st r st', J st → st_ok lim st' →
    execute_native_payload_with_metrics (clocks i) m payload st = Some (r, st') → Q r st') →
  steady (joined J) (request loopback clocks command payload) (λ r, joined (Q r)).
Proof.
  intros [Hok Hfits Hbound] HJ HQ w (Hin & Hid & Hidle & Hst).
  destruct w as [k n [[tr id inc [c st]] x]]. cbn [local fst snd incoming next_request_id peer] in *.
  destruct (loopback_request (clocks n) _ c st (HJ st Hst) Hidle (Hok id Hid) Hfits Hbound)
    as (m & r & st' & c' & Hreply & Hidle' & Hex & Hst' & Hresp).
  cbn [rq_request_id rq_command rq_payload] in *. subst inc.
  set (resp := {| rs_request_id := id; rs_command := command; rs_payload := r |}) in *.
  eexists r, _. split; [|split; [|split_and!]].
  - by apply (request_answered loopback clocks command payload r (c', st')
      (Build_World k n ({| rc_transport := tr; next_request_id := id; incoming := [];
                           peer := (c, st) |}, x)) (Hok id Hid)).
  - reflexivity.
  - reflexivity.
  - cbn. apply wrap_add_le.
  - exact Hidle'.
  - by eapply HQ.
Qed.

Lemma request_is_steady J Q command payload expected :
  askable command payload → (∀ st, J st → st_ok lim st) →
  (∀ i m st r st', J st → st_ok lim st' →
    execute_native_payload_with_metrics (clocks i) m payload st = Some (r, st') →
    r = expected ∧ Q st') →
  steady (joined J) (request_is loopback clocks command payload expected) (λ _, joined Q).
Proof.
  intros Ha HJ HQ. eapply steady_bind.
  { apply (request_steady J (λ r st, r = expected ∧ Q st)); [done..|]. intros. by eapply HQ. }
  intros r w (H1 & H2 & H3 & -> & H4). exists tt, w. unfold assert.
  rewrite bool_decide_eq_true_2 by done. by split_and!.
Qed.

(** The server stores [value] under [id], without a deadline or a stale time. *)
Definition stored (id : Engine.EntryId) (st : AppState) : Prop :=
  st_ok lim st ∧ ∃ e en, shards (engine st) !! home id (engine st) = Some e ∧
    Engine.entries e !! id = Some en ∧ Engine.e_value en = value ∧ Engine.e_expires_at_ms en = None ∧
    Engine.e_stale_until_ms en = None.

Lemma get_stored key i m st r st' :
  stored (Engine.EntryId_new "bench" key) st → st_ok lim st' →
  execute_native_payload_with_metrics (clocks i) m (native_get_payload key) st = Some (r, st') →
  r = PHit value ∧ stored (Engine.EntryId_new "bench" key) st'.
Proof.
  intros (Hst & e & en & He & Hen & Hv & Hx & Hsx) Hst' Hex.
  destruct (keyed_consistent (clocks i) (OpGet "bench" key true) (Engine.EntryId_new "bench" key)
    (engine st) (sto_inv _ _ Hst) eq_refl) as (e1 & s' & He1 & Heq & Hinv' & Hsh).
  assert (e1 = e) as -> by congruence.
  pose proof (get_ref_inner_spec (clocks i) "bench" key true e) as Hg. cbv zeta in Hg.
  assert (Engine.entry_state_at en (clocks i 0%nat) = Engine.Fresh) as Hfresh.
  { unfold Engine.entry_state_at. by rewrite Hx. }
  unfold visible in Hg. rewrite Hen, Hfresh, Hv in Hg.
  cbn [sharded_reply engine_reply] in Heq, Hsh. unfold Engine.get_ref in Heq, Hsh.
  destruct (Engine.get_ref_inner _ _ _ _ e) as [o e']. destruct Hg as [-> He'].
  cbn [rmap fst snd] in Heq, Hsh. apply fmap_Some in Heq as ([o s1] & E1 & [= <- <-]).
  destruct (exec_get _ _ _ _ _ _ _ Hex) as (o' & E2 & ->).
  change (Sharded.get (clocks i) "bench" key (engine st)) with
    (Sharded.get_ref (clocks i) "bench" key (engine st)) in E2.
  rewrite E1 in E2. injection E2 as <- Es. split; [done|]. split; [done|]. rewrite <- Es.
  eexists e', _. split.
  { eapply (shards_home _ (home (Engine.EntryId_new "bench" key) (engine st)) e' (engine st)); done. }
  rewrite He'. simpl. rewrite lookup_insert_eq. done.
Qed.

(** A tick of the cleanup worker removes nothing that has no deadline. *)
Lemma tick_stored id clk max_entries st :
  stored id st → stored id (expiration_tick clk max_entries st).
Proof.
  intros (Hst & e & en & He & Hen & Hv & Hx & Hsx).
  split; [by apply ServerInv.tick_ok|]. simpl.
  set (s' := (Sharded.reclaim_expired_budget clk max_entries (engine st)).2).
  assert (Forall engine_inv (shards (engine st))) as Hall.
  { apply Forall_lookup. intros i x Hi.
    exact (so_inv _ _ _ (consistent_shard _ i x (sto_inv _ _ Hst) Hi)). }
  assert (Forall2 keeps_forever (shards (engine st)) (shards s')) as Hkeep
    by apply reclaim_keeps, Hall.
  assert (home id s' = home id (engine st)) as Hh
    by (apply home_length; symmetry; exact (Forall2_length Hkeep)).
  rewrite Hh. destruct (Forall2_lookup_l _ _ _ _ _ Hkeep He) as (e' & He' & Hke).
  exists e', en. split_and!; [done| |done..]. apply Hke; [done|].
  unfold Engine.entry_expiry_key. by rewrite Hx, Hsx.
Qed.
End loopback.

(** The server of the benchmark: [Config::default()]. *)
Definition default_server (st : AppState) : Prop :=
  from_limits (64 * 1024 * 1024) (8 * 1024 * 1024) = Some st.

Section scenario.
Context `{Engine.HashOrder, ShardEnv} (clocks : nat → Engine.Clock).
#[local] Notation lim := Engine.EngineLimits_default.

Lemma default_server_ok st : default_server st → st_ok lim st.
Proof. by apply (ServerInv.start_state_ok lim). Qed.

Definition new_shard : Engine.Engine :=
  Engine.with_clock_and_limits (Sharded.shard_limits lim 16).

Lemma default_shards st id e :
  default_server st → shards (engine st) !! home id (engine st) = Some e → e = new_shard.
Proof.
  intros Hnew He. assert (shards (engine st) = replicate 16 new_shard) as Hshards.
  { unfold default_server, from_limits in Hnew. apply bind_Some in Hnew as (s & Hs & Heq).
    apply (inj Some) in Heq. subst st. cbn [engine]. apply (inj Some).
    exact (f_equal (option_map shards) (eq_sym Hs)). }
  rewrite Hshards in He. by apply lookup_replicate in He as [-> _].
Qed.

(** The first write to a shard of the default size. *)
Lemma put_new_shard clk key :
  len key ≤ 100 → engine_inv new_shard →
  let c := native_put_command "bench" key Metadata_default value in
  ∃ o e' acc, Engine.put clk c new_shard = (Ok o, e') ∧ Engine.po_evicted o = 0 ∧
    Engine.entries e' = {[command_id c := put_entry (clk 0%nat) c acc]}.
Proof.
  intros Hk Hinv c. pose proof (put_spec clk c new_shard Hinv) as Hspec.
  destruct (Engine.put clk c new_shard) as [x e']. destruct Hspec as (_ & _ & Hr).
  pose proof (small_put key Hk) as [_ Hb].
  change (Engine.estimate_entry_memory _ _ _ ≤ 1000) with
    (Engine.estimate_entry_memory (command_id c) (Engine.pc_value c) (Engine.pc_tags c) ≤ 1000) in Hb.
  assert (Engine.max_memory_bytes (Engine.limits new_shard) = 4194304) as Hmax by by vm_compute.
  rewrite Hmax in Hr. change (len (Engine.pc_value c)) with 5 in Hr.
  change (Engine.max_value_bytes (Engine.limits new_shard)) with 8388608 in Hr.
  destruct x as [o|[v m'|b m'|b u m']]; [|exfalso; lia..|done].
  destruct Hr as (_ & _ & acc & es & Hes & Hent & Hroom).
  assert (Engine.entries new_shard = ∅) as Hempty by reflexivity.
  rewrite Hempty, delete_empty, map_sum_empty, Hmax in Hroom.
  change (Engine.e_memory_bytes (put_entry (clk 0%nat) c acc)) with
    (Engine.estimate_entry_memory (command_id c) (Engine.pc_value c) (Engine.pc_tags c)) in Hroom.
  destruct Hroom as [Ho ->]; [lia|]. rewrite insert_empty in Hent. eauto 6.
Qed.

Lemma put_first key i m st r st' :
  len key ≤ 100 → default_server st → st_ok lim st' →
  execute_native_payload_with_metrics (clocks i) m
    (native_put_payload key Metadata_default value) st = Some (r, st') →
  r = PStored 0 ∧ stored lim (Engine.EntryId_new "bench" key) st'.
Proof.
  intros Hk Hnew Hst' Hex. pose proof (default_server_ok st Hnew) as Hst.
  destruct (exec_put _ _ _ _ _ _ _ _ _ Hex) as (x & Eput & ->).
  set (c := native_put_command "bench" key Metadata_default value) in *.
  destruct (keyed_consistent (clocks i) (OpPut c) (command_id c) (engine st) (sto_inv _ _ Hst) eq_refl)
    as (e & s' & He & E & _ & Hsh).
  pose proof (default_shards st _ e Hnew He) as ->.
  pose proof (so_inv _ _ _ (consistent_shard _ _ _ (sto_inv _ _ Hst) He)) as Hinv.
  destruct (put_new_shard (clocks i) key Hk Hinv) as (o & e' & acc & Ep & Ho & Hent). fold c in Ep, Hent.
  cbn [sharded_reply engine_reply] in E, Hsh. rewrite Eput, Ep in E. rewrite Ep in Hsh.
  cbn [rmap fmap option_fmap option_map fst snd] in E, Hsh. injection E as -> <-.
  rewrite Ho. split; [done|]. split; [done|]. eexists e', _. split.
  { apply (shards_home _ (home (command_id c) (engine st)) e' (engine st)); done. }
  rewrite Hent. split; [apply lookup_singleton_eq|]. done.
Qed.
End scenario.

(** C29: the single-key scenario passes against the server.  A raw client has
    the only connection to a server started with the default configuration, and
    each of its requests reaches the connection whole, in one read.  When the
    instants of the measuring loop do not go back and let it make [n] > 0 turns
    ([n] < [turns], the bound of the model's loop), the scenario stores its
    value, reads it back in every warm-up and measured turn and reports [n]
    iterations, whatever the system clock does between and for every hash
    function and iteration order: no assertion of the client, the connection or
    the server fails on the way.  (With no turn the report panics on its empty
    samples.) *)
Theorem native_get_passes `{Engine.HashOrder, ShardEnv} instant clocks turns n conn transport st :
  timed instant turns n → default_server st →
  ∃ r, run_on (bench_native_single_key_get (loopback (8 * 1024 * 1024) conn) instant clocks turns)
      (connected transport (Conn_new, st), 0) = Done r ∧ iterations r = N.of_nat n.
Proof.
  intros Ht Hnew. apply (run_on_ends (joined default_server)); [by split_and!|].
  set (id := Engine.EntryId_new "bench" (as_bytes "get-key")).
  eapply ends_steady.
  { apply (request_is_steady Engine.EngineLimits_default _ _ _ default_server
      (stored Engine.EngineLimits_default id)); [|apply default_server_ok|].
    - split; [|by vm_compute..]. intros rid Hrid. split_and!; [done|concrete_ok|done|by vm_compute].
    - intros i m st1 r st' H1 H2 H3. by eapply (put_first clocks (as_bytes "get-key")). }
  intros []; cbv beta.
  assert (steady (joined (stored Engine.EngineLimits_default id))
    (get_hit (loopback (8 * 1024 * 1024) conn) clocks (as_bytes "get-key"))
    (λ _, joined (stored Engine.EngineLimits_default id))) as Hop.
  { apply (request_is_steady Engine.EngineLimits_default _ _ _ _
      (stored Engine.EngineLimits_default id)); [|by intros st1 []|].
    - split; [|by vm_compute..]. intros rid Hrid. split_and!; [done|concrete_ok|done|by vm_compute].
    - intros i m st1 r st' H1 H2 H3. by eapply get_stored. }
  eapply ends_steady; [by apply steady_times|]. intros []; cbv beta.
  eapply (ends_steady _ _ (λ _, joined (stored Engine.EngineLimits_default id))).
  { intros w Hw. by exists (local w).1, w. }
  intros c w Hk Hw.
  destruct (ends_measure instant turns n Ht _ "single_key_get" (rc_transport c) "cached_hit" _ Hop w Hk Hw)
    as (r & w' & E & Hi & _). by exists r, w'.
Qed.

Lemma native_get_passes_witness :
  ∃ st r, default_server st ∧
    run_on (bench_native_single_key_get (@loopback Engine.canonical_order demo_env (8 * 1024 * 1024) 1)
      demo_instant (λ _, Engine.manual_clock 3) 2) (connected "loopback_tcp" (Conn_new, st), 0)
    = Done r ∧ iterations r = 1.
Proof.
  destruct (from_limits (64 * 1024 * 1024) (8 * 1024 * 1024)) as [st|] eqn:E; [|discriminate E].
  destruct (@native_get_passes Engine.canonical_order demo_env demo_instant
    (λ _, Engine.manual_clock 3) 2 1 1 "loopback_tcp" st demo_timed E) as (r & Hr & Hi).
  exists st, r. split; [exact E|]. split; [exact Hr|exact Hi].
Defined.
End BenchLoop.
