(* ===== verification/BenchFleet.v ===== *)
(** * BenchFleet: connecting, concurrent clients and short connections

    [src/bin/cachebox-bench.rs]: the retry loop of [connect_tcp] and
    [connect_unix], the scenarios with sixteen spawned clients, and the one
    that opens a connection for each request.

    A spawned task runs on its own instants, system clocks and connections (a
    [Site]); what the server does to one connection, other clients included,
    is in what that connection's peer delivers.  The result of a task is its
    [Run]; awaiting its handle panics when the task did. *)

From S2P Require Import Prelude Bytes Protocol Engine Bench BenchNative.

Module BenchFleet.
Import Protocol Codec Bench BenchNative.

Definition CONCURRENT_CLIENTS : nat := 16.
Definition CONNECT_TIMEOUT : N := 5000000000.

(** A variable of type [S] in the scope of [m]. *)
Definition scope {S S' A} (s : S) (m : Prog S A) : Prog S' A := λ w,
  match m (Build_World (instants w) (calls w) s) with
  | Done (a, w') => Done (a, Build_World (instants w') (calls w') (local w))
  | Panicked => Panicked
  | Running => Running
  end.

(** Awaiting the handle of a task and [expect]ing it to have finished. *)
Definition await {S A} (task : Run A) : Prog S A := λ w,
  match task with
  | Done a => Done (a, w)
  | Panicked => Panicked
  | Running => Running
  end.

Section fleet.
Context {P : Type} (reply : Engine.Clock → bytes → P → option (bytes * P)).

(** Where a task runs: its readings, and the answer to each attempt to connect,
    [None] being an I/O error. *)
Record Site := {
  site_instant : nat → N;
  site_clocks : nat → Engine.Clock;
  site_answers : nat → option P
}.

(** The state counts the attempts to connect. *)
Abbreviation CProg := (Prog nat).
Abbreviation NProg := (Prog (RawNativeBenchClient P * N)).

Section site.
Context (site : Site) (turns : nat).

Definition dial : CProg (option P) :=
  k <~ read;; _ <~ write (Datatypes.S k);; ret (site_answers site k).

(** At most [attempts] attempts; the sleep between two shows in the instants. *)
Fixpoint connect_loop (attempts : nat) (transport : string) (deadline : N) :
    CProg (RawNativeBenchClient P) :=
  match attempts with
  | 0%nat => λ _, Running
  | Datatypes.S attempts =>
    answer <~ dial;;
    match answer with
    | Some p => ret (connected transport p)
    | None =>
      t <~ now (site_instant site);;
      if t <? deadline then connect_loop attempts transport deadline
      else expect None
    end
  end.

(** [connect_tcp] with ["loopback_tcp"], [connect_unix] with ["loopback_unix"] *)
Definition connect (attempts : nat) (transport : string) : CProg (RawNativeBenchClient P) :=
  t <~ now (site_instant site);;
  connect_loop attempts transport (t + CONNECT_TIMEOUT).

(** ** One of the concurrent clients *)

(** [while Instant::now() < deadline], with untimed preparation. *)
Fixpoint worker_loop {X} (turns : nat) (deadline : N) (prepare : NProg X)
    (operation : X → NProg unit) (samples : list N) : NProg (list N) :=
  match turns with
  | 0%nat => λ _, Running
  | Datatypes.S turns =>
    t <~ now (site_instant site);;
    if t <? deadline then
      x <~ prepare;;
      sample_started <~ now (site_instant site);;
      _ <~ operation x;;
      sample <~ elapsed (site_instant site) sample_started;;
      worker_loop turns deadline prepare operation (samples ++ [sample])
    else ret samples
  end.

Definition worker {X} (attempts : nat) (transport : string) (deadline : N)
    (prepare : NProg X) (operation : X → NProg unit) : Run (list N) :=
  run_on (
    client <~ connect attempts transport;;
    scope (client, 0) (worker_loop turns deadline prepare operation [])) 0%nat.
End site.

(** ** The scenarios of sixteen clients *)

(** [samples.extend(handle.await.expect(..))] for each handle *)
Fixpoint join_all {S} (handles : list (Run (list N))) (samples : list N) : Prog S (list N) :=
  match handles with
  | [] => ret samples
  | handle :: handles =>
    more <~ await handle;;
    join_all handles (samples ++ more)
  end.

Context (here : Site) (sites : nat → Site) (turns attempts : nat).

Definition summarize_joined_samples {S} (name transport notes : string) (started : N)
    (handles : list (Run (list N))) : Prog S BenchResult :=
  samples <~ join_all handles [];;
  spent <~ elapsed (site_instant here) started;;
  expect (summarize name transport notes samples spent 0).

(** The tasks spawned at [started], each with its own preparation and operation. *)
Definition spawn_clients {X} (transport : string) (started : N)
    (prepare : nat → NProg X) (operation : nat → X → NProg unit) : list (Run (list N)) :=
  (λ i, worker (sites i) turns attempts transport (started + MEASURE_DURATION)
     (prepare i) (operation i)) <$> seq 0 CONCURRENT_CLIENTS.

Definition setup_put (setup : RawNativeBenchClient P) (keys : list bytes) : CProg unit :=
  scope (setup, 0) (for_each keys (λ key,
    put_stored reply (site_clocks here) key Metadata_default)).

Definition bench_native_concurrent_get (transport : string) (setup : RawNativeBenchClient P) :
    CProg BenchResult :=
  _ <~ setup_put setup [as_bytes "concurrent-get-key"];;
  started <~ now (site_instant here);;
  summarize_joined_samples "concurrent_get_16" transport "16_clients_cached_hit" started
    (spawn_clients transport started (λ _, ret tt)
       (λ i _, get_hit reply (site_clocks (sites i)) (as_bytes "concurrent-get-key"))).

Definition distinct_key (client_index : nat) : bytes :=
  as_bytes ("concurrent-get-distinct-" +:+ pretty (N.of_nat client_index)).

Definition bench_native_concurrent_get_distinct (transport : string)
    (setup : RawNativeBenchClient P) : CProg BenchResult :=
  _ <~ setup_put setup (distinct_key <$> seq 0 CONCURRENT_CLIENTS);;
  started <~ now (site_instant here);;
  summarize_joined_samples "concurrent_get_16_distinct" transport
    "16_clients_distinct_cached_hits" started
    (spawn_clients transport started (λ _, ret tt)
       (λ i _, get_hit reply (site_clocks (sites i)) (distinct_key i))).

(** The key of the turn, before the sample starts. *)
Definition unique_key (client_index : nat) : NProg bytes :=
  index <~ next_index;;
  ret (as_bytes ("concurrent-put-" +:+ pretty (N.of_nat client_index) +:+ "-" +:+ pretty index)).

Definition bench_native_concurrent_put (transport : string) : CProg BenchResult :=
  started <~ now (site_instant here);;
  summarize_joined_samples "concurrent_put_16" transport "16_clients_unique_keys" started
    (spawn_clients transport started unique_key
       (λ i key, put_stored reply (site_clocks (sites i)) key Metadata_default)).

(** ** A connection for each request *)

Definition short_get (transport : string) : CProg unit :=
  client <~ connect here attempts transport;;
  scope (client, 0) (get_hit reply (site_clocks here) (as_bytes "short-connection-key")).

Definition bench_native_short_connection_get (transport : string)
    (setup : RawNativeBenchClient P) : CProg BenchResult :=
  _ <~ setup_put setup [as_bytes "short-connection-key"];;
  _ <~ warmup (short_get transport);;
  measure (site_instant here) turns "short_connection_get" transport "connect_get_close"
    (short_get transport).

(** ** Over each transport *)

Definition bench_native_concurrent_get_tcp : CProg BenchResult :=
  setup <~ connect here attempts "loopback_tcp";;
  bench_native_concurrent_get "loopback_tcp" setup.
Definition bench_native_concurrent_get_distinct_tcp : CProg BenchResult :=
  setup <~ connect here attempts "loopback_tcp";;
  bench_native_concurrent_get_distinct "loopback_tcp" setup.
Definition bench_native_concurrent_put_tcp : CProg BenchResult :=
  bench_native_concurrent_put "loopback_tcp".
Definition bench_native_short_connection_get_tcp : CProg BenchResult :=
  setup <~ connect here attempts "loopback_tcp";;
  bench_native_short_connection_get "loopback_tcp" setup.

Definition bench_native_concurrent_get_unix : CProg BenchResult :=
  setup <~ connect here attempts "loopback_unix";;
  bench_native_concurrent_get "loopback_unix" setup.
Definition bench_native_concurrent_get_distinct_unix : CProg BenchResult :=
  setup <~ connect here attempts "loopback_unix";;
  bench_native_concurrent_get_distinct "loopback_unix" setup.
Definition bench_native_concurrent_put_unix : CProg BenchResult :=
  bench_native_concurrent_put "loopback_unix".
Definition bench_native_short_connection_get_unix : CProg BenchResult :=
  setup <~ connect here attempts "loopback_unix";;
  bench_native_short_connection_get "loopback_unix" setup.
End fleet.
End BenchFleet.
