(* ===== verification/BenchFleetSpec.v ===== *)
(** * BenchFleetSpec: connecting ends, and what the concurrent scenarios report

    The retry loop of the raw client ends, in a client or a panic, within the
    five seconds it gives itself; a scenario of sixteen clients reports the
    samples of all of them together, and panics if there is none. *)

From S2P Require Import Prelude Bytes Protocol ProtocolFacts ProtocolSpec Engine Sharded.
From S2P Require Import ShardedSpec Server ServerFacts Connection.
From S2P Require Import Bench BenchSpec BenchPass BenchNative BenchLoop BenchFleet.

Module BenchFleetSpec.
Import Protocol Codec ProtocolFacts ProtocolSpec.
Import Sharded(ShardEnv).
Import Server(AppState). Import ServerFacts Connection ShardedSpec.
Import Bench BenchSpec BenchPass BenchNative BenchLoop BenchFleet.

(** ** Connecting *)

Section connect.
Context {P : Type} (site : @Site P) (transport : string).
Abbreviation instant := (site_instant site).
Abbreviation answers := (site_answers site).

(** Attempt [k] after the [a] made so far is the last: the earlier ones failed
    before the deadline, and it succeeds or is too late. *)
Definition decided (a i k : nat) (deadline : N) : Prop :=
  (∀ j, (j < k)%nat → answers (a + j)%nat = None ∧ instant (i + j)%nat < deadline) ∧
  (answers (a + k)%nat = None → deadline ≤ instant (i + k)%nat).

Lemma connect_loop_decided attempts deadline k : ∀ w : World nat,
  decided (local w) (instants w) k deadline → (k < attempts)%nat →
  connect_loop site attempts transport deadline w =
    match answers (local w + k)%nat with
    | Some p => Done (connected transport p,
        Build_World (instants w + k) (calls w) (local w + k + 1)%nat)
    | None => Panicked
    end.
Proof.
  revert attempts. induction k as [|k IH]; intros [|attempts] w [Hgo Hend] Hlt; [lia| |lia|];
    cbn [connect_loop]; unfold bind, dial, read, write, ret, bind, now; cbn [local instants calls].
  - rewrite Nat.add_0_r in Hend |- *. destruct (answers (local w)) as [p|]; simpl.
    + by rewrite Nat.add_0_r, Nat.add_1_r.
    + specialize (Hend eq_refl). rewrite Nat.add_0_r in Hend.
      by rewrite (proj2 (N.ltb_ge _ _) Hend).
  - destruct (Hgo 0%nat ltac:(lia)) as [Ha Ht]. rewrite Nat.add_0_r in Ha, Ht.
    rewrite Ha. simpl. rewrite (proj2 (N.ltb_lt _ _) Ht).
    rewrite (IH attempts); cbn [local instants calls]; [|split|lia].
    + replace (Datatypes.S (local w) + k)%nat with (local w + Datatypes.S k)%nat by lia.
      replace (Datatypes.S (instants w) + k)%nat with (instants w + Datatypes.S k)%nat by lia.
      done.
    + intros j Hj. specialize (Hgo (Datatypes.S j) ltac:(lia)).
      by rewrite !Nat.add_succ_r in Hgo.
    + intros Hn. rewrite !Nat.add_succ_r in Hend. by apply Hend.
Qed.

(** Every [sleep] shows: from the reading [i] on, which follows the first failed
    attempt, two readings of the loop are twenty milliseconds apart. *)
Definition paced (i : nat) : Prop :=
  ∀ j, (i ≤ j)%nat → instant j + 20000000 ≤ instant (Datatypes.S j).

Lemma paced_after i j : paced i → instant i + 20000000 * N.of_nat j ≤ instant (i + j)%nat.
Proof.
  intros Hp. induction j as [|j IH]; [rewrite Nat.add_0_r; lia|].
  rewrite Nat.add_succ_r. specialize (Hp (i + j)%nat ltac:(lia)). lia.
Qed.

(** The attempt that decides, among the first 251. *)
Lemma connect_decides a i started :
  paced i → started ≤ instant i → ∃ k, (k ≤ 250)%nat ∧ decided a i k (started + CONNECT_TIMEOUT).
Proof.
  intros Hp Hs.
  assert (∀ n, (∃ k, (k ≤ n)%nat ∧ decided a i k (started + CONNECT_TIMEOUT)) ∨
    ∀ j, (j ≤ n)%nat → answers (a + j)%nat = None ∧ instant (i + j)%nat < started + CONNECT_TIMEOUT)
    as Hscan.
  { induction n as [|n [(k & Hk & Hd)|IH]].
    - destruct (answers (a + 0)%nat) eqn:E; [left; exists 0%nat; repeat split; [lia..|congruence]|].
      destruct (N.lt_ge_cases (instant (i + 0)%nat) (started + CONNECT_TIMEOUT)).
      + right. intros j Hj. by replace j with 0%nat by lia.
      + left. exists 0%nat. repeat split; [lia..|done].
    - left. exists k. split; [lia|done].
    - destruct (answers (a + Datatypes.S n)%nat) eqn:E.
      { left. exists (Datatypes.S n). split; [lia|]. split; [|congruence].
        intros j Hj. apply IH. lia. }
      destruct (N.lt_ge_cases (instant (i + Datatypes.S n)%nat) (started + CONNECT_TIMEOUT)).
      + right. intros j Hj. destruct (decide (j = Datatypes.S n)) as [->|]; [done|].
        apply IH. lia.
      + left. exists (Datatypes.S n). split; [lia|]. split; [|done]. intros j Hj. apply IH. lia. }
  destruct (Hscan 250%nat) as [?|Hall]; [done|]. exfalso.
  destruct (Hall 250%nat ltac:(lia)) as [_ Hlt]. pose proof (paced_after i 250 Hp).
  unfold CONNECT_TIMEOUT in Hlt. lia.
Qed.

Lemma connect_result attempts (w : World nat) k :
  decided (local w) (instants w + 1) k (instant (instants w) + CONNECT_TIMEOUT) →
  (k < attempts)%nat →
  connect site attempts transport w =
    match answers (local w + k)%nat with
    | Some p => Done (connected transport p,
        Build_World (instants w + 1 + k) (calls w) (local w + k + 1)%nat)
    | None => Panicked
    end.
Proof.
  intros Hd Hk. unfold connect, bind, now. rewrite Nat.add_1_r in Hd |- *.
  by rewrite (connect_loop_decided attempts _ k).
Qed.
End connect.

(** ** A worker *)

(** Turn [j] of a worker reads the instants [k + 3 * j], against the deadline,
    and the next two around the operation; the worker ends in turn [n]. *)
Definition until (instant : nat → N) (k : nat) (deadline : N) (n : nat) : Prop :=
  (∀ j, (j < n)%nat → instant (k + 3 * j)%nat < deadline) ∧ deadline ≤ instant (k + 3 * n)%nat.

Section worker.
Context {P : Type} (site : @Site P).
Abbreviation NSt := (RawNativeBenchClient P * N)%type.

Lemma worker_loop_spec {X} J Q (prepare : Prog NSt X) operation n : ∀ turns deadline acc w,
  steady J prepare Q → (∀ x, steady (Q x) (operation x) (λ _, J)) → J (local w) →
  until (site_instant site) (instants w) deadline n → (n < turns)%nat →
  ∃ w', worker_loop site turns deadline prepare operation acc w
      = Done (acc ++ samples_at (site_instant site) (instants w) n, w').
Proof.
  induction n as [|n IH]; intros [|turns] deadline acc w Hp Ho Hw [Hgo Hend] Ht; try lia;
    rewrite ?samples_at_S; cbn [worker_loop]; unfold elapsed, bind, now, ret; simpl.
  { rewrite Nat.mul_0_r, Nat.add_0_r in Hend. rewrite (proj2 (N.ltb_ge _ _) Hend).
    eexists. by rewrite app_nil_r. }
  pose proof (Hgo 0%nat ltac:(lia)) as H0. rewrite Nat.mul_0_r, Nat.add_0_r in H0.
  rewrite (proj2 (N.ltb_lt _ _) H0).
  destruct (Hp (Build_World (Datatypes.S (instants w)) (calls w) (local w)) Hw)
    as (x & w1 & -> & I1 & H1). simpl in I1.
  destruct (Ho x (Build_World (Datatypes.S (instants w1)) (calls w1) (local w1)) H1)
    as ([] & w2 & -> & I2 & H2). simpl in I2.
  set (sample := site_instant site (instants w2) -| site_instant site (instants w1)).
  destruct (IH turns deadline (acc ++ [sample])
    (Build_World (Datatypes.S (instants w2)) (calls w2) (local w2))) as (w3 & E3);
    [done|done|done| |lia|].
  { simpl. rewrite I2, I1. split.
    - intros j Hj. specialize (Hgo (Datatypes.S j) ltac:(lia)).
      replace (Datatypes.S (Datatypes.S (Datatypes.S (instants w))) + 3 * j)%nat
        with (instants w + 3 * Datatypes.S j)%nat by lia. done.
    - replace (Datatypes.S (Datatypes.S (Datatypes.S (instants w))) + 3 * n)%nat
        with (instants w + 3 * Datatypes.S n)%nat by lia. done. }
  exists w3. rewrite E3. unfold sample. simpl. rewrite I2, I1, <- app_assoc.
  replace (instants w + 2)%nat with (Datatypes.S (Datatypes.S (instants w))) by lia.
  replace (instants w + 1)%nat with (Datatypes.S (instants w)) by lia.
  by replace (instants w + 3)%nat with (Datatypes.S (Datatypes.S (Datatypes.S (instants w)))) by lia.
Qed.

(** A worker that connects at attempt [k] and makes [n] turns. *)
Lemma worker_spec {X} J Q (prepare : Prog NSt X) operation turns attempts transport deadline k n p :
  steady J prepare Q → (∀ x, steady (Q x) (operation x) (λ _, J)) →
  decided site 0 1 k (site_instant site 0 + CONNECT_TIMEOUT) → (k < attempts)%nat →
  site_answers site k = Some p → J (connected transport p, 0) →
  until (site_instant site) (1 + k) deadline n → (n < turns)%nat →
  worker site turns attempts transport deadline prepare operation =
    Done (samples_at (site_instant site) (1 + k) n).
Proof.
  intros Hp Ho Hd Hk Ha HJ Hu Ht. unfold worker, run_on, bind.
  rewrite (connect_result site transport attempts (Build_World 0 0 0%nat) k Hd Hk).
  cbn [local instants calls Nat.add]. rewrite Ha. unfold scope. cbn [local instants calls].
  destruct (worker_loop_spec J Q prepare operation n turns deadline []
    (Build_World (1 + k) 0 (connected transport p, 0))) as (w' & E); [done..|].
  simpl in E |- *. by rewrite E.
Qed.
End worker.

(** ** Joining *)

Lemma join_all_done {S} (ss : list (list N)) acc (w : World S) :
  join_all (Done <$> ss) acc w = Done (acc ++ concat ss, w).
Proof.
  revert acc. induction ss as [|s ss IH]; intros acc; cbn [fmap list_fmap join_all concat].
  - by rewrite app_nil_r.
  - unfold bind, await. by rewrite IH, <- app_assoc.
Qed.

Lemma join_all_panicked {S} (ss : list (list N)) handles acc (w : World S) :
  join_all ((Done <$> ss) ++ Panicked :: handles) acc w = Panicked.
Proof.
  revert acc. induction ss as [|s ss IH]; intros acc; cbn [fmap list_fmap app join_all]; [done|].
  unfold bind, await. by rewrite IH.
Qed.

(** ** Sixteen clients *)

(** A site where the client connects at attempt [k], to a peer in [J], and
    makes [n] turns before the deadline. *)
Record ready {P} (J : RawNativeBenchClient P * N → Prop) (turns attempts : nat)
    (transport : string) (deadline : N) (site : @Site P) (k n : nat) : Prop := {
  rd_decided : decided site 0 1 k (site_instant site 0%nat + CONNECT_TIMEOUT);
  rd_attempts : (k < attempts)%nat;
  rd_peer : ∃ p, site_answers site k = Some p ∧ J (connected transport p, 0);
  rd_until : until (site_instant site) (1 + k) deadline n;
  rd_turns : (n < turns)%nat
}.

Section fleet.
Context {P : Type} (sites : nat → @Site P) (turns attempts : nat) (transport : string).
Context (started : N) (J : RawNativeBenchClient P * N → Prop) (k n : nat → nat).
Hypothesis Hready : ∀ i,
  ready J turns attempts transport (started + MEASURE_DURATION) (sites i) (k i) (n i).

(** The samples of client [i]. *)
Definition client_samples (i : nat) : list N := samples_at (site_instant (sites i)) (1 + k i) (n i).

Lemma spawn_clients_done {X} Q (prepare : nat → Prog (RawNativeBenchClient P * N) X) operation :
  (∀ i, steady J (prepare i) Q) → (∀ i x, steady (Q x) (operation i x) (λ _, J)) →
  spawn_clients sites turns attempts transport started prepare operation =
    Done <$> (client_samples <$> seq 0 CONCURRENT_CLIENTS).
Proof.
  intros Hp Ho. unfold spawn_clients. rewrite <- list_fmap_compose. apply list_fmap_ext.
  intros _ i _. destruct (Hready i) as [Hd Ha (p & Hpa & HJ) Hu Ht].
  by eapply (worker_spec (sites i) J Q).
Qed.
End fleet.

Lemma joined_report {P S} (here : @Site P) name transport notes started ss (w : World S) :
  len (concat ss) * 100 ≤ U64_MAX →
  let m := summarize_joined_samples here name transport notes started (Done <$> ss) w in
  (concat ss = [] → m = Panicked) ∧
  (concat ss ≠ [] → ∃ r w', m = Done (r, w') ∧
     summary (concat ss) (site_instant here (instants w) -| started) r).
Proof.
  intros Hfit m.
  assert (m = match summarize name transport notes (concat ss)
                      (site_instant here (instants w) -| started) 0 with
              | Some r => Done (r, Build_World (Datatypes.S (instants w)) (calls w) (local w))
              | None => Panicked
              end) as ->.
  { unfold m, summarize_joined_samples, bind at 1. by rewrite join_all_done, app_nil_l. }
  split; [by intros ->|]. intros Hne.
  destruct (summarize_spec name transport notes (concat ss)
    (site_instant here (instants w) -| started) 0 Hne Hfit) as (r & Er & _ & Hr).
  rewrite Er. eauto.
Qed.

(** ** The server among other clients *)

Section shared.
Context `{Engine.HashOrder, ShardEnv} (maxlen : N).

(** The peer of one of several clients: its connection, and the state in which
    the server will take each of its requests, which others also change. *)
Record Peer := { p_id : N; p_conn : Conn; p_states : nat → AppState }.

Definition shared (clk : Engine.Clock) (bs : bytes) (p : Peer) : option (bytes * Peer) :=
  '(out, (c, _)) ← loopback maxlen (p_id p) clk bs (p_conn p, p_states p 0%nat);
  Some (out, {| p_id := p_id p; p_conn := c; p_states := λ i, p_states p (S i) |}).

(** A client between two requests, all of whose states satisfy [J]. *)
Definition among (J : AppState → Prop) (s : RawNativeBenchClient Peer * N) : Prop :=
  incoming s.1 = [] ∧ next_request_id s.1 ≤ U64_MAX ∧ idle (p_conn (peer s.1)) ∧
  ∀ i, J (p_states (peer s.1) i).

Lemma shared_steady lim (J : AppState → Prop) clocks command payload expected :
  askable lim maxlen command payload → (∀ st, J st → st_ok lim st) →
  (∀ i m st r st', J st → st_ok lim st' →
    Server.execute_native_payload_with_metrics (clocks i) m payload st = Some (r, st') →
    r = expected) →
  steady (among J) (request_is shared clocks command payload expected) (λ _, among J).
Proof.
  intros [Hok Hfits Hbound] HJ HQ w (Hin & Hid & Hidle & Hst).
  set (p := peer (local w).1) in *.
  destruct (loopback_request lim maxlen (p_id p) (clocks (calls w)) _ (p_conn p)
    (p_states p 0%nat) (HJ _ (Hst 0%nat)) Hidle (Hok _ Hid) Hfits Hbound)
    as (m & r & st' & c' & Hreply & Hidle' & Hex & Hst' & Hresp).
  cbn [rq_request_id rq_command rq_payload] in *.
  pose proof (HQ (calls w) m _ r st' (Hst 0%nat) Hst' Hex) as ->.
  unfold request_is, bind at 1.
  rewrite (request_answered shared clocks command payload expected
    {| p_id := p_id p; p_conn := c'; p_states := λ i, p_states p (S i) |} w (Hok _ Hid) Hresp Hin).
  - eexists tt, _. unfold assert. rewrite bool_decide_eq_true_2 by done.
    split; [reflexivity|]. split; [reflexivity|]. split_and!; cbn; [done|apply wrap_add_le|done|].
    intros i. apply Hst.
  - unfold shared. fold p. rewrite Hreply. reflexivity.
Qed.
End shared.

Section scenario.
Context `{Engine.HashOrder, ShardEnv}.
Abbreviation lim := Engine.EngineLimits_default.
Abbreviation maxlen := (8 * 1024 * 1024).
Abbreviation key := (as_bytes "concurrent-get-key").

Definition cached : AppState → Prop := stored lim (Engine.EntryId_new "bench" key).

(** What happens to the server while the readers run: a [get] of the key on any
    connection, at any clock, or a tick of the cleanup worker. *)
Inductive busy : AppState → AppState → Prop :=
| busy_get clk m st r st' :
    (m < Server.Metrics.METRIC_SHARD_COUNT)%nat →
    Server.execute_native_payload_with_metrics clk m (native_get_payload key) st = Some (r, st') →
    busy st st'
| busy_tick clk max_entries st : busy st (Server.expiration_tick clk max_entries st).

Lemma busy_cached st st' : cached st → rtc busy st st' → cached st'.
Proof.
  intros Hst. induction 1 as [|st st1 st2 Hstep _ IH]; [done|]. apply IH. clear IH. revert Hst.
  destruct Hstep as [clk m st r st1 Hm Hex|clk n st]; intros Hst; [|by apply tick_stored].
  destruct (total_execute lim clk m Hm (native_get_payload key)) with (st := st)
    as (r' & st2' & Hex' & Hok & _); [done|apply Hst|].
  rewrite Hex in Hex'. injection Hex' as <- <-.
  by eapply (get_stored lim (λ _, clk) key 0%nat).
Qed.

Section clocks.
Context (clocks : nat → Engine.Clock).

Lemma setup_steady :
  steady (among default_server) (put_stored (shared maxlen) clocks key Metadata_default)
    (λ _, among default_server).
Proof.
  apply (shared_steady maxlen lim); [|apply default_server_ok|].
  - split; [|by vm_compute..]. intros rid Hrid. split_and!; [done|concrete_ok|done|by vm_compute].
  - intros i m st r st' H1 H2 H3. by eapply (put_first clocks key).
Qed.

Lemma hit_steady st1 :
  cached st1 →
  steady (among (rtc busy st1)) (get_hit (shared maxlen) clocks key) (λ _, among (rtc busy st1)).
Proof.
  intros Hst1. apply (shared_steady maxlen lim).
  - split; [|by vm_compute..]. intros rid Hrid. split_and!; [done|concrete_ok|done|by vm_compute].
  - intros st Hr. apply (busy_cached _ _ Hst1 Hr).
  - intros i m st r st' H1 H2 H3. eapply get_stored; [by eapply busy_cached|done|done].
Qed.
End clocks.

(** The request of the setup client, and what it does to a new server. *)
Definition setup_frame : RequestFrame :=
  {| rq_request_id := 1; rq_command := Put;
     rq_payload := native_put_payload key Metadata_default value |}.

Lemma setup_caches clk conn st0 :
  default_server st0 →
  ∃ out c st1, loopback maxlen conn clk (request_bytes setup_frame) (Conn_new, st0)
      = Some (out, (c, st1)) ∧ cached st1.
Proof.
  intros Hst0.
  destruct (loopback_request lim maxlen conn clk setup_frame Conn_new st0 (default_server_ok st0 Hst0))
    as (m & r & st1 & c & Hl & _ & Hex & Hst1 & _);
    [done|split_and!; [done|concrete_ok|done|by vm_compute]|by vm_compute..|].
  eexists _, c, st1. split; [exact Hl|].
  by destruct (put_first (λ _, clk) key 0 m st0 r st1) as [_ Hs].
Qed.
End scenario.

(** ** Claims *)

(** C32: connecting ends.  The loop takes its deadline, then tries at once, and
    sleeps twenty milliseconds before each further attempt.  When the clock does
    not go back and every sleep takes its time, connecting ends within the first
    251 attempts: with a client on the first connection that is accepted, or in
    a panic, the last attempt having failed at or after the deadline of five
    seconds; in both cases all the attempts before the last failed, and the
    clock read after each of them was before the deadline. *)
Theorem connect_ends {P} (site : @Site P) attempts transport (w : World nat) :
  let deadline := site_instant site (instants w) + CONNECT_TIMEOUT in
  site_instant site (instants w) ≤ site_instant site (instants w + 1)%nat →
  paced site (instants w + 1) → (250 < attempts)%nat →
  ∃ k, (k ≤ 250)%nat ∧
    (∀ j, (j < k)%nat → site_answers site (local w + j)%nat = None ∧
       site_instant site (instants w + 1 + j)%nat < deadline) ∧
    match site_answers site (local w + k)%nat with
    | Some p => connect site attempts transport w =
        Done (connected transport p, Build_World (instants w + 1 + k) (calls w) (local w + k + 1)%nat)
    | None => connect site attempts transport w = Panicked ∧
        deadline ≤ site_instant site (instants w + 1 + k)%nat
    end.
Proof.
  intros deadline H0 Hp Ha.
  destruct (connect_decides site (local w) (instants w + 1) (site_instant site (instants w)) Hp H0)
    as (k & Hk & Hd).
  exists k. split; [done|]. split; [intros j Hj; by apply Hd|].
  pose proof (connect_result site transport attempts w k Hd ltac:(lia)) as Hc.
  destruct (site_answers site (local w + k)%nat) as [p|] eqn:E; [done|].
  split; [done|]. by apply Hd.
Qed.

(** A site whose first two attempts fail, the first at once. *)
Definition demo_slow : @Site unit :=
  {| site_instant := λ i, 20000000 * N.of_nat (i - 1); site_clocks := λ _, Engine.manual_clock 0;
     site_answers := λ k, if (k <? 2)%nat then None else Some tt |}.

Lemma connect_ends_witness :
  connect demo_slow 251 "loopback_tcp" (Build_World 0 0 0%nat) =
    Done (connected "loopback_tcp" tt, Build_World 3 0 3%nat).
Proof.
  destruct (connect_ends demo_slow 251 "loopback_tcp" (Build_World 0 0 0%nat)) as (k & Hk & Hf & Hc).
  - vm_compute. discriminate.
  - intros j Hj. unfold demo_slow, site_instant. cbn [instants] in Hj. lia.
  - lia.
  - cbn [local instants calls Nat.add] in Hf, Hc. destruct k as [|[|[|k]]].
    + destruct Hc as [_ Hc]. vm_compute in Hc. exfalso. by apply Hc.
    + destruct Hc as [_ Hc]. vm_compute in Hc. exfalso. by apply Hc.
    + exact Hc.
    + destruct (Hf 2%nat ltac:(lia)) as [Ha _]. discriminate Ha.
Defined.

Lemma client_samples_len {P} (sites : nat → @Site P) k n i :
  len (client_samples sites k n i) = N.of_nat (n i).
Proof. unfold client_samples, samples_at, len. by rewrite length_fmap, length_seq. Qed.

Lemma all_samples_len {P} (sites : nat → @Site P) k n l :
  len (concat (client_samples sites k n <$> l)) = total ((λ i, N.of_nat (n i)) <$> l).
Proof.
  induction l as [|i l IH]; [done|]. cbn [fmap list_fmap concat total foldr].
  rewrite len_app, client_samples_len, IH. done.
Qed.

(** C30: the sixteen concurrent readers pass and are all counted.  The setup
    client stores the value on a server with the default configuration, which
    brings it to a state [st1]; each reader connects, at its own pace, and each
    of its requests reaches its connection whole and finds the server in any
    state reached from [st1] by reads of the key on any connections and cleanup
    ticks.  Then no assertion of any reader fails, and the report is that of
    the samples of all readers together: it counts all their turns, its
    percentiles are order statistics of all the samples, and its time is the
    one from the start to the clock the main task reads after it has joined the
    readers; if no reader makes a turn within the second, the report panics. *)
Theorem concurrent_get_passes `{Engine.HashOrder, ShardEnv} here turns attempts transport
    conn st0 (w : World nat) :
  let started := site_instant here (instants w) in
  default_server st0 →
  ∃ out c st1,
    loopback (8 * 1024 * 1024) conn (site_clocks here (calls w)) (request_bytes setup_frame)
      (Conn_new, st0) = Some (out, (c, st1)) ∧
    ∀ sites k n,
      let samples := concat (client_samples sites k n <$> seq 0 CONCURRENT_CLIENTS) in
      let m := bench_native_concurrent_get (shared (8 * 1024 * 1024)) here sites turns attempts
        transport
        (connected transport {| p_id := conn; p_conn := Conn_new; p_states := λ _, st0 |}) w in
      (∀ i, ready (among (rtc busy st1)) turns attempts transport (started + MEASURE_DURATION)
         (sites i) (k i) (n i)) →
      len samples * 100 ≤ U64_MAX →
      (samples = [] → m = Panicked) ∧
      (samples ≠ [] → ∃ r w', m = Done (r, w') ∧
         summary samples (site_instant here (instants w + 1)%nat -| started) r ∧
         iterations r = total ((λ i, N.of_nat (n i)) <$> seq 0 CONCURRENT_CLIENTS)).
Proof.
  intros started Hdef.
  destruct (setup_caches (site_clocks here (calls w)) conn st0 Hdef) as (out & c & st1 & Hl & Hst1).
  exists out, c, st1. split; [exact Hl|]. intros sites k n samples m Hready Hfit.
  destruct (setup_steady (site_clocks here) (Build_World (instants w) (calls w)
    (connected transport {| p_id := conn; p_conn := Conn_new; p_states := λ _, st0 |}, 0)))
    as ([] & w1 & E1 & I1 & _); [split_and!; [reflexivity|discriminate|repeat split|intros i; exact Hdef]|].
  assert (∃ w2 : World nat, instants w2 = instants w + 1 ∧ m =
    summarize_joined_samples here "concurrent_get_16" transport "16_clients_cached_hit" started
      (Done <$> (client_samples sites k n <$> seq 0 CONCURRENT_CLIENTS)) w2)%nat as (w2 & I2 & Em).
  { eexists (Build_World (Datatypes.S (instants w1)) (calls w1) (local w)). split.
    { cbn [instants]. rewrite I1. cbn [instants]. lia. }
    unfold m, bench_native_concurrent_get, setup_put, bind at 1, scope.
    cbn [for_each]. unfold bind at 1. rewrite E1. unfold ret, bind at 1, now.
    cbn [instants calls local]. rewrite I1. cbn [instants]. fold started.
    rewrite (spawn_clients_done sites turns attempts transport started (among (rtc busy st1)) k n
      Hready (λ _ : unit, among (rtc busy st1))); [reflexivity|by intros i; apply steady_ret|].
    intros i _. by apply hit_steady. }
  rewrite Em. destruct (joined_report here "concurrent_get_16" transport "16_clients_cached_hit"
    started (client_samples sites k n <$> seq 0 CONCURRENT_CLIENTS) w2 Hfit) as [Hnone Hsome].
  split; [exact Hnone|]. intros Hne. destruct (Hsome Hne) as (r & w' & E & Hr).
  rewrite I2 in Hr. exists r, w'. split; [done|]. split; [done|].
  rewrite (sum_iterations _ _ _ Hr). apply all_samples_len.
Qed.

(** Sixteen readers, each of which finds the server after a cleanup tick. *)
Lemma concurrent_get_passes_witness :
  ∃ here sites setup r w', @bench_native_concurrent_get _
    (@shared Engine.canonical_order demo_env (8 * 1024 * 1024)) here sites 2 1 "loopback_tcp" setup
    (Build_World 0 0 0%nat) = Done (r, w') ∧ iterations r = 16.
Proof.
  destruct (Server.from_limits (64 * 1024 * 1024) (8 * 1024 * 1024)) as [st0|] eqn:E0;
    [|discriminate E0].
  set (here := {| site_instant := demo_instant; site_clocks := λ _, Engine.manual_clock 0;
    site_answers := λ _, None |} : @Site Peer).
  destruct (@concurrent_get_passes Engine.canonical_order demo_env here 2 1 "loopback_tcp"
    0 st0 (Build_World 0 0 0%nat) E0) as (out & c & st1 & _ & Hall).
  set (st2 := Server.expiration_tick (Engine.manual_clock 5) 128 st1).
  set (site := {| site_instant := demo_instant; site_clocks := λ _, Engine.manual_clock 0;
    site_answers := λ _, Some {| p_id := 1; p_conn := Conn_new; p_states := λ _, st2 |} |}).
  destruct (Hall (λ _, site) (λ _, 0%nat) (λ _, 1%nat)) as [_ Hs].
  - intros i. split.
    + split; [lia|discriminate].
    + lia.
    + eexists. split; [reflexivity|]. split_and!; [reflexivity|discriminate|repeat split|].
      intros j. apply rtc_once. exact (busy_tick (Engine.manual_clock 5) 128 st1).
    + split; [intros [|j] Hj; [vm_compute; reflexivity|lia]|vm_compute; discriminate].
    + lia.
  - vm_compute. discriminate.
  - destruct Hs as (r & w' & E & _ & Hi); [vm_compute; discriminate|].
    eexists _, _, _, r, w'. split; [exact E|]. exact Hi.
Defined.
End BenchFleetSpec.
