(* ===== verification/BenchMain.v ===== *)
(** * BenchMain: the benchmark program from start to table

    [src/bin/cachebox-bench.rs]: the scenarios of the runtime and of the
    official client, the loopback servers, [async_main], and the table it
    prints.  [f64] is IEEE 754 binary64 as [SpecFloat] has it; [{:.2}] prints
    the exact value of the number rounded to two decimals, half to even. *)

From Stdlib Require Import SpecFloat.
From S2P Require Import Prelude Bytes Protocol Engine Sharded Addr AddrShow Client.
From S2P Require Import Bench BenchNative BenchFleet.

Module BenchMain.
Import Protocol Codec Addr AddrShow Bench BenchNative BenchFleet.
Import Client(NativeClient, Call, GetResult, Hit).
Import Sharded(ShardEnv).

(** ** The table *)

(** [n as f64] *)
Definition f64_of (n : N) : spec_float := binary_normalize 53 1024 (Z.of_N n) 0 false.

(** [Duration::as_secs_f64] *)
Definition as_secs_f64 (d : N) : spec_float :=
  SFadd 53 1024 (f64_of (d / 1000000000))
    (SFdiv 53 1024 (f64_of (d mod 1000000000)) (f64_of 1000000000)).

(** [iterations as f64 / elapsed.as_secs_f64()] *)
Definition throughput_f64 (q : N * N) : spec_float :=
  SFdiv 53 1024 (f64_of q.1) (as_secs_f64 q.2).

(** [n / d], to the nearest integer, half to even. *)
Definition round_half_even (n d : N) : N :=
  let q := n / d in
  let r := n mod d in
  if (2 * r <? d) || ((2 * r =? d) && N.even q) then q else q + 1.

(** [m * 2 ^ e] in hundredths, rounded. *)
Definition hundredths (m : positive) (e : Z) : N :=
  match e with
  | Zneg p => round_half_even (Npos m * 100) (2 ^ Npos p)
  | _ => Npos m * 2 ^ Z.to_N e * 100
  end.

Definition two_digits (n : N) : string := (if n <? 10 then "0" else "") +:+ pretty n.

(** [format!("{:.2}", x)] *)
Definition show_fixed2 (x : spec_float) : string :=
  let sign (s : bool) : string := if s then "-"%string else ""%string in
  match x with
  | S754_zero s => sign s +:+ "0.00"
  | S754_infinity s => sign s +:+ "inf"
  | S754_nan => "NaN"
  | S754_finite s m e =>
    let h := hundredths m e in
    sign s +:+ pretty (h / 100) +:+ "." +:+ two_digits (h mod 100)
  end.

Definition table_header : string :=
  "scenario transport iterations p50_ns p95_ns p99_ns throughput_ops_s memory_used_bytes cost_score_total notes".

Definition table_line (r : BenchResult) : string :=
  name r +:+ " " +:+ transport r +:+ " " +:+ pretty (iterations r) +:+ " " +:+
  pretty (p50_ns r) +:+ " " +:+ pretty (p95_ns r) +:+ " " +:+ pretty (p99_ns r) +:+ " " +:+
  show_fixed2 (throughput_f64 (throughput_ops_s r)) +:+ " " +:+
  pretty (Bench.memory_used_bytes r) +:+ " " +:+ pretty (Bench.cost_score_total r) +:+ " " +:+ notes r.

Example throughput_printed :
  (λ q, show_fixed2 (throughput_f64 q)) <$>
    [(1000, 1500000000); (1, 3000000000); (123457, 1000000000); (1, 8000000000); (3, 8000000000);
     (0, 1); (5, 0)]
  = ["666.67"; "0.33"; "123457.00"; "0.12"; "0.38"; "0.00"; "inf"]%string.
Proof. vm_compute. reflexivity. Qed.

(** ** The runtime *)

Section runtime.
Context (instant : nat → N) (turns : nat).

(** [tokio::spawn(async {}).await.expect(..)]: the empty task ends. *)
Definition spawn_ready : Prog unit unit := ret tt.

Definition bench_tokio_spawn_ready : Prog unit BenchResult :=
  _ <~ warmup spawn_ready;;
  measure instant turns "tokio_spawn_ready" "process" "spawn_empty_task_and_join" spawn_ready.

(** The channel: what was sent and not received.  The spawned task sends; then
    there is something to receive. *)
Definition spawn_send_receive : Prog (list bytes) unit :=
  queue <~ read;;
  _ <~ assert (bool_decide (length queue < 1024)%nat);;
  _ <~ write (queue ++ [[]]);;
  queue <~ read;;
  match queue with
  | [] => expect None
  | _ :: queue => write queue
  end.

Definition bench_tokio_spawn_mpsc_response : Prog (list bytes) BenchResult :=
  _ <~ warmup spawn_send_receive;;
  measure instant turns "tokio_spawn_mpsc_response" "process" "spawn_task_send_response_vec"
    spawn_send_receive.
End runtime.

(** ** The official client *)

#[export] Instance GetResult_eq_dec : EqDecision GetResult.
Proof. solve_decision. Defined.

Section official.
Context (instant : nat → N) (turns : nat).

(** [client.call(..).await.expect(..)] *)
Definition official {A} (m : Call A) : Prog NativeClient A := λ w,
  match m (local w) with
  | Some (Ok a, c) => Done (a, Build_World (instants w) (calls w) c)
  | _ => Panicked
  end.

Definition official_put (key : bytes) : Prog NativeClient unit :=
  _ <~ official (Client.put "default" key Metadata_default value);; ret tt.

Definition official_get_hit (key : bytes) : Prog NativeClient unit :=
  r <~ official (Client.get "default" key);;
  assert (bool_decide (r = Hit value)).

Definition official_sequential_get_32_round (key : bytes) : Prog NativeClient unit :=
  times PIPELINE_DEPTH (official_get_hit key).

Definition official_pipelined_get_32_round (key : bytes) : Prog NativeClient unit :=
  responses <~ official (Client.request_pipelined (replicate PIPELINE_DEPTH (Get, RGet "default" key)));;
  _ <~ assert (bool_decide (length responses = PIPELINE_DEPTH));;
  assert (forallb (λ response, bool_decide (response = PHit value)) responses).

(** The measurement of both scenarios: a round gives a sample per request. *)
Definition measure_rounds (name transport notes : string) (round : Prog NativeClient unit) :
    Prog NativeClient BenchResult :=
  started <~ now instant;;
  samples <~ measure_loop instant turns started (ret tt) (λ _, round)
    (λ d, replicate PIPELINE_DEPTH (d / N.of_nat PIPELINE_DEPTH)) [];;
  spent <~ elapsed instant started;;
  expect (summarize name transport notes samples spent 0).

Definition bench_official_sequential_get_32 (transport : string) : Prog NativeClient BenchResult :=
  let key := as_bytes "official-sequential-get-key" in
  _ <~ official_put key;;
  _ <~ warmup (official_sequential_get_32_round key);;
  measure_rounds "client_sequential_get_32" transport "official_client_32_sequential_gets"
    (official_sequential_get_32_round key).

Definition bench_official_pipelined_get_32 (transport : string) : Prog NativeClient BenchResult :=
  let key := as_bytes "official-pipelined-get-key" in
  _ <~ official_put key;;
  _ <~ warmup (official_pipelined_get_32_round key);;
  measure_rounds "client_pipelined_get_32" transport "official_client_32_pipelined_gets"
    (official_pipelined_get_32_round key).
End official.

(** ** The loopback servers *)

(** The outcomes of the calls that open the listeners. *)
Record LoopbackOs := {
  lo_bind : bool;
  lo_nonblocking : bool;
  lo_local_addr : option SocketAddr;
  lo_bind_unix : bool;
  lo_temp_dir : string;
  lo_pid : N;
  lo_nanos : N
}.

(** [expect] outside a scenario. *)
Definition expected {A} (o : option A) : Run A :=
  match o with Some a => Done a | None => Panicked end.

(** [NativeLoopbackServer::start]: the address of the listener, which a thread
    then serves. *)
Definition NativeLoopbackServer_start (os : LoopbackOs) : Run string :=
  if lo_bind os && lo_nonblocking os
  then expected (addr_to_string <$> lo_local_addr os) else Panicked.

(** [Path::join] of a directory and a file name *)
Definition path_join (dir file : string) : string :=
  match list.last (as_bytes dir) with
  | None => file
  | Some b => if bool_decide (b = x2f) then dir +:+ file else dir +:+ "/" +:+ file
  end.

Definition native_unix_socket_path (os : LoopbackOs) (name : string) : string :=
  path_join (lo_temp_dir os) ("cachebox-" +:+ name +:+ "-" +:+ pretty (lo_pid os) +:+ "-" +:+
    pretty (lo_nanos os) +:+ ".sock").

Definition NativeUnixLoopbackServer_start (os : LoopbackOs) : Run string :=
  if lo_bind_unix os then Done (native_unix_socket_path os "bench") else Panicked.

(** ** [async_main] *)

Fixpoint sequence {S A} (l : list (Prog S A)) : Prog S (list A) :=
  match l with
  | [] => ret []
  | m :: l => a <~ m;; rest <~ sequence l;; ret (a :: rest)
  end.

Section main.
Context `{Engine.HashOrder, ShardEnv} {P : Type}.
Context (reply : Engine.Clock → bytes → P → option (bytes * P)).
Context (os : LoopbackOs) (turns attempts : nat).
(** The main task with its connections over TCP and over the Unix socket, the
    spawned clients of each, the scenarios in the process, and the official
    clients once connected. *)
Context (here : @Site P) (unix_answers : nat → option P) (tcp_sites unix_sites : nat → @Site P).
Context (processes : nat → (nat → N) * (nat → Engine.Clock)).
Context (official_tcp official_unix : option NativeClient).

Definition here_unix : @Site P :=
  {| site_instant := site_instant here; site_clocks := site_clocks here;
     site_answers := unix_answers |}.

Definition process_rows : list (Run BenchResult) :=
  let i k := (processes k).1 in
  let c k := (processes k).2 in
  [bench_engine_get (i 0%nat) (c 0%nat) turns;
   bench_engine_put (i 1%nat) (c 1%nat) turns;
   bench_engine_tag_invalidate_8 (i 2%nat) (c 2%nat) turns;
   bench_protocol_decode_get (i 3%nat) turns;
   bench_protocol_encode_hit (i 4%nat) turns;
   bench_engine_get_ref_encode (i 5%nat) (c 5%nat) turns;
   bench_sharded_get_ref_encode (i 6%nat) (c 6%nat) turns;
   bench_sharded_get_ref_no_access_encode (i 7%nat) (c 7%nat) turns].

Definition native_rows (site : @Site P) : list (Prog (RawNativeBenchClient P * N) BenchResult) :=
  let i := site_instant site in
  let c := site_clocks site in
  [bench_native_single_key_get reply i c turns;
   bench_native_single_key_put reply i c turns;
   bench_native_batch_get reply i c turns;
   bench_native_lease_contention reply i c turns;
   bench_native_tag_invalidate_empty reply i c turns;
   bench_native_tag_invalidate_8 reply i c turns;
   bench_native_tag_invalidation reply i c turns;
   bench_native_ttl_heavy_writes reply i c turns;
   bench_native_pipelined_get reply i c turns].

Definition official_rows (instant : nat → N) (transport : string) :
    list (Prog NativeClient BenchResult) :=
  [bench_official_sequential_get_32 instant turns transport;
   bench_official_pipelined_get_32 instant turns transport].

Definition tcp_rows : list (Prog nat BenchResult) :=
  [bench_native_concurrent_get_tcp reply here tcp_sites turns attempts;
   bench_native_concurrent_get_distinct_tcp reply here tcp_sites turns attempts;
   bench_native_concurrent_put_tcp reply here tcp_sites turns attempts;
   bench_native_short_connection_get_tcp reply here turns attempts].

Definition unix_rows : list (Prog nat BenchResult) :=
  [bench_native_concurrent_get_unix reply here_unix unix_sites turns attempts;
   bench_native_concurrent_get_distinct_unix reply here_unix unix_sites turns attempts;
   bench_native_concurrent_put_unix reply here_unix unix_sites turns attempts;
   bench_native_short_connection_get_unix reply here_unix turns attempts].

(** The scenarios over one transport, with its two clients connected. *)
Definition transport_rows (site : @Site P) (transport : string)
    (raw : RawNativeBenchClient P) (client : NativeClient) (fleet : list (Prog nat BenchResult)) :
    Prog nat (list BenchResult) :=
  natives <~ scope (raw, 0) (sequence (native_rows site));;
  officials <~ scope client (sequence (official_rows (site_instant site) transport));;
  fleets <~ sequence fleet;;
  ret (natives ++ officials ++ fleets).

Definition async_main : Prog nat (list BenchResult) :=
  _ <~ await (NativeLoopbackServer_start os);;
  native_client <~ connect here attempts "loopback_tcp";;
  official_client <~ expect official_tcp;;
  in_process <~ sequence (await <$> process_rows);;
  ready <~ scope tt (bench_tokio_spawn_ready (site_instant here) turns);;
  mpsc <~ scope [] (bench_tokio_spawn_mpsc_response (site_instant here) turns);;
  tcp <~ transport_rows here "loopback_tcp" native_client official_client tcp_rows;;
  _ <~ await (NativeUnixLoopbackServer_start os);;
  unix <~ scope 0%nat (
    native_unix_client <~ connect here_unix attempts "loopback_unix";;
    official_unix_client <~ expect official_unix;;
    transport_rows here_unix "loopback_unix" native_unix_client official_unix_client unix_rows);;
  ret (in_process ++ [ready; mpsc] ++ tcp ++ unix).

(** What the program prints, unless it panics. *)
Definition main : Run (list string) :=
  match run_on async_main 0%nat with
  | Done rows => Done (table_header :: (table_line <$> rows))
  | Panicked => Panicked
  | Running => Running
  end.
End main.
End BenchMain.
