(* ===== verification/BenchMainSpec.v ===== *)
(** * BenchMainSpec: the scenarios of the official client, and the table

    Against a peer that answers each request, the rounds of a pipelined
    scenario in any order, the two scenarios of the official client pass and
    report a sample for each request; the rows of the table are the scenarios
    in the order of [async_main]. *)

From S2P Require Import Prelude Bytes Protocol ProtocolFacts ProtocolSpec Engine Sharded.
From S2P Require Import Client ClientSpec Bench BenchSpec BenchNative BenchFleet BenchMain.

Module BenchMainSpec.
Import Protocol Codec ProtocolFacts ProtocolSpec.
Import ClientSpec Bench BenchSpec BenchNative BenchFleet BenchMain.
Import Sharded(ShardEnv).
Import Client(NativeClient, next_request_id, accepts, incoming, next_id).

(** ** A peer that answers *)

(** The response to the get with id [id], and those to [n] gets from there on. *)
Definition hit_to (id : N) : ResponseFrame :=
  {| rs_request_id := id; rs_command := Get; rs_payload := PHit value |}.

Fixpoint hits (id : N) (n : nat) : list ResponseFrame :=
  match n with
  | 0%nat => []
  | S n => hit_to id :: hits (next_id id) n
  end.

Definition stored_to (id evicted : N) : ResponseFrame :=
  {| rs_request_id := id; rs_command := Put; rs_payload := PStored evicted |}.

(** What the peer sends in answer to rounds of gets, each in the order [R]
    allows. *)
Inductive answered (R : relation (list ResponseFrame)) : N → nat → bytes → Prop :=
| answered_nil id : answered R id 0 []
| answered_round id k rs bs :
    R rs (hits id PIPELINE_DEPTH) → answered R (id_at id PIPELINE_DEPTH) k bs →
    answered R id (S k) (concat (response_bytes <$> rs) ++ bs).

Definition id_ok (id : N) : Prop := 1 ≤ id ≤ U64_MAX.

Lemma id_at_next id n : id_ok id → id_at (next_id id) n = id_at id (S n).
Proof.
  intros Hid. rewrite <- (id_at_0 id) at 1 by done. rewrite next_id_at. unfold id_at.
  rewrite N.add_sub, N.Div0.add_mod_idemp_l. do 2 f_equal. lia.
Qed.

Lemma next_id_ok id : id_ok (next_id id).
Proof. unfold id_ok, next_id, wrap_add, U64_MAX. zify. Z.to_euclidean_division_equations. lia. Qed.

Lemma hit_ok id : id_ok id → response_frame_ok (hit_to id).
Proof. intros [_ Hid]. split; [exact Hid|]. concrete_ok. Qed.

Lemma hits_ok id n : id_ok id → Forall response_frame_ok (hits id n).
Proof.
  revert id. induction n as [|n IH]; intros id Hid; constructor; [by apply hit_ok|].
  apply IH, next_id_ok.
Qed.

Lemma hits_payload id n r : r ∈ hits id n → rs_payload r = PHit value.
Proof.
  revert id. induction n as [|n IH]; intros id; simpl; [by intros ?%not_elem_of_nil|].
  intros [->|Hr]%elem_of_cons; [done|by eapply IH].
Qed.

(** ** The rounds *)

Section rounds.
Context (key : bytes).
Hypothesis Hkey : request_ok (RGet "default" key).
Hypothesis Hlen : len (encode_request_payload (RGet "default" key) []) ≤ U32_MAX.

Abbreviation gets n := (replicate n (Get, RGet "default" key)).

(** The bytes of one get. *)
Definition get_len : N := HEADER_LEN + len (encode_request_payload (RGet "default" key) []).

Lemma hits_issued id n :
  zip_with response_to (issued id (gets n)) (replicate n (PHit value)) = hits id n.
Proof. revert id. induction n as [|n IH]; intros id; simpl; [done|]. by rewrite IH. Qed.

Lemma issued_ok id n : id_ok id → Forall request_frame_ok (issued id (gets n)).
Proof.
  revert id. induction n as [|n IH]; intros id Hid; simpl; constructor.
  - destruct Hid. by split_and!.
  - apply IH, next_id_ok.
Qed.

Lemma issued_len id n : len (concat (request_bytes <$> issued id (gets n))) = N.of_nat n * get_len.
Proof.
  revert id. induction n as [|n IH]; intros id; [done|].
  cbn [replicate issued fmap list_fmap concat]. rewrite len_app, IH.
  unfold request_bytes. rewrite len_frame_bytes. cbn [rq_payload]. unfold get_len. lia.
Qed.

(** The client has [j] gets of a round and [k] rounds ahead of it. *)
Record ahead (R : relation (list ResponseFrame)) (k j : nat) (c : NativeClient) : Prop := {
  ah_id : id_ok (next_request_id c);
  ah_max : U32_MAX ≤ Client.max_payload_len c;
  ah_accepts : N.of_nat (k * PIPELINE_DEPTH + j) * get_len ≤ accepts c;
  ah_incoming : ∃ bs, incoming c =
      concat (response_bytes <$> hits (next_request_id c) j) ++ bs ∧
    answered R (id_at (next_request_id c) j) k bs
}.

Lemma get_hit_steady R k j :
  steady (ahead R k (S j)) (official_get_hit key) (λ _, ahead R k j).
Proof.
  intros w [Hid Hmax Hacc (bs & Hin & Hbs)]. cbn [hits fmap list_fmap concat] in Hin.
  rewrite <- app_assoc in Hin. unfold official_get_hit, bind, official, Client.get, Client.get_raw, Client.cbind.
  erewrite request_spec; [|..|exact Hin]; try done.
  - cbn [hit_to rs_payload payload_result]. simpl.
    eexists tt, _. split; [reflexivity|]. split; [done|]. cbn [local].
    split; cbn [client_after next_request_id Client.max_payload_len accepts incoming].
    + apply next_id_ok.
    + done.
    + unfold request_bytes. rewrite len_frame_bytes. cbn [rq_payload]. fold get_len. lia.
    + exists bs. split; [done|]. by rewrite id_at_next.
  - destruct Hid. by split_and!.
  - unfold request_bytes. rewrite len_frame_bytes. cbn [rq_payload]. fold get_len. lia.
  - by apply hit_ok.
  - etrans; [|exact Hmax]. by vm_compute.
Qed.

(** Between rounds. *)
Lemma ahead_round k c : ahead eq (S k) 0 c → ahead eq k PIPELINE_DEPTH c.
Proof.
  intros [Hid Hmax Hacc (bs & Hin & Hbs)]. split; [done|done| |].
  - etrans; [|exact Hacc]. apply N.mul_le_mono_r. lia.
  - simpl in Hin. rewrite id_at_0 in Hbs by done. inversion Hbs as [|id k' rs bs' Hrs Hbs' E1 E2 E3].
    exists bs'. by rewrite Hin, <- E3, Hrs.
Qed.

Lemma sequential_steady k :
  steady (ahead eq (S k) 0) (official_sequential_get_32_round key) (λ _, ahead eq k 0).
Proof.
  unfold official_sequential_get_32_round.
  eapply (steady_mono _ (ahead eq k (PIPELINE_DEPTH + 0)) _ (λ _, ahead eq k 0)).
  - apply (steady_times_counted (ahead eq k)). intros j. apply get_hit_steady.
  - intros c. rewrite Nat.add_0_r. apply ahead_round.
  - done.
Qed.

Lemma pipelined_steady k :
  steady (ahead Permutation (S k) 0) (official_pipelined_get_32_round key)
    (λ _, ahead Permutation k 0).
Proof.
  intros w [Hid Hmax Hacc (bs & Hin & Hbs)]. cbn [hits fmap list_fmap concat app] in Hin.
  rewrite id_at_0 in Hbs by done. inversion Hbs as [|id k' rs bs' Hrs Hbs' E1 E2 E3]. rewrite <- E3 in Hin.
  unfold official_pipelined_get_32_round, bind, official.
  erewrite (pipelined_spec _ _ (replicate PIPELINE_DEPTH (PHit value)) rs bs'); try done.
  - eexists tt, _. split; [reflexivity|]. split; [done|]. cbn [local].
    split; cbn [client_after next_request_id Client.max_payload_len accepts incoming].
    + rewrite length_replicate. apply id_at_u64.
    + done.
    + rewrite issued_len. rewrite Nat.add_0_r in Hacc |- *. lia.
    + exists bs'. split; [done|]. rewrite length_replicate, id_at_0 by apply id_at_u64. done.
  - by apply issued_ok.
  - rewrite issued_len. etrans; [|exact Hacc]. apply N.mul_le_mono_r. lia.
  - rewrite Hrs. apply list.Forall_forall. intros r Hr. split.
    + eapply list.Forall_forall; [apply (hits_ok (next_request_id (local w)) PIPELINE_DEPTH), Hid|done].
    + rewrite (hits_payload _ _ _ Hr). etrans; [|exact Hmax]. by vm_compute.
Qed.

(** ** The scenarios *)

Definition put_len : N :=
  HEADER_LEN + len (encode_request_payload (RPut "default" key Metadata_default value) []).

Hypothesis Hput : request_ok (RPut "default" key Metadata_default value).
Hypothesis Hput_len : len (encode_request_payload (RPut "default" key Metadata_default value) []) ≤ U32_MAX.

(** The client at the start: the put and [k] rounds are ahead, and the peer
    will take the requests and has answered them. *)
Record primed (R : relation (list ResponseFrame)) (k : nat) (c : NativeClient) : Prop := {
  pr_id : id_ok (next_request_id c);
  pr_max : U32_MAX ≤ Client.max_payload_len c;
  pr_accepts : put_len + N.of_nat (k * PIPELINE_DEPTH) * get_len ≤ accepts c;
  pr_incoming : ∃ evicted bs, evicted ≤ U32_MAX ∧
    incoming c = response_bytes (stored_to (next_request_id c) evicted) ++ bs ∧
    answered R (next_id (next_request_id c)) k bs
}.

Lemma put_steady R k : steady (primed R k) (official_put key) (λ _, ahead R k 0).
Proof.
  intros w [Hid Hmax Hacc (ev & bs & Hev & Hin & Hbs)].
  unfold official_put, bind, official, Client.put, Client.cbind.
  erewrite request_spec; [|..|exact Hin]; try done.
  - cbn [stored_to rs_payload payload_result]. eexists tt, _. split; [reflexivity|].
    split; [done|]. split; cbn [local client_after next_request_id Client.max_payload_len accepts incoming].
    + apply next_id_ok.
    + done.
    + unfold request_bytes. rewrite len_frame_bytes. cbn [rq_payload]. fold put_len.
      rewrite Nat.add_0_r. lia.
    + exists bs. split; [done|]. by rewrite id_at_0 by apply next_id_ok.
  - destruct Hid. by split_and!.
  - unfold request_bytes. rewrite len_frame_bytes. cbn [rq_payload]. fold put_len. lia.
  - destruct Hid. split_and!; [done|done|]. cbn [rs_payload stored_to]. by vm_compute.
  - etrans; [|exact Hmax]. by vm_compute.
Qed.

Definition round_samples (instant : nat → N) (k n : nat) : list N :=
  samples_at instant k n ≫= λ d, replicate PIPELINE_DEPTH (d / N.of_nat PIPELINE_DEPTH).

Lemma round_samples_len instant k n :
  len (round_samples instant k n) = N.of_nat n * N.of_nat PIPELINE_DEPTH.
Proof.
  unfold round_samples. assert (∀ l : list N, len (l ≫= λ d, replicate PIPELINE_DEPTH
    (d / N.of_nat PIPELINE_DEPTH)) = len l * N.of_nat PIPELINE_DEPTH) as ->.
  { induction l as [|d l IH]; [done|]. rewrite bind_cons, len_app, IH, len_cons.
    unfold len at 1. rewrite length_replicate. lia. }
  f_equal. unfold samples_at, len. by rewrite length_fmap, length_seq.
Qed.

Lemma summarize_labels name transport notes samples spent mem r :
  summarize name transport notes samples spent mem = Some r →
  Bench.name r = name ∧ Bench.transport r = transport.
Proof.
  unfold summarize. intros H. apply bind_Some in H as (p50 & _ & H).
  apply bind_Some in H as (p95 & _ & H). apply bind_Some in H as (p99 & _ & H). by simplify_eq/=.
Qed.

(** A scenario whose round takes the peer one round further. *)
Lemma scenario_report R instant turns name transport notes (round : Prog NativeClient unit) c n :
  (∀ k, steady (ahead R (S k) 0) round (λ _, ahead R k 0)) →
  primed R (WARMUP_ITERS + n) c → stops instant 1 (instant 0%nat) n → (0 < n < turns)%nat →
  N.of_nat n * N.of_nat PIPELINE_DEPTH * 100 ≤ U64_MAX →
  ∃ r, run_on (bind (official_put key) (λ _, bind (warmup round) (λ _,
         measure_rounds instant turns name transport notes round))) c = Done r ∧
    Bench.name r = name ∧ Bench.transport r = transport ∧
    iterations r = N.of_nat n * N.of_nat PIPELINE_DEPTH ∧
    summary (round_samples instant 1 n) (spent instant 0 n) r.
Proof.
  intros Hround Hc Hstop Hn Hfit. unfold run_on.
  assert (steady (primed R (WARMUP_ITERS + n)) (bind (official_put key) (λ _, warmup round))
    (λ _, ahead R n 0)) as Hpre.
  { eapply steady_bind; [apply put_steady|]. intros [].
    apply (steady_times_counted (λ k, ahead R k 0)). exact Hround. }
  destruct (Hpre (Build_World 0 0 c) Hc) as ([] & w1 & E1 & I1 & H1). simpl in I1.
  assert (∀ (m : Prog NativeClient BenchResult),
    bind (official_put key) (λ _, bind (warmup round) (λ _, m)) (Build_World 0 0 c) = m w1) as ->.
  { intros m. unfold bind in E1 |- *. destruct (official_put key _) as [[[] w2]| |]; [|done..].
    by rewrite E1. }
  unfold measure_rounds, bind at 1, now. rewrite I1.
  destruct (measure_loop_counted instant (λ k, ahead R k 0) (λ k _, ahead R (S k) 0) (ret tt)
    (λ _, round) (λ d, replicate PIPELINE_DEPTH (d / N.of_nat PIPELINE_DEPTH)) n turns
    (instant 0%nat) [] (Build_World 1 (calls w1) (local w1))) as (w2 & E2 & I2 & _);
    [intros k; by apply steady_ret|intros k _; apply Hround|done|done|lia|].
  unfold bind at 1. rewrite E2. unfold elapsed, bind, now, ret. rewrite I2. cbn [instants]. rewrite app_nil_l.
  destruct (summarize_spec name transport notes (round_samples instant 1 n) (spent instant 0 n) 0)
    as (r & Er & _ & Hr).
  { intros E%(f_equal len). rewrite round_samples_len in E. revert E. unfold len, PIPELINE_DEPTH.
    simpl. lia. }
  { by rewrite round_samples_len. }
  replace (1 + 3 * n + 1)%nat with (0 + 3 * n + 2)%nat by lia.
  fold (round_samples instant 1 n) (spent instant 0 n). unfold expect. rewrite Er.
  destruct (summarize_labels _ _ _ _ _ _ _ Er) as [Hname Htr].
  exists r. split_and!; [done..| |done]. rewrite (sum_iterations _ _ _ Hr). apply round_samples_len.
Qed.
End rounds.

(** A peer that answers in order. *)
Fixpoint in_order (id : N) (k : nat) : bytes :=
  match k with
  | 0%nat => []
  | S k => concat (response_bytes <$> hits id PIPELINE_DEPTH) ++ in_order (id_at id PIPELINE_DEPTH) k
  end.

Lemma in_order_answered (R : relation (list ResponseFrame)) `{!Reflexive R} id k :
  answered R id k (in_order id k).
Proof.
  revert id. induction k as [|k IH]; intros id; [apply answered_nil|]. by apply answered_round.
Qed.

Definition ready_client (id accepts : N) (k : nat) : NativeClient :=
  {| next_request_id := id; Client.max_payload_len := USIZE_MAX; Client.sent := [];
     accepts := accepts; incoming := response_bytes (stored_to id 0) ++ in_order (next_id id) k |}.

Lemma ready_client_primed key (R : relation (list ResponseFrame)) `{!Reflexive R} id a k :
  id_ok id → put_len key + N.of_nat (k * PIPELINE_DEPTH) * get_len key ≤ a →
  primed key R k (ready_client id a k).
Proof.
  intros Hid Ha. split; [done|by vm_compute|done|]. exists 0, (in_order (next_id id) k).
  split_and!; [by vm_compute|done|by apply in_order_answered].
Qed.

Lemma put_request_ok key : bytes_ok key → request_ok (RPut "default" key Metadata_default value).
Proof.
  intros Hkey. split; [by vm_compute|]. split_and!; [done| |by vm_compute].
  split; [done|done|done|by apply list.Forall_nil|by vm_compute].
Qed.

(** ** Claim *)

(** C31: the scenarios of the official client.  Against a peer that stores the
    value and answers every get with it, in order for the sequential scenario
    and within each round in any order for the pipelined one, the scenario
    ends, no assertion fails, and its row reports 32 requests for each of the
    [n] > 0 rounds made before the deadline, with the percentiles of a thirty-second
    of the time of each round. *)
Theorem official_scenarios_pass instant turns transport n c c' :
  primed (as_bytes "official-sequential-get-key") eq (WARMUP_ITERS + n) c →
  primed (as_bytes "official-pipelined-get-key") Permutation (WARMUP_ITERS + n) c' →
  stops instant 1 (instant 0%nat) n → (0 < n < turns)%nat →
  N.of_nat n * N.of_nat PIPELINE_DEPTH * 100 ≤ U64_MAX →
  ∃ r r',
    run_on (bench_official_sequential_get_32 instant turns transport) c = Done r ∧
    run_on (bench_official_pipelined_get_32 instant turns transport) c' = Done r' ∧
    name r = "client_sequential_get_32"%string ∧ name r' = "client_pipelined_get_32"%string ∧
    Forall (λ r, Bench.transport r = transport ∧
      iterations r = N.of_nat n * N.of_nat PIPELINE_DEPTH ∧
      summary (round_samples instant 1 n) (spent instant 0 n) r) [r; r'].
Proof.
  intros Hc Hc' Hstop Hn Hfit.
  assert (∃ r, run_on (bench_official_sequential_get_32 instant turns transport) c = Done r ∧
    name r = "client_sequential_get_32"%string ∧ Bench.transport r = transport ∧
    iterations r = N.of_nat n * N.of_nat PIPELINE_DEPTH ∧
    summary (round_samples instant 1 n) (spent instant 0 n) r) as (r & Er & Hr).
  { eapply scenario_report; [by vm_compute|by apply put_request_ok|by vm_compute|
      intros k; apply sequential_steady; concrete_ok|done..]. }
  assert (∃ r, run_on (bench_official_pipelined_get_32 instant turns transport) c' = Done r ∧
    name r = "client_pipelined_get_32"%string ∧ Bench.transport r = transport ∧
    iterations r = N.of_nat n * N.of_nat PIPELINE_DEPTH ∧
    summary (round_samples instant 1 n) (spent instant 0 n) r) as (r' & Er' & Hr').
  { eapply scenario_report; [by vm_compute|by apply put_request_ok|by vm_compute|
      intros k; apply pipelined_steady; concrete_ok|done..]. }
  exists r, r'. split_and!; [exact Er|exact Er'|apply Hr|apply Hr'|].
  apply list.Forall_cons. split; [apply Hr|]. apply Forall_singleton, Hr'.
Qed.

(** A reading of the clock every 150 milliseconds: two rounds. *)
Lemma official_scenarios_pass_witness :
  ∃ r r',
    run_on (bench_official_sequential_get_32 (λ k, N.of_nat k * 150000000) 3 "loopback_tcp")
      (ready_client 1 1000000000 (WARMUP_ITERS + 2)) = Done r ∧
    run_on (bench_official_pipelined_get_32 (λ k, N.of_nat k * 150000000) 3 "loopback_tcp")
      (ready_client U64_MAX 1000000000 (WARMUP_ITERS + 2)) = Done r' ∧
    iterations r = 64.
Proof.
  destruct (official_scenarios_pass (λ k, N.of_nat k * 150000000) 3 "loopback_tcp" 2
    (ready_client 1 1000000000 (WARMUP_ITERS + 2))
    (ready_client U64_MAX 1000000000 (WARMUP_ITERS + 2)))
    as (r & r' & Hr & Hr' & _ & _ & Hall).
  - apply ready_client_primed; [apply _|by vm_compute|by vm_compute].
  - apply ready_client_primed; [apply _|by vm_compute|by vm_compute].
  - split; [|by vm_compute]. intros [|[|j]] Hj; [by vm_compute|by vm_compute|lia].
  - lia.
  - by vm_compute.
  - exists r, r'. split; [exact Hr|]. split; [exact Hr'|].
    apply Forall_cons_1 in Hall as [(_ & Hi & _) _]. rewrite Hi. reflexivity.
Defined.
End BenchMainSpec.
