(* ===== verification/BenchTable.v ===== *)
(** * BenchTable: the table of the benchmark program

    When the program prints, it prints the header and a row for each scenario
    of [async_main], in its order: a postcondition of every scenario, composed
    along the program. *)

From S2P Require Import Prelude Bytes Protocol Engine Sharded Client.
From S2P Require Import Bench BenchNative BenchFleet BenchMain BenchMainSpec.

Module BenchTable.
Import Protocol Codec Bench BenchNative BenchFleet BenchMain.
Import BenchMainSpec(summarize_labels).
Import Client(NativeClient).
Import Sharded(ShardEnv).

(** ** Postconditions *)

(** What [m] returns, if it does, satisfies [Q]. *)
Definition returns {S A} (m : Prog S A) (Q : A → Prop) : Prop :=
  ∀ w a w', m w = Done (a, w') → Q a.

Definition ends {A} (m : Run A) (Q : A → Prop) : Prop := ∀ a, m = Done a → Q a.

Section returns.
Context {S : Type}.

Lemma returns_bind {A B} (m : Prog S A) (k : A → Prog S B) (R : A → Prop) (Q : B → Prop) :
  returns m R → (∀ a, R a → returns (k a) Q) → returns (bind m k) Q.
Proof.
  intros Hm Hk w b w'. unfold bind. destruct (m w) as [[a w1]| |] eqn:E; [|done..].
  apply Hk. by eapply Hm.
Qed.

(** Whatever the first part returns. *)
Lemma returns_then {A B} (m : Prog S A) (k : A → Prog S B) Q :
  (∀ a, returns (k a) Q) → returns (bind m k) Q.
Proof. intros Hk. by eapply (returns_bind m k (λ _, True)). Qed.

Lemma returns_ret {A} (a : A) (Q : A → Prop) : Q a → returns (S := S) (ret a) Q.
Proof. by intros Ha w a' w' [= <- _]. Qed.

Definition named (n : string) (r : BenchResult) : Prop := name r = n.

Lemma returns_summarize n transport notes samples spent mem :
  returns (S := S) (expect (summarize n transport notes samples spent mem)) (named n).
Proof.
  intros w r w'. unfold expect. destruct (summarize _ _ _ _ _ _) as [r'|] eqn:E; [|done].
  intros [= <- _]. by apply summarize_labels in E as [Hn _].
Qed.

Lemma returns_measure instant turns n transport notes (operation : Prog S unit) :
  returns (measure instant turns n transport notes operation) (named n).
Proof. unfold measure. repeat (apply returns_then; intros). apply returns_summarize. Qed.

Lemma ends_run {A} (m : Prog S A) s Q : returns m Q → ends (run_on m s) Q.
Proof.
  intros Hm a. unfold run_on. destruct (m _) as [[b w]| |] eqn:E; [|done..]. intros [= <-].
  by eapply Hm.
Qed.

Lemma returns_await {A} (m : Run A) Q : ends m Q → returns (S := S) (await m) Q.
Proof. intros Hm w a w'. unfold await. destruct m; [|done..]. intros [= <- _]. by apply Hm. Qed.

Lemma returns_scope {T A} (t : T) (m : Prog T A) Q : returns m Q → returns (S := S) (scope t m) Q.
Proof.
  intros Hm w a w'. unfold scope. destruct (m _) as [[b w1]| |] eqn:E; [|done..]. intros [= <- _].
  by eapply Hm.
Qed.

(** A list of scenarios gives the rows of their names. *)
Lemma returns_sequence (l : list (Prog S BenchResult)) names :
  Forall2 (λ m n, returns m (named n)) l names →
  returns (sequence l) (λ rows, name <$> rows = names).
Proof.
  induction 1 as [|m n l names Hm _ IH]; [by apply returns_ret|]. cbn [sequence].
  eapply returns_bind; [exact Hm|]. intros r Hr. eapply returns_bind; [exact IH|]. intros rows Hrows.
  apply returns_ret. cbn. by rewrite Hr, Hrows.
Qed.
End returns.

(** The function a program calls. *)
Ltac head_of m := lazymatch m with ?f _ => head_of f | _ => m end.

(** Follows a scenario to the summary it ends with. *)
Ltac follow := repeat lazymatch goal with
  | |- ends (run_on _ _) _ => apply ends_run
  | |- returns (bind _ _) _ => apply returns_then; intros
  | |- returns (expect (summarize _ _ _ _ _ _)) _ => apply returns_summarize
  | |- returns (measure _ _ _ _ _ _) _ => apply returns_measure
  | |- returns ?m _ => let h := head_of m in unfold h
  | |- ends ?m _ => let h := head_of m in unfold h
  end.

(** ** The scenarios *)

Lemma report_named {X} n (m : Prog (Engine.Engine * X) BenchResult) :
  returns m (named n) → returns (bind m engine_report) (named n).
Proof.
  intros Hm. eapply returns_bind; [exact Hm|]. intros r Hr. apply returns_then. intros s.
  by apply returns_ret.
Qed.

Section rows.
Context `{Engine.HashOrder, ShardEnv} {P : Type}.
Context (reply : Engine.Clock → bytes → P → option (bytes * P)).

Lemma sharded_named instant clocks turns key b n notes :
  ends (sharded_scenario instant clocks turns key b n notes) (named n).
Proof.
  unfold sharded_scenario. destruct (Sharded.with_limits _) as [e|]; [|done].
  apply ends_run. do 3 (apply returns_then; intros).
  eapply returns_bind; [apply returns_measure|]. intros r Hr. apply returns_then. intros s.
  by apply returns_ret.
Qed.

Definition process_names : list string :=
  ["engine_get"; "engine_put"; "engine_tag_invalidate_8"; "protocol_decode_get";
   "protocol_encode_hit"; "engine_get_ref_encode"; "sharded_get_ref_encode";
   "sharded_get_ref_no_access_encode"].

Lemma process_named turns processes :
  Forall2 (λ m n, ends m (named n)) (process_rows turns processes) process_names.
Proof.
  unfold process_rows, process_names. repeat apply Forall2_cons_2; [..|apply Forall2_nil_2].
  - apply ends_run. do 2 (apply returns_then; intros). apply report_named, returns_measure.
  - apply ends_run. apply returns_then; intros. apply report_named, returns_measure.
  - apply ends_run. do 4 (apply returns_then; intros). apply report_named, returns_summarize.
  - unfold bench_protocol_decode_get. destruct (encode_request_frame _); [|done]. follow.
  - follow.
  - apply ends_run. do 2 (apply returns_then; intros). apply report_named, returns_measure.
  - unfold bench_sharded_get_ref_encode. apply sharded_named.
  - unfold bench_sharded_get_ref_no_access_encode. apply sharded_named.
Qed.

Definition native_names : list string :=
  ["single_key_get"; "single_key_put"; "batch_get_32"; "lease_contention"; "tag_invalidate_empty";
   "tag_invalidate_8"; "tag_workflow_put8_invalidate"; "ttl_heavy_writes"; "pipelined_get_32"].

Lemma native_named turns (site : @Site P) :
  Forall2 (λ m n, returns m (named n)) (native_rows reply turns site) native_names.
Proof.
  unfold native_rows, native_names.
  repeat apply Forall2_cons_2; try apply Forall2_nil_2; follow.
Qed.

Definition official_names : list string := ["client_sequential_get_32"; "client_pipelined_get_32"].

Lemma official_named turns instant transport :
  Forall2 (λ m n, returns m (named n)) (official_rows turns instant transport) official_names.
Proof.
  unfold official_rows, official_names.
  repeat apply Forall2_cons_2; try apply Forall2_nil_2; follow.
Qed.

Definition fleet_names : list string :=
  ["concurrent_get_16"; "concurrent_get_16_distinct"; "concurrent_put_16"; "short_connection_get"].

Lemma tcp_named turns attempts (here : @Site P) sites :
  Forall2 (λ m n, returns m (named n)) (tcp_rows reply turns attempts here sites) fleet_names.
Proof.
  unfold tcp_rows, fleet_names. repeat apply Forall2_cons_2; try apply Forall2_nil_2; follow.
Qed.

Lemma unix_named turns attempts (here : @Site P) answers sites :
  Forall2 (λ m n, returns m (named n)) (unix_rows reply turns attempts here answers sites) fleet_names.
Proof.
  unfold unix_rows, fleet_names. repeat apply Forall2_cons_2; try apply Forall2_nil_2; follow.
Qed.

(** ** The program *)

Definition transport_names : list string := native_names ++ official_names ++ fleet_names.

Lemma transport_named turns (site : @Site P) transport raw client fleet :
  Forall2 (λ m n, returns m (named n)) fleet fleet_names →
  returns (transport_rows reply turns site transport raw client fleet)
    (λ rows, name <$> rows = transport_names).
Proof.
  intros Hf. unfold transport_rows.
  eapply returns_bind; [apply returns_scope, returns_sequence, native_named|]. intros l1 H1.
  eapply returns_bind; [apply returns_scope, returns_sequence, official_named|]. intros l2 H2.
  eapply returns_bind; [apply returns_sequence, Hf|]. intros l3 H3.
  apply returns_ret. by rewrite !fmap_app, H1, H2, H3.
Qed.

Definition table_names : list string :=
  process_names ++ ["tokio_spawn_ready"; "tokio_spawn_mpsc_response"] ++
  transport_names ++ transport_names.

Lemma async_main_named os turns attempts (here : @Site P) answers tcp_sites unix_sites processes
    official_tcp official_unix :
  returns (async_main reply os turns attempts here answers tcp_sites unix_sites processes
    official_tcp official_unix) (λ rows, name <$> rows = table_names).
Proof.
  unfold async_main. do 3 (apply returns_then; intros).
  eapply returns_bind.
  { apply (returns_sequence _ process_names). apply Forall2_fmap_l.
    refine (list.Forall2_impl _ _ _ _ (process_named turns processes) _). intros m n Hm.
    by apply returns_await. }
  intros in_process H1.
  eapply returns_bind; [apply returns_scope; unfold bench_tokio_spawn_ready; follow|]. intros ready H2.
  eapply returns_bind; [apply returns_scope; unfold bench_tokio_spawn_mpsc_response; follow|].
  intros mpsc H3. eapply returns_bind; [apply transport_named, tcp_named|]. intros tcp H4.
  apply returns_then. intros _.
  eapply returns_bind.
  { apply returns_scope. do 2 (apply returns_then; intros). apply transport_named, unix_named. }
  intros unix H5. apply returns_ret.
  rewrite !fmap_app, H1, H4, H5. cbn. unfold named in H2, H3. by rewrite H2, H3.
Qed.

(** What the program prints is the header and a row for each of its forty
    scenarios, in order. *)
Theorem table_printed os turns attempts (here : @Site P) answers tcp_sites unix_sites processes
    official_tcp official_unix :
  ends (main reply os turns attempts here answers tcp_sites unix_sites processes
    official_tcp official_unix)
    (λ lines, ∃ rows, lines = table_header :: (table_line <$> rows) ∧
       name <$> rows = table_names ∧ length rows = 40%nat).
Proof.
  intros lines. unfold main. destruct (run_on _ _) as [rows| |] eqn:E; [|done..]. intros [= <-].
  pose proof (ends_run _ _ _ (async_main_named os turns attempts here answers tcp_sites unix_sites
    processes official_tcp official_unix) rows E) as Hrows.
  exists rows. split_and!; [done|done|]. by rewrite <- (length_fmap name), Hrows.
Qed.
End rows.
End BenchTable.
