(* ===== verification/TestKit.v ===== *)
(** * TestKit: the unit tests of the repository, as programs

    A test of [mod tests] is a program over the state it drives; [None] is a
    failed assertion, an [expect] that does not hold or a panic of the code
    under test.  The test files translate the tests of a source file and run
    them on the model: a change of the model that the tests of the program
    would not allow does not check. *)

From S2P Require Import Prelude Bytes.

Module TestKit.

Definition Test (S A : Type) : Type := S → option (A * S).

Section test.
Context {S : Type}.

Definition tret {A} (a : A) : Test S A := λ s, Some (a, s).
Definition tbind {A B} (m : Test S A) (k : A → Test S B) : Test S B := λ s,
  match m s with Some (a, s) => k a s | None => None end.

(** [assert!] *)
Definition assert_that (b : bool) : Test S unit := λ s, if b then Some (tt, s) else None.
(** [assert_eq!], [assert_ne!] *)
Definition assert_eq `{EqDecision A} (left right : A) : Test S unit :=
  assert_that (bool_decide (left = right)).
Definition assert_ne `{EqDecision A} (left right : A) : Test S unit :=
  assert_that (negb (bool_decide (left = right))).

(** [expect], [expect_err], [unwrap] *)
Definition expect_ok {A E} (r : result A E) : Test S A := λ s,
  match r with Ok a => Some (a, s) | Err _ => None end.
Definition expect_err {A E} (r : result A E) : Test S E := λ s,
  match r with Ok _ => None | Err e => Some (e, s) end.
Definition expect_some {A} (o : option A) : Test S A := λ s,
  match o with Some a => Some (a, s) | None => None end.

(** [for x in l { body }] *)
Fixpoint for_in {A} (l : list A) (body : A → Test S unit) : Test S unit :=
  match l with
  | [] => tret tt
  | x :: l => tbind (body x) (λ _, for_in l body)
  end.
End test.

(** Whether the test ends without a failure when started on [s]. *)
Definition passes {S A} (m : Test S A) (s : S) : bool :=
  match m s with Some _ => true | None => false end.

Declare Scope test_scope.
Delimit Scope test_scope with test.
Notation "x <- m ;; k" := (tbind m (λ x, k))
  (at level 100, m at level 99, right associativity, k at level 200) : test_scope.
Notation "m ;;; k" := (tbind m (λ _, k))
  (at level 100, right associativity) : test_scope.
End TestKit.
