(* ===== verification/EngineTests.v ===== *)
(** * EngineTests: the tests of [src/engine.rs] on the model

    [mod tests]: one definition per test, over the engine and its
    [ManualClock]; hash iteration order is the canonical one. *)

From S2P Require Import Prelude Bytes Protocol Engine Sharded TestKit.

Module EngineTests.
Import Engine TestKit.
#[local] Open Scope test_scope.

#[export] Instance EngGetOutcome_eq_dec : EqDecision GetOutcome.
Proof. solve_decision. Defined.
#[export] Instance EngPutError_eq_dec : EqDecision PutError.
Proof. solve_decision. Defined.
#[export] Instance EngCompleteLeaseError_eq_dec : EqDecision CompleteLeaseError.
Proof. solve_decision. Defined.
#[export] Instance EngStartLeaseOutcome_eq_dec : EqDecision StartLeaseOutcome.
Proof. solve_decision. Defined.
#[export] Instance EngEngineLimits_eq_dec : EqDecision EngineLimits.
Proof. solve_decision. Defined.

(** ** The fixture *)

(** [ManualClock] and what is under test. *)
Record Rig (S : Type) := { now_ms : N; sut : S }.
Arguments now_ms {S} r.
Arguments sut {S} r.
Arguments Build_Rig {S} now_ms sut.

Definition advance {S} (ms : N) : Test (Rig S) unit := λ r,
  Some (tt, Build_Rig (now_ms r +| ms) (sut r)).

(** A call on the engine. *)
Definition on {A} (f : Clock → Engine → A * Engine) : Test (Rig Engine) A := λ r,
  let '(a, e) := f (manual_clock (now_ms r)) (sut r) in Some (a, Build_Rig (now_ms r) e).

(** An accessor. *)
Definition ask {S A} (f : S → A) : Test (Rig S) A := λ r, Some (f (sut r), r).

Definition engine : Rig Engine := Build_Rig 1000 (with_clock_and_limits EngineLimits_default).

Definition tiny_engine (max_memory_bytes max_value_bytes : N) : Rig Engine :=
  Build_Rig 1000 (with_clock_and_limits
    {| max_memory_bytes := max_memory_bytes; max_value_bytes := max_value_bytes |}).

Definition with_ttl (ms : N) (c : PutCommand) : PutCommand :=
  {| pc_namespace := pc_namespace c; pc_key := pc_key c; pc_value := pc_value c;
     pc_ttl := Some {| milliseconds := ms |}; pc_stale_ttl := pc_stale_ttl c;
     pc_tags := pc_tags c; pc_cost := pc_cost c |}.
Definition with_stale_ttl (ms : N) (c : PutCommand) : PutCommand :=
  {| pc_namespace := pc_namespace c; pc_key := pc_key c; pc_value := pc_value c;
     pc_ttl := pc_ttl c; pc_stale_ttl := Some {| milliseconds := ms |};
     pc_tags := pc_tags c; pc_cost := pc_cost c |}.
Definition with_tags (tags : list string) (c : PutCommand) : PutCommand :=
  {| pc_namespace := pc_namespace c; pc_key := pc_key c; pc_value := pc_value c;
     pc_ttl := pc_ttl c; pc_stale_ttl := pc_stale_ttl c; pc_tags := tags; pc_cost := pc_cost c |}.
Definition with_cost (cost : N) (c : PutCommand) : PutCommand :=
  {| pc_namespace := pc_namespace c; pc_key := pc_key c; pc_value := pc_value c;
     pc_ttl := pc_ttl c; pc_stale_ttl := pc_stale_ttl c; pc_tags := pc_tags c;
     pc_cost := Some cost |}.

(** [engine.put(command).expect(..)] *)
Definition put_ok (c : PutCommand) : Test (Rig Engine) PutOutcome :=
  r <- on (λ clk, Engine.put clk c);; expect_ok r.

Definition get_is (namespace key : string) (outcome : GetOutcome) : Test (Rig Engine) unit :=
  o <- on (λ clk, Engine.get clk namespace (as_bytes key));; assert_eq o outcome.

Definition hit (value : string) : GetOutcome := GHit (as_bytes value).

Definition lease_command (token value : string) (ttl : option Ttl) : CompleteLeaseCommand :=
  {| cl_namespace := "default"; cl_key := as_bytes "k"; cl_lease_token := token;
     cl_value := as_bytes value; cl_ttl := ttl; cl_stale_ttl := None; cl_tags := [];
     cl_cost := None |}.

Definition lease_is (ttl : N) (outcome : StartLeaseOutcome) : Test (Rig Engine) unit :=
  o <- on (λ clk, Engine.start_lease clk "default" (as_bytes "k") ttl);; assert_eq o outcome.

(** [match outcome { LeaseGranted { token, stale_value } => .., other => panic!(..) }] *)
Definition granted (ttl : N) : Test (Rig Engine) (string * option bytes) :=
  o <- on (λ clk, Engine.start_lease clk "default" (as_bytes "k") ttl);;
  match o with
  | LeaseGranted token stale_value => tret (token, stale_value)
  | _ => λ _, None
  end.

(** ** The engine *)

Definition stores_and_reads_binary_keys_and_values : Test (Rig Engine) unit :=
  let key := as_bytes "user" ++ [x00; xff] in
  let value := as_bytes "value" ++ [x00; xff] in
  put_ok {| pc_namespace := "default"; pc_key := key; pc_value := value; pc_ttl := None;
            pc_stale_ttl := None; pc_tags := []; pc_cost := None |};;;
  o <- on (λ clk, Engine.get clk "default" key);; assert_eq o (GHit value);;;
  o <- on (λ clk, Engine.get clk "other" key);; assert_eq o GMiss.

Definition get_ref_exposes_value_without_changing_owned_get_behavior : Test (Rig Engine) unit :=
  put_ok (put_command "default" "k" "value");;;
  o <- on (λ clk, Engine.get_ref clk "default" (as_bytes "k"));;
  observed <- match o with GHit value => tret value | _ => λ _, None end;;
  assert_eq observed (as_bytes "value");;;
  get_is "default" "k" (hit "value").

Definition deletes_are_idempotent : Test (Rig Engine) unit :=
  put_ok (put_command "default" "k" "v");;;
  removed <- on (λ _, Engine.delete "default" (as_bytes "k"));; assert_that removed;;;
  removed <- on (λ _, Engine.delete "default" (as_bytes "k"));; assert_that (negb removed);;;
  get_is "default" "k" GMiss.

Definition batch_get_handles_mixed_hits_and_misses : Test (Rig Engine) unit :=
  put_ok (put_command "default" "a" "1");;;
  put_ok (put_command "default" "c" "3");;;
  outcomes <- on (λ clk, Engine.batch_get clk "default" [as_bytes "a"; as_bytes "b"; as_bytes "c"]);;
  assert_eq outcomes [hit "1"; GMiss; hit "3"].

Definition expires_entries_lazily_after_ttl : Test (Rig Engine) unit :=
  put_ok (with_ttl 10 (put_command "default" "k" "v"));;;
  get_is "default" "k" (hit "v");;;
  advance 10;;; get_is "default" "k" (hit "v");;;
  advance 1;;; get_is "default" "k" GMiss;;;
  b <- ask is_empty;; assert_that b.

Definition serves_stale_until_stale_ttl_expires : Test (Rig Engine) unit :=
  put_ok (with_stale_ttl 20 (with_ttl 10 (put_command "default" "k" "v")));;;
  advance 11;;; get_is "default" "k" (GStale (as_bytes "v"));;;
  advance 19;;; get_is "default" "k" (GStale (as_bytes "v"));;;
  advance 1;;; get_is "default" "k" GMiss.

Definition ttl_without_stale_expires_directly_to_miss : Test (Rig Engine) unit :=
  put_ok (with_ttl 1 (put_command "default" "k" "v"));;;
  advance 2;;; get_is "default" "k" GMiss.

Definition no_expiry_entry_ignores_stale_ttl : Test (Rig Engine) unit :=
  put_ok (with_stale_ttl 1 (put_command "default" "k" "v"));;;
  advance 10000;;; get_is "default" "k" (hit "v").

Definition invalidate_is (namespace tag : string) (removed : N) : Test (Rig Engine) unit :=
  n <- on (λ _, Engine.invalidate_tag namespace tag);; assert_eq n removed.

Definition replacing_key_cleans_old_tag_indexes : Test (Rig Engine) unit :=
  put_ok (with_tags ["old"%string] (put_command "default" "k" "old"));;;
  put_ok (with_tags ["new"%string] (put_command "default" "k" "new"));;;
  invalidate_is "default" "old" 0;;;
  get_is "default" "k" (hit "new");;;
  invalidate_is "default" "new" 1;;;
  get_is "default" "k" GMiss.

Definition tag_invalidation_removes_only_matching_namespace_entries : Test (Rig Engine) unit :=
  put_ok (with_tags ["org:9"%string] (put_command "default" "a" "1"));;;
  put_ok (with_tags ["org:9"%string] (put_command "default" "b" "2"));;;
  put_ok (with_tags ["org:9"%string] (put_command "other" "a" "3"));;;
  invalidate_is "default" "org:9" 2;;;
  get_is "default" "a" GMiss;;;
  get_is "default" "b" GMiss;;;
  get_is "other" "a" (hit "3").

Definition rejects_single_values_over_max_value_size : Test (Rig Engine) unit :=
  r <- on (λ clk, Engine.put clk (put_command "default" "k" "four"));;
  error <- expect_err r;;
  assert_eq error (ValueTooLarge 4 3);;;
  get_is "default" "k" GMiss.

Definition rejects_entries_that_cannot_fit_memory_cap : Test (Rig Engine) unit :=
  r <- on (λ clk, Engine.put clk (put_command "default" "k" "v"));;
  error <- expect_err r;;
  assert_that (match error with ValueTooLargeForMemory _ max => max =? 10 | _ => false end).

Definition evicts_least_recently_used_entries_to_stay_under_memory_cap : Test (Rig Engine) unit :=
  put_ok (put_command "default" "a" "1111111111");;;
  put_ok (put_command "default" "b" "2222222222");;;
  get_is "default" "a" (hit "1111111111");;;
  outcome <- put_ok (put_command "default" "c" "3333333333");;
  assert_eq (po_evicted outcome) 1;;;
  s <- ask stats;; assert_eq (evictions s) 1;;;
  get_is "default" "a" (hit "1111111111");;;
  get_is "default" "b" GMiss;;;
  get_is "default" "c" (hit "3333333333");;;
  used <- ask memory_used_bytes;; lim <- ask limits;;
  assert_that (used <=? max_memory_bytes lim).

Definition get_ref_without_access_update_does_not_refresh_lru_state : Test (Rig Engine) unit :=
  put_ok (put_command "default" "a" "1111111111");;;
  put_ok (put_command "default" "b" "2222222222");;;
  o <- on (λ clk, Engine.get_ref_without_access_update clk "default" (as_bytes "a"));;
  assert_eq o (hit "1111111111");;;
  outcome <- put_ok (put_command "default" "c" "3333333333");;
  assert_eq (po_evicted outcome) 1;;;
  get_is "default" "a" GMiss;;;
  get_is "default" "b" (hit "2222222222").

Definition replacing_key_updates_memory_accounting : Test (Rig Engine) unit :=
  put_ok (put_command "default" "k" "large-value");;;
  after_large <- ask memory_used_bytes;;
  put_ok (put_command "default" "k" "s");;;
  after_small <- ask memory_used_bytes;;
  assert_that (after_small <? after_large);;;
  get_is "default" "k" (hit "s").

Definition replacing_key_cleans_old_expiry_index : Test (Rig Engine) unit :=
  put_ok (with_ttl 10 (put_command "default" "k" "old"));;;
  put_ok (put_command "default" "k" "new");;;
  advance 11;;;
  get_is "default" "k" (hit "new");;;
  s <- ask stats;; assert_eq (expirations s) 0.

Definition len_is (n : N) : Test (Rig Engine) unit := l <- ask len_entries;; assert_eq l n.
Definition cost_is (n : N) : Test (Rig Engine) unit := c <- ask cost_score_total;; assert_eq c n.
Definition expirations_is (n : N) : Test (Rig Engine) unit :=
  s <- ask stats;; assert_eq (expirations s) n.
Definition reclaim_is (budget n : N) : Test (Rig Engine) unit :=
  removed <- on (λ clk, Engine.reclaim_expired_budget clk budget);; assert_eq removed n.

Definition accounting_accessors_do_not_reclaim_expired_entries : Test (Rig Engine) unit :=
  put_ok (with_cost 99 (with_ttl 10 (put_command "default" "k" "value")));;;
  memory_before_expiry <- ask memory_used_bytes;;
  advance 11;;;
  len_is 1;;;
  used <- ask memory_used_bytes;; assert_eq used memory_before_expiry;;;
  cost_is 99;;; expirations_is 0;;;
  removed <- on reclaim_expired;; assert_eq removed 1;;;
  len_is 0;;;
  used <- ask memory_used_bytes;; assert_eq used 0;;;
  cost_is 0;;; expirations_is 1.

Definition reclaim_expired_budget_limits_cleanup_work : Test (Rig Engine) unit :=
  for_in ["a"; "b"; "c"]%string (λ key,
    put_ok (with_ttl 10 (put_command "default" key "value"));;; tret tt);;;
  advance 11;;;
  reclaim_is 1 1;;; len_is 2;;; expirations_is 1;;;
  reclaim_is 1 1;;; len_is 1;;; expirations_is 2;;;
  reclaim_is 16 1;;; len_is 0;;; expirations_is 3.

Definition cost_score_total_tracks_accounted_entries_until_reclaimed : Test (Rig Engine) unit :=
  put_ok (with_cost 10 (put_command "default" "a" "value"));;;
  put_ok (with_ttl 10 (with_cost 7 (put_command "default" "b" "value")));;;
  cost_is 17;;;
  put_ok (with_cost 3 (put_command "default" "a" "value"));;;
  cost_is 10;;;
  removed <- on (λ _, Engine.delete "default" (as_bytes "a"));; assert_that removed;;;
  cost_is 7;;;
  advance 11;;; cost_is 7;;;
  removed <- on reclaim_expired;; assert_eq removed 1;;;
  cost_is 0.

Definition reclaims_expired_entries_before_evicting_live_entries : Test (Rig Engine) unit :=
  put_ok (with_ttl 1 (put_command "default" "old" "1111111111"));;;
  put_ok (put_command "default" "live" "2222222222");;;
  advance 2;;;
  outcome <- put_ok (put_command "default" "new" "3333333333");;
  assert_eq (po_evicted outcome) 0;;;
  expirations_is 1;;;
  s <- ask stats;; assert_eq (evictions s) 0;;;
  get_is "default" "old" GMiss;;;
  get_is "default" "live" (hit "2222222222");;;
  get_is "default" "new" (hit "3333333333").

(** ** Leases *)

Definition lease_miss_grants_once_and_completion_writes_value : Test (Rig Engine) unit :=
  first <- granted 10000;;
  assert_eq first.2 None;;;
  lease_is 10000 LeaseDenied;;;
  r <- on (λ clk, Engine.complete_lease clk
    (lease_command first.1 "fresh" (Some {| milliseconds := 100 |})));;
  expect_ok r;;;
  lease_is 10000 (LHit (as_bytes "fresh")).

Definition stale_lease_grant_includes_stale_value_and_active_lease_serves_stale :
    Test (Rig Engine) unit :=
  put_ok (with_stale_ttl 100 (with_ttl 10 (put_command "default" "k" "stale")));;;
  advance 11;;;
  first <- granted 10000;;
  assert_eq first.2 (Some (as_bytes "stale"));;;
  lease_is 10000 (LStale (as_bytes "stale"));;;
  r <- on (λ clk, Engine.complete_lease clk
    (lease_command first.1 "fresh" (Some {| milliseconds := 100 |})));;
  expect_ok r;;;
  get_is "default" "k" (hit "fresh").

Definition expired_lease_can_be_reacquired_and_old_token_is_rejected : Test (Rig Engine) unit :=
  old <- granted 10;;
  advance 11;;;
  new <- granted 10;;
  assert_ne old.1 new.1;;;
  r <- on (λ clk, Engine.complete_lease clk (lease_command old.1 "old" None));;
  error <- expect_err r;;
  assert_eq error InvalidLeaseToken.

Definition active_lease_denies_refresh_even_after_stale_value_expires : Test (Rig Engine) unit :=
  put_ok (with_stale_ttl 10 (with_ttl 10 (put_command "default" "k" "stale")));;;
  advance 11;;;
  first <- granted 100;; assert_that (bool_decide (is_Some first.2));;;
  advance 11;;; lease_is 100 LeaseDenied;;;
  advance 100;;;
  first <- granted 100;; assert_eq first.2 None.

(** The clients of the test under the lock of the engine, in any order. *)
Definition concurrent_miss_grants_exactly_one_lease : Test (Rig Engine) unit :=
  outcomes <- (fix clients (n : nat) : Test (Rig Engine) (list StartLeaseOutcome) :=
    match n with
    | O => tret []
    | S n =>
      o <- on (λ clk, Engine.start_lease clk "default" (as_bytes "shared-miss") 60000);;
      rest <- clients n;; tret (o :: rest)
    end) 32%nat;;
  assert_eq (len (filter (λ o, match o with LeaseGranted _ _ => true | _ => false end = true)
    outcomes)) 1;;;
  assert_eq (len (filter (λ o, match o with LeaseDenied => true | _ => false end = true)
    outcomes)) 31.

(** ** The sharded engine *)

(** Keys go to the shards by the number their bytes are. *)
#[local] Instance test_env : Sharded.ShardEnv := {|
  Sharded.hash64 _ key := from_be_bytes key;
  Sharded.shards_iter := elements;
  Sharded.shards_iter_perm s := Permutation_refl _
|}.

Definition on_sharded {A}
    (f : Clock → Sharded.ShardedEngine → option (A * Sharded.ShardedEngine)) :
    Test (Rig Sharded.ShardedEngine) A := λ r,
  match f (manual_clock (now_ms r)) (sut r) with
  | Some (a, s) => Some (a, Build_Rig (now_ms r) s)
  | None => None
  end.

(** [sharded_engine(shard_count)], and the test on it. *)
Definition on_sharded_engine (shard_count : nat) (test : Test (Rig Sharded.ShardedEngine) unit) :
    bool :=
  match Sharded.with_clock_and_limits EngineLimits_default shard_count with
  | Some s => passes test (Build_Rig 1000 s)
  | None => false
  end.

Definition routed_shard_count_for_tag (namespace tag : string) (s : Sharded.ShardedEngine) : N :=
  default 0 ((λ indices, N.of_nat (size indices)) <$>
    Sharded.tag_directory s !! tag_id namespace tag).

Definition sput_ok (c : PutCommand) : Test (Rig Sharded.ShardedEngine) unit :=
  r <- on_sharded (λ clk, Sharded.put clk c);; expect_ok r;;; tret tt.

Definition sget_is (namespace key : string) (outcome : GetOutcome) :
    Test (Rig Sharded.ShardedEngine) unit :=
  o <- on_sharded (λ clk, Sharded.get clk namespace (as_bytes key));; assert_eq o outcome.

Definition sinvalidate_is (namespace tag : string) (removed : N) :
    Test (Rig Sharded.ShardedEngine) unit :=
  n <- on_sharded (λ _, Sharded.invalidate_tag namespace tag);; assert_eq n removed.

Definition routed_is (namespace tag : string) (count : N) : Test (Rig Sharded.ShardedEngine) unit :=
  n <- ask (routed_shard_count_for_tag namespace tag);; assert_eq n count.

Definition index_key (index : nat) : string := "key-" +:+ pretty (N.of_nat index).

Definition sharded_engine_invalidates_tag_across_shards : Test (Rig Sharded.ShardedEngine) unit :=
  for_in (seq 0 64) (λ index,
    sput_ok (with_tags ["group"%string] (put_command "default" (index_key index) "value")));;;
  l <- ask Sharded.len_entries;; assert_eq l 64;;;
  n <- ask (routed_shard_count_for_tag "default" "group");;
  assert_that (1 <? n);;; assert_that (n <=? 8);;;
  sinvalidate_is "default" "group" 64;;;
  routed_is "default" "group" 0;;;
  l <- ask Sharded.len_entries;; assert_eq l 0;;;
  for_in (seq 0 64) (λ index, sget_is "default" (index_key index) GMiss).

Definition sharded_tag_routing_cleans_replaced_tags : Test (Rig Sharded.ShardedEngine) unit :=
  sput_ok (with_tags ["old"%string] (put_command "default" "k" "old"));;;
  routed_is "default" "old" 1;;;
  sput_ok (with_tags ["new"%string] (put_command "default" "k" "new"));;;
  routed_is "default" "old" 0;;;
  sinvalidate_is "default" "old" 0;;;
  sget_is "default" "k" (hit "new");;;
  routed_is "default" "new" 1;;;
  sinvalidate_is "default" "new" 1;;;
  sget_is "default" "k" GMiss.

Definition sharded_tag_routing_cleans_deleted_entries : Test (Rig Sharded.ShardedEngine) unit :=
  sput_ok (with_tags ["group"%string] (put_command "default" "k" "value"));;;
  routed_is "default" "group" 1;;;
  removed <- on_sharded (λ _, Sharded.delete "default" (as_bytes "k"));; assert_that removed;;;
  routed_is "default" "group" 0;;;
  sinvalidate_is "default" "group" 0.

Definition sharded_tag_routing_preserves_namespace_isolation :
    Test (Rig Sharded.ShardedEngine) unit :=
  sput_ok (with_tags ["org:9"%string] (put_command "default" "a" "1"));;;
  sput_ok (with_tags ["org:9"%string] (put_command "other" "a" "2"));;;
  sinvalidate_is "default" "org:9" 1;;;
  sget_is "default" "a" GMiss;;;
  sget_is "other" "a" (hit "2");;;
  sinvalidate_is "other" "org:9" 1.

Definition sreclaim_is (budget n : N) : Test (Rig Sharded.ShardedEngine) unit :=
  removed <- on_sharded (λ clk s, Some (Sharded.reclaim_expired_budget clk budget s));;
  assert_eq removed n.

Definition sharded_engine_reclaim_expired_budget_is_global : Test (Rig Sharded.ShardedEngine) unit :=
  for_in (seq 0 16) (λ index,
    sput_ok (with_ttl 1 (put_command "default" (index_key index) "value")));;;
  advance 2;;;
  sreclaim_is 5 5;;;
  s <- ask Sharded.stats;; assert_eq (expirations s) 5;;;
  l <- ask Sharded.len_entries;; assert_eq l 11;;;
  sreclaim_is USIZE_MAX 11;;;
  s <- ask Sharded.stats;; assert_eq (expirations s) 16;;;
  l <- ask Sharded.len_entries;; assert_eq l 0.

Definition sharded_engine_aggregates_memory_and_cost_metrics :
    Test (Rig Sharded.ShardedEngine) unit :=
  sput_ok (with_cost 10 (put_command "default" "a" "value"));;;
  sput_ok (with_cost 7 (put_command "default" "b" "value"));;;
  used <- ask Sharded.memory_used_bytes;; assert_that (0 <? used);;;
  cost <- ask Sharded.cost_score_total;; assert_eq cost 17;;;
  lim <- ask Sharded.limits;; assert_eq lim EngineLimits_default.

(** ** Running them *)

(** Every test of [src/engine.rs] passes on the model. *)
Theorem engine_tests_pass :
  Forall (λ b, b = true)
    [passes stores_and_reads_binary_keys_and_values engine;
     passes get_ref_exposes_value_without_changing_owned_get_behavior engine;
     passes deletes_are_idempotent engine;
     passes batch_get_handles_mixed_hits_and_misses engine;
     passes expires_entries_lazily_after_ttl engine;
     passes serves_stale_until_stale_ttl_expires engine;
     passes ttl_without_stale_expires_directly_to_miss engine;
     passes no_expiry_entry_ignores_stale_ttl engine;
     passes replacing_key_cleans_old_tag_indexes engine;
     passes tag_invalidation_removes_only_matching_namespace_entries engine;
     passes rejects_single_values_over_max_value_size (tiny_engine 1000 3);
     passes rejects_entries_that_cannot_fit_memory_cap (tiny_engine 10 1000);
     passes evicts_least_recently_used_entries_to_stay_under_memory_cap (tiny_engine 240 1000);
     passes get_ref_without_access_update_does_not_refresh_lru_state (tiny_engine 240 1000);
     passes replacing_key_updates_memory_accounting (tiny_engine 1000 1000);
     passes replacing_key_cleans_old_expiry_index engine;
     passes accounting_accessors_do_not_reclaim_expired_entries engine;
     passes reclaim_expired_budget_limits_cleanup_work engine;
     passes cost_score_total_tracks_accounted_entries_until_reclaimed engine;
     passes reclaims_expired_entries_before_evicting_live_entries (tiny_engine 240 1000);
     passes lease_miss_grants_once_and_completion_writes_value engine;
     passes stale_lease_grant_includes_stale_value_and_active_lease_serves_stale engine;
     passes expired_lease_can_be_reacquired_and_old_token_is_rejected engine;
     passes active_lease_denies_refresh_even_after_stale_value_expires engine;
     passes concurrent_miss_grants_exactly_one_lease engine;
     on_sharded_engine 8 sharded_engine_invalidates_tag_across_shards;
     on_sharded_engine 8 sharded_tag_routing_cleans_replaced_tags;
     on_sharded_engine 8 sharded_tag_routing_cleans_deleted_entries;
     on_sharded_engine 8 sharded_tag_routing_preserves_namespace_isolation;
     on_sharded_engine 8 sharded_engine_reclaim_expired_budget_is_global;
     on_sharded_engine 8 sharded_engine_aggregates_memory_and_cost_metrics].
Proof. vm_compute. repeat constructor. Qed.
End EngineTests.
