(* ===== verification/ProtocolTests.v ===== *)
(** * ProtocolTests: the tests of [crates/cachebox-protocol/src/lib.rs] on the model

    [mod tests], with the shared fixtures of
    [fixtures/native-protocol/v1/frames.json], the frames that every client of
    the protocol is tested against. *)

From S2P Require Import Prelude Bytes Protocol TestKit.

Module ProtocolTests.
Import Protocol Codec TestKit.
#[local] Open Scope test_scope.

#[local] Instance Metadata_eq : EqDecision Metadata.
Proof. solve_decision. Defined.
#[local] Instance RequestPayload_eq : EqDecision RequestPayload.
Proof. solve_decision. Defined.
#[local] Instance RequestFrame_eq : EqDecision RequestFrame.
Proof. solve_decision. Defined.
#[local] Instance RequestPayloadView_eq : EqDecision RequestPayloadView.
Proof. solve_decision. Defined.
#[local] Instance RequestFrameView_eq : EqDecision RequestFrameView.
Proof. solve_decision. Defined.
#[local] Instance BatchItem_eq : EqDecision BatchItem.
Proof. solve_decision. Defined.
#[local] Instance ResponsePayload_eq : EqDecision ResponsePayload.
Proof. solve_decision. Defined.
#[local] Instance ResponseFrame_eq : EqDecision ResponseFrame.
Proof. solve_decision. Defined.
#[local] Instance DecodeError_eq : EqDecision DecodeError.
Proof. solve_decision. Defined.

(** A test of pure functions. *)
Abbreviation Check := (Test unit unit).

Definition MAX_PAYLOAD : N := 1024.

Definition command_for_payload (payload : RequestPayload) : Command :=
  match payload with
  | RGet _ _ => Get
  | RPut _ _ _ _ => Put
  | RDelete _ _ => Delete
  | RBatchGet _ _ => BatchGet
  | RTagInvalidate _ _ => TagInvalidate
  | RLeaseStart _ _ _ _ => LeaseStart
  | RLeaseComplete _ _ _ _ _ => LeaseComplete
  end.

Definition request_frame (id : N) (payload : RequestPayload) : RequestFrame :=
  {| rq_request_id := id; rq_command := command_for_payload payload; rq_payload := payload |}.

Definition response_frame (id : N) (command : Command) (payload : ResponsePayload) : ResponseFrame :=
  {| rs_request_id := id; rs_command := command; rs_payload := payload |}.

Definition round_trip (payload : RequestPayload) : Test unit RequestFrame :=
  encoded <- expect_some (encode_request_frame (request_frame 42 payload));;
  expect_ok (decode_request_frame encoded MAX_PAYLOAD).

Definition round_trip_err (payload : RequestPayload) : Test unit DecodeError :=
  encoded <- expect_some (encode_request_frame (request_frame 1 payload));;
  expect_err (decode_request_frame encoded MAX_PAYLOAD).

Definition sample_metadata : Metadata :=
  {| md_ttl := Some {| milliseconds := 1000 |}; md_stale_ttl := Some {| milliseconds := 5000 |};
     md_cost := Some 99; md_tags := ["model:gpt"; "tenant/a"]%string;
     md_content_type := Other |}.

Definition get_k : RequestPayload := RGet "default" (as_bytes "k").

(** ** Requests *)

Definition decodes_get_request : Check :=
  decoded <- round_trip (RGet "default" (as_bytes "user:1"));;
  assert_eq (rq_request_id decoded) 42;;;
  assert_eq (rq_command decoded) Get;;;
  assert_eq (rq_payload decoded) (RGet "default" (as_bytes "user:1")).

(** The addresses the test compares do not exist in the model. *)
Definition decodes_hot_request_views_without_owning_payload_fields : Check :=
  frame <- expect_some (encode_request_frame (request_frame 7 (RGet "default" (as_bytes "user:1"))));;
  decoded <- expect_ok (decode_borrowed_request_frame frame MAX_PAYLOAD);;
  view <- expect_some decoded;;
  assert_eq (rv_request_id view) 7;;;
  assert_eq (rv_command view) Get;;;
  assert_eq (rv_payload view) (VGet "default" (as_bytes "user:1")).

Definition borrowed_decode_skips_owned_only_request_shapes : Check :=
  frame <- expect_some (encode_request_frame (request_frame 8
    (RPut "default" (as_bytes "k") Metadata_default (as_bytes "value"))));;
  view <- expect_ok (decode_borrowed_request_frame frame MAX_PAYLOAD);;
  assert_eq view None.

Definition borrowed_decode_validates_hot_request_fields : Check :=
  invalid_namespace <- expect_some (encode_request_frame (request_frame 9
    (RGet "bad namespace" (as_bytes "k"))));;
  assert_eq (decode_borrowed_request_frame invalid_namespace MAX_PAYLOAD) (Err DInvalidNamespace);;;
  invalid_tag <- expect_some (encode_request_frame (request_frame 10
    (RTagInvalidate "default" "bad tag")));;
  assert_eq (decode_borrowed_request_frame invalid_tag MAX_PAYLOAD) (Err DInvalidTag).

Definition decodes_all_request_payload_shapes : Check :=
  for_in
    [RPut "default" (as_bytes "k") sample_metadata (as_bytes "value");
     RDelete "default" (as_bytes "k");
     RBatchGet "default" [as_bytes "a"; as_bytes "b"];
     RTagInvalidate "default" "tenant/a";
     RLeaseStart "default" (as_bytes "k") 1000 (Some 5000);
     RLeaseComplete "default" (as_bytes "k") "lease-1" sample_metadata (as_bytes "value")]
    (λ request, decoded <- round_trip request;; assert_eq (rq_payload decoded) request).

(** ** Golden bytes *)

Definition encodes_response_frame : Check :=
  encoded <- expect_some (encode_response_frame (response_frame 7 Get (PHit (as_bytes "bytes"))));;
  assert_eq (slice encoded 0 4) (as_bytes "CBX1");;;
  assert_eq (index encoded 4) VERSION;;;
  assert_eq (index encoded 5) KIND_RESPONSE;;;
  assert_eq (index encoded 6) (Command_id Get);;;
  assert_eq (from_be_bytes (slice encoded 8 16)) 7;;;
  assert_eq (from_be_bytes (slice encoded 16 20)) 10;;;
  assert_eq (index encoded 24) x01;;;
  assert_eq (from_be_bytes (slice encoded 25 29)) 5;;;
  assert_eq (slice encoded 29 34) (as_bytes "bytes").

Definition golden_id : N := 72623859790382856.

Definition get_request_matches_golden_bytes : Check :=
  let frame := request_frame golden_id get_k in
  let golden := as_bytes "CBX1" ++ [x01; x00; x01; x00; x01; x02; x03; x04; x05; x06; x07; x08;
    x00; x00; x00; x10; x00; x00; x00; x00; x00; x00; x00; x07] ++ as_bytes "default" ++
    [x00; x00; x00; x01] ++ as_bytes "k" in
  assert_eq (encode_request_frame frame) (Some golden);;;
  decoded <- expect_ok (decode_request_frame golden MAX_PAYLOAD);;
  assert_eq decoded frame.

Definition hit_response_matches_golden_bytes : Check :=
  let frame := response_frame golden_id Get (PHit (as_bytes "bytes")) in
  let golden := as_bytes "CBX1" ++ [x01; x01; x01; x00; x01; x02; x03; x04; x05; x06; x07; x08;
    x00; x00; x00; x0a; x00; x00; x00; x00; x01; x00; x00; x00; x05] ++ as_bytes "bytes" in
  assert_eq (encode_response_frame frame) (Some golden);;;
  decoded <- expect_ok (decode_response_frame golden MAX_PAYLOAD);;
  assert_eq decoded frame.

Definition encodes_borrowed_response_payload_view : Check :=
  buffer <- expect_some (encode_response_payload_view_frame_into 7 Get (WHit (as_bytes "bytes")) []);;
  decoded <- expect_ok (decode_response_frame buffer MAX_PAYLOAD);;
  assert_eq decoded (response_frame 7 Get (PHit (as_bytes "bytes"))).

(** Without the capacities, which a list does not have. *)
Definition encode_into_reuses_and_truncates_existing_buffers : Check :=
  let request := request_frame 11 get_k in
  buffer <- expect_some (encode_request_frame_into request (replicate 256 xff));;
  assert_that (len buffer <? 256);;;
  decoded <- expect_ok (decode_request_frame buffer MAX_PAYLOAD);;
  assert_eq decoded request;;;
  let response := response_frame 11 Get PMiss in
  buffer <- expect_some (encode_response_frame_into response buffer);;
  assert_that (len buffer <? 256);;;
  decoded <- expect_ok (decode_response_frame buffer MAX_PAYLOAD);;
  assert_eq decoded response.

(** ** Refused frames *)

Definition rejects_bad_header_fields : Check :=
  frame <- expect_some (encode_request_frame (request_frame 1 get_k));;
  assert_eq (decode_request_frame (<[0%nat := x58]> frame) MAX_PAYLOAD) (Err DBadMagic);;;
  assert_eq (decode_request_frame (<[4%nat := x02]> frame) MAX_PAYLOAD)
    (Err (DUnsupportedVersion x02));;;
  assert_eq (decode_request_frame (<[5%nat := KIND_RESPONSE]> frame) MAX_PAYLOAD)
    (Err (DInvalidKind KIND_RESPONSE));;;
  assert_eq (decode_request_frame (<[7%nat := x01]> frame) MAX_PAYLOAD) (Err (DNonzeroFlags x01)).

(** [frame[16..20].copy_from_slice(..)] *)
Definition set_payload_len (n : N) (frame : bytes) : bytes :=
  take 16 frame ++ to_be_bytes 4 n ++ drop 20 frame.

Definition rejects_unknown_command_and_oversized_frame : Check :=
  frame <- expect_some (encode_request_frame (request_frame 1 get_k));;
  let frame := <[6%nat := x7f]> frame in
  assert_eq (decode_request_frame frame MAX_PAYLOAD) (Err (DUnknownCommand x7f));;;
  let oversized := set_payload_len 2048 (<[6%nat := Command_id Get]> frame) in
  assert_eq (decode_request_frame oversized MAX_PAYLOAD) (Err (DFrameTooLarge 2048 MAX_PAYLOAD)).

Definition rejects_truncated_and_trailing_payloads : Check :=
  frame <- expect_some (encode_request_frame (request_frame 1 get_k));;
  let truncated := take (length frame - 1) frame in
  assert_that (match decode_request_frame truncated MAX_PAYLOAD with
               | Err (DTruncatedPayload _ _) => true
               | _ => false
               end);;;
  let payload_len := from_be_bytes (slice frame 16 20) + 1 in
  let trailing := set_payload_len payload_len frame ++ [x00] in
  assert_eq (decode_request_frame trailing MAX_PAYLOAD) (Err (DTrailingBytes 1)).

Definition rejects_invalid_payload_values : Check :=
  e <- round_trip_err (RBatchGet "default" []);;
  assert_eq e (DInvalidPayload "batch get requires at least one key");;;
  e <- round_trip_err (RLeaseStart "default" (as_bytes "k") 0 None);;
  assert_eq e (DInvalidPayload "lease ttl must be greater than zero");;;
  e <- round_trip_err (RLeaseComplete "default" (as_bytes "k") "" Metadata_default (as_bytes "value"));;
  assert_eq e (DInvalidPayload "lease token must be non-empty").

Definition rejects_invalid_namespace_and_tag : Check :=
  e <- round_trip_err (RGet "bad namespace" (as_bytes "k"));;
  assert_eq e DInvalidNamespace;;;
  e <- round_trip_err (RTagInvalidate "default" "bad tag!");;
  assert_eq e DInvalidTag.

(** ** Shared fixtures *)

(** A row of [frames.json], of which the tests read these fields. *)
Record Fixture := {
  fx_name : string;
  fx_direction : string;
  fx_expected_error : option string;
  fx_hex : string
}.

Definition hex_value (c : Ascii.ascii) : option N :=
  let n := Ascii.N_of_ascii c in
  if (48 <=? n) && (n <=? 57) then Some (n - 48)
  else if (97 <=? n) && (n <=? 102) then Some (n - 87)
  else if (65 <=? n) && (n <=? 70) then Some (n - 55) else None.

Fixpoint hex_bytes (s : string) : option bytes :=
  match s with
  | EmptyString => Some []
  | String a (String b s) =>
    h ← hex_value a; l ← hex_value b; rest ← hex_bytes s;
    Some (byte_of_N (h * 16 + l) :: rest)
  | _ => None
  end.

Definition fixture_bytes (fixture : Fixture) : Test unit bytes := expect_some (hex_bytes (fx_hex fixture)).

Definition full_metadata : Metadata :=
  {| md_ttl := Some {| milliseconds := 300000 |}; md_stale_ttl := Some {| milliseconds := 60000 |};
     md_cost := Some 42; md_tags := ["user:123"; "prompt/template/v2"]%string;
     md_content_type := Other |}.

Definition hot_metadata : Metadata :=
  {| md_ttl := Some {| milliseconds := 300000 |}; md_stale_ttl := Some {| milliseconds := 60000 |};
     md_cost := None; md_tags := ["hot"]%string; md_content_type := OctetStream |}.

(** The arms of [match name], in order. *)
Definition expected_request_fixtures : list (string * RequestFrame) :=
  [("get_request", request_frame 1 (RGet "default" (as_bytes "user:123")));
   ("put_request_default_metadata",
     request_frame 2 (RPut "default" (as_bytes "raw") Metadata_default (as_bytes "value")));
   ("put_request_full_metadata",
     request_frame 3 (RPut "default" (as_bytes "ai:1") full_metadata (as_bytes "cached")));
   ("delete_request", request_frame 4 (RDelete "default" (as_bytes "raw")));
   ("batch_get_request", request_frame 5 (RBatchGet "default" [as_bytes "a"; as_bytes "b"]));
   ("tag_invalidate_request", request_frame 6 (RTagInvalidate "default" "user:123/profile"));
   ("lease_start_request", request_frame 7 (RLeaseStart "default" (as_bytes "hot") 30000 None));
   ("lease_start_request_allow_stale",
     request_frame 8 (RLeaseStart "default" (as_bytes "hot") 30000 (Some 5000)));
   ("lease_complete_request",
     request_frame 9 (RLeaseComplete "default" (as_bytes "hot") "lease-1" hot_metadata
       (as_bytes "fresh")))]%string.

Definition expected_response_fixtures : list (string * ResponseFrame) :=
  [("hit_response", response_frame 101 Get (PHit (as_bytes "value")));
   ("stale_response", response_frame 102 Get (PStale (as_bytes "old")));
   ("miss_response", response_frame 103 Get PMiss);
   ("stored_response", response_frame 104 Put (PStored 2));
   ("deleted_response_true", response_frame 105 Delete (PDeleted true));
   ("deleted_response_false", response_frame 106 Delete (PDeleted false));
   ("invalidated_response", response_frame 107 TagInvalidate (PInvalidated 3));
   ("batch_get_response", response_frame 108 BatchGet
     (PBatchGet [BHit (as_bytes "a-value"); BStale (as_bytes "b-stale"); BMiss]));
   ("lease_granted_response_empty",
     response_frame 109 LeaseStart (PLeaseGranted "lease-1" None));
   ("lease_granted_response_stale",
     response_frame 110 LeaseStart (PLeaseGranted "lease-2" (Some (as_bytes "old"))));
   ("lease_denied_response", response_frame 111 LeaseStart PLeaseDenied);
   ("error_response", response_frame 112 Get (PError InvalidNamespace "invalid namespace"))]%string.

Definition arm {A} (name : string) (arms : list (string * A)) : option A :=
  snd <$> find (λ p, bool_decide (p.1 = name)) arms.

Definition expected_request_fixture (name : string) : Test unit RequestFrame :=
  expect_some (arm name expected_request_fixtures).
Definition expected_response_fixture (name : string) : Test unit ResponseFrame :=
  expect_some (arm name expected_response_fixtures).

Definition decode_error_name (error : DecodeError) : string :=
  match error with
  | DIncompleteHeader => "IncompleteHeader"
  | DBadMagic => "BadMagic"
  | DUnsupportedVersion _ => "UnsupportedVersion"
  | DInvalidKind _ => "InvalidKind"
  | DUnknownCommand _ => "UnknownCommand"
  | DNonzeroFlags _ => "NonzeroFlags"
  | DNonzeroReserved _ => "NonzeroReserved"
  | DFrameTooLarge _ _ => "FrameTooLarge"
  | DTruncatedPayload _ _ => "TruncatedPayload"
  | DInvalidPayload _ => "InvalidPayload"
  | DInvalidUtf8 => "InvalidUtf8"
  | DInvalidNamespace => "InvalidNamespace"
  | DInvalidTag => "InvalidTag"
  | DInvalidBool _ => "InvalidBool"
  | DTrailingBytes _ => "TrailingBytes"
  end.

Definition fixture_matches_codec (fixture : Fixture) : Check :=
  bs <- fixture_bytes fixture;;
  if bool_decide (fx_direction fixture = "request"%string) then
    expected <- expected_request_fixture (fx_name fixture);;
    assert_eq (encode_request_frame expected) (Some bs);;;
    decoded <- expect_ok (decode_request_frame bs MAX_PAYLOAD);;
    assert_eq decoded expected
  else if bool_decide (fx_direction fixture = "response"%string) then
    expected <- expected_response_fixture (fx_name fixture);;
    assert_eq (encode_response_frame expected) (Some bs);;;
    decoded <- expect_ok (decode_response_frame bs MAX_PAYLOAD);;
    assert_eq decoded expected
  else if bool_decide (fx_direction fixture = "malformed_request"%string) then
    error <- expect_err (decode_request_frame bs MAX_PAYLOAD);;
    assert_eq (Some (decode_error_name error)) (fx_expected_error fixture)
  else if bool_decide (fx_direction fixture = "malformed_response"%string) then
    error <- expect_err (decode_response_frame bs MAX_PAYLOAD);;
    assert_eq (Some (decode_error_name error)) (fx_expected_error fixture)
  else λ _, None.

Definition shared_fixture_file_matches_codec (fixtures : list Fixture) : Check :=
  for_in fixtures fixture_matches_codec.

(** [fixtures/native-protocol/v1/frames.json] *)
Definition SHARED_FIXTURES : list Fixture := [
  {| fx_name := "get_request"; fx_direction := "request"; fx_expected_error := None;
     fx_hex := "4342583101000100000000000000000100000017000000000000000764656661756c7400000008757365723a313233" |};
  {| fx_name := "put_request_default_metadata"; fx_direction := "request"; fx_expected_error := None;
     fx_hex := "4342583101000200000000000000000200000037000000000000000764656661756c7400000003726177000000000000000000000000000000000000000000000000000000000000000576616c7565" |};
  {| fx_name := "put_request_full_metadata"; fx_direction := "request"; fx_expected_error := None;
     fx_hex := "434258310100020000000000000000030000005b000000000000000764656661756c740000000461693a3100000000000493e0000000000000ea6001000000000000002a000200000008757365723a3132330000001270726f6d70742f74656d706c6174652f76320100000006636163686564" |};
  {| fx_name := "delete_request"; fx_direction := "request"; fx_expected_error := None;
     fx_hex := "4342583101000300000000000000000400000012000000000000000764656661756c7400000003726177" |};
  {| fx_name := "batch_get_request"; fx_direction := "request"; fx_expected_error := None;
     fx_hex := "4342583101000400000000000000000500000019000000000000000764656661756c740000000200000001610000000162" |};
  {| fx_name := "tag_invalidate_request"; fx_direction := "request"; fx_expected_error := None;
     fx_hex := "434258310100050000000000000000060000001f000000000000000764656661756c7400000010757365723a3132332f70726f66696c65" |};
  {| fx_name := "lease_start_request"; fx_direction := "request"; fx_expected_error := None;
     fx_hex := "4342583101000600000000000000000700000022000000000000000764656661756c7400000003686f7400000000000075300000000000000000" |};
  {| fx_name := "lease_start_request_allow_stale"; fx_direction := "request"; fx_expected_error := None;
     fx_hex := "4342583101000600000000000000000800000022000000000000000764656661756c7400000003686f7400000000000075300000000000001388" |};
  {| fx_name := "lease_complete_request"; fx_direction := "request"; fx_expected_error := None;
     fx_hex := "4342583101000700000000000000000900000049000000000000000764656661756c7400000003686f74000000076c656173652d3100000000000493e0000000000000ea60000000000000000000000100000003686f7400000000056672657368" |};
  {| fx_name := "hit_response"; fx_direction := "response"; fx_expected_error := None;
     fx_hex := "434258310101010000000000000000650000000a00000000010000000576616c7565" |};
  {| fx_name := "stale_response"; fx_direction := "response"; fx_expected_error := None;
     fx_hex := "43425831010101000000000000000066000000080000000002000000036f6c64" |};
  {| fx_name := "miss_response"; fx_direction := "response"; fx_expected_error := None;
     fx_hex := "43425831010101000000000000000067000000010000000003" |};
  {| fx_name := "stored_response"; fx_direction := "response"; fx_expected_error := None;
     fx_hex := "4342583101010200000000000000006800000005000000000400000002" |};
  {| fx_name := "deleted_response_true"; fx_direction := "response"; fx_expected_error := None;
     fx_hex := "4342583101010300000000000000006900000002000000000501" |};
  {| fx_name := "deleted_response_false"; fx_direction := "response"; fx_expected_error := None;
     fx_hex := "4342583101010300000000000000006a00000002000000000500" |};
  {| fx_name := "invalidated_response"; fx_direction := "response"; fx_expected_error := None;
     fx_hex := "4342583101010500000000000000006b00000005000000000600000003" |};
  {| fx_name := "batch_get_response"; fx_direction := "response"; fx_expected_error := None;
     fx_hex := "4342583101010400000000000000006c0000001e0000000000000000030100000007612d76616c75650200000007622d7374616c6503" |};
  {| fx_name := "lease_granted_response_empty"; fx_direction := "response"; fx_expected_error := None;
     fx_hex := "4342583101010600000000000000006d0000000d0000000007000000076c656173652d3100" |};
  {| fx_name := "lease_granted_response_stale"; fx_direction := "response"; fx_expected_error := None;
     fx_hex := "4342583101010600000000000000006e000000140000000007000000076c656173652d3201000000036f6c64" |};
  {| fx_name := "lease_denied_response"; fx_direction := "response"; fx_expected_error := None;
     fx_hex := "4342583101010600000000000000006f000000010000000008" |};
  {| fx_name := "error_response"; fx_direction := "response"; fx_expected_error := None;
     fx_hex := "434258310101010000000000000000700000001800000000ff000400000011696e76616c6964206e616d657370616365" |};
  {| fx_name := "bad_magic"; fx_direction := "malformed_request"; fx_expected_error := Some "BadMagic";
     fx_hex := "584258310100010000000000000000c900000010000000000000000764656661756c74000000016b" |};
  {| fx_name := "unsupported_version"; fx_direction := "malformed_request"; fx_expected_error := Some "UnsupportedVersion";
     fx_hex := "434258310200010000000000000000c900000010000000000000000764656661756c74000000016b" |};
  {| fx_name := "response_kind_for_request"; fx_direction := "malformed_request"; fx_expected_error := Some "InvalidKind";
     fx_hex := "434258310101010000000000000000c900000010000000000000000764656661756c74000000016b" |};
  {| fx_name := "unknown_command"; fx_direction := "malformed_request"; fx_expected_error := Some "UnknownCommand";
     fx_hex := "4342583101007f0000000000000000c900000010000000000000000764656661756c74000000016b" |};
  {| fx_name := "nonzero_flags"; fx_direction := "malformed_request"; fx_expected_error := Some "NonzeroFlags";
     fx_hex := "434258310100010100000000000000c900000010000000000000000764656661756c74000000016b" |};
  {| fx_name := "nonzero_reserved"; fx_direction := "malformed_request"; fx_expected_error := Some "NonzeroReserved";
     fx_hex := "434258310100010000000000000000c900000010000000010000000764656661756c74000000016b" |};
  {| fx_name := "oversized_payload_len"; fx_direction := "malformed_request"; fx_expected_error := Some "FrameTooLarge";
     fx_hex := "434258310100010000000000000000c900000800000000000000000764656661756c74000000016b" |};
  {| fx_name := "trailing_payload_bytes"; fx_direction := "malformed_request"; fx_expected_error := Some "TrailingBytes";
     fx_hex := "434258310100010000000000000000c900000011000000000000000764656661756c74000000016b00" |};
  {| fx_name := "invalid_namespace"; fx_direction := "malformed_request"; fx_expected_error := Some "InvalidNamespace";
     fx_hex := "434258310100010000000000000000ca00000016000000000000000d626164206e616d657370616365000000016b" |};
  {| fx_name := "invalid_tag"; fx_direction := "malformed_request"; fx_expected_error := Some "InvalidTag";
     fx_hex := "434258310100050000000000000000cb00000017000000000000000764656661756c74000000086261642074616721" |};
  {| fx_name := "invalid_bool_response"; fx_direction := "malformed_response"; fx_expected_error := Some "InvalidBool";
     fx_hex := "434258310101030000000000000000cc00000002000000000502" |};
  {| fx_name := "empty_batch_get"; fx_direction := "malformed_request"; fx_expected_error := Some "InvalidPayload";
     fx_hex := "434258310100040000000000000000cd0000000f000000000000000764656661756c7400000000" |};
  {| fx_name := "zero_lease_ttl"; fx_direction := "malformed_request"; fx_expected_error := Some "InvalidPayload";
     fx_hex := "434258310100060000000000000000ce00000020000000000000000764656661756c74000000016b00000000000000000000000000000000" |};
  {| fx_name := "empty_lease_token"; fx_direction := "malformed_request"; fx_expected_error := Some "InvalidPayload";
     fx_hex := "434258310100070000000000000000cf00000039000000000000000764656661756c74000000016b00000000000000000000000000000000000000000000000000000000000000000000000576616c7565" |}
]%string.

(** ** Running them *)

(** Every test of the protocol crate passes on the model, the shared fixtures
    included. *)
Theorem protocol_tests_pass :
  Forall (λ test : Check, passes test tt = true)
    [decodes_get_request; decodes_hot_request_views_without_owning_payload_fields;
     borrowed_decode_skips_owned_only_request_shapes; borrowed_decode_validates_hot_request_fields;
     decodes_all_request_payload_shapes; encodes_response_frame; get_request_matches_golden_bytes;
     hit_response_matches_golden_bytes; encodes_borrowed_response_payload_view;
     encode_into_reuses_and_truncates_existing_buffers; rejects_bad_header_fields;
     rejects_unknown_command_and_oversized_frame; rejects_truncated_and_trailing_payloads;
     rejects_invalid_payload_values; rejects_invalid_namespace_and_tag;
     shared_fixture_file_matches_codec SHARED_FIXTURES].
Proof. repeat (constructor; [vm_compute; reflexivity|]). constructor. Qed.
End ProtocolTests.
