(* ===== verification/ConfigTests.v ===== *)
(** * ConfigTests: the tests of [src/config.rs] on the model *)

From S2P Require Import Prelude Bytes Addr AddrShow Config TestKit.

Module ConfigTests.
Import Addr AddrShow Config TestKit.
#[local] Open Scope test_scope.

#[local] Instance ConfigError_eq : EqDecision ConfigError.
Proof. solve_decision. Defined.

Abbreviation Check := (Test unit unit).

(** [Config::from_args(args).expect(..)], and [.expect_err(..)] *)
Definition parsed (args : list string) : Test unit Config :=
  r <- expect_some (from_args args);; expect_ok r.
Definition refused (args : list string) (error : ConfigError) : Check :=
  r <- expect_some (from_args args);; e <- expect_err r;; assert_eq e error.

Definition uses_default_bind_address : Check :=
  config <- parsed [];;
  assert_eq (addr_to_string (bind_addr config)) DEFAULT_BIND_ADDR;;;
  assert_eq (addr_to_string <$> native_bind_addr config) (Some DEFAULT_NATIVE_BIND_ADDR);;;
  assert_eq (native_unix_socket config) None;;;
  assert_eq (max_body_bytes config) DEFAULT_MAX_BODY_BYTES;;;
  assert_eq (max_memory_bytes config) DEFAULT_MAX_MEMORY_BYTES;;;
  assert_eq (max_value_bytes config) DEFAULT_MAX_VALUE_BYTES;;;
  assert_eq (cleanup_interval_ms config) DEFAULT_CLEANUP_INTERVAL_MS;;;
  assert_eq (cleanup_max_entries_per_tick config) DEFAULT_CLEANUP_MAX_ENTRIES_PER_TICK.

Definition parses_bind_address : Check :=
  config <- parsed ["--bind"; "0.0.0.0:9000"; "--native-bind"; "127.0.0.1:9001";
                    "--native-unix"; "/tmp/cachebox.sock"]%string;;
  assert_eq (addr_to_string (bind_addr config)) "0.0.0.0:9000"%string;;;
  assert_eq (addr_to_string <$> native_bind_addr config) (Some "127.0.0.1:9001"%string);;;
  assert_eq (native_unix_socket config) (Some "/tmp/cachebox.sock"%string).

Definition reports_missing_bind_value : Check :=
  refused ["--bind"]%string (MissingValue "--bind").

Definition reports_invalid_bind_address : Check :=
  refused ["--bind"; "not-an-address"]%string (InvalidBindAddress "not-an-address");;;
  refused ["--native-bind"; "nope"]%string (InvalidNativeBindAddress "nope");;;
  refused ["--native-unix"; ""]%string (InvalidNativeUnixSocket "").

Definition parses_max_body_bytes : Check :=
  config <- parsed ["--max-body-bytes"; "1024"; "--max-memory-bytes"; "2048";
                    "--max-value-bytes"; "512"; "--cleanup-interval-ms"; "100";
                    "--cleanup-max-entries-per-tick"; "64"]%string;;
  assert_eq (max_body_bytes config) 1024;;;
  assert_eq (max_memory_bytes config) 2048;;;
  assert_eq (max_value_bytes config) 512;;;
  assert_eq (cleanup_interval_ms config) 100;;;
  assert_eq (cleanup_max_entries_per_tick config) 64.

Definition allows_disabling_background_cleanup : Check :=
  config <- parsed ["--cleanup-interval-ms"; "0"]%string;;
  assert_eq (cleanup_interval_ms config) 0.

Definition rejects_invalid_max_body_bytes : Check :=
  refused ["--max-body-bytes"; "0"]%string (InvalidMaxBodyBytes "0").

Definition rejects_invalid_memory_limits : Check :=
  refused ["--max-memory-bytes"; "nope"]%string (InvalidMaxMemoryBytes "nope");;;
  refused ["--max-value-bytes"; "0"]%string (InvalidMaxValueBytes "0");;;
  refused ["--cleanup-interval-ms"; "nope"]%string (InvalidCleanupIntervalMs "nope");;;
  refused ["--cleanup-max-entries-per-tick"; "0"]%string (InvalidCleanupMaxEntriesPerTick "0").

Definition reports_unknown_argument : Check :=
  refused ["--verbose"]%string (UnknownArgument "--verbose").

Definition reports_help_request : Check := refused ["--help"]%string HelpRequested.

(** Every test of [src/config.rs] passes on the model. *)
Theorem config_tests_pass :
  Forall (λ test : Check, passes test tt = true)
    [uses_default_bind_address; parses_bind_address; reports_missing_bind_value;
     reports_invalid_bind_address; parses_max_body_bytes; allows_disabling_background_cleanup;
     rejects_invalid_max_body_bytes; rejects_invalid_memory_limits; reports_unknown_argument;
     reports_help_request].
Proof. repeat (constructor; [vm_compute; reflexivity|]). constructor. Qed.
End ConfigTests.
