(* ===== verification/ClientTests.v ===== *)
(** * ClientTests: the tests of the Rust client on the model

    [mod tests] of [clients/rust/cachebox-client/src/lib.rs] and of its
    [ai.rs]. *)

From S2P Require Import Prelude Bytes Protocol Client Ai TestKit.

Module ClientTests.
Import Protocol Client TestKit.
#[local] Open Scope test_scope.

#[local] Instance ClientBatchItem_eq : EqDecision BatchItem.
Proof. solve_decision. Defined.
#[local] Instance ClientResponsePayload_eq : EqDecision ResponsePayload.
Proof. solve_decision. Defined.
#[local] Instance ClientGetResult_eq : EqDecision GetResult.
Proof. solve_decision. Defined.
#[local] Instance ClientLeaseStartResult_eq : EqDecision LeaseStartResult.
Proof. solve_decision. Defined.

Abbreviation Check := (Test unit unit).

(** ** The matcher *)

Definition expected (entries : list (N * nat * Command)) : gmap N ExpectedResponse :=
  list_to_map ((λ '(request_id, index, command),
    (request_id, {| ex_index := index; ex_command := command |})) <$> entries).

(** [matcher.push(..)] *)
Definition push (id : N) (command : Command) (payload : ResponsePayload) :
    Test PipelinedResponseMatcher (result unit ClientError) := λ m,
  match matcher_push {| rs_request_id := id; rs_command := command; rs_payload := payload |} m with
  | Some (Ok m) => Some (Ok tt, m)
  | Some (Err e) => Some (Err e, m)
  | None => None
  end.

Definition push_ok (id : N) (command : Command) (payload : ResponsePayload) :
    Test PipelinedResponseMatcher unit :=
  r <- push id command payload;; expect_ok r.

Definition finished : Test PipelinedResponseMatcher (result (list ResponsePayload) ClientError) :=
  λ m, Some (matcher_finish m, m).

Definition unexpected (e : ClientError) : bool :=
  match e with UnexpectedResponse _ => true | _ => false end.

Definition pipelined_matcher_returns_payloads_in_request_order :
    Test PipelinedResponseMatcher unit :=
  push_ok 12 Get PMiss;;;
  push_ok 10 Get (PHit (as_bytes "value"));;;
  push_ok 11 Delete (PDeleted true);;;
  r <- finished;; payloads <- expect_ok r;;
  assert_eq payloads [PHit (as_bytes "value"); PDeleted true; PMiss].

Definition pipelined_matcher_propagates_server_errors_after_matching :
    Test PipelinedResponseMatcher unit :=
  push_ok 2 Get (PHit (as_bytes "value"));;;
  push_ok 1 Get (PError InvalidNamespace "invalid namespace");;;
  r <- finished;; error <- expect_err r;;
  assert_that (match error with ServerError InvalidNamespace _ => true | _ => false end).

Definition pipelined_matcher_rejects_command_mismatch : Test PipelinedResponseMatcher unit :=
  r <- push 1 Put (PStored 0);; error <- expect_err r;;
  assert_that (unexpected error).

(** ** Typed results *)

Definition get_result_accepts_only_get_states : Check :=
  r <- expect_ok (GetResult_try_from (PHit (as_bytes "value")));;
  assert_eq r (Hit (as_bytes "value"));;;
  r <- expect_ok (GetResult_try_from (PStale (as_bytes "old")));;
  assert_eq r (Stale (as_bytes "old"));;;
  r <- expect_ok (GetResult_try_from PMiss);;
  assert_eq r Miss;;;
  error <- expect_err (GetResult_try_from (PStored 0));;
  assert_that (unexpected error).

Definition lease_start_result_accepts_only_lease_start_states : Check :=
  r <- expect_ok (LeaseStartResult_try_from (PHit (as_bytes "value")));;
  assert_eq r (LHit (as_bytes "value"));;;
  r <- expect_ok (LeaseStartResult_try_from (PStale (as_bytes "old")));;
  assert_eq r (LStale (as_bytes "old"));;;
  r <- expect_ok (LeaseStartResult_try_from (PLeaseGranted "lease-1" (Some (as_bytes "old"))));;
  assert_eq r (LeaseGranted "lease-1" (Some (as_bytes "old")));;;
  r <- expect_ok (LeaseStartResult_try_from PLeaseDenied);;
  assert_eq r LeaseDenied;;;
  error <- expect_err (LeaseStartResult_try_from (PStored 0));;
  assert_that (unexpected error).

(** Every test of the client's [lib.rs] passes on the model. *)
Theorem client_tests_pass :
  Forall (λ b, b = true)
    [passes pipelined_matcher_returns_payloads_in_request_order
       (matcher_new 3 (expected [(10, 0%nat, Get); (11, 1%nat, Delete); (12, 2%nat, Get)]));
     passes pipelined_matcher_propagates_server_errors_after_matching
       (matcher_new 2 (expected [(1, 0%nat, Get); (2, 1%nat, Get)]));
     passes pipelined_matcher_rejects_command_mismatch
       (matcher_new 1 (expected [(1, 0%nat, Get)]));
     passes get_result_accepts_only_get_states tt;
     passes lease_start_result_accepts_only_lease_start_states tt].
Proof. repeat (constructor; [vm_compute; reflexivity|]). constructor. Qed.
End ClientTests.

Module AiTests.
Import Ai TestKit.
#[local] Open Scope test_scope.

#[local] Instance GenerationLeaseAction_eq : EqDecision GenerationLeaseAction.
Proof. solve_decision. Defined.
#[local] Instance GenerationCompletionFailure_eq : EqDecision GenerationCompletionFailure.
Proof. solve_decision. Defined.
#[local] Instance GenerationCompletion_eq : EqDecision GenerationCompletion.
Proof. solve_decision. Defined.
#[local] Instance CapturedStream_eq : EqDecision CapturedStream.
Proof. solve_decision. Defined.
#[local] Instance StreamCaptureError_eq : EqDecision StreamCaptureError.
Proof. solve_decision. Defined.

Abbreviation Check := (Test unit unit).

(** A number is its text; the strings of the tests need no escapes. *)
#[local] Instance test_json : SerdeJson := {|
  Number := string;
  number_to_string n := n;
  json_string s := String (Ascii.ascii_of_nat 34) s +:+ String (Ascii.ascii_of_nat 34) ""
|}.

(** ** Inputs *)

Definition typed (name : string) : Value := Object [("type"%string, Str name)].

Definition set_messages (messages : list PromptMessage) (i : PromptCacheKeyInput) :
    PromptCacheKeyInput :=
  {| pi_provider := pi_provider i; pi_model := pi_model i; pi_model_version := pi_model_version i;
     pi_messages := messages; pi_system_prompt := pi_system_prompt i;
     pi_tool_schema := pi_tool_schema i; pi_sampling_parameters := pi_sampling_parameters i;
     pi_output_format := pi_output_format i;
     pi_retrieval_context_hash := pi_retrieval_context_hash i;
     pi_application_namespace := pi_application_namespace i |}.

(** The input of [base_input], by the fields the tests vary. *)
Definition prompt_input (model : string) (messages : list PromptMessage) (tool_schema : Value)
    (temperature : string) (retrieval_context_hash : string) : PromptCacheKeyInput :=
  {| pi_provider := "openai"; pi_model := model; pi_model_version := Some "2026-06-01"%string;
     pi_messages := messages; pi_system_prompt := Some "Answer with citations."%string;
     pi_tool_schema := Some tool_schema;
     pi_sampling_parameters := <["top_p"%string := Num ("0.95"%string : Number)]>
       (<["temperature"%string := Num (temperature : Number)]> ∅);
     pi_output_format := Some "json"%string;
     pi_retrieval_context_hash := Some retrieval_context_hash;
     pi_application_namespace := "workspace-a" |}.

Definition base_messages : list PromptMessage :=
  [PromptMessage_new "user" "Summarize the release notes.";
   with_name "cachebot" (PromptMessage_new "assistant" "Which product?");
   PromptMessage_new "user" "Cachebox."].

Definition base_schema : Value :=
  Object [("properties"%string, Object [("limit"%string, typed "integer");
                                        ("query"%string, typed "string")]);
          ("type"%string, Str "object")].

Definition base_input : PromptCacheKeyInput :=
  prompt_input "gpt-example" base_messages base_schema "0.2" "sha256:abc123".

Definition embedding_input (model content : string) (case_fold : bool) (chunking : string)
    (dimensions : N) : EmbeddingCacheKeyInput :=
  let i := EmbeddingCacheKeyInput_new model content chunking dimensions "workspace-a" in
  {| ei_model := ei_model i; ei_model_version := Some "2026-06-01"%string;
     ei_input_content_hash := ei_input_content_hash i;
     ei_normalization_settings := <["unicode"%string := Str "nfc"]>
       (<["case_fold"%string := Bool case_fold]> (ei_normalization_settings i));
     ei_chunking_strategy := ei_chunking_strategy i; ei_dimensions := ei_dimensions i;
     ei_application_namespace := ei_application_namespace i |}.

Definition base_embedding_input : EmbeddingCacheKeyInput :=
  embedding_input "text-embedding-example" "sha256:contentabc" false "markdown:v1:512:64" 1536.

(** ** Keys *)

Definition prompt_keys_are_deterministic_for_equivalent_inputs : Check :=
  let left := base_input in
  let right := prompt_input "gpt-example" base_messages
    (Object [("type"%string, Str "object");
             ("properties"%string, Object [("query"%string, typed "string");
                                           ("limit"%string, typed "integer")])])
    "0.2" "sha256:abc123" in
  assert_eq (prompt_cache_key left) (prompt_cache_key right);;;
  assert_eq (normalize_prompt_input left) (normalize_prompt_input right).

Definition prompt_keys_change_for_meaningful_input_changes : Check :=
  let original := prompt_cache_key base_input in
  for_in
    [prompt_input "gpt-example"
       (<[0%nat := PromptMessage_new "user" "Summarize the changelog."]> base_messages)
       base_schema "0.2" "sha256:abc123";
     prompt_input "other-model" base_messages base_schema "0.2" "sha256:abc123";
     prompt_input "gpt-example" base_messages
       (Object [("required"%string, Array [Str "query"]); ("type"%string, Str "object")])
       "0.2" "sha256:abc123";
     prompt_input "gpt-example" base_messages base_schema "0.8" "sha256:abc123";
     prompt_input "gpt-example" base_messages base_schema "0.2" "sha256:def456"]
    (λ changed, assert_ne original (prompt_cache_key changed)).

Definition is_ascii (b : byte) : bool := Byte.to_N b <? 128.

Definition prompt_key_output_is_binary_safe_ascii : Check :=
  let input := set_messages (base_messages ++ [PromptMessage_new "user"
    "Unicode survives normalization: Zażółć gęślą jaźń 🚀"]) base_input in
  let key := prompt_cache_key input in
  assert_eq (take (length PROMPT_KEY_PREFIX) key) PROMPT_KEY_PREFIX;;;
  assert_eq (len key) (len PROMPT_KEY_PREFIX + 32);;;
  assert_that (forallb is_ascii key).

Definition message_order_affects_prompt_keys : Check :=
  let reordered := match base_messages with
                   | a :: b :: rest => b :: a :: rest
                   | l => l
                   end in
  assert_ne (prompt_cache_key base_input) (prompt_cache_key (set_messages reordered base_input)).

Definition missing_optional_fields_are_distinct_from_empty_values : Check :=
  let missing := set_messages [PromptMessage_new "user" "hello"]
    (PromptCacheKeyInput_new "openai" "gpt-example" "workspace-a") in
  let empty :=
    {| pi_provider := pi_provider missing; pi_model := pi_model missing;
       pi_model_version := pi_model_version missing; pi_messages := pi_messages missing;
       pi_system_prompt := Some ""%string; pi_tool_schema := pi_tool_schema missing;
       pi_sampling_parameters := pi_sampling_parameters missing;
       pi_output_format := pi_output_format missing;
       pi_retrieval_context_hash := pi_retrieval_context_hash missing;
       pi_application_namespace := pi_application_namespace missing |} in
  assert_ne (prompt_cache_key missing) (prompt_cache_key empty).

Definition embedding_keys_are_deterministic_for_equivalent_inputs : Check :=
  let left := base_embedding_input in
  let i := EmbeddingCacheKeyInput_new "text-embedding-example" "sha256:contentabc"
    "markdown:v1:512:64" 1536 "workspace-a" in
  let right :=
    {| ei_model := ei_model i; ei_model_version := Some "2026-06-01"%string;
       ei_input_content_hash := ei_input_content_hash i;
       ei_normalization_settings := <["case_fold"%string := Bool false]>
         (<["unicode"%string := Str "nfc"]> (ei_normalization_settings i));
       ei_chunking_strategy := ei_chunking_strategy i; ei_dimensions := ei_dimensions i;
       ei_application_namespace := ei_application_namespace i |} in
  assert_eq (embedding_cache_key left) (embedding_cache_key right);;;
  assert_eq (normalize_embedding_input left) (normalize_embedding_input right).

Definition embedding_keys_change_for_model_input_chunking_and_dimensions : Check :=
  let original := embedding_cache_key base_embedding_input in
  for_in
    [embedding_input "other-embedding-model" "sha256:contentabc" false "markdown:v1:512:64" 1536;
     embedding_input "text-embedding-example" "sha256:contentdef" false "markdown:v1:512:64" 1536;
     embedding_input "text-embedding-example" "sha256:contentabc" true "markdown:v1:512:64" 1536;
     embedding_input "text-embedding-example" "sha256:contentabc" false "markdown:v2:512:64" 1536;
     embedding_input "text-embedding-example" "sha256:contentabc" false "markdown:v1:512:64" 768]
    (λ changed, assert_ne original (embedding_cache_key changed)).

Definition embedding_key_output_is_binary_safe_ascii : Check :=
  let key := embedding_cache_key base_embedding_input in
  assert_eq (take (length EMBEDDING_KEY_PREFIX) key) EMBEDDING_KEY_PREFIX;;;
  assert_eq (len key) (len EMBEDDING_KEY_PREFIX + 32);;;
  assert_that (forallb is_ascii key).

(** ** Leases and streams *)

Definition generation_lease_helper_returns_fresh_hits : Check :=
  assert_eq (generation_lease_action (GHit (as_bytes "fresh"))) (ReturnCached (as_bytes "fresh")).

Definition generation_lease_helper_returns_stale_values : Check :=
  assert_eq (generation_lease_action (GStale (as_bytes "stale"))) (ReturnCached (as_bytes "stale")).

Definition generation_lease_helper_generates_only_when_granted : Check :=
  assert_eq (generation_lease_action (GLeaseGranted "lease-1" (Some (as_bytes "old"))))
    (Generate "lease-1" (Some (as_bytes "old"))).

Definition generation_lease_helper_retries_later_when_denied : Check :=
  assert_eq (generation_lease_action GLeaseDenied) RetryLater.

Definition generation_completion_failure_preserves_token_and_reason : Check :=
  assert_eq (generation_completion_failure "lease-1" FInvalidLeaseToken)
    (Failed "lease-1" FInvalidLeaseToken);;;
  assert_eq generation_completion_success Completed.

Definition stream_capture_commits_concatenated_raw_chunks_after_success : Check :=
  let capture := push_chunk (as_bytes " world") (push_chunk [x00; x01; x02]
    (push_chunk (as_bytes "hello ") StreamCapture_new)) in
  captured <- expect_ok (finish "lease-1" capture);;
  assert_eq captured {| cs_lease_token := "lease-1";
    cs_value := as_bytes "hello " ++ [x00; x01; x02] ++ as_bytes " world" |}.

Definition stream_capture_does_not_publish_failed_generations : Check :=
  let capture := push_chunk (as_bytes " ignored") (mark_failed
    (push_chunk (as_bytes "partial") StreamCapture_new)) in
  assert_eq (finish "lease-1" capture) (Err GenerationFailed).

Definition stream_capture_replay_bytes_are_deterministic : Check :=
  first <- expect_ok (finish "lease-1" (push_chunk (as_bytes "b")
    (push_chunk (as_bytes "a") StreamCapture_new)));;
  second <- expect_ok (finish "lease-2" (push_chunk (as_bytes "ab") StreamCapture_new));;
  assert_eq (cs_value first) (cs_value second).

(** Every test of [ai.rs] passes on the model. *)
Theorem ai_tests_pass :
  Forall (λ test : Check, passes test tt = true)
    [prompt_keys_are_deterministic_for_equivalent_inputs;
     prompt_keys_change_for_meaningful_input_changes; prompt_key_output_is_binary_safe_ascii;
     message_order_affects_prompt_keys; missing_optional_fields_are_distinct_from_empty_values;
     embedding_keys_are_deterministic_for_equivalent_inputs;
     embedding_keys_change_for_model_input_chunking_and_dimensions;
     embedding_key_output_is_binary_safe_ascii; generation_lease_helper_returns_fresh_hits;
     generation_lease_helper_returns_stale_values;
     generation_lease_helper_generates_only_when_granted;
     generation_lease_helper_retries_later_when_denied;
     generation_completion_failure_preserves_token_and_reason;
     stream_capture_commits_concatenated_raw_chunks_after_success;
     stream_capture_does_not_publish_failed_generations;
     stream_capture_replay_bytes_are_deterministic].
Proof. repeat (constructor; [vm_compute; reflexivity|]). constructor. Qed.
End AiTests.
