(* ===== verification/ServerTests.v ===== *)
(** * ServerTests: the tests of [src/server.rs] on the model

    [mod tests].  A client of [run_native_tcp_listener] or of
    [run_native_unix_listener] is a connection of [Connection] on the state of
    a fresh server: what it writes is received in one read, and it reads what
    the connection then wrote.  Time stands still where the test does not
    sleep. *)

From S2P Require Import Prelude Bytes Protocol Engine Sharded Config Server Connection Startup.
From S2P Require Import Cachebox TestKit EngineTests.

Module ServerTests.
Import Protocol Codec Metrics Server Connection Cachebox TestKit.
#[local] Open Scope test_scope.

#[local] Existing Instance Engine.canonical_order.
#[local] Existing Instance EngineTests.test_env.
#[local] Existing Instance Startup.Event_eq_dec.

#[local] Instance SrvBatchItem_eq : EqDecision BatchItem.
Proof. solve_decision. Defined.
#[local] Instance SrvResponsePayload_eq : EqDecision ResponsePayload.
Proof. solve_decision. Defined.
#[local] Instance SrvFrameDrain_eq : EqDecision FrameDrain.
Proof. solve_decision. Defined.

Abbreviation Check := (Test unit unit).

Definition clk : Engine.Clock := Engine.manual_clock 1000.

(** ** Fixtures *)

(** [AppState::from_config(&Config::default())], and the test on it. *)
Definition on_default_state (test : Test AppState unit) : bool :=
  match Config.Config_default with
  | Some config =>
    match from_config config with
    | Some st => passes test st
    | None => false
    end
  | None => false
  end.

(** A handler as a step of a test. *)
Definition handled {A} (h : Handler A) : Test AppState A := h.

(** [native_test_client], [native_unix_test_client]: a connection to a server. *)
Definition connected {A} (test : Test (Conn * AppState) A) : Test AppState unit := λ st,
  match test (Conn_new, st) with
  | Some (_, (_, st)) => Some (tt, st)
  | None => None
  end.

(** What the client writes, and what the connection writes in answer. *)
Definition exchange (bs : bytes) : Test (Conn * AppState) bytes := λ s,
  match on_frames 8192 1 clk (received bs s.1) s.2 with
  | Some (c, st) => Some (concat (drop (length (c_output s.1)) (c_output c)), (c, st))
  | None => None
  end.

(** [read_native_response]: the header, and the payload of the length it gives. *)
Definition read_native_response (input : bytes) : Test (Conn * AppState) (ResponseFrame * bytes) :=
  assert_that (HEADER_LEN <=? len input);;;
  let n := HEADER_LEN + from_be_bytes (slice input 16 20) in
  assert_that (n <=? len input);;;
  frame <- expect_ok (decode_response_frame (take (N.to_nat n) input) 8192);;
  tret (frame, drop (N.to_nat n) input).

Definition native_roundtrip (id : N) (command : Command) (payload : RequestPayload) :
    Test (Conn * AppState) ResponsePayload :=
  bs <- expect_some (encode_request_frame
    {| rq_request_id := id; rq_command := command; rq_payload := payload |});;
  answer <- exchange bs;;
  r <- read_native_response answer;;
  assert_eq r.2 [];;;
  tret (rs_payload r.1).

Definition roundtrip_is (id : N) (command : Command) (payload : RequestPayload)
    (expected : ResponsePayload) : Test (Conn * AppState) unit :=
  r <- native_roundtrip id command payload;; assert_eq r expected.

(** ** Admin routes and the worker *)

Definition oneshot (method : HttpMethod) (path : string) : Test AppState AdminResponse := λ st,
  app_with_state st method path.

Definition healthz_responds_ok : Test AppState unit :=
  response <- oneshot GET "/healthz";;
  assert_eq (status response) 200;;;
  assert_eq (body response) "ok"%string.

Definition admin_http_rejects_cache_routes : Test AppState unit :=
  response <- oneshot OtherMethod "/v1/namespaces/default/keys/blob";;
  assert_eq (status response) 404;;;
  assert_eq (body response)
    "HTTP is admin-only; use the native socket protocol for cache operations"%string.

Definition expiration_worker_is_disabled_by_zero_interval : Check :=
  assert_that (negb (expiration_worker_enabled 0)).

(** The ticks of an interval of 5 milliseconds during the 30 of the sleep. *)
Definition expiration_worker_reclaims_expired_entries_with_budget : Test AppState unit :=
  assert_that (expiration_worker_enabled 5);;;
  for_in ["a"; "b"; "c"]%string (λ key,
    r <- handled (call (Sharded.put clk
      (EngineTests.with_ttl 1 (Engine.put_command "default" key "value"))));;
    expect_ok r;;; tret tt);;;
  for_in [5; 10; 15; 20; 25; 30] (λ ms, λ st,
    Some (tt, expiration_tick (Engine.manual_clock (1000 + ms)) 1 st));;;
  λ st, (assert_eq (Sharded.len_entries (engine st)) 0;;;
         assert_eq (Engine.expirations (Sharded.stats (engine st))) 3) st.

Definition metrics_snapshot_aggregates_request_shards : Test AppState unit :=
  (λ st, count (shard_for_request 1 1 (metrics st)) get_requests st);;;
  (λ st, count (shard_for_request 2 1 (metrics st)) hits_total st);;;
  handled (count admin_shard requests_total);;;
  λ st, let snapshot := snapshot (metrics st) in
    (assert_eq (snapshot requests_total) 1;;;
     assert_eq (snapshot get_requests) 1;;;
     assert_eq (snapshot hits_total) 1) st.

(** ** Framing *)

Definition coalesce_native_responses_drains_queued_frames_in_order : Check :=
  assert_eq (coalesce_native_responses [x01; x02] [[x03; x04]; [x05]])
    ([x01; x02; x03; x04; x05], []).

Definition get_frame (id : N) (key : string) : RequestFrame :=
  {| rq_request_id := id; rq_command := Get; rq_payload := RGet "default" (as_bytes key) |}.

Definition find_complete_native_frames_returns_all_buffered_ranges : Check :=
  first <- expect_some (encode_request_frame (get_frame 1 "a"));;
  second <- expect_some (encode_request_frame (get_frame 2 "b"));;
  let buffer := first ++ second in
  match find_complete_native_frames buffer 8192 with
  | Frames frames =>
    assert_eq frames [(0, len first); (len first, len buffer)];;;
    assert_eq (frames_of buffer frames) [first; second];;;
    assert_eq (drain_frame_ranges buffer frames) []
  | _ => λ _, None
  end.

Definition find_complete_native_frames_keeps_partial_frame_buffered : Check :=
  frame <- expect_some (encode_request_frame (get_frame 1 "a"));;
  let buffer := take (length frame - 3) frame in
  assert_eq (find_complete_native_frames buffer 8192) NeedMore.

Definition find_complete_native_frames_closes_on_oversized_payload : Check :=
  frame <- expect_some (encode_request_frame (get_frame 1 "a"));;
  let buffer := take 16 frame ++ to_be_bytes 4 9000 ++ drop 20 frame in
  assert_eq (find_complete_native_frames buffer 8192) Close.

(** ** Sockets *)

Definition group_metadata : Metadata :=
  {| md_ttl := Some {| milliseconds := 60000 |}; md_stale_ttl := None; md_cost := Some 7;
     md_tags := ["group"%string]; md_content_type := OctetStream |}.

Definition key (s : string) : bytes := as_bytes s.

Definition native_tcp_supports_cache_workflow : Test (Conn * AppState) unit :=
  roundtrip_is 1 Put (RPut "default" (key "k") group_metadata (as_bytes "value")) (PStored 0);;;
  roundtrip_is 2 Get (RGet "default" (key "k")) (PHit (as_bytes "value"));;;
  roundtrip_is 3 BatchGet (RBatchGet "default" [key "k"; key "missing"])
    (PBatchGet [BHit (as_bytes "value"); BMiss]);;;
  roundtrip_is 4 Put (RPut "default" (key "delete-me") Metadata_default (as_bytes "temporary"))
    (PStored 0);;;
  roundtrip_is 5 Delete (RDelete "default" (key "delete-me")) (PDeleted true);;;
  roundtrip_is 6 Get (RGet "default" (key "delete-me")) PMiss;;;
  roundtrip_is 7 TagInvalidate (RTagInvalidate "default" "group") (PInvalidated 1);;;
  roundtrip_is 8 Get (RGet "default" (key "k")) PMiss.

Definition pipelined_requests : list RequestFrame :=
  [{| rq_request_id := 101; rq_command := Put;
      rq_payload := RPut "default" (key "pipelined") Metadata_default (as_bytes "value") |};
   {| rq_request_id := 102; rq_command := Get; rq_payload := RGet "default" (key "pipelined") |};
   {| rq_request_id := 103; rq_command := Get; rq_payload := RGet "default" (key "missing") |}].

(** The tasks of the three frames in the order [order]. *)
Fixpoint run_tasks (frames : list bytes) (order : list nat) : Test (Conn * AppState) bytes :=
  match order with
  | [] => tret []
  | i :: order =>
    frame <- expect_some (frames !! i);;
    response <- (λ s, match execute_native_frame_bytes_into clk frame 8192 1 [] s.2 with
                      | Some (r, st) => Some (r, (s.1, st))
                      | None => None
                      end);;
    rest <- run_tasks frames order;; tret (response ++ rest)
  end.

Definition native_tcp_supports_pipelined_requests_on_one_connection (order : list nat) :
    Test (Conn * AppState) unit :=
  frames <- expect_some (mapM encode_request_frame pipelined_requests);;
  exchange (concat frames);;;
  backlog <- (λ s, Some (c_backlog s.1, s));;
  assert_eq backlog frames;;;
  answers <- run_tasks backlog order;;
  r1 <- read_native_response answers;; r2 <- read_native_response r1.2;;
  r3 <- read_native_response r2.2;;
  let response id := find (λ r, rs_request_id r =? id) [r1.1; r2.1; r3.1] in
  r <- expect_some (response 101);;
  assert_eq (rs_payload r) (PStored 0);;; assert_eq (rs_command r) Put;;;
  r <- expect_some (response 102);;
  assert_that (match rs_payload r with PHit _ | PMiss => true | _ => false end);;;
  assert_eq (rs_command r) Get;;;
  r <- expect_some (response 103);;
  assert_eq (rs_payload r) PMiss;;; assert_eq (rs_command r) Get.

Definition native_tcp_returns_protocol_error_for_invalid_frame : Test (Conn * AppState) unit :=
  let frame := MAGIC ++ [VERSION; x00; xff; x00] ++ to_be_bytes 8 42 ++ to_be_bytes 4 0 ++
    to_be_bytes 4 0 in
  answer <- exchange frame;;
  r <- read_native_response answer;;
  assert_eq (rs_request_id r.1) 42;;;
  assert_eq (rs_command r.1) Get;;;
  assert_that (match rs_payload r.1 with PError UnknownCommand _ => true | _ => false end).

Definition ttl_only : Metadata :=
  {| md_ttl := Some {| milliseconds := 60000 |}; md_stale_ttl := None; md_cost := None;
     md_tags := []; md_content_type := OctetStream |}.

Definition native_tcp_supports_lease_workflow : Test (Conn * AppState) unit :=
  let start := RLeaseStart "default" (key "lease-key") 60000 None in
  lease <- native_roundtrip 1 LeaseStart start;;
  token <- match lease with
           | PLeaseGranted token stale_value => assert_eq stale_value None;;; tret token
           | _ => λ _, None
           end;;
  roundtrip_is 2 LeaseStart start PLeaseDenied;;;
  roundtrip_is 3 LeaseComplete
    (RLeaseComplete "default" (key "lease-key") token ttl_only (as_bytes "fresh")) (PStored 0);;;
  roundtrip_is 4 LeaseStart start (PHit (as_bytes "fresh")).

Definition native_unix_socket_supports_cache_workflow : Test (Conn * AppState) unit :=
  roundtrip_is 1 Put (RPut "default" (key "unix-key") Metadata_default (as_bytes "unix-value"))
    (PStored 0);;;
  roundtrip_is 2 Get (RGet "default" (key "unix-key")) (PHit (as_bytes "unix-value")).

(** A socket file that nobody serves refuses the connection. *)
Definition native_unix_bind_removes_stale_socket_file : Check :=
  let os := {| Startup.os_bind_admin := Ok tt; Startup.os_local_addr := Err {| Startup.kind := Startup.OtherKind; Startup.message := "" |};
    Startup.os_bind_native := Ok tt; Startup.os_exists := true;
    Startup.os_connect := Err {| Startup.kind := Startup.OtherKind; Startup.message := "connection refused" |};
    Startup.os_is_socket := Ok true; Startup.os_remove := Ok tt; Startup.os_bind_unix := Ok tt;
    Startup.os_ctrl_c := true; Startup.os_serve := Ok tt; Startup.os_remove_at_exit := Ok tt |} in
  let '(r, effects) := Startup.bind_native_unix_listener os "stale.sock" [] in
  expect_ok r;;;
  assert_eq effects [Startup.Removed "stale.sock"; Startup.BoundUnix "stale.sock"].

(** ** Execution and counters *)

Definition execute_native_payload (payload : RequestPayload) : Test AppState ResponsePayload :=
  handled (execute_native_payload_with_metrics clk admin_shard payload).

Definition executes_to (payload : RequestPayload) (expected : ResponsePayload) :
    Test AppState unit :=
  r <- execute_native_payload payload;; assert_eq r expected.

Definition counters_are (expected : list (Counter * N)) : Test AppState unit := λ st,
  for_in expected (λ '(c, n), assert_eq (snapshot (metrics st) c) n) st.

Definition tagged_metadata (tag : string) : Metadata :=
  {| md_ttl := md_ttl Metadata_default; md_stale_ttl := md_stale_ttl Metadata_default;
     md_cost := md_cost Metadata_default; md_tags := [tag];
     md_content_type := md_content_type Metadata_default |}.

Definition cost_metadata (cost : N) : Metadata :=
  {| md_ttl := md_ttl Metadata_default; md_stale_ttl := md_stale_ttl Metadata_default;
     md_cost := Some cost; md_tags := md_tags Metadata_default;
     md_content_type := md_content_type Metadata_default |}.

Definition native_execution_uses_decoded_payloads_without_http_request_accounting :
    Test AppState unit :=
  let start := RLeaseStart "default" (key "lease-direct") 60000 None in
  executes_to (RPut "default" (key "direct-key") (tagged_metadata "direct-tag")
    (as_bytes "direct-value")) (PStored 0);;;
  executes_to (RGet "default" (key "direct-key")) (PHit (as_bytes "direct-value"));;;
  executes_to (RBatchGet "default" [key "direct-key"; key "missing"])
    (PBatchGet [BHit (as_bytes "direct-value"); BMiss]);;;
  executes_to (RTagInvalidate "default" "direct-tag") (PInvalidated 1);;;
  lease <- execute_native_payload start;;
  token <- match lease with PLeaseGranted token _ => tret token | _ => λ _, None end;;
  executes_to (RLeaseComplete "default" (key "lease-direct") token Metadata_default
    (as_bytes "lease-value")) (PStored 0);;;
  executes_to start (PHit (as_bytes "lease-value"));;;
  counters_are [(requests_total, 0); (put_requests, 1); (get_requests, 1);
    (batch_get_requests, 1); (tag_invalidate_requests, 1); (hits_total, 3); (misses_total, 1);
    (lease_grants, 1)].

(** [str::contains] *)
Definition contains (text part : string) : bool :=
  match String.index 0 part text with Some _ => true | None => false end.

Definition metrics_endpoint_reports_native_request_and_engine_counters : Test AppState unit :=
  executes_to (RPut "default" (key "expensive") (cost_metadata 99) (as_bytes "value")) (PStored 0);;;
  executes_to (RGet "default" (key "expensive")) (PHit (as_bytes "value"));;;
  executes_to (RGet "default" (key "missing")) PMiss;;;
  response <- oneshot GET "/metrics";;
  assert_eq (status response) 200;;;
  for_in ["cachebox_requests_total 0"; "cachebox_requests_get_total 2";
          "cachebox_requests_put_total 1"; "cachebox_cache_hits_total 1";
          "cachebox_cache_misses_total 1"; "cachebox_cost_score_total 99"]%string
    (λ line, assert_that (contains (body response) line)).

(** ** Running them *)

(** Every test of [src/server.rs] passes on the model, the pipelined one for
    each order of its tasks. *)
Theorem server_tests_pass :
  Forall (λ b, b = true)
    [on_default_state healthz_responds_ok;
     passes expiration_worker_is_disabled_by_zero_interval tt;
     on_default_state expiration_worker_reclaims_expired_entries_with_budget;
     on_default_state metrics_snapshot_aggregates_request_shards;
     passes coalesce_native_responses_drains_queued_frames_in_order tt;
     passes find_complete_native_frames_returns_all_buffered_ranges tt;
     passes find_complete_native_frames_keeps_partial_frame_buffered tt;
     passes find_complete_native_frames_closes_on_oversized_payload tt;
     on_default_state (connected native_tcp_supports_cache_workflow);
     forallb (λ order, on_default_state (connected
       (native_tcp_supports_pipelined_requests_on_one_connection order)))
       [[0; 1; 2]; [0; 2; 1]; [1; 0; 2]; [1; 2; 0]; [2; 0; 1]; [2; 1; 0]]%nat;
     on_default_state (connected native_tcp_returns_protocol_error_for_invalid_frame);
     on_default_state native_execution_uses_decoded_payloads_without_http_request_accounting;
     on_default_state (connected native_tcp_supports_lease_workflow);
     on_default_state (connected native_unix_socket_supports_cache_workflow);
     passes native_unix_bind_removes_stale_socket_file tt;
     on_default_state admin_http_rejects_cache_routes;
     on_default_state metrics_endpoint_reports_native_request_and_engine_counters].
Proof. repeat (constructor; [vm_compute; reflexivity|]). constructor. Qed.
End ServerTests.
